(* ===== verification/_CoqProject ===== *)
-Q . S2P
Prelude.v
Event.v
StringUtils.v
Guc.v
Shared.v
Dsa.v
Intern.v
Ring.v
LocalBatch.v
InternInv.v
RingInv.v
RingSpec.v
QueueSpec.v
QueueThms.v
BatchThms.v
Startup.v
Loading.v
RingConc.v
RingLive.v
WeakMem.v
RingWeak.v
RingWeakThms.v
InternConc.v
InternConcThms.v
InternLive.v
InternMoves.v
InternSeq.v
QueueConc.v
QueueConcInv.v
QueueConcThms.v
QueueConcLive.v
QueueConcSeq.v
NormalizeCache.v
Normalize.v
Hooks.v
HookThms.v
SessionThms.v
Exporter.v
Diagnostics.v
Bgworker.v
Arrow.v
Otel.v
ChcConnection.v
ChcConnectionThms.v
ClickHouse.v
ArrowThms.v
ExporterThms.v
OtelThms.v
ClickHouseThms.v
WorkerThms.v
DeliveryThms.v
DrainThms.v
