(* ===== verification/Prelude.v ===== *)
(** * pg_stat_ch: a verified model of the query-telemetry extension

    pg_stat_ch is a PostgreSQL extension. Hooks in every backend turn executed
    statements and logged messages into events; a bounded ring buffer in shared
    memory carries them to one background worker, which exports them in batches
    to ClickHouse or to an OpenTelemetry collector. This development models the
    C code of the extension and the C++ code of its exporter with both back ends,
    and proves that an event handed over by a hook is delivered intact and in order,
    or counted as dropped, up to what the exporter hands to the client libraries.

    ** Parts and files

    Data and environment:
    - [Event.v]: [queue/event.h] and [queue/ring_entry.h], the two structs with
      every field, and their C layout (Module [Layout]);
    - [Guc.v]: [config/guc.c], every configuration variable;
    - [Shared.v]: the shared struct of [queue/psch_dsa.h], the interner's structs,
      and [Sys], one process's view of shared memory and its own variables. The
      PostgreSQL services the code calls are the fields of [Env], what is assumed of
      them is [EnvLaws];
    - [StringUtils.v]: [hooks/string_utils.h].

    The queue:
    - [Dsa.v]: [queue/psch_dsa.c]; [Intern.v]: [queue/query_intern.c];
    - [Ring.v]: [queue/shmem.c], enqueue under the lock, dequeue, statistics;
    - [LocalBatch.v]: [queue/local_batch.c], [PschEnqueueEvent], process exit;
    - [Startup.v]: the sizing, layout and initialisation part of [queue/shmem.c];
    - [RingConc.v]: the same ring as interleaved steps of producers (one event or a
      batch), the lock-free consumer, statistics readers and the operations that
      reset or record under the lock, one shared access per step;
    - [InternConc.v]: the interner as interleaved steps of acquiring and releasing
      processes, with the partition locks; [InternMoves.v]: what one step of it changes;
    - [QueueConc.v]: both together as one machine, with the ring's slots, which hold
      references of the interner, and the strings of error messages;
    - [WeakMem.v]: memory whose reads may return old values, ordered by PostgreSQL's
      barriers and locks only; [RingWeak.v]: the ring on it, slots copied in parts.

    The hooks:
    - [NormalizeCache.v]: [hooks/query_normalize_state.c];
    - [Normalize.v]: [hooks/query_normalize.c];
    - [Hooks.v]: [hooks/hooks.c].

    The worker:
    - [Exporter.v]: [export/stats_exporter.cc] over the interface of
      [export/exporter_interface.h], a class with laws; [Diagnostics.v]: its dump of
      Arrow blocks, its report of negative values, its handler of uncaught exceptions;
    - [ChcConnection.v], [ClickHouse.v]: [export/clickhouse_exporter.cc], the connection
      with the descriptors, objects and memory it holds, the allocation callbacks, and
      the exporter with its block builder as an instance of the class;
    - [Arrow.v]: [export/arrow_batch.cc], an instance of the builder's class;
    - [Otel.v]: [export/otel_exporter.cc], the second instance of the exporter's class;
    - [Bgworker.v]: [worker/bgworker.c] and the SQL functions of [pg_stat_ch.c];
    - [Loading.v]: [_PG_init], the installation of the hooks of [hooks/hooks.c] and
      [queue/shmem.c], the registration of the worker.

    Each operation is one definition with the source's name. Operations on state
    are computations of the monad [M S A] of this file, [S -> option A * S]: [None]
    is a PostgreSQL error, and the state reached is kept, so that what an error
    leaves behind can be stated. [pg_finally] is [PG_TRY]/[PG_FINALLY]. The exporter
    adds C++ exceptions ([C S A]), which [try]/[catch] stops. Integers are [Z] with
    the wrap-around of their C type written out ([u16], [u32], [u64], [i32], ...);
    text buffers are byte lists of the declared size with their NUL. A theorem
    [wp m Q E s] says that [m], run in [s], returns with [Q] or leaves by an error
    with [E]; [E = False] excludes errors.

    ** Theorems

    - Queue ([InternInv.v], [RingInv.v], [RingSpec.v], [QueueSpec.v], [QueueThms.v],
      [BatchThms.v]): the invariant [ring_inv] ties ring slots, DSA heap and intern
      table together; the abstract queue [abs] is the list of events as the consumer
      will see them. Enqueue, batch enqueue, transaction end and dequeue refine a
      bounded FIFO, count what they drop, restore lock and guard on every exit and
      give storage back; process exit completes.
    - Startup ([Startup.v]): the regions of the shared block do not overlap, and the
      startup hook establishes [ring_inv].
    - Concurrency ([RingConc.v]): order, capacity, mutual exclusion and the absence
      of torn reads under every interleaving, and two races of the lock-free reads.
      Progress ([RingLive.v]): an enqueue is wait-free, the lock is always given back,
      the consumer drains the queue by itself. The interner ([InternConcThms.v],
      [InternLive.v], [InternSeq.v]): no object is used after or freed twice and none is
      left behind, counts and texts are exact under every interleaving; every call can be
      completed; a call that is not interrupted is the function of [Intern.v].
      The whole queue ([QueueConcInv.v], [QueueConcThms.v], [QueueConcLive.v],
      [QueueConcSeq.v]): events
      reach the worker in order with their texts, whatever the backends, the allocator
      and the errors do, nothing is used after it was freed, an empty queue holds no
      memory but what an allocation error left behind, the intern table is never full,
      and the worker can always go on; an enqueue, a batch or a dequeue that no other
      process interrupts is the function of [Ring.v] or [LocalBatch.v], errors included,
      so that what is proved of the functions is proved of such runs. Barriers ([RingWeakThms.v]): on weakly ordered
      memory the ring delivers whole events in order with the barriers the code has,
      and a torn event is possible without either of two of them.
    - Normalization ([NormalizeCache.v], [Normalize.v]): the cache refines an abstract
      LRU map; the text refines a reference that replaces constants.
    - Sessions ([HookThms.v], [SessionThms.v]): [Stmt] is a program of nested
      statements, utility commands, errors and blocks that catch them; running one
      restores the nesting level and keeps the queue and the session sound; what an
      event says is what the statement did; log capture is safe inside error
      reporting.
    - Export ([ExporterThms.v], [WorkerThms.v]): a batch is accounted for with any back
      end and any builder that keep the laws of their classes, the drain loop ends, the
      retry delay is an exponential back-off; flush requests; statistics and their
      reset. ClickHouse ([ChcConnectionThms.v], [ClickHouseThms.v]): a batch arrives as a
      table, connecting is bounded, nothing leaks; what happens when the server is away
      or refuses a batch. From the queue to the server ([DeliveryThms.v]): an export call
      sends its events once, as one table, and they are acknowledged or lost as a whole;
      over a whole run every event is in exactly one batch or still waits. When nothing
      fails ([DrainThms.v]): a server that answers and memory that lasts; one call of the
      drain loop brings all that waits to the server, which is why the loop's fuel, one
      turn more than there are events, is enough. Arrow ([ArrowThms.v]): a finished block is the table of its
      events, the values fit their columns, extra attributes are read back as written.
      OpenTelemetry ([OtelThms.v]): what the collector accepts is the leading chunks of
      the batch, in order, on either path, and pointers into a replaced arena are not
      followed.

    ** Bounds and fuel

    [shmem_exit] takes the number of callbacks it may run; twice the registered
    ones plus one is proved enough, since only the detach callback can be registered
    again. [drain_loop] takes the number of rounds; one more than the
    events waiting is proved enough. [DequeueLoop] runs at most the batch size and
    [RecvUntil] at most [kMaxRecvPackets] times, as in the code. [parse_loop] may take
    as many tokens as the input has bytes, and each takes at least one byte.
    [poll_loop] follows the list of results of [poll], with finitely many interrupts.
    [PschBgworkerMain] has the number of turns of its endless loop as an argument.
    All other recursion is structural.

    ** Not modelled

    PostgreSQL itself (allocator, hash tables, locks, lexer, catalogs, clock), the
    clickhouse-c client, the Arrow library, gRPC and protobuf, OpenSSL and the calls of
    the operating system are parameters. Most texts that only reach the log are left
    out. In [RingConc.v], [InternConc.v] and [QueueConc.v] memory is sequentially
    consistent, and in [RingConc.v] a slot holds one event; the first two are parts of
    the third. [RingWeak.v] has weakly ordered memory but leaves out the counters, the
    readers of statistics and the texts; in it a store never becomes visible before an
    earlier load of the same process is done, so that it does not show what the
    consumer's write barrier is for. [InternConc.v] assumes that fewer than [2^32]
    references are out; [QueueConcInv.v] proves it. Floating-point quotients are exact
    fractions. The hooks are those of a build for PostgreSQL 18. Headers with
    prototypes, SQL scripts, schemas and tests hold no logic of their own. *)

From stdpp Require Export base option numbers strings gmap list.
#[global] Open Scope Z_scope.

(** ** Record field update

    [r <| field := v |>] is the record [r] with one field replaced; the setter
    is derived from the eta-expansion a record type declares once. *)

Class Eta (R : Type) := eta_expand : R → R.
Class FieldSetter {R T : Type} (field : R → T) := set_field : (T → T) → R → R.
Arguments set_field {R T} field {_} f r.

Ltac derive_setter R field :=
  lazymatch constr:(eta_expand (R := R)) with
  | @eta_expand _ ?inst =>
    let body := eval red in inst in
    lazymatch eval pattern field in body with
    | ?k _ => let t := eval cbv beta in (λ f, k (λ r, f (field r))) in exact t
    end
  end.
#[export] Hint Extern 1 (@FieldSetter ?R _ ?field) =>
  derive_setter R field : typeclass_instances.

Declare Scope psch_scope.
Delimit Scope psch_scope with psch.
Notation "r <| field ::= f |>" := (set_field field f r)
  (at level 1, left associativity, f at level 99, format "r  <| field  ::=  f |>") : psch_scope.
Notation "r <| field := v |>" := (set_field field (λ _, v) r)
  (at level 1, left associativity, v at level 99, format "r  <| field  :=  v |>") : psch_scope.
#[global] Open Scope psch_scope.

(** ** Machine integers

    Values of C integer types are integers kept in range by these casts. *)

Definition u8 (z : Z) : Z := z mod 2 ^ 8.
Definition u16 (z : Z) : Z := z mod 2 ^ 16.
Definition u32 (z : Z) : Z := z mod 2 ^ 32.
Definition u64 (z : Z) : Z := z mod 2 ^ 64.
Definition sint (w z : Z) : Z := (z + 2 ^ (w - 1)) mod 2 ^ w - 2 ^ (w - 1).
Definition i16 (z : Z) : Z := sint 16 z.
Definition i32 (z : Z) : Z := sint 32 z.
Definition i64 (z : Z) : Z := sint 64 z.

Definition is_u16 (z : Z) : Prop := 0 ≤ z < 2 ^ 16.
Definition is_u64 (z : Z) : Prop := 0 ≤ z < 2 ^ 64.

(** ** Memory of [char] arrays

    A [char] buffer is the list of its bytes; its length is the size the C
    declaration gives it, so a write that keeps the length stayed inside. *)

Abbreviation bytes := (list Z).

(** The C string a memory starting at the pointer holds: the bytes before the
    first NUL. *)
Fixpoint cstr (mem : bytes) : bytes :=
  match mem with
  | [] => []
  | c :: rest => if c =? 0 then [] else c :: cstr rest
  end.

Definition strlen (mem : bytes) : Z := Z.of_nat (length (cstr mem)).

(** [memcpy] of [src] into [dst] at offset [off]. *)
Definition blit (off : nat) (src dst : bytes) : bytes :=
  take off dst ++ src ++ drop (off + length src) dst.

(** [strlcpy(dst, src, dst_size)]: copies at most [dst_size - 1] bytes, always
    terminates when [dst_size] is not zero, returns [strlen src]. *)
Definition strlcpy (dst : bytes) (dst_size : Z) (src : bytes) : bytes * Z :=
  if dst_size =? 0 then (dst, strlen src)
  else (blit 0 (take (Z.to_nat (dst_size - 1)) (cstr src) ++ [0]) dst, strlen src).

(** [isspace] in the C locale. *)
Definition isspace (c : Z) : bool := (c =? 32) || ((9 <=? c) && (c <=? 13)).

Definition bytes_of_string (s : string) : bytes :=
  map (λ a, Z.of_N (Ascii.N_of_ascii a)) (String.list_ascii_of_string s).

(** ** Stateful code that can raise

    [M S A] is C code over the state [S]: it either returns, or leaves by
    [ereport(ERROR)] ([None]); either way the effects done so far stay. *)

Definition M (S A : Type) : Type := S → option A * S.

#[global] Instance M_ret {S} : MRet (M S) := λ A x s, (Some x, s).
#[global] Instance M_bind {S} : MBind (M S) := λ A B f m s,
  match m s with
  | (Some a, s') => f a s'
  | (None, s') => (None, s')
  end.

Definition raise {S A} : M S A := λ s, (None, s).
Definition gets {S A} (f : S → A) : M S A := λ s, (Some (f s), s).
Definition modify {S} (f : S → S) : M S unit := λ s, (Some tt, f s).

(** [PG_TRY(); body; PG_FINALLY(); fin; PG_END_TRY();]: [fin] runs on both
    exits, and an error of [body] is raised again after it. *)
Definition pg_finally {S A} (body : M S A) (fin : M S unit) : M S A := λ s,
  match body s with
  | (Some a, s1) => match fin s1 with
                    | (Some _, s2) => (Some a, s2)
                    | (None, s2) => (None, s2)
                    end
  | (None, s1) => match fin s1 with
                  | (Some _, s2) => (None, s2)
                  | (None, s2) => (None, s2)
                  end
  end.

(** [for (int i = 0; i < n; i++) body(i)] over the elements it visits. *)
Fixpoint for_each {S A} (body : A → M S unit) (l : list A) : M S unit :=
  match l with
  | [] => mret tt
  | x :: rest => _ ← body x; for_each body rest
  end.

(** Weakest precondition: [Q] after a return, [E] after an error. *)
Definition wp {S A} (m : M S A) (Q : A → S → Prop) (E : S → Prop) (s : S) : Prop :=
  match m s with
  | (Some a, s') => Q a s'
  | (None, s') => E s'
  end.

Section wp_rules.
Context {S : Type}.

Lemma wp_ret {A} (x : A) (Q : A → S → Prop) E s : Q x s → wp (mret x) Q E s.
Proof. done. Qed.

Lemma wp_bind {A B} (m : M S A) (k : A → M S B) Q E s :
  wp m (λ a s', wp (k a) Q E s') E s → wp (m ≫= k) Q E s.
Proof.
  unfold wp, mbind, M_bind. destruct (m s) as [[a|] s']; done.
Qed.

Lemma wp_raise {A} (Q : A → S → Prop) (E : S → Prop) s : E s → wp raise Q E s.
Proof. done. Qed.

Lemma wp_gets {A} (f : S → A) (Q : A → S → Prop) E s : Q (f s) s → wp (gets f) Q E s.
Proof. done. Qed.

Lemma wp_modify (f : S → S) (Q : unit → S → Prop) E s : Q tt (f s) → wp (modify f) Q E s.
Proof. done. Qed.

Lemma wp_mono {A} (m : M S A) (Q Q' : A → S → Prop) (E E' : S → Prop) s :
  (∀ a s', Q a s' → Q' a s') → (∀ s', E s' → E' s') → wp m Q E s → wp m Q' E' s.
Proof. unfold wp. destruct (m s) as [[a|] s']; auto. Qed.

(** What a weakest precondition says of the run itself. *)
Lemma wp_run_spec {A} (m : M S A) (Q : A → S → Prop) E s :
  wp m Q E s → ∃ r s', m s = (r, s') ∧ match r with Some a => Q a s' | None => E s' end.
Proof. unfold wp. destruct (m s) as [[a|] s']; eauto. Qed.

(** The finaliser's postcondition is established on both exits. *)
Lemma wp_finally {A} (body : M S A) fin (Q : A → S → Prop) E s :
  wp body (λ a s', wp fin (λ _ s'', Q a s'') E s') (λ s', wp fin (λ _ s'', E s'') E s') s →
  wp (pg_finally body fin) Q E s.
Proof.
  unfold wp, pg_finally.
  destruct (body s) as [[a|] s1]; destruct (fin s1) as [[u|] s2]; done.
Qed.

(** A loop keeps an invariant indexed by what is left to visit. *)
Lemma wp_for_each {A} (body : A → M S unit) (I : list A → S → Prop) E l s :
  (∀ x rest s', I (x :: rest) s' → wp (body x) (λ _ s'', I rest s'') E s') →
  I l s → wp (for_each body l) (λ _ s', I [] s') E s.
Proof.
  intros Hstep. revert s. induction l as [|x l IH]; intros s HI; simpl.
  - by apply wp_ret.
  - apply wp_bind. eapply wp_mono; [|done|by apply Hstep].
    intros ? s' HI'. by apply IH.
Qed.

End wp_rules.

Create HintDb psch discriminated.
Create Rewrite HintDb psch_simpl.

(** Symbolic execution of monadic code, one construct at a time. *)
Ltac wp_step :=
  lazymatch goal with
  | |- wp (_ ≫= _) _ _ _ => apply wp_bind
  | |- wp (gets _) _ _ _ => apply wp_gets
  | |- wp (modify _) _ _ _ => apply wp_modify
  | |- wp (mret _) _ _ _ => apply wp_ret
  | |- wp raise _ _ _ => apply wp_raise
  end; cbn beta.
Ltac wp_run := repeat wp_step.

(** ** Functions updated at a point *)

Definition upd {A} (f : nat → A) (p : nat) (x : A) : nat → A := λ q, if (q =? p)%nat then x else f q.

Lemma upd_same {A} (f : nat → A) p x : upd f p x p = x.
Proof. unfold upd. by rewrite Nat.eqb_refl. Qed.

Lemma upd_other {A} (f : nat → A) p q x : q ≠ p → upd f p x q = f q.
Proof. intros H. unfold upd. by destruct (Nat.eqb_spec q p). Qed.

(** ** Arithmetic of widths and masks *)

Lemma u64_range z : is_u64 (u64 z).
Proof. unfold is_u64, u64. apply Z.mod_pos_bound. lia. Qed.

Lemma u64_small z : is_u64 z → u64 z = z.
Proof. unfold is_u64, u64. intros. by apply Z.mod_small. Qed.

Lemma u64_u64 z : u64 (u64 z) = u64 z.
Proof. unfold u64. by rewrite Z.mod_mod. Qed.

Lemma u16_range z : is_u16 (u16 z).
Proof. unfold is_u16, u16. apply Z.mod_pos_bound. lia. Qed.

Lemma u16_small z : is_u16 z → u16 z = z.
Proof. unfold is_u16, u16. intros. by apply Z.mod_small. Qed.

(** Masking with a power of two minus one is the remainder. *)
Lemma land_mask z k : 0 ≤ k → Z.land z (2 ^ k - 1) = z mod 2 ^ k.
Proof. intros. rewrite <- Z.land_ones by lia. f_equal. rewrite Z.ones_equiv. lia. Qed.

(** Wrap-around at 2^64 does not disturb a remainder by a smaller power. *)
Lemma u64_mod_pow2 z k : 0 ≤ k ≤ 64 → u64 z mod 2 ^ k = z mod 2 ^ k.
Proof.
  intros. unfold u64. apply Z.mod_mod_divide.
  exists (2 ^ (64 - k)). rewrite <- Z.pow_add_r by lia. f_equal. lia.
Qed.

Lemma u64_sub_u64 x y : u64 (u64 x - u64 y) = u64 (x - y).
Proof. unfold u64. rewrite Zminus_mod_idemp_l, Zminus_mod_idemp_r. done. Qed.

Lemma i32_add_l a b : i32 (i32 a + b) = i32 (a + b).
Proof.
  unfold i32, sint. f_equal. replace ((a + 2 ^ (32 - 1)) mod 2 ^ 32 - 2 ^ (32 - 1) + b + 2 ^ (32 - 1)) with ((a + 2 ^ (32 - 1)) mod 2 ^ 32 + b) by lia.
  rewrite Zplus_mod_idemp_l. f_equal. lia.
Qed.
Lemma i32_small z : - 2 ^ 31 ≤ z < 2 ^ 31 → i32 z = z.
Proof. intros Hz. unfold i32, sint. rewrite Z.mod_small; lia. Qed.
Lemma i32_range z : - 2 ^ 31 ≤ i32 z < 2 ^ 31.
Proof. unfold i32, sint. pose proof (Z.mod_pos_bound (z + 2 ^ (32 - 1)) (2 ^ 32)). lia. Qed.
Lemma i32_le z : - 2 ^ 31 ≤ z → i32 z ≤ z.
Proof. intros Hz. unfold i32, sint. pose proof (Z.mod_le (z + 2 ^ (32 - 1)) (2 ^ 32)). lia. Qed.
Lemma u64_add_u64_l x y : u64 (u64 x + y) = u64 (x + y).
Proof. unfold u64. apply Zplus_mod_idemp_l. Qed.

Lemma pow2_pos k : 0 ≤ k → 0 < 2 ^ k.
Proof. intros. by apply Z.pow_pos_nonneg. Qed.

#[export] Hint Resolve u64_range u16_range pow2_pos : psch.

(** ** C strings and buffers *)

Lemma length_blit off src dst :
  (off + length src ≤ length dst)%nat → length (blit off src dst) = length dst.
Proof. intros. unfold blit. rewrite !length_app, length_take, length_drop. lia. Qed.

Lemma take_blit0 src dst : take (length src) (blit 0 src dst) = src.
Proof. unfold blit. simpl. by rewrite take_app_length. Qed.

Lemma cstr_length mem : (length (cstr mem) ≤ length mem)%nat.
Proof. induction mem as [|c r IH]; simpl; [lia|]. destruct (c =? 0); simpl; lia. Qed.

Lemma cstr_no_nul mem : Forall (λ c, c ≠ 0) (cstr mem).
Proof.
  induction mem as [|c r IH]; simpl; [constructor|].
  destruct (Z.eqb_spec c 0); [constructor|]. by constructor.
Qed.

(** A byte string without NUL, followed by a NUL, is the C string there. *)
Lemma cstr_app_nul s rest : Forall (λ c, c ≠ 0) s → cstr (s ++ 0 :: rest) = s.
Proof.
  induction 1 as [|c s Hc Hs IH]; [done|].
  simpl. rewrite (proj2 (Z.eqb_neq _ _) Hc). by rewrite IH.
Qed.

Lemma cstr_id s : Forall (λ c, c ≠ 0) s → cstr s = s.
Proof.
  induction 1 as [|c s Hc Hs IH]; [done|].
  simpl. rewrite (proj2 (Z.eqb_neq _ _) Hc). by rewrite IH.
Qed.

Lemma cstr_idem mem : cstr (cstr mem) = cstr mem.
Proof. apply cstr_id, cstr_no_nul. Qed.

Lemma strlen_nonneg mem : 0 ≤ strlen mem.
Proof. unfold strlen. lia. Qed.

#[export] Hint Resolve cstr_no_nul strlen_nonneg : psch.
#[export] Hint Rewrite length_blit take_blit0 cstr_idem : psch_simpl.

(** ** Lists *)

Definition count {A} (P : A → bool) (l : list A) : nat := length (filter (λ x, P x = true) l).

Lemma count_nil {A} (P : A → bool) : count P [] = 0%nat.
Proof. done. Qed.

Lemma count_cons {A} (P : A → bool) x l :
  count P (x :: l) = ((if P x then 1 else 0) + count P l)%nat.
Proof. unfold count. rewrite filter_cons. destruct (P x); by case_decide. Qed.

Lemma count_app {A} (P : A → bool) l1 l2 : count P (l1 ++ l2) = (count P l1 + count P l2)%nat.
Proof. unfold count. by rewrite list.filter_app, length_app. Qed.

Lemma count_zero {A} (P : A → bool) l : (∀ x, x ∈ l → P x = false) → count P l = 0%nat.
Proof.
  induction l as [|x l IH]; intros H; [done|].
  rewrite count_cons, (H x) by set_solver. apply IH. set_solver.
Qed.

Lemma count_pos {A} (P : A → bool) l x : x ∈ l → P x = true → (1 ≤ count P l)%nat.
Proof.
  intros Hx HP. induction Hx as [x l|x y l _ IH]; rewrite count_cons.
  - rewrite HP. lia.
  - specialize (IH HP). lia.
Qed.

Lemma count_split {A} (P : A → bool) l :
  (length (filter (λ x, P x = false) l) + count P l = length l)%nat.
Proof.
  induction l as [|x l IH]; [done|]. rewrite count_cons, filter_cons. simpl.
  destruct (P x); case_decide; simpl; (lia || done).
Qed.

Lemma list_alter_insert {A} (f : A → A) (l : list A) i x :
  alter f i (<[i := x]> l) = <[i := f x]> l.
Proof. by rewrite !list_insert_alter, list_alter_alter_eq. Qed.

Lemma length_omap_le {A B} (f : A → option B) l : (length (omap f l) ≤ length l)%nat.
Proof. induction l as [|x l IH]; csimpl; [lia|]. destruct (f x); csimpl; lia. Qed.
