(* ===== verification/Event.v ===== *)
(** The telemetry event and the ring slot ([src/src/queue/event.h],
    [src/src/queue/ring_entry.h]).

    The two C structs share every field from [ts_start] to [query_len]; that
    prefix is the record [PschFixed], grouped the way the header groups it.
    [PschEvent] adds the two inline text buffers, [PschRingEntry] the two
    [dsa_pointer]s. The layout part computes the C offsets of both structs on an
    LP64 platform, which is what the header's static asserts check. *)

From S2P Require Import Prelude.

Module Event.

Definition NAMEDATALEN : Z := 64.
Definition INET6_ADDRSTRLEN : Z := 46.
Definition PSCH_MAX_QUERY_LEN : Z := 2048.
Definition PSCH_MAX_ERR_MSG_LEN : Z := 2048.
Definition PSCH_MAX_APP_NAME_LEN : Z := NAMEDATALEN - 1.
Definition PSCH_MAX_CLIENT_ADDR_LEN : Z := INET6_ADDRSTRLEN - 1.

Inductive PschCmdType : Set :=
  | PSCH_CMD_UNKNOWN
  | PSCH_CMD_SELECT
  | PSCH_CMD_UPDATE
  | PSCH_CMD_INSERT
  | PSCH_CMD_DELETE
  | PSCH_CMD_MERGE
  | PSCH_CMD_UTILITY
  | PSCH_CMD_NOTHING.

#[export] Instance PschCmdType_eq_dec : EqDecision PschCmdType.
Proof. solve_decision. Defined.

Definition cmd_code (c : PschCmdType) : Z :=
  match c with
  | PSCH_CMD_UNKNOWN => 0
  | PSCH_CMD_SELECT => 1
  | PSCH_CMD_UPDATE => 2
  | PSCH_CMD_INSERT => 3
  | PSCH_CMD_DELETE => 4
  | PSCH_CMD_MERGE => 5
  | PSCH_CMD_UTILITY => 6
  | PSCH_CMD_NOTHING => 7
  end.

Definition PschCmdTypeToString (cmd : PschCmdType) : string :=
  match cmd with
  | PSCH_CMD_SELECT => "SELECT"
  | PSCH_CMD_UPDATE => "UPDATE"
  | PSCH_CMD_INSERT => "INSERT"
  | PSCH_CMD_DELETE => "DELETE"
  | PSCH_CMD_MERGE => "MERGE"
  | PSCH_CMD_UTILITY => "UTILITY"
  | PSCH_CMD_NOTHING => "NOTHING"
  | _ => "UNKNOWN"
  end.

(** Identity: who ran what, where. *)
Record PschIdentity := {
  dbid : Z; userid : Z;
  datname : bytes; datname_len : Z;
  username : bytes; username_len : Z;
  pid : Z; queryid : Z; top_level : bool; cmd_type : PschCmdType }.

(** Buffer usage. *)
Record PschBlocks := {
  shared_blks_hit : Z; shared_blks_read : Z; shared_blks_dirtied : Z; shared_blks_written : Z;
  local_blks_hit : Z; local_blks_read : Z; local_blks_dirtied : Z; local_blks_written : Z;
  temp_blks_read : Z; temp_blks_written : Z }.

(** I/O timing, microseconds. *)
Record PschIoTiming := {
  shared_blk_read_time_us : Z; shared_blk_write_time_us : Z;
  local_blk_read_time_us : Z; local_blk_write_time_us : Z;
  temp_blk_read_time_us : Z; temp_blk_write_time_us : Z }.

(** WAL usage. *)
Record PschWal := { wal_records : Z; wal_fpi : Z; wal_bytes : Z }.

(** JIT instrumentation. *)
Record PschJit := {
  jit_functions : Z; jit_generation_time_us : Z; jit_deform_time_us : Z;
  jit_inlining_time_us : Z; jit_optimization_time_us : Z; jit_emission_time_us : Z }.

(** The prefix both structs share, [ts_start] to [query_len]. *)
Record PschFixed := {
  ts_start : Z; duration_us : Z;
  identity : PschIdentity;
  rows : Z;
  blocks : PschBlocks;
  io_timing : PschIoTiming;
  wal : PschWal;
  cpu_user_time_us : Z; cpu_sys_time_us : Z;
  jit : PschJit;
  parallel_workers_planned : Z; parallel_workers_launched : Z;
  err_sqlstate : bytes; err_elevel : Z; err_message_len : Z;
  application_name : bytes; application_name_len : Z;
  client_addr : bytes; client_addr_len : Z;
  query_len : Z }.

#[export] Instance PschIdentity_eta : Eta PschIdentity := λ i,
  Build_PschIdentity (dbid i) (userid i) (datname i) (datname_len i) (username i)
    (username_len i) (pid i) (queryid i) (top_level i) (cmd_type i).
#[export] Instance PschFixed_eta : Eta PschFixed := λ f,
  Build_PschFixed (ts_start f) (duration_us f) (identity f) (rows f) (blocks f) (io_timing f)
    (wal f) (cpu_user_time_us f) (cpu_sys_time_us f) (jit f) (parallel_workers_planned f)
    (parallel_workers_launched f) (err_sqlstate f) (err_elevel f) (err_message_len f)
    (application_name f) (application_name_len f) (client_addr f) (client_addr_len f)
    (query_len f).

Record PschEvent := {
  ev_fixed : PschFixed;
  err_message : bytes;
  query : bytes }.

#[export] Instance PschEvent_eta : Eta PschEvent := λ e,
  Build_PschEvent (ev_fixed e) (err_message e) (query e).

(** Compact ring slot: the shared prefix and two DSA pointers. *)
Record PschRingEntry := {
  re_fixed : PschFixed;
  err_message_dsa : Z;
  query_dsa : Z }.

#[export] Instance PschRingEntry_eta : Eta PschRingEntry := λ e,
  Build_PschRingEntry (re_fixed e) (err_message_dsa e) (query_dsa e).

(** The all-zero prefix: what [memset] leaves. *)
Definition zero_identity : PschIdentity :=
  {| dbid := 0; userid := 0; datname := repeat 0 64; datname_len := 0;
     username := repeat 0 64; username_len := 0; pid := 0; queryid := 0;
     top_level := false; cmd_type := PSCH_CMD_UNKNOWN |}.
Definition zero_fixed : PschFixed :=
  {| ts_start := 0; duration_us := 0; identity := zero_identity; rows := 0;
     blocks := Build_PschBlocks 0 0 0 0 0 0 0 0 0 0;
     io_timing := Build_PschIoTiming 0 0 0 0 0 0;
     wal := Build_PschWal 0 0 0;
     cpu_user_time_us := 0; cpu_sys_time_us := 0;
     jit := Build_PschJit 0 0 0 0 0 0;
     parallel_workers_planned := 0; parallel_workers_launched := 0;
     err_sqlstate := repeat 0 6; err_elevel := 0; err_message_len := 0;
     application_name := repeat 0 64; application_name_len := 0;
     client_addr := repeat 0 46; client_addr_len := 0; query_len := 0 |}.
Definition zero_entry : PschRingEntry :=
  {| re_fixed := zero_fixed; err_message_dsa := 0; query_dsa := 0 |}.
Definition zero_event : PschEvent :=
  {| ev_fixed := zero_fixed;
     err_message := repeat 0 (Z.to_nat PSCH_MAX_ERR_MSG_LEN);
     query := repeat 0 (Z.to_nat PSCH_MAX_QUERY_LEN) |}.

(** A well-typed event: each buffer has its declared size, each 16-bit length
    is a 16-bit number that stays inside its buffer. *)
Definition event_wf (e : PschEvent) : Prop :=
  length (err_message e) = Z.to_nat PSCH_MAX_ERR_MSG_LEN ∧
  length (query e) = Z.to_nat PSCH_MAX_QUERY_LEN ∧
  0 ≤ err_message_len (ev_fixed e) < PSCH_MAX_ERR_MSG_LEN ∧
  0 ≤ query_len (ev_fixed e) < PSCH_MAX_QUERY_LEN.

End Event.

(** ** Struct layout

    Offsets the C compiler gives the fields: each field goes to the next
    multiple of its alignment, the struct is padded to its own. *)
Module Layout.
Import Event.

Record Field := { f_name : string; f_size : Z; f_align : Z }.

Definition scalar (name : string) (size : Z) : Field := Build_Field name size size.
Definition chars (name : string) (n : Z) : Field := Build_Field name n 1.

Definition align_up (off a : Z) : Z := (off + a - 1) / a * a.

Fixpoint offsets_from (off : Z) (fs : list Field) : list (string * Z) :=
  match fs with
  | [] => []
  | f :: rest => let o := align_up off (f_align f) in
                 (f_name f, o) :: offsets_from (o + f_size f) rest
  end.

Definition struct_align (fs : list Field) : Z := foldr (λ f a, Z.max (f_align f) a) 1 fs.
Fixpoint end_from (off : Z) (fs : list Field) : Z :=
  match fs with
  | [] => off
  | f :: rest => end_from (align_up off (f_align f) + f_size f) rest
  end.
Definition sizeof (fs : list Field) : Z := align_up (end_from 0 fs) (struct_align fs).
Definition offsetof (fs : list Field) (name : string) : option Z :=
  snd <$> find (λ p : string * Z, String.eqb p.1 name) (offsets_from 0 fs).

(** [struct PschEvent], field by field in declaration order. *)
Definition event_fields : list Field :=
  [ scalar "ts_start" 8; scalar "duration_us" 8;
    scalar "dbid" 4; scalar "userid" 4;
    chars "datname" 64; scalar "datname_len" 1;
    chars "username" 64; scalar "username_len" 1;
    scalar "pid" 4; scalar "queryid" 8; scalar "top_level" 1; scalar "cmd_type" 4;
    scalar "rows" 8;
    scalar "shared_blks_hit" 8; scalar "shared_blks_read" 8;
    scalar "shared_blks_dirtied" 8; scalar "shared_blks_written" 8;
    scalar "local_blks_hit" 8; scalar "local_blks_read" 8;
    scalar "local_blks_dirtied" 8; scalar "local_blks_written" 8;
    scalar "temp_blks_read" 8; scalar "temp_blks_written" 8;
    scalar "shared_blk_read_time_us" 8; scalar "shared_blk_write_time_us" 8;
    scalar "local_blk_read_time_us" 8; scalar "local_blk_write_time_us" 8;
    scalar "temp_blk_read_time_us" 8; scalar "temp_blk_write_time_us" 8;
    scalar "wal_records" 8; scalar "wal_fpi" 8; scalar "wal_bytes" 8;
    scalar "cpu_user_time_us" 8; scalar "cpu_sys_time_us" 8;
    scalar "jit_functions" 4; scalar "jit_generation_time_us" 4;
    scalar "jit_deform_time_us" 4; scalar "jit_inlining_time_us" 4;
    scalar "jit_optimization_time_us" 4; scalar "jit_emission_time_us" 4;
    scalar "parallel_workers_planned" 2; scalar "parallel_workers_launched" 2;
    chars "err_sqlstate" 6; scalar "err_elevel" 1; scalar "_padding3" 1;
    scalar "err_message_len" 2;
    chars "application_name" 64; scalar "application_name_len" 1;
    chars "client_addr" 46; scalar "client_addr_len" 1; scalar "query_len" 2;
    chars "err_message" PSCH_MAX_ERR_MSG_LEN; chars "query" PSCH_MAX_QUERY_LEN ].

(** [struct PschRingEntry], field by field in declaration order. *)
Definition entry_fields : list Field :=
  [ scalar "ts_start" 8; scalar "duration_us" 8;
    scalar "dbid" 4; scalar "userid" 4;
    chars "datname" 64; scalar "datname_len" 1;
    chars "username" 64; scalar "username_len" 1;
    scalar "pid" 4; scalar "queryid" 8; scalar "top_level" 1; scalar "cmd_type" 4;
    scalar "rows" 8;
    scalar "shared_blks_hit" 8; scalar "shared_blks_read" 8;
    scalar "shared_blks_dirtied" 8; scalar "shared_blks_written" 8;
    scalar "local_blks_hit" 8; scalar "local_blks_read" 8;
    scalar "local_blks_dirtied" 8; scalar "local_blks_written" 8;
    scalar "temp_blks_read" 8; scalar "temp_blks_written" 8;
    scalar "shared_blk_read_time_us" 8; scalar "shared_blk_write_time_us" 8;
    scalar "local_blk_read_time_us" 8; scalar "local_blk_write_time_us" 8;
    scalar "temp_blk_read_time_us" 8; scalar "temp_blk_write_time_us" 8;
    scalar "wal_records" 8; scalar "wal_fpi" 8; scalar "wal_bytes" 8;
    scalar "cpu_user_time_us" 8; scalar "cpu_sys_time_us" 8;
    scalar "jit_functions" 4; scalar "jit_generation_time_us" 4;
    scalar "jit_deform_time_us" 4; scalar "jit_inlining_time_us" 4;
    scalar "jit_optimization_time_us" 4; scalar "jit_emission_time_us" 4;
    scalar "parallel_workers_planned" 2; scalar "parallel_workers_launched" 2;
    chars "err_sqlstate" 6; scalar "err_elevel" 1; scalar "_padding3" 1;
    scalar "err_message_len" 2;
    chars "application_name" 64; scalar "application_name_len" 1;
    chars "client_addr" 46; scalar "client_addr_len" 1; scalar "query_len" 2;
    scalar "err_message_dsa" 8; scalar "query_dsa" 8 ].

(** [kFixedPrefixSize = offsetof(PschRingEntry, err_message_dsa)]. *)
Definition kFixedPrefixSize : Z := default 0 (offsetof entry_fields "err_message_dsa").

(** The fields copied by the prefix [memcpy]. *)
Definition prefix_fields : list Field := take (length event_fields - 2) event_fields.

(** A field of the prefix sits at the same offset in both structs and ends
    inside the copied prefix. *)
Definition offsets_agree (f : Field) : bool :=
  match offsetof event_fields (f_name f), offsetof entry_fields (f_name f) with
  | Some a, Some b => (a =? b) && (a + f_size f <=? kFixedPrefixSize)
  | _, _ => false
  end.

Lemma offsets_agree_spec f :
  offsets_agree f = true →
  ∃ o, offsetof event_fields (f_name f) = Some o ∧ offsetof entry_fields (f_name f) = Some o ∧
       o + f_size f ≤ kFixedPrefixSize.
Proof.
  unfold offsets_agree.
  destruct (offsetof event_fields (f_name f)) as [a|], (offsetof entry_fields (f_name f)) as [b|];
    try done.
  rewrite andb_true_iff, Z.eqb_eq, Z.leb_le. intros [-> ?]. by exists b.
Qed.

(** On an LP64 platform the block copy of the fixed prefix is sound: every
    field before the text buffers has the same offset in [PschEvent] and in
    [PschRingEntry] and lies inside the first [kFixedPrefixSize] bytes, and in
    [PschEvent] those bytes end exactly where [err_message] begins. *)
Theorem prefix_layout_agrees :
  Forall (λ f, ∃ o, offsetof event_fields (f_name f) = Some o ∧
                    offsetof entry_fields (f_name f) = Some o ∧
                    o + f_size f ≤ kFixedPrefixSize) prefix_fields ∧
  offsetof event_fields "err_message" = Some kFixedPrefixSize.
Proof.
  split; [|vm_compute; reflexivity].
  eapply Forall_impl; [|apply offsets_agree_spec].
  apply List.Forall_forall, forallb_forall. vm_compute. reflexivity.
Qed.

End Layout.
