(* ===== verification/StringUtils.v ===== *)
(** String helpers of the hooks ([src/src/hooks/string_utils.h]): copying,
    trimming and truncating into fixed-size buffers. *)

From S2P Require Import Prelude.

Module StringUtils.

(** Returns the buffer and the number of bytes written without the NUL. *)
Definition PschCopyName (dst : bytes) (dst_size : Z) (src : bytes) : bytes * Z :=
  let '(dst', len) := strlcpy dst dst_size src in
  (dst', u8 (Z.min len (dst_size - 1))).

(** The [while] of [PschTrimTrailing], as recursion on the remaining length. *)
Fixpoint trim_len (str : bytes) (len : nat) : nat :=
  match len with
  | O => O
  | S n => if isspace (str !!! n) then trim_len str n else len
  end.

Definition PschTrimTrailing (str : bytes) (len : Z) : bytes * Z :=
  let n := trim_len str (Z.to_nat len) in
  (blit n [0] str, Z.of_nat n).

(** The [while] that skips leading white space of a C string. *)
Fixpoint skip_space (src : bytes) : bytes :=
  match src with
  | [] => []
  | c :: rest => if negb (c =? 0) && isspace c then skip_space rest else src
  end.

Definition PschCopyTrimmed (dst : bytes) (dst_size : Z) (src : option bytes) : bytes * Z :=
  match src with
  | None => (if 0 <? dst_size then blit 0 [0] dst else dst, 0)
  | Some src =>
    if dst_size =? 0 then (dst, 0)
    else
      let src := skip_space src in
      let '(dst, src_len) := strlcpy dst dst_size src in
      let len := Z.min src_len (dst_size - 1) in
      PschTrimTrailing dst len
  end.

(** The leading loop of [PschCopyTrimmedStatement]: pointer and remaining
    length advance together. *)
Fixpoint skip_space_len (txt : bytes) (len : nat) {struct len} : bytes * nat :=
  match len with
  | O => (txt, O)
  | S n => match txt with
           | c :: rest => if isspace c then skip_space_len rest n else (txt, len)
           | [] => (txt, len)
           end
  end.

(** The [palloc]'d copy, [query_len + 1] bytes. *)
Definition PschCopyTrimmedStatement (query_text : option bytes) (query_len : Z) : option bytes :=
  match query_text with
  | None => None
  | Some txt =>
    if query_len <=? 0 then None
    else
      let '(txt, len) := skip_space_len txt (Z.to_nat query_len) in
      let len := trim_len txt len in
      Some (take len txt ++ [0])
  end.

(** ** Reference definition of trimming *)

Fixpoint drop_while (P : Z → bool) (s : bytes) : bytes :=
  match s with
  | [] => []
  | c :: rest => if P c then drop_while P rest else s
  end.

Definition trim_right (s : bytes) : bytes := reverse (drop_while isspace (reverse s)).
Definition trim (s : bytes) : bytes := trim_right (drop_while isspace s).

(** A trimmed byte string neither starts nor ends with white space. *)
Definition trimmed (s : bytes) : Prop :=
  (∀ c, head s = Some c → isspace c = false) ∧ (∀ c, last s = Some c → isspace c = false).

Lemma drop_while_head P s c : head (drop_while P s) = Some c → P c = false.
Proof.
  induction s as [|x s IH]; simpl; [done|].
  destruct (P x) eqn:E; [done|]. simpl. intros. by simplify_eq.
Qed.

Lemma drop_while_suffix P s : ∃ pre, s = pre ++ drop_while P s ∧ Forall (λ c, P c = true) pre.
Proof.
  induction s as [|x s (pre & Hs & Hpre)]; simpl.
  - by exists [].
  - destruct (P x) eqn:E.
    + exists (x :: pre). split; [simpl; by f_equal|by constructor].
    + by exists [].
Qed.

Lemma trim_right_prefix s : ∃ suf, s = trim_right s ++ suf ∧ Forall (λ c, isspace c = true) suf.
Proof.
  unfold trim_right. destruct (drop_while_suffix isspace (reverse s)) as (pre & Hs & Hpre).
  exists (reverse pre). split; [|by apply Forall_reverse].
  rewrite <- reverse_app, <- Hs. by rewrite reverse_involutive.
Qed.

Lemma trim_right_snoc s c :
  trim_right (s ++ [c]) = if isspace c then trim_right s else s ++ [c].
Proof.
  unfold trim_right. rewrite reverse_snoc. simpl. destruct (isspace c); [done|].
  by rewrite reverse_cons, reverse_involutive.
Qed.

Lemma trim_right_last s c : last (trim_right s) = Some c → isspace c = false.
Proof.
  unfold trim_right. rewrite last_reverse. apply drop_while_head.
Qed.

Lemma trim_right_head s c : head (trim_right s) = Some c → head s = Some c.
Proof.
  destruct (trim_right_prefix s) as (suf & Hs & _). rewrite Hs at 2.
  by destruct (trim_right s).
Qed.

Lemma trim_trimmed s : trimmed (trim s).
Proof.
  split; intros c Hc.
  - by apply trim_right_head, drop_while_head in Hc.
  - by apply trim_right_last in Hc.
Qed.

Lemma trim_right_length s : (length (trim_right s) ≤ length s)%nat.
Proof. destruct (trim_right_prefix s) as (suf & Hs & _). rewrite Hs at 2. rewrite length_app. lia. Qed.

(** ** The loops compute the reference *)

Lemma trim_len_spec str n :
  (n ≤ length str)%nat → take (trim_len str n) str = trim_right (take n str).
Proof.
  induction n as [|n IH]; intros Hn; [done|]. simpl trim_len.
  destruct (lookup_lt_is_Some_2 str n) as [c Hc]; [lia|].
  rewrite (list_lookup_total_correct _ _ _ Hc).
  rewrite (take_S_r _ _ _ Hc), trim_right_snoc, <- IH by lia.
  destruct (isspace c); [done|]. by rewrite (take_S_r _ _ _ Hc).
Qed.

Lemma trim_len_le str n : (trim_len str n ≤ n)%nat.
Proof. induction n as [|n IH]; simpl; [lia|]. destruct (isspace _); lia. Qed.

Lemma skip_space_spec src : skip_space src = drop_while isspace src.
Proof.
  induction src as [|c src IH]; simpl; [done|].
  destruct (Z.eqb_spec c 0) as [->|]; simpl; [done|]. by destruct (isspace c).
Qed.

Lemma cstr_drop_while src : cstr (drop_while isspace src) = drop_while isspace (cstr src).
Proof.
  induction src as [|c src IH]; simpl; [done|].
  destruct (Z.eqb_spec c 0) as [->|Hc]; simpl; [done|].
  destruct (isspace c); simpl; [done|]. by rewrite (proj2 (Z.eqb_neq _ _) Hc).
Qed.

Lemma skip_space_len_spec txt n :
  (n ≤ length txt)%nat →
  let '(txt', n') := skip_space_len txt n in
  take n' txt' = drop_while isspace (take n txt) ∧ (n' ≤ length txt')%nat.
Proof.
  revert txt. induction n as [|n IH]; intros txt Hn; simpl; [split; [done|lia]|].
  destruct txt as [|c txt]; simpl in *; [lia|].
  destruct (isspace c); simpl; [apply IH; lia|]. split; [done|lia].
Qed.

Lemma trim_right_Forall P s : Forall P s → Forall P (trim_right s).
Proof.
  destruct (trim_right_prefix s) as (suf & Hs & _). rewrite Hs at 1.
  by intros [? _]%Forall_app.
Qed.

Lemma drop_while_Forall P Q s : Forall Q s → Forall Q (drop_while P s).
Proof.
  destruct (drop_while_suffix P s) as (pre & Hs & _). rewrite Hs at 1.
  by intros [_ ?]%Forall_app.
Qed.

Lemma copy_trimmed_statement_eq txt query_len :
  0 < query_len ≤ Z.of_nat (length txt) →
  PschCopyTrimmedStatement (Some txt) query_len = Some (trim (take (Z.to_nat query_len) txt) ++ [0]).
Proof.
  intros Hlen. unfold PschCopyTrimmedStatement, trim.
  rewrite (proj2 (Z.leb_gt _ _)) by lia.
  pose proof (skip_space_len_spec txt (Z.to_nat query_len)) as Hs.
  destruct (skip_space_len txt (Z.to_nat query_len)) as [txt' n'].
  destruct Hs as [Hs Hn]; [lia|].
  by rewrite trim_len_spec, Hs by done.
Qed.

(** ** Properties *)

Lemma cstr_blit_nul n dst :
  Forall (λ c, c ≠ 0) (take n dst) → cstr (blit n [0] dst) = take n dst.
Proof. intros Hs. unfold blit. by apply cstr_app_nul. Qed.

Lemma strlcpy_spec dst dst_size src :
  0 < dst_size ≤ Z.of_nat (length dst) →
  let t := take (Z.to_nat (dst_size - 1)) (cstr src) in
  strlcpy dst dst_size src = (blit 0 (t ++ [0]) dst, strlen src) ∧
  (length t < Z.to_nat dst_size)%nat ∧
  Z.of_nat (length t) = Z.min (strlen src) (dst_size - 1) ∧
  Forall (λ c, c ≠ 0) t ∧
  length (blit 0 (t ++ [0]) dst) = length dst.
Proof.
  intros Hsz t. unfold strlcpy. rewrite (proj2 (Z.eqb_neq _ _)) by lia.
  assert (length t = Nat.min (Z.to_nat (dst_size - 1)) (length (cstr src))) as Ht
    by apply length_take.
  split_and!; [done| lia | unfold strlen; lia | by apply Forall_take, cstr_no_nul|].
  apply length_blit. rewrite length_app. simpl. lia.
Qed.

(** [PschCopyTrimmed] stays inside the destination buffer and leaves there,
    NUL-terminated, the source without leading white space, cut to
    [dst_size - 1] bytes and then trimmed on the right; it returns the length
    of that string, which is below [dst_size]. *)
Lemma copy_trimmed_fills (dst src : bytes) (dst_size : Z) :
  0 < dst_size ≤ Z.of_nat (length dst) →
  let '(dst', len) := PschCopyTrimmed dst dst_size (Some src) in
  length dst' = length dst ∧
  cstr dst' = trim_right (take (Z.to_nat (dst_size - 1)) (drop_while isspace (cstr src))) ∧
  len = strlen dst' ∧ len < dst_size.
Proof.
  intros Hsz. unfold PschCopyTrimmed. rewrite (proj2 (Z.eqb_neq _ _)) by lia.
  rewrite skip_space_spec.
  destruct (strlcpy_spec dst dst_size (drop_while isspace src) Hsz)
    as (-> & Hlt & Hlen & Hnul & Hdst).
  rewrite cstr_drop_while in *.
  set (t := take _ _) in *. rewrite <- Hlen. unfold PschTrimTrailing. rewrite Nat2Z.id.
  set (d1 := blit 0 (t ++ [0]) dst) in *.
  assert (take (length t) d1 = t) as Htake.
  { unfold d1, blit. simpl. by rewrite <- app_assoc, take_app_length. }
  pose proof (trim_len_spec d1 (length t)) as Htrim. rewrite Htake in Htrim.
  pose proof (trim_len_le d1 (length t)) as Hle.
  assert (cstr (blit (trim_len d1 (length t)) [0] d1) = trim_right t) as Hcstr.
  { rewrite cstr_blit_nul; rewrite Htrim by lia; [done|by apply trim_right_Forall]. }
  assert (length (take (trim_len d1 (length t)) d1) = trim_len d1 (length t)) as Htl
    by (rewrite length_take; lia).
  split_and!; [rewrite length_blit; simpl; lia | done | | lia].
  unfold strlen. by rewrite Hcstr, <- Htrim, Htl by lia.
Qed.

(** [PschCopyName] stays inside a name buffer of at most 256 bytes and leaves
    there the longest prefix of the source that fits, NUL-terminated; the 8-bit
    length it returns is the exact length of that prefix. *)
Lemma copy_name_spec (dst src : bytes) (dst_size : Z) :
  0 < dst_size ≤ Z.of_nat (length dst) → dst_size ≤ 256 →
  let '(dst', len) := PschCopyName dst dst_size src in
  length dst' = length dst ∧
  cstr dst' = take (Z.to_nat (dst_size - 1)) (cstr src) ∧ len = strlen dst'.
Proof.
  intros Hsz H256. unfold PschCopyName.
  destruct (strlcpy_spec dst dst_size src Hsz) as (-> & Hlt & Hlen & Hnul & Hdst).
  set (t := take _ _) in *. rewrite <- Hlen.
  assert (cstr (blit 0 (t ++ [0]) dst) = t) as Hc.
  { unfold blit. simpl. rewrite <- app_assoc. by apply cstr_app_nul. }
  unfold strlen. rewrite Hc. split_and!; [done|done|].
  unfold u8. apply Z.mod_small. lia.
Qed.

End StringUtils.
