(* ===== verification/Guc.v ===== *)
(** Configuration variables ([src/src/config/guc.c]).

    One definition per variable [PschInitGuc] declares: its type with boot value
    and bounds, its context, its flags and its check hook, and the value its
    C variable is initialised with. [check_psch_queue_capacity] is the hook the
    ring buffer's bit-mask arithmetic relies on. *)

From S2P Require Import Prelude.
From Stdlib Require Import QArith.
#[local] Open Scope Z_scope.

Module Guc.

Inductive GucContext : Set := PGC_POSTMASTER | PGC_SIGHUP | PGC_SUSET.
Inductive GucFlag : Set := GUC_SUPERUSER_ONLY | GUC_UNIT_MB | GUC_UNIT_MS | GUC_UNIT_BYTE.

#[export] Instance GucContext_eq_dec : EqDecision GucContext.
Proof. solve_decision. Defined.

(** Error levels of [elog.h]. *)
Definition DEBUG5 : Z := 10.
Definition DEBUG4 : Z := 11.
Definition DEBUG3 : Z := 12.
Definition DEBUG2 : Z := 13.
Definition DEBUG1 : Z := 14.
Definition LOG : Z := 15.
Definition INFO : Z := 17.
Definition NOTICE : Z := 18.
Definition WARNING : Z := 19.
Definition ERROR : Z := 21.
Definition FATAL : Z := 22.
Definition PANIC : Z := 23.
Definition INT_MAX : Z := 2147483647.

Definition log_elevel_options : list (string * Z) :=
  [ ("debug5", DEBUG5); ("debug4", DEBUG4); ("debug3", DEBUG3); ("debug2", DEBUG2);
    ("debug1", DEBUG1); ("log", LOG); ("info", INFO); ("notice", NOTICE);
    ("warning", WARNING); ("error", ERROR); ("fatal", FATAL); ("panic", PANIC) ].

(** What a variable can hold; the C initialiser comes first, the boot value
    the framework installs second. A [NULL] string initialiser is [None]. *)
Inductive GucType :=
  | GucBool (init boot : bool)
  | GucInt (init boot min max : Z)
  | GucReal (init boot min max : Q)
  | GucString (init : option string) (boot : string)
  | GucEnum (init boot : Z) (options : list (string * Z)).

Record GucVar := {
  guc_name : string;
  guc_type : GucType;
  guc_context : GucContext;
  guc_flags : list GucFlag;
  guc_check : option (Z → bool) }.

(** The check hook of [pg_stat_ch.queue_capacity]: positive and a power of 2. *)
Definition check_psch_queue_capacity (newval : Z) : bool :=
  if newval <=? 0 then false
  else if negb (Z.land newval (newval - 1) =? 0) then false
  else true.

Definition guc_enabled : GucVar :=
  {| guc_name := "pg_stat_ch.enabled";
     guc_type := GucBool true true;
     guc_context := PGC_SIGHUP; guc_flags := []; guc_check := None |}.

Definition guc_use_otel : GucVar :=
  {| guc_name := "pg_stat_ch.use_otel";
     guc_type := GucBool false false;
     guc_context := PGC_POSTMASTER; guc_flags := []; guc_check := None |}.

Definition guc_clickhouse_host : GucVar :=
  {| guc_name := "pg_stat_ch.clickhouse_host";
     guc_type := GucString None "localhost";
     guc_context := PGC_POSTMASTER; guc_flags := []; guc_check := None |}.

Definition guc_clickhouse_port : GucVar :=
  {| guc_name := "pg_stat_ch.clickhouse_port";
     guc_type := GucInt 9000 9000 1 65535;
     guc_context := PGC_POSTMASTER; guc_flags := []; guc_check := None |}.

Definition guc_clickhouse_user : GucVar :=
  {| guc_name := "pg_stat_ch.clickhouse_user";
     guc_type := GucString None "default";
     guc_context := PGC_POSTMASTER; guc_flags := []; guc_check := None |}.

Definition guc_clickhouse_password : GucVar :=
  {| guc_name := "pg_stat_ch.clickhouse_password";
     guc_type := GucString None EmptyString;
     guc_context := PGC_POSTMASTER; guc_flags := [GUC_SUPERUSER_ONLY]; guc_check := None |}.

Definition guc_clickhouse_database : GucVar :=
  {| guc_name := "pg_stat_ch.clickhouse_database";
     guc_type := GucString None "pg_stat_ch";
     guc_context := PGC_POSTMASTER; guc_flags := []; guc_check := None |}.

Definition guc_clickhouse_use_tls : GucVar :=
  {| guc_name := "pg_stat_ch.clickhouse_use_tls";
     guc_type := GucBool false false;
     guc_context := PGC_POSTMASTER; guc_flags := []; guc_check := None |}.

Definition guc_clickhouse_skip_tls_verify : GucVar :=
  {| guc_name := "pg_stat_ch.clickhouse_skip_tls_verify";
     guc_type := GucBool false false;
     guc_context := PGC_POSTMASTER; guc_flags := []; guc_check := None |}.

Definition guc_otel_endpoint : GucVar :=
  {| guc_name := "pg_stat_ch.otel_endpoint";
     guc_type := GucString None "localhost:4317";
     guc_context := PGC_POSTMASTER; guc_flags := []; guc_check := None |}.

Definition guc_hostname : GucVar :=
  {| guc_name := "pg_stat_ch.hostname";
     guc_type := GucString None EmptyString;
     guc_context := PGC_POSTMASTER; guc_flags := []; guc_check := None |}.

Definition guc_queue_capacity : GucVar :=
  {| guc_name := "pg_stat_ch.queue_capacity";
     guc_type := GucInt 131072 131072 1024 4194304;
     guc_context := PGC_POSTMASTER; guc_flags := []; guc_check := Some check_psch_queue_capacity |}.

Definition guc_string_area_size : GucVar :=
  {| guc_name := "pg_stat_ch.string_area_size";
     guc_type := GucInt 64 64 8 1024;
     guc_context := PGC_POSTMASTER; guc_flags := [GUC_UNIT_MB]; guc_check := None |}.

Definition guc_flush_interval_ms : GucVar :=
  {| guc_name := "pg_stat_ch.flush_interval_ms";
     guc_type := GucInt 500 500 100 60000;
     guc_context := PGC_SIGHUP; guc_flags := [GUC_UNIT_MS]; guc_check := None |}.

Definition guc_batch_max : GucVar :=
  {| guc_name := "pg_stat_ch.batch_max";
     guc_type := GucInt 200000 200000 1 1000000;
     guc_context := PGC_SIGHUP; guc_flags := []; guc_check := None |}.

Definition guc_otel_log_queue_size : GucVar :=
  {| guc_name := "pg_stat_ch.otel_log_queue_size";
     guc_type := GucInt 65536 65536 512 1048576;
     guc_context := PGC_POSTMASTER; guc_flags := []; guc_check := None |}.

Definition guc_otel_log_batch_size : GucVar :=
  {| guc_name := "pg_stat_ch.otel_log_batch_size";
     guc_type := GucInt 8192 8192 1 131072;
     guc_context := PGC_POSTMASTER; guc_flags := []; guc_check := None |}.

Definition guc_otel_log_max_bytes : GucVar :=
  {| guc_name := "pg_stat_ch.otel_log_max_bytes";
     guc_type := GucInt (3 * 1024 * 1024) (3 * 1024 * 1024) 65536 (64 * 1024 * 1024);
     guc_context := PGC_POSTMASTER; guc_flags := [GUC_UNIT_BYTE]; guc_check := None |}.

Definition guc_otel_log_delay_ms : GucVar :=
  {| guc_name := "pg_stat_ch.otel_log_delay_ms";
     guc_type := GucInt 100 100 10 60000;
     guc_context := PGC_POSTMASTER; guc_flags := [GUC_UNIT_MS]; guc_check := None |}.

Definition guc_otel_metric_interval_ms : GucVar :=
  {| guc_name := "pg_stat_ch.otel_metric_interval_ms";
     guc_type := GucInt 5000 5000 100 300000;
     guc_context := PGC_POSTMASTER; guc_flags := [GUC_UNIT_MS]; guc_check := None |}.

Definition guc_log_min_elevel : GucVar :=
  {| guc_name := "pg_stat_ch.log_min_elevel";
     guc_type := GucEnum WARNING WARNING log_elevel_options;
     guc_context := PGC_SUSET; guc_flags := []; guc_check := None |}.

Definition guc_min_duration_us : GucVar :=
  {| guc_name := "pg_stat_ch.min_duration_us";
     guc_type := GucInt 0 0 0 (INT_MAX);
     guc_context := PGC_SUSET; guc_flags := []; guc_check := None |}.

Definition guc_normalize_cache_max : GucVar :=
  {| guc_name := "pg_stat_ch.normalize_cache_max";
     guc_type := GucInt 32768 32768 64 65536;
     guc_context := PGC_SUSET; guc_flags := []; guc_check := None |}.

Definition guc_sample_rate : GucVar :=
  {| guc_name := "pg_stat_ch.sample_rate";
     guc_type := GucReal 1%Q 1%Q 0%Q 1%Q;
     guc_context := PGC_SUSET; guc_flags := []; guc_check := None |}.

Definition guc_otel_arrow_passthrough : GucVar :=
  {| guc_name := "pg_stat_ch.otel_arrow_passthrough";
     guc_type := GucBool false false;
     guc_context := PGC_SIGHUP; guc_flags := []; guc_check := None |}.

Definition guc_otel_max_block_bytes : GucVar :=
  {| guc_name := "pg_stat_ch.otel_max_block_bytes";
     guc_type := GucInt (3 * 1024 * 1024) (3 * 1024 * 1024) 65536 (16 * 1024 * 1024);
     guc_context := PGC_SIGHUP; guc_flags := [GUC_UNIT_BYTE]; guc_check := None |}.

Definition guc_extra_attributes : GucVar :=
  {| guc_name := "pg_stat_ch.extra_attributes";
     guc_type := GucString None EmptyString;
     guc_context := PGC_SIGHUP; guc_flags := []; guc_check := None |}.

Definition guc_debug_arrow_dump_dir : GucVar :=
  {| guc_name := "pg_stat_ch.debug_arrow_dump_dir";
     guc_type := GucString None EmptyString;
     guc_context := PGC_SIGHUP; guc_flags := []; guc_check := None |}.

Definition guc_debug_force_locked_overflow : GucVar :=
  {| guc_name := "pg_stat_ch.debug_force_locked_overflow";
     guc_type := GucBool false false;
     guc_context := PGC_SUSET; guc_flags := []; guc_check := None |}.

(** The variables [PschInitGuc] declares, in its order. *)
Definition PschInitGuc : list GucVar :=
  [ guc_enabled; guc_use_otel; guc_clickhouse_host;
    guc_clickhouse_port; guc_clickhouse_user; guc_clickhouse_password;
    guc_clickhouse_database; guc_clickhouse_use_tls; guc_clickhouse_skip_tls_verify;
    guc_otel_endpoint; guc_hostname; guc_queue_capacity;
    guc_string_area_size; guc_flush_interval_ms; guc_batch_max;
    guc_otel_log_queue_size; guc_otel_log_batch_size; guc_otel_log_max_bytes;
    guc_otel_log_delay_ms; guc_otel_metric_interval_ms; guc_log_min_elevel;
    guc_min_duration_us; guc_normalize_cache_max; guc_sample_rate;
    guc_otel_arrow_passthrough; guc_otel_max_block_bytes; guc_extra_attributes;
    guc_debug_arrow_dump_dir; guc_debug_force_locked_overflow ].

(** ** Consistency of the table *)

(** Boot value inside the declared bounds, accepted by the hook, and equal to
    the C initialiser (string variables start as [NULL]). *)
Definition guc_type_consistent (check : option (Z → bool)) (t : GucType) : bool :=
  match t with
  | GucBool init boot => Bool.eqb init boot
  | GucInt init boot min max =>
      (init =? boot) && (min <=? boot) && (boot <=? max) &&
      match check with Some f => f boot | None => true end
  | GucReal init boot min max => Qeq_bool init boot && Qle_bool min boot && Qle_bool boot max
  | GucString init _ => match init with None => true | Some _ => false end
  | GucEnum init boot options => (init =? boot) && existsb (λ o, o.2 =? boot) options
  end.

Definition guc_consistent (g : GucVar) : bool :=
  guc_type_consistent (guc_check g) (guc_type g) && String.prefix "pg_stat_ch." (guc_name g).

Fixpoint distinct (l : list string) : bool :=
  match l with
  | [] => true
  | x :: rest => negb (existsb (String.eqb x) rest) && distinct rest
  end.

(** Strictly increasing levels. *)
Fixpoint increasing (l : list (string * Z)) : bool :=
  match l with
  | (_, a) :: (((_, b) :: _) as rest) => (a <? b) && increasing rest
  | _ => true
  end.

(** The bounds the table declares for an integer variable. *)
Definition in_declared_range (g : GucVar) (v : Z) : Prop :=
  match guc_type g with
  | GucInt _ _ min max => min ≤ v ≤ max
  | _ => False
  end.

(** ** Powers of two *)

Lemma land_pred_pow2 k : 0 ≤ k → Z.land (2 ^ k) (2 ^ k - 1) = 0.
Proof. intros. rewrite land_mask by done. apply Z.mod_same. lia. Qed.

Lemma land_pred_zero v : 0 < v → Z.land v (v - 1) = 0 → v = 2 ^ Z.log2 v.
Proof.
  intros Hv Hland. pose proof (Z.log2_spec v Hv) as [Hlo Hhi].
  destruct (Z.eq_dec v (2 ^ Z.log2 v)) as [|Hne]; [done|exfalso].
  assert (Z.log2 (v - 1) = Z.log2 v) as Hlog.
  { apply Z.log2_unique; [apply Z.log2_nonneg|]. rewrite <- Z.add_1_r in Hhi |- *. lia. }
  assert (Z.testbit (Z.land v (v - 1)) (Z.log2 v) = true) as Hbit.
  { rewrite Z.land_spec, Z.bit_log2 by done. rewrite <- Hlog. apply Z.bit_log2.
    assert (2 ^ Z.log2 v < v) by lia. pose proof (pow2_pos (Z.log2 v) (Z.log2_nonneg v)). lia. }
  rewrite Hland, Z.bits_0 in Hbit. done.
Qed.

Lemma check_capacity_pow2 v :
  check_psch_queue_capacity v = true ↔ ∃ k, 0 ≤ k ∧ v = 2 ^ k.
Proof.
  unfold check_psch_queue_capacity. split.
  - destruct (Z.leb_spec v 0); [done|].
    destruct (Z.eqb_spec (Z.land v (v - 1)) 0); [|done].
    intros _. exists (Z.log2 v). split; [apply Z.log2_nonneg|by apply land_pred_zero].
  - intros (k & Hk & ->). pose proof (pow2_pos k Hk).
    rewrite (proj2 (Z.leb_gt _ _)) by lia. by rewrite land_pred_pow2.
Qed.

(** ** Properties *)

(** The check hook accepts exactly the powers of two, so every value that is
    inside the declared bounds of [pg_stat_ch.queue_capacity] and passes the hook
    is [2^k] with [k] between 10 and 22; conversely all of those are accepted. *)
Theorem queue_capacity_pow2 (v : Z) :
  (in_declared_range guc_queue_capacity v ∧ check_psch_queue_capacity v = true) ↔
  ∃ k, 10 ≤ k ≤ 22 ∧ v = 2 ^ k.
Proof.
  rewrite check_capacity_pow2. cbn. split.
  - intros [Hr (k & Hk & ->)]. exists k. split; [|done].
    change 1024 with (2 ^ 10) in Hr. change 4194304 with (2 ^ 22) in Hr.
    rewrite <- !Z.pow_le_mono_r_iff in Hr by lia. done.
  - intros (k & Hk & ->). change 1024 with (2 ^ 10). change 4194304 with (2 ^ 22).
    split; [|by exists k; split; [lia|]].
    split; apply Z.pow_le_mono_r; lia.
Qed.

(** The configuration table is consistent: every variable is named under
    [pg_stat_ch.] and no name occurs twice, every boot value equals the C
    initialiser, lies in the declared bounds and passes the check hook, and the
    log levels offered are listed in increasing severity. *)
Theorem guc_table_consistent :
  Forall (λ g, guc_consistent g = true) PschInitGuc ∧
  distinct (map guc_name PschInitGuc) = true ∧
  increasing log_elevel_options = true.
Proof.
  split_and!; [|vm_compute; reflexivity..].
  apply List.Forall_forall, forallb_forall. vm_compute. reflexivity.
Qed.

End Guc.
