(* ===== verification/Shared.v ===== *)
(** Shared memory, process-local state and the environment.

    [PschSharedState] is the struct of [src/src/queue/psch_dsa.h]; the interner's
    key, entry and object are the structs of [src/src/queue/query_intern.c].
    [Sys] is everything one process sees: the pointer [psch_shared_state] (absent
    when it is [NULL]), the ring slots, the DSA area, the interner's hash table,
    and the process's own static variables. The operations of the other files
    are [M Sys] computations.

    The PostgreSQL services the code calls (the DSA allocator, dynahash, the hash
    functions, lock contention, the clock) are fields of [Env]; what is assumed
    of them is the class [EnvLaws], which the theorems that need it take as a
    hypothesis. *)

From S2P Require Import Prelude Event.
Import Event.

Module Shared.

Definition InvalidDsaPointer : Z := 0.
Definition DsaPointerIsValid (p : Z) : bool := negb (p =? InvalidDsaPointer).

Record PschSharedState := {
  raw_dsa_area : option Z;  (** offset of the DSA area in the block, [None] for [NULL] *)
  dsa_oom_count : Z;
  capacity : Z;
  q_head : Z; enqueued : Z; dropped : Z; overflow_logged : bool;
  q_tail : Z; exported : Z;
  send_failures : Z; last_success_ts : Z; last_error_ts : Z;
  last_error_text : bytes;
  bgworker_pid : Z }.

#[export] Instance PschSharedState_eta : Eta PschSharedState := λ s,
  Build_PschSharedState (raw_dsa_area s) (dsa_oom_count s) (capacity s) (q_head s) (enqueued s)
    (dropped s) (overflow_logged s) (q_tail s) (exported s) (send_failures s)
    (last_success_ts s) (last_error_ts s) (last_error_text s) (bgworker_pid s).

(** ** Interner data *)

Definition PSCH_QUERY_INTERN_MAGIC : Z := 0x51544348.

Record PschQueryInternKey := {
  k_dbid : Z; k_queryid : Z; k_query_hash : Z; k_query_len : Z }.

#[export] Instance PschQueryInternKey_eq_dec : EqDecision PschQueryInternKey.
Proof. solve_decision. Defined.
#[export] Instance PschQueryInternKey_countable : Countable PschQueryInternKey.
Proof.
  apply (inj_countable' (λ k, (k_dbid k, k_queryid k, k_query_hash k, k_query_len k))
           (λ t, Build_PschQueryInternKey t.1.1.1 t.1.1.2 t.1.2 t.2)).
  by intros [].
Defined.

(** The key itself is the key of the hash table's map. *)
Record PschQueryInternEntry := { object : Z; refcount : Z }.

#[export] Instance PschQueryInternEntry_eta : Eta PschQueryInternEntry := λ e,
  Build_PschQueryInternEntry (object e) (refcount e).

Record PschQueryInternObject := {
  o_key : PschQueryInternKey; magic : Z; o_query : bytes }.

(** A live DSA allocation: fresh memory, a string, or an interned query. *)
Inductive DsaBlock :=
  | DsaUninit (size : Z)
  | DsaString (contents : bytes)
  | DsaObject (obj : PschQueryInternObject).

(** ** The system *)

(** Callbacks registered with [on_shmem_exit]; the last registered runs first. *)
Inductive ExitCallback : Set := PschShmemShutdown | PschDsaDetachOnExit | PschLocalBatchShutdown.

#[export] Instance ExitCallback_eq_dec : EqDecision ExitCallback.
Proof. solve_decision. Defined.

(** A message sent to the server log, with the value the error-capture guard
    had when it was reported. *)
Record LogEntry := { log_message : string; log_guard : bool }.

Record Sys := {
  psch_shared_state : option PschSharedState;
  ring : list PschRingEntry;
  heap : gmap Z DsaBlock;
  dsa_refcnt : Z;  (** references the in-place DSA area holds *)
  htab : option (gmap PschQueryInternKey PschQueryInternEntry);
  lock_held : bool;  (** this process holds [psch_shared_state->lock] *)
  psch_dsa : bool;  (** the process-local DSA handle is not [NULL] *)
  psch_dsa_exit_hook_registered : bool;
  disable_error_capture : bool;
  local_batch : list PschEvent;
  local_batch_count : Z;
  local_batch_initialized : bool;
  exit_callbacks : list ExitCallback;
  xact_callback_registered : bool;
  addin_lock_held : bool;  (** this process holds [AddinShmemInitLock] *)
  log : list LogEntry }.

#[export] Instance Sys_eta : Eta Sys := λ s,
  Build_Sys (psch_shared_state s) (ring s) (heap s) (dsa_refcnt s) (htab s) (lock_held s)
    (psch_dsa s) (psch_dsa_exit_hook_registered s) (disable_error_capture s) (local_batch s)
    (local_batch_count s) (local_batch_initialized s) (exit_callbacks s)
    (xact_callback_registered s) (addin_lock_held s) (log s).

(** ** The environment *)

(** What an allocation request of the DSA area can come to. *)
Inductive AllocOutcome :=
  | AllocOk (p : Z)
  | AllocOom
  | AllocError.

Class Env := {
  psch_enabled : bool;
  psch_debug_force_locked_overflow : bool;
  psch_queue_capacity : Z;
  psch_string_area_size : Z;
  (** [dsa_allocate_extended] with [DSA_ALLOC_NO_OOM] *)
  dsa_pick : gmap Z DsaBlock → Z → AllocOutcome;
  (** [hash_any_extended(query, len, 0)] and dynahash's [get_hash_value] *)
  hash_any_extended : bytes → Z;
  get_hash_value : PschQueryInternKey → Z;
  (** whether [HASH_ENTER_NULL] finds a free element for a new key *)
  hash_has_room : gmap PschQueryInternKey PschQueryInternEntry → PschQueryInternKey → bool;
  (** whether [LWLockConditionalAcquire] finds the queue lock free *)
  lock_available : bool;
  (** dynahash's estimate of the memory a shared hash table takes *)
  hash_estimate_size : Z → Z → Z;
  GetCurrentTimestamp : Z }.

(** The allocator hands out a valid pointer to memory not in use. *)
Class EnvLaws (E : Env) : Prop := {
  dsa_pick_fresh h size p : dsa_pick h size = AllocOk p → p ≠ InvalidDsaPointer ∧ h !! p = None }.

(** The allocator can leave by an error, which [DSA_ALLOC_NO_OOM] does not rule
    out: a segment may fail to be mapped. *)
Definition alloc_raises (E : Env) : Prop := ∃ h n, dsa_pick h n = AllocError.

(** The hash table was created with room for [psch_queue_capacity] entries. *)
Definition htab_sized (E : Env) : Prop :=
  ∀ m k, Z.of_nat (size m) < psch_queue_capacity → hash_has_room m k = true.

(** ** Primitive actions *)

(** Following [psch_shared_state]; a [NULL] there is a crash. *)
Definition deref : M Sys PschSharedState := λ s, (psch_shared_state s, s).
Definition rd {A} (f : PschSharedState → A) : M Sys A := st ← deref; mret (f st).
Definition wr (f : PschSharedState → PschSharedState) : M Sys unit :=
  st ← deref; modify (λ s, s <| psch_shared_state := Some (f st) |>).

Definition shared_is_null : M Sys bool :=
  gets (λ s, match psch_shared_state s with None => true | Some _ => false end).

(** [pg_atomic_fetch_add_u64(&counter, 1)] on the counters the queue keeps. *)
Definition incr_dropped (st : PschSharedState) : PschSharedState :=
  st <| dropped ::= λ n, u64 (n + 1) |>.
Definition incr_enqueued (st : PschSharedState) : PschSharedState :=
  st <| enqueued ::= λ n, u64 (n + 1) |>.
Definition incr_dsa_oom (st : PschSharedState) : PschSharedState :=
  st <| dsa_oom_count ::= λ n, u64 (n + 1) |>.

(** [LWLockAcquire] waits for other processes, and for ever when this process
    already holds the lock; waiting for ever is the abnormal outcome. *)
Definition LWLockAcquire : M Sys unit := λ s,
  if lock_held s then (None, s) else (Some tt, s <| lock_held := true |>).
Definition LWLockRelease : M Sys unit := modify (λ s, s <| lock_held := false |>).
Definition LWLockConditionalAcquire {E : Env} : M Sys bool := λ s,
  if lock_available && negb (lock_held s) then (Some true, s <| lock_held := true |>)
  else (Some false, s).

Definition ereport_warning (msg : string) : M Sys unit :=
  modify (λ s, s <| log ::= cons {| log_message := msg; log_guard := disable_error_capture s |} |>).

Definition on_shmem_exit (cb : ExitCallback) : M Sys unit :=
  modify (λ s, s <| exit_callbacks ::= cons cb |>).

(** [dsa_allocate_extended(dsa, size, DSA_ALLOC_NO_OOM)]. *)
Definition dsa_allocate_extended {E : Env} (size : Z) : M Sys Z := λ s,
  match dsa_pick (heap s) size with
  | AllocOk p => (Some p, s <| heap ::= <[p := DsaUninit size]> |>)
  | AllocOom => (Some InvalidDsaPointer, s)
  | AllocError => (None, s)
  end.
Definition dsa_free (p : Z) : M Sys unit := modify (λ s, s <| heap ::= delete p |>).
Definition dsa_store (p : Z) (b : DsaBlock) : M Sys unit :=
  modify (λ s, s <| heap ::= <[p := b]> |>).

(** The bytes of the string at [p]. *)
Definition string_at (h : gmap Z DsaBlock) (p : Z) : bytes :=
  match h !! p with
  | Some (DsaString b) => b
  | _ => []
  end.
(** The interned object at [p], if the memory there is one. *)
Definition object_at (h : gmap Z DsaBlock) (p : Z) : option PschQueryInternObject :=
  match h !! p with
  | Some (DsaObject o) => Some o
  | _ => None
  end.

(** [PschSuppressErrorCapture] of [hooks.c]: sets the guard, returns the old one. *)
Definition PschSuppressErrorCapture (suppress : bool) : M Sys bool :=
  prev ← gets disable_error_capture;
  _ ← modify (λ s, s <| disable_error_capture := suppress |>);
  mret prev.

(** ** Rules *)

Lemma wp_deref st (Q : PschSharedState → Sys → Prop) E s :
  psch_shared_state s = Some st → Q st s → wp deref Q E s.
Proof. unfold wp, deref. by intros ->. Qed.

Lemma wp_rd {A} (f : PschSharedState → A) st Q E s :
  psch_shared_state s = Some st → Q (f st) s → wp (rd f) Q E s.
Proof. intros. unfold rd. wp_step. eapply wp_deref; [done|]. by wp_step. Qed.

Lemma wp_wr f st (Q : unit → Sys → Prop) E s :
  psch_shared_state s = Some st →
  Q tt (s <| psch_shared_state := Some (f st) |>) → wp (wr f) Q E s.
Proof. intros. unfold wr. wp_step. eapply wp_deref; [done|]. by wp_step. Qed.

Lemma wp_alloc {E : Env} size (Q : Z → Sys → Prop) R s :
  (∀ p, dsa_pick (heap s) size = AllocOk p → Q p (s <| heap ::= <[p := DsaUninit size]> |>)) →
  (dsa_pick (heap s) size = AllocOom → Q InvalidDsaPointer s) →
  (dsa_pick (heap s) size = AllocError → R s) →
  wp (dsa_allocate_extended size) Q R s.
Proof.
  intros H1 H2 H3. unfold wp, dsa_allocate_extended. destruct (dsa_pick _ _); auto.
Qed.

Lemma DsaPointerIsValid_spec p : DsaPointerIsValid p = true ↔ p ≠ InvalidDsaPointer.
Proof. unfold DsaPointerIsValid. rewrite negb_true_iff, Z.eqb_neq. done. Qed.

Lemma DsaPointerIsValid_false p : DsaPointerIsValid p = false ↔ p = InvalidDsaPointer.
Proof. unfold DsaPointerIsValid. rewrite negb_false_iff, Z.eqb_eq. done. Qed.

Lemma DsaPointerIsValid_Invalid : DsaPointerIsValid InvalidDsaPointer = false.
Proof. done. Qed.

End Shared.
