(* ===== verification/Dsa.v ===== *)
(** DSA string storage ([src/src/queue/psch_dsa.c]): attaching to the area,
    allocating a string, resolving and freeing it. *)

From S2P Require Import Prelude Event Shared.
Import Event Shared.

Module Dsa.

Section Dsa.
Context {E : Env}.

(** [Size] arithmetic of PostgreSQL: 64-bit, an overflow is an error. *)
Definition SIZE_MAX : Z := 2 ^ 64 - 1.

Definition PschDsaShmemSize : Z := u64 (u64 (psch_string_area_size * 1024) * 1024).

(** [dsa_create_in_place] and [dsa_pin] take one reference each; the local
    handle is dropped, which leaves the references. *)
Definition PschDsaInit (dsa_place : Z) : M Sys unit :=
  _ ← wr (λ st, st <| raw_dsa_area := Some dsa_place |>);
  modify (λ s, s <| heap := ∅ |> <| dsa_refcnt := 2 |>).

Definition PschDsaAttach : M Sys unit :=
  attached ← gets psch_dsa;
  if attached : bool then mret tt
  else
    null ← shared_is_null;
    if null : bool then mret tt
    else
      raw ← rd raw_dsa_area;
      match raw with
      | None => mret tt
      | Some _ =>
        _ ← modify (λ s, s <| psch_dsa := true |> <| dsa_refcnt ::= Z.succ |>);
        registered ← gets psch_dsa_exit_hook_registered;
        if registered : bool then mret tt
        else
          _ ← on_shmem_exit PschDsaDetachOnExit;
          modify (λ s, s <| psch_dsa_exit_hook_registered := true |>)
      end.

(** The body of the exit callback [PschDsaDetachOnExit]. *)
Definition DetachOnExit : M Sys unit :=
  _ ← modify (λ s, s <| psch_dsa := false |>);
  null ← shared_is_null;
  _ ← (if null : bool then mret tt
       else
         raw ← rd raw_dsa_area;
         match raw with
         | None => mret tt
         | Some _ => modify (λ s, s <| dsa_refcnt ::= Z.pred |>)
         end);
  modify (λ s, s <| psch_dsa_exit_hook_registered := false |>).

(** Whether the handle is usable ([false] for [NULL]). *)
Definition PschDsaGetArea : M Sys bool :=
  attached ← gets psch_dsa;
  _ ← (if attached : bool then mret tt else PschDsaAttach);
  gets psch_dsa.

Definition PschDsaAllocString (src : bytes) (len max_len : Z) : M Sys Z :=
  if len =? 0 then mret InvalidDsaPointer
  else
    dsa ← PschDsaGetArea;
    if negb dsa then mret InvalidDsaPointer
    else
      let clamped := Z.min len (u16 (max_len - 1)) in
      dp ← dsa_allocate_extended (clamped + 1);
      _ ← (if DsaPointerIsValid dp
           then dsa_store dp (DsaString (take (Z.to_nat clamped) src ++ [0]))
           else wr incr_dsa_oom);
      mret dp.

(** Returns the destination buffer and [*out_len]. *)
Definition PschDsaResolveString (dp src_len : Z) (dst_buf : bytes) (max_len : Z)
    : M Sys (bytes * Z) :=
  if DsaPointerIsValid dp then
    dsa ← PschDsaGetArea;
    if negb dsa then mret (blit 0 [0] dst_buf, 0)
    else
      src ← gets (λ s, string_at (heap s) dp);
      let len := Z.min src_len (u16 (max_len - 1)) in
      let dst := blit (Z.to_nat len) [0] (blit 0 (take (Z.to_nat len) src) dst_buf) in
      _ ← dsa_free dp;
      mret (dst, len)
  else mret (blit 0 [0] dst_buf, 0).

(** ** Attachment *)

(** The process holds a reference on the area exactly when its handle is set,
    and then exactly one detach callback is registered. *)
Definition is_detach (cb : ExitCallback) : bool :=
  match cb with PschDsaDetachOnExit => true | _ => false end.
Definition attach_inv (s : Sys) : Prop :=
  psch_dsa_exit_hook_registered s = psch_dsa s ∧
  count is_detach (exit_callbacks s) = if psch_dsa s then 1%nat else 0%nat.
(** References the area holds besides this process's own. *)
Definition other_refs (s : Sys) : Z := dsa_refcnt s - if psch_dsa s then 1 else 0.
(** The callbacks other than the detach. *)
Definition other_callbacks (s : Sys) : list ExitCallback :=
  filter (λ cb, is_detach cb = false) (exit_callbacks s).

Record same_attach (s s' : Sys) : Prop := {
  sa_inv : attach_inv s → attach_inv s';
  sa_refs : other_refs s' = other_refs s;
  sa_callbacks : other_callbacks s' = other_callbacks s }.

#[export] Instance same_attach_reflexive : Reflexive same_attach.
Proof. intros s. by constructor. Qed.
#[export] Instance same_attach_transitive : Transitive same_attach.
Proof. intros s1 s2 s3 [] []. constructor; [auto|congruence..]. Qed.

Lemma same_attach_fields s s' :
  psch_dsa s' = psch_dsa s → psch_dsa_exit_hook_registered s' = psch_dsa_exit_hook_registered s →
  exit_callbacks s' = exit_callbacks s → dsa_refcnt s' = dsa_refcnt s → same_attach s s'.
Proof.
  intros H1 H2 H3 H4. constructor; unfold attach_inv, other_refs, other_callbacks;
    by rewrite ?H1, ?H2, ?H3, ?H4.
Qed.

(** The part of the state an attachment never touches. *)
Definition same_shared (s s' : Sys) : Prop :=
  psch_shared_state s' = psch_shared_state s ∧ ring s' = ring s ∧ heap s' = heap s ∧
  htab s' = htab s ∧ lock_held s' = lock_held s ∧
  disable_error_capture s' = disable_error_capture s ∧
  local_batch s' = local_batch s ∧ local_batch_count s' = local_batch_count s ∧
  log s' = log s ∧ same_attach s s'.

(** The area can be had: already attached, or there to attach to. *)
Definition area_available (s : Sys) : Prop :=
  psch_dsa s = true ∨ ∃ st, psch_shared_state s = Some st ∧ raw_dsa_area st ≠ None.

Lemma same_shared_refl s : same_shared s s.
Proof. by split_and!. Qed.

Lemma area_available_attached s : psch_dsa s = true → area_available s.
Proof. by left. Qed.

Lemma area_available_raw s st a :
  psch_shared_state s = Some st → raw_dsa_area st = Some a → area_available s.
Proof. intros Hst Ha. right. exists st. by rewrite Ha. Qed.

Lemma area_unavailable_null s :
  psch_dsa s = false → psch_shared_state s = None → ¬ area_available s.
Proof. intros Hd Hst [Hd'|(st & Hst' & _)]; congruence. Qed.

Lemma area_unavailable_raw s st :
  psch_dsa s = false → psch_shared_state s = Some st → raw_dsa_area st = None → ¬ area_available s.
Proof. intros Hd Hst Hr [Hd'|(st' & Hst' & Hr')]; congruence. Qed.

Lemma wp_attach (Q : unit → Sys → Prop) R s :
  (∀ s', same_shared s s' → (psch_dsa s' = true ↔ area_available s) → Q tt s') →
  wp PschDsaAttach Q R s.
Proof.
  intros HQ. unfold PschDsaAttach, shared_is_null, on_shmem_exit. do 2 wp_step.
  destruct (psch_dsa s) eqn:Hd.
  { wp_step. apply HQ; [apply same_shared_refl|].
    split; intros _; [by apply area_available_attached|done]. }
  do 2 wp_step. destruct (psch_shared_state s) as [st|] eqn:Hst.
  - wp_step. eapply wp_rd; [done|].
    destruct (raw_dsa_area st) as [a|] eqn:Hraw.
    + wp_run. destruct (psch_dsa_exit_hook_registered (_ <| dsa_refcnt ::= _ |>)) eqn:Hr; wp_run;
        (apply HQ; [split_and!; try done|split; intros _; [by eapply area_available_raw|done]]).
      * simpl in Hr. constructor; [|unfold other_refs; simpl; rewrite Hd; lia|done].
        intros [Hreg _]. congruence.
      * constructor; [|unfold other_refs; simpl; rewrite Hd; lia|done].
        intros [Hreg Hc]. split; [done|]. rewrite Hd in Hc. simpl. rewrite count_cons. simpl. lia.
    + wp_step. apply HQ; [apply same_shared_refl|]. rewrite Hd.
      split; [done|]. intros Ha. exfalso. by eapply area_unavailable_raw.
  - wp_step. apply HQ; [apply same_shared_refl|]. rewrite Hd.
    split; [done|]. intros Ha. exfalso. by eapply area_unavailable_null.
Qed.

Lemma wp_get_area (Q : bool → Sys → Prop) R s :
  (∀ b s', same_shared s s' → psch_dsa s' = b → (b = true ↔ area_available s) → Q b s') →
  wp PschDsaGetArea Q R s.
Proof.
  intros HQ. unfold PschDsaGetArea. do 3 wp_step.
  destruct (psch_dsa s) eqn:Hd.
  - wp_run. apply HQ; [apply same_shared_refl|done|]. rewrite Hd.
    split; intros _; [by apply area_available_attached|done].
  - apply wp_attach. intros s' Hs Ha. wp_step. by apply HQ.
Qed.

End Dsa.

#[export] Hint Extern 1 (same_attach _ _) => by apply same_attach_fields : core psch.

End Dsa.
