(* ===== verification/Intern.v ===== *)
(** The shared query-text interner ([src/src/queue/query_intern.c]).

    Identical query texts of queued events share one DSA object; the hash table
    counts the references. *)

From S2P Require Import Prelude Event Shared Dsa.
Import Event Layout Shared Dsa.

Module Intern.

Definition PSCH_QUERY_INTERN_PARTITIONS : Z := 32.

(** [sizeof(PschQueryInternKey)] and [sizeof(PschQueryInternEntry)]. *)
Definition intern_key_fields : list Field :=
  [scalar "dbid" 4; scalar "queryid" 8; scalar "query_hash" 8; scalar "query_len" 2].
Definition intern_key_field : Field := Build_Field "key" (sizeof intern_key_fields) 8.
Definition intern_entry_size : Z :=
  sizeof [intern_key_field; scalar "object" 8; scalar "refcount" 4].

(** [offsetof(PschQueryInternObject, query)]: the key, then the magic number. *)
Definition intern_header_size : Z :=
  default 0 (offsetof [intern_key_field; scalar "magic" 4; chars "query" 0] "query").

Section Intern.
Context {E : Env}.

Definition PschQueryInternMaxEntries : Z := psch_queue_capacity.
Definition PschQueryInternShmemSize : Z :=
  hash_estimate_size PschQueryInternMaxEntries intern_entry_size.
Definition PschQueryInternLockCount : Z := PSCH_QUERY_INTERN_PARTITIONS.

(** The hash table is created, or attached to when it exists already. *)
Definition PschQueryInternShmemInit : M Sys unit :=
  modify (λ s, s <| htab ::= λ h, Some (default ∅ h) |>).

Definition MakeKey (dbid queryid : Z) (query : bytes) (query_len : Z) : PschQueryInternKey :=
  {| k_dbid := dbid; k_queryid := queryid;
     k_query_hash := hash_any_extended (take (Z.to_nat query_len) query);
     k_query_len := query_len |}.

Definition CopyKeyFields (src : PschQueryInternKey) : PschQueryInternKey :=
  {| k_dbid := k_dbid src; k_queryid := k_queryid src;
     k_query_hash := k_query_hash src; k_query_len := k_query_len src |}.

(** Index of the partition lock for a hash code. *)
Definition PartitionLockFor (hashcode : Z) : Z :=
  Z.land hashcode (PSCH_QUERY_INTERN_PARTITIONS - 1).

Definition AllocInternObject (key : PschQueryInternKey) (query : bytes) (query_len : Z) : M Sys Z :=
  let alloc_size := intern_header_size + query_len + 1 in
  dp ← dsa_allocate_extended alloc_size;
  if negb (DsaPointerIsValid dp) then
    _ ← wr incr_dsa_oom;
    mret InvalidDsaPointer
  else
    _ ← dsa_store dp (DsaObject {| o_key := CopyKeyFields key;
                                   magic := PSCH_QUERY_INTERN_MAGIC;
                                   o_query := take (Z.to_nat query_len) query ++ [0] |});
    mret dp.

Definition ObjectMatches (h : gmap Z DsaBlock) (dp : Z) (query : bytes) (query_len : Z) : bool :=
  match object_at h dp with
  | None => false
  | Some obj =>
    if negb (magic obj =? PSCH_QUERY_INTERN_MAGIC) then false
    else if negb (k_query_len (o_key obj) =? query_len) then false
    else bool_decide (take (Z.to_nat query_len) (o_query obj) = take (Z.to_nat query_len) query)
  end.

Definition get_htab : M Sys (gmap PschQueryInternKey PschQueryInternEntry) :=
  gets (λ s, default ∅ (htab s)).
Definition put_htab (m : gmap PschQueryInternKey PschQueryInternEntry) : M Sys unit :=
  modify (λ s, s <| htab := Some m |>).

(** The first critical section: look the key up; [Some] is the call's result,
    [None] a miss. *)
Definition AcquireLookup (key : PschQueryInternKey) (query : bytes) (query_len : Z)
    : M Sys (option Z) :=
  m ← get_htab;
  h ← gets heap;
  match m !! key with
  | Some entry =>
    if ObjectMatches h (object entry) query query_len then
      _ ← put_htab (<[key := entry <| refcount ::= λ n, u32 (n + 1) |>]> m);
      mret (Some (object entry))
    else mret (Some InvalidDsaPointer)
  | None => mret None
  end.

(** The second critical section: enter the object allocated meanwhile, or back
    out of it. *)
Definition AcquireInsert (key : PschQueryInternKey) (query : bytes) (query_len new_dp : Z)
    : M Sys Z :=
  m ← get_htab;
  h ← gets heap;
  match m !! key with
  | None =>
    if hash_has_room m key then
      _ ← put_htab (<[key := {| object := new_dp; refcount := 1 |}]> m);
      mret new_dp
    else
      _ ← dsa_free new_dp;
      mret InvalidDsaPointer
  | Some entry =>
    let existing := object entry in
    if ObjectMatches h existing query query_len then
      _ ← put_htab (<[key := entry <| refcount ::= λ n, u32 (n + 1) |>]> m);
      _ ← dsa_free new_dp;
      mret existing
    else
      _ ← dsa_free new_dp;
      mret InvalidDsaPointer
  end.

Definition PschQueryInternAcquire (dbid queryid : Z) (query : bytes) (query_len : Z) : M Sys Z :=
  null ← gets (λ s, match htab s with None => true | Some _ => false end);
  if (query_len =? 0) || null then mret InvalidDsaPointer
  else
    dsa ← PschDsaGetArea;
    if negb dsa then mret InvalidDsaPointer
    else
      let key := MakeKey dbid queryid query query_len in
      found ← AcquireLookup key query query_len;
      match found with
      | Some dp => mret dp
      | None =>
        new_dp ← AllocInternObject key query query_len;
        if negb (DsaPointerIsValid new_dp) then mret InvalidDsaPointer
        else AcquireInsert key query query_len new_dp
      end.

(** The critical section of [ReleaseRef]: the pointer to free, if the last
    reference went. *)
Definition ReleaseEntry (key : PschQueryInternKey) (ref : Z) : M Sys Z :=
  m ← get_htab;
  match m !! key with
  | Some entry =>
    if object entry =? ref then
      let n := u32 (refcount entry - 1) in
      if n =? 0 then
        _ ← put_htab (delete key m);
        mret (object entry)
      else
        _ ← put_htab (<[key := entry <| refcount := n |>]> m);
        mret InvalidDsaPointer
    else mret InvalidDsaPointer
  | None => mret InvalidDsaPointer
  end.

Definition ReleaseRef (ref : Z) : M Sys unit :=
  null ← gets (λ s, match htab s with None => true | Some _ => false end);
  if negb (DsaPointerIsValid ref) || null then mret tt
  else
    dsa ← PschDsaGetArea;
    if negb dsa then mret tt
    else
      obj ← gets (λ s, object_at (heap s) ref);
      match obj with
      | None => mret tt
      | Some obj =>
        if negb (magic obj =? PSCH_QUERY_INTERN_MAGIC) then mret tt
        else
          let key := CopyKeyFields (o_key obj) in
          freed_dp ← ReleaseEntry key ref;
          if DsaPointerIsValid freed_dp then dsa_free freed_dp else mret tt
      end.

(** Output parameters: [dst] with its size, and [*out_len]; [None] is [NULL]. *)
Definition ResolveInto (ref : Z) (dst : option bytes) (dst_size : Z) (out_len : option Z)
    : M Sys (option bytes * option Z) :=
  match dst, out_len with
  | Some d, Some _ =>
    if negb (DsaPointerIsValid ref) || (dst_size =? 0) then mret (dst, out_len)
    else
      dsa ← PschDsaGetArea;
      if negb dsa then mret (dst, out_len)
      else
        obj ← gets (λ s, object_at (heap s) ref);
        match obj with
        | None => mret (dst, out_len)
        | Some obj =>
          if negb (magic obj =? PSCH_QUERY_INTERN_MAGIC) then mret (dst, out_len)
          else
            let len := k_query_len (o_key obj) in
            let copy_len := if dst_size <=? len then u16 (dst_size - 1) else len in
            let d := blit 0 (take (Z.to_nat copy_len) (o_query obj)) d in
            let d := blit (Z.to_nat copy_len) [0] d in
            mret (Some d, Some copy_len)
        end
  | _, _ => mret (dst, out_len)
  end.

Definition PschQueryInternResolveAndRelease (ref : Z) (dst : option bytes) (dst_size : Z)
    (out_len : option Z) : M Sys (option bytes * option Z) :=
  let out_len := match out_len with Some _ => Some 0 | None => None end in
  let dst := match dst with
             | Some d => if 0 <? dst_size then Some (blit 0 [0] d) else Some d
             | None => None
             end in
  out ← ResolveInto ref dst dst_size out_len;
  _ ← ReleaseRef ref;
  mret out.

End Intern.
End Intern.
