(* ===== verification/Ring.v ===== *)
(** The shared-memory ring buffer ([src/src/queue/shmem.c]): overflow handling,
    enqueue under the lock, batch enqueue, dequeue, and the statistics kept
    beside the queue. [PschEnqueueEvent] is in [LocalBatch.v], since its
    contended path buffers in the process-local batch. *)

From S2P Require Import Prelude Event Shared Dsa Intern.
Import Event Shared Dsa Intern.

Module Ring.

#[export] Instance PschRingEntry_inhabited : Inhabited PschRingEntry := populate zero_entry.

Section Ring.
Context {E : Env}.

Definition overflow_message : string := "pg_stat_ch: queue overflow, events being dropped".

Definition HandleOverflow : M Sys unit :=
  _ ← wr incr_dropped;
  logged ← rd overflow_logged;
  if negb logged then
    _ ← wr (λ st, st <| overflow_logged := true |>);
    ereport_warning overflow_message
  else mret tt.

(** [&GetRingBuffer()[pos & mask]] with [mask = capacity - 1]. *)
Definition slot_index (capacity pos : Z) : nat := Z.to_nat (Z.land pos (u32 (capacity - 1))).

Definition get_slot (i : nat) : M Sys PschRingEntry := gets (λ s, ring s !!! i).
Definition put_slot (i : nat) (f : PschRingEntry → PschRingEntry) : M Sys unit :=
  modify (λ s, s <| ring ::= alter f i |>).

Definition set_err_message_len (n : Z) (e : PschRingEntry) : PschRingEntry :=
  e <| re_fixed ::= λ f, f <| err_message_len := n |> |>.
Definition set_query_len (n : Z) (e : PschRingEntry) : PschRingEntry :=
  e <| re_fixed ::= λ f, f <| query_len := n |> |>.

(** Step 2 of [TryEnqueueLocked], first text: the error message. *)
Definition StoreErrMessage (event : PschEvent) (slot : nat) : M Sys unit :=
  err_dsa ← PschDsaAllocString (err_message event) (err_message_len (ev_fixed event))
              PSCH_MAX_ERR_MSG_LEN;
  _ ← put_slot slot (λ e, e <| err_message_dsa := err_dsa |>);
  if (0 <? err_message_len (ev_fixed event)) && negb (DsaPointerIsValid err_dsa)
  then put_slot slot (set_err_message_len 0) else mret tt.

(** Step 2 of [TryEnqueueLocked], second text: the query, through the interner. *)
Definition StoreQuery (event : PschEvent) (slot : nat) : M Sys unit :=
  if 0 <? query_len (ev_fixed event) then
    let clamped_len := Z.min (query_len (ev_fixed event)) (u16 (PSCH_MAX_QUERY_LEN - 1)) in
    q_dsa ← PschQueryInternAcquire (dbid (identity (ev_fixed event)))
              (queryid (identity (ev_fixed event))) (query event) clamped_len;
    _ ← put_slot slot (λ e, e <| query_dsa := q_dsa |>);
    if negb (DsaPointerIsValid q_dsa) then put_slot slot (set_query_len 0)
    else put_slot slot (set_query_len clamped_len)
  else put_slot slot (λ e, e <| query_dsa := InvalidDsaPointer |>).

Definition TryEnqueueLocked (event : PschEvent) (capacity : Z) : M Sys bool :=
  head ← rd q_head;
  tail ← rd q_tail;
  if (capacity <=? u64 (head - tail)) || psch_debug_force_locked_overflow then
    _ ← HandleOverflow;
    mret false
  else
    let slot := slot_index capacity head in
    _ ← put_slot slot (λ e, e <| re_fixed := ev_fixed event |>);
    _ ← StoreErrMessage event slot;
    _ ← StoreQuery event slot;
    _ ← wr (λ st, st <| q_head := u64 (head + 1) |>);
    _ ← wr incr_enqueued;
    mret true.

(** The loop of [PschEnqueueBatch], counting successes in [enqueued]. *)
Fixpoint EnqueueLoop (events : list PschEvent) (capacity enqueued : Z) : M Sys Z :=
  match events with
  | [] => mret enqueued
  | ev :: rest =>
    ok ← TryEnqueueLocked ev capacity;
    EnqueueLoop rest capacity (if ok : bool then enqueued + 1 else enqueued)
  end.

Definition PschEnqueueBatch (events : list PschEvent) (count : Z) : M Sys Z :=
  null ← shared_is_null;
  if null || negb psch_enabled || (count =? 0) then mret 0
  else
    let events := take (Z.to_nat count) events in
    saved_capture ← PschSuppressErrorCapture true;
    capacity ← rd capacity;
    head ← rd q_head;
    tail ← rd q_tail;
    if capacity <=? u64 (head - tail) then
      _ ← for_each (λ _, HandleOverflow) events;
      _ ← PschSuppressErrorCapture saved_capture;
      mret 0
    else
      _ ← LWLockAcquire;
      pg_finally (EnqueueLoop events capacity 0)
        (_ ← LWLockRelease; _ ← PschSuppressErrorCapture saved_capture; mret tt).

(** [event] is the caller's buffer; returns whether an event was there and the
    buffer afterwards. *)
Definition PschDequeueEvent (event : PschEvent) : M Sys (bool * PschEvent) :=
  null ← shared_is_null;
  if null : bool then mret (false, event)
  else
    head ← rd q_head;
    tail ← rd q_tail;
    if head =? tail then mret (false, event)
    else
      capacity ← rd capacity;
      slot ← get_slot (slot_index capacity tail);
      let event := event <| ev_fixed := re_fixed slot |> in
      err ← PschDsaResolveString (err_message_dsa slot) (err_message_len (re_fixed slot))
              (err_message event) PSCH_MAX_ERR_MSG_LEN;
      let event := event <| err_message := err.1 |>
                         <| ev_fixed ::= λ f, f <| err_message_len := err.2 |> |> in
      q ← PschQueryInternResolveAndRelease (query_dsa slot) (Some (query event))
            PSCH_MAX_QUERY_LEN (Some (query_len (ev_fixed event)));
      let event := event <| query := default [] q.1 |>
                         <| ev_fixed ::= λ f, f <| query_len := default 0 q.2 |> |> in
      _ ← wr (λ st, st <| q_tail := u64 (tail + 1) |>);
      mret (true, event).

(** ** Statistics *)

Record Stats := {
  s_enqueued : Z; s_dropped : Z; s_exported : Z; s_queue_size : Z; s_queue_capacity : Z;
  s_send_failures : Z; s_last_success_ts : Z; s_last_error : bytes; s_last_error_ts : Z;
  s_dsa_oom_count : Z }.

(** [last_error_buf] is the caller's buffer of [last_error_buf_size] bytes. *)
Definition PschGetStats (last_error_buf : bytes) (last_error_buf_size : Z) : M Sys Stats :=
  null ← shared_is_null;
  if null : bool then
    mret {| s_enqueued := 0; s_dropped := 0; s_exported := 0; s_queue_size := 0;
            s_queue_capacity := 0; s_send_failures := 0; s_last_success_ts := 0;
            s_last_error := if 0 <? last_error_buf_size then blit 0 [0] last_error_buf
                            else last_error_buf;
            s_last_error_ts := 0; s_dsa_oom_count := 0 |}
  else
    enq ← rd enqueued;
    drp ← rd dropped;
    exp ← rd exported;
    fail ← rd send_failures;
    oom ← rd dsa_oom_count;
    head ← rd q_head;
    tail ← rd q_tail;
    cap ← rd capacity;
    _ ← LWLockAcquire;
    succ_ts ← rd last_success_ts;
    err_ts ← rd last_error_ts;
    text ← rd last_error_text;
    _ ← LWLockRelease;
    mret {| s_enqueued := enq; s_dropped := drp; s_exported := exp;
            s_queue_size := u32 (u64 (head - tail)); s_queue_capacity := cap;
            s_send_failures := fail; s_last_success_ts := succ_ts;
            s_last_error := (strlcpy last_error_buf last_error_buf_size text).1;
            s_last_error_ts := err_ts; s_dsa_oom_count := oom |}.

Definition PschResetStats : M Sys unit :=
  null ← shared_is_null;
  if null : bool then mret tt
  else
    _ ← LWLockAcquire;
    _ ← wr (λ st, st <| enqueued := 0 |> <| dropped := 0 |> <| exported := 0 |>
                     <| send_failures := 0 |> <| overflow_logged := false |>
                     <| dsa_oom_count := 0 |> <| last_success_ts := 0 |> <| last_error_ts := 0 |>
                     <| last_error_text := repeat 0 256 |>);
    LWLockRelease.

Definition PschRecordExportSuccess : M Sys unit :=
  null ← shared_is_null;
  if null : bool then mret tt
  else
    _ ← LWLockAcquire;
    _ ← wr (λ st, st <| last_success_ts := GetCurrentTimestamp |>);
    LWLockRelease.

(** [error_msg] is [None] for [NULL]. *)
Definition PschRecordExportFailure (error_msg : option bytes) : M Sys unit :=
  null ← shared_is_null;
  if null : bool then mret tt
  else
    _ ← wr (λ st, st <| send_failures ::= λ n, u64 (n + 1) |>);
    _ ← LWLockAcquire;
    _ ← wr (λ st, st <| last_error_ts := GetCurrentTimestamp |>);
    _ ← match error_msg with
        | Some msg => wr (λ st, st <| last_error_text ::= λ buf, (strlcpy buf 256 msg).1 |>)
        | None => mret tt
        end;
    LWLockRelease.

Definition PschGetBgworkerPid : M Sys Z :=
  null ← shared_is_null;
  if null : bool then mret 0 else pid ← rd bgworker_pid; mret (i32 pid).

Definition PschSetBgworkerPid (pid : Z) : M Sys unit :=
  null ← shared_is_null;
  if null : bool then mret tt else wr (λ st, st <| bgworker_pid := u32 pid |>).

End Ring.
End Ring.
