(* ===== verification/LocalBatch.v ===== *)
(** The process-local batch ([src/src/queue/local_batch.c]), the producers' entry
    point [PschEnqueueEvent] ([src/src/queue/shmem.c]) that falls back to it, and
    the exit of a process, which runs the registered callbacks. *)

From stdpp Require Import pretty.
From S2P Require Import Prelude Event Shared Dsa Intern Ring.
Import Event Shared Dsa Intern Ring.

Module LocalBatch.

Definition PSCH_LOCAL_BATCH_CAPACITY : Z := 8.

(** Transaction events; those that flush are the ends of a transaction. *)
Inductive XactEvent : Set :=
  | XACT_EVENT_COMMIT
  | XACT_EVENT_PARALLEL_COMMIT
  | XACT_EVENT_ABORT
  | XACT_EVENT_PARALLEL_ABORT
  | XACT_EVENT_PREPARE
  | XACT_EVENT_PRE_COMMIT
  | XACT_EVENT_PARALLEL_PRE_COMMIT
  | XACT_EVENT_PRE_PREPARE.

Section LocalBatch.
Context {E : Env}.

Definition PschLocalBatchInit : M Sys unit :=
  _ ← modify (λ s, s <| xact_callback_registered := true |>);
  _ ← on_shmem_exit PschLocalBatchShutdown;
  modify (λ s, s <| local_batch_initialized := true |>).

Definition PschLocalBatchFlush : M Sys Z :=
  count ← gets local_batch_count;
  if count =? 0 then mret 0
  else
    _ ← modify (λ s, s <| local_batch_count := 0 |>);
    batch ← gets local_batch;
    PschEnqueueBatch batch count.

Definition PschLocalBatchAdd (event : PschEvent) : M Sys unit :=
  init ← gets local_batch_initialized;
  _ ← (if init : bool then mret tt else PschLocalBatchInit);
  count ← gets local_batch_count;
  _ ← (if PSCH_LOCAL_BATCH_CAPACITY <=? count then
         _ ← PschLocalBatchFlush; mret tt
       else mret tt);
  count ← gets local_batch_count;
  _ ← modify (λ s, s <| local_batch ::= <[Z.to_nat count := event]> |>);
  modify (λ s, s <| local_batch_count ::= Z.succ |>).

Definition PschXactCallback (event : XactEvent) : M Sys unit :=
  count ← gets local_batch_count;
  if count =? 0 then mret tt
  else
    match event with
    | XACT_EVENT_COMMIT
    | XACT_EVENT_PARALLEL_COMMIT
    | XACT_EVENT_ABORT
    | XACT_EVENT_PARALLEL_ABORT
    | XACT_EVENT_PREPARE => _ ← PschLocalBatchFlush; mret tt
    | _ => mret tt
    end.

(** The body of the exit callback [PschLocalBatchShutdown]. *)
Definition LocalBatchShutdown : M Sys unit := _ ← PschLocalBatchFlush; mret tt.

Definition PschEnqueueEvent (event : PschEvent) : M Sys bool :=
  null ← shared_is_null;
  if null || negb psch_enabled then mret false
  else
    saved_capture ← PschSuppressErrorCapture true;
    capacity ← rd capacity;
    (* lock-free fast path *)
    head ← rd q_head;
    tail ← rd q_tail;
    if capacity <=? u64 (head - tail) then
      _ ← HandleOverflow;
      _ ← PschSuppressErrorCapture saved_capture;
      mret false
    else
      acquired ← LWLockConditionalAcquire;
      if acquired : bool then
        pg_finally (TryEnqueueLocked event capacity)
          (_ ← LWLockRelease; _ ← PschSuppressErrorCapture saved_capture; mret tt)
      else
        _ ← PschSuppressErrorCapture saved_capture;
        _ ← PschLocalBatchAdd event;
        mret true.

(** The shutdown message with the final counters. *)
Definition ShmemShutdown : M Sys unit :=
  null ← shared_is_null;
  if null : bool then mret tt
  else
    enq ← rd enqueued;
    drp ← rd dropped;
    exp ← rd exported;
    let msg := ("pg_stat_ch: shutdown (enqueued=" ++ pretty enq ++ ", dropped=" ++ pretty drp ++
                ", exported=" ++ pretty exp ++ ")")%string in
    modify (λ s, s <| log ::= cons {| log_message := msg; log_guard := disable_error_capture s |} |>).

Definition run_callback (cb : ExitCallback) : M Sys unit :=
  match cb with
  | PschShmemShutdown => ShmemShutdown
  | PschDsaDetachOnExit => DetachOnExit
  | PschLocalBatchShutdown => LocalBatchShutdown
  end.

(** [shmem_exit]: pop the last registered callback and run it, until none is
    left; a callback may register another one. [fuel] bounds the callbacks run. *)
Fixpoint shmem_exit (fuel : nat) : M Sys unit :=
  match fuel with
  | O => raise
  | S fuel =>
    cbs ← gets exit_callbacks;
    match cbs with
    | [] => mret tt
    | cb :: rest =>
      _ ← modify (λ s, s <| exit_callbacks := rest |>);
      _ ← run_callback cb;
      shmem_exit fuel
    end
  end.

End LocalBatch.
End LocalBatch.
