(* ===== verification/InternInv.v ===== *)
(** Correctness of DSA string storage and of the interner.

    The ring's view of the two: a list of outstanding string pointers and a list
    of outstanding query references. [strings_inv] and [intern_inv] tie the DSA
    heap and the hash table to those lists; every operation is shown to move
    from lists to lists. *)

From S2P Require Import Prelude Event Shared Dsa Intern.
Import Event Shared Dsa Intern.

Module InternInv.

(** ** Frames *)

(** Everything outside the DSA heap and the hash table: unchanged, except that
    allocation failures are counted and the process may attach to the area. *)
Record keeps (s s' : Sys) : Prop := {
  keeps_st st : psch_shared_state s = Some st →
    ∃ n, psch_shared_state s' = Some (st <| dsa_oom_count := n |>);
  keeps_ring : ring s' = ring s;
  keeps_lock : lock_held s' = lock_held s;
  keeps_guard : disable_error_capture s' = disable_error_capture s;
  keeps_batch : local_batch s' = local_batch s;
  keeps_count : local_batch_count s' = local_batch_count s;
  keeps_log : log s' = log s;
  keeps_dsa : same_attach s s';
  keeps_area : area_available s → area_available s' }.

#[export] Instance keeps_reflexive : Reflexive keeps.
Proof.
  intros s. constructor; try done. intros st Hst. exists (dsa_oom_count st).
  rewrite Hst. by destruct st.
Qed.

#[export] Instance keeps_transitive : Transitive keeps.
Proof.
  intros s1 s2 s3 [H1] [H2]. constructor; try congruence; [|by etrans|auto].
  intros st Hst. destruct (H1 st Hst) as [n Hn]. destruct (H2 _ Hn) as [n' Hn'].
  exists n'. rewrite Hn'. by destruct st.
Qed.

Lemma keeps_attach s s' : same_shared s s' → (area_available s → area_available s') → keeps s s'.
Proof.
  intros (H1 & H2 & _ & _ & H3 & H4 & H5 & H6 & H7 & H8) Ha. constructor; try done.
  intros st Hst. exists (dsa_oom_count st). rewrite H1, Hst. by destruct st.
Qed.

Lemma keeps_heap f s : keeps s (s <| heap ::= f |>).
Proof.
  constructor; try done. intros st Hst. exists (dsa_oom_count st). simpl. rewrite Hst. by destruct st.
Qed.

Lemma keeps_htab f s : keeps s (s <| htab ::= f |>).
Proof.
  constructor; try done. intros st Hst. exists (dsa_oom_count st). simpl. rewrite Hst. by destruct st.
Qed.

(** An available area can be had, and having it changes nothing shared. *)
Lemma wp_get_area_available (Q : bool → Sys → Prop) R s :
  area_available s →
  (∀ s', keeps s s' → heap s' = heap s → htab s' = htab s → area_available s' → Q true s') →
  wp PschDsaGetArea Q R s.
Proof.
  intros Ha HQ. apply wp_get_area. intros b s' Hsame Hd Hb.
  rewrite (proj2 Hb Ha) in *.
  apply HQ; [apply keeps_attach; [done|by left]|apply Hsame..|by left].
Qed.

(** ** Invariants *)

(** [strings_inv h errs]: the outstanding string pointers are distinct live
    strings. [no_string_leak]: no other string is live. *)
Record strings_inv (h : gmap Z DsaBlock) (errs : list Z) : Prop := {
  errs_nodup : NoDup errs;
  errs_live p : p ∈ errs → p ≠ InvalidDsaPointer ∧ ∃ b, h !! p = Some (DsaString b) }.

Definition no_string_leak (h : gmap Z DsaBlock) (errs : list Z) : Prop :=
  ∀ p b, h !! p = Some (DsaString b) → p ∈ errs.

Definition no_uninit (h : gmap Z DsaBlock) : Prop := ∀ p n, h !! p ≠ Some (DsaUninit n).

(** A well-formed interned object for key [k]. *)
Definition object_wf (k : PschQueryInternKey) (o : PschQueryInternObject) : Prop :=
  o_key o = k ∧ magic o = PSCH_QUERY_INTERN_MAGIC ∧
  0 < k_query_len k < 2 ^ 16 ∧ length (o_query o) = S (Z.to_nat (k_query_len k)).

(** [intern_inv m h refs]: every entry of the table points at a live object
    that carries the entry's key, and its reference count is the number of
    outstanding references to that object, at least one; every reference and
    every live object has its entry. *)
Record intern_inv (m : gmap PschQueryInternKey PschQueryInternEntry) (h : gmap Z DsaBlock)
    (refs : list Z) : Prop := {
  entry_object k e : m !! k = Some e →
    object e ≠ InvalidDsaPointer ∧ ∃ o, h !! object e = Some (DsaObject o) ∧ object_wf k o;
  entry_refcount k e : m !! k = Some e →
    refcount e = Z.of_nat (count (Z.eqb (object e)) refs) ∧ 1 ≤ refcount e;
  ref_entry p : p ∈ refs → ∃ k e, m !! k = Some e ∧ object e = p;
  object_entry p o : h !! p = Some (DsaObject o) → ∃ e, m !! o_key o = Some e ∧ object e = p }.

(** The text a query reference stands for. *)
Definition text_at (h : gmap Z DsaBlock) (p : Z) : bytes :=
  match object_at h p with
  | Some o => take (Z.to_nat (k_query_len (o_key o))) (o_query o)
  | None => []
  end.

(** [grows h h']: nothing live was changed, no string came or went. *)
Definition grows (h h' : gmap Z DsaBlock) : Prop :=
  h ⊆ h' ∧ (∀ p b, h' !! p = Some (DsaString b) → h !! p = Some (DsaString b)) ∧
  (no_uninit h → no_uninit h').

Lemma grows_refl h : grows h h.
Proof. by split_and!. Qed.

(** Two entries with the same object are the same entry. *)
Lemma entry_inj m h refs k1 k2 e1 e2 :
  intern_inv m h refs → m !! k1 = Some e1 → m !! k2 = Some e2 → object e1 = object e2 → k1 = k2.
Proof.
  intros Hinv H1 H2 Heq.
  destruct (entry_object _ _ _ Hinv _ _ H1) as [_ (o1 & Ho1 & <- & _)].
  destruct (entry_object _ _ _ Hinv _ _ H2) as [_ (o2 & Ho2 & <- & _)].
  congruence.
Qed.

(** Fresh memory is not referenced. *)
Lemma fresh_not_ref m h refs p : intern_inv m h refs → h !! p = None → p ∉ refs.
Proof.
  intros Hinv Hp Hin. destruct (ref_entry _ _ _ Hinv _ Hin) as (k & e & Hk & <-).
  destruct (entry_object _ _ _ Hinv _ _ Hk) as [_ (o & Ho & _)]. congruence.
Qed.

Lemma count_eqb_not_in p (l : list Z) : p ∉ l → count (Z.eqb p) l = 0%nat.
Proof. intros Hp. apply count_zero. intros x Hx. apply Z.eqb_neq. by intros ->. Qed.

Lemma count_eqb_le (p : Z) l : (count (Z.eqb p) l ≤ length l)%nat.
Proof. unfold count. apply length_filter. Qed.

(** ** The invariants only see the references as a bag *)

Lemma count_perm (P : Z → bool) l1 l2 : l1 ≡ₚ l2 → count P l1 = count P l2.
Proof. intros Hp. unfold count. by rewrite Hp. Qed.

#[export] Instance intern_inv_proper :
  Proper ((=) ==> (=) ==> (≡ₚ) ==> impl) intern_inv.
Proof.
  intros m ? <- h ? <- r1 r2 Hp [H1 H2 H3 H4]. constructor; try done.
  - intros k e Hk. rewrite <- (count_perm _ _ _ Hp). by eapply H2.
  - intros p Hin. apply H3. by rewrite Hp.
Qed.

#[export] Instance strings_inv_proper : Proper ((=) ==> (≡ₚ) ==> impl) strings_inv.
Proof.
  intros h ? <- r1 r2 Hp [H1 H2]. constructor; [by rewrite <- Hp|].
  intros p Hin. apply H2. by rewrite Hp.
Qed.

(** Nothing allocated, nothing outstanding. *)
Lemma strings_inv_empty : strings_inv ∅ [].
Proof. constructor; [constructor|]. by intros p ?%elem_of_nil. Qed.

Lemma intern_inv_empty : intern_inv ∅ ∅ [].
Proof. constructor; try by intros; simplify_map_eq. by intros p ?%elem_of_nil. Qed.

(** ** Transitions of the interner *)

(** A further reference to an existing entry. *)
Lemma intern_inv_hit m h refs k e :
  intern_inv m h refs → m !! k = Some e →
  intern_inv (<[k := e <| refcount := refcount e + 1 |>]> m) h (object e :: refs).
Proof.
  intros Hinv Hk. pose proof Hinv as [H1 H2 H3 H4]. constructor.
  - intros k' e'. rewrite lookup_insert. case_decide as Heq; [|apply H1].
    subst k'. intros [= <-]. simpl. by eapply H1.
  - intros k' e'. rewrite lookup_insert, count_cons. case_decide as Heq.
    + subst k'. intros [= <-]. simpl. destruct (H2 _ _ Hk). rewrite Z.eqb_refl. lia.
    + intros Hk'. rewrite (proj2 (Z.eqb_neq _ _)); [by eapply H2|].
      intros Ho. by eapply Heq, entry_inj.
  - intros p [->|Hin]%elem_of_cons.
    + exists k, (e <| refcount := refcount e + 1 |>). by rewrite lookup_insert_eq.
    + destruct (H3 _ Hin) as (k' & e' & Hk' & <-). destruct (decide (k = k')) as [->|Hne].
      * exists k', (e <| refcount := refcount e + 1 |>).
        rewrite lookup_insert_eq. split; [done|]. simpl. congruence.
      * exists k', e'. by rewrite lookup_insert_ne.
  - intros p o Hp. destruct (H4 _ _ Hp) as (e' & He' & <-).
    rewrite lookup_insert. case_decide as Heq; [|by exists e'].
    subst k. exists (e <| refcount := refcount e + 1 |>). split; [done|]. simpl. congruence.
Qed.

(** A new entry for a fresh object, with one reference. *)
Lemma intern_inv_new m h refs k o p :
  intern_inv m h refs → m !! k = None → h !! p = None → p ≠ InvalidDsaPointer → object_wf k o →
  intern_inv (<[k := {| object := p; refcount := 1 |}]> m) (<[p := DsaObject o]> h) (p :: refs).
Proof.
  intros Hinv Hk Hp Hne Hwf. pose proof Hinv as [H1 H2 H3 H4]. constructor.
  - intros k' e'. rewrite lookup_insert. case_decide as Heq.
    + subst k'. intros [= <-]. simpl. split; [done|]. exists o. by rewrite lookup_insert_eq.
    + intros Hk'. destruct (H1 _ _ Hk') as [? (o' & Ho' & ?)]. split; [done|]. exists o'.
      rewrite lookup_insert_ne by congruence. done.
  - intros k' e'. rewrite lookup_insert, count_cons. case_decide as Heq.
    + intros [= <-]. simpl. rewrite Z.eqb_refl, count_eqb_not_in by by eapply fresh_not_ref. lia.
    + intros Hk'. destruct (H1 _ _ Hk') as [? (o' & Ho' & ?)].
      rewrite (proj2 (Z.eqb_neq _ _)) by congruence. by eapply H2.
  - intros q [->|Hin]%elem_of_cons.
    + eexists k, _. by rewrite lookup_insert_eq.
    + destruct (H3 _ Hin) as (k' & e' & Hk' & <-). exists k', e'.
      by rewrite lookup_insert_ne by congruence.
  - intros q o'. rewrite (lookup_insert h). case_decide as Heq.
    + subst q. intros [= <-]. destruct Hwf as [-> _]. eexists. by rewrite lookup_insert_eq.
    + intros Hq. destruct (H4 _ _ Hq) as (e' & He' & <-). exists e'.
      by rewrite lookup_insert_ne by congruence.
Qed.

(** One reference less, others left. *)
Lemma intern_inv_decr m h refs k e :
  intern_inv m h (object e :: refs) → m !! k = Some e → refcount e ≠ 1 →
  intern_inv (<[k := e <| refcount := refcount e - 1 |>]> m) h refs.
Proof.
  intros Hinv Hk Hrc. pose proof Hinv as [H1 H2 H3 H4]. constructor.
  - intros k' e'. rewrite lookup_insert. case_decide as Heq; [|apply H1].
    subst k'. intros [= <-]. simpl. by eapply H1.
  - intros k' e'. rewrite lookup_insert. case_decide as Heq.
    + subst k'. intros [= <-]. simpl. destruct (H2 _ _ Hk) as [Hc ?].
      rewrite count_cons, Z.eqb_refl in Hc. lia.
    + intros Hk'. destruct (H2 _ _ Hk') as [Hc ?]. rewrite count_cons in Hc.
      rewrite (proj2 (Z.eqb_neq _ _)) in Hc; [done|].
      intros Ho. by eapply Heq, entry_inj.
  - intros p Hin. destruct (H3 p) as (k' & e' & Hk' & <-); [apply elem_of_cons; by right|].
    destruct (decide (k = k')) as [->|Hne].
    + eexists k', _. rewrite lookup_insert_eq. split; [done|]. simpl. congruence.
    + exists k', e'. by rewrite lookup_insert_ne.
  - intros p o Hp. destruct (H4 _ _ Hp) as (e' & He' & <-).
    rewrite lookup_insert. case_decide as Heq; [|by exists e'].
    subst k. eexists. split; [done|]. simpl. congruence.
Qed.

(** The last reference goes: entry and object go with it. *)
Lemma intern_inv_last m h refs k e :
  intern_inv m h (object e :: refs) → m !! k = Some e → refcount e = 1 →
  intern_inv (delete k m) (delete (object e) h) refs.
Proof.
  intros Hinv Hk Hrc. pose proof Hinv as [H1 H2 H3 H4].
  assert (object e ∉ refs) as Hnin.
  { destruct (H2 _ _ Hk) as [Hc _]. rewrite count_cons, Z.eqb_refl, Hrc in Hc.
    intros Hin. pose proof (count_pos (Z.eqb (object e)) refs _ Hin (Z.eqb_refl _)). lia. }
  assert (∀ k' e', m !! k' = Some e' → k ≠ k' → object e ≠ object e') as Hdiff.
  { intros k' e' Hk' Hne Ho. by eapply Hne, entry_inj. }
  constructor.
  - intros k' e' [Hne Hk']%lookup_delete_Some. destruct (H1 _ _ Hk') as [? (o & ? & ?)].
    split; [done|]. exists o. rewrite lookup_delete_ne; eauto.
  - intros k' e' [Hne Hk']%lookup_delete_Some. destruct (H2 _ _ Hk') as [Hc ?].
    rewrite count_cons, (proj2 (Z.eqb_neq _ _)) in Hc; [done|]. symmetry. eauto.
  - intros p Hin. destruct (H3 p) as (k' & e' & Hk' & <-); [apply elem_of_cons; by right|].
    exists k', e'. rewrite lookup_delete_ne; [done|]. intros <-. congruence.
  - intros p o [Hne Hp]%lookup_delete_Some. destruct (H4 _ _ Hp) as (e' & He' & <-).
    exists e'. rewrite lookup_delete_ne; [done|]. intros Heq. apply Hne.
    rewrite <- Heq in He'. congruence.
Qed.

(** Strings come and go without touching the interner. *)
Lemma intern_inv_string_new m h refs p b :
  intern_inv m h refs → h !! p = None → intern_inv m (<[p := DsaString b]> h) refs.
Proof.
  intros [H1 H2 H3 H4] Hp. constructor; try done.
  - intros k e Hk. destruct (H1 _ _ Hk) as [? (o & Ho & ?)]. split; [done|]. exists o.
    by rewrite lookup_insert_ne by congruence.
  - intros q o. rewrite lookup_insert. case_decide; [done|apply H4].
Qed.

Lemma intern_inv_string_free m h refs p b :
  intern_inv m h refs → h !! p = Some (DsaString b) → intern_inv m (delete p h) refs.
Proof.
  intros [H1 H2 H3 H4] Hp. constructor; try done.
  - intros k e Hk. destruct (H1 _ _ Hk) as [? (o & Ho & ?)]. split; [done|]. exists o.
    by rewrite lookup_delete_ne by congruence.
  - intros q o [_ Hq]%lookup_delete_Some. by apply H4.
Qed.

(** The table never holds more entries than there are references. *)
Lemma intern_inv_size m h refs : intern_inv m h refs → (size m ≤ length refs)%nat.
Proof.
  intros Hinv.
  rewrite <- length_map_to_list, <- (length_fmap (λ ke, object ke.2) (map_to_list m)).
  apply submseteq_length, NoDup_submseteq.
  - apply NoDup_fmap_2_strong; [|apply NoDup_map_to_list].
    intros [k1 e1] [k2 e2] H1%elem_of_map_to_list H2%elem_of_map_to_list Heq.
    assert (k1 = k2) as -> by by eapply entry_inj. congruence.
  - intros p ([k e] & -> & Hk%elem_of_map_to_list)%list_elem_of_fmap.
    destruct (entry_refcount _ _ _ Hinv _ _ Hk) as [Hc Hpos].
    destruct (decide (object e ∈ refs)) as [|Hn]; [done|].
    rewrite count_eqb_not_in in Hc by done. simpl in *. lia.
Qed.

(** ** Operations *)

Section ops.
Context {E : Env} {L : EnvLaws E}.

Lemma keeps_oom s st : psch_shared_state s = Some st →
  keeps s (s <| psch_shared_state := Some (incr_dsa_oom st) |>).
Proof.
  intros Hst. constructor; try done.
  - intros st' Hst'. simplify_eq. by eexists.
  - intros [?|(st' & Hst' & Hr)]; [by left|]. right. simpl. eexists. split; [done|].
    simplify_eq. done.
Qed.

(** A string is stored whole, or not at all. *)
Lemma wp_alloc_string src len max_len (Q : Z → Sys → Prop) R s st :
  psch_shared_state s = Some st → area_available s →
  (∀ s', keeps s s' → heap s' = heap s → htab s' = htab s → Q InvalidDsaPointer s') →
  (∀ p s', len ≠ 0 → keeps s s' → htab s' = htab s → p ≠ InvalidDsaPointer → heap s !! p = None →
    heap s' = <[p := DsaString (take (Z.to_nat (Z.min len (u16 (max_len - 1)))) src ++ [0])]> (heap s) →
    Q p s') →
  (∀ s', alloc_raises E → keeps s s' → heap s' = heap s → htab s' = htab s → R s') →
  wp (PschDsaAllocString src len max_len) Q R s.
Proof.
  intros Hst Ha Hinv Hok Herr. unfold PschDsaAllocString.
  destruct (Z.eqb_spec len 0); [wp_step; by apply Hinv|].
  wp_step. apply wp_get_area_available; [done|]. intros s1 Hk1 Hh1 Ht1 Ha1. simpl.
  destruct (keeps_st _ _ Hk1 _ Hst) as [n1 Hst1].
  wp_step. apply wp_alloc; rewrite Hh1; [intros p Hp|intros Hp..].
  - destruct (dsa_pick_fresh _ _ _ Hp) as [Hne Hfresh].
    rewrite (proj2 (DsaPointerIsValid_spec p)) by done. unfold dsa_store. wp_run.
    apply Hok; try done; [|simpl; by rewrite Hh1, insert_insert_eq].
    etrans; [exact Hk1|]. etrans; apply keeps_heap.
  - rewrite DsaPointerIsValid_Invalid. wp_step. eapply wp_wr; [done|]. wp_step.
    apply Hinv; try done. etrans; [exact Hk1|]. by apply keeps_oom.
  - apply Herr; try done. by do 2 eexists.
Qed.

(** Resolving a live string copies it out and frees it. *)
Lemma wp_resolve_string dp src_len dst max_len b (Q : bytes * Z → Sys → Prop) R s :
  dp ≠ InvalidDsaPointer → heap s !! dp = Some (DsaString b) → area_available s →
  (∀ s', keeps s s' → htab s' = htab s → heap s' = delete dp (heap s) →
    let n := Z.min src_len (u16 (max_len - 1)) in
    Q (blit (Z.to_nat n) [0] (blit 0 (take (Z.to_nat n) b) dst), n) s') →
  wp (PschDsaResolveString dp src_len dst max_len) Q R s.
Proof.
  intros Hdp Hb Ha HQ. unfold PschDsaResolveString.
  rewrite (proj2 (DsaPointerIsValid_spec dp)) by done.
  wp_step. apply wp_get_area_available; [done|]. intros s1 Hk1 Hh1 Ht1 Ha1. simpl.
  unfold dsa_free. wp_run. unfold string_at. rewrite Hh1, Hb.
  apply HQ; simpl; [|done|by rewrite Hh1]. etrans; [exact Hk1|]. apply keeps_heap.
Qed.

Lemma wp_resolve_string_invalid src_len dst max_len (Q : bytes * Z → Sys → Prop) R s :
  Q (blit 0 [0] dst, 0) s → wp (PschDsaResolveString InvalidDsaPointer src_len dst max_len) Q R s.
Proof. intros HQ. unfold PschDsaResolveString. by rewrite DsaPointerIsValid_Invalid. Qed.

Lemma object_at_Some h p o : object_at h p = Some o ↔ h !! p = Some (DsaObject o).
Proof. unfold object_at. destruct (h !! p) as [[]|]; naive_solver. Qed.

(** A hit is on an object that holds exactly the requested text. *)
Lemma ObjectMatches_text h dp query len :
  ObjectMatches h dp query len = true → text_at h dp = take (Z.to_nat len) query.
Proof.
  unfold ObjectMatches, text_at. destruct (object_at h dp) as [o|]; [|done].
  destruct (negb _); [done|].
  destruct (Z.eqb_spec (k_query_len (o_key o)) len) as [->|]; [|done].
  by intros ?%bool_decide_eq_true_1.
Qed.

Lemma u32_refcount m h refs k e :
  intern_inv m h refs → m !! k = Some e → Z.of_nat (length refs) + 1 < 2 ^ 32 →
  u32 (refcount e + 1) = refcount e + 1.
Proof.
  intros Hinv Hk Hlen. destruct (entry_refcount _ _ _ Hinv _ _ Hk) as [Hc ?].
  pose proof (count_eqb_le (object e) refs). apply Z.mod_small. lia.
Qed.

Lemma fresh_object_wf dbid queryid query len :
  0 < len < 2 ^ 16 → (Z.to_nat len ≤ length query)%nat →
  let k := MakeKey dbid queryid query len in
  object_wf k {| o_key := CopyKeyFields k; magic := PSCH_QUERY_INTERN_MAGIC;
                 o_query := take (Z.to_nat len) query ++ [0] |}.
Proof.
  intros Hl Hq k. split_and!; try done; simpl; try lia.
  rewrite length_app, length_take. simpl. lia.
Qed.

Lemma grows_insert h p o : h !! p = None → grows h (<[p := DsaObject o]> h).
Proof.
  intros Hp. split_and!.
  - by apply insert_subseteq.
  - intros q b. rewrite lookup_insert. by case_decide.
  - intros Hu q n. rewrite lookup_insert. case_decide; [done|apply Hu].
Qed.

Lemma wp_acquire dbid queryid query len refs m (Q : Z → Sys → Prop) R s st :
  psch_shared_state s = Some st → area_available s → htab s = Some m →
  intern_inv m (heap s) refs → 0 ≤ len < 2 ^ 16 → (Z.to_nat len ≤ length query)%nat →
  Z.of_nat (length refs) + 1 < 2 ^ 32 →
  (∀ s', keeps s s' → htab s' = Some m → heap s' = heap s → Q InvalidDsaPointer s') →
  (∀ p s' m', len ≠ 0 → p ≠ InvalidDsaPointer → keeps s s' → htab s' = Some m' →
    intern_inv m' (heap s') (p :: refs) → grows (heap s) (heap s') →
    text_at (heap s') p = take (Z.to_nat len) query → Q p s') →
  (∀ s', alloc_raises E → keeps s s' → htab s' = Some m → heap s' = heap s → R s') →
  wp (PschQueryInternAcquire dbid queryid query len) Q R s.
Proof.
  intros Hst Ha Hm Hinv Hlen Hq Hrefs Hnone Hsome Herr. unfold PschQueryInternAcquire.
  do 2 wp_step. rewrite Hm, orb_false_r.
  destruct (Z.eqb_spec len 0); [wp_step; by apply Hnone|].
  wp_step. apply wp_get_area_available; [done|]. intros s1 Hk1 Hh1 Ht1 Ha1. simpl.
  destruct (keeps_st _ _ Hk1 _ Hst) as [n1 Hst1].
  set (k := MakeKey dbid queryid query len).
  unfold AcquireLookup, get_htab, put_htab. wp_run. rewrite Ht1, Hm, Hh1. simpl.
  destruct (m !! k) as [e|] eqn:Hk.
  { destruct (ObjectMatches (heap s) (object e) query len) eqn:Hmatch; wp_run.
    - eapply Hsome; [done| | |reflexivity|simpl; rewrite Hh1| |simpl; rewrite Hh1].
      + by apply (entry_object _ _ _ Hinv k).
      + etrans; [exact Hk1|]. apply keeps_htab.
      + unfold set_field. rewrite (u32_refcount m (heap s) refs k) by done.
        by apply (intern_inv_hit m (heap s) refs k e).
      + simpl. rewrite Hh1. apply grows_refl.
      + by apply ObjectMatches_text.
    - apply Hnone; [done|congruence|done]. }
  wp_run. unfold AllocInternObject. wp_step. apply wp_alloc; rewrite Hh1; [intros p Hp|intros Hp..].
  - destruct (dsa_pick_fresh _ _ _ Hp) as [Hne Hfresh].
    rewrite (proj2 (DsaPointerIsValid_spec p)) by done. unfold dsa_store. simpl. wp_run.
    rewrite (proj2 (DsaPointerIsValid_spec p)) by done. simpl.
    unfold AcquireInsert, get_htab, put_htab, dsa_free. wp_run. simpl. rewrite Ht1, Hm. simpl.
    rewrite Hk. destruct (hash_has_room m k); wp_run.
    + eapply Hsome; [done|done| |reflexivity|simpl..]; rewrite ?Hh1, ?insert_insert_eq.
      * etrans; [exact Hk1|]. etrans; [apply keeps_heap|]. etrans; [apply keeps_heap|].
        apply keeps_htab.
      * apply intern_inv_new; try done. apply fresh_object_wf; [lia|done].
      * by apply grows_insert.
      * unfold text_at, object_at. rewrite lookup_insert_eq. simpl.
        rewrite take_app_le by (rewrite length_take; lia). rewrite take_take. f_equal. lia.
    + apply Hnone; simpl; [| congruence |by rewrite Hh1, insert_insert_eq, delete_insert_id].
      etrans; [exact Hk1|]. do 2 (etrans; [apply keeps_heap|]). apply keeps_heap.
  - rewrite DsaPointerIsValid_Invalid. simpl. wp_step. eapply wp_wr; [done|]. wp_run.
    rewrite DsaPointerIsValid_Invalid. simpl. wp_run.
    apply Hnone; simpl; [|congruence|congruence]. etrans; [exact Hk1|]. by apply keeps_oom.
  - apply Herr; [by do 2 eexists|done|congruence|done].
Qed.

(** Releasing one of the outstanding references; the object goes with the last
    of them. *)
Lemma wp_release ref refs m (Q : unit → Sys → Prop) R s :
  ref ≠ InvalidDsaPointer → area_available s → htab s = Some m →
  intern_inv m (heap s) (ref :: refs) → Z.of_nat (length refs) + 1 < 2 ^ 32 →
  (∀ s' m', keeps s s' → htab s' = Some m' → intern_inv m' (heap s') refs →
    (heap s' = heap s ∨ heap s' = delete ref (heap s) ∧ ref ∉ refs) → Q tt s') →
  wp (ReleaseRef ref) Q R s.
Proof.
  intros Hne Ha Hm Hinv Hlen HQ. unfold ReleaseRef.
  destruct (ref_entry _ _ _ Hinv ref) as (k & e & Hk & <-); [apply elem_of_cons; by left|].
  destruct (entry_object _ _ _ Hinv _ _ Hk) as [_ (o & Ho & Hwf)].
  destruct (entry_refcount _ _ _ Hinv _ _ Hk) as [Hc Hpos].
  do 2 wp_step. rewrite Hm, (proj2 (DsaPointerIsValid_spec (object e))) by done. simpl.
  wp_step. apply wp_get_area_available; [done|]. intros s1 Hk1 Hh1 Ht1 Ha1. simpl.
  wp_run. rewrite Hh1, (proj2 (object_at_Some _ _ _) Ho).
  destruct Hwf as (Hkey & Hmagic & _ & _). rewrite Hmagic, Z.eqb_refl. simpl.
  assert (CopyKeyFields (o_key o) = k) as -> by (rewrite Hkey; by destruct k).
  unfold ReleaseEntry, get_htab, put_htab, dsa_free. wp_run. rewrite Ht1, Hm. simpl.
  rewrite Hk, Z.eqb_refl.
  assert (u32 (refcount e - 1) = refcount e - 1) as ->.
  { pose proof (count_eqb_le (object e) (object e :: refs)). simpl in *.
    apply Z.mod_small. lia. }
  rewrite count_cons, Z.eqb_refl in Hc.
  destruct (Z.eqb_spec (refcount e - 1) 0) as [H0|H0]; wp_run.
  - rewrite (proj2 (DsaPointerIsValid_spec (object e))) by done. wp_run.
    eapply HQ; [|reflexivity| |right]; simpl; rewrite ?Hh1.
    + etrans; [exact Hk1|]. etrans; [apply keeps_htab|]. apply keeps_heap.
    + apply (intern_inv_last m (heap s)); [done..|lia].
    + split; [done|]. intros Hin.
      pose proof (count_pos (Z.eqb (object e)) refs _ Hin (Z.eqb_refl _)). lia.
  - rewrite DsaPointerIsValid_Invalid. wp_run.
    eapply HQ; [|reflexivity| |left]; simpl; rewrite ?Hh1; [|by apply intern_inv_decr; [..|lia]|done].
    etrans; [exact Hk1|]. apply keeps_htab.
Qed.

Lemma wp_release_invalid (Q : unit → Sys → Prop) R s :
  Q tt s → wp (ReleaseRef InvalidDsaPointer) Q R s.
Proof. intros HQ. unfold ReleaseRef. do 2 wp_step. rewrite DsaPointerIsValid_Invalid. simpl. by wp_step. Qed.

(** How many bytes of a text of [len] bytes fit a buffer of [size]. *)
Definition fit_len (len size : Z) : Z := if size <=? len then size - 1 else len.

(** Resolving a reference copies its text and drops it. *)
Lemma wp_resolve_release ref dst size n0 refs m (Q : option bytes * option Z → Sys → Prop) R s :
  ref ≠ InvalidDsaPointer → area_available s → htab s = Some m → 0 < size ≤ 2 ^ 16 →
  intern_inv m (heap s) (ref :: refs) → Z.of_nat (length refs) + 1 < 2 ^ 32 →
  (∀ s' m', keeps s s' → htab s' = Some m' → intern_inv m' (heap s') refs →
    (heap s' = heap s ∨ heap s' = delete ref (heap s) ∧ ref ∉ refs) →
    let n := fit_len (Z.of_nat (length (text_at (heap s) ref))) size in
    Q (Some (blit (Z.to_nat n) [0] (blit 0 (take (Z.to_nat n) (text_at (heap s) ref))
               (blit 0 [0] dst))), Some n) s') →
  wp (PschQueryInternResolveAndRelease ref (Some dst) size (Some n0)) Q R s.
Proof.
  intros Hne Ha Hm Hsize Hinv Hlen HQ. unfold PschQueryInternResolveAndRelease.
  rewrite (proj2 (Z.ltb_lt 0 size)) by lia. wp_step.
  destruct (ref_entry _ _ _ Hinv ref) as (k & e & Hk & He); [apply elem_of_cons; by left|].
  destruct (entry_object _ _ _ Hinv _ _ Hk) as [_ (o & Ho & Hkey & Hmagic & Hrange & Hlength)].
  rewrite He in Ho. pose proof (proj2 (object_at_Some _ _ _) Ho) as Hobj.
  unfold ResolveInto. rewrite (proj2 (DsaPointerIsValid_spec ref)) by done.
  rewrite (proj2 (Z.eqb_neq size 0)) by lia. simpl.
  wp_step. apply wp_get_area_available; [done|]. intros s1 Hk1 Hh1 Ht1 Ha1. simpl.
  wp_run. rewrite Hh1, Hobj, Hmagic, Z.eqb_refl. simpl. wp_run.
  eapply (wp_release ref refs m); [done|done|congruence|by rewrite Hh1|done|].
  intros s2 m2 Hk2 Hm2 Hinv2 Hheap2. wp_step.
  assert (length (text_at (heap s) ref) = Z.to_nat (k_query_len k)) as Htl.
  { unfold text_at. rewrite Hobj, length_take, Hkey. lia. }
  rewrite Hh1 in Hheap2. specialize (HQ s2 m2). rewrite Htl in HQ.
  unfold fit_len in HQ. rewrite Z2Nat.id in HQ by lia. rewrite Hkey.
  assert (u16 (size - 1) = size - 1) as -> by (apply u16_small; unfold is_u16; lia).
  assert (∀ n, n ≤ k_query_len k →
    take (Z.to_nat n) (text_at (heap s) ref) = take (Z.to_nat n) (o_query o)) as Htake.
  { intros n Hn. unfold text_at. rewrite Hobj, take_take, Hkey. f_equal. lia. }
  rewrite Htake in HQ by (destruct (Z.leb_spec size (k_query_len k)); lia).
  apply HQ; [by etrans|done..].
Qed.

Lemma wp_resolve_release_invalid dst size n0 (Q : option bytes * option Z → Sys → Prop) R s :
  0 < size → Q (Some (blit 0 [0] dst), Some 0) s →
  wp (PschQueryInternResolveAndRelease InvalidDsaPointer (Some dst) size (Some n0)) Q R s.
Proof.
  intros Hsize HQ. unfold PschQueryInternResolveAndRelease, ResolveInto.
  rewrite (proj2 (Z.ltb_lt 0 size)) by lia. rewrite DsaPointerIsValid_Invalid. simpl.
  do 2 wp_step. wp_step. apply wp_release_invalid. by wp_step.
Qed.

End ops.

End InternInv.
