(* ===== verification/RingInv.v ===== *)
(** Correctness of the ring buffer: the invariant, and refinement of a bounded
    FIFO queue of delivered events.

    The abstract state of the queue is [abs]: the events waiting in the ring, as
    the consumer will see them. Enqueue appends, or drops and counts; dequeue
    takes the first. *)

From S2P Require Import Prelude Event Shared Dsa Intern Ring InternInv.
Import Event Shared Dsa Intern Ring InternInv.

Module RingInv.

(** ** The waiting slots *)

(** Number of waiting events, in the code's own 64-bit arithmetic. *)
Definition qsize (st : PschSharedState) : Z := u64 (q_head st - q_tail st).

Definition live_slot (st : PschSharedState) (rg : list PschRingEntry) (i : nat) : PschRingEntry :=
  rg !!! slot_index (capacity st) (u64 (q_tail st + Z.of_nat i)).
Definition live (st : PschSharedState) (rg : list PschRingEntry) : list PschRingEntry :=
  live_slot st rg <$> seq 0 (Z.to_nat (qsize st)).

Definition valid_ptrs (l : list Z) : list Z := filter (λ p, p ≠ InvalidDsaPointer) l.
Definition err_refs (l : list PschRingEntry) : list Z := valid_ptrs (err_message_dsa <$> l).
Definition query_refs (l : list PschRingEntry) : list Z := valid_ptrs (query_dsa <$> l).

(** ** What the consumer sees *)

Record Delivered := { d_fixed : PschFixed; d_err : bytes; d_query : bytes }.

Definition view (ev : PschEvent) : Delivered :=
  {| d_fixed := ev_fixed ev;
     d_err := take (Z.to_nat (err_message_len (ev_fixed ev))) (err_message ev);
     d_query := take (Z.to_nat (query_len (ev_fixed ev))) (query ev) |}.

(** Length of a text cut to fit a buffer of [max] bytes with its NUL. *)
Definition cut (len max : Z) : Z := Z.min len (max - 1).

Definition abs_slot (h : gmap Z DsaBlock) (e : PschRingEntry) : Delivered :=
  let n := cut (err_message_len (re_fixed e)) PSCH_MAX_ERR_MSG_LEN in
  {| d_fixed := (re_fixed e) <| err_message_len := n |>;
     d_err := take (Z.to_nat n) (string_at h (err_message_dsa e));
     d_query := text_at h (query_dsa e) |}.

Definition abs (s : Sys) : list Delivered :=
  match psch_shared_state s with
  | Some st => abs_slot (heap s) <$> live st (ring s)
  | None => []
  end.

(** A text is stored cut to its buffer, or lost whole with length 0. *)
Inductive text_stored (len max : Z) (buf : bytes) : Z → bytes → Prop :=
  | text_kept : text_stored len max buf (cut len max) (take (Z.to_nat (cut len max)) buf)
  | text_lost : text_stored len max buf 0 [].

(** The event [ev] is delivered as [d]: all numbers, names and client data
    intact, each text kept or lost on its own. *)
Definition stored (ev : PschEvent) (d : Delivered) : Prop :=
  ∃ en et qn qt,
    text_stored (err_message_len (ev_fixed ev)) PSCH_MAX_ERR_MSG_LEN (err_message ev) en et ∧
    text_stored (query_len (ev_fixed ev)) PSCH_MAX_QUERY_LEN (query ev) qn qt ∧
    d = {| d_fixed := (ev_fixed ev) <| err_message_len := en |> <| query_len := qn |>;
           d_err := et; d_query := qt |}.

(** ** Invariant *)

(** A published slot: each text pointer and its length agree. *)
Record slot_wf (h : gmap Z DsaBlock) (e : PschRingEntry) : Prop := {
  slot_err_len : 0 ≤ err_message_len (re_fixed e);
  slot_no_err : err_message_dsa e = InvalidDsaPointer → err_message_len (re_fixed e) = 0;
  slot_err : err_message_dsa e ≠ InvalidDsaPointer →
    (Z.to_nat (cut (err_message_len (re_fixed e)) PSCH_MAX_ERR_MSG_LEN) ≤
     length (string_at h (err_message_dsa e)))%nat;
  slot_query : query_len (re_fixed e) = Z.of_nat (length (text_at h (query_dsa e)));
  slot_query_max : query_len (re_fixed e) < PSCH_MAX_QUERY_LEN }.

Record ring_inv (s : Sys) (st : PschSharedState)
    (m : gmap PschQueryInternKey PschQueryInternEntry) : Prop := {
  inv_st : psch_shared_state s = Some st;
  inv_htab : htab s = Some m;
  inv_area : raw_dsa_area st ≠ None;
  inv_cap : ∃ k, 0 ≤ k ≤ 31 ∧ capacity st = 2 ^ k;
  inv_ring : Z.of_nat (length (ring s)) = capacity st;
  inv_head : is_u64 (q_head st);
  inv_tail : is_u64 (q_tail st);
  inv_size : qsize st ≤ capacity st;
  inv_slots : Forall (slot_wf (heap s)) (live st (ring s));
  inv_strings : strings_inv (heap s) (err_refs (live st (ring s)));
  inv_intern : intern_inv m (heap s) (query_refs (live st (ring s)));
  inv_uninit : no_uninit (heap s) }.

(** No string outlives the slot that refers to it. *)
Definition leak_free (s : Sys) (st : PschSharedState) : Prop :=
  no_string_leak (heap s) (err_refs (live st (ring s))).

(** ** Positions *)

Lemma slot_index_mod k pos : 0 ≤ k ≤ 31 → slot_index (2 ^ k) pos = Z.to_nat (pos mod 2 ^ k).
Proof.
  intros Hk. unfold slot_index, u32. f_equal.
  assert (2 ^ k ≤ 2 ^ 31) by (apply Z.pow_le_mono_r; lia). pose proof (pow2_pos k).
  rewrite Z.mod_small by lia. apply land_mask. lia.
Qed.

Lemma slot_index_u64 k z : 0 ≤ k ≤ 31 → slot_index (2 ^ k) (u64 z) = slot_index (2 ^ k) z.
Proof. intros. rewrite !slot_index_mod by done. by rewrite u64_mod_pow2 by lia. Qed.

Lemma slot_index_lt k pos : 0 ≤ k ≤ 31 → (slot_index (2 ^ k) pos < Z.to_nat (2 ^ k))%nat.
Proof.
  intros. rewrite slot_index_mod by done.
  pose proof (Z.mod_pos_bound pos (2 ^ k)). pose proof (pow2_pos k). lia.
Qed.

(** Positions less than a lap apart have different slots. *)
Lemma slot_index_inj k a i j :
  0 ≤ k ≤ 31 → 0 ≤ i < 2 ^ k → 0 ≤ j < 2 ^ k →
  slot_index (2 ^ k) (a + i) = slot_index (2 ^ k) (a + j) → i = j.
Proof.
  intros Hk Hi Hj. rewrite !slot_index_mod by done. intros Heq.
  pose proof (Z.mod_pos_bound (a + i) (2 ^ k)). pose proof (Z.mod_pos_bound (a + j) (2 ^ k)).
  assert ((a + i) mod 2 ^ k = (a + j) mod 2 ^ k) as Hmod by lia.
  assert ((i - j) mod 2 ^ k = 0) as Hz.
  { replace (i - j) with ((a + i) - (a + j)) by lia.
    rewrite Zminus_mod, Hmod, Z.sub_diag. by apply Z.mod_0_l; lia. }
  apply Z.mod_divide in Hz; [|lia]. destruct Hz as [q Hq].
  assert (q = 0) by nia. lia.
Qed.

Lemma qsize_nonneg st : 0 ≤ qsize st.
Proof. unfold qsize. pose proof (u64_range (q_head st - q_tail st)). unfold is_u64 in *. lia. Qed.

(** The producer's slot is the one after the last waiting event. *)
Lemma head_slot st k :
  0 ≤ k ≤ 31 → capacity st = 2 ^ k →
  slot_index (capacity st) (q_head st) = slot_index (capacity st) (u64 (q_tail st + qsize st)).
Proof.
  intros Hk ->. unfold qsize. rewrite slot_index_u64 by done. unfold u64.
  rewrite !slot_index_mod by done. f_equal.
  rewrite <- (u64_mod_pow2 (q_tail st + _) k) by lia. unfold u64.
  rewrite Zplus_mod_idemp_r. replace (q_tail st + (q_head st - q_tail st)) with (q_head st) by lia.
  symmetry. by apply u64_mod_pow2; lia.
Qed.

Lemma length_live st rg : length (live st rg) = Z.to_nat (qsize st).
Proof. unfold live. by rewrite length_fmap, length_seq. Qed.

(** Writing the producer's slot disturbs no waiting event. *)
Lemma live_write st rg f k :
  0 ≤ k ≤ 31 → capacity st = 2 ^ k → qsize st < capacity st →
  live st (alter f (slot_index (capacity st) (q_head st)) rg) = live st rg.
Proof.
  intros Hk Hc Hq. apply list_fmap_ext. intros n i [-> Hi]%lookup_seq.
  unfold live_slot. apply list_lookup_total_alter_ne.
  rewrite (head_slot st k) by done. rewrite Hc in *. rewrite !slot_index_u64 by done.
  intros Heq%slot_index_inj; [|done|split; [apply qsize_nonneg|done]|].
  - pose proof (qsize_nonneg st). lia.
  - pose proof (qsize_nonneg st). lia.
Qed.

(** Publishing the head makes that slot the last waiting event. *)
Lemma live_publish st rg k :
  0 ≤ k ≤ 31 → capacity st = 2 ^ k → qsize st < capacity st → is_u64 (q_head st) →
  live (st <| q_head := u64 (q_head st + 1) |>) rg =
  live st rg ++ [rg !!! slot_index (capacity st) (q_head st)].
Proof.
  intros Hk Hc Hq Hh. pose proof (qsize_nonneg st) as Hn.
  assert (2 ^ k ≤ 2 ^ 31) by (apply Z.pow_le_mono_r; lia).
  assert (qsize (st <| q_head := u64 (q_head st + 1) |>) = qsize st + 1) as Hs.
  { unfold qsize in *. simpl. unfold u64 in *.
    rewrite Zminus_mod_idemp_l.
    replace (q_head st + 1 - q_tail st) with (q_head st - q_tail st + 1) by lia.
    rewrite <- Zplus_mod_idemp_l. apply Z.mod_small. lia. }
  unfold live. rewrite Hs. replace (Z.to_nat (qsize st + 1)) with (Z.to_nat (qsize st) + 1)%nat by lia.
  rewrite seq_app, fmap_app. f_equal. simpl. f_equal. unfold live_slot. simpl.
  rewrite (head_slot st k) by done. by rewrite Z2Nat.id by done.
Qed.

(** Advancing the tail removes the first waiting event. *)
Lemma live_advance st rg k :
  0 ≤ k ≤ 31 → capacity st = 2 ^ k → 0 < qsize st → is_u64 (q_tail st) →
  live st rg = rg !!! slot_index (capacity st) (q_tail st) ::
               live (st <| q_tail := u64 (q_tail st + 1) |>) rg.
Proof.
  intros Hk Hc Hq Ht.
  assert (qsize (st <| q_tail := u64 (q_tail st + 1) |>) = qsize st - 1) as Hs.
  { unfold qsize in *. simpl. pose proof (u64_range (q_head st - q_tail st)) as Hr.
    unfold is_u64, u64 in *. rewrite Zminus_mod_idemp_r.
    replace (q_head st - (q_tail st + 1)) with (q_head st - q_tail st - 1) by lia.
    rewrite <- Zminus_mod_idemp_l. apply Z.mod_small. lia. }
  unfold live. rewrite Hs.
  replace (Z.to_nat (qsize st)) with (S (Z.to_nat (qsize st - 1))) by lia.
  simpl. f_equal.
  - unfold live_slot. by rewrite Z.add_0_r, u64_small.
  - rewrite <- fmap_S_seq, <- list_fmap_compose. apply list_fmap_ext. intros n i _. simpl.
    unfold live_slot. simpl. rewrite Hc, !slot_index_u64 by done.
    rewrite <- (slot_index_u64 k (u64 (q_tail st + 1) + _)) by done.
    rewrite u64_add_u64_l, slot_index_u64 by done. f_equal. f_equal. lia.
Qed.

(** ** Framing a slot *)

(** The slot's texts read the same in both heaps. *)
Definition same_at (h h' : gmap Z DsaBlock) (e : PschRingEntry) : Prop :=
  (err_message_dsa e ≠ InvalidDsaPointer → h' !! err_message_dsa e = h !! err_message_dsa e) ∧
  text_at h' (query_dsa e) = text_at h (query_dsa e).

Lemma same_at_refl h e : same_at h h e.
Proof. done. Qed.

Lemma same_at_trans h1 h2 h3 e : same_at h1 h2 e → same_at h2 h3 e → same_at h1 h3 e.
Proof. intros [H1 H2] [H3 H4]. split; [|congruence]. intros. rewrite H3, H1; done. Qed.

Lemma string_at_same h h' e :
  same_at h h' e → err_message_dsa e ≠ InvalidDsaPointer →
  string_at h' (err_message_dsa e) = string_at h (err_message_dsa e).
Proof. intros [H _] Hne. unfold string_at. by rewrite H. Qed.

Lemma slot_wf_same h h' e : same_at h h' e → slot_wf h e → slot_wf h' e.
Proof.
  intros Hs [H1 H2 H3 H4 H5]. constructor; try done.
  - intros Hne. rewrite (string_at_same h) by done. by apply H3.
  - by rewrite (proj2 Hs).
Qed.

Lemma abs_slot_same h h' e : same_at h h' e → slot_wf h e → abs_slot h' e = abs_slot h e.
Proof.
  intros Hs Hwf. unfold abs_slot. rewrite (proj2 Hs).
  destruct (decide (err_message_dsa e = InvalidDsaPointer)) as [Heq|Hne].
  - by rewrite (slot_no_err _ _ Hwf Heq).
  - by rewrite (string_at_same h).
Qed.

Lemma abs_slots_same h h' l :
  Forall (same_at h h') l → Forall (slot_wf h) l → abs_slot h' <$> l = abs_slot h <$> l.
Proof.
  induction 1 as [|e l He Hl IH]; intros Hwf; [done|].
  apply Forall_cons in Hwf as [Hw Hwf]. rewrite !fmap_cons, IH by done. by rewrite (abs_slot_same h).
Qed.

Lemma slots_wf_same h h' l : Forall (same_at h h') l → Forall (slot_wf h) l → Forall (slot_wf h') l.
Proof.
  induction 1 as [|e l He Hl IH]; intros Hwf; [done|].
  apply Forall_cons in Hwf as [Hw Hwf]. constructor; [by eapply slot_wf_same|by apply IH].
Qed.

(** Pointers of slots in the lists of outstanding pointers. *)
Lemma valid_ptrs_cons p l :
  valid_ptrs (p :: l) = if decide (p = InvalidDsaPointer) then valid_ptrs l else p :: valid_ptrs l.
Proof. unfold valid_ptrs. rewrite filter_cons. do 2 case_decide; done. Qed.

Lemma err_refs_app l1 l2 : err_refs (l1 ++ l2) = err_refs l1 ++ err_refs l2.
Proof. unfold err_refs, valid_ptrs. by rewrite fmap_app, filter_app. Qed.

Lemma query_refs_app l1 l2 : query_refs (l1 ++ l2) = query_refs l1 ++ query_refs l2.
Proof. unfold query_refs, valid_ptrs. by rewrite fmap_app, filter_app. Qed.

Lemma elem_of_err_refs e l :
  e ∈ l → err_message_dsa e ≠ InvalidDsaPointer → err_message_dsa e ∈ err_refs l.
Proof.
  intros He Hne. unfold err_refs, valid_ptrs. apply list_elem_of_filter. split; [done|].
  by apply list_elem_of_fmap_2.
Qed.

Lemma elem_of_query_refs e l :
  e ∈ l → query_dsa e ≠ InvalidDsaPointer → query_dsa e ∈ query_refs l.
Proof.
  intros He Hne. unfold query_refs, valid_ptrs. apply list_elem_of_filter. split; [done|].
  by apply list_elem_of_fmap_2.
Qed.

Lemma length_query_refs l : (length (query_refs l) ≤ length l)%nat.
Proof.
  unfold query_refs, valid_ptrs. etrans; [apply length_filter|]. by rewrite length_fmap.
Qed.

Lemma text_at_invalid m h refs : intern_inv m h refs → text_at h InvalidDsaPointer = [].
Proof.
  intros Hinv. unfold text_at. destruct (object_at h InvalidDsaPointer) as [o|] eqn:Ho; [|done].
  apply object_at_Some in Ho. destruct (object_entry _ _ _ Hinv _ _ Ho) as (e & He & Hobj).
  by destruct (entry_object _ _ _ Hinv _ _ He) as [? _].
Qed.

Lemma ref_object m h refs p :
  intern_inv m h refs → p ∈ refs → ∃ k o, h !! p = Some (DsaObject o) ∧ object_wf k o.
Proof.
  intros Hinv Hp. destruct (ref_entry _ _ _ Hinv _ Hp) as (k & e & Hk & <-).
  destruct (entry_object _ _ _ Hinv _ _ Hk) as [_ (o & Ho & Hwf)]. eauto.
Qed.

(** Heap growth keeps every waiting slot's texts. *)
Lemma same_at_grows m m' h h' refs refs' errs l :
  intern_inv m h refs → intern_inv m' h' refs' → strings_inv h errs → h ⊆ h' →
  (∀ e, e ∈ l → err_message_dsa e ≠ InvalidDsaPointer → err_message_dsa e ∈ errs) →
  (∀ e, e ∈ l → query_dsa e ≠ InvalidDsaPointer → query_dsa e ∈ refs) →
  Forall (same_at h h') l.
Proof.
  intros Hinv Hinv' Hstr Hsub Herr Hq. apply Forall_forall. intros e He. split.
  - intros Hne. destruct (errs_live _ _ Hstr _ (Herr _ He Hne)) as [_ [b Hb]].
    rewrite Hb. by eapply lookup_weaken.
  - destruct (decide (query_dsa e = InvalidDsaPointer)) as [->|Hne].
    + by rewrite (text_at_invalid _ _ _ Hinv), (text_at_invalid _ _ _ Hinv').
    + destruct (ref_object _ _ _ _ Hinv (Hq _ He Hne)) as (k & o & Ho & _).
      unfold text_at, object_at. by rewrite Ho, (lookup_weaken _ _ _ _ Ho Hsub).
Qed.

End RingInv.
