(* ===== verification/RingSpec.v ===== *)
(** Step-by-step correctness of enqueue and dequeue: what each operation of
    [Ring.v] does to the invariant and to the abstract queue of [RingInv.v]. *)

From S2P Require Import Prelude Event Shared Dsa Intern Ring InternInv RingInv.
Import Event Shared Dsa Intern Ring InternInv RingInv.

Module RingSpec.

(** What the queue operations leave alone of a process's own state. *)
Record frame (s s' : Sys) : Prop := {
  frame_lock : lock_held s' = lock_held s;
  frame_guard : disable_error_capture s' = disable_error_capture s;
  frame_batch : local_batch s' = local_batch s;
  frame_count : local_batch_count s' = local_batch_count s;
  frame_attach : same_attach s s' }.

#[export] Instance frame_reflexive : Reflexive frame.
Proof. intros s. by constructor. Qed.
#[export] Instance frame_transitive : Transitive frame.
Proof. intros s1 s2 s3 [] []. constructor; [congruence..|by etrans]. Qed.

Lemma keeps_frame s s' : keeps s s' → frame s s'.
Proof. intros []. by constructor. Qed.

(** An event whose buffers have their declared sizes. *)
Definition event_ok (ev : PschEvent) : Prop :=
  length (err_message ev) = Z.to_nat PSCH_MAX_ERR_MSG_LEN ∧
  length (query ev) = Z.to_nat PSCH_MAX_QUERY_LEN ∧
  is_u16 (err_message_len (ev_fixed ev)) ∧ is_u16 (query_len (ev_fixed ev)).

(** ** Filling the producer's slot

    [staged s0 st0 s e m errs refs]: since [s0] the producer has been filling
    its slot, which now holds [e]; [errs] and [refs] are the string pointers and
    the query references outstanding, those of the waiting events among them. *)
Record staged (s0 : Sys) (st0 : PschSharedState) (s : Sys) (e : PschRingEntry)
    (m : gmap PschQueryInternKey PschQueryInternEntry) (errs refs : list Z) : Prop := {
  staged_st : ∃ n, psch_shared_state s = Some (st0 <| dsa_oom_count := n |>);
  staged_ring : ring s = <[slot_index (capacity st0) (q_head st0) := e]> (ring s0);
  staged_htab : htab s = Some m;
  staged_area : area_available s;
  staged_strings : strings_inv (heap s) errs;
  staged_intern : intern_inv m (heap s) refs;
  staged_uninit : no_uninit (heap s);
  staged_leak : no_string_leak (heap s0) (err_refs (live st0 (ring s0))) →
    no_string_leak (heap s) errs;
  staged_errs : err_refs (live st0 (ring s0)) ⊆ errs;
  staged_refs : query_refs (live st0 (ring s0)) ⊆ refs;
  staged_same : Forall (same_at (heap s0) (heap s)) (live st0 (ring s0));
  staged_frame : frame s0 s;
  staged_log : log s = log s0 }.

Section staging.
Context (s0 : Sys) (st0 : PschSharedState) (m0 : gmap PschQueryInternKey PschQueryInternEntry).
Context (Hinv : ring_inv s0 st0 m0) (Hroom : qsize st0 < capacity st0).
Let idx := slot_index (capacity st0) (q_head st0).

Lemma idx_lt : (idx < length (ring s0))%nat.
Proof.
  destruct (inv_cap _ _ _ Hinv) as (k & Hk & Hc). pose proof (inv_ring _ _ _ Hinv) as Hlen.
  unfold idx. rewrite Hc in *. pose proof (slot_index_lt k (q_head st0) Hk). lia.
Qed.

Lemma inv_area_available : area_available s0.
Proof. right. exists st0. split; [apply Hinv|]. apply (inv_area _ _ _ Hinv). Qed.

(** Before anything is written. *)
Lemma staged_start :
  staged s0 st0 s0 (ring s0 !!! idx) m0
    (err_refs (live st0 (ring s0))) (query_refs (live st0 (ring s0))).
Proof.
  constructor; try apply Hinv; try done.
  - exists (dsa_oom_count st0). rewrite (inv_st _ _ _ Hinv). by destruct st0.
  - symmetry. apply list_insert_id, list_lookup_lookup_total_lt, idx_lt.
  - apply inv_area_available.
  - apply Forall_forall. intros e _. apply same_at_refl.
Qed.

(** Writing a field of the slot. *)
Lemma staged_put s e m errs refs f :
  staged s0 st0 s e m errs refs →
  staged s0 st0 (s <| ring ::= alter f idx |>) (f e) m errs refs.
Proof.
  intros []. constructor; try done; [|by etrans].
  simpl. rewrite staged_ring0. by rewrite list_alter_insert.
Qed.

Lemma staged_keeps s s' e m errs refs :
  staged s0 st0 s e m errs refs → keeps s s' → heap s' = heap s → htab s' = htab s →
  staged s0 st0 s' e m errs refs.
Proof.
  intros Hs Hk Hh Ht. destruct (staged_st _ _ _ _ _ _ _ Hs) as [n Hn].
  destruct (keeps_st _ _ Hk _ Hn) as [n' Hn'].
  constructor; rewrite ?Hh; try apply Hs.
  - exists n'. rewrite Hn'. by destruct st0.
  - rewrite (keeps_ring _ _ Hk). apply Hs.
  - rewrite Ht. apply Hs.
  - apply (keeps_area _ _ Hk), Hs.
  - etrans; [apply Hs|by apply keeps_frame].
  - rewrite (keeps_log _ _ Hk). apply Hs.
Qed.

(** Growing the heap keeps the waiting events' texts. *)
Lemma staged_live_same s e m errs refs h' m' refs' :
  staged s0 st0 s e m errs refs → intern_inv m' h' refs' → heap s ⊆ h' →
  Forall (same_at (heap s0) h') (live st0 (ring s0)).
Proof.
  intros Hs Hint Hsub.
  assert (Forall (same_at (heap s) h') (live st0 (ring s0))) as Hnew.
  { eapply same_at_grows; [apply Hs|done|apply Hs|done|..]; intros x Hx Hx'.
    - by apply (staged_errs _ _ _ _ _ _ _ Hs), elem_of_err_refs.
    - by apply (staged_refs _ _ _ _ _ _ _ Hs), elem_of_query_refs. }
  pose proof (staged_same _ _ _ _ _ _ _ Hs) as Hold.
  apply Forall_forall. intros x Hx. rewrite Forall_forall in Hnew, Hold.
  eapply same_at_trans; eauto.
Qed.

(** A string was stored for the slot. *)
Lemma staged_string s s' e m errs refs p b :
  staged s0 st0 s e m errs refs → keeps s s' → htab s' = htab s →
  p ≠ InvalidDsaPointer → heap s !! p = None → heap s' = <[p := DsaString b]> (heap s) →
  staged s0 st0 s' e m (p :: errs) refs.
Proof.
  intros Hs Hk Ht Hne Hfresh Hh. pose proof (staged_strings _ _ _ _ _ _ _ Hs) as Hstr.
  assert (intern_inv m (heap s') refs) as Hint.
  { rewrite Hh. apply intern_inv_string_new; [apply Hs|done]. }
  assert (heap s ⊆ heap s') as Hsub by (rewrite Hh; by apply insert_subseteq).
  destruct (staged_st _ _ _ _ _ _ _ Hs) as [n Hn].
  destruct (keeps_st _ _ Hk _ Hn) as [n' Hn'].
  constructor; try apply Hs; try done.
  - exists n'. rewrite Hn'. by destruct st0.
  - rewrite (keeps_ring _ _ Hk). apply Hs.
  - rewrite Ht. apply Hs.
  - apply (keeps_area _ _ Hk), Hs.
  - constructor.
    + apply NoDup_cons. split; [|apply Hstr]. intros Hin.
      destruct (errs_live _ _ Hstr _ Hin) as [_ [b' Hb']]. congruence.
    + intros q [->|Hq]%elem_of_cons.
      * split; [done|]. exists b. by rewrite Hh, lookup_insert_eq.
      * destruct (errs_live _ _ Hstr _ Hq) as [? [b' Hb']]. split; [done|]. exists b'.
        by eapply lookup_weaken.
  - intros q u. rewrite Hh, lookup_insert. case_decide; [done|].
    apply (staged_uninit _ _ _ _ _ _ _ Hs).
  - intros Hl q u. rewrite Hh, lookup_insert. case_decide as Hq; intros Hu.
    + subst. apply elem_of_cons. by left.
    + apply elem_of_cons. right. by eapply (staged_leak _ _ _ _ _ _ _ Hs).
  - etrans; [apply Hs|]. by apply list_subseteq_cons.
  - by eapply staged_live_same.
  - etrans; [apply Hs|by apply keeps_frame].
  - rewrite (keeps_log _ _ Hk). apply Hs.
Qed.

(** A query reference was acquired for the slot. *)
Lemma staged_acquire s s' e m m' errs refs p :
  staged s0 st0 s e m errs refs → keeps s s' → htab s' = Some m' →
  intern_inv m' (heap s') (p :: refs) → grows (heap s) (heap s') →
  staged s0 st0 s' e m' errs (p :: refs).
Proof.
  intros Hs Hk Ht Hint (Hsub & Hback & Hun).
  pose proof (staged_strings _ _ _ _ _ _ _ Hs) as Hstr.
  destruct (staged_st _ _ _ _ _ _ _ Hs) as [n Hn].
  destruct (keeps_st _ _ Hk _ Hn) as [n' Hn'].
  constructor; try apply Hs; try done.
  - exists n'. rewrite Hn'. by destruct st0.
  - rewrite (keeps_ring _ _ Hk). apply Hs.
  - apply (keeps_area _ _ Hk), Hs.
  - constructor; [apply Hstr|]. intros q Hq.
    destruct (errs_live _ _ Hstr _ Hq) as [? [b' Hb']]. split; [done|]. exists b'.
    by eapply lookup_weaken.
  - apply Hun, Hs.
  - intros Hl q u Hu. eapply (staged_leak _ _ _ _ _ _ _ Hs); [done|]. by apply Hback.
  - etrans; [apply Hs|]. by apply list_subseteq_cons.
  - by eapply staged_live_same.
  - etrans; [apply Hs|by apply keeps_frame].
  - rewrite (keeps_log _ _ Hk). apply Hs.
Qed.

(** The waiting events are those of [s0] as long as the head stays. *)
Lemma staged_live s e m errs refs n :
  staged s0 st0 s e m errs refs →
  live (st0 <| dsa_oom_count := n |>) (ring s) = live st0 (ring s0).
Proof.
  intros Hs. rewrite (staged_ring _ _ _ _ _ _ _ Hs).
  destruct (inv_cap _ _ _ Hinv) as (k & Hk & Hc).
  rewrite list_insert_alter. by apply (live_write st0 (ring s0) _ k).
Qed.

(** Giving up before publication leaves the queue as it was. *)
Lemma staged_abort s e m errs :
  staged s0 st0 s e m errs (query_refs (live st0 (ring s0))) →
  ∃ n, ring_inv s (st0 <| dsa_oom_count := n |>) m ∧ abs s = abs s0.
Proof.
  intros Hs. destruct (staged_st _ _ _ _ _ _ _ Hs) as [n Hn]. exists n.
  pose proof (staged_live _ _ _ _ _ n Hs) as Hlive.
  split.
  - constructor; rewrite ?Hlive; try apply Hinv; try apply Hs; try done.
    + rewrite (staged_ring _ _ _ _ _ _ _ Hs), length_insert. apply Hinv.
    + eapply slots_wf_same; [apply Hs|apply Hinv].
    + constructor; [apply (inv_strings _ _ _ Hinv)|]. intros q Hq.
      by apply (staged_strings _ _ _ _ _ _ _ Hs), (staged_errs _ _ _ _ _ _ _ Hs).
  - unfold abs. rewrite Hn, Hlive, (inv_st _ _ _ Hinv).
    apply abs_slots_same; [apply Hs|apply Hinv].
Qed.

(** Publication appends the slot to the queue. *)
Lemma staged_publish s e m errs refs n :
  staged s0 st0 s e m errs refs → psch_shared_state s = Some (st0 <| dsa_oom_count := n |>) →
  errs ≡ₚ err_refs (live st0 (ring s0) ++ [e]) →
  refs ≡ₚ query_refs (live st0 (ring s0) ++ [e]) → slot_wf (heap s) e →
  let st' := incr_enqueued (st0 <| dsa_oom_count := n |> <| q_head := u64 (q_head st0 + 1) |>) in
  let s' := s <| psch_shared_state := Some st' |> in
  ring_inv s' st' m ∧ abs s' = abs s0 ++ [abs_slot (heap s) e] ∧
  live st' (ring s') = live st0 (ring s0) ++ [e] ∧ (leak_free s0 st0 → leak_free s' st').
Proof.
  intros Hs Hst Herrs Hrefs Hwf st' s'.
  destruct (inv_cap _ _ _ Hinv) as (k & Hk & Hc).
  assert (live st' (ring s') = live st0 (ring s0) ++ [e]) as Hlive.
  { pose proof (staged_live _ _ _ _ _ n Hs) as Hold.
    change (live st' (ring s')) with (live (st0 <| q_head := u64 (q_head st0 + 1) |>) (ring s)).
    rewrite (live_publish st0 (ring s) k) by (done || apply Hinv). f_equal; [done|].
    rewrite (staged_ring _ _ _ _ _ _ _ Hs). f_equal. apply list_lookup_total_insert_eq, idx_lt. }
  split_and!; [|unfold abs; simpl|done|].
  - constructor; rewrite ?Hlive; simpl; try apply Hinv; try apply Hs; try done.
    + rewrite (staged_ring _ _ _ _ _ _ _ Hs), length_insert. apply Hinv.
    + apply u64_range.
    + pose proof (length_live st' (ring s')) as Hl. pose proof (qsize_nonneg st').
      pose proof (length_live st0 (ring s0)) as Hl0. pose proof (qsize_nonneg st0).
      rewrite Hlive, length_app in Hl. simpl in Hl. change (capacity st') with (capacity st0). lia.
    + apply Forall_app. split; [|by apply Forall_singleton].
      eapply slots_wf_same; [apply Hs|apply Hinv].
    + rewrite <- Herrs. apply Hs.
    + rewrite <- Hrefs. apply Hs.
  - rewrite (inv_st _ _ _ Hinv).
    change (live st' (ring s)) with (live st' (ring s')). rewrite Hlive, fmap_app. f_equal.
    apply abs_slots_same; [apply Hs|apply Hinv].
  - unfold leak_free. rewrite Hlive. intros Hl q b Hb. rewrite <- Herrs.
    by eapply (staged_leak _ _ _ _ _ _ _ Hs).
Qed.

End staging.

(** ** Overflow *)

(** The state after one more dropped event: counted, and logged the first time. *)
Definition overflowed (s : Sys) (st : PschSharedState) : Sys :=
  s <| psch_shared_state := Some ((incr_dropped st) <| overflow_logged := true |>) |>
    <| log := if overflow_logged st then log s
              else {| log_message := overflow_message; log_guard := disable_error_capture s |}
                   :: log s |>.

Lemma wp_handle_overflow (Q : unit → Sys → Prop) R s st :
  psch_shared_state s = Some st → Q tt (overflowed s st) → wp HandleOverflow Q R s.
Proof.
  intros Hst HQ. unfold HandleOverflow. wp_step. eapply wp_wr; [done|].
  wp_step. eapply wp_rd; [done|]. unfold overflowed in HQ.
  change (overflow_logged (incr_dropped st)) with (overflow_logged st).
  destruct (overflow_logged st) eqn:Hl; cbn [negb].
  - wp_step. destruct s, st. simpl in *. by subst.
  - wp_step. eapply wp_wr; [done|]. unfold ereport_warning. by wp_step.
Qed.

(** Counters, lock, guard and log are no part of the queue. *)
Definition same_queue (st st' : PschSharedState) : Prop :=
  raw_dsa_area st' = raw_dsa_area st ∧ capacity st' = capacity st ∧
  q_head st' = q_head st ∧ q_tail st' = q_tail st.

Lemma same_queue_live st st' rg : same_queue st st' → live st' rg = live st rg.
Proof.
  intros (_ & Hc & Hh & Ht). unfold live, qsize. rewrite Hh, Ht.
  apply list_fmap_ext. intros n i _. unfold live_slot. by rewrite Hc, Ht.
Qed.

Lemma ring_inv_ext s s' st st' m :
  ring_inv s st m → same_queue st st' → psch_shared_state s' = Some st' →
  ring s' = ring s → heap s' = heap s → htab s' = htab s →
  ring_inv s' st' m ∧ abs s' = abs s ∧ (leak_free s st → leak_free s' st').
Proof.
  intros Hinv Hq Hst Hr Hh Ht. pose proof (same_queue_live _ _ (ring s) Hq) as Hlive.
  unfold abs, leak_free. rewrite Hst, (inv_st _ _ _ Hinv), Hr, Hh, Hlive.
  destruct Hq as (Hra & Hc & Hhd & Htl).
  split; [|done]. constructor; rewrite ?Hr, ?Hh, ?Ht, ?Hc, ?Hra, ?Hhd, ?Htl, ?Hlive; try apply Hinv.
  - done.
  - unfold qsize. rewrite Hhd, Htl. apply Hinv.
Qed.

Lemma ring_inv_overflowed s st m :
  ring_inv s st m →
  ring_inv (overflowed s st) ((incr_dropped st) <| overflow_logged := true |>) m ∧
  abs (overflowed s st) = abs s ∧
  (leak_free s st → leak_free (overflowed s st) ((incr_dropped st) <| overflow_logged := true |>)).
Proof. intros Hinv. by eapply ring_inv_ext. Qed.

(** ** Enqueue *)

(** The slot's error message is stored, or lost with length 0. *)
Inductive err_filled (h : gmap Z DsaBlock) (ev : PschEvent) (errs : list Z) :
    PschRingEntry → list Z → Prop :=
  | err_none e : re_fixed e = (ev_fixed ev) <| err_message_len := 0 |> →
      err_message_dsa e = InvalidDsaPointer → err_filled h ev errs e errs
  | err_some e p : re_fixed e = ev_fixed ev → err_message_dsa e = p → p ≠ InvalidDsaPointer →
      string_at h p =
        take (Z.to_nat (cut (err_message_len (ev_fixed ev)) PSCH_MAX_ERR_MSG_LEN)) (err_message ev)
        ++ [0] →
      err_filled h ev errs e (p :: errs).

(** The slot's query is interned, or lost with length 0. *)
Inductive query_filled (h : gmap Z DsaBlock) (ev : PschEvent) (refs : list Z) (e : PschRingEntry) :
    PschRingEntry → list Z → Prop :=
  | query_none :
      query_filled h ev refs e (set_query_len 0 (e <| query_dsa := InvalidDsaPointer |>)) refs
  | query_some p n : p ≠ InvalidDsaPointer → n = cut (query_len (ev_fixed ev)) PSCH_MAX_QUERY_LEN →
      text_at h p = take (Z.to_nat n) (query ev) →
      query_filled h ev refs e (set_query_len n (e <| query_dsa := p |>)) (p :: refs).

Lemma set_query_len_id e p :
  query_len (re_fixed e) = 0 → set_query_len 0 (e <| query_dsa := p |>) = e <| query_dsa := p |>.
Proof. destruct e as [f ? ?]. unfold set_query_len. simpl. by destruct f; simpl; intros ->. Qed.

Lemma err_filled_mono h h' ev errs0 e errs :
  h ⊆ h' → err_filled h ev errs0 e errs → err_filled h' ev errs0 e errs.
Proof.
  intros Hsub [e1 H1 H2|e1 p H1 H2 H3 H4]; [by apply err_none|].
  apply err_some; [done..|]. rewrite <- H4. unfold string_at in *.
  destruct (h !! p) as [[]|] eqn:Hp; try by destruct (take _ _).
  by rewrite (lookup_weaken _ _ _ _ Hp Hsub).
Qed.

(** A filled slot delivers the event, and owns exactly what was acquired for it. *)
Lemma filled_slot m h ev errs0 refs0 e1 e errs refs :
  event_ok ev → intern_inv m h refs →
  err_filled h ev errs0 e1 errs → query_filled h ev refs0 e1 e refs →
  errs ≡ₚ errs0 ++ err_refs [e] ∧ refs ≡ₚ refs0 ++ query_refs [e] ∧ slot_wf h e ∧
  stored ev (abs_slot h e).
Proof.
  intros (Hml & Hql & Hmr & Hqr) Hint Herr Hq.
  pose proof (text_at_invalid _ _ _ Hint) as Hinvalid. unfold is_u16 in *.
  assert (∃ n b, err_message_len (re_fixed e1) = n ∧ 0 ≤ n ∧
    take (Z.to_nat (cut n PSCH_MAX_ERR_MSG_LEN)) (string_at h (err_message_dsa e1)) = b ∧
    re_fixed e1 = (ev_fixed ev) <| err_message_len := n |> ∧
    (err_message_dsa e1 = InvalidDsaPointer → n = 0) ∧
    (err_message_dsa e1 ≠ InvalidDsaPointer →
       (Z.to_nat (cut n PSCH_MAX_ERR_MSG_LEN) ≤ length (string_at h (err_message_dsa e1)))%nat) ∧
    text_stored (err_message_len (ev_fixed ev)) PSCH_MAX_ERR_MSG_LEN (err_message ev)
      (cut n PSCH_MAX_ERR_MSG_LEN) b ∧
    errs ≡ₚ errs0 ++ err_refs [e1])
    as (n & b & Hn & Hpos & Hb & Hf & H0 & Hlen & Hstored & Hperm).
  { destruct Herr as [e1 H1 H2|e1 p H1 H2 H3 H4].
    - exists 0, []. rewrite H1, H2. unfold err_refs. rewrite fmap_cons, H2, valid_ptrs_cons.
      rewrite decide_True by done. rewrite app_nil_r. split_and!; try done. apply text_lost.
    - exists (err_message_len (ev_fixed ev)). eexists. rewrite H1, H2, H4.
      unfold err_refs. rewrite fmap_cons, H2, valid_ptrs_cons, decide_False by done.
      assert (length (take (Z.to_nat (cut (err_message_len (ev_fixed ev)) PSCH_MAX_ERR_MSG_LEN))
                (err_message ev)) = Z.to_nat (cut (err_message_len (ev_fixed ev)) PSCH_MAX_ERR_MSG_LEN))
        as Hl by (rewrite length_take, Hml; unfold cut; lia).
      rewrite take_app_le by lia. split_and!; try done; try lia.
      + by destruct (ev_fixed ev).
      + rewrite length_app. lia.
      + rewrite take_take, Nat.min_id. apply text_kept.
      + rewrite Permutation_app_comm. done. }
  assert (∃ qn p, e = set_query_len qn (e1 <| query_dsa := p |>) ∧
    qn = Z.of_nat (length (text_at h p)) ∧ qn < PSCH_MAX_QUERY_LEN ∧
    text_stored (query_len (ev_fixed ev)) PSCH_MAX_QUERY_LEN (query ev) qn (text_at h p) ∧
    refs ≡ₚ refs0 ++ query_refs [e]) as (qn & p & -> & Hqn & Hqm & Hqs & Hqp).
  { destruct Hq as [|p qn H1 H2 H3]; eexists _, _; (split; [done|]);
      unfold query_refs; rewrite fmap_cons, valid_ptrs_cons; simpl.
    - rewrite Hinvalid. split_and!; [done..|apply text_lost|]. by rewrite app_nil_r.
    - rewrite H3, length_take, Hql, decide_False by done.
      split_and!; [unfold cut, PSCH_MAX_QUERY_LEN in *; lia..| |].
      + subst qn. apply text_kept.
      + by rewrite Permutation_app_comm. }
  split_and!; [done|done| |].
  - constructor; simpl; rewrite ?Hn; try done.
  - exists (cut n PSCH_MAX_ERR_MSG_LEN), b, qn, (text_at h p).
    split_and!; [done|done|]. unfold abs_slot. simpl. rewrite Hn, Hb. f_equal. rewrite Hf.
    by destruct (ev_fixed ev).
Qed.

Section enqueue.
Context {E : Env} {L : EnvLaws E}.
Context (s0 : Sys) (st0 : PschSharedState) (m0 : gmap PschQueryInternKey PschQueryInternEntry).
Context (Hinv : ring_inv s0 st0 m0) (Hroom : qsize st0 < capacity st0).
Context (ev : PschEvent) (Hev : event_ok ev).
Let slot := slot_index (capacity st0) (q_head st0).
Let errs0 := err_refs (live st0 (ring s0)).
Let refs0 := query_refs (live st0 (ring s0)).

Lemma wp_store_err e (Q : unit → Sys → Prop) R s :
  staged s0 st0 s e m0 errs0 refs0 → re_fixed e = ev_fixed ev →
  (∀ s' e' errs, staged s0 st0 s' e' m0 errs refs0 → err_filled (heap s') ev errs0 e' errs → Q tt s') →
  (∀ s' e', alloc_raises E → staged s0 st0 s' e' m0 errs0 refs0 → R s') →
  wp (StoreErrMessage ev slot) Q R s.
Proof.
  intros Hs He HQ HR. destruct Hev as (Hml & _ & [Hlen _] & _).
  destruct (staged_st _ _ _ _ _ _ _ Hs) as [n Hn].
  unfold StoreErrMessage, put_slot. wp_step.
  eapply wp_alloc_string; [done|apply Hs|..].
  - intros s' Hk Hh Ht. wp_run. rewrite DsaPointerIsValid_Invalid, andb_true_r.
    assert (staged s0 st0 s' e m0 errs0 refs0) as Hs' by by eapply staged_keeps.
    apply (staged_put s0 st0 _ _ _ _ _ (λ e, e <| err_message_dsa := InvalidDsaPointer |>)) in Hs'.
    destruct (Z.ltb_spec 0 (err_message_len (ev_fixed ev))) as [Hpos|Hpos]; wp_run.
    + apply (staged_put s0 st0 _ _ _ _ _ (set_err_message_len 0)) in Hs'.
      eapply HQ; [exact Hs'|]. apply err_none; [|done]. unfold set_err_message_len. simpl. by rewrite He.
    + eapply HQ; [exact Hs'|]. apply err_none; [|done]. simpl. rewrite He.
      assert (err_message_len (ev_fixed ev) = 0) as H0 by lia. revert H0.
      by destruct (ev_fixed ev); simpl; intros ->.
  - intros p s' Hne Hk Ht Hp Hfresh Hh. wp_run.
    rewrite (proj2 (DsaPointerIsValid_spec p)), andb_false_r by done. wp_run.
    assert (staged s0 st0 s' e m0 (p :: errs0) refs0) as Hs' by by eapply staged_string.
    apply (staged_put s0 st0 _ _ _ _ _ (λ e, e <| err_message_dsa := p |>)) in Hs'.
    eapply HQ; [exact Hs'|].
    apply err_some; [done..|].
    unfold string_at. simpl. by rewrite Hh, lookup_insert_eq.
  - intros s' Hraise Hk Hh Ht. eapply HR; [done|]. by eapply staged_keeps.
Qed.

Lemma query_refs_bound : Z.of_nat (length refs0) + 1 < 2 ^ 32.
Proof.
  destruct (inv_cap _ _ _ Hinv) as (k & Hk & Hc).
  assert (2 ^ k ≤ 2 ^ 31) by (apply Z.pow_le_mono_r; lia).
  pose proof (length_query_refs (live st0 (ring s0))). rewrite length_live in *.
  pose proof (qsize_nonneg st0). pose proof (inv_size _ _ _ Hinv). unfold refs0. lia.
Qed.

Lemma wp_store_query e errs (Q : unit → Sys → Prop) R s :
  staged s0 st0 s e m0 errs refs0 → query_len (re_fixed e) = query_len (ev_fixed ev) →
  (∀ s' e' m' refs, staged s0 st0 s' e' m' errs refs → heap s ⊆ heap s' →
     query_filled (heap s') ev refs0 e e' refs → Q tt s') →
  (∀ s', alloc_raises E → staged s0 st0 s' e m0 errs refs0 → R s') →
  wp (StoreQuery ev slot) Q R s.
Proof.
  intros Hs He HQ HR. destruct Hev as (_ & Hql & _ & [Hlen _]).
  destruct (staged_st _ _ _ _ _ _ _ Hs) as [n Hn].
  assert (∀ s', staged s0 st0 s' e m0 errs refs0 → heap s ⊆ heap s' →
    Q tt (s' <| ring ::= alter (λ e, e <| query_dsa := InvalidDsaPointer |>) slot |>
             <| ring ::= alter (set_query_len 0) slot |>)) as Hlost.
  { intros s' Hs' Hsub. eapply HQ; [apply staged_put, staged_put, Hs'|done|apply query_none]. }
  unfold StoreQuery, put_slot. change (u16 (PSCH_MAX_QUERY_LEN - 1)) with (PSCH_MAX_QUERY_LEN - 1).
  fold (cut (query_len (ev_fixed ev)) PSCH_MAX_QUERY_LEN).
  destruct (Z.ltb_spec 0 (query_len (ev_fixed ev))) as [Hpos|Hpos].
  - assert (0 < cut (query_len (ev_fixed ev)) PSCH_MAX_QUERY_LEN < PSCH_MAX_QUERY_LEN) as Hcut
      by (unfold cut, PSCH_MAX_QUERY_LEN; lia).
    wp_step. eapply (wp_acquire _ _ _ _ refs0 m0); try apply Hs; try done.
    + unfold PSCH_MAX_QUERY_LEN in *. lia.
    + rewrite Hql. lia.
    + apply query_refs_bound.
    + intros s' Hk Ht Hh. wp_run. rewrite DsaPointerIsValid_Invalid. cbn [negb]. wp_run.
      apply Hlost; [|by rewrite Hh]. eapply staged_keeps; try done. by rewrite Ht, (staged_htab _ _ _ _ _ _ _ Hs).
    + intros p s' m' _ Hp Hk Ht Hint Hg Htext. wp_run.
      rewrite (proj2 (DsaPointerIsValid_spec p)) by done. cbn [negb]. wp_run.
      eapply HQ; [by eapply staged_put, staged_put, staged_acquire|apply Hg|].
      by apply query_some.
    + intros s' Hraise Hk Ht Hh. apply HR; [done|]. eapply staged_keeps; try done.
      by rewrite Ht, (staged_htab _ _ _ _ _ _ _ Hs).
  - wp_run. eapply HQ; [by apply staged_put|done|].
    rewrite <- (set_query_len_id e) by lia. apply query_none.
Qed.

(** The whole enqueue when there is room. *)
Lemma wp_try_enqueue_room (Q : bool → Sys → Prop) R :
  psch_debug_force_locked_overflow = false →
  (∀ s' n m d, let st' := incr_enqueued (st0 <| dsa_oom_count := n |>
                                            <| q_head := u64 (q_head st0 + 1) |>) in
     ring_inv s' st' m → stored ev d → abs s' = abs s0 ++ [d] → frame s0 s' → log s' = log s0 →
     (leak_free s0 st0 → leak_free s' st') → Q true s') →
  (∀ s' n m, alloc_raises E → ring_inv s' (st0 <| dsa_oom_count := n |>) m → abs s' = abs s0 →
     frame s0 s' → log s' = log s0 → R s') →
  wp (TryEnqueueLocked ev (capacity st0)) Q R s0.
Proof.
  intros Hforce HQ HR. pose proof (inv_st _ _ _ Hinv) as Hst. unfold TryEnqueueLocked.
  wp_step. eapply wp_rd; [done|]. wp_step. eapply wp_rd; [done|]. fold (qsize st0).
  rewrite (proj2 (Z.leb_gt _ _)) by done. rewrite Hforce. cbn [orb]. unfold put_slot at 1. do 2 wp_step.
  pose proof (staged_put _ _ _ _ _ _ _ (λ e, e <| re_fixed := ev_fixed ev |>)
    (staged_start _ _ _ Hinv Hroom)) as Hs1.
  wp_step. eapply wp_store_err; [exact Hs1|done| |].
  2: { intros s' e' Hraise Hs'. destruct (staged_abort _ _ _ Hinv Hroom _ _ _ _ Hs') as (n & Hi & Ha).
       by eapply HR; [done|..|apply Hs'|apply Hs']. }
  intros s2 e2 errs Hs2 Herr.
  wp_step. eapply wp_store_query; [exact Hs2| | |].
  { by destruct Herr as [? ->|? ? ->]. }
  2: { intros s' Hraise Hs'. destruct (staged_abort _ _ _ Hinv Hroom _ _ _ _ Hs') as (n & Hi & Ha).
       by eapply HR; [done|..|apply Hs'|apply Hs']. }
  intros s3 e3 m3 refs Hs3 Hsub Hq.
  destruct (filled_slot m3 (heap s3) ev errs0 refs0 e2 e3 errs refs)
    as (Hperr & Hpref & Hwf & Hstored); [done|apply Hs3|by eapply err_filled_mono|done|].
  destruct (staged_st _ _ _ _ _ _ _ Hs3) as [n Hn].
  destruct (staged_publish _ _ _ Hinv Hroom _ _ _ _ _ n Hs3 Hn) as (Hi & Ha & _ & Hl);
    [by rewrite err_refs_app|by rewrite query_refs_app|done|].
  wp_step. eapply wp_wr; [done|]. wp_step. eapply wp_wr; [done|]. wp_step.
  eapply HQ; [exact Hi|done|done|etrans; [apply Hs3|by constructor; auto]|..].
  - apply Hs3.
  - exact Hl.
Qed.

End enqueue.

(** Enqueue under the lock, every exit: published, dropped, or an allocator
    error that leaves the queue as it was. *)
Lemma wp_try_enqueue {E : Env} {L : EnvLaws E} s st m ev (Q : bool → Sys → Prop) R :
  ring_inv s st m → event_ok ev →
  (∀ s' n m' d, let st' := incr_enqueued (st <| dsa_oom_count := n |>
                                             <| q_head := u64 (q_head st + 1) |>) in
     qsize st < capacity st →
     ring_inv s' st' m' → stored ev d → abs s' = abs s ++ [d] → frame s s' → log s' = log s →
     (leak_free s st → leak_free s' st') → Q true s') →
  (qsize st = capacity st ∨ psch_debug_force_locked_overflow = true → Q false (overflowed s st)) →
  (∀ s' n m', alloc_raises E → ring_inv s' (st <| dsa_oom_count := n |>) m' → abs s' = abs s →
     frame s s' → log s' = log s → R s') →
  wp (TryEnqueueLocked ev (capacity st)) Q R s.
Proof.
  intros Hinv Hev Hok Hfull Herr.
  destruct (decide (qsize st < capacity st ∧ psch_debug_force_locked_overflow = false))
    as [[Hroom Hforce]|Hno].
  - eapply wp_try_enqueue_room; try done. intros s' n m' d st' Hi. by eapply Hok.
  - pose proof (inv_st _ _ _ Hinv) as Hst. pose proof (inv_size _ _ _ Hinv). unfold TryEnqueueLocked.
    wp_step. eapply wp_rd; [done|]. wp_step. eapply wp_rd; [done|]. fold (qsize st).
    assert ((capacity st <=? qsize st) || psch_debug_force_locked_overflow = true) as ->.
    { destruct (Z.leb_spec (capacity st) (qsize st)); [done|].
      destruct psch_debug_force_locked_overflow; [done|]. by destruct Hno. }
    wp_step. eapply wp_handle_overflow; [done|]. wp_step. apply Hfull.
    destruct psch_debug_force_locked_overflow; [by right|left].
    destruct (decide (qsize st < capacity st)); [by destruct Hno|lia].
Qed.

(** ** Dequeue *)

(** The heap invariants of a list of waiting slots. *)
Record slots_inv (h : gmap Z DsaBlock) (m : gmap PschQueryInternKey PschQueryInternEntry)
    (errs refs : list Z) : Prop := {
  si_strings : strings_inv h errs;
  si_intern : intern_inv m h refs;
  si_uninit : no_uninit h }.

Lemma no_uninit_delete h p : no_uninit h → no_uninit (delete p h).
Proof. intros Hu q n [_ Hq]%lookup_delete_Some. by apply (Hu q n). Qed.

Lemma same_at_delete_string h p b l :
  h !! p = Some (DsaString b) → p ∉ err_refs l → Forall (same_at h (delete p h)) l.
Proof.
  intros Hp Hnin. apply Forall_forall. intros e He. split.
  - intros Hne. apply lookup_delete_ne. intros ->. by apply Hnin, elem_of_err_refs.
  - unfold text_at, object_at. destruct (decide (p = query_dsa e)) as [->|Hne].
    + by rewrite lookup_delete_eq, Hp.
    + by rewrite lookup_delete_ne.
Qed.

Lemma text_at_delete_string h p b q :
  h !! p = Some (DsaString b) → text_at (delete p h) q = text_at h q.
Proof.
  intros Hp. unfold text_at, object_at. destruct (decide (p = q)) as [->|Hne].
  - by rewrite lookup_delete_eq, Hp.
  - by rewrite lookup_delete_ne.
Qed.

Lemma same_at_delete_object h p o l :
  h !! p = Some (DsaObject o) → p ∉ query_refs l → p ≠ InvalidDsaPointer →
  strings_inv h (err_refs l) → Forall (same_at h (delete p h)) l.
Proof.
  intros Hp Hnin Hne Hstr. apply Forall_forall. intros e He. split.
  - intros Hv. apply lookup_delete_ne. intros ->.
    destruct (errs_live _ _ Hstr (err_message_dsa e)) as [_ [b Hb]]; [by apply elem_of_err_refs|].
    congruence.
  - unfold text_at, object_at. rewrite lookup_delete_ne; [done|]. intros ->.
    by apply Hnin, elem_of_query_refs.
Qed.

(** What resolving a text leaves in a buffer of [max] bytes. *)
Lemma take_resolved n src dst :
  (n ≤ length src)%nat → (n < length dst)%nat →
  take n (blit n [0] (blit 0 (take n src) dst)) = take n src ∧
  length (blit n [0] (blit 0 (take n src) dst)) = length dst.
Proof.
  intros Hs Hd. assert (length (take n src) = n) as Ht by (rewrite length_take; lia).
  assert (length (blit 0 (take n src) dst) = length dst) as Hl by (apply length_blit; lia).
  split; [|rewrite length_blit; simpl; lia].
  unfold blit at 1. rewrite take_app_le by (rewrite length_take; lia).
  rewrite take_take, Nat.min_id. rewrite <- Ht at 1. apply take_blit0.
Qed.

Section dequeue.
Context {E : Env} {L : EnvLaws E}.

Lemma err_refs_cons e l : err_refs (e :: l) =
  if decide (err_message_dsa e = InvalidDsaPointer) then err_refs l else err_message_dsa e :: err_refs l.
Proof. apply valid_ptrs_cons. Qed.

Lemma query_refs_cons e l : query_refs (e :: l) =
  if decide (query_dsa e = InvalidDsaPointer) then query_refs l else query_dsa e :: query_refs l.
Proof. apply valid_ptrs_cons. Qed.

(** The first waiting slot's error message moves to the caller's buffer. *)
Lemma wp_resolve_err e rest m dst (Q : bytes * Z → Sys → Prop) R s :
  area_available s → slot_wf (heap s) e → length dst = Z.to_nat PSCH_MAX_ERR_MSG_LEN →
  slots_inv (heap s) m (err_refs (e :: rest)) (query_refs (e :: rest)) →
  (∀ s' buf n, keeps s s' → htab s' = htab s →
     slots_inv (heap s') m (err_refs rest) (query_refs (e :: rest)) →
     Forall (same_at (heap s) (heap s')) rest →
     text_at (heap s') (query_dsa e) = text_at (heap s) (query_dsa e) →
     (no_string_leak (heap s) (err_refs (e :: rest)) → no_string_leak (heap s') (err_refs rest)) →
     n = cut (err_message_len (re_fixed e)) PSCH_MAX_ERR_MSG_LEN → length buf = length dst →
     take (Z.to_nat n) buf = take (Z.to_nat n) (string_at (heap s) (err_message_dsa e)) →
     Q (buf, n) s') →
  wp (PschDsaResolveString (err_message_dsa e) (err_message_len (re_fixed e)) dst
        PSCH_MAX_ERR_MSG_LEN) Q R s.
Proof.
  intros Ha Hwf Hdst [Hstr Hint Hu] HQ. rewrite err_refs_cons in *.
  pose proof (slot_err_len _ _ Hwf) as Hpos.
  destruct (decide (err_message_dsa e = InvalidDsaPointer)) as [Hinv|Hne].
  - rewrite Hinv. apply wp_resolve_string_invalid. rewrite (slot_no_err _ _ Hwf Hinv) in HQ.
    apply HQ; try done; [|by apply length_blit; simpl; unfold PSCH_MAX_ERR_MSG_LEN in *; lia].
    apply Forall_forall. intros x _. apply same_at_refl.
  - destruct (errs_live _ _ Hstr (err_message_dsa e)) as [_ [b Hb]]; [apply elem_of_cons; by left|].
    pose proof (errs_nodup _ _ Hstr) as [Hnin Hnd]%NoDup_cons.
    pose proof (slot_err _ _ Hwf Hne) as Hlen.
    eapply wp_resolve_string; [done|done|done|]. intros s' Hk Ht Hh.
    change (u16 (PSCH_MAX_ERR_MSG_LEN - 1)) with (PSCH_MAX_ERR_MSG_LEN - 1).
    fold (cut (err_message_len (re_fixed e)) PSCH_MAX_ERR_MSG_LEN).
    assert (string_at (heap s) (err_message_dsa e) = b) as Hsb by (unfold string_at; by rewrite Hb).
    rewrite Hsb in *.
    destruct (take_resolved (Z.to_nat (cut (err_message_len (re_fixed e)) PSCH_MAX_ERR_MSG_LEN)) b dst)
      as [Htk Hln]; [done|unfold cut, PSCH_MAX_ERR_MSG_LEN in *; lia|].
    apply HQ; rewrite ?Hh; try done.
    + constructor; [|by eapply intern_inv_string_free|by apply no_uninit_delete].
      constructor; [done|]. intros p Hp.
      destruct (errs_live _ _ Hstr p) as [? [b' Hb']]; [apply elem_of_cons; by right|].
      split; [done|]. exists b'. rewrite lookup_delete_ne; [done|]. by intros <-.
    + by eapply same_at_delete_string.
    + by eapply text_at_delete_string.
    + intros Hleak p b' [Hpe Hp]%lookup_delete_Some. apply Hleak, elem_of_cons in Hp.
      destruct Hp; [congruence|done].
Qed.

(** The first waiting slot's query text moves to the caller's buffer, and the
    slot's reference is dropped. *)
Lemma wp_resolve_query e rest m dst n0 (Q : option bytes * option Z → Sys → Prop) R s :
  area_available s → htab s = Some m → length dst = Z.to_nat PSCH_MAX_QUERY_LEN →
  slots_inv (heap s) m (err_refs rest) (query_refs (e :: rest)) →
  Z.of_nat (length (text_at (heap s) (query_dsa e))) < PSCH_MAX_QUERY_LEN →
  Z.of_nat (length (query_refs rest)) + 1 < 2 ^ 32 →
  (∀ s' m' buf n, keeps s s' → htab s' = Some m' →
     slots_inv (heap s') m' (err_refs rest) (query_refs rest) →
     Forall (same_at (heap s) (heap s')) rest →
     (no_string_leak (heap s) (err_refs rest) → no_string_leak (heap s') (err_refs rest)) →
     n = Z.of_nat (length (text_at (heap s) (query_dsa e))) → length buf = length dst →
     take (Z.to_nat n) buf = text_at (heap s) (query_dsa e) →
     Q (Some buf, Some n) s') →
  wp (PschQueryInternResolveAndRelease (query_dsa e) (Some dst) PSCH_MAX_QUERY_LEN (Some n0)) Q R s.
Proof.
  intros Ha Hm Hdst [Hstr Hint Hu] Hmax Hrefs HQ. rewrite query_refs_cons in *.
  assert (length (blit 0 [0] dst) = length dst) as Hb0
    by (apply length_blit; simpl; unfold PSCH_MAX_QUERY_LEN in *; lia).
  destruct (decide (query_dsa e = InvalidDsaPointer)) as [Hinv|Hne].
  - rewrite Hinv in *. rewrite (text_at_invalid _ _ _ Hint) in *.
    apply wp_resolve_release_invalid; [done|].
    eapply HQ; try done. apply Forall_forall. intros x _. apply same_at_refl.
  - destruct (ref_object _ _ _ (query_dsa e) Hint) as (k & o & Ho & _); [apply elem_of_cons; by left|].
    eapply wp_resolve_release; try done. intros s' m' Hk Hm' Hint' Hheap.
    unfold fit_len. rewrite (proj2 (Z.leb_gt _ _)) by done. rewrite Nat2Z.id.
    destruct (take_resolved (length (text_at (heap s) (query_dsa e)))
      (text_at (heap s) (query_dsa e)) (blit 0 [0] dst)) as [Htk Hln];
      [done|rewrite Hb0; unfold PSCH_MAX_QUERY_LEN in *; lia|].
    rewrite firstn_all in *.
    eapply HQ; try done; try by rewrite ?Nat2Z.id; congruence.
    + constructor; [|done|]; destruct Hheap as [->|[-> Hnin]]; try done; [|by apply no_uninit_delete].
      constructor; [apply Hstr|]. intros p Hp. destruct (errs_live _ _ Hstr p Hp) as [? [b Hb]].
      split; [done|]. exists b. rewrite lookup_delete_ne; [done|]. congruence.
    + destruct Hheap as [->|[-> Hnin]]; [|by eapply same_at_delete_object].
      apply Forall_forall. intros x _. apply same_at_refl.
    + destruct Hheap as [->|[-> Hnin]]; [done|].
      intros Hleak p b [_ Hp]%lookup_delete_Some. by eapply Hleak.
Qed.

Lemma qsize_zero st : is_u64 (q_head st) → is_u64 (q_tail st) →
  qsize st = 0 ↔ q_head st = q_tail st.
Proof.
  unfold qsize, u64, is_u64. intros Hh Ht. split; [|intros ->; by rewrite Z.sub_diag].
  intros [q Hq]%Z.mod_divide; [|lia]. nia.
Qed.

(** The state of the ring once the tail is past its first slot. *)
Definition advanced (st : PschSharedState) (oom : Z) : PschSharedState :=
  st <| dsa_oom_count := oom |> <| q_tail := u64 (q_tail st + 1) |>.

Lemma ring_inv_advanced s s2 st m m2 oom e rest :
  ring_inv s st m → keeps s s2 → htab s2 = Some m2 →
  live st (ring s) = e :: rest → live (advanced st oom) (ring s2) = rest →
  slots_inv (heap s2) m2 (err_refs rest) (query_refs rest) →
  Forall (same_at (heap s) (heap s2)) rest →
  ring_inv (s2 <| psch_shared_state := Some (advanced st oom) |>) (advanced st oom) m2.
Proof.
  intros Hinv Hk Ht2 Hlive Hlive2 Hsi2 Hsame.
  pose proof (inv_slots _ _ _ Hinv) as Hwf. rewrite Hlive in Hwf. apply Forall_cons in Hwf as [_ Hwfs].
  pose proof (length_live st (ring s)) as Hl. rewrite Hlive in Hl. simpl in Hl.
  pose proof (length_live (advanced st oom) (ring s2)) as Hl2. rewrite Hlive2 in Hl2.
  pose proof (qsize_nonneg st). pose proof (qsize_nonneg (advanced st oom)). pose proof (inv_size _ _ _ Hinv).
  constructor; simpl; rewrite ?Hlive2; try apply Hinv; try apply Hsi2; try done.
  - rewrite (keeps_ring _ _ Hk). apply Hinv.
  - apply u64_range.
  - lia.
  - by apply (slots_wf_same (heap s)).
Qed.

(** The event the consumer fills is the slot's, and it is well formed. *)
Lemma filled_event h e ev buf qbuf n qn :
  slot_wf h e → n = cut (err_message_len (re_fixed e)) PSCH_MAX_ERR_MSG_LEN →
  qn = Z.of_nat (length (text_at h (query_dsa e))) →
  length buf = Z.to_nat PSCH_MAX_ERR_MSG_LEN → length qbuf = Z.to_nat PSCH_MAX_QUERY_LEN →
  take (Z.to_nat n) buf = take (Z.to_nat n) (string_at h (err_message_dsa e)) →
  take (Z.to_nat qn) qbuf = text_at h (query_dsa e) →
  let ev' := ev <| ev_fixed := re_fixed e |> <| err_message := buf |>
                <| ev_fixed ::= λ f, f <| err_message_len := n |> |>
                <| query := qbuf |> <| ev_fixed ::= λ f, f <| query_len := qn |> |> in
  view ev' = abs_slot h e ∧ event_ok ev'.
Proof.
  intros Hwf Hn Hqn Hbuf Hqbuf Htake Hqtake ev'.
  pose proof (slot_err_len _ _ Hwf). pose proof (slot_query_max _ _ Hwf).
  assert (0 ≤ query_len (re_fixed e)) by (rewrite (slot_query _ _ Hwf); lia). split.
  - unfold view, abs_slot. simpl. rewrite Hqn in *. rewrite <- Hn. f_equal.
    + rewrite <- (slot_query _ _ Hwf). by destruct (re_fixed e).
    + exact Htake.
    + exact Hqtake.
  - unfold event_ok, is_u16. simpl. rewrite Hbuf, Hqbuf, <- (slot_query _ _ Hwf) in *.
    unfold cut, PSCH_MAX_ERR_MSG_LEN, PSCH_MAX_QUERY_LEN in *. split_and!; try done; lia.
Qed.

Lemma wp_dequeue s st m ev (Q : bool * PschEvent → Sys → Prop) R :
  ring_inv s st m → length (err_message ev) = Z.to_nat PSCH_MAX_ERR_MSG_LEN →
  length (query ev) = Z.to_nat PSCH_MAX_QUERY_LEN →
  (abs s = [] → Q (false, ev) s) →
  (∀ s' n m' ev' d rest,
     let st' := st <| dsa_oom_count := n |> <| q_tail := u64 (q_tail st + 1) |> in
     abs s = d :: rest → view ev' = d → event_ok ev' → abs s' = rest → ring_inv s' st' m' →
     frame s s' → log s' = log s → (leak_free s st → leak_free s' st') → Q (true, ev') s') →
  wp (PschDequeueEvent ev) Q R s.
Proof.
  intros Hinv Hml Hql Hempty Hsome. pose proof (inv_st _ _ _ Hinv) as Hst.
  pose proof (qsize_nonneg st) as Hq0. pose proof (inv_size _ _ _ Hinv) as Hqs.
  destruct (inv_cap _ _ _ Hinv) as (k & Hk & Hc).
  assert (2 ^ k ≤ 2 ^ 31) by (apply Z.pow_le_mono_r; lia).
  unfold PschDequeueEvent, shared_is_null. do 2 wp_step. rewrite Hst.
  wp_step. eapply wp_rd; [done|]. wp_step. eapply wp_rd; [done|].
  destruct (Z.eqb_spec (q_head st) (q_tail st)) as [Heq|Hne].
  { wp_step. apply Hempty. apply (qsize_zero st) in Heq; [|apply Hinv..].
    unfold abs, live. by rewrite Hst, Heq. }
  rewrite <- (qsize_zero st) in Hne by apply Hinv.
  pose proof (live_advance st (ring s) k Hk Hc ltac:(lia) (inv_tail _ _ _ Hinv)) as Hlive.
  set (e := ring s !!! slot_index (capacity st) (q_tail st)) in *.
  set (rest := live (st <| q_tail := u64 (q_tail st + 1) |>) (ring s)) in *.
  pose proof (inv_slots _ _ _ Hinv) as Hwf. rewrite Hlive in Hwf. apply Forall_cons in Hwf as [Hwf Hwfs].
  assert (slots_inv (heap s) m (err_refs (e :: rest)) (query_refs (e :: rest))) as Hsi
    by (rewrite <- Hlive; constructor; apply Hinv).
  assert (length rest = Z.to_nat (qsize st - 1)) as Hlr.
  { pose proof (length_live st (ring s)) as Hl. rewrite Hlive in Hl. simpl in Hl. lia. }
  pose proof (length_query_refs rest) as Hqr.
  wp_step. eapply wp_rd; [done|]. unfold get_slot. do 2 wp_step. fold e.
  wp_step. eapply wp_resolve_err; [by eapply inv_area_available|exact Hwf|exact Hml|exact Hsi|].
  intros s1 buf n Hk1 Ht1 Hsi1 Hsame1 Htext1 Hleak1 Hn Hbuf Htake.
  wp_step. eapply wp_resolve_query; [| |exact Hql|exact Hsi1| | |].
  { apply (keeps_area _ _ Hk1). by eapply inv_area_available. }
  { rewrite Ht1. apply Hinv. }
  { rewrite Htext1, <- (slot_query _ _ Hwf). apply Hwf. }
  { lia. }
  intros s2 m2 qbuf qn Hk2 Ht2 Hsi2 Hsame2 Hleak2 Hqn Hqbuf Hqtake. rewrite Htext1 in *.
  assert (keeps s s2) as Hk12 by by etrans.
  destruct (keeps_st _ _ Hk12 _ Hst) as [oom Hst2].
  wp_step. eapply wp_wr; [done|]. wp_step.
  assert (Forall (same_at (heap s) (heap s2)) rest) as Hsame.
  { rewrite Forall_forall in *. intros x Hx. eapply same_at_trans; eauto. }
  assert (live (st <| dsa_oom_count := oom |> <| q_tail := u64 (q_tail st + 1) |>) (ring s2) = rest) as Hlive2.
  { rewrite (keeps_ring _ _ Hk12). by apply same_queue_live. }
  destruct (filled_event (heap s) e ev buf qbuf n qn) as [Hview Hok]; try done; [by rewrite Hbuf|by rewrite Hqbuf|].
  eapply (Hsome _ oom m2); [|exact Hview|exact Hok|..].
  - unfold abs. by rewrite Hst, Hlive, fmap_cons.
  - unfold abs. simpl. rewrite Hlive2. by apply abs_slots_same.
  - by eapply (ring_inv_advanced s s2).
  - etrans; [by apply keeps_frame|by constructor; auto].
  - apply Hk12.
  - unfold leak_free. simpl. rewrite Hlive2, Hlive. auto.
Qed.

End dequeue.

End RingSpec.
