(* ===== verification/QueueSpec.v ===== *)
(** What the producers' operations do to the queue: [TryEnqueueLocked],
    [PschEnqueueBatch], [PschEnqueueEvent] and the local batch, each against the
    abstract queue [abs] and the counters. *)

From S2P Require Import Prelude Event Shared Dsa Intern Ring LocalBatch InternInv RingInv RingSpec.
Import Event Shared Dsa Intern Ring LocalBatch InternInv RingInv RingSpec.

Module QueueSpec.

(** The warnings a call logs: one if it was the first to drop, with the
    error-capture guard as it then was. *)
Definition warnings (g logged : bool) (drops : nat) : list LogEntry :=
  if negb logged && negb (drops =? 0)%nat
  then [{| log_message := overflow_message; log_guard := g |}] else [].

(** [queued E g s s' st st' acc drops]: from [s] to [s'] the events [acc] were
    appended to the queue, in this order, and [drops] events were dropped;
    everything else of the queue and of the process is as it was. *)
Record queued (E : Env) (g : bool) (s s' : Sys) (st st' : PschSharedState)
    (acc : list PschEvent) (drops : nat) : Prop := {
  qd_inv : ∃ m, ring_inv s' st' m;
  qd_abs : ∃ ds, Forall2 stored acc ds ∧ abs s' = abs s ++ ds;
  qd_enqueued : u64 (enqueued st') = u64 (enqueued st + Z.of_nat (length acc));
  qd_dropped : u64 (dropped st') = u64 (dropped st + Z.of_nat drops);
  qd_capacity : capacity st' = capacity st;
  qd_logged : overflow_logged st' = overflow_logged st || negb (drops =? 0)%nat;
  qd_log : log s' = warnings g (overflow_logged st) drops ++ log s;
  qd_frame : frame s s';
  qd_leak : ¬ alloc_raises E → leak_free s st → leak_free s' st' }.

Section queued.
Context {E : Env} {L : EnvLaws E}.

Lemma queued_refl g s st m : ring_inv s st m → queued E g s s st st [] 0.
Proof.
  intros Hinv. constructor; try done; try by rewrite Z.add_0_r.
  - by exists m.
  - exists []. by rewrite app_nil_r.
  - by rewrite orb_false_r.
  - unfold warnings. by rewrite andb_false_r.
Qed.

Lemma queued_trans g s1 s2 s3 st1 st2 st3 acc1 acc2 d1 d2 :
  queued E g s1 s2 st1 st2 acc1 d1 → queued E g s2 s3 st2 st3 acc2 d2 →
  queued E g s1 s3 st1 st3 (acc1 ++ acc2) (d1 + d2).
Proof.
  intros [_ [ds1 [Hs1 Ha1]] He1 Hd1 Hc1 Hl1 Hg1 Hf1 Hk1] [Hi2 [ds2 [Hs2 Ha2]] He2 Hd2 Hc2 Hl2 Hg2 Hf2 Hk2].
  constructor; try done.
  - exists (ds1 ++ ds2). split; [by apply Forall2_app|]. by rewrite Ha2, Ha1, app_assoc.
  - rewrite He2, <- u64_add_u64_l, He1, u64_add_u64_l, length_app. f_equal. lia.
  - rewrite Hd2, <- u64_add_u64_l, Hd1, u64_add_u64_l. f_equal. lia.
  - congruence.
  - rewrite Hl2, Hl1. destruct (overflow_logged st1), d1, d2; done.
  - rewrite Hg2, Hg1, app_assoc. f_equal. unfold warnings. rewrite Hl1.
    destruct (overflow_logged st1), d1, d2; done.
  - by etrans.
  - auto.
Qed.

(** The same seen from outside a producer's entry point, which also owns the
    local batch: the queue moved by [acc] and [drops], the lock and the guard are
    as they were, every warning was logged with the guard set. *)
Record outcome (s s' : Sys) (st st' : PschSharedState) (acc : list PschEvent) (drops : nat)
    : Prop := {
  oc_inv : ∃ m, ring_inv s' st' m;
  oc_abs : ∃ ds, Forall2 stored acc ds ∧ abs s' = abs s ++ ds;
  oc_enqueued : u64 (enqueued st') = u64 (enqueued st + Z.of_nat (length acc));
  oc_dropped : u64 (dropped st') = u64 (dropped st + Z.of_nat drops);
  oc_capacity : capacity st' = capacity st;
  oc_log : log s' = warnings true (overflow_logged st) drops ++ log s;
  oc_lock : lock_held s' = lock_held s;
  oc_guard : disable_error_capture s' = disable_error_capture s;
  oc_leak : ¬ alloc_raises E → leak_free s st → leak_free s' st' }.

(** [s] and [s1] differ in the process's own variables only. *)
Definition same_shm (s s1 : Sys) : Prop :=
  psch_shared_state s1 = psch_shared_state s ∧ ring s1 = ring s ∧ heap s1 = heap s ∧
  htab s1 = htab s ∧ log s1 = log s ∧ lock_held s1 = lock_held s ∧
  disable_error_capture s1 = disable_error_capture s.

Lemma ring_inv_same_shm s s1 st m :
  ring_inv s st m → same_shm s s1 →
  ring_inv s1 st m ∧ abs s1 = abs s ∧ (leak_free s st → leak_free s1 st).
Proof.
  intros Hinv (H1 & H2 & H3 & H4 & _). eapply ring_inv_ext; try done. rewrite H1. apply Hinv.
Qed.

Lemma queued_outcome s s1 s2 s' st st' acc drops m :
  ring_inv s st m → same_shm s s1 → queued E true s1 s2 st st' acc drops → same_shm s2 s' →
  outcome s s' st st' acc drops.
Proof.
  intros Hinv H1 [[m2 Hi] [ds [Hds Habs]] He Hd Hc Hlg Hlog Hf Hk] H2.
  destruct (ring_inv_same_shm _ _ _ _ Hinv H1) as (_ & Ha1 & Hl1).
  destruct (ring_inv_same_shm _ _ _ _ Hi H2) as (Hi' & Ha2 & Hl2).
  destruct H1 as (_ & _ & _ & _ & Hlog1 & Hlk1 & Hg1), H2 as (_ & _ & _ & _ & Hlog2 & Hlk2 & Hg2).
  destruct Hf as [Hlk Hg _ _ _].
  constructor; try congruence; [by exists m2| |auto].
  exists ds. split; [done|]. congruence.
Qed.

(** Taking the lock and setting the guard around a call, and giving them back. *)
Lemma queued_guarded g s s1 s2 s' st st' acc drops m :
  ring_inv s st m →
  psch_shared_state s1 = psch_shared_state s → ring s1 = ring s → heap s1 = heap s →
  htab s1 = htab s → log s1 = log s → same_attach s s1 →
  queued E g s1 s2 st st' acc drops →
  psch_shared_state s' = psch_shared_state s2 → ring s' = ring s2 → heap s' = heap s2 →
  htab s' = htab s2 → log s' = log s2 → same_attach s2 s' →
  lock_held s' = lock_held s → disable_error_capture s' = disable_error_capture s →
  local_batch s' = local_batch s → local_batch_count s' = local_batch_count s →
  queued E g s s' st st' acc drops.
Proof.
  intros Hinv Hst1 Hr1 Hh1 Ht1 Hl1 Ha1 [[m2 Hi] [ds [Hds Habs]] He Hd Hc Hlg Hlog Hf Hk]
    Hst' Hr' Hh' Ht' Hl' Ha' Hlk Hg' Hb' Hn'.
  assert (psch_shared_state s' = Some st') as Hsome by (rewrite Hst'; apply Hi).
  destruct (ring_inv_ext s2 s' st' st' m2 Hi) as (Hi' & Habs' & Hleak'); try done.
  destruct (ring_inv_ext s s1 st st m Hinv) as (_ & Habs1 & Hleak1); try done.
  { rewrite Hst1. apply Hinv. }
  constructor; try done.
  - by exists m2.
  - exists ds. split; [done|]. by rewrite Habs', Habs, Habs1.
  - by rewrite Hl', Hlog, Hl1.
  - constructor; try congruence. etrans; [exact Ha1|]. etrans; [apply Hf|done].
  - auto.
Qed.

Lemma queued_overflow s st m :
  ring_inv s st m →
  queued E (disable_error_capture s) s (overflowed s st) st
    ((incr_dropped st) <| overflow_logged := true |>) [] 1.
Proof.
  intros Hinv. destruct (ring_inv_overflowed _ _ _ Hinv) as (Hi & Ha & Hl).
  constructor; try done.
  - by exists m.
  - exists []. by rewrite app_nil_r.
  - simpl. by rewrite Z.add_0_r.
  - simpl. by rewrite u64_u64.
  - by rewrite orb_true_r.
  - unfold overflowed, warnings. simpl. by destruct (overflow_logged st).
Qed.

(** ** Under the lock *)

Lemma wp_try_enqueue_queued s st m ev (Q : bool → Sys → Prop) R :
  ring_inv s st m → event_ok ev →
  (∀ s' st', queued E (disable_error_capture s) s s' st st' [ev] 0 → Q true s') →
  (∀ s' st', qsize st = capacity st ∨ psch_debug_force_locked_overflow = true →
     queued E (disable_error_capture s) s s' st st' [] 1 → Q false s') →
  (∀ s' st', alloc_raises E → queued E (disable_error_capture s) s s' st st' [] 0 → R s') →
  wp (TryEnqueueLocked ev (capacity st)) Q R s.
Proof.
  intros Hinv Hev Hok Hfull Herr. eapply wp_try_enqueue; try done.
  - intros s' n m' d st' Hroom Hi Hd Ha Hf Hl Hk. apply (Hok s' st'). constructor; try done.
    + by exists m'.
    + exists [d]. split; [by constructor|done].
    + simpl. by rewrite u64_u64.
    + simpl. by rewrite Z.add_0_r.
    + simpl. by rewrite orb_false_r.
    + unfold warnings. by rewrite andb_false_r.
  - intros Hcond. eapply Hfull; [done|]. by eapply queued_overflow.
  - intros s' n m' Hraise Hi Ha Hf Hl. apply (Herr s' (st <| dsa_oom_count := n |>)); [done|]. constructor; try done; simpl.
    + by exists m'.
    + exists []. by rewrite app_nil_r.
    + by rewrite Z.add_0_r.
    + by rewrite Z.add_0_r.
    + by rewrite orb_false_r.
    + unfold warnings. by rewrite andb_false_r.
Qed.

Lemma wp_enqueue_loop evs n s st m (Q : Z → Sys → Prop) R :
  ring_inv s st m → Forall event_ok evs →
  (∀ s' st' acc drops, queued E (disable_error_capture s) s s' st st' acc drops →
     acc `sublist_of` evs → (length acc + drops)%nat = length evs → Q (n + Z.of_nat (length acc)) s') →
  (∀ s' st' acc drops, alloc_raises E → queued E (disable_error_capture s) s s' st st' acc drops →
     acc `sublist_of` evs → R s') →
  wp (EnqueueLoop evs (capacity st) n) Q R s.
Proof.
  intros Hinv Hevs. revert n s st m Hinv Q.
  induction Hevs as [|ev evs Hev Hevs IH]; intros n s st m Hinv Q HQ HR.
  { apply wp_ret. rewrite <- (Z.add_0_r n).
    apply (HQ s st [] 0%nat); [by eapply queued_refl|done|done]. }
  cbn [EnqueueLoop]. wp_step.
  assert (∀ (ok : bool) s1 st1, queued E (disable_error_capture s) s s1 st st1
            (if ok then [ev] else []) (if ok then 0 else 1)%nat →
    wp (EnqueueLoop evs (capacity st) (if ok then n + 1 else n)) Q R s1) as Hcont.
  { intros ok s1 st1 Hq. destruct (qd_inv _ _ _ _ _ _ _ _ Hq) as [m1 Hi1].
    rewrite <- (qd_capacity _ _ _ _ _ _ _ _ Hq).
    pose proof (frame_guard _ _ (qd_frame _ _ _ _ _ _ _ _ Hq)) as Hg.
    apply (IH _ s1 st1 m1 Hi1); rewrite Hg.
    - intros s' st' acc drops Hq' Hsub Hlen.
      pose proof (queued_trans _ _ _ _ _ _ _ _ _ _ _ Hq Hq') as Hq2.
      specialize (HQ _ _ _ _ Hq2). rewrite length_app in HQ.
      destruct ok; simpl in *.
      + replace (n + 1 + Z.of_nat (length acc)) with (n + Z.of_nat (S (length acc))) by lia.
        apply HQ; [by apply sublist_skip|lia].
      + apply HQ; [by apply sublist_cons|lia].
    - intros s' st' acc drops Hr Hq' Hsub. eapply HR; [done|by eapply queued_trans|].
      destruct ok; [by apply sublist_skip|by apply sublist_cons]. }
  eapply wp_try_enqueue_queued; try done.
  - intros s1 st1 Hq. by apply (Hcont true s1 st1).
  - intros s1 st1 _ Hq. by apply (Hcont false s1 st1).
  - intros s1 st1 Hr Hq. eapply HR; [done|exact Hq|]. apply sublist_nil_l.
Qed.

Lemma wp_overflow_all (evs : list PschEvent) s st m (Q : unit → Sys → Prop) R :
  ring_inv s st m →
  (∀ s' st', queued E (disable_error_capture s) s s' st st' [] (length evs) → Q tt s') →
  wp (for_each (λ _, HandleOverflow) evs) Q R s.
Proof.
  revert s st m. induction evs as [|ev evs IH]; intros s st m Hinv HQ; cbn [for_each].
  { apply wp_ret. eapply HQ. by eapply queued_refl. }
  wp_step. eapply wp_handle_overflow; [apply Hinv|].
  pose proof (queued_overflow _ _ _ Hinv) as Hq. destruct (qd_inv _ _ _ _ _ _ _ _ Hq) as [m1 Hi1].
  eapply IH; [done|]. intros s' st' Hq'. eapply HQ.
  apply (queued_trans _ _ _ _ _ _ _ _ _ _ _ Hq Hq').
Qed.

End queued.

(** ** The entry points *)

(** Closes [queued] after the lock and the guard were given back. *)
Ltac give_back Hinv Hq :=
  destruct (qd_frame _ _ _ _ _ _ _ _ Hq);
  eapply queued_guarded; [exact Hinv|..|exact Hq| | | | | | | | | |]; simpl; auto.

Section entry.
Context {E : Env} {L : EnvLaws E}.

(** Setting the guard, and taking the lock, leave the queue alone. *)
Lemma ring_inv_guard s st m g l :
  ring_inv s st m → ring_inv (s <| disable_error_capture := g |> <| lock_held := l |>) st m.
Proof. intros Hinv. by eapply ring_inv_ext; try done; apply Hinv. Qed.

Lemma wp_suppress g (Q : bool → Sys → Prop) R s :
  Q (disable_error_capture s) (s <| disable_error_capture := g |>) →
  wp (PschSuppressErrorCapture g) Q R s.
Proof. intros HQ. unfold PschSuppressErrorCapture. by wp_run. Qed.

(** The finaliser of the locked sections. *)
Lemma wp_release_restore g (Q : unit → Sys → Prop) R s :
  Q tt (s <| lock_held := false |> <| disable_error_capture := g |>) →
  wp (_ ← LWLockRelease; _ ← PschSuppressErrorCapture g; mret tt) Q R s.
Proof. intros HQ. unfold LWLockRelease. do 2 wp_step. wp_step. apply wp_suppress. by wp_step. Qed.

Lemma wp_enqueue_batch evs count s st m (Q : Z → Sys → Prop) R :
  ring_inv s st m → psch_enabled = true → lock_held s = false → 0 ≤ count →
  Forall event_ok (take (Z.to_nat count) evs) →
  (∀ s' st' acc drops, queued E true s s' st st' acc drops →
     acc `sublist_of` take (Z.to_nat count) evs →
     (length acc + drops)%nat = length (take (Z.to_nat count) evs) →
     Q (Z.of_nat (length acc)) s') →
  (∀ s' st' acc drops, alloc_raises E → queued E true s s' st st' acc drops →
     acc `sublist_of` take (Z.to_nat count) evs → R s') →
  wp (PschEnqueueBatch evs count) Q R s.
Proof.
  intros Hinv Hen Hlk Hcount Hevs HQ HR. pose proof (inv_st _ _ _ Hinv) as Hst.
  unfold PschEnqueueBatch, shared_is_null. do 2 wp_step. rewrite Hst, Hen. cbn [negb orb].
  destruct (Z.eqb_spec count 0) as [->|Hne].
  { wp_step. apply (HQ s st [] 0%nat); [by eapply queued_refl|done|done]. }
  set (l := take (Z.to_nat count) evs) in *.
  wp_step. apply wp_suppress. wp_step. eapply wp_rd; [done|]. wp_step. eapply wp_rd; [done|].
  wp_step. eapply wp_rd; [done|]. fold (qsize st).
  pose proof (ring_inv_guard _ _ _ true (lock_held s) Hinv) as Hinv1.
  pose proof (ring_inv_guard _ _ _ true true Hinv) as Hinv2.
  destruct (Z.leb_spec (capacity st) (qsize st)) as [Hfull|Hroom].
  - wp_step. eapply wp_overflow_all; [exact Hinv1|]. intros s2 st2 Hq.
    wp_step. apply wp_suppress. wp_step.
    apply (HQ _ st2 [] (length l)); [|apply sublist_nil_l|done].
    give_back Hinv Hq.
  - wp_step. unfold LWLockAcquire. unfold wp at 1. simpl. rewrite Hlk.
    apply wp_finally. eapply (wp_enqueue_loop l 0 _ st m); [exact Hinv2|done|..].
    + intros s2 st2 acc drops Hq Hsub Hlen. apply wp_release_restore. rewrite Z.add_0_l. eapply HQ; [|done|done].
      give_back Hinv Hq.
    + intros s2 st2 acc drops Hr Hq Hsub. apply wp_release_restore. eapply HR; [done| |done].
      give_back Hinv Hq.
Qed.

(** A producer that finds the queue lock free. *)
Lemma wp_enqueue_direct ev s st m (Q : bool → Sys → Prop) R :
  ring_inv s st m → event_ok ev → psch_enabled = true → lock_held s = false →
  (lock_available = true ∨ qsize st = capacity st) →
  (∀ s' st', queued E true s s' st st' [ev] 0 → Q true s') →
  (∀ s' st', qsize st = capacity st ∨ psch_debug_force_locked_overflow = true →
     queued E true s s' st st' [] 1 → Q false s') →
  (∀ s' st', alloc_raises E → queued E true s s' st st' [] 0 → R s') →
  wp (PschEnqueueEvent ev) Q R s.
Proof.
  intros Hinv Hev Hen Hlk Hav Hok Hfull Herr. pose proof (inv_st _ _ _ Hinv) as Hst.
  pose proof (inv_size _ _ _ Hinv) as Hsz.
  unfold PschEnqueueEvent, shared_is_null. do 2 wp_step. rewrite Hst, Hen. cbn [negb orb].
  wp_step. apply wp_suppress. do 3 (wp_step; eapply wp_rd; [done|]). fold (qsize st).
  pose proof (ring_inv_guard _ _ _ true (lock_held s) Hinv) as Hinv1.
  pose proof (ring_inv_guard _ _ _ true true Hinv) as Hinv2.
  destruct (Z.leb_spec (capacity st) (qsize st)) as [Hge|Hroom].
  { wp_step. eapply wp_handle_overflow; [done|]. wp_step. apply wp_suppress. wp_step.
    pose proof (queued_overflow _ _ _ Hinv1) as Hq.
    eapply Hfull; [left; lia|]. give_back Hinv Hq. }
  wp_step. unfold LWLockConditionalAcquire, wp at 1. simpl. rewrite Hlk, andb_true_r.
  destruct Hav as [->|Hav]; [|lia].
  apply wp_finally. eapply wp_try_enqueue_queued; [exact Hinv2|done|..].
  - intros s2 st2 Hq. apply wp_release_restore. apply (Hok _ st2). give_back Hinv Hq.
  - intros s2 st2 Hc Hq. apply wp_release_restore. apply (Hfull _ st2); [done|]. give_back Hinv Hq.
  - intros s2 st2 Hr Hq. apply wp_release_restore. apply (Herr _ st2); [done|]. give_back Hinv Hq.
Qed.

(** ** The local batch *)

(** The events buffered by this process, oldest first. *)
Definition pending (s : Sys) : list PschEvent :=
  take (Z.to_nat (local_batch_count s)) (local_batch s).

Record batch_inv (s : Sys) : Prop := {
  bi_size : length (local_batch s) = Z.to_nat PSCH_LOCAL_BATCH_CAPACITY;
  bi_count : 0 ≤ local_batch_count s ≤ PSCH_LOCAL_BATCH_CAPACITY;
  bi_events : Forall event_ok (pending s) }.

Lemma length_pending s : batch_inv s → Z.of_nat (length (pending s)) = local_batch_count s.
Proof.
  intros [Hs Hc _]. unfold pending. rewrite length_take, Hs. unfold PSCH_LOCAL_BATCH_CAPACITY in *. lia.
Qed.

Lemma batch_inv_frame s s' : frame s s' → batch_inv s → batch_inv s'.
Proof.
  intros [] [H1 H2 H3]. constructor; unfold pending in *; congruence.
Qed.

Lemma pending_frame s s' : frame s s' → pending s' = pending s.
Proof. intros []. unfold pending. congruence. Qed.

(** The state with the batch emptied. *)
Definition emptied (s : Sys) : Sys := s <| local_batch_count := 0 |>.

Lemma ring_inv_emptied s st m : ring_inv s st m → ring_inv (emptied s) st m.
Proof. intros Hinv. eapply (ring_inv_ext s (emptied s) st st m); try done. apply Hinv. Qed.

Lemma batch_inv_emptied s : batch_inv s → batch_inv (emptied s).
Proof. intros [H1 H2 H3]. by constructor. Qed.

Lemma wp_flush s st m (Q : Z → Sys → Prop) R :
  ring_inv s st m → batch_inv s → psch_enabled = true → lock_held s = false →
  (∀ s' st' acc drops, queued E true (emptied s) s' st st' acc drops →
     acc `sublist_of` pending s → (length acc + drops)%nat = length (pending s) →
     Q (Z.of_nat (length acc)) s') →
  (∀ s' st' acc drops, alloc_raises E → queued E true (emptied s) s' st st' acc drops → R s') →
  wp PschLocalBatchFlush Q R s.
Proof.
  intros Hinv Hb Hen Hlk HQ HR. unfold PschLocalBatchFlush. do 2 wp_step.
  destruct (Z.eqb_spec (local_batch_count s) 0) as [H0|H0].
  - wp_step. assert (s = emptied s) as Hs by (destruct s; simpl in *; by subst).
    apply (HQ s st [] 0%nat); [|apply sublist_nil_l|by unfold pending; rewrite H0].
    rewrite <- Hs. by eapply queued_refl.
  - do 4 wp_step. apply (wp_enqueue_batch _ _ (emptied s) st m); try done.
    + by apply ring_inv_emptied.
    + apply Hb.
    + apply Hb.
    + intros. by eapply HR.
Qed.

(** The batch after one more event. *)
Lemma pending_add s ev :
  batch_inv s → local_batch_count s < PSCH_LOCAL_BATCH_CAPACITY → event_ok ev →
  let s' := s <| local_batch ::= <[Z.to_nat (local_batch_count s) := ev]> |>
              <| local_batch_count ::= Z.succ |> in
  pending s' = pending s ++ [ev] ∧ batch_inv s'.
Proof.
  intros Hb Hlt Hev s'. pose proof (bi_size _ Hb) as Hlen. destruct (bi_count _ Hb) as [H0 _].
  assert (pending s' = pending s ++ [ev]) as Hp.
  { unfold pending. simpl. rewrite Z2Nat.inj_succ by done.
    rewrite (take_S_r _ _ ev).
    - by rewrite take_insert_ge by lia.
    - apply list_lookup_insert_eq. rewrite Hlen. unfold PSCH_LOCAL_BATCH_CAPACITY in *. lia. }
  split; [done|]. constructor.
  - simpl. by rewrite length_insert.
  - simpl. lia.
  - rewrite Hp. apply Forall_app. split; [apply Hb|by apply Forall_singleton].
Qed.

Lemma wp_local_init s (Q : unit → Sys → Prop) R :
  (∀ s', same_shm s s' → local_batch s' = local_batch s →
     local_batch_count s' = local_batch_count s → Q tt s') →
  wp PschLocalBatchInit Q R s.
Proof. intros HQ. unfold PschLocalBatchInit, on_shmem_exit. wp_run. by apply HQ. Qed.

(** Buffering an event, after a flush when the buffer is full. *)
Lemma wp_local_add ev s st m (Q : unit → Sys → Prop) R :
  ring_inv s st m → batch_inv s → event_ok ev → psch_enabled = true → lock_held s = false →
  (∀ s' st' acc drops old, outcome s s' st st' acc drops → batch_inv s' →
     pending s' = old ++ [ev] → acc ++ old ⊆+ pending s →
     (length acc + drops + length old)%nat = length (pending s) → Q tt s') →
  (∀ s' st' acc drops, alloc_raises E → outcome s s' st st' acc drops → batch_inv s' → R s') →
  wp (PschLocalBatchAdd ev) Q R s.
Proof.
  intros Hinv Hb Hev Hen Hlk HQ HR. unfold PschLocalBatchAdd.
  assert (∀ s1, same_shm s s1 → local_batch s1 = local_batch s →
    local_batch_count s1 = local_batch_count s →
    wp (count ← gets local_batch_count;
        _ ← (if PSCH_LOCAL_BATCH_CAPACITY <=? count then _ ← PschLocalBatchFlush; mret tt else mret tt);
        count ← gets local_batch_count;
        _ ← modify (λ s, s <| local_batch ::= <[Z.to_nat count := ev]> |>);
        modify (λ s, s <| local_batch_count ::= Z.succ |>)) Q R s1) as Hbody.
  { intros s1 H1 Hlb Hlc.
    destruct (ring_inv_same_shm _ _ _ _ Hinv H1) as (Hinv1 & _ & _).
    assert (pending s1 = pending s) as Hp1 by (unfold pending; congruence).
    assert (batch_inv s1) as Hb1 by (destruct Hb; constructor; congruence).
    do 3 wp_step. destruct (Z.leb_spec PSCH_LOCAL_BATCH_CAPACITY (local_batch_count s1)) as [Hfull|Hroom].
    - wp_step. eapply wp_flush; [exact Hinv1|exact Hb1|done|by destruct H1 as (_&_&_&_&_&->&_)|..].
      + intros s2 st2 acc drops Hq Hsub Hlen. wp_run.
        assert (batch_inv s2) as Hb2 by
          (eapply batch_inv_frame; [apply (qd_frame _ _ _ _ _ _ _ _ Hq)|by apply batch_inv_emptied]).
        assert (local_batch_count s2 = 0) as Hc2 by apply (frame_count _ _ (qd_frame _ _ _ _ _ _ _ _ Hq)).
        destruct (pending_add s2 ev) as [Hp' Hb']; [done|by rewrite Hc2|done|].
        eapply (HQ _ st2 acc drops (pending s2)); [|done|done|..].
        * by eapply (queued_outcome s (emptied s1) s2).
        * unfold pending at 1. rewrite Hc2, app_nil_r, <- Hp1. by apply sublist_submseteq.
        * unfold pending at 1. rewrite Hc2, <- Hp1. simpl. lia.
      + intros s2 st2 acc drops Hr Hq. eapply HR; [done|by eapply (queued_outcome s (emptied s1) s2)|].
        eapply batch_inv_frame; [apply (qd_frame _ _ _ _ _ _ _ _ Hq)|by apply batch_inv_emptied].
    - wp_run. destruct (pending_add s1 ev) as [Hp' Hb']; [done..|].
      eapply (HQ _ st [] 0%nat (pending s1)); [|done|done|by rewrite Hp1|by rewrite Hp1].
      eapply (queued_outcome s s1 s1); [done|done|by eapply queued_refl|done]. }
  do 3 wp_step. destruct (local_batch_initialized s).
  - wp_step. by apply Hbody.
  - apply wp_local_init. auto.
Qed.

(** A producer that finds room in the queue but the lock taken. *)
Lemma wp_enqueue_contended ev s st m (Q : bool → Sys → Prop) R :
  ring_inv s st m → psch_enabled = true → lock_available = false → qsize st < capacity st →
  wp (PschLocalBatchAdd ev) (λ _, Q true) R s → wp (PschEnqueueEvent ev) Q R s.
Proof.
  intros Hinv Hen Hav Hroom HQ. pose proof (inv_st _ _ _ Hinv) as Hst.
  unfold PschEnqueueEvent, shared_is_null. do 2 wp_step. rewrite Hst, Hen. cbn [negb orb].
  wp_step. apply wp_suppress. do 3 (wp_step; eapply wp_rd; [done|]). fold (qsize st).
  rewrite (proj2 (Z.leb_gt _ _)) by done.
  wp_step. unfold LWLockConditionalAcquire, wp at 1. rewrite Hav. cbn [andb].
  wp_step. apply wp_suppress. wp_step.
  assert (s <| disable_error_capture := true |> <| disable_error_capture := disable_error_capture s |> = s)
    as -> by by destruct s.
  eapply wp_mono; [|done|exact HQ]. intros ? ? ?. by wp_step.
Qed.

End entry.
End QueueSpec.
