(* ===== verification/QueueThms.v ===== *)
(** The properties of the queue: refinement of a bounded FIFO, accounting of
    every event, and the guarantees of the entry points on every exit. *)

From S2P Require Import Prelude Event Shared Dsa Intern Ring LocalBatch InternInv RingInv RingSpec QueueSpec.
Import Event Shared Dsa Intern Ring LocalBatch InternInv RingInv RingSpec QueueSpec.

Module QueueThms.

(** ** A concrete environment

    An allocator that takes the pointer after the highest one in use, up to a
    number of blocks; a checksum for a hash. *)

Definition next_ptr (h : gmap Z DsaBlock) : Z := 8 + map_fold (λ p _ hi, Z.max p hi) 0 h.

Lemma next_ptr_fresh h : next_ptr h ≠ InvalidDsaPointer ∧ h !! next_ptr h = None.
Proof.
  unfold next_ptr. set (hi := map_fold (λ (p : Z) (_ : DsaBlock) hi, Z.max p hi) 0 h).
  assert (0 ≤ hi ∧ ∀ p b, h !! p = Some b → p ≤ hi) as [H0 Hhi].
  { unfold hi. apply (map_fold_weak_ind (λ hi h, 0 ≤ hi ∧ ∀ p b, h !! p = Some b → p ≤ hi)).
    - split; [done|]. intros p b. by rewrite lookup_empty.
    - intros i x m r _ [Hr Hm]. split; [lia|]. intros p b. rewrite lookup_insert.
      case_decide; [intros _; lia|]. intros Hp. specialize (Hm _ _ Hp). lia. }
  split; [unfold InvalidDsaPointer; lia|].
  destruct (h !! (8 + hi)) as [b|] eqn:Hb; [|done]. specialize (Hhi _ _ Hb). lia.
Qed.

Definition demo_env (blocks : nat) (avail force : bool) : Env := {|
  psch_enabled := true;
  psch_debug_force_locked_overflow := force;
  psch_queue_capacity := 4;
  psch_string_area_size := 64;
  dsa_pick := λ h _, if (size h <? blocks)%nat then AllocOk (next_ptr h) else AllocOom;
  hash_any_extended := λ b, foldr (λ c acc, u64 (acc * 31 + c)) 7 b;
  get_hash_value := λ k, u32 (k_query_hash k + k_queryid k);
  hash_has_room := λ m _, Z.of_nat (size m) <? 4;
  lock_available := avail;
  hash_estimate_size := λ n sz, n * sz + 1024;
  GetCurrentTimestamp := 700000000 |}.

#[export] Instance demo_laws blocks avail force : EnvLaws (demo_env blocks avail force).
Proof.
  constructor. simpl. intros h sz p. destruct (size h <? blocks)%nat; [|done].
  intros [= <-]. apply next_ptr_fresh.
Qed.

Lemma demo_no_raise blocks avail force : ¬ alloc_raises (demo_env blocks avail force).
Proof. intros (h & n & H). simpl in H. by destruct (size h <? blocks)%nat. Qed.

(** An empty queue of [2 ^ k] slots whose positions are [pos]. *)
Definition demo_state (k pos : Z) : PschSharedState := {|
  raw_dsa_area := Some 2512; dsa_oom_count := 0; capacity := 2 ^ k;
  q_head := pos; enqueued := 0; dropped := 0; overflow_logged := false;
  q_tail := pos; exported := 0; send_failures := 0; last_success_ts := 0; last_error_ts := 0;
  last_error_text := repeat 0 256; bgworker_pid := 0 |}.

Definition demo_sys (k pos : Z) : Sys := {|
  psch_shared_state := Some (demo_state k pos);
  ring := repeat zero_entry (Z.to_nat (2 ^ k));
  heap := ∅; dsa_refcnt := 2; htab := Some ∅; lock_held := false; psch_dsa := false;
  psch_dsa_exit_hook_registered := false; disable_error_capture := false;
  local_batch := repeat zero_event 8; local_batch_count := 0; local_batch_initialized := false;
  exit_callbacks := [PschShmemShutdown]; xact_callback_registered := false;
  addin_lock_held := false; log := [] |}.

Lemma demo_inv k pos : 0 ≤ k ≤ 31 → is_u64 pos → ring_inv (demo_sys k pos) (demo_state k pos) ∅.
Proof.
  intros Hk Hpos. assert (qsize (demo_state k pos) = 0) as Hq.
  { unfold qsize. simpl. by rewrite Z.sub_diag. }
  assert (live (demo_state k pos) (ring (demo_sys k pos)) = []) as Hl by (unfold live; by rewrite Hq).
  pose proof (pow2_pos k).
  constructor; rewrite ?Hl; try done.
  - by exists k.
  - simpl. rewrite repeat_length. lia.
  - rewrite Hq. simpl. lia.
  - apply strings_inv_empty.
  - apply intern_inv_empty.
Qed.

Lemma demo_batch k pos : batch_inv (demo_sys k pos).
Proof. constructor; [done|done|constructor]. Qed.

Definition text (s : string) (size : nat) : bytes :=
  let b := bytes_of_string s in b ++ repeat 0 (size - length b).

Definition demo_event (qid : Z) (q err : string) : PschEvent :=
  zero_event <| ev_fixed ::= λ f, f <| identity ::= λ i, i <| queryid := qid |> |>
                                    <| query_len := Z.of_nat (String.length q) |>
                                    <| err_message_len := Z.of_nat (String.length err) |> |>
             <| query := text q (Z.to_nat PSCH_MAX_QUERY_LEN) |>
             <| err_message := text err (Z.to_nat PSCH_MAX_ERR_MSG_LEN) |>.

Ltac event_ok_tac := split_and!; by vm_compute.

(** One environment with memory to spare, and an empty queue of four slots
    whose positions are about to wrap around. *)
Definition demo1 : Env := demo_env 9 true false.
Definition demo_st1 : PschSharedState := demo_state 2 (2 ^ 64 - 1).
Definition demo_sys1 : Sys := demo_sys 2 (2 ^ 64 - 1).
Definition demo_ev1 : PschEvent := demo_event 42 "SELECT 1" "division by zero".

#[export] Instance demo1_laws : EnvLaws demo1.
Proof. apply demo_laws. Qed.
Lemma demo_inv1 : ring_inv demo_sys1 demo_st1 ∅.
Proof. apply demo_inv; [lia|done]. Qed.
Lemma demo_batch1 : batch_inv demo_sys1.
Proof. apply demo_batch. Qed.
Lemma demo_ev1_ok : event_ok demo_ev1.
Proof. event_ok_tac. Qed.

(** ** Enqueue *)

Lemma wp_enqueue_event {E : Env} {L : EnvLaws E} s st m ev :
  ring_inv s st m → batch_inv s → event_ok ev → psch_enabled = true → lock_held s = false →
  wp (PschEnqueueEvent ev)
    (λ ok s', ∃ st' acc drops, outcome s s' st st' acc drops ∧ batch_inv s' ∧
       acc ++ pending s' ⊆+ pending s ++ [ev] ∧
       (length acc + drops + length (pending s') = length (pending s) + 1)%nat ∧
       (if ok : bool then ev ∈ acc ++ pending s'
        else drops = 1%nat ∧ acc = [] ∧ pending s' = pending s))
    (λ s', alloc_raises E ∧ ∃ st' acc drops, outcome s s' st st' acc drops ∧ batch_inv s') s.
Proof.
  intros Hinv Hb Hev Hen Hlk.
  assert (∀ s' st' acc drops, queued E true s s' st st' acc drops →
    outcome s s' st st' acc drops ∧ batch_inv s' ∧ pending s' = pending s) as Hdirect.
  { intros s' st' acc drops Hq. split_and!; [by eapply queued_outcome|..].
    - by eapply batch_inv_frame; [apply (qd_frame _ _ _ _ _ _ _ _ Hq)|].
    - apply pending_frame, (qd_frame _ _ _ _ _ _ _ _ Hq). }
  destruct (decide (lock_available = true ∨ qsize st = capacity st)) as [Hav|Hcont].
  - eapply wp_enqueue_direct; try done.
    + intros s' st' Hq. destruct (Hdirect _ _ _ _ Hq) as (Ho & Hb' & Hp).
      exists st', [ev], 0%nat. rewrite Hp. split_and!; try done; [|simpl; lia|set_solver].
      by rewrite (Permutation_app_comm [ev]).
    + intros s' st' _ Hq. destruct (Hdirect _ _ _ _ Hq) as (Ho & Hb' & Hp).
      exists st', [], 1%nat. rewrite Hp. split_and!; try done; [by apply submseteq_inserts_r|simpl; lia].
    + intros s' st' Hr Hq. destruct (Hdirect _ _ _ _ Hq) as (Ho & Hb' & Hp).
      split; [done|]. by exists st', [], 0%nat.
  - pose proof (inv_size _ _ _ Hinv).
    assert (lock_available = false) as Hav by (destruct lock_available; [by destruct Hcont; left|done]).
    assert (qsize st ≠ capacity st) as Hroom by (intros Heq; by destruct Hcont; right).
    eapply wp_enqueue_contended; [done|done|done|lia|].
    eapply wp_local_add; try done.
    + intros s' st' acc drops old Ho Hb' Hp Hsub Hlen. exists st', acc, drops.
      rewrite Hp. split_and!; try done; [|rewrite !length_app; simpl; lia|set_solver].
      rewrite app_assoc. by apply submseteq_skips_r.
    + intros s' st' acc drops Hr Ho Hb'. split; [done|]. by exists st', acc, drops.
Qed.



(** C5: The consumer takes the events in queue order. On an empty queue it
    returns [false] and changes nothing; otherwise the event it returns is exactly
    the first of the abstract queue (every fixed field, the error message and the
    query text), the queue loses that event and no other, the texts' storage is
    given back, and the event's buffers hold NUL-terminated texts within their
    sizes. It never fails. *)
Theorem dequeue_takes_first s st m ev
  (Hinv : ring_inv s st m) (Herr : length (err_message ev) = Z.to_nat PSCH_MAX_ERR_MSG_LEN)
  (Hq : length (query ev) = Z.to_nat PSCH_MAX_QUERY_LEN) :
  wp (PschDequeueEvent ev)
    (λ r s', match abs s with
             | [] => r = (false, ev) ∧ s' = s
             | d :: rest =>
               r.1 = true ∧ view r.2 = d ∧ event_ok r.2 ∧ abs s' = rest ∧
               (∃ st' m', ring_inv s' st' m' ∧ enqueued st' = enqueued st ∧
                          dropped st' = dropped st ∧ q_tail st' = u64 (q_tail st + 1) ∧
                          (leak_free s st → leak_free s' st')) ∧
               lock_held s' = lock_held s ∧ log s' = log s
             end)
    (λ _, False) s.
Proof.
  eapply wp_dequeue; try done.
  - by intros ->.
  - intros s' n m' ev' d rest st' -> Hv Hok Ha Hi Hf Hl Hk. split_and!; try done; [|apply Hf].
    by exists st', m'.
Qed.

(** The queue of [demo_sys1] after one enqueue. *)
Definition demo_sys2 : Sys := (TryEnqueueLocked (E := demo1) demo_ev1 4 demo_sys1).2.

Lemma demo_inv2 : ∃ st m, ring_inv demo_sys2 st m.
Proof.
  destruct (wp_run_spec (TryEnqueueLocked (E := demo1) demo_ev1 4) (λ _ s', ∃ st m, ring_inv s' st m)
    (λ s', ∃ st m, ring_inv s' st m) demo_sys1) as (r & s' & Heq & H).
  - apply (wp_try_enqueue_queued demo_sys1 demo_st1 ∅); [apply demo_inv1|apply demo_ev1_ok|..].
    all: intros; match goal with Hq : queued _ _ _ _ _ _ _ _ |- _ => destruct Hq end; eauto.
  - unfold demo_sys2. rewrite Heq. by destruct r.
Qed.

Lemma dequeue_takes_first_witness :
  (PschDequeueEvent zero_event demo_sys2).1 ≠ None ∧
  ∃ d r s', abs demo_sys2 = [d] ∧ PschDequeueEvent zero_event demo_sys2 = (Some r, s') ∧
    view r.2 = d ∧ abs s' = [].
Proof.
  split; [by vm_compute|]. destruct demo_inv2 as (st & m & Hinv).
  pose proof (wp_run_spec _ _ _ _ (dequeue_takes_first demo_sys2 st m zero_event
    Hinv eq_refl eq_refl)) as (r & s' & Heq & H).
  assert (∃ d, abs demo_sys2 = [d]) as [d Hd] by (eexists; vm_compute; reflexivity).
  rewrite Hd in H. destruct r as [r|]; [|destruct H]. destruct H as (_ & Hv & _ & Ha & _).
  exists d, r, s'. split; [exact Hd|]. split; [exact Heq|]. split; [exact Hv|exact Ha].
Defined.

(** ** Whole runs *)

Inductive QueueOp : Type := Produce (ev : PschEvent) | Consume.

(** A run of producer and consumer calls, in the order the lock and the
    positions serialise them: the events for which the producer was told [true],
    the events handed to the consumer, and the final state. *)
Fixpoint run_queue {E : Env} (ops : list QueueOp) (s : Sys) : list PschEvent * list Delivered * Sys :=
  match ops with
  | [] => ([], [], s)
  | Produce ev :: rest =>
    match PschEnqueueEvent ev s with
    | (Some true, s1) => let '(acc, del, s') := run_queue rest s1 in (ev :: acc, del, s')
    | (_, s1) => run_queue rest s1
    end
  | Consume :: rest =>
    match PschDequeueEvent zero_event s with
    | (Some (true, ev), s1) => let '(acc, del, s') := run_queue rest s1 in (acc, view ev :: del, s')
    | (_, s1) => run_queue rest s1
    end
  end.

Definition op_ok (o : QueueOp) : Prop := match o with Produce ev => event_ok ev | Consume => True end.


Definition demo_ops : list QueueOp :=
  [Produce demo_ev1; Produce demo_ev1; Consume; Produce demo_ev1; Consume; Consume].

Lemma demo_ops_ok : Forall op_ok demo_ops.
Proof. repeat first [apply Forall_cons_2 | apply Forall_nil_2]; try exact demo_ev1_ok; exact I. Qed.


(** ** Batches *)

(** C34: A batch is enqueued in order under one lock acquisition: it returns the
    number of events appended, the appended events are a subsequence of the batch,
    every other one was dropped and counted, and the lock and the error-capture
    guard are released and restored on return and on an allocator error alike. *)
Theorem enqueue_batch_accounts {E : Env} {L : EnvLaws E} s st m evs count
  (Hinv : ring_inv s st m) (Hen : psch_enabled = true) (Hlk : lock_held s = false)
  (Hcount : 0 ≤ count ≤ Z.of_nat (length evs)) (Hevs : Forall event_ok evs) :
  wp (PschEnqueueBatch evs count)
    (λ n s', ∃ st' acc drops, queued E true s s' st st' acc drops ∧
       acc `sublist_of` take (Z.to_nat count) evs ∧
       n = Z.of_nat (length acc) ∧ n + Z.of_nat drops = count)
    (λ s', alloc_raises E ∧ ∃ st' acc drops, queued E true s s' st st' acc drops ∧
       acc `sublist_of` take (Z.to_nat count) evs) s.
Proof.
  eapply wp_enqueue_batch; try done; [lia|by apply Forall_take|..].
  - intros s' st' acc drops Hq Hsub Hlen. exists st', acc, drops. split_and!; try done.
    rewrite length_take in Hlen. lia.
  - intros s' st' acc drops Hr Hq Hsub. split; [done|]. by exists st', acc, drops.
Qed.

Lemma enqueue_batch_accounts_witness :
  (PschEnqueueBatch (E := demo1) [demo_ev1; demo_ev1] 2 demo_sys1).1 = Some 2 ∧
  ∃ r s', PschEnqueueBatch (E := demo1) [demo_ev1; demo_ev1] 2 demo_sys1 = (r, s') ∧
    lock_held s' = false ∧ disable_error_capture s' = false.
Proof.
  split; [by vm_compute|].
  pose proof (wp_run_spec _ _ _ _ (enqueue_batch_accounts (E := demo1) demo_sys1 demo_st1 ∅
    [demo_ev1; demo_ev1] 2 demo_inv1 eq_refl eq_refl ltac:(simpl; lia)
    ltac:(repeat apply Forall_cons_2; [exact demo_ev1_ok..|apply Forall_nil_2])))
    as (r & s' & Heq & H).
  exists r, s'. split; [exact Heq|]. destruct r.
  - destruct H as (st' & acc & drops & [_ _ _ _ _ _ _ [-> -> _ _ _] _] & _). split; reflexivity.
  - destruct H as (_ & st' & acc & drops & [_ _ _ _ _ _ _ [-> -> _ _ _] _] & _). split; reflexivity.
Defined.

(** The transaction events that end a transaction. *)
Definition ends_transaction (e : XactEvent) : bool :=
  match e with
  | XACT_EVENT_COMMIT | XACT_EVENT_PARALLEL_COMMIT | XACT_EVENT_ABORT
  | XACT_EVENT_PARALLEL_ABORT | XACT_EVENT_PREPARE => true
  | _ => false
  end.


End QueueThms.
