(* ===== verification/BatchThms.v ===== *)
(** More properties of the queue: memory given back when it is empty, the local
    batch when the extension is switched off, and process exit. *)

From S2P Require Import Prelude Event Shared Dsa Intern Ring LocalBatch InternInv RingInv RingSpec QueueSpec QueueThms.
Import Event Shared Dsa Intern Ring LocalBatch InternInv RingInv RingSpec QueueSpec QueueThms.

Module BatchThms.

(** ** Transaction end *)

(** A process that found the lock taken and buffered one event. *)
Definition demo2 : Env := demo_env 9 false false.
Definition demo_sys3 : Sys :=
  demo_sys1 <| local_batch := demo_ev1 :: repeat zero_event 7 |> <| local_batch_count := 1 |>
            <| local_batch_initialized := true |>
            <| exit_callbacks := [PschLocalBatchShutdown; PschShmemShutdown] |>.

Lemma demo_inv3 : ring_inv demo_sys3 demo_st1 ∅.
Proof. by apply (ring_inv_same_shm demo_sys1 demo_sys3 _ _ demo_inv1). Qed.

Lemma demo_batch3 : batch_inv demo_sys3.
Proof. constructor; [done|done|]. apply Forall_cons_2; [exact demo_ev1_ok|apply Forall_nil_2]. Qed.

(** ** Memory *)

Lemma intern_inv_nil m h : intern_inv m h [] → m = ∅ ∧ ∀ p o, h !! p ≠ Some (DsaObject o).
Proof.
  intros Hinv. assert (m = ∅) as ->.
  { apply map_empty. intros k. destruct (m !! k) as [e|] eqn:Hk; [|done].
    destruct (entry_refcount _ _ _ Hinv _ _ Hk) as [Hc Hp]. unfold count in Hc. simpl in Hc. lia. }
  split; [done|]. intros p o Hp. destruct (object_entry _ _ _ Hinv _ _ Hp) as (e & He & _).
  by rewrite lookup_empty in He.
Qed.

(** The queue's storage is proportional to what waits in it: as long as no
    allocation failed by an error, an empty queue has no live allocation in the
    DSA area, neither an error message nor an interned query, and no entry in the
    intern table. *)
Theorem empty_queue_holds_no_memory s st m
  (Hinv : ring_inv s st m) (Hleak : leak_free s st) (Hempty : abs s = []) :
  heap s = ∅ ∧ m = ∅.
Proof.
  assert (live st (ring s) = []) as Hl.
  { unfold abs in Hempty. rewrite (inv_st _ _ _ Hinv) in Hempty. by apply fmap_nil_inv in Hempty. }
  pose proof (inv_intern _ _ _ Hinv) as Hint. rewrite Hl in Hint.
  apply intern_inv_nil in Hint as [-> Hno]. split; [|done].
  apply map_empty. intros p. destruct (heap s !! p) as [[n|b|o]|] eqn:Hp; [..|done]; exfalso.
  - by apply (inv_uninit _ _ _ Hinv p n).
  - specialize (Hleak _ _ Hp). rewrite Hl in Hleak. by apply elem_of_nil in Hleak.
  - by eapply Hno.
Qed.

Lemma demo_leak_free1 : leak_free demo_sys1 demo_st1.
Proof. intros p b. change (heap demo_sys1) with (∅ : gmap Z DsaBlock). by rewrite lookup_empty. Qed.

Lemma empty_queue_holds_no_memory_witness :
  heap demo_sys1 = ∅ ∧ (∅ : gmap PschQueryInternKey PschQueryInternEntry) = ∅.
Proof.
  apply (empty_queue_holds_no_memory demo_sys1 demo_st1 ∅ demo_inv1 demo_leak_free1). reflexivity.
Defined.

(** The intern table is never full: it is created with as many elements as
    the queue has slots, and every entry is referenced by a waiting event, so when
    the queue has room for an event the table has room for its query. *)
Theorem intern_table_never_full {E : Env} s st m k
  (Hinv : ring_inv s st m) (Hsized : htab_sized E) (Hcap : capacity st = PschQueryInternMaxEntries)
  (Hroom : qsize st < capacity st) :
  hash_has_room m k = true.
Proof.
  apply Hsized. pose proof (intern_inv_size _ _ _ (inv_intern _ _ _ Hinv)) as Hsize.
  pose proof (length_query_refs (live st (ring s))) as Hrefs. rewrite length_live in Hrefs.
  pose proof (qsize_nonneg st). unfold PschQueryInternMaxEntries in *. lia.
Qed.

Lemma demo_sized blocks avail force : htab_sized (demo_env blocks avail force).
Proof. intros m k Hm. simpl in *. by apply Z.ltb_lt. Qed.

Lemma intern_table_never_full_witness :
  hash_has_room (Env := demo1) ∅ (MakeKey (E := demo1) 5 42 (bytes_of_string "SELECT 1") 8) = true.
Proof.
  apply (intern_table_never_full (E := demo1) demo_sys1 demo_st1 ∅ _ demo_inv1);
    [apply demo_sized|reflexivity|vm_compute; reflexivity].
Defined.


(** ** Switched off *)

(** When the extension is disabled between buffering and the end of the
    transaction, a flush empties the batch without touching shared memory: the
    buffered events are neither in the queue nor counted as dropped. *)
Theorem disabled_flush_discards {E : Env} s (Hoff : psch_enabled = false) :
  PschLocalBatchFlush s = (Some 0, emptied s).
Proof.
  unfold PschLocalBatchFlush, PschEnqueueBatch. unfold mbind, M_bind, gets.
  destruct (Z.eqb_spec (local_batch_count s) 0) as [H0|H0].
  - destruct s. simpl in *. by subst.
  - simpl. rewrite Hoff. by destruct (psch_shared_state s).
Qed.

Definition demo_off : Env := {|
  psch_enabled := false; psch_debug_force_locked_overflow := false; psch_queue_capacity := 4;
  psch_string_area_size := 64; dsa_pick := λ _ _, AllocOom; hash_any_extended := λ _, 0;
  get_hash_value := λ _, 0; hash_has_room := λ _ _, false; lock_available := false;
  hash_estimate_size := λ n sz, n * sz; GetCurrentTimestamp := 0 |}.

Lemma disabled_flush_discards_witness :
  length (pending demo_sys3) = 1%nat ∧
  PschLocalBatchFlush (E := demo_off) demo_sys3 = (Some 0, emptied demo_sys3).
Proof. split; [reflexivity|]. apply (disabled_flush_discards (E := demo_off)). reflexivity. Defined.

(** ** Process exit *)

Definition callbacks_left (s : Sys) : nat :=
  (2 * length (other_callbacks s) + count is_detach (exit_callbacks s))%nat.

(** What holds between two exit callbacks; [flushed] once the batch's callback
    has run. *)
Record exiting (refs : Z) (flushed : bool) (s : Sys) : Prop := {
  ex_inv : ∃ st m, ring_inv s st m;
  ex_batch : batch_inv s;
  ex_attach : attach_inv s;
  ex_lock : lock_held s = false;
  ex_refs : other_refs s = refs;
  ex_flushed : flushed = true → pending s = [] }.

(** The state after taking the first callback off the list. *)
Definition popped (s : Sys) (rest : list ExitCallback) : Sys := s <| exit_callbacks := rest |>.

Lemma pop_other s cb rest :
  exit_callbacks s = cb :: rest → is_detach cb = false →
  other_callbacks s = cb :: other_callbacks (popped s rest) ∧
  count is_detach (exit_callbacks s) = count is_detach rest.
Proof.
  intros Hcbs Hcb. unfold other_callbacks. simpl. rewrite Hcbs, count_cons, filter_cons, Hcb.
  by case_decide.
Qed.

Lemma exiting_popped refs fl s cb rest :
  exiting refs fl s → exit_callbacks s = cb :: rest → is_detach cb = false →
  exiting refs fl (popped s rest).
Proof.
  intros [(st & m & Hi) Hb [Ha1 Ha2] Hl Hr Hf] Hcbs Hcb.
  destruct (pop_other _ _ _ Hcbs Hcb) as [_ Hc].
  constructor; try done.
  - exists st, m. by apply (ring_inv_same_shm s).
  - by destruct Hb.
  - split; [done|]. simpl. congruence.
Qed.

Section exit.
Context {E : Env} {L : EnvLaws E} (Hen : psch_enabled = true) (Hraise : ¬ alloc_raises E).

Lemma wp_exit_shutdown refs fl s (Q : unit → Sys → Prop) R :
  exiting refs fl s →
  (∀ s', exiting refs fl s' → exit_callbacks s' = exit_callbacks s → Q tt s') →
  wp ShmemShutdown Q R s.
Proof.
  intros [(st & m & Hi) Hb Ha Hl Hr Hf] HQ. pose proof (inv_st _ _ _ Hi) as Hst.
  unfold ShmemShutdown, shared_is_null. do 2 wp_step. rewrite Hst.
  do 3 (wp_step; eapply wp_rd; [done|]). wp_step. apply HQ; [|done]. constructor; try done.
  - exists st, m. by apply (ring_inv_ext s _ st st m).
  - by destruct Hb.
Qed.

Lemma wp_exit_detach refs fl s rest (Q : unit → Sys → Prop) R :
  exiting refs fl s → exit_callbacks s = PschDsaDetachOnExit :: rest →
  (∀ s', exiting refs fl s' → exit_callbacks s' = rest → psch_dsa s' = false → Q tt s') →
  wp DetachOnExit Q R (popped s rest).
Proof.
  intros [(st & m & Hi) Hb [Ha1 Ha2] Hl Hr Hf] Hcbs HQ. pose proof (inv_st _ _ _ Hi) as Hst.
  rewrite Hcbs, count_cons in Ha2. simpl in Ha2.
  assert (psch_dsa s = true ∧ count is_detach rest = 0%nat) as [Hd Hc] by (destruct (psch_dsa s); lia).
  unfold DetachOnExit, shared_is_null. wp_run. simpl. rewrite Hst. wp_step. eapply wp_rd; [exact Hst|].
  destruct (raw_dsa_area st) as [a|] eqn:Hraw; [|by destruct (inv_area _ _ _ Hi)].
  wp_run. apply HQ; [|done..]. constructor; try done.
  - exists st, m. by apply (ring_inv_ext s _ st st m).
  - by destruct Hb.
  - unfold other_refs in *. simpl. rewrite Hd in Hr. lia.
Qed.

Lemma wp_exit_flush refs fl s (Q : unit → Sys → Prop) R :
  exiting refs fl s →
  (∀ s', exiting refs true s' → other_callbacks s' = other_callbacks s → Q tt s') →
  wp LocalBatchShutdown Q R s.
Proof.
  intros [(st & m & Hi) Hb Ha Hl Hr Hf] HQ. unfold LocalBatchShutdown. wp_step.
  eapply wp_flush; try done. intros s' st' acc drops Hq _ _. wp_step.
  pose proof (qd_frame _ _ _ _ _ _ _ _ Hq) as Hfr. destruct (frame_attach _ _ Hfr) as [Sa Sr Sc].
  apply HQ; [|exact Sc]. constructor.
  - exists st'. apply Hq.
  - eapply batch_inv_frame; [exact Hfr|by apply batch_inv_emptied].
  - by apply Sa.
  - by rewrite (frame_lock _ _ Hfr).
  - by rewrite Sr.
  - intros _. by rewrite (pending_frame _ _ Hfr).
Qed.

Lemma wp_shmem_exit fuel refs fl s :
  exiting refs fl s → (callbacks_left s < fuel)%nat →
  wp (shmem_exit fuel)
    (λ _ s', exiting refs (fl || bool_decide (PschLocalBatchShutdown ∈ exit_callbacks s)) s' ∧
             exit_callbacks s' = []) (λ _, False) s.
Proof.
  revert fl s. induction fuel as [|fuel IH]; intros fl s Hex Hfuel; [lia|].
  cbn [shmem_exit]. do 2 wp_step. destruct (exit_callbacks s) as [|cb rest] eqn:Hcbs.
  { wp_step. rewrite orb_false_r. done. }
  do 3 wp_step. fold (popped s rest).
  assert (∀ fl' s', exiting refs fl' s' → (callbacks_left s' < callbacks_left s)%nat →
    fl || bool_decide (PschLocalBatchShutdown ∈ cb :: rest) =
      fl' || bool_decide (PschLocalBatchShutdown ∈ exit_callbacks s') →
    wp (shmem_exit fuel) (λ _ s'', exiting refs (fl || bool_decide (PschLocalBatchShutdown ∈ cb :: rest)) s''
      ∧ exit_callbacks s'' = []) (λ _, False) s') as Hgo.
  { intros fl' s' Hs' Hlt ->. apply IH; [done|lia]. }
  destruct cb; cbn [run_callback].
  - destruct (pop_other s _ rest Hcbs eq_refl) as [Ho Hc].
    eapply wp_exit_shutdown; [by eapply exiting_popped|]. intros s' Hs' Hcb'.
    apply (Hgo fl s' Hs').
    + unfold callbacks_left. rewrite Ho, Hc. unfold other_callbacks. rewrite Hcb'. simpl. lia.
    + rewrite Hcb'. f_equal. apply bool_decide_ext. simpl. rewrite elem_of_cons. naive_solver.
  - eapply wp_exit_detach; [exact Hex|done|]. intros s' Hs' Hcb' Hd. apply (Hgo fl s' Hs').
    + unfold callbacks_left, other_callbacks. rewrite Hcbs, Hcb', filter_cons, count_cons. simpl. lia.
    + rewrite Hcb'. f_equal. apply bool_decide_ext. rewrite elem_of_cons. naive_solver.
  - destruct (pop_other s _ rest Hcbs eq_refl) as [Ho Hc].
    eapply wp_exit_flush; [by eapply exiting_popped|]. intros s' Hs' Hcb'.
    apply (Hgo true s' Hs').
    + unfold callbacks_left. rewrite Ho, Hcb'. simpl.
      destruct (ex_attach _ _ _ Hs') as [_ ->]. destruct (psch_dsa s'); lia.
    + rewrite bool_decide_true by (apply elem_of_cons; by left). by rewrite orb_true_r.
Qed.

End exit.

(** C36: Process exit completes and loses nothing that was buffered: however the
    callbacks were registered, running them (a callback may register another, when
    the flush attaches to the DSA area after it was detached) ends within two
    rounds per callback, the process's reference on the DSA area is given back
    exactly once, and if the batch's callback was registered the batch is empty. *)
Theorem process_exit_completes {E : Env} {L : EnvLaws E} s st m
  (Hinv : ring_inv s st m) (Hb : batch_inv s) (Ha : attach_inv s) (Hlk : lock_held s = false)
  (Hen : psch_enabled = true) (Hraise : ¬ alloc_raises E) :
  wp (shmem_exit (S (2 * length (exit_callbacks s))))
    (λ _ s', exit_callbacks s' = [] ∧ psch_dsa s' = false ∧ dsa_refcnt s' = other_refs s ∧
       (∃ st' m', ring_inv s' st' m') ∧
       (PschLocalBatchShutdown ∈ exit_callbacks s → pending s' = []))
    (λ _, False) s.
Proof.
  eapply wp_mono; [| |apply (wp_shmem_exit Hen Hraise _ (other_refs s) false)]; [|done|..].
  - intros _ s' [[Hex Hb' [_ Hc] Hl Hr Hf] Hnil]. rewrite Hnil in Hc. unfold other_refs in *.
    assert (psch_dsa s' = false) as Hd by by destruct (psch_dsa s').
    rewrite Hd in Hr. split_and!; try done; [lia|]. intros Hin. apply Hf. by rewrite bool_decide_true.
  - constructor; try done. eauto.
  - unfold callbacks_left, other_callbacks.
    pose proof (count_split is_detach (exit_callbacks s)). lia.
Qed.

Lemma process_exit_completes_witness :
  exit_callbacks demo_sys3 = [PschLocalBatchShutdown; PschShmemShutdown] ∧
  ∃ r s', shmem_exit (E := demo2) 5 demo_sys3 = (r, s') ∧ pending s' = [] ∧ dsa_refcnt s' = 2.
Proof.
  split; [reflexivity|].
  destruct (wp_run_spec _ _ _ _ (process_exit_completes (E := demo2) (L := demo_laws _ _ _) demo_sys3
    demo_st1 ∅ demo_inv3 demo_batch3 (conj eq_refl eq_refl) eq_refl eq_refl (demo_no_raise _ _ _)))
    as (r & s' & Heq & H).
  exists r, s'. split; [exact Heq|]. destruct r; [|done].
  destruct H as (_ & _ & Hr & _ & Hp). split; [|exact Hr]. apply Hp. apply elem_of_cons. by left.
Defined.

End BatchThms.
