(* ===== verification/Startup.v ===== *)
(** Shared-memory sizing, layout and initialisation ([src/src/queue/shmem.c]):
    the three regions of the shared block, the request made of the postmaster and
    the startup hook, which leaves the queue empty and its invariant true. *)

From stdpp Require Import pretty.
From S2P Require Import Prelude Event Guc Shared Dsa Intern Ring InternInv RingInv.
Import Event Layout Guc Shared Dsa Intern Ring InternInv RingInv.

Module Startup.

(** ** The struct in the shared block *)

Definition PG_CACHE_LINE_SIZE : Z := 128.

(** [struct PschSharedState]; [flag] is the platform's [sizeof(pg_atomic_flag)]. *)
Definition shared_fields (flag : Z) : list Field :=
  [ scalar "lock" 8; scalar "raw_dsa_area" 8; scalar "dsa_oom_count" 8; scalar "capacity" 4;
    chars "pad1" (PG_CACHE_LINE_SIZE - (8 + 8 + 8 + 4));
    scalar "head" 8; scalar "enqueued" 8; scalar "dropped" 8; scalar "overflow_logged" flag;
    chars "pad2" (PG_CACHE_LINE_SIZE - (3 * 8 + flag));
    scalar "tail" 8; scalar "exported" 8;
    chars "pad3" (PG_CACHE_LINE_SIZE - 2 * 8);
    scalar "send_failures" 8; scalar "last_success_ts" 8; scalar "last_error_ts" 8;
    chars "last_error_text" 256; scalar "bgworker_pid" 4 ].

Definition shared_size (flag : Z) : Z := sizeof (shared_fields flag).

(** The cache line a field lies on, when it does not straddle two. *)
Definition cache_line (flag : Z) (name : string) : option Z :=
  match offsetof (shared_fields flag) name, find (λ f, String.eqb (f_name f) name) (shared_fields flag) with
  | Some o, Some f => if o / PG_CACHE_LINE_SIZE =? (o + f_size f - 1) / PG_CACHE_LINE_SIZE
                      then Some (o / PG_CACHE_LINE_SIZE) else None
  | _, _ => None
  end.

Section Startup.
Context {E : Env} (flag : Z).

(** ** Sizes *)

(** PostgreSQL's checked [Size] arithmetic; [None] is its overflow error. *)
Definition add_size (a b : Z) : option Z := let r := a + b in if r <=? SIZE_MAX then Some r else None.
Definition mul_size (a b : Z) : option Z := let r := a * b in if r <=? SIZE_MAX then Some r else None.
Definition MAXALIGN (n : Z) : Z := align_up n 8.

Definition ring_entry_size : Z := sizeof entry_fields.

Definition PschSharedBlockSize : option Z :=
  ring_bytes ← mul_size psch_queue_capacity ring_entry_size;
  ring_end ← add_size (shared_size flag) ring_bytes;
  let dsa_offset := MAXALIGN ring_end in
  total ← add_size dsa_offset PschDsaShmemSize;
  Some (MAXALIGN total).

Definition PschShmemSize : option Z :=
  block ← PschSharedBlockSize;
  add_size block PschQueryInternShmemSize.

(** What [RequestSharedResources] asks of the postmaster: bytes and locks. *)
Definition RequestSharedResources : option (Z * Z) :=
  bytes ← PschShmemSize;
  Some (bytes, 1 + PschQueryInternLockCount).

(** Offset of the DSA area in the block, as [InitializeSharedState] computes it. *)
Definition dsa_place : Z := MAXALIGN (u64 (shared_size flag + u64 (psch_queue_capacity * ring_entry_size))).

(** ** Initialisation *)

Definition elog_log (msg : string) : M Sys unit :=
  modify (λ s, s <| log ::= cons {| log_message := msg; log_guard := disable_error_capture s |} |>).

Definition InitializeSharedState : M Sys unit :=
  _ ← wr (λ st, st <| capacity := psch_queue_capacity |>
                   <| q_head := 0 |> <| enqueued := 0 |> <| dropped := 0 |>
                   <| overflow_logged := false |> <| q_tail := 0 |> <| exported := 0 |>
                   <| send_failures := 0 |> <| last_success_ts := 0 |> <| last_error_ts := 0 |>
                   <| last_error_text := repeat 0 256 |> <| bgworker_pid := 0 |>
                   <| dsa_oom_count := 0 |>);
  _ ← modify (λ s, s <| ring := repeat zero_entry (Z.to_nat psch_queue_capacity) |>);
  _ ← PschDsaInit dsa_place;
  match PschShmemSize with
  | Some total =>
    elog_log ("pg_stat_ch: initialized shared memory (capacity=" ++ pretty psch_queue_capacity ++
      ", ring=" ++ pretty (u64 (psch_queue_capacity * ring_entry_size) / 1024) ++ "KB, dsa=" ++
      pretty (PschDsaShmemSize / (1024 * 1024)) ++ "MB, total=" ++ pretty total ++ ")")
  | None => raise
  end.

(** What [ShmemInitStruct] hands out: nothing, memory with arbitrary contents,
    or the block another process has initialised. *)
Inductive ShmemBlock :=
  | ShmemFailed
  | ShmemNew (st : PschSharedState) (rg : list PschRingEntry)
  | ShmemFound (st : PschSharedState) (rg : list PschRingEntry).

(** [prev] is the startup hook installed before. *)
Definition PschShmemStartupHook (prev : option (M Sys unit)) (block : ShmemBlock) : M Sys unit :=
  _ ← match prev with Some hook => hook | None => mret tt end;
  _ ← modify (λ s, s <| addin_lock_held := true |>);
  match PschSharedBlockSize with
  | None => raise
  | Some _ =>
    _ ← modify (λ s, match block with
          | ShmemFailed => s <| psch_shared_state := None |>
          | ShmemNew st rg | ShmemFound st rg => s <| psch_shared_state := Some st |> <| ring := rg |>
          end);
    null ← shared_is_null;
    if null : bool then
      _ ← modify (λ s, s <| addin_lock_held := false |>);
      raise
    else
      _ ← match block with ShmemNew _ _ => InitializeSharedState | _ => mret tt end;
      _ ← PschQueryInternShmemInit;
      _ ← modify (λ s, s <| addin_lock_held := false |>);
      on_shmem_exit PschShmemShutdown
  end.

End Startup.

(** ** Properties *)

(** The padding of [PschSharedState] keeps the writers apart: with either
    size of an atomic flag, the fields written at startup, those the producers
    write, those the consumer writes and those of the exporter statistics start on
    four different cache lines, and no queue position or counter straddles two. *)
Lemma shared_state_cache_lines :
  Forall (λ flag,
    (∀ f, f ∈ ["lock"; "raw_dsa_area"; "dsa_oom_count"; "capacity"] → cache_line flag f = Some 0) ∧
    (∀ f, f ∈ ["head"; "enqueued"; "dropped"; "overflow_logged"] → cache_line flag f = Some 1) ∧
    (∀ f, f ∈ ["tail"; "exported"] → cache_line flag f = Some 2) ∧
    (∀ f, f ∈ ["send_failures"; "last_success_ts"; "last_error_ts"] → cache_line flag f = Some 3))
    [1; 4].
Proof.
  repeat constructor; intros f Hf;
    repeat (apply elem_of_cons in Hf as [->|Hf]; [by vm_compute|]); by apply elem_of_nil in Hf.
Qed.

Lemma MAXALIGN_spec n : n ≤ MAXALIGN n < n + 8 ∧ MAXALIGN n mod 8 = 0.
Proof.
  unfold MAXALIGN, align_up. split; [|apply Z.mod_mul; lia].
  pose proof (Z.div_mod (n + 8 - 1) 8). pose proof (Z.mod_pos_bound (n + 8 - 1) 8). lia.
Qed.

Lemma size_some n : n ≤ SIZE_MAX → (if n <=? SIZE_MAX then Some n else None) = Some n.
Proof. intros. by rewrite (proj2 (Z.leb_le _ _)). Qed.

Section sizes.
Context {E : Env} (flag : Z) (Hflag : flag = 1 ∨ flag = 4).
Context (Hcap : in_declared_range guc_queue_capacity psch_queue_capacity).
Context (Harea : in_declared_range guc_string_area_size psch_string_area_size).

Lemma shared_size_value : shared_size flag = 672.
Proof. destruct Hflag as [->| ->]; by vm_compute. Qed.

Lemma dsa_size_value : PschDsaShmemSize = psch_string_area_size * 2 ^ 20.
Proof.
  cbn in Harea. unfold PschDsaShmemSize, u64.
  rewrite (Z.mod_small (psch_string_area_size * 1024)) by lia. rewrite Z.mod_small; lia.
Qed.

Lemma block_size_value :
  PschSharedBlockSize flag =
    Some (MAXALIGN (dsa_place flag + psch_string_area_size * 2 ^ 20)) ∧
  dsa_place flag = MAXALIGN (672 + psch_queue_capacity * 520).
Proof.
  cbn in Hcap, Harea. unfold PschSharedBlockSize, dsa_place, mul_size, add_size.
  rewrite shared_size_value, dsa_size_value. change ring_entry_size with 520.
  pose proof (MAXALIGN_spec (672 + psch_queue_capacity * 520)) as [Hm _].
  rewrite size_some by (unfold SIZE_MAX; lia). simpl.
  rewrite size_some by (unfold SIZE_MAX; lia). simpl.
  rewrite size_some by (unfold SIZE_MAX; lia). simpl.
  assert (u64 (672 + u64 (psch_queue_capacity * 520)) = 672 + psch_queue_capacity * 520) as ->.
  { unfold u64. rewrite (Z.mod_small (psch_queue_capacity * 520)) by lia. apply Z.mod_small. lia. }
  done.
Qed.

End sizes.

(** C30: For every configuration the table of settings allows, the size of the
    shared block is computed without overflow, the ring's slots end before the DSA
    area begins, the DSA area begins on an aligned offset, which is the offset
    [InitializeSharedState] uses, and ends inside the block. *)
Theorem shared_block_regions {E : Env} flag
  (Hflag : flag = 1 ∨ flag = 4)
  (Hcap : in_declared_range guc_queue_capacity psch_queue_capacity)
  (Harea : in_declared_range guc_string_area_size psch_string_area_size) :
  ∃ total, PschSharedBlockSize flag = Some total ∧
    shared_size flag + psch_queue_capacity * ring_entry_size ≤ dsa_place flag ∧
    dsa_place flag mod 8 = 0 ∧
    dsa_place flag + PschDsaShmemSize ≤ total ∧ total ≤ 2 ^ 50.
Proof.
  destruct (block_size_value flag Hflag Hcap Harea) as [Hb Hp].
  eexists. split; [exact Hb|]. rewrite Hp, (shared_size_value flag Hflag), (dsa_size_value Harea).
  change ring_entry_size with 520. cbn in Hcap, Harea.
  pose proof (MAXALIGN_spec (672 + psch_queue_capacity * 520)) as [H1 H2].
  pose proof (MAXALIGN_spec (MAXALIGN (672 + psch_queue_capacity * 520) + psch_string_area_size * 2 ^ 20))
    as [H3 _].
  split_and!; lia.
Qed.

(** C29: Startup on fresh memory, whatever it contains, makes the queue: the
    invariant of the ring, the string storage and the intern table holds, the queue
    is empty with the configured capacity, every counter is zero, no memory of the
    DSA area is in use, the postmaster's lock is released and the shutdown callback
    is registered. *)
Theorem startup_establishes_queue {E : Env} flag s st0 rg0
  (Hflag : flag = 1 ∨ flag = 4)
  (Hcap : in_declared_range guc_queue_capacity psch_queue_capacity)
  (Hcheck : check_psch_queue_capacity psch_queue_capacity = true)
  (Harea : in_declared_range guc_string_area_size psch_string_area_size)
  (Hestimate : 0 ≤ PschQueryInternShmemSize ≤ 2 ^ 50)
  (Hfresh : htab s = None) :
  wp (PschShmemStartupHook flag None (ShmemNew st0 rg0))
    (λ _ s', ∃ st, ring_inv s' st ∅ ∧ leak_free s' st ∧ abs s' = [] ∧
       capacity st = psch_queue_capacity ∧ q_head st = 0 ∧ enqueued st = 0 ∧ dropped st = 0 ∧
       exported st = 0 ∧ send_failures st = 0 ∧ heap s' = ∅ ∧ addin_lock_held s' = false ∧
       exit_callbacks s' = PschShmemShutdown :: exit_callbacks s)
    (λ _, False) s.
Proof.
  destruct (block_size_value flag Hflag Hcap Harea) as [Hb Hp].
  apply check_capacity_pow2 in Hcheck as (k & Hk & Hck).
  assert (k ≤ 31) as Hk31.
  { cbn in Hcap. rewrite Hck in Hcap. change 4194304 with (2 ^ 22) in Hcap.
    assert (2 ^ k ≤ 2 ^ 22) by lia. rewrite <- Z.pow_le_mono_r_iff in *; lia. }
  assert (∃ total, PschShmemSize flag = Some total) as [total Htotal].
  { unfold PschShmemSize. rewrite Hb. eexists. simpl. apply size_some.
    cbn in Hcap, Harea. pose proof (MAXALIGN_spec (672 + psch_queue_capacity * 520)) as [H1 _].
    pose proof (MAXALIGN_spec (dsa_place flag + psch_string_area_size * 2 ^ 20)) as [H2 _].
    unfold SIZE_MAX. rewrite Hp in *. lia. }
  unfold PschShmemStartupHook. do 4 wp_step. rewrite Hb. unfold shared_is_null. do 4 wp_step. simpl.
  wp_step. unfold InitializeSharedState, elog_log, PschDsaInit, PschQueryInternShmemInit, on_shmem_exit.
  wp_step. eapply wp_wr; [done|]. do 2 wp_step. wp_step. wp_step. eapply wp_wr; [done|]. wp_step.
  rewrite Htotal. wp_run.
  eexists. split; [constructor; [reflexivity|..]; simpl; try done|
    split; [intros p b; simpl; by rewrite lookup_empty|split_and!; done]].
  - by rewrite Hfresh.
  - by exists k; rewrite Hck.
  - rewrite repeat_length. pose proof (pow2_pos k Hk). lia.
  - unfold qsize. simpl. change (u64 (0 - 0)) with 0. pose proof (pow2_pos k Hk). lia.
  - apply strings_inv_empty.
  - apply intern_inv_empty.
Qed.

(** The default configuration. *)
Definition default_env : Env := {|
  psch_enabled := true; psch_debug_force_locked_overflow := false;
  psch_queue_capacity := 131072; psch_string_area_size := 64;
  dsa_pick := λ _ _, AllocOom; hash_any_extended := λ _, 0; get_hash_value := λ _, 0;
  hash_has_room := λ _ _, true; lock_available := true;
  hash_estimate_size := λ n sz, n * sz + 16384; GetCurrentTimestamp := 0 |}.

Lemma shared_block_regions_witness :
  ∃ total, PschSharedBlockSize (E := default_env) 1 = Some total ∧ total ≤ 2 ^ 50.
Proof.
  destruct (shared_block_regions (E := default_env) 1) as (total & Ht & _ & _ & _ & Hb);
    [by left|cbn; lia|cbn; lia|]. exists total. split; [exact Ht|exact Hb].
Defined.

(** A process before startup. *)
Definition blank_sys : Sys := {|
  psch_shared_state := None; ring := []; heap := ∅; dsa_refcnt := 0; htab := None;
  lock_held := false; psch_dsa := false; psch_dsa_exit_hook_registered := false;
  disable_error_capture := false; local_batch := repeat zero_event 8; local_batch_count := 0;
  local_batch_initialized := false; exit_callbacks := []; xact_callback_registered := false;
  addin_lock_held := false; log := [] |}.

Definition garbage_state : PschSharedState := {|
  raw_dsa_area := None; dsa_oom_count := 77; capacity := 3; q_head := 12; enqueued := 5;
  dropped := 9; overflow_logged := true; q_tail := 99; exported := 1; send_failures := 2;
  last_success_ts := 3; last_error_ts := 4; last_error_text := repeat 65 256; bgworker_pid := 6 |}.

Lemma startup_establishes_queue_witness :
  ∃ r s', PschShmemStartupHook (E := default_env) 1 None (ShmemNew garbage_state []) blank_sys = (r, s') ∧
    abs s' = [] ∧ heap s' = ∅.
Proof.
  destruct (wp_run_spec _ _ _ _ (startup_establishes_queue (E := default_env) 1 blank_sys garbage_state []
    (or_introl eq_refl) ltac:(cbn; lia) eq_refl ltac:(cbn; lia) ltac:(vm_compute; split; discriminate)
    eq_refl)) as (r & s' & Heq & H).
  exists r, s'. split; [exact Heq|]. destruct r; [|destruct H].
  destruct H as (st & _ & _ & Ha & _ & _ & _ & _ & _ & _ & Hh & _). split; [exact Ha|exact Hh].
Defined.

End Startup.
