(* ===== verification/Loading.v ===== *)
(** Loading the extension ([src/src/pg_stat_ch.c], the installation of hooks in
    [src/src/hooks/hooks.c] and [src/src/queue/shmem.c], the registration of the
    worker in [src/src/worker/bgworker.c]), for a build against PostgreSQL 18. *)

From S2P Require Import Prelude Guc Shared Startup.
Import Guc Shared Startup.

Module Loading.

(** The hooks of PostgreSQL the extension sits on. *)
Inductive Slot : Set :=
  | shmem_request_hook | shmem_startup_hook | post_parse_analyze_hook | ExecutorStart_hook | ExecutorRun_hook
  | ExecutorFinish_hook | ExecutorEnd_hook | ProcessUtility_hook | emit_log_hook.

#[export] Instance Slot_eq_dec : EqDecision Slot.
Proof. solve_decision. Defined.

(** A function in a hook: the extension's for that slot, or another library's. *)
Inductive HookFn : Set := Psch | Theirs (library : nat).

Record BackgroundWorker := {
  bgw_name : string; bgw_type : string; bgw_shmem_access : bool; bgw_database_connection : bool;
  bgw_start_time : string; bgw_restart_time : Z; bgw_library_name : string; bgw_function_name : string;
  bgw_main_arg : Z; bgw_notify_pid : Z }.

(** The process that loads the library. *)
Record Loader := {
  process_shared_preload_libraries_in_progress : bool;
  hook : Slot → option HookFn;
  prev : Slot → option HookFn;     (** the extension's static variables *)
  gucs : list GucVar;
  workers : list BackgroundWorker;
  query_id_enabled : bool;
  system_init : bool;
  messages : list (Z * string) }.

#[export] Instance Loader_eta : Eta Loader := λ l,
  Build_Loader (process_shared_preload_libraries_in_progress l) (hook l) (prev l) (gucs l) (workers l)
    (query_id_enabled l) (system_init l) (messages l).

Definition elog (level : Z) (msg : string) (l : Loader) : Loader := l <| messages ::= λ ms, ms ++ [(level, msg)] |>.

(** [prev_x = x; x = PschX;] *)
Definition install (s : Slot) (l : Loader) : Loader :=
  l <| prev ::= λ f t, if decide (t = s) then hook l s else f t |>
    <| hook ::= λ f t, if decide (t = s) then Some Psch else f t |>.

Definition PschInstallShmemHooks (l : Loader) : Loader := install shmem_startup_hook (install shmem_request_hook l).

Definition PschInstallHooks (l : Loader) : Loader :=
  let l := l <| query_id_enabled := true |> in
  let l := foldl (λ l s, install s l) l
    [post_parse_analyze_hook; ExecutorStart_hook; ExecutorRun_hook; ExecutorFinish_hook; ExecutorEnd_hook;
     ProcessUtility_hook; emit_log_hook] in
  l <| system_init := true |>.

Definition psch_worker : BackgroundWorker := {|
  bgw_name := "pg_stat_ch exporter"; bgw_type := "pg_stat_ch exporter"; bgw_shmem_access := true;
  bgw_database_connection := true; bgw_start_time := "BgWorkerStart_ConsistentState"; bgw_restart_time := 10;
  bgw_library_name := "pg_stat_ch"; bgw_function_name := "PschBgworkerMain"; bgw_main_arg := 0; bgw_notify_pid := 0 |}.

Definition PschRegisterBgworker (l : Loader) : Loader := l <| workers ::= λ ws, ws ++ [psch_worker] |>.

Definition PG_init (version : string) (l : Loader) : Loader :=
  if negb (process_shared_preload_libraries_in_progress l) then
    elog WARNING "pg_stat_ch must be loaded via shared_preload_libraries" l
  else
    let l := elog LOG ("pg_stat_ch " ++ version ++ ": initializing") l in
    let l := l <| gucs ::= λ gs, gs ++ PschInitGuc |> in
    let l := PschInstallShmemHooks l in
    let l := PschInstallHooks l in
    PschRegisterBgworker l.

Definition pg_stat_ch_version (version : string) : string := version.

(** The postmaster's account of what was asked of it. *)
Record Requests := { shmem_bytes : Z; named_lwlocks : list (string * Z) }.

(** [PschShmemRequestHook]; [previous] is what the hook before it does. *)
Definition PschShmemRequestHook {E : Env} (flag : Z) (previous : option (Requests → option Requests)) (r : Requests)
    : option Requests :=
  r ← match previous with Some f => f r | None => Some r end;
  '(bytes, locks) ← RequestSharedResources flag;
  total ← add_size (shmem_bytes r) bytes;
  Some {| shmem_bytes := total; named_lwlocks := named_lwlocks r ++ [("pg_stat_ch"%string, locks)] |}.

(** ** Lemmas *)

(** The functions a slot runs, ours first; each of ours goes on to the one before it. *)
Definition chain (l : Loader) (s : Slot) : list HookFn :=
  match hook l s with
  | Some Psch => Psch :: match prev l s with Some f => [f] | None => [] end
  | Some f => [f]
  | None => []
  end.

(** The library that loaded before keeps its place in every chain. *)
Lemma load_chains version l s :
  process_shared_preload_libraries_in_progress l = true →
  chain (PG_init version l) s = Psch :: match hook l s with Some f => [f] | None => [] end.
Proof.
  intros Hp. unfold PG_init. rewrite Hp. unfold chain, PschRegisterBgworker, PschInstallHooks, PschInstallShmemHooks, elog.
  simpl. by destruct s.
Qed.

(** Once messages may be captured, every hook and setting is in place. *)
Lemma load_complete version l :
  system_init l = false → system_init (PG_init version l) = true →
  (∀ s, hook (PG_init version l) s = Some Psch) ∧ gucs (PG_init version l) = gucs l ++ PschInitGuc ∧
  workers (PG_init version l) = workers l ++ [psch_worker] ∧ query_id_enabled (PG_init version l) = true.
Proof.
  intros Hs. unfold PG_init. destruct (process_shared_preload_libraries_in_progress l); simpl; [|congruence].
  intros _. split_and!; try done. by intros [].
Qed.

Lemma load_refused version l :
  process_shared_preload_libraries_in_progress l = false →
  PG_init version l = elog WARNING "pg_stat_ch must be loaded via shared_preload_libraries" l.
Proof. intros Hp. unfold PG_init. by rewrite Hp. Qed.

End Loading.
