(* ===== verification/RingConc.v ===== *)
(** The ring buffer under concurrency ([src/src/queue/shmem.c]).

    Any number of producers, one consumer, any number of statistics readers and of
    other users of the queue lock run interleaved; one step of the machine is one
    access to shared memory of [PschEnqueueEvent] or [PschEnqueueBatch] with
    [TryEnqueueLocked], of [PschDequeueEvent], of [PschGetStats], or of
    [PschResetStats], [PschRecordExportSuccess] and [PschRecordExportFailure]. The
    lock is a [LWLock]: held by one process exclusively or by several shared; a step
    that waits for it is not enabled. Filling a slot takes two steps, and in between its contents are
    not an event. The interleaving is sequentially consistent: the order of
    accesses is the program's, which is what the memory barriers of the code are
    there to ensure. What a slot holds is one event, as [TryEnqueueLocked] stores
    it; its parts are the subject of [Ring.v]. *)

From stdpp Require Import relations.
From S2P Require Import Prelude Shared Ring RingInv.
Import Shared Ring RingInv.

Module RingConc.

(** Where a producer is in [PschEnqueueEvent] or [PschEnqueueBatch]; in the locked
    section, [todo] are the events of the batch that follow. *)
Inductive ProducerPC :=
  | PIdle
  | PEnter (ev : Z)              (** about to read the head *)
  | PGotHead (ev h : Z)          (** about to read the tail and decide *)
  | POverflow (ev : Z)           (** about to count a drop on the fast path *)
  | PTryLock (ev : Z)
  | BEnter (ev : Z) (todo : list Z)        (** of a batch: about to read the head *)
  | BGotHead (ev : Z) (todo : list Z) (h : Z)
  | BOverflow (more : nat)                 (** about to count a drop, and [more] after it *)
  | BLock (ev : Z) (todo : list Z)         (** about to take the lock *)
  | PLocked (ev : Z) (todo : list Z)       (** in [TryEnqueueLocked], about to read the head *)
  | PLockedHead (ev h : Z) (todo : list Z)
  | PLockedFull (ev : Z) (todo : list Z)
  | PFilling (ev h : Z) (todo : list Z)    (** about to start writing the slot *)
  | PPartial (ev h : Z) (todo : list Z)    (** the slot is being written *)
  | PFilled (ev h : Z) (todo : list Z)     (** about to publish the head *)
  | PCounting (todo : list Z)              (** about to count the event *)
  | PUnlock.

(** Where the consumer is in [PschDequeueEvent]. *)
Inductive ConsumerPC :=
  | CIdle
  | CGotHead (h : Z)
  | CCopy (t : Z)                (** about to copy the slot *)
  | CCopied (t : Z) (slot : option Z).  (** about to advance the tail *)

(** Where a reader is in [PschGetStats]. *)
Inductive ReaderPC :=
  | RIdle
  | RGotHead (h : Z)
  | RLock (queue_size : Z)       (** about to take the lock, shared *)
  | RReading (queue_size : Z)    (** about to release it *)
  | RDone (queue_size : Z).

(** What [PschResetStats], [PschRecordExportSuccess] and [PschRecordExportFailure]
    write under the lock. *)
Inductive ClientWrite := ZeroEnqueued | ZeroDropped | WriteOther.
Inductive ClientPC := KIdle | KLock (writes : list ClientWrite) | KHeld (writes : list ClientWrite).

Definition ResetStats_writes : list ClientWrite := [ZeroEnqueued; ZeroDropped; WriteOther].
Definition RecordExport_writes : list ClientWrite := [WriteOther].

Inductive Holder := HProducer (p : nat) | HClient (p : nat).
Inductive Lock := Free | Exclusive (h : Holder) | Shared (readers : list nat).

Record Conf := {
  c_head : Z; c_tail : Z; c_lock : Lock;
  c_slots : list (option Z);     (** [None] while a slot is being written *)
  c_enqueued : Z; c_dropped : Z;
  c_prod : nat → ProducerPC; c_cons : ConsumerPC; c_reader : nat → ReaderPC;
  c_client : nat → ClientPC;
  (** history: events published, handed to the consumer, buffered locally *)
  h_pushed : list Z; h_popped : list Z; h_buffered : list Z }.

#[export] Instance Conf_eta : Eta Conf := λ c,
  Build_Conf (c_head c) (c_tail c) (c_lock c) (c_slots c) (c_enqueued c) (c_dropped c)
    (c_prod c) (c_cons c) (c_reader c) (c_client c) (h_pushed c) (h_popped c) (h_buffered c).

#[export] Instance option_Z_inhabited : Inhabited (option Z) := populate None.

Section machine.
Context (capacity : Z) (force : bool).

Definition set_pc (p : nat) (pc : ProducerPC) (c : Conf) : Conf :=
  c <| c_prod := upd (c_prod c) p pc |>.

(** The loop of [PschEnqueueBatch]; a single event has nothing after it. *)
Definition next_event (todo : list Z) : ProducerPC :=
  match todo with ev :: rest => PLocked ev rest | [] => PUnlock end.

(** One step of producer [p]; [None] when it has none to take. *)
Definition prod_step (p : nat) (c : Conf) : option Conf :=
  match c_prod c p with
  | PIdle => None
  | PEnter ev => Some (set_pc p (PGotHead ev (c_head c)) c)
  | PGotHead ev h =>
    Some (set_pc p (if capacity <=? u64 (h - c_tail c) then POverflow ev else PTryLock ev) c)
  | POverflow ev => Some (set_pc p PIdle (c <| c_dropped ::= λ n, u64 (n + 1) |>))
  | PTryLock ev =>
    match c_lock c with
    | Free => Some (set_pc p (PLocked ev []) (c <| c_lock := Exclusive (HProducer p) |>))
    | _ => Some (set_pc p PIdle (c <| h_buffered ::= λ l, l ++ [ev] |>))
    end
  | BEnter ev todo => Some (set_pc p (BGotHead ev todo (c_head c)) c)
  | BGotHead ev todo h =>
    Some (set_pc p (if capacity <=? u64 (h - c_tail c) then BOverflow (length todo) else BLock ev todo) c)
  | BOverflow more =>
    Some (set_pc p (match more with O => PIdle | S more => BOverflow more end)
            (c <| c_dropped ::= λ n, u64 (n + 1) |>))
  | BLock ev todo =>
    match c_lock c with
    | Free => Some (set_pc p (PLocked ev todo) (c <| c_lock := Exclusive (HProducer p) |>))
    | _ => None
    end
  | PLocked ev todo => Some (set_pc p (PLockedHead ev (c_head c) todo) c)
  | PLockedHead ev h todo =>
    Some (set_pc p (if (capacity <=? u64 (h - c_tail c)) || force then PLockedFull ev todo
                    else PFilling ev h todo) c)
  | PLockedFull ev todo => Some (set_pc p (next_event todo) (c <| c_dropped ::= λ n, u64 (n + 1) |>))
  | PFilling ev h todo =>
    Some (set_pc p (PPartial ev h todo) (c <| c_slots ::= <[slot_index capacity h := None]> |>))
  | PPartial ev h todo =>
    Some (set_pc p (PFilled ev h todo) (c <| c_slots ::= <[slot_index capacity h := Some ev]> |>))
  | PFilled ev h todo =>
    Some (set_pc p (PCounting todo) (c <| c_head := u64 (h + 1) |> <| h_pushed ::= λ l, l ++ [ev] |>))
  | PCounting todo => Some (set_pc p (next_event todo) (c <| c_enqueued ::= λ n, u64 (n + 1) |>))
  | PUnlock => Some (set_pc p PIdle (c <| c_lock := Free |>))
  end.

(** An error while the slot is filled: [PG_FINALLY] unlocks. *)
Definition prod_error (p : nat) (c : Conf) : option Conf :=
  match c_prod c p with
  | PFilling _ _ _ | PPartial _ _ _ => Some (set_pc p PUnlock c)
  | _ => None
  end.

Definition prod_call (p : nat) (ev : Z) (c : Conf) : option Conf :=
  match c_prod c p with
  | PIdle => Some (set_pc p (PEnter ev) c)
  | _ => None
  end.

(** [PschEnqueueBatch] of one event and those after it; an empty batch does nothing. *)
Definition batch_call (p : nat) (ev : Z) (todo : list Z) (c : Conf) : option Conf :=
  match c_prod c p with
  | PIdle => Some (set_pc p (BEnter ev todo) c)
  | _ => None
  end.

Definition cons_step (c : Conf) : option Conf :=
  match c_cons c with
  | CIdle => Some (c <| c_cons := CGotHead (c_head c) |>)
  | CGotHead h => Some (c <| c_cons := if h =? c_tail c then CIdle else CCopy (c_tail c) |>)
  | CCopy t => Some (c <| c_cons := CCopied t (c_slots c !!! slot_index capacity t) |>)
  | CCopied t slot =>
    Some (c <| c_cons := CIdle |> <| c_tail := u64 (t + 1) |>
            <| h_popped ::= λ l, l ++ [default (-1) slot] |>)
  end.

Definition set_reader (p : nat) (pc : ReaderPC) (c : Conf) : Conf :=
  c <| c_reader := upd (c_reader c) p pc |>.

Definition reader_step (p : nat) (c : Conf) : option Conf :=
  match c_reader c p with
  | RIdle => Some (set_reader p (RGotHead (c_head c)) c)
  | RGotHead h => Some (set_reader p (RLock (u32 (u64 (h - c_tail c)))) c)
  | RLock n =>
    match c_lock c with
    | Free => Some (set_reader p (RReading n) (c <| c_lock := Shared [p] |>))
    | Shared l => Some (set_reader p (RReading n) (c <| c_lock := Shared (p :: l) |>))
    | Exclusive _ => None
    end
  | RReading n =>
    let unlocked := match c_lock c with
                    | Shared l => match filter (λ q, q ≠ p) l with [] => Free | l' => Shared l' end
                    | lock => lock
                    end in
    Some (set_reader p (RDone n) (c <| c_lock := unlocked |>))
  | RDone _ => None
  end.

Definition set_client (p : nat) (pc : ClientPC) (c : Conf) : Conf :=
  c <| c_client := upd (c_client c) p pc |>.

Definition client_write (op : ClientWrite) (c : Conf) : Conf :=
  match op with
  | ZeroEnqueued => c <| c_enqueued := 0 |>
  | ZeroDropped => c <| c_dropped := 0 |>
  | WriteOther => c
  end.

Definition client_call (p : nat) (writes : list ClientWrite) (c : Conf) : option Conf :=
  match c_client c p with KIdle => Some (set_client p (KLock writes) c) | _ => None end.

Definition client_step (p : nat) (c : Conf) : option Conf :=
  match c_client c p with
  | KIdle => None
  | KLock writes =>
    match c_lock c with
    | Free => Some (set_client p (KHeld writes) (c <| c_lock := Exclusive (HClient p) |>))
    | _ => None
    end
  | KHeld (op :: rest) => Some (set_client p (KHeld rest) (client_write op c))
  | KHeld [] => Some (set_client p KIdle (c <| c_lock := Free |>))
  end.

Inductive Action :=
  | ACall (p : nat) (ev : Z) | ABatch (p : nat) (ev : Z) (todo : list Z) | AProd (p : nat) | AError (p : nat)
  | ACons | ARead (p : nat) | AClientCall (p : nat) (writes : list ClientWrite) | AClient (p : nat).

Definition exec (a : Action) (c : Conf) : option Conf :=
  match a with
  | ACall p ev => prod_call p ev c
  | ABatch p ev todo => batch_call p ev todo c
  | AProd p => prod_step p c
  | AError p => prod_error p c
  | ACons => cons_step c
  | ARead p => reader_step p c
  | AClientCall p writes => client_call p writes c
  | AClient p => client_step p c
  end.

Inductive step (c c' : Conf) : Prop := do_step a : exec a c = Some c' → step c c'.

Definition start (pos : Z) : Conf := {|
  c_head := pos; c_tail := pos; c_lock := Free;
  c_slots := repeat None (Z.to_nat capacity); c_enqueued := 0; c_dropped := 0;
  c_prod := λ _, PIdle; c_cons := CIdle; c_reader := λ _, RIdle;
  c_client := λ _, KIdle;
  h_pushed := []; h_popped := []; h_buffered := [] |}.

Definition reachable (pos : Z) (c : Conf) : Prop := rtc step (start pos) c.

Fixpoint exec_all (l : list Action) (c : Conf) : option Conf :=
  match l with
  | [] => Some c
  | a :: rest => match exec a c with Some c' => exec_all rest c' | None => None end
  end.

Lemma exec_all_rtc l c c' : exec_all l c = Some c' → rtc step c c'.
Proof.
  revert c. induction l as [|a l IH]; intros c; simpl; [intros [= ->]; done|].
  destruct (exec a c) as [c1|] eqn:Ha; [|done]. intros Hl.
  eapply rtc_l; [by eapply do_step|by apply IH].
Qed.

(** ** Invariant *)

(** The producers inside the locked section. *)
Definition holds_lock (pc : ProducerPC) : bool :=
  match pc with
  | PLocked _ _ | PLockedHead _ _ _ | PLockedFull _ _ | PFilling _ _ _ | PPartial _ _ _ | PFilled _ _ _
  | PCounting _ | PUnlock => true
  | _ => false
  end.
Definition client_holds (pc : ClientPC) : bool := match pc with KHeld _ => true | _ => false end.
Definition reader_holds (pc : ReaderPC) : bool := match pc with RReading _ => true | _ => false end.

(** The lock is held by those that are in a locked section. *)
Record lock_inv (c : Conf) : Prop := {
  li_prod p : holds_lock (c_prod c p) = true ↔ c_lock c = Exclusive (HProducer p);
  li_client p : client_holds (c_client c p) = true ↔ c_lock c = Exclusive (HClient p);
  li_reader p : reader_holds (c_reader c p) = true ↔ ∃ l, c_lock c = Shared l ∧ p ∈ l;
  li_shared : c_lock c ≠ Shared [] }.

(** What a producer in the locked section knows; [H] and [T] are the positions
    as they would be without wrap-around. *)
Definition prod_ok (H T : Z) (slots : list (option Z)) (pc : ProducerPC) : Prop :=
  match pc with
  | PLockedHead _ h _ => h = u64 H
  | PFilling _ h _ | PPartial _ h _ => h = u64 H ∧ H - T < capacity
  | PFilled ev h _ => h = u64 H ∧ H - T < capacity ∧ slots !!! slot_index capacity h = Some ev
  | _ => True
  end.

(** What the consumer knows. *)
Definition cons_ok (H T : Z) (queue : list Z) (pc : ConsumerPC) : Prop :=
  match pc with
  | CIdle => True
  | CGotHead h => ∃ h', h = u64 h' ∧ T ≤ h' ≤ H
  | CCopy t => t = u64 T ∧ T < H
  | CCopied t slot => t = u64 T ∧ ∃ ev rest, slot = Some ev ∧ queue = ev :: rest
  end.

Record conc_inv (c : Conf) (H T : Z) (queue : list Z) : Prop := {
  ci_head : c_head c = u64 H;
  ci_tail : c_tail c = u64 T;
  ci_order : T ≤ H ≤ T + capacity;
  ci_slots : length (c_slots c) = Z.to_nat capacity;
  ci_queue : Z.of_nat (length queue) = H - T;
  ci_contents i ev : queue !! i = Some ev →
    c_slots c !!! slot_index capacity (T + Z.of_nat i) = Some ev;
  ci_history : h_pushed c = h_popped c ++ queue;
  ci_lock : lock_inv c;
  ci_prod p : prod_ok H T (c_slots c) (c_prod c p);
  ci_cons : cons_ok H T queue (c_cons c) }.

Context (k : Z) (Hk : 0 ≤ k ≤ 31) (Hcap : capacity = 2 ^ k).

Lemma prod_ok_unlocked H T slots pc : holds_lock pc = false → prod_ok H T slots pc.
Proof. by destruct pc. Qed.

Lemma idx_u64 z : slot_index capacity (u64 z) = slot_index capacity z.
Proof. rewrite Hcap. by apply slot_index_u64. Qed.

Lemma conc_idx_lt z (slots : list (option Z)) :
  length slots = Z.to_nat capacity → (slot_index capacity z < length slots)%nat.
Proof. intros ->. rewrite Hcap. by apply slot_index_lt. Qed.

(** Writing the producer's slot leaves every waiting event's slot alone. *)
Lemma contents_write c H T queue x i ev :
  conc_inv c H T queue → H - T < capacity → queue !! i = Some ev →
  <[slot_index capacity (u64 H) := x]> (c_slots c) !!! slot_index capacity (T + Z.of_nat i) = Some ev.
Proof.
  intros Hinv Hroom Hi. pose proof (lookup_lt_Some _ _ _ Hi). pose proof (ci_queue _ _ _ _ Hinv).
  rewrite list_lookup_total_insert_ne; [by eapply ci_contents|].
  rewrite idx_u64. replace H with (T + (H - T)) by lia. rewrite Hcap in *.
  intros Heq%slot_index_inj; lia.
Qed.

(** *** The lock *)

(** A step of one producer that keeps its hold on the lock. *)
Lemma lock_inv_pc c p pc :
  lock_inv c → holds_lock pc = holds_lock (c_prod c p) → lock_inv (set_pc p pc c).
Proof.
  intros [] Hl. constructor; try done. intros q. simpl. destruct (decide (q = p)) as [->|].
  - by rewrite upd_same, Hl.
  - by rewrite upd_other.
Qed.

(** [lock_inv] reads who is where and the lock. *)
Lemma lock_inv_ext c c1 :
  lock_inv c → c_prod c1 = c_prod c → c_client c1 = c_client c → c_reader c1 = c_reader c → c_lock c1 = c_lock c →
  lock_inv c1.
Proof. intros [] E1 E2 E3 E4. destruct c, c1; simpl in *; subst. by constructor. Qed.

Lemma lock_inv_free c :
  lock_inv c → c_lock c = Free →
  (∀ p, holds_lock (c_prod c p) = false) ∧ (∀ p, client_holds (c_client c p) = false) ∧
  (∀ p, reader_holds (c_reader c p) = false).
Proof.
  intros [H1 H2 H3 _] Hf. rewrite Hf in *. split_and!; intros p; apply not_true_is_false; intros H.
  - by apply H1 in H.
  - by apply H2 in H.
  - by apply H3 in H as (l & [=] & _).
Qed.

Lemma lock_inv_acquire c p pc :
  lock_inv c → c_lock c = Free → holds_lock pc = true →
  lock_inv (set_pc p pc (c <| c_lock := Exclusive (HProducer p) |>)).
Proof.
  intros Hl (H1 & H2 & H3)%(lock_inv_free c Hl) Hpc. constructor; simpl; [intros q|intros q|intros q|done].
  - destruct (decide (q = p)) as [->|Hne]; [by rewrite upd_same, Hpc|]. rewrite upd_other, H1 by done.
    split; [done|congruence].
  - by rewrite H2.
  - rewrite H3. split; [done|]. by intros (l & [=] & _).
Qed.

Lemma lock_inv_release c p pc :
  lock_inv c → holds_lock (c_prod c p) = true → holds_lock pc = false →
  lock_inv (set_pc p pc (c <| c_lock := Free |>)).
Proof.
  intros [H1 H2 H3 _] Hp%H1 Hpc. constructor; simpl; [intros q|intros q|intros q|done].
  - destruct (decide (q = p)) as [->|Hne]; [by rewrite upd_same, Hpc|]. rewrite upd_other, H1 by done.
    split; [rewrite Hp; congruence|done].
  - rewrite H2, Hp. by split.
  - rewrite H3, Hp. split; [by intros (l & [=] & _)|by intros (l & [=] & _)].
Qed.

Lemma lock_inv_reader_pc c p pc :
  lock_inv c → reader_holds pc = reader_holds (c_reader c p) → lock_inv (set_reader p pc c).
Proof.
  intros [] Hl. constructor; try done. intros q. simpl. destruct (decide (q = p)) as [->|].
  - by rewrite upd_same, Hl.
  - by rewrite upd_other.
Qed.

Lemma lock_inv_share c p n l :
  lock_inv c → c_lock c = Shared l ∨ c_lock c = Free ∧ l = [] →
  lock_inv (set_reader p (RReading n) (c <| c_lock := Shared (p :: l) |>)).
Proof.
  intros Hl Hlock. assert (∀ h, c_lock c ≠ Exclusive h) as Hx by (intros h; destruct Hlock as [->|[-> _]]; done).
  destruct Hl as [H1 H2 H3 _]. constructor; simpl; [intros q|intros q|intros q|done].
  - rewrite H1. split; [by intros ?%Hx|done].
  - rewrite H2. split; [by intros ?%Hx|done].
  - destruct (decide (q = p)) as [->|Hne].
    + rewrite upd_same. split; [|done]. intros _. exists (p :: l). split; [done|set_solver].
    + rewrite upd_other, H3 by done. destruct Hlock as [->|[-> ->]].
      * split; intros (l' & [= <-] & Hin); eexists; (split; [done|set_solver]).
      * split; [by intros (l' & [=] & _)|]. intros (l' & [= <-] & Hin). set_solver.
Qed.

Lemma lock_inv_unshare c p n :
  lock_inv c → c_reader c p = RReading n →
  ∃ lock, lock_inv (set_reader p (RDone n) (c <| c_lock := lock |>)) ∧
    ∃ l, c_lock c = Shared l ∧ lock = match filter (λ q, q ≠ p) l with [] => Free | l' => Shared l' end.
Proof.
  intros [H1 H2 H3 _] Hp. destruct (proj1 (H3 p)) as (l & Hl & Hin); [by rewrite Hp|].
  eexists. split; [|by exists l]. set (l' := filter (λ q, q ≠ p) l).
  assert (∀ q, q ∈ l' ↔ q ≠ p ∧ q ∈ l) as Hl' by (intros q; unfold l'; by rewrite list_elem_of_filter).
  rewrite Hl in *. constructor; simpl.
  - intros q. rewrite H1. split; [done|by destruct l'].
  - intros q. rewrite H2. split; [done|by destruct l'].
  - intros q. destruct (decide (q = p)) as [->|Hne].
    + rewrite upd_same. split; [done|]. intros (m & Hm & Hq). destruct l' as [|x l'']; [done|]. injection Hm as <-.
      by apply Hl' in Hq as [].
    + rewrite upd_other, H3 by done. split.
      * intros (m & [= <-] & Hq). assert (q ∈ l') as Hq' by by apply Hl'. destruct l' as [|x l'']; [set_solver|]. eauto.
      * intros (m & Hm & Hq). destruct l' as [|x l'']; [done|]. injection Hm as <-. apply Hl' in Hq as []. eauto.
  - by destruct l'.
Qed.

Lemma lock_inv_client_acquire c p writes :
  lock_inv c → c_lock c = Free → lock_inv (set_client p (KHeld writes) (c <| c_lock := Exclusive (HClient p) |>)).
Proof.
  intros Hl (H1 & H2 & H3)%(lock_inv_free c Hl). constructor; simpl; [intros q|intros q|intros q|done].
  - by rewrite H1.
  - destruct (decide (q = p)) as [->|Hne]; [by rewrite upd_same|]. rewrite upd_other, H2 by done.
    split; [done|congruence].
  - rewrite H3. split; [done|]. by intros (l & [=] & _).
Qed.

Lemma lock_inv_client_release c p :
  lock_inv c → client_holds (c_client c p) = true → lock_inv (set_client p KIdle (c <| c_lock := Free |>)).
Proof.
  intros [H1 H2 H3 _] Hp%H2. constructor; simpl; [intros q|intros q|intros q|done].
  - rewrite H1, Hp. by split.
  - destruct (decide (q = p)) as [->|Hne]; [by rewrite upd_same|]. rewrite upd_other, H2, Hp by done.
    split; [congruence|done].
  - rewrite H3, Hp. split; [by intros (l & [=] & _)|by intros (l & [=] & _)].
Qed.

Lemma lock_inv_client_pc c p pc :
  lock_inv c → client_holds pc = client_holds (c_client c p) → lock_inv (set_client p pc c).
Proof.
  intros [] Hl. constructor; try done. intros q. simpl. destruct (decide (q = p)) as [->|].
  - by rewrite upd_same, Hl.
  - by rewrite upd_other.
Qed.

(** While one producer is in the locked section the others are not. *)
Lemma lock_exclusive c p q :
  lock_inv c → holds_lock (c_prod c p) = true → holds_lock (c_prod c q) = true → p = q.
Proof. intros Hl Hp%(li_prod _ Hl) Hq%(li_prod _ Hl). congruence. Qed.

(** *** The queue *)

(** The part of the state [conc_inv] reads beside the lock. *)
Lemma conc_inv_ext c c1 H T queue :
  conc_inv c H T queue → lock_inv c1 → c_head c1 = c_head c → c_tail c1 = c_tail c → c_slots c1 = c_slots c →
  c_cons c1 = c_cons c → h_pushed c1 = h_pushed c → h_popped c1 = h_popped c →
  (∀ p, prod_ok H T (c_slots c) (c_prod c1 p)) → conc_inv c1 H T queue.
Proof. intros [] Hl E1 E2 E3 E4 E5 E6 Hp. constructor; rewrite ?E1, ?E2, ?E3, ?E4, ?E5, ?E6; done. Qed.

Lemma prod_ok_set c H T queue p pc :
  conc_inv c H T queue → prod_ok H T (c_slots c) pc → ∀ q, prod_ok H T (c_slots c) (upd (c_prod c) p pc q).
Proof.
  intros Hinv Hok q. destruct (decide (q = p)) as [->|]; [by rewrite upd_same|]. rewrite upd_other by done. apply Hinv.
Qed.

(** A step of one producer that keeps its hold on the lock. *)
Lemma conc_inv_pc c H T queue p pc :
  conc_inv c H T queue → holds_lock pc = holds_lock (c_prod c p) → prod_ok H T (c_slots c) pc →
  conc_inv (set_pc p pc c) H T queue.
Proof.
  intros Hinv Hl Hok. eapply conc_inv_ext; try done; [apply lock_inv_pc; [apply Hinv|done]|]. by eapply prod_ok_set.
Qed.

(** The lock holder changes the shared part; the other producers keep what they
    know because they know nothing yet. *)
Lemma conc_inv_locked c c1 H T queue H' queue' p pc :
  conc_inv c H T queue → holds_lock (c_prod c p) = true → holds_lock pc = true →
  c_prod c1 = c_prod c → c_client c1 = c_client c → c_reader c1 = c_reader c → c_lock c1 = c_lock c →
  c_head c1 = u64 H' → c_tail c1 = u64 T → T ≤ H' ≤ T + capacity →
  length (c_slots c1) = Z.to_nat capacity → Z.of_nat (length queue') = H' - T →
  (∀ i ev, queue' !! i = Some ev → c_slots c1 !!! slot_index capacity (T + Z.of_nat i) = Some ev) →
  h_pushed c1 = h_popped c1 ++ queue' → prod_ok H' T (c_slots c1) pc →
  cons_ok H' T queue' (c_cons c1) →
  conc_inv (set_pc p pc c1) H' T queue'.
Proof.
  intros Hinv Hp Hpc Eprod Ecl Erd Elock Ehead Etail Hord Hlen Hq Hcont Hhist Hok Hcons.
  pose proof (ci_lock _ _ _ _ Hinv) as Hli.
  constructor; try done.
  - apply lock_inv_pc; [by eapply lock_inv_ext|]. by rewrite Eprod, Hp.
  - intros q. simpl. destruct (decide (q = p)) as [->|Hne]; [by rewrite upd_same|]. rewrite upd_other, Eprod by done.
    apply prod_ok_unlocked. destruct (holds_lock (c_prod c q)) eqn:Hl; [|done].
    by destruct (Hne (lock_exclusive _ _ _ Hli Hl Hp)).
Qed.

(** The consumer's knowledge survives publication. *)
Lemma cons_ok_publish H T queue ev pc :
  cons_ok H T queue pc → cons_ok (H + 1) T (queue ++ [ev]) pc.
Proof.
  destruct pc as [|h|t|t slot]; simpl; [done|..].
  - intros (h' & -> & ?). exists h'. split; [done|lia].
  - intros [-> ?]. split; [done|lia].
  - intros [-> (ev' & rest & -> & ->)]. split; [done|]. by exists ev', (rest ++ [ev]).
Qed.

(** Changes of the counters and of the local buffers. *)
Lemma conc_inv_dropped c H T queue n :
  conc_inv c H T queue → conc_inv (c <| c_dropped := n |>) H T queue.
Proof. intros Hinv. pose proof (ci_lock _ _ _ _ Hinv). eapply conc_inv_ext; try done; [by eapply lock_inv_ext|apply Hinv]. Qed.

Lemma conc_inv_enqueued c H T queue n :
  conc_inv c H T queue → conc_inv (c <| c_enqueued := n |>) H T queue.
Proof. intros Hinv. pose proof (ci_lock _ _ _ _ Hinv). eapply conc_inv_ext; try done; [by eapply lock_inv_ext|apply Hinv]. Qed.

Lemma conc_inv_buffered c H T queue l :
  conc_inv c H T queue → conc_inv (c <| h_buffered := l |>) H T queue.
Proof. intros Hinv. pose proof (ci_lock _ _ _ _ Hinv). eapply conc_inv_ext; try done; [by eapply lock_inv_ext|apply Hinv]. Qed.

Lemma conc_inv_acquire c H T queue p ev todo :
  conc_inv c H T queue → c_lock c = Free →
  conc_inv (set_pc p (PLocked ev todo) (c <| c_lock := Exclusive (HProducer p) |>)) H T queue.
Proof.
  intros Hinv Hl. pose proof (ci_lock _ _ _ _ Hinv). eapply conc_inv_ext; try done; [by apply lock_inv_acquire|].
  exact (prod_ok_set c H T queue p (PLocked ev todo) Hinv I).
Qed.

Lemma conc_inv_release c H T queue p :
  conc_inv c H T queue → c_prod c p = PUnlock →
  conc_inv (set_pc p PIdle (c <| c_lock := Free |>)) H T queue.
Proof.
  intros Hinv Hp. pose proof (ci_lock _ _ _ _ Hinv). eapply conc_inv_ext; try done.
  - apply lock_inv_release; [done|by rewrite Hp|done].
  - exact (prod_ok_set c H T queue p PIdle Hinv I).
Qed.

Lemma holds_next todo : holds_lock (next_event todo) = true.
Proof. by destruct todo. Qed.
Lemma prod_ok_next H T slots todo : prod_ok H T slots (next_event todo).
Proof. by destruct todo. Qed.

(** The lock holder's test is exact: the head cannot move, and the distance it
    computes is the number of waiting events. *)
Lemma locked_check c H T queue :
  conc_inv c H T queue → u64 (u64 H - c_tail c) = H - T.
Proof.
  intros Hinv. rewrite (ci_tail _ _ _ _ Hinv), u64_sub_u64. apply u64_small.
  pose proof (ci_order _ _ _ _ Hinv). rewrite Hcap in *.
  assert (2 ^ k ≤ 2 ^ 31) by (apply Z.pow_le_mono_r; lia). unfold is_u64. lia.
Qed.

Lemma conc_inv_slot c H T queue p pc x :
  conc_inv c H T queue → holds_lock (c_prod c p) = true → holds_lock pc = true → H - T < capacity →
  prod_ok H T (<[slot_index capacity (u64 H) := x]> (c_slots c)) pc →
  conc_inv (set_pc p pc (c <| c_slots ::= <[slot_index capacity (u64 H) := x]> |>)) H T queue.
Proof.
  intros Hinv Hp Hpc Hroom Hok. pose proof Hinv as [].
  apply (conc_inv_locked c _ H T queue H queue p pc Hinv); try done.
  - simpl. by rewrite length_insert.
  - intros i ev Hi. by eapply contents_write.
Qed.

Lemma conc_inv_publish c H T queue p ev h todo :
  conc_inv c H T queue → c_prod c p = PFilled ev h todo →
  conc_inv (set_pc p (PCounting todo) (c <| c_head := u64 (h + 1) |> <| h_pushed ::= λ l, l ++ [ev] |>))
    (H + 1) T (queue ++ [ev]).
Proof.
  intros Hinv Hp. pose proof (ci_prod _ _ _ _ Hinv p) as Hok. rewrite Hp in Hok.
  destruct Hok as (-> & Hroom & Hslot). pose proof Hinv as [].
  apply (conc_inv_locked c _ H T queue (H + 1) (queue ++ [ev]) p (PCounting todo) Hinv); try done.
  - by rewrite Hp.
  - simpl. by rewrite u64_add_u64_l.
  - lia.
  - rewrite length_app. simpl. lia.
  - intros i ev' [Hi|[Hge Hi]]%lookup_app_Some; [by apply ci_contents0|].
    apply list_lookup_singleton_Some in Hi as [Hz <-]. simpl.
    replace (T + Z.of_nat i) with H by lia. by rewrite <- idx_u64.
  - simpl. by rewrite ci_history0, app_assoc.
  - by apply cons_ok_publish.
Qed.

Lemma prod_step_inv c c' H T queue p :
  conc_inv c H T queue → prod_step p c = Some c' →
  ∃ H' queue', conc_inv c' H' T queue' ∧
    match c_prod c p with
    | PFilled ev _ _ => H' = H + 1 ∧ queue' = queue ++ [ev]
    | _ => H' = H ∧ queue' = queue
    end.
Proof.
  intros Hinv. unfold prod_step. pose proof (ci_prod _ _ _ _ Hinv p) as Hok.
  destruct (c_prod c p) as [|ev|ev h|ev|ev|ev todo|ev todo h|more|ev todo|ev todo|ev h todo|ev todo|ev h todo
    |ev h todo|ev h todo|todo|] eqn:Hp; simpl in Hok; [done|try (intros [= <-]; eexists _, _; split; [|done])..].
  - apply conc_inv_pc; [done|by rewrite Hp|done].
  - apply conc_inv_pc; [done|rewrite Hp; by destruct (_ <=? _)|by destruct (_ <=? _)].
  - apply conc_inv_pc; [by apply conc_inv_dropped|simpl; by rewrite Hp|done].
  - destruct (c_lock c) as [|h|l] eqn:Hl; intros [= <-]; eexists _, _; (split; [|done]); [by apply conc_inv_acquire|..];
      (apply conc_inv_pc; [by apply conc_inv_buffered|simpl; by rewrite Hp|done]).
  - apply conc_inv_pc; [done|by rewrite Hp|done].
  - apply conc_inv_pc; [done|rewrite Hp; by destruct (_ <=? _)|by destruct (_ <=? _)].
  - apply conc_inv_pc; [by apply conc_inv_dropped|simpl; rewrite Hp; by destruct more|by destruct more].
  - destruct (c_lock c) as [|h|l] eqn:Hl; [|done..]. intros [= <-]. eexists _, _. split; [|done]. by apply conc_inv_acquire.
  - apply conc_inv_pc; [done|by rewrite Hp|apply Hinv].
  - apply conc_inv_pc; [done|rewrite Hp; by destruct (_ || _)|]. subst h.
    rewrite (locked_check _ _ _ _ Hinv).
    destruct (Z.leb_spec capacity (H - T)), force; simpl; done.
  - apply conc_inv_pc; [by apply conc_inv_dropped|simpl; rewrite Hp; apply holds_next|apply prod_ok_next].
  - destruct Hok as [-> Hroom]. apply conc_inv_slot; by rewrite ?Hp.
  - destruct Hok as [-> Hroom]. apply conc_inv_slot; rewrite ?Hp; try done.
    split_and!; [done..|]. apply list_lookup_total_insert_eq. apply conc_idx_lt, Hinv.
  - by apply conc_inv_publish.
  - apply conc_inv_pc; [by apply conc_inv_enqueued|simpl; rewrite Hp; apply holds_next|apply prod_ok_next].
  - by apply conc_inv_release.
Qed.

(** A producer's knowledge survives the consumer's progress. *)
Lemma prod_ok_advance H T slots pc : prod_ok H T slots pc → prod_ok H (T + 1) slots pc.
Proof.
  destruct pc; simpl; try tauto; [intros [-> ?]; split; [done|lia]..|].
  intros (-> & ? & ?). split; [done|]. split; [lia|done].
Qed.

Lemma cons_step_inv c c' H T queue :
  conc_inv c H T queue → cons_step c = Some c' →
  ∃ T' queue', conc_inv c' H T' queue' ∧
    match c_cons c with
    | CCopied _ _ => T' = T + 1 ∧ ∃ ev, queue = ev :: queue'
    | _ => T' = T ∧ queue' = queue
    end.
Proof.
  intros Hinv. pose proof (ci_cons _ _ _ _ Hinv) as Hc. pose proof (ci_lock _ _ _ _ Hinv) as Hli. pose proof Hinv as [].
  unfold cons_step. destruct (c_cons c) as [|h|t|t slot] eqn:Hpc; simpl in Hc; intros [= <-].
  - exists T, queue. split; [|done]. constructor; try done; try by eapply lock_inv_ext. simpl. exists H. split; [done|lia].
  - exists T, queue. split; [|done]. constructor; try done; try by eapply lock_inv_ext. simpl. destruct Hc as (h' & -> & Hh).
    destruct (Z.eqb_spec (u64 h') (c_tail c)) as [|Hne]; [done|]. split; [done|].
    destruct (decide (T = h')) as [->|]; [by destruct Hne|]. lia.
  - exists T, queue. split; [|done]. constructor; try done; try by eapply lock_inv_ext. destruct Hc as [-> Hlt]. split; [done|].
    destruct queue as [|ev rest]; [simpl in *; lia|].
    exists ev, rest. split; [|done]. rewrite idx_u64, <- (ci_contents0 0%nat ev eq_refl). f_equal. f_equal. lia.
  - destruct Hc as (-> & ev & rest & -> & ->). exists (T + 1), rest. split; [|by eauto]. constructor; try done; try (by eapply lock_inv_ext); simpl in *.
    + by rewrite u64_add_u64_l.
    + lia.
    + lia.
    + intros i ev' Hi. rewrite <- (ci_contents0 (S i) ev' Hi). f_equal. f_equal. lia.
    + by rewrite ci_history0, <- app_assoc.
    + intros p. by apply prod_ok_advance.
Qed.

Lemma reader_step_inv c c' H T queue p :
  conc_inv c H T queue → reader_step p c = Some c' → conc_inv c' H T queue.
Proof.
  intros Hinv. pose proof (ci_lock _ _ _ _ Hinv) as Hli. pose proof (ci_prod _ _ _ _ Hinv) as Hok. unfold reader_step.
  destruct (c_reader c p) as [|h|n|n|n] eqn:Hp; [..|done].
  - intros [= <-]. eapply conc_inv_ext; try done. apply lock_inv_reader_pc; [done|by rewrite Hp].
  - intros [= <-]. eapply conc_inv_ext; try done. apply lock_inv_reader_pc; [done|by rewrite Hp].
  - destruct (c_lock c) as [|h|l] eqn:Hl; [|done|]; intros [= <-]; (eapply conc_inv_ext; try done);
      apply lock_inv_share; auto.
  - intros [= <-]. eapply conc_inv_ext; try done. destruct (lock_inv_unshare c p n Hli Hp) as (lock & H1 & l & Hl & ->).
    by rewrite Hl.
Qed.

Lemma client_step_inv c c' H T queue p :
  conc_inv c H T queue → client_step p c = Some c' → conc_inv c' H T queue.
Proof.
  intros Hinv. pose proof (ci_lock _ _ _ _ Hinv) as Hli. pose proof (ci_prod _ _ _ _ Hinv) as Hok. unfold client_step.
  destruct (c_client c p) as [|writes|[|op writes]] eqn:Hp; [done|..].
  - destruct (c_lock c) as [|h|l] eqn:Hl; [|done..]. intros [= <-]. eapply conc_inv_ext; try done.
    by apply lock_inv_client_acquire.
  - intros [= <-]. eapply conc_inv_ext; try done. apply lock_inv_client_release; [done|by rewrite Hp].
  - intros [= <-].
    assert (conc_inv (client_write op c) H T queue) as H1
      by (destruct op; [by apply conc_inv_enqueued|by apply conc_inv_dropped|done]).
    eapply conc_inv_ext; try done; [|apply H1]. apply lock_inv_client_pc; [apply H1|]. by destruct op; simpl; rewrite Hp.
Qed.

(** What an action does to the positions and to the queue. *)
Definition effect (a : Action) (c : Conf) (H T : Z) (queue : list Z) (H' T' : Z) (queue' : list Z) : Prop :=
  match a with
  | AProd p =>
    T' = T ∧ match c_prod c p with
             | PFilled ev _ _ => H' = H + 1 ∧ queue' = queue ++ [ev]
             | _ => H' = H ∧ queue' = queue
             end
  | ACons =>
    H' = H ∧ match c_cons c with
             | CCopied _ _ => T' = T + 1 ∧ ∃ ev, queue = ev :: queue'
             | _ => T' = T ∧ queue' = queue
             end
  | _ => H' = H ∧ T' = T ∧ queue' = queue
  end.

Lemma conc_inv_exec a c c' H T queue :
  conc_inv c H T queue → exec a c = Some c' →
  ∃ H' T' queue', conc_inv c' H' T' queue' ∧ effect a c H T queue H' T' queue'.
Proof.
  intros Hinv. destruct a as [p ev|p ev todo|p|p| |p|p writes|p]; simpl; intros Ha.
  - unfold prod_call in Ha. destruct (c_prod c p) eqn:Hp; try done. injection Ha as <-.
    exists H, T, queue. split; [|done]. apply conc_inv_pc; [done|by rewrite Hp|done].
  - unfold batch_call in Ha. destruct (c_prod c p) eqn:Hp; try done. injection Ha as <-.
    exists H, T, queue. split; [|done]. apply conc_inv_pc; [done|by rewrite Hp|done].
  - destruct (prod_step_inv _ _ _ _ _ _ Hinv Ha) as (H' & q' & ? & ?). by exists H', T, q'.
  - unfold prod_error in Ha. destruct (c_prod c p) eqn:Hp; try done; injection Ha as <-;
      exists H, T, queue; (split; [|done]); (apply conc_inv_pc; [done|by rewrite Hp|done]).
  - destruct (cons_step_inv _ _ _ _ _ Hinv Ha) as (T' & q' & ? & ?). by exists H, T', q'.
  - exists H, T, queue. split; [|done]. by eapply reader_step_inv.
  - exists H, T, queue. split; [|done]. unfold client_call in Ha. destruct (c_client c p) eqn:Hp; try done.
    injection Ha as <-. eapply conc_inv_ext; try done; [|apply Hinv]. apply lock_inv_client_pc; [apply Hinv|by rewrite Hp].
  - exists H, T, queue. split; [|done]. by eapply client_step_inv.
Qed.

Lemma conc_inv_step c c' H T queue :
  conc_inv c H T queue → step c c' → ∃ H' T' queue', conc_inv c' H' T' queue'.
Proof.
  intros Hinv [a Ha]. destruct (conc_inv_exec _ _ _ _ _ _ Hinv Ha) as (H' & T' & q' & ? & _). eauto.
Qed.

Lemma conc_inv_start pos : is_u64 pos → conc_inv (start pos) pos pos [].
Proof.
  intros Hpos. pose proof (pow2_pos k). constructor; try done; simpl.
  - by rewrite u64_small.
  - by rewrite u64_small.
  - lia.
  - apply repeat_length.
  - lia.
  - constructor; simpl; try done. intros p. split; [done|]. by intros (l & [=] & _).
Qed.

Lemma reachable_inv pos c : is_u64 pos → reachable pos c → ∃ H T queue, conc_inv c H T queue.
Proof.
  intros Hpos. unfold reachable. revert c. apply rtc_ind_r.
  - exists pos, pos, []. by apply conc_inv_start.
  - intros c c' _ Hs (H & T & queue & Hinv). by eapply conc_inv_step.
Qed.

End machine.

(** ** Properties *)

(** The events published and not yet consumed. *)
Definition waiting (c : Conf) : Z := Z.of_nat (length (h_pushed c)) - Z.of_nat (length (h_popped c)).

(** C6: Under every interleaving of producers, consumer and readers, from any
    initial position and across wrap-around: what the consumer has received is a
    prefix, in order, of what was published; at most [capacity] events wait; the
    stored positions differ by exactly the number waiting; and at most one producer
    is in the locked section. *)
Theorem concurrent_fifo k force pos c
  (Hk : 0 ≤ k ≤ 31) (Hpos : is_u64 pos) (Hreach : reachable (2 ^ k) force pos c) :
  (∃ queue, h_pushed c = h_popped c ++ queue) ∧
  0 ≤ waiting c ≤ 2 ^ k ∧ u64 (c_head c - c_tail c) = waiting c ∧
  (∀ p q, holds_lock (c_prod c p) = true → holds_lock (c_prod c q) = true → p = q).
Proof.
  destruct (reachable_inv (2 ^ k) force k Hk eq_refl pos c Hpos Hreach) as (H & T & queue & Hinv).
  assert (waiting c = H - T) as Hw.
  { unfold waiting. rewrite (ci_history _ _ _ _ _ Hinv), length_app.
    pose proof (ci_queue _ _ _ _ _ Hinv). lia. }
  pose proof (ci_order _ _ _ _ _ Hinv). split_and!.
  - exists queue. apply Hinv.
  - lia.
  - lia.
  - rewrite (ci_head _ _ _ _ _ Hinv), Hw. by eapply locked_check.
  - intros p q. by apply lock_exclusive, Hinv.
Qed.

(** The lock-free consumer never sees a slot that is being written: what it
    copies is a whole event, the next one in publication order, whatever the
    producers do meanwhile. *)
Theorem consumer_copies_next k force pos c t slot
  (Hk : 0 ≤ k ≤ 31) (Hpos : is_u64 pos) (Hreach : reachable (2 ^ k) force pos c)
  (Hat : c_cons c = CCopied t slot) :
  ∃ ev, slot = Some ev ∧ h_pushed c !! length (h_popped c) = Some ev.
Proof.
  destruct (reachable_inv (2 ^ k) force k Hk eq_refl pos c Hpos Hreach) as (H & T & queue & Hinv).
  pose proof (ci_cons _ _ _ _ _ Hinv) as Hc. rewrite Hat in Hc.
  destruct Hc as (_ & ev & rest & -> & ->). exists ev. split; [done|].
  rewrite (ci_history _ _ _ _ _ Hinv), lookup_app_r, Nat.sub_diag by done. done.
Qed.

(** The check under the lock is exact: a producer there finds the queue full
    if and only if [capacity] events wait at that instant, although the consumer
    moves the tail without the lock. *)
Theorem locked_full_check_exact k force pos c p ev h todo
  (Hk : 0 ≤ k ≤ 31) (Hpos : is_u64 pos) (Hreach : reachable (2 ^ k) force pos c)
  (Hat : c_prod c p = PLockedHead ev h todo) :
  2 ^ k ≤ u64 (h - c_tail c) ↔ waiting c = 2 ^ k.
Proof.
  destruct (reachable_inv (2 ^ k) force k Hk eq_refl pos c Hpos Hreach) as (H & T & queue & Hinv).
  pose proof (ci_prod _ _ _ _ _ Hinv p) as Hok. rewrite Hat in Hok. simpl in Hok. subst h.
  rewrite (locked_check (2 ^ k) k Hk eq_refl _ _ _ _ Hinv).
  pose proof (ci_order _ _ _ _ _ Hinv). pose proof (ci_queue _ _ _ _ _ Hinv).
  unfold waiting. rewrite (ci_history _ _ _ _ _ Hinv), length_app. lia.
Qed.

(** Producer 0 reads the head and stops; producer 1 enqueues and the consumer
    dequeues; then producer 0 reads the tail. *)
Definition overtaken : list Action :=
  [ACall 0 7; AProd 0; ACall 1 8] ++ repeat (AProd 1) 10 ++ repeat ACons 4 ++ [AProd 0; AProd 0].

(** C40: The lock-free overflow check reads the head before the tail, so a
    producer overtaken in between computes a distance that wraps around and drops
    its event although the queue was never full: here a queue of 1024 slots that
    never held more than one event. *)
Theorem fast_path_drops_with_room :
  ∃ c, reachable (2 ^ 10) false 0 c ∧ c_dropped c = 1 ∧ length (h_pushed c) = 1%nat.
Proof.
  destruct (exec_all (2 ^ 10) false overtaken (start (2 ^ 10) 0)) as [c|] eqn:Hc.
  - exists c. split; [by eapply exec_all_rtc|]. revert Hc. vm_compute. intros [= <-]. done.
  - revert Hc. vm_compute. done.
Qed.

(** [PschGetStats] reads the two positions one after the other without the
    lock, so a reader overtaken in between reports [2^32 - 1] waiting events for a
    queue of 1024 slots that never held more than one. *)
Theorem stats_queue_size_underflows :
  ∃ c, reachable (2 ^ 10) false 0 c ∧ c_reader c 0%nat = RDone (2 ^ 32 - 1) ∧
       length (h_pushed c) = 1%nat.
Proof.
  destruct (exec_all (2 ^ 10) false
    ([ARead 0; ACall 1 8] ++ repeat (AProd 1) 10 ++ repeat ACons 4 ++ repeat (ARead 0) 3) (start (2 ^ 10) 0))
    as [c|] eqn:Hc.
  - exists c. split; [by eapply exec_all_rtc|]. revert Hc. vm_compute. intros [= <-]. done.
  - revert Hc. vm_compute. done.
Qed.

(** ** Witnesses *)

(** A queue of one slot at the last position before wrap-around, full, with the
    consumer about to take the event and a producer under the lock. *)
Definition busy_trace : list Action :=
  [ACall 1 8] ++ repeat (AProd 1) 10 ++ [ACall 2 9; ACall 3 11; AProd 3; AProd 2; ACons; ACons; ACons].

Definition busy_conf : Conf := default (start 1 0) (exec_all (2 ^ 0) false busy_trace (start (2 ^ 0) (2 ^ 64 - 1))).

Lemma busy_reachable : reachable (2 ^ 0) false (2 ^ 64 - 1) busy_conf.
Proof.
  unfold busy_conf. destruct (exec_all (2 ^ 0) false busy_trace (start (2 ^ 0) (2 ^ 64 - 1))) as [c|] eqn:Hc.
  - by eapply exec_all_rtc.
  - revert Hc. by vm_compute.
Qed.

Lemma concurrent_fifo_witness : waiting busy_conf = 1 ∧ u64 (c_head busy_conf - c_tail busy_conf) = 1.
Proof.
  destruct (concurrent_fifo 0 false (2 ^ 64 - 1) busy_conf ltac:(lia) ltac:(done) busy_reachable)
    as (_ & _ & Hw & _).
  split; [reflexivity|]. rewrite Hw. reflexivity.
Defined.

Lemma consumer_copies_next_witness :
  ∃ ev, Some 8 = Some ev ∧ h_pushed busy_conf !! length (h_popped busy_conf) = Some ev.
Proof.
  apply (consumer_copies_next 0 false (2 ^ 64 - 1) busy_conf (2 ^ 64 - 1) (Some 8) ltac:(lia) ltac:(done)
    busy_reachable). reflexivity.
Defined.

(** A producer under the lock of an empty queue of one slot. *)
Definition locked_conf : Conf :=
  default (start 1 0) (exec_all (2 ^ 0) false [ACall 1 8; AProd 1; AProd 1; AProd 1; AProd 1] (start (2 ^ 0) 5)).

Lemma locked_reachable : reachable (2 ^ 0) false 5 locked_conf.
Proof.
  unfold locked_conf. destruct (exec_all (2 ^ 0) false _ (start (2 ^ 0) 5)) as [c|] eqn:Hc.
  - by eapply exec_all_rtc.
  - revert Hc. by vm_compute.
Qed.

Lemma locked_full_check_exact_witness : 2 ^ 0 ≤ u64 (5 - c_tail locked_conf) ↔ waiting locked_conf = 2 ^ 0.
Proof.
  apply (locked_full_check_exact 0 false 5 locked_conf 1%nat 8 5 [] ltac:(lia) ltac:(done) locked_reachable).
  reflexivity.
Defined.

End RingConc.
