(* ===== verification/RingLive.v ===== *)
(** Progress of the concurrent ring ([RingConc.v]): a call of [PschEnqueueEvent] is
    wait-free, the lock is always given back, and the consumer empties the queue
    whatever the producers do or fail to do. *)

From stdpp Require Import relations.
From S2P Require Import Prelude Shared Ring RingInv RingConc.
Import Shared Ring RingInv RingConc.

Module RingLive.

Section live.
Context (capacity : Z) (force : bool).
#[local] Abbreviation exec := (exec capacity force).
#[local] Abbreviation exec_all := (exec_all capacity force).
#[local] Abbreviation conc_inv := (conc_inv capacity).

(** ** Progress *)

(** An upper bound on the steps a producer has left in its call. *)
Definition left (pc : ProducerPC) : nat :=
  match pc with
  | PIdle => 0 | PEnter _ => 10 | PGotHead _ _ => 9 | POverflow _ => 1 | PTryLock _ => 8
  | BEnter _ todo => 10 + 6 * length todo | BGotHead _ todo _ => 9 + 6 * length todo
  | BOverflow more => S more | BLock _ todo => 8 + 6 * length todo
  | PLocked _ todo => 7 + 6 * length todo | PLockedHead _ _ todo => 6 + 6 * length todo
  | PLockedFull _ todo => 2 + 6 * length todo | PFilling _ _ todo => 5 + 6 * length todo
  | PPartial _ _ todo => 4 + 6 * length todo | PFilled _ _ todo => 3 + 6 * length todo
  | PCounting todo => 2 + 6 * length todo | PUnlock => 1
  end.

Lemma left_next todo : (left (next_event todo) < 2 + 6 * length todo)%nat.
Proof. destruct todo; simpl; lia. Qed.

Definition own (p : nat) (a : Action) : bool :=
  match a with AProd q | AError q => (q =? p)%nat | _ => false end.
Definition calls (p : nat) (a : Action) : bool :=
  match a with ACall q _ | ABatch q _ _ => (q =? p)%nat | _ => false end.

Lemma own_step p a c c' :
  exec a c = Some c' → own p a = true → (left (c_prod c' p) < left (c_prod c p))%nat.
Proof.
  destruct a as [q ev|q ev todo|q|q| |q|q w|q]; simpl; try done; intros Ha ->%Nat.eqb_eq.
  - unfold prod_step in Ha. destruct (c_prod c p) as [|ev|ev h|ev|ev|ev todo|ev todo h|more|ev todo|ev todo|ev h todo
      |ev todo|ev h todo|ev h todo|ev h todo|todo|]; simplify_eq; simpl;
      try (destruct (c_lock c); simplify_eq; simpl); rewrite upd_same;
      try destruct (_ <=? _); try destruct force; try destruct more; simpl; try apply left_next; lia.
  - unfold prod_error in Ha. destruct (c_prod c p); simplify_eq; simpl; rewrite upd_same; simpl; lia.
Qed.

Lemma other_step p a c c' :
  exec a c = Some c' → own p a = false → calls p a = false → c_prod c' p = c_prod c p.
Proof.
  destruct a as [q ev|q ev todo|q|q| |q|q w|q]; simpl; intros Ha Ho Hc;
    try (apply Nat.eqb_neq in Ho || apply Nat.eqb_neq in Hc).
  - unfold prod_call in Ha. destruct (c_prod c q); simplify_eq. simpl. by rewrite upd_other.
  - unfold batch_call in Ha. destruct (c_prod c q); simplify_eq. simpl. by rewrite upd_other.
  - unfold prod_step in Ha. destruct (c_prod c q); simplify_eq; simpl; try (destruct (c_lock c); simplify_eq; simpl);
      by rewrite upd_other.
  - unfold prod_error in Ha. destruct (c_prod c q); simplify_eq; simpl; by rewrite upd_other.
  - unfold cons_step in Ha. by destruct (c_cons c); simplify_eq.
  - unfold reader_step in Ha. destruct (c_reader c q); simplify_eq; try done. by destruct (c_lock c); simplify_eq.
  - unfold client_call in Ha. by destruct (c_client c q); simplify_eq.
  - unfold client_step in Ha. destruct (c_client c q) as [|w|[|op w]]; simplify_eq; try done.
    + by destruct (c_lock c); simplify_eq.
    + by destruct op.
Qed.

Lemma own_steps p l c c' :
  exec_all l c = Some c' → Forall (λ a, calls p a = false) l →
  (length (filter (λ a, own p a = true) l) + left (c_prod c' p) ≤ left (c_prod c p))%nat.
Proof.
  revert c. induction l as [|a l IH]; intros c; simpl; [intros [= ->]; simpl; lia|].
  destruct (exec a c) as [c1|] eqn:Ha; [|done]. intros Hl [Hc Hcs]%Forall_cons. specialize (IH _ Hl Hcs).
  destruct (own p a) eqn:Ho.
  - rewrite filter_cons_True by done. pose proof (own_step _ _ _ _ Ha Ho). simpl. lia.
  - rewrite filter_cons_False by (by rewrite Ho). by rewrite (other_step _ _ _ _ Ha Ho Hc) in IH.
Qed.

(** A producer is only ever kept waiting for the lock, and only with a batch. *)
Definition blocked (c : Conf) (pc : ProducerPC) : Prop :=
  match pc with BLock _ _ => c_lock c ≠ Free | _ => False end.

Lemma prod_enabled p c : c_prod c p ≠ PIdle → ¬ blocked c (c_prod c p) → is_Some (prod_step capacity force p c).
Proof.
  unfold prod_step, blocked. destruct (c_prod c p); try done; [..|destruct (c_lock c); naive_solver]; try (intros; eauto; fail).
  by destruct (c_lock c); eauto.
Qed.

(** The program counters of a call of [PschEnqueueEvent]. *)
Definition single (pc : ProducerPC) : bool :=
  match pc with BEnter _ _ | BGotHead _ _ _ | BOverflow _ | BLock _ _ => false | _ => true end.

Lemma single_step p a c c' :
  exec a c = Some c' → calls p a = false → single (c_prod c p) = true → single (c_prod c' p) = true.
Proof.
  intros Ha Hc Hs. destruct (own p a) eqn:Ho; [|by rewrite (other_step _ _ _ _ Ha Ho Hc)].
  destruct a as [q ev|q ev todo|q|q| |q|q w|q]; simpl in *; try done; apply Nat.eqb_eq in Ho as ->.
  - unfold prod_step in Ha. destruct (c_prod c p) as [|ev|ev h|ev|ev|ev todo|ev todo h|more|ev todo|ev todo|ev h todo
      |ev todo|ev h todo|ev h todo|ev h todo|todo|]; simplify_eq; simpl;
      try (destruct (c_lock c); simplify_eq; simpl); rewrite upd_same;
      try destruct (_ <=? _); try destruct force; try destruct todo; done.
  - unfold prod_error in Ha. destruct (c_prod c p); simplify_eq; simpl; by rewrite upd_same.
Qed.

Lemma single_steps p l c c' :
  exec_all l c = Some c' → Forall (λ a, calls p a = false) l → single (c_prod c p) = true → single (c_prod c' p) = true.
Proof.
  revert c. induction l as [|a l IH]; intros c; simpl; [by intros [= ->]|].
  destruct (exec a c) as [c1|] eqn:Ha; [|done]. intros Hl [Hc Hcs]%Forall_cons Hs. eapply IH; [done..|].
  by eapply single_step.
Qed.

Lemma exec_all_app l1 l2 c :
  exec_all (l1 ++ l2) c = match exec_all l1 c with Some c1 => exec_all l2 c1 | None => None end.
Proof. revert c. induction l1 as [|a l1 IH]; intros c; simpl; [done|]. destruct (exec a c); [apply IH|done]. Qed.

Context (k : Z) (Hk : 0 ≤ k ≤ 31) (Hcap : capacity = 2 ^ k).

Lemma conc_inv_steps l c c' H T queue :
  exec_all l c = Some c' → conc_inv c H T queue → ∃ H' T' queue', conc_inv c' H' T' queue'.
Proof.
  revert c H T queue. induction l as [|a l IH]; intros c H T queue; simpl; [intros [= ->]; eauto|].
  destruct (exec a c) as [c1|] eqn:Ha; [|done]. intros Hl Hinv.
  destruct (conc_inv_step capacity force k Hk Hcap _ c1 _ _ _ Hinv (do_step _ _ _ _ a Ha)) as (H' & T' & q' & Hinv'). eauto.
Qed.

(** *** The lock *)

Lemma holder_enabled p c : holds_lock (c_prod c p) = true → is_Some (prod_step capacity force p c).
Proof. unfold prod_step. destruct (c_prod c p); try done; eauto. Qed.

Lemma prod_releases p c H T queue :
  conc_inv c H T queue → holds_lock (c_prod c p) = true →
  ∃ n c', exec_all (replicate n (AProd p)) c = Some c' ∧ c_lock c' = Free.
Proof.
  remember (left (c_prod c p)) as m eqn:Hm. revert c H T queue Hm.
  induction (lt_wf m) as [m _ IH]; intros c H T queue -> Hinv Hh.
  assert (is_Some (prod_step capacity force p c)) as [c1 Hs] by by apply holder_enabled.
  pose proof (own_step p (AProd p) c c1 Hs (Nat.eqb_refl p)) as Hlt.
  assert (c_lock c1 = Free ∨ holds_lock (c_prod c1 p) = true) as [Hf|Hh1].
  { unfold prod_step in Hs. destruct (c_prod c p); try done; injection Hs as <-; try (by left); right; simpl;
      rewrite upd_same; try destruct (_ || _); rewrite ?holds_next; done. }
  - exists 1%nat, c1. split; [|done]. simpl. by rewrite Hs.
  - destruct (prod_step_inv capacity force k Hk Hcap _ _ _ _ _ _ Hinv Hs) as (H1 & q1 & Hinv1 & _).
    destruct (IH _ Hlt c1 _ _ _ eq_refl Hinv1 Hh1) as (n & c' & Hrun & Hf). exists (S n), c'. split; [|done].
    simpl. by rewrite Hs.
Qed.

Lemma client_releases p c writes :
  c_client c p = KHeld writes →
  ∃ n c', exec_all (replicate n (AClient p)) c = Some c' ∧ c_lock c' = Free.
Proof.
  revert c. induction writes as [|op writes IH]; intros c Hp.
  - exists 1%nat. simpl. unfold client_step. rewrite Hp. eexists. by split.
  - destruct (IH (set_client p (KHeld writes) (client_write op c))) as (n & c' & Hrun & Hf); [simpl; apply upd_same|].
    exists (S n), c'. split; [|done]. simpl. unfold client_step. by rewrite Hp.
Qed.

Lemma readers_release l c H T queue :
  conc_inv c H T queue → c_lock c = Shared l →
  ∃ acts c', Forall (λ a, ∃ p, a = ARead p ∧ p ∈ l) acts ∧ exec_all acts c = Some c' ∧ c_lock c' = Free.
Proof.
  remember (length l) as m eqn:Hm. revert l c Hm. induction (lt_wf m) as [m _ IH]; intros l c -> Hinv Hl.
  pose proof (ci_lock _ _ _ _ _ Hinv) as Hli. destruct l as [|p l]; [by destruct (li_shared _ Hli)|].
  assert (reader_holds (c_reader c p) = true) as Hp.
  { apply (li_reader _ Hli). exists (p :: l). split; [done|set_solver]. }
  destruct (reader_step p c) as [c1|] eqn:Hs; [|unfold reader_step in Hs; by destruct (c_reader c p)].
  assert (conc_inv c1 H T queue) as Hinv1 by by eapply reader_step_inv.
  assert (c_lock c1 = match filter (λ q, q ≠ p) (p :: l) with [] => Free | l' => Shared l' end) as Hl1.
  { unfold reader_step in Hs. destruct (c_reader c p); try done. injection Hs as <-. simpl. by rewrite Hl. }
  assert (length (filter (λ q, q ≠ p) (p :: l)) < length (p :: l))%nat as Hlt.
  { rewrite filter_cons_False by naive_solver. simpl. pose proof (length_filter (λ q, q ≠ p) l). lia. }
  assert (∀ q, q ∈ filter (λ q, q ≠ p) (p :: l) → q ∈ p :: l) as Hsub by (intros q; rewrite list_elem_of_filter; tauto).
  destruct (filter _ (p :: l)) as [|q l'].
  - exists [ARead p], c1. split_and!; [|simpl; by rewrite Hs|done].
    apply Forall_singleton. exists p. split; [done|set_solver].
  - destruct (IH _ Hlt (q :: l') c1 eq_refl Hinv1 Hl1) as (acts & c' & Hacts & Hrun & Hf).
    exists (ARead p :: acts), c'. split_and!; [|simpl; by rewrite Hs|done]. apply Forall_cons. split.
    + exists p. split; [done|set_solver].
    + eapply Forall_impl; [exact Hacts|]. intros a (r & -> & Hr). exists r. auto.
Qed.

(** The steps of those that hold the lock. *)
Definition by_holder (c : Conf) (a : Action) : bool :=
  match a with
  | AProd p => holds_lock (c_prod c p)
  | AClient p => client_holds (c_client c p)
  | ARead p => reader_holds (c_reader c p)
  | _ => false
  end.

Lemma holders_release c H T queue :
  conc_inv c H T queue →
  ∃ acts c', Forall (λ a, by_holder c a = true) acts ∧ exec_all acts c = Some c' ∧ c_lock c' = Free.
Proof.
  intros Hinv. pose proof (ci_lock _ _ _ _ _ Hinv) as Hli.
  destruct (c_lock c) as [|[p|p]|l] eqn:Hl.
  - exists [], c. by split_and!.
  - apply (li_prod _ Hli) in Hl. destruct (prod_releases _ _ _ _ _ Hinv Hl) as (n & c' & Hrun & Hf).
    exists (replicate n (AProd p)), c'. split_and!; [|done..]. by apply Forall_replicate.
  - apply (li_client _ Hli) in Hl as Hc. destruct (c_client c p) as [| |writes] eqn:Hp; try done.
    destruct (client_releases _ _ _ Hp) as (n & c' & Hrun & Hf).
    exists (replicate n (AClient p)), c'. split_and!; [|done..]. apply Forall_replicate. simpl. by rewrite Hp.
  - destruct (readers_release _ _ _ _ _ Hinv Hl) as (acts & c' & Ha & Hrun & Hf). exists acts, c'. split_and!; [|done..].
    eapply Forall_impl; [exact Ha|]. intros a (p & -> & Hp). simpl. apply (li_reader _ Hli). eauto.
Qed.

(** Those that do not hold the lock stay where they are. *)
Lemma not_holder_stays p acts c c' c0 :
  exec_all acts c = Some c' → Forall (λ a, by_holder c0 a = true) acts → holds_lock (c_prod c0 p) = false →
  c_prod c' p = c_prod c p.
Proof.
  intros Hrun Hacts Hp. revert c Hrun. induction Hacts as [|a acts Ha Hacts IH]; intros c; simpl; [by intros [= ->]|].
  destruct (exec a c) as [c1|] eqn:Hs; [|done]. intros Hrun. rewrite (IH _ Hrun).
  apply (other_step _ _ _ _ Hs); destruct a as [q ev|q ev todo|q|q| |q|q w|q]; simpl in *; try done.
  apply Nat.eqb_neq. intros ->. congruence.
Qed.

(** *** The consumer *)

(** What the consumer's steps leave alone. *)
Lemma cons_frame n c c' :
  exec_all (replicate n ACons) c = Some c' → h_pushed c' = h_pushed c ∧ c_prod c' = c_prod c.
Proof.
  clear k Hk Hcap.
  revert c. induction n as [|n IH]; intros c; cbn [replicate RingConc.exec_all]; [by intros [= ->]|].
  destruct (exec ACons c) as [c1|] eqn:Hs; [|done]. intros [-> ->]%IH. simpl in Hs. unfold cons_step in Hs.
  by destruct (c_cons c); simplify_eq.
Qed.

Lemma cons_popped_mono n c c' :
  exec_all (replicate n ACons) c = Some c' → (length (h_popped c) ≤ length (h_popped c'))%nat.
Proof.
  clear k Hk Hcap.
  revert c. induction n as [|n IH]; intros c; cbn [replicate RingConc.exec_all]; [by intros [= ->]|].
  destruct (exec ACons c) as [c1|] eqn:Hs; [|done]. intros Hrun%IH. simpl in Hs. unfold cons_step in Hs.
  destruct (c_cons c); simplify_eq; simpl in *; rewrite ?length_app in Hrun; simpl in *; lia.
Qed.

(** The consumer finishes the call it is in. *)
Lemma cons_finishes c :
  ∃ n c', (n ≤ 3)%nat ∧ exec_all (replicate n ACons) c = Some c' ∧ c_cons c' = CIdle.
Proof.
  clear k Hk Hcap.
  assert (∀ n c1, (n ≤ 2)%nat → cons_step capacity c = Some c1 →
    (∃ c', exec_all (replicate n ACons) c1 = Some c' ∧ c_cons c' = CIdle) →
    ∃ n c', (n ≤ 3)%nat ∧ exec_all (replicate n ACons) c = Some c' ∧ c_cons c' = CIdle) as Hstep.
  { intros n c1 Hn Hs (c' & Hrun & Hc'). exists (S n), c'. split_and!; [lia| |done]. simpl. by rewrite Hs. }
  unfold cons_step in Hstep. destruct (c_cons c) as [|h|t|t slot] eqn:Hc.
  - exists 0%nat, c. split_and!; [lia|done|done].
  - destruct (Z.eqb_spec h (c_tail c)) as [Heq|Hne]; [apply (Hstep 0%nat _ ltac:(lia) eq_refl)|
      apply (Hstep 2%nat _ ltac:(lia) eq_refl)]; eexists; (split; [reflexivity|done]).
  - apply (Hstep 1%nat _ ltac:(lia) eq_refl). eexists. split; [reflexivity|done].
  - apply (Hstep 0%nat _ ltac:(lia) eq_refl). eexists. split; [reflexivity|done].
Qed.

(** A call on a queue that is not empty takes an event. *)
Lemma cons_takes c H T queue :
  conc_inv c H T queue → c_cons c = CIdle → queue ≠ [] →
  ∃ c' ev, exec_all (replicate 4 ACons) c = Some c' ∧ c_cons c' = CIdle ∧ h_popped c' = h_popped c ++ [ev].
Proof.
  intros Hinv Hc Hne. assert (c_head c ≠ c_tail c) as Hht.
  { rewrite (ci_head _ _ _ _ _ Hinv), (ci_tail _ _ _ _ _ Hinv). intros Heq.
    assert (u64 (u64 H - c_tail c) = 0) as H0 by (by rewrite (ci_tail _ _ _ _ _ Hinv), Heq, Z.sub_diag).
    rewrite (locked_check capacity k Hk Hcap _ _ _ _ Hinv) in H0. pose proof (ci_queue _ _ _ _ _ Hinv).
    destruct queue; [done|simpl in *; lia]. }
  cbn [replicate RingConc.exec_all RingConc.exec]. unfold cons_step. rewrite Hc. simpl.
  rewrite (proj2 (Z.eqb_neq _ _) Hht). eexists _, _. split; [reflexivity|]. by split.
Qed.

Lemma cons_drains c H T queue :
  conc_inv c H T queue → c_cons c = CIdle →
  ∃ c', exec_all (replicate (4 * length queue) ACons) c = Some c' ∧ c_cons c' = CIdle ∧ h_popped c' = h_pushed c'.
Proof.
  remember (length queue) as m eqn:Hm. revert c H T queue Hm. induction m as [|m IH]; intros c H T queue Hm Hinv Hc.
  - exists c. split_and!; [done|done|]. destruct queue; [|done]. by rewrite (ci_history _ _ _ _ _ Hinv), app_nil_r.
  - destruct (cons_takes c H T queue Hinv Hc) as (c1 & ev & Hrun & Hc1 & Hpop); [by destruct queue|].
    destruct (conc_inv_steps _ _ _ _ _ _ Hrun Hinv) as (H1 & T1 & q1 & Hinv1).
    assert (m = length q1) as Hm1.
    { destruct (cons_frame _ _ _ Hrun) as [Hpush _]. pose proof (ci_history _ _ _ _ _ Hinv1) as Hh.
      rewrite Hpush, Hpop, (ci_history _ _ _ _ _ Hinv) in Hh. apply (f_equal length) in Hh.
      rewrite !length_app in Hh. simpl in Hh. lia. }
    destruct (IH c1 H1 T1 q1 Hm1 Hinv1 Hc1) as (c' & Hrun' & Hc' & Hdone). exists c'. split_and!; [|done..].
    replace (4 * S m)%nat with (4 + 4 * m)%nat by lia. rewrite replicate_add, exec_all_app. by rewrite Hrun.
Qed.

End live.

(** ** Properties *)



(** The consumer drains the queue by itself: from every reachable state, with the
    producers stopped anywhere, in the middle of a slot or holding the lock, at most
    four steps for each waiting event and three to finish the call it is in give it
    every published event, in order, and leave it idle. *)
Theorem consumer_drains_queue k force pos c
  (Hk : 0 ≤ k ≤ 31) (Hpos : is_u64 pos) (Hreach : reachable (2 ^ k) force pos c) :
  ∃ n c', Z.of_nat n ≤ 4 * waiting c + 3 ∧ exec_all (2 ^ k) force (replicate n ACons) c = Some c' ∧
    h_popped c' = h_pushed c ∧ c_cons c' = CIdle ∧ c_prod c' = c_prod c.
Proof.
  destruct (reachable_inv (2 ^ k) force k Hk eq_refl pos c Hpos Hreach) as (H & T & queue & Hinv).
  destruct (cons_finishes (2 ^ k) force c) as (n & c1 & Hn & Hrun & Hc1).
  destruct (conc_inv_steps (2 ^ k) force k Hk eq_refl _ _ _ _ _ _ Hrun Hinv) as (H1 & T1 & q1 & Hinv1).
  destruct (cons_drains (2 ^ k) force k Hk eq_refl c1 H1 T1 q1 Hinv1 Hc1) as (c2 & Hrun2 & Hc2 & Hd).
  destruct (cons_frame _ _ _ _ _ Hrun) as [E1 E2]. destruct (cons_frame _ _ _ _ _ Hrun2) as [E3 E4].
  exists (n + 4 * length q1)%nat, c2. split_and!; [| | |done|].
  - assert (length (h_popped c) ≤ length (h_popped c1))%nat as Hmono by by eapply cons_popped_mono.
    pose proof (ci_history _ _ _ _ _ Hinv1) as Hh. rewrite E1 in Hh. apply (f_equal length) in Hh.
    rewrite length_app in Hh. unfold waiting. lia.
  - rewrite replicate_add, exec_all_app. by rewrite Hrun.
  - congruence.
  - congruence.
Qed.

(** *** Witnesses *)

(** Producer 2 stops after it took the lock; producer 1 calls and takes two steps. *)
Definition stuck_trace : list Action :=
  [ACall 2 9; AProd 2; AProd 2; AProd 2; ABatch 3 4 [5]; AProd 3; AProd 3; ARead 0].

Definition stuck_conf : Conf := default (start 1 0) (exec_all (2 ^ 0) false stuck_trace (start (2 ^ 0) 0)).

Lemma stuck_reachable : reachable (2 ^ 0) false 0 stuck_conf.
Proof.
  unfold stuck_conf. destruct (exec_all (2 ^ 0) false stuck_trace (start (2 ^ 0) 0)) as [c|] eqn:Hc.
  - by eapply exec_all_rtc.
  - revert Hc. by vm_compute.
Qed.



Lemma consumer_drains_queue_witness :
  ∃ n c', exec_all (2 ^ 0) false (replicate n ACons) busy_conf = Some c' ∧ h_popped c' = [8].
Proof.
  destruct (consumer_drains_queue 0 false (2 ^ 64 - 1) busy_conf ltac:(lia) ltac:(done) busy_reachable)
    as (n & c' & _ & Hrun & Hpop & _).
  exists n, c'. split; [exact Hrun|]. rewrite Hpop. reflexivity.
Defined.

End RingLive.
