(* ===== verification/WeakMem.v ===== *)
(** A weakly ordered shared memory, for the barriers of [src/src/queue/shmem.c].

    [pg_atomic_read_u64] and [pg_atomic_write_u64] order nothing, nor do plain accesses;
    [pg_read_barrier], [pg_write_barrier] and [pg_memory_barrier] are the acquire, the
    release and the full fence of C11, and a lightweight lock passes on what its last
    holder knew. Memory keeps all the values a location ever had. What a process knows is
    a view: for each location how old a value it may still read. So a process may see a
    later write and miss an earlier one to another location, unless fences forbid it.

    A write goes behind all values of its location, since here each location has one
    writer at a time, and a process does not write before its earlier reads are done:
    in the code a branch or the data copied stands in between. *)

From S2P Require Import Prelude.

Module WeakMem.

Section memory.
Context {Loc : Type} `{!EqDecision Loc}.

Definition View : Type := Loc → nat.

Definition join (V W : View) : View := λ l, Nat.max (V l) (W l).
Definition bump (l : Loc) (ts : nat) (V : View) : View := λ l', if decide (l' = l) then Nat.max (V l') ts else V l'.

(** A value with what its reader may come to know. *)
Record Message := { m_val : Z; m_view : View }.
Definition Memory : Type := Loc → list Message.

(** What a process knows, will know after an acquire fence, and knew at its last release
    fence. *)
Record TView := { cur : View; acq : View; rel : View }.

(** Reading the [ts]-th value of a location, if it is not too old. *)
Definition read (l : Loc) (ts : nat) (tv : TView) (m : Memory) : option (Z * TView) :=
  if (cur tv l <=? ts)%nat then
    match m l !! ts with
    | Some msg =>
      Some (m_val msg, {| cur := bump l ts (cur tv); acq := join (acq tv) (bump l ts (m_view msg)); rel := rel tv |})
    | None => None
    end
  else None.

Definition write (l : Loc) (v : Z) (tv : TView) (m : Memory) : TView * Memory :=
  let ts := length (m l) in
  let view := bump l ts (rel tv) in
  ({| cur := bump l ts (cur tv); acq := bump l ts (acq tv); rel := rel tv |},
   λ l', if decide (l' = l) then m l ++ [{| m_val := v; m_view := view |}] else m l').

Definition pg_read_barrier (tv : TView) : TView :=
  {| cur := join (cur tv) (acq tv); acq := acq tv; rel := rel tv |}.
Definition pg_write_barrier (tv : TView) : TView := {| cur := cur tv; acq := acq tv; rel := cur tv |}.
Definition pg_memory_barrier (tv : TView) : TView := pg_write_barrier (pg_read_barrier tv).

(** Taking a lock whose last holder knew [V]. *)
Definition lock_acquire (V : View) (tv : TView) : TView :=
  {| cur := join (cur tv) V; acq := join (acq tv) V; rel := rel tv |}.

Definition no_view : View := λ _, 0%nat.
Definition no_tview : TView := {| cur := no_view; acq := no_view; rel := no_view |}.

(** ** Order of views *)

Definition view_le (V W : View) : Prop := ∀ l, (V l ≤ W l)%nat.

#[export] Instance view_le_preorder : PreOrder view_le.
Proof. split; [intros V l; lia|]. intros V W X H1 H2 l. specialize (H1 l). specialize (H2 l). lia. Qed.

Lemma join_l V W : view_le V (join V W).
Proof. intros l. unfold join. lia. Qed.
Lemma join_r V W : view_le W (join V W).
Proof. intros l. unfold join. lia. Qed.
Lemma bump_le l ts V : view_le V (bump l ts V).
Proof. intros l'. unfold bump. case_decide; lia. Qed.
Lemma bump_here l ts V : (ts ≤ bump l ts V l)%nat.
Proof. unfold bump. rewrite decide_True by done. lia. Qed.

Lemma read_inv l ts tv m v tv' :
  read l ts tv m = Some (v, tv') →
  (cur tv l ≤ ts)%nat ∧ ∃ V, m l !! ts = Some {| m_val := v; m_view := V |} ∧
  view_le (cur tv) (cur tv') ∧ (ts ≤ cur tv' l)%nat ∧ view_le (acq tv) (acq tv') ∧ view_le V (acq tv') ∧ rel tv' = rel tv.
Proof.
  unfold read. destruct (Nat.leb_spec (cur tv l) ts); [|done]. destruct (m l !! ts) as [[v' V]|]; [|done].
  intros [= <- <-]. split; [done|]. exists V. simpl.
  split_and!; [done|apply bump_le|apply bump_here|apply join_l| |done]. etrans; [apply bump_le|apply join_r].
Qed.

Lemma write_mem l v tv m :
  (write l v tv m).2 l = m l ++ [{| m_val := v; m_view := bump l (length (m l)) (rel tv) |}].
Proof. simpl. by rewrite decide_True. Qed.
Lemma write_other l v tv m l' : l' ≠ l → (write l v tv m).2 l' = m l'.
Proof. intros. simpl. by rewrite decide_False. Qed.
Lemma write_view l v tv m :
  view_le (cur tv) (cur (write l v tv m).1) ∧ (length (m l) ≤ cur (write l v tv m).1 l)%nat ∧ rel (write l v tv m).1 = rel tv.
Proof. simpl. split_and!; [apply bump_le|apply bump_here|done]. Qed.

(** What the last write to a location stored, if the location has one. *)
Lemma write_last l v tv m : last ((write l v tv m).2 l) = Some {| m_val := v; m_view := bump l (length (m l)) (rel tv) |}.
Proof. rewrite write_mem. apply last_snoc. Qed.

End memory.

#[global] Arguments View : clear implicits.
#[global] Arguments Message : clear implicits.
#[global] Arguments Memory : clear implicits.
#[global] Arguments TView : clear implicits.

End WeakMem.
