(* ===== verification/RingWeak.v ===== *)
(** The ring buffer on weakly ordered memory ([src/src/queue/shmem.c]).

    [RingConc.v] lets the accesses happen in the order of the program. Here they happen
    on the memory of [WeakMem.v], where only fences and the lock order them: any number
    of producers run [PschEnqueueEvent] or [PschEnqueueBatch] with [TryEnqueueLocked], one
    consumer runs [PschDequeueEvent], and each read of the head, of the tail or of a part
    of a slot may return an old value. A slot is copied in parts, [width] of them; [word ev
    j] is part [j] of event [ev]. A barrier is a step of its own. [fences] says which of
    the barriers are there; the code has them all.

    Counters, readers of the statistics and the other users of the lock touch neither the
    positions nor the slots and are left out. *)

From stdpp Require Import relations.
From S2P Require Import Prelude Shared Ring RingInv WeakMem.
Import Shared Ring RingInv WeakMem.

Module RingWeak.

Inductive Loc := Head | Tail | Word (slot part : nat).

#[export] Instance Loc_eq_dec : EqDecision Loc.
Proof. solve_decision. Defined.

(** [todo] are the events of the batch that follow; [wait] tells a batch, which waits for
    the lock, from a single event, which does not. *)
Inductive ProducerPC :=
  | PIdle
  | PEnter (wait : bool) (ev : Z) (todo : list Z)             (** about to read the head *)
  | PReadBarrier (wait : bool) (ev : Z) (todo : list Z) (h : Z)
  | PGotHead (wait : bool) (ev : Z) (todo : list Z) (h : Z)   (** about to read the tail and decide *)
  | PLock (wait : bool) (ev : Z) (todo : list Z)
  | PLocked (ev : Z) (todo : list Z)                          (** in [TryEnqueueLocked], about to read the head *)
  | PLockedHead (ev h : Z) (todo : list Z)
  | PFilling (ev h : Z) (todo : list Z) (part : nat)          (** about to write a part of the slot *)
  | PBarrier (ev h : Z) (todo : list Z)
  | PFilled (ev h : Z) (todo : list Z)                        (** about to publish the head *)
  | PUnlock.

Inductive ConsumerPC :=
  | CIdle                                   (** about to read the head *)
  | CReadBarrier (h : Z)
  | CGotHead (h : Z)                        (** about to read the tail *)
  | CCopy (t : Z) (words : list Z)          (** about to copy the next part *)
  | CBarrier (t : Z) (words : list Z)
  | CCopied (t : Z) (words : list Z).       (** about to advance the tail *)

Record Fences := { producer_memory_barrier : bool; consumer_read_barrier : bool; consumer_write_barrier : bool }.

Record Conf := {
  c_mem : Memory Loc;
  c_lock : option nat;
  c_lock_view : View Loc;                   (** what the last holder knew *)
  c_prod : nat → ProducerPC; c_pview : nat → TView Loc;
  c_cons : ConsumerPC; c_cview : TView Loc;
  (** history: events published, parts handed to the consumer *)
  h_pushed : list Z; h_popped : list (list Z) }.

#[export] Instance Conf_eta : Eta Conf := λ c,
  Build_Conf (c_mem c) (c_lock c) (c_lock_view c) (c_prod c) (c_pview c) (c_cons c) (c_cview c) (h_pushed c) (h_popped c).

Section machine.
Context (capacity : Z) (force : bool) (width : nat) (word : Z → nat → Z) (fences : Fences).

Definition set_pc (p : nat) (pc : ProducerPC) (c : Conf) : Conf := c <| c_prod := upd (c_prod c) p pc |>.
Definition set_view (p : nat) (tv : TView Loc) (c : Conf) : Conf := c <| c_pview := upd (c_pview c) p tv |>.

(** A read by producer [p], of the [ts]-th value. *)
Definition prod_read (p : nat) (l : Loc) (ts : nat) (k : Z → ProducerPC) (c : Conf) : option Conf :=
  match read l ts (c_pview c p) (c_mem c) with
  | Some (v, tv) => Some (set_pc p (k v) (set_view p tv c))
  | None => None
  end.

Definition prod_write (p : nat) (l : Loc) (v : Z) (pc : ProducerPC) (c : Conf) : Conf :=
  let '(tv, m) := write l v (c_pview c p) (c_mem c) in set_pc p pc (set_view p tv c <| c_mem := m |>).

Definition next_event (todo : list Z) : ProducerPC :=
  match todo with ev :: rest => PLocked ev rest | [] => PUnlock end.

(** One step of producer [p]; [ts] is the value a read returns. *)
Definition prod_step (p ts : nat) (c : Conf) : option Conf :=
  match c_prod c p with
  | PIdle => None
  | PEnter wait ev todo => prod_read p Head ts (PReadBarrier wait ev todo) c
  | PReadBarrier wait ev todo h =>
    Some (set_pc p (PGotHead wait ev todo h) (set_view p (pg_read_barrier (c_pview c p)) c))
  | PGotHead wait ev todo h =>
    prod_read p Tail ts (λ t, if capacity <=? u64 (h - t) then PIdle else PLock wait ev todo) c
  | PLock wait ev todo =>
    match c_lock c with
    | None =>
      Some (set_pc p (PLocked ev todo)
        (set_view p (lock_acquire (c_lock_view c) (c_pview c p)) c <| c_lock := Some p |>))
    | Some _ => if wait : bool then None else Some (set_pc p PIdle c)
    end
  | PLocked ev todo => prod_read p Head ts (λ h, PLockedHead ev h todo) c
  | PLockedHead ev h todo =>
    prod_read p Tail ts (λ t, if (capacity <=? u64 (h - t)) || force then next_event todo else PFilling ev h todo 0) c
  | PFilling ev h todo part =>
    if (part <? width)%nat
    then Some (prod_write p (Word (slot_index capacity h) part) (word ev part) (PFilling ev h todo (S part)) c)
    else Some (set_pc p (PBarrier ev h todo) c)
  | PBarrier ev h todo =>
    Some (set_pc p (PFilled ev h todo)
      (if producer_memory_barrier fences then set_view p (pg_memory_barrier (c_pview c p)) c else c))
  | PFilled ev h todo =>
    Some (prod_write p Head (u64 (h + 1)) (next_event todo) c <| h_pushed ::= λ l, l ++ [ev] |>)
  | PUnlock => Some (set_pc p PIdle (c <| c_lock := None |> <| c_lock_view := cur (c_pview c p) |>))
  end.

(** An error while the slot is filled: [PG_FINALLY] unlocks. *)
Definition prod_error (p : nat) (c : Conf) : option Conf :=
  match c_prod c p with
  | PFilling _ _ _ _ => Some (set_pc p PUnlock c)
  | _ => None
  end.

Definition prod_call (p : nat) (wait : bool) (ev : Z) (todo : list Z) (c : Conf) : option Conf :=
  match c_prod c p with
  | PIdle => Some (set_pc p (PEnter wait ev (if wait then todo else [])) c)
  | _ => None
  end.

Definition cons_read (l : Loc) (ts : nat) (k : Z → ConsumerPC) (c : Conf) : option Conf :=
  match read l ts (c_cview c) (c_mem c) with
  | Some (v, tv) => Some (c <| c_cons := k v |> <| c_cview := tv |>)
  | None => None
  end.

Definition cons_step (ts : nat) (c : Conf) : option Conf :=
  match c_cons c with
  | CIdle => cons_read Head ts CReadBarrier c
  | CReadBarrier h =>
    Some (c <| c_cons := CGotHead h |>
            <| c_cview ::= if consumer_read_barrier fences then pg_read_barrier else λ tv, tv |>)
  | CGotHead h => cons_read Tail ts (λ t, if h =? t then CIdle else CCopy t []) c
  | CCopy t words =>
    if (length words <? width)%nat
    then cons_read (Word (slot_index capacity t) (length words)) ts (λ w, CCopy t (words ++ [w])) c
    else Some (c <| c_cons := CBarrier t words |>)
  | CBarrier t words =>
    Some (c <| c_cons := CCopied t words |>
            <| c_cview ::= if consumer_write_barrier fences then pg_write_barrier else λ tv, tv |>)
  | CCopied t words =>
    let '(tv, m) := write Tail (u64 (t + 1)) (c_cview c) (c_mem c) in
    Some (c <| c_cons := CIdle |> <| c_cview := tv |> <| c_mem := m |> <| h_popped ::= λ l, l ++ [words] |>)
  end.

Inductive Action :=
  | ACall (p : nat) (wait : bool) (ev : Z) (todo : list Z) | AProd (p ts : nat) | AError (p : nat) | ACons (ts : nat).

Definition exec (a : Action) (c : Conf) : option Conf :=
  match a with
  | ACall p wait ev todo => prod_call p wait ev todo c
  | AProd p ts => prod_step p ts c
  | AError p => prod_error p c
  | ACons ts => cons_step ts c
  end.

Inductive step (c c' : Conf) : Prop := do_step a : exec a c = Some c' → step c c'.

(** What the slots hold at first is anything. *)
Definition start (pos : Z) (junk : nat → nat → Z) : Conf := {|
  c_mem := λ l, [{| m_val := match l with Head | Tail => pos | Word i j => junk i j end; m_view := no_view |}];
  c_lock := None; c_lock_view := no_view;
  c_prod := λ _, PIdle; c_pview := λ _, no_tview; c_cons := CIdle; c_cview := no_tview;
  h_pushed := []; h_popped := [] |}.

Definition reachable (pos : Z) (junk : nat → nat → Z) (c : Conf) : Prop := rtc step (start pos junk) c.

Fixpoint exec_all (l : list Action) (c : Conf) : option Conf :=
  match l with
  | [] => Some c
  | a :: rest => match exec a c with Some c' => exec_all rest c' | None => None end
  end.

Lemma weak_exec_rtc l c c' : exec_all l c = Some c' → rtc step c c'.
Proof.
  revert c. induction l as [|a l IH]; intros c; simpl; [intros [= ->]; done|].
  destruct (exec a c) as [c1|] eqn:Ha; [|done]. intros Hl.
  eapply rtc_l; [by eapply do_step|by apply IH].
Qed.

End machine.
End RingWeak.
