(* ===== verification/RingWeakThms.v ===== *)
(** What the ring promises on weakly ordered memory ([RingWeak.v]): with the barriers of
    the code the consumer copies whole events in the order of their publication; without
    one of them it copies what is not there yet. *)

From stdpp Require Import relations.
From S2P Require Import Prelude Shared Ring RingInv WeakMem RingWeak.
Import Shared Ring RingInv WeakMem RingWeak.

Module RingWeakThms.

Section ring.
Context (k : Z) (Hk : 0 ≤ k ≤ 31) (force : bool) (width : nat) (word : Z → nat → Z) (fences : Fences)
  (Hmb : producer_memory_barrier fences = true) (Hrb : consumer_read_barrier fences = true)
  (pos : Z) (junk : nat → nat → Z).
#[local] Abbreviation capacity := (2 ^ k).
#[local] Abbreviation ncap := (Z.to_nat (2 ^ k)).

(** The slot of the [n]-th event ever, and the words of an event. *)
Definition idx (n : nat) : nat := slot_index capacity (pos + Z.of_nat n).
Definition words_of (ev : Z) : list Z := map (word ev) (seq 0 width).

(** Where the words of the published events are: part [j] of event [n] is value [st n j] of
    its location. A view covers the first [n] events if it is past all of theirs. *)
Definition covers (st : nat → nat → nat) (n : nat) (V : View Loc) : Prop :=
  ∀ i j, (i < n)%nat → (j < width)%nat → (st i j ≤ V (Word (idx i) j))%nat.

(** What the holder of the lock knows: [H] events were published, and it saw the tail
    late enough for the last of them. *)
Record knows (st : nat → nat → nat) (H : nat) (V : View Loc) : Prop := {
  kn_head : (H ≤ V Head)%nat;
  kn_tail : (H ≤ V Tail + ncap)%nat;
  kn_covers : covers st H V }.

(** The first [j] parts of the next slot are written, and known in view [V]. *)
Definition written (m : Memory Loc) (H : nat) (ev : Z) (j : nat) (V : View Loc) : Prop :=
  ∀ i, (i < j)%nat → (length (m (Word (idx H) i)) ≤ S (V (Word (idx H) i)))%nat ∧
    m_val <$> last (m (Word (idx H) i)) = Some (word ev i).

Definition holds_lock (pc : ProducerPC) : bool :=
  match pc with
  | PLocked _ _ | PLockedHead _ _ _ | PFilling _ _ _ _ | PBarrier _ _ _ | PFilled _ _ _ | PUnlock => true
  | _ => false
  end.

(** A producer about to fill the slot of event [H] has room for it. *)
Definition has_room (H T : nat) (h : Z) (V : View Loc) : Prop :=
  h = u64 (pos + Z.of_nat H) ∧ (H < T + ncap)%nat ∧ (H < V Tail + ncap)%nat.

Definition prod_ok (m : Memory Loc) (st : nat → nat → nat) (H T : nat) (pc : ProducerPC) (tv : TView Loc) : Prop :=
  match pc with
  | PLockedHead _ h _ => h = u64 (pos + Z.of_nat H)
  | PFilling ev h _ j => has_room H T h (cur tv) ∧ (j ≤ width)%nat ∧ written m H ev j (cur tv)
  | PBarrier ev h _ => has_room H T h (cur tv) ∧ written m H ev width (cur tv)
  | PFilled ev h _ =>
    has_room H T h (cur tv) ∧ written m H ev width (cur tv) ∧ written m H ev width (rel tv) ∧ covers st H (rel tv)
  | _ => True
  end.

Definition cons_ok (st : nat → nat → nat) (H T : nat) (pushed : list Z) (pc : ConsumerPC) (tv : TView Loc) : Prop :=
  match pc with
  | CIdle => True
  | CReadBarrier h => ∃ n, h = u64 (pos + Z.of_nat n) ∧ (n ≤ cur tv Head)%nat ∧ (T ≤ n ≤ H)%nat ∧ covers st n (acq tv)
  | CGotHead h => ∃ n, h = u64 (pos + Z.of_nat n) ∧ (n ≤ cur tv Head)%nat ∧ (T ≤ n ≤ H)%nat ∧ covers st n (cur tv)
  | CCopy t words | CBarrier t words | CCopied t words =>
    t = u64 (pos + Z.of_nat T) ∧ (T < H)%nat ∧ (T < cur tv Head)%nat ∧ covers st (S T) (cur tv) ∧
    ∃ ev, pushed !! T = Some ev ∧ words `prefix_of` words_of ev ∧
      match pc with CCopy _ _ => True | _ => words = words_of ev end
  end.

Record weak_inv (c : Conf) (st : nat → nat → nat) (H T : nat) : Prop := {
  wi_order : (T ≤ H ≤ T + ncap)%nat;
  wi_head : length (c_mem c Head) = S H ∧
    ∀ n msg, c_mem c Head !! n = Some msg → m_val msg = u64 (pos + Z.of_nat n) ∧ covers st n (m_view msg);
  wi_tail : length (c_mem c Tail) = S T ∧
    ∀ n msg, c_mem c Tail !! n = Some msg → m_val msg = u64 (pos + Z.of_nat n);
  wi_words n j ev : (T ≤ n < H)%nat → h_pushed c !! n = Some ev → (j < width)%nat →
    length (c_mem c (Word (idx n) j)) = S (st n j) ∧ m_val <$> last (c_mem c (Word (idx n) j)) = Some (word ev j);
  wi_lock p : holds_lock (c_prod c p) = true ↔ c_lock c = Some p;
  wi_knows : knows st H (match c_lock c with Some p => cur (c_pview c p) | None => c_lock_view c end);
  wi_prod p : prod_ok (c_mem c) st H T (c_prod c p) (c_pview c p);
  wi_cview : (T ≤ cur (c_cview c) Tail)%nat ∧ (T ≤ cur (c_cview c) Head)%nat;
  wi_cons : cons_ok st H T (h_pushed c) (c_cons c) (c_cview c);
  wi_pushed : length (h_pushed c) = H;
  wi_popped : h_popped c = map words_of (take T (h_pushed c)) }.

(** ** Lemmas on views *)

Lemma covers_mono st n n' V V' : covers st n V → (n' ≤ n)%nat → view_le V V' → covers st n' V'.
Proof. intros Hc Hn HV i j Hi Hj. etrans; [apply Hc; lia|apply HV]. Qed.

Lemma knows_mono st H V V' : knows st H V → view_le V V' → knows st H V'.
Proof.
  intros [H1 H2 H3] HV. pose proof (HV Head). pose proof (HV Tail). constructor; [lia..|]. by eapply covers_mono.
Qed.

Lemma written_mono m H ev j V V' : written m H ev j V → view_le V V' → written m H ev j V'.
Proof. intros Hw HV i Hi. destruct (Hw i Hi) as [? ?]. split; [|done]. pose proof (HV (Word (idx H) i)). lia. Qed.

Lemma room_mono H T h V V' : has_room H T h V → view_le V V' → has_room H T h V'.
Proof. intros (H1 & H2 & H3) HV. pose proof (HV Tail). split_and!; [done|done|lia]. Qed.

Lemma room_later H T h V : has_room H T h V → has_room H (S T) h V.
Proof. intros (? & ? & ?). split_and!; [done|lia|done]. Qed.

Lemma written_same m m' H ev j V : (∀ l, l ≠ Tail → m' l = m l) → written m H ev j V → written m' H ev j V.
Proof. intros Hm Hw i Hi. rewrite Hm by done. by apply Hw. Qed.

Lemma idx_inj n n' : (n ≤ n' < n + ncap)%nat → idx n = idx n' → n = n'.
Proof.
  intros Hn. unfold idx. pose proof (pow2_pos k). intros Heq.
  assert (0 = Z.of_nat n' - Z.of_nat n); [|lia].
  apply (slot_index_inj k (pos + Z.of_nat n)); [done|lia|lia|]. rewrite Z.add_0_r, Heq. f_equal. lia.
Qed.

Lemma idx_pos h n : h = u64 (pos + Z.of_nat n) → slot_index capacity h = idx n.
Proof. intros ->. by apply slot_index_u64. Qed.

(** The words read are those of the event, if the last values of their locations were read. *)
Lemma prefix_snoc ev words : words `prefix_of` words_of ev → (length words < width)%nat →
  (words ++ [word ev (length words)]) `prefix_of` words_of ev.
Proof.
  intros [rest Hr] Hl. unfold words_of in *. assert (length (words ++ rest) = width) as Hw by by rewrite <- Hr, length_map, length_seq.
  rewrite length_app in Hw. destruct rest as [|w rest]; simpl in Hw; [lia|]. exists rest. rewrite <- app_assoc. simpl.
  assert (map (word ev) (seq 0 width) !! length words = Some w) as Hx by by rewrite Hr, list_lookup_middle.
  rewrite list_lookup_fmap, lookup_seq_lt in Hx by lia. injection Hx as <-. by rewrite Hr.
Qed.

Lemma prefix_all ev words : words `prefix_of` words_of ev → ¬ (length words < width)%nat → words = words_of ev.
Proof.
  intros Hp Hl. apply prefix_length_eq; [done|]. unfold words_of. rewrite length_map, length_seq. lia.
Qed.

(** A distance of positions, as the code computes it. *)
Lemma distance H n : (n ≤ H ≤ n + ncap)%nat → u64 (u64 (pos + Z.of_nat H) - u64 (pos + Z.of_nat n)) = Z.of_nat H - Z.of_nat n.
Proof.
  intros Hn. rewrite u64_sub_u64. assert (2 ^ k ≤ 2 ^ 31) by (apply Z.pow_le_mono_r; lia). pose proof (pow2_pos k).
  rewrite u64_small; [lia|]. unfold is_u64. lia.
Qed.

Lemma same_position T n : (T ≤ n ≤ T + ncap)%nat → u64 (pos + Z.of_nat n) = u64 (pos + Z.of_nat T) → n = T.
Proof. intros Hn Heq. pose proof (distance n T ltac:(lia)) as Hd. rewrite Heq, Z.sub_diag in Hd. change (u64 0) with 0 in Hd. lia. Qed.

(** ** Steps *)

(** A step of a producer that leaves memory and lock alone. *)
Lemma quiet_prod c st H T p pc tv :
  weak_inv c st H T → holds_lock pc = holds_lock (c_prod c p) → view_le (cur (c_pview c p)) (cur tv) →
  prod_ok (c_mem c) st H T pc tv → weak_inv (set_pc p pc (set_view p tv c)) st H T.
Proof.
  intros [] Hl Hv Hok. constructor; try done; simpl.
  - intros q. destruct (decide (q = p)) as [->|]; [rewrite upd_same, Hl|rewrite upd_other by done]; apply wi_lock0.
  - destruct (c_lock c) as [q|]; [|done]. destruct (decide (q = p)) as [->|]; [|by rewrite upd_other].
    rewrite upd_same. by eapply knows_mono.
  - intros q. destruct (decide (q = p)) as [->|]; [by rewrite !upd_same|rewrite !upd_other by done; apply wi_prod0].
Qed.

Lemma pc_step c st H T p pc :
  weak_inv c st H T → holds_lock pc = holds_lock (c_prod c p) → prod_ok (c_mem c) st H T pc (c_pview c p) →
  weak_inv (set_pc p pc c) st H T.
Proof.
  intros [] Hl Hok. constructor; try done; simpl; intros q; (destruct (decide (q = p)) as [->|];
    [rewrite upd_same, ?Hl; auto|rewrite upd_other by done; auto]).
Qed.

Lemma prod_read_inv p l ts f c c' :
  prod_read p l ts f c = Some c' →
  ∃ v V tv, c' = set_pc p (f v) (set_view p tv c) ∧ c_mem c l !! ts = Some {| m_val := v; m_view := V |} ∧
    (cur (c_pview c p) l ≤ ts)%nat ∧ view_le (cur (c_pview c p)) (cur tv) ∧ (ts ≤ cur tv l)%nat.
Proof.
  unfold prod_read. destruct (read _ _ _ _) as [[v tv]|] eqn:Hr; [|done]. intros [= <-].
  apply read_inv in Hr as (Hts & V & Hm & Hc & Hl & _). by exists v, V, tv.
Qed.

(** The head and the tail that a holder of the lock, and the consumer, read. *)
Lemma read_head c st H T V ts msg :
  weak_inv c st H T → (H ≤ V Head)%nat → (V Head ≤ ts)%nat → c_mem c Head !! ts = Some msg → m_val msg = u64 (pos + Z.of_nat H).
Proof.
  intros Hinv HV Hts Hm. destruct (wi_head _ _ _ _ Hinv) as [Hl Hmsg]. pose proof (lookup_lt_Some _ _ _ Hm).
  assert (ts = H) as -> by lia. by apply Hmsg in Hm as [-> _].
Qed.

Lemma read_tail c st H T ts msg :
  weak_inv c st H T → c_mem c Tail !! ts = Some msg → m_val msg = u64 (pos + Z.of_nat ts) ∧ (ts ≤ T)%nat.
Proof.
  intros Hinv Hm. destruct (wi_tail _ _ _ _ Hinv) as [Hl Hmsg]. pose proof (lookup_lt_Some _ _ _ Hm).
  split; [by apply Hmsg|lia].
Qed.

Lemma locked_view c st H T p :
  weak_inv c st H T → holds_lock (c_prod c p) = true → knows st H (cur (c_pview c p)).
Proof. intros Hinv Hl%(wi_lock _ _ _ _ Hinv). pose proof (wi_knows _ _ _ _ Hinv) as Hkn. by rewrite Hl in Hkn. Qed.

(** Only the holder of the lock has something to lose. *)
Lemma weak_ok_unlocked m st H T pc tv : holds_lock pc = false → prod_ok m st H T pc tv.
Proof. by destruct pc. Qed.

Lemma lock_step c st H T p pc :
  weak_inv c st H T → c_lock c = None → holds_lock pc = true → (∀ tv, prod_ok (c_mem c) st H T pc tv) →
  weak_inv (set_pc p pc (set_view p (lock_acquire (c_lock_view c) (c_pview c p)) c <| c_lock := Some p |>)) st H T.
Proof.
  intros [] Hl Hpc Hok. rewrite Hl in wi_knows0. constructor; try done; simpl.
  - intros q. destruct (decide (q = p)) as [->|]; [by rewrite upd_same|rewrite upd_other by done].
    rewrite wi_lock0, Hl. split; [done|]. intros [= ->]. done.
  - rewrite upd_same. eapply knows_mono; [done|apply join_r].
  - intros q. destruct (decide (q = p)) as [->|]; [rewrite !upd_same; apply Hok|rewrite !upd_other by done; apply wi_prod0].
Qed.

Lemma unlock_step c st H T p :
  weak_inv c st H T → c_prod c p = PUnlock →
  weak_inv (set_pc p PIdle (c <| c_lock := None |> <| c_lock_view := cur (c_pview c p) |>)) st H T.
Proof.
  intros Hinv Hpc. assert (holds_lock (c_prod c p) = true) as Hl by by rewrite Hpc.
  pose proof (locked_view _ _ _ _ _ Hinv Hl) as Hkn. apply (wi_lock _ _ _ _ Hinv) in Hl. destruct Hinv.
  constructor; try done; simpl.
  - intros q. destruct (decide (q = p)) as [->|]; [by rewrite upd_same|rewrite upd_other by done].
    rewrite wi_lock0, Hl. split; [intros [= ->]; done|done].
  - intros q. destruct (decide (q = p)) as [->|]; [by rewrite upd_same|rewrite upd_other by done; apply wi_prod0].
Qed.

(** Writing a part of the next slot leaves the waiting events alone. *)
Lemma word_step c st H T p ev h todo j :
  weak_inv c st H T → c_prod c p = PFilling ev h todo j → (j < width)%nat →
  weak_inv (prod_write p (Word (slot_index capacity h) j) (word ev j) (PFilling ev h todo (S j)) c) st H T.
Proof.
  intros Hinv Hpc Hj. pose proof (wi_prod _ _ _ _ Hinv p) as Hok. rewrite Hpc in Hok. destruct Hok as (Hroom & _ & Hw).
  assert (c_lock c = Some p) as Hl by (apply (wi_lock _ _ _ _ Hinv); by rewrite Hpc).
  rewrite (idx_pos h H) by apply Hroom. unfold prod_write.
  pose proof (write_view (Word (idx H) j) (word ev j) (c_pview c p) (c_mem c)) as (Hv & Hts & Hrel).
  pose proof (write_last (Word (idx H) j) (word ev j) (c_pview c p) (c_mem c)) as Hlast.
  pose proof (write_mem (Word (idx H) j) (word ev j) (c_pview c p) (c_mem c)) as Hmem.
  pose proof (write_other (Word (idx H) j) (word ev j) (c_pview c p) (c_mem c)) as Hoth.
  destruct (write _ _ _ _) as [tv m]. cbn [fst snd] in *. destruct Hinv. constructor; try done; simpl.
  - by rewrite !(Hoth Head) by done.
  - by rewrite !(Hoth Tail) by done.
  - intros n i ev' Hn Hp Hi. rewrite !Hoth; [by apply wi_words0|..]; intros [= He _];
      apply (idx_inj n H) in He; destruct Hroom; lia.
  - intros q. destruct (decide (q = p)) as [->|]; [rewrite upd_same; apply iff_sym; by rewrite Hl|rewrite upd_other by done; apply wi_lock0].
  - rewrite Hl in wi_knows0 |- *. rewrite upd_same. by eapply knows_mono.
  - intros q. destruct (decide (q = p)) as [->|].
    + rewrite !upd_same. simpl. split_and!; [by eapply room_mono|lia|]. intros i Hi.
      destruct (decide (i = j)) as [->|].
      * rewrite Hlast, Hmem, length_app. simpl. split; [lia|done].
      * rewrite Hoth by congruence. destruct (Hw i ltac:(lia)). split; [|done]. pose proof (Hv (Word (idx H) i)). lia.
    + rewrite !upd_other by done. apply weak_ok_unlocked, not_true_is_false. intros Hq%wi_lock0. congruence.
Qed.

(** Publishing the head. *)
Lemma publish_step c st H T p ev h todo :
  weak_inv c st H T → c_prod c p = PFilled ev h todo →
  ∃ st', weak_inv (prod_write p Head (u64 (h + 1)) (next_event todo) c <| h_pushed ::= λ l, l ++ [ev] |>) st' (S H) T.
Proof.
  intros Hinv Hpc. pose proof (wi_prod _ _ _ _ Hinv p) as Hok. rewrite Hpc in Hok.
  destruct Hok as ((Hh & Hr1 & Hr2) & Hw & Hwr & Hcr).
  assert (c_lock c = Some p) as Hl by (apply (wi_lock _ _ _ _ Hinv); by rewrite Hpc).
  pose proof (locked_view _ _ _ _ p Hinv ltac:(by rewrite Hpc)) as [Hk1 Hk2 Hk3].
  exists (upd st H (λ j, pred (length (c_mem c (Word (idx H) j))))).
  assert (∀ n V, covers st n V → (n ≤ H)%nat → covers (upd st H (λ j, pred (length (c_mem c (Word (idx H) j))))) n V) as Hold.
  { intros n V Hc Hn i j Hi Hj. rewrite upd_other by lia. by apply Hc. }
  assert (∀ V, covers st H V → written (c_mem c) H ev width V →
    covers (upd st H (λ j, pred (length (c_mem c (Word (idx H) j))))) (S H) V) as Hnew.
  { intros V Hc HwV i j Hi Hj. destruct (decide (i = H)) as [->|]; [rewrite upd_same|apply (Hold H V Hc); lia].
    destruct (HwV j Hj). lia. }
  unfold prod_write.
  pose proof (write_view Head (u64 (h + 1)) (c_pview c p) (c_mem c)) as (Hv & Hts & Hrel).
  pose proof (write_mem Head (u64 (h + 1)) (c_pview c p) (c_mem c)) as Hmem.
  pose proof (write_other Head (u64 (h + 1)) (c_pview c p) (c_mem c)) as Hoth.
  destruct (write _ _ _ _) as [tv m]. cbn [fst snd] in *. destruct Hinv.
  destruct wi_head0 as [Hlen Hmsg]. constructor; simpl; try done.
  - lia.
  - rewrite Hmem, length_app, Hlen. split; [simpl; lia|]. intros n msg [Hn|[Hn Hm]]%lookup_app_Some.
    + pose proof (lookup_lt_Some _ _ _ Hn). destruct (Hmsg _ _ Hn) as [? Hc]. split; [done|]. apply Hold; [done|lia].
    + apply list_lookup_singleton_Some in Hm as [Hn0 <-]. assert (n = S H) as -> by lia. simpl. rewrite Hh, u64_add_u64_l. split; [f_equal; lia|].
      eapply covers_mono; [by apply (Hnew (rel (c_pview c p)))|done|apply bump_le].
  - by rewrite (Hoth Tail).
  - intros n j ev' Hn Hp Hj. rewrite Hoth by done. destruct (decide (n = H)) as [->|].
    + rewrite upd_same. rewrite <- wi_pushed0, list_lookup_middle in Hp by done. injection Hp as <-.
      destruct (Hw j Hj) as [_ Hlast]. split; [|done]. destruct (c_mem c (Word (idx H) j)); [done|]. simpl. lia.
    + rewrite upd_other by done. apply wi_words0; [lia| |done]. by rewrite lookup_app_l in Hp by lia.
  - intros q. destruct (decide (q = p)) as [->|]; [rewrite upd_same, Hl; by destruct todo|rewrite upd_other by done; apply wi_lock0].
  - rewrite Hl, upd_same. constructor; [|pose proof (Hv Tail); lia|].
    + lia.
    + eapply covers_mono; [by apply (Hnew (cur (c_pview c p)))|done|done].
  - intros q. destruct (decide (q = p)) as [->|]; [rewrite !upd_same; by destruct todo|].
    rewrite !upd_other by done. apply weak_ok_unlocked, not_true_is_false. intros Hq%wi_lock0. congruence.
  - revert wi_cons0. destruct (c_cons c); simpl; [done| | | | |].
    1,2: intros (n & ? & ? & ? & Hc); exists n; split_and!; [done|done|lia|lia|apply Hold; [done|lia]].
    all: intros (? & ? & ? & Hc & ev' & Hp & Hrest); split_and!; [done|lia|done|apply Hold; [done|lia]|].
    all: exists ev'; split; [by apply lookup_app_l_Some|done].
  - rewrite length_app. simpl. lia.
  - rewrite take_app_le by lia. done.
Qed.

(** The check under the lock: room, or the event is dropped. *)
Lemma weak_locked_check c st H T p ev h todo ts c' :
  weak_inv c st H T → c_prod c p = PLockedHead ev h todo →
  prod_read p Tail ts (λ t, if (capacity <=? u64 (h - t)) || force then next_event todo else PFilling ev h todo 0) c = Some c' →
  weak_inv c' st H T.
Proof.
  intros Hinv Hpc (v & V & tv & -> & Hm & Hold & Hv & Hts)%prod_read_inv.
  pose proof (wi_prod _ _ _ _ Hinv p) as Hh. rewrite Hpc in Hh. simpl in Hh.
  pose proof (locked_view _ _ _ _ p Hinv ltac:(by rewrite Hpc)) as [_ Hk2 _].
  destruct (read_tail _ _ _ _ _ _ Hinv Hm) as [Hval HtT]. simpl in Hval. pose proof (wi_order _ _ _ _ Hinv).
  apply quiet_prod; [done| |done|]; destruct ((capacity <=? u64 (h - v)) || force) eqn:Hfull; rewrite ?Hpc; try by destruct todo.
  apply orb_false_iff in Hfull as [Hfull%Z.leb_gt _]. rewrite Hh, Hval, distance in Hfull by lia.
  split; [|split; [lia|intros i Hi; lia]]. split_and!; [done|lia|lia].
Qed.

Lemma weak_prod_inv c st H T p ts c' :
  weak_inv c st H T → prod_step capacity force width word fences p ts c = Some c' → ∃ st' H', weak_inv c' st' H' T.
Proof.
  intros Hinv. unfold prod_step. pose proof (wi_prod _ _ _ _ Hinv p) as Hok.
  destruct (c_prod c p) as [|wait ev todo|wait ev todo h|wait ev todo h|wait ev todo|ev todo|ev h todo|ev h todo part|ev h todo|ev h todo|]
    eqn:Hpc; [done|..].
  - intros (v & V & tv & -> & _ & _ & Hv & _)%prod_read_inv. exists st, H. apply quiet_prod; [done|by rewrite Hpc|done|done].
  - intros [= <-]. exists st, H. apply quiet_prod; [done|by rewrite Hpc|apply join_l|done].
  - intros (v & V & tv & -> & _ & _ & Hv & _)%prod_read_inv. exists st, H.
    apply quiet_prod; [done|rewrite Hpc; by case_match|done|by case_match].
  - destruct (c_lock c) eqn:Hl; [destruct wait; [done|]|]; intros [= <-]; exists st, H; [|by apply lock_step].
    apply pc_step; [done|by rewrite Hpc|done].
  - intros (v & V & tv & -> & Hm & Hold & Hv & Hts)%prod_read_inv. exists st, H. apply quiet_prod; [done|by rewrite Hpc|done|].
    destruct (locked_view _ _ _ _ p Hinv ltac:(by rewrite Hpc)) as [Hk1 _ _].
    exact (read_head _ _ _ _ _ _ _ Hinv Hk1 Hold Hm).
  - intros Hc. exists st, H. by eapply weak_locked_check.
  - destruct (Nat.ltb_spec part width); intros [= <-]; exists st, H; [by apply word_step|].
    destruct Hok as (Hr & Hp & Hw). assert (part = width) as -> by lia.
    apply pc_step; [done|by rewrite Hpc|done].
  - rewrite Hmb. intros [= <-]. exists st, H. destruct Hok as (Hr & Hw).
    pose proof (locked_view _ _ _ _ p Hinv ltac:(by rewrite Hpc)) as [_ _ Hk3].
    apply quiet_prod; [done|by rewrite Hpc|apply join_l|]. simpl. split_and!; [by eapply room_mono, join_l| | |].
    + by eapply written_mono, join_l.
    + by eapply written_mono, join_l.
    + eapply covers_mono; [done|done|apply join_l].
  - intros [= <-]. destruct (publish_step _ _ _ _ _ _ _ _ Hinv Hpc) as [st' H']. by exists st', (S H).
  - intros [= <-]. exists st, H. by apply unlock_step.
Qed.

(** A step of the consumer that leaves memory alone. *)
Lemma quiet_cons c st H T pc tv :
  weak_inv c st H T → view_le (cur (c_cview c)) (cur tv) → cons_ok st H T (h_pushed c) pc tv →
  weak_inv (c <| c_cons := pc |> <| c_cview := tv |>) st H T.
Proof.
  intros [] Hv Hok. constructor; try done. simpl. pose proof (Hv Tail). pose proof (Hv Head). lia.
Qed.

Lemma cons_read_inv l ts f c c' :
  cons_read l ts f c = Some c' →
  ∃ v V tv, c' = c <| c_cons := f v |> <| c_cview := tv |> ∧ c_mem c l !! ts = Some {| m_val := v; m_view := V |} ∧
    (cur (c_cview c) l ≤ ts)%nat ∧ view_le (cur (c_cview c)) (cur tv) ∧ (ts ≤ cur tv l)%nat ∧ view_le V (acq tv).
Proof.
  unfold cons_read. destruct (read _ _ _ _) as [[v tv]|] eqn:Hr; [|done]. intros [= <-].
  apply read_inv in Hr as (Hts & V & Hm & Hc & Hl & _ & Ha & _). by exists v, V, tv.
Qed.

(** Advancing the tail. *)
Lemma advance_step c st H T t words :
  weak_inv c st H T → c_cons c = CCopied t words →
  let '(tv, m) := write Tail (u64 (t + 1)) (c_cview c) (c_mem c) in
  weak_inv (c <| c_cons := CIdle |> <| c_cview := tv |> <| c_mem := m |> <| h_popped ::= λ l, l ++ [words] |>) st H (S T).
Proof.
  intros Hinv Hc. pose proof (wi_cons _ _ _ _ Hinv) as Hok. rewrite Hc in Hok. destruct Hok as (Ht & HT & Hh & _ & ev & Hp & _ & ->).
  pose proof (write_view Tail (u64 (t + 1)) (c_cview c) (c_mem c)) as (Hv & Hts & _).
  pose proof (write_mem Tail (u64 (t + 1)) (c_cview c) (c_mem c)) as Hmem.
  pose proof (write_other Tail (u64 (t + 1)) (c_cview c) (c_mem c)) as Hoth.
  destruct (write _ _ _ _) as [tv m]. cbn [fst snd] in *. destruct Hinv. destruct wi_tail0 as [Hlen Hmsg].
  constructor; simpl; try done.
  - lia.
  - by rewrite (Hoth Head).
  - rewrite Hmem, length_app, Hlen. split; [simpl; lia|]. intros n msg [Hn|[Hn Hm]]%lookup_app_Some; [by apply Hmsg|].
    apply list_lookup_singleton_Some in Hm as [Hn0 <-]. assert (n = S T) as -> by lia. simpl. rewrite Ht, u64_add_u64_l. f_equal. lia.
  - intros n j ev' Hn Hp' Hj. rewrite Hoth by done. apply wi_words0; [lia|done|done].
  - intros q. specialize (wi_prod0 q). destruct (c_prod c q); try done; simpl in *.
    + destruct wi_prod0 as (? & ? & ?). split_and!; [by apply room_later|done|by eapply written_same].
    + destruct wi_prod0 as (? & ?). split; [by apply room_later|by eapply written_same].
    + destruct wi_prod0 as (? & ? & ? & ?). split_and!; [by apply room_later|by eapply written_same..|done].
  - pose proof (Hv Head). lia.
  - rewrite wi_popped0, (take_S_r _ _ ev) by done. by rewrite map_app.
Qed.

Lemma weak_cons_inv c st H T ts c' :
  weak_inv c st H T → cons_step capacity width fences ts c = Some c' → ∃ T', weak_inv c' st H T'.
Proof.
  intros Hinv. unfold cons_step. pose proof (wi_cons _ _ _ _ Hinv) as Hok. pose proof (wi_order _ _ _ _ Hinv).
  pose proof (wi_cview _ _ _ _ Hinv) as [Hvt Hvh].
  destruct (c_cons c) as [|h|h|t words|t words|t words] eqn:Hpc.
  - intros (v & V & tv & -> & Hm & Hold & Hv & Hts & Ha)%cons_read_inv. exists T. apply quiet_cons; [done|done|].
    destruct (wi_head _ _ _ _ Hinv) as [Hl Hmsg]. pose proof (lookup_lt_Some _ _ _ Hm). destruct (Hmsg _ _ Hm) as [Hval Hc].
    exists ts. split_and!; [done|done|lia|lia|by eapply covers_mono].
  - rewrite Hrb. intros [= <-]. exists T. destruct Hok as (n & Hh & Hn & HTn & Hc).
    apply (quiet_cons c st H T (CGotHead h) (pg_read_barrier (c_cview c))); [done|apply join_l|].
    exists n. split_and!; [done|simpl; unfold join; lia|lia|lia|]. eapply covers_mono; [done|done|apply join_r].
  - intros (v & V & tv & -> & Hm & Hold & Hv & Hts & Ha)%cons_read_inv. exists T. apply quiet_cons; [done|done|].
    destruct Hok as (n & Hh & Hn & HTn & Hc). destruct (read_tail _ _ _ _ _ _ Hinv Hm) as [Hval HtT]. simpl in Hval.
    assert (ts = T) as -> by lia. destruct (Z.eqb_spec h v) as [|Hne]; [done|].
    assert (n ≠ T) by (intros ->; congruence). pose proof (Hv Head).
    destruct (lookup_lt_is_Some_2 (h_pushed c) T) as [ev Hp]; [rewrite (wi_pushed _ _ _ _ Hinv); lia|].
    split_and!; [done|lia|lia|eapply covers_mono; [done|lia|done]|]. exists ev. split_and!; [done|apply prefix_nil|done].
  - destruct Hok as (Ht & HTH & Hh & Hc & ev & Hp & Hw & _). destruct (Nat.ltb_spec (length words) width) as [Hlt|].
    + intros (v & V & tv & -> & Hm & Hold & Hv & Hts & Ha)%cons_read_inv. exists T. apply quiet_cons; [done|done|].
      rewrite (idx_pos t T Ht) in *. destruct (wi_words _ _ _ _ Hinv T (length words) ev) as [Hl Hlast]; [lia|done|done|].
      pose proof (lookup_lt_Some _ _ _ Hm). pose proof (Hc T (length words) ltac:(lia) Hlt).
      rewrite last_lookup, Hl in Hlast. simpl in Hlast. assert (ts = st T (length words)) as -> by lia.
      rewrite Hm in Hlast. injection Hlast as ->. pose proof (Hv Head).
      split_and!; [done|lia|lia|by eapply covers_mono|]. exists ev. split_and!; [done|by apply prefix_snoc|done].
    + intros [= <-]. exists T. destruct c; apply (quiet_cons _ st H T (CBarrier t words) _ Hinv); [done|].
      split_and!; [done|lia|lia|done|]. exists ev. split_and!; [done|done|by apply prefix_all; [|lia]].
  - intros [= <-]. exists T. destruct Hok as (Ht & HTH & Hh & Hc & Hrest).
    apply (quiet_cons c st H T (CCopied t words)
      ((if consumer_write_barrier fences then pg_write_barrier else λ tv, tv) (c_cview c))); [done|..];
      by destruct (consumer_write_barrier fences).
  - pose proof (advance_step _ _ _ _ _ _ Hinv Hpc) as Hadv. destruct (write _ _ _ _) as [tv m]. intros [= <-]. by exists (S T).
Qed.

Lemma exec_inv c st H T a c' :
  weak_inv c st H T → exec capacity force width word fences a c = Some c' → ∃ st' H' T', weak_inv c' st' H' T'.
Proof.
  intros Hinv. destruct a as [p wait ev todo|p ts|p|ts]; simpl.
  - unfold prod_call. destruct (c_prod c p) eqn:Hpc; try done. intros [= <-]. exists st, H, T.
    apply pc_step; [done|by rewrite Hpc|done].
  - intros (st' & H' & Hinv')%(weak_prod_inv _ _ _ _ _ _ _ Hinv). by exists st', H', T.
  - unfold prod_error. destruct (c_prod c p) eqn:Hpc; try done. intros [= <-]. exists st, H, T.
    apply pc_step; [done|by rewrite Hpc|done].
  - intros (T' & Hinv')%(weak_cons_inv _ _ _ _ _ _ Hinv). by exists st, H, T'.
Qed.

Lemma start_inv : is_u64 pos → weak_inv (start pos junk) (λ _ _, 0%nat) 0 0.
Proof.
  intros Hpos. constructor; simpl; try done; try lia.
  - split; [done|]. intros n msg [-> <-]%list_lookup_singleton_Some. simpl. rewrite Z.add_0_r, u64_small by done.
    split; [done|]. intros i j; lia.
  - split; [done|]. intros n msg [-> <-]%list_lookup_singleton_Some. simpl. by rewrite Z.add_0_r, u64_small.
  - constructor; [simpl; lia..|]. intros i j; lia.
Qed.

Lemma weak_reachable c : is_u64 pos → reachable capacity force width word fences pos junk c → ∃ st H T, weak_inv c st H T.
Proof.
  intros Hpos Hr. assert (∃ st H T, weak_inv (start pos junk) st H T) as H0 by (do 3 eexists; by apply start_inv).
  unfold reachable in Hr. revert H0. induction Hr as [|c c1 c2 [a Ha] _ IH]; [done|]. intros (st & H & T & H0).
  apply IH. by eapply exec_inv.
Qed.


End ring.
(** ** Concrete runs *)

Definition all_fences : Fences :=
  {| producer_memory_barrier := true; consumer_read_barrier := true; consumer_write_barrier := true |}.

(** Two slots of two parts each, zero at first, about to wrap around. *)
Definition demo_word (ev : Z) (part : nat) : Z := 10 * ev + Z.of_nat part.
Definition demo_start : Conf := start (2 ^ 64 - 1) (λ _ _, 0).

(** Producer 0 publishes event 7. *)
Definition publish_run : list Action := ACall 0 false 7 [] :: repeat (AProd 0 0) 12.

(** The consumer copies the event's slot, finding value [old] in its first part. *)
Definition copy_run (old : nat) : list Action :=
  [ACons 1; ACons 0; ACons 0; ACons old; ACons 1; ACons 1; ACons 1; ACons 1].

Definition run (fences : Fences) (actions : list Action) : option Conf :=
  exec_all (2 ^ 1) false 2 demo_word fences actions demo_start.

Definition outcome (fences : Fences) (actions : list Action) : option (list Z * list (list Z)) :=
  (λ c, (h_pushed c, h_popped c)) <$> run fences actions.

Lemma run_reachable fences actions pushed popped :
  outcome fences actions = Some (pushed, popped) →
  ∃ c, reachable (2 ^ 1) false 2 demo_word fences (2 ^ 64 - 1) (λ _ _, 0) c ∧ h_pushed c = pushed ∧ h_popped c = popped.
Proof.
  unfold outcome. destruct (run fences actions) as [c|] eqn:Hc; [|done]. intros [= <- <-]. exists c.
  split; [exact (weak_exec_rtc _ _ _ _ _ _ _ _ Hc)|done].
Qed.




End RingWeakThms.
