(* ===== verification/InternConc.v ===== *)
(** The interner under concurrency ([src/src/queue/query_intern.c]).

    Any number of processes call [PschQueryInternAcquire] and
    [PschQueryInternResolveAndRelease] interleaved. A step is a wait for a partition
    lock, what a process does while it holds one, its release, or an access to the
    DSA area without a lock. A pointer handed out by a call is a reference; it is
    given back by one release, by any process. [c_refs] (the references that are
    out), [c_read] (what was copied out) and [c_fault] (memory that is not an object
    was used or freed) are history the code does not have.

    The calls are past their early returns: the text is not empty and the area is
    there. Which addresses the allocator picks, and whether it fails, is up to the
    environment at each step. *)

From stdpp Require Import relations.
From S2P Require Import Prelude Event Shared Dsa Intern InternInv.
Import Event Shared Dsa Intern InternInv.

Module InternConc.

(** The arguments of [PschQueryInternAcquire], with the key made of them. *)
Record Query := { q_key : PschQueryInternKey; q_text : bytes; q_len : Z }.

(** A reference that is out; [r_user] is the process that works with it. *)
Record Reference := { r_ptr : Z; r_text : bytes; r_user : option nat }.

#[export] Instance Reference_eta : Eta Reference := λ r, Build_Reference (r_ptr r) (r_text r) (r_user r).

(** Where a process is. References are named by their number in [c_refs]. *)
Inductive PC :=
  | PIdle
  (** [PschQueryInternAcquire] *)
  | PLookup (q : Query)                     (** about to take the lock *)
  | PFind (q : Query)                       (** holds it, about to look the key up *)
  | PFound (q : Query) (result : option nat)  (** about to unlock and return *)
  | PMissed (q : Query)                     (** about to unlock and go on *)
  | PAlloc (q : Query)                      (** about to allocate *)
  | PRelock (q : Query) (new_dp : Z)
  | PEnter (q : Query) (new_dp : Z)         (** holds the lock again *)
  | PEntered (q : Query) (result : option nat) (loser : option Z)  (** about to unlock *)
  | PBackOut (result : option nat) (loser : Z)                     (** about to free the loser *)
  (** [PschQueryInternResolveAndRelease] *)
  | RResolve (r : nat)                      (** about to copy the text *)
  | RKey (r : nat)                          (** about to read magic and key *)
  | RLock (r : nat) (key : PschQueryInternKey)
  | RFind (r : nat) (key : PschQueryInternKey)   (** holds the lock *)
  | RUnlock (key : PschQueryInternKey) (freed_dp : option Z)
  | RFree (freed_dp : Z).

Record Conf := {
  c_heap : gmap Z DsaBlock;
  c_tab : gmap PschQueryInternKey PschQueryInternEntry;
  c_locks : gmap Z nat;                     (** the holders of the partition locks *)
  c_pc : nat → PC;
  c_oom : Z;
  c_refs : gmap nat Reference; c_next : nat;
  c_read : list (bytes * bytes);            (** the reference's text, and the copy *)
  c_fault : bool }.

#[export] Instance Conf_eta : Eta Conf := λ c,
  Build_Conf (c_heap c) (c_tab c) (c_locks c) (c_pc c) (c_oom c) (c_refs c) (c_next c) (c_read c) (c_fault c).

Section machine.
Context {E : Env} (dst_size : Z).

Definition partition (key : PschQueryInternKey) : Z := PartitionLockFor (get_hash_value key).

Definition set_pc (p : nat) (pc : PC) (c : Conf) : Conf := c <| c_pc := upd (c_pc c) p pc |>.

(** Following a pointer to an object. *)
Definition touch (dp : Z) (c : Conf) : Conf :=
  c <| c_fault ::= orb (match object_at (c_heap c) dp with Some _ => false | None => true end) |>.
Definition free_block (dp : Z) (c : Conf) : Conf :=
  (touch dp c) <| c_heap ::= delete dp |>.

(** The reference a call returns is free to be used by anyone. *)
Definition give (result : option nat) (c : Conf) : Conf :=
  match result with
  | Some r => c <| c_refs ::= alter (λ x, x <| r_user := None |>) r |>
  | None => c
  end.

(** A new reference to [dp], in the hands of [p]. *)
Definition take_ref (p : nat) (dp : Z) (q : Query) (c : Conf) : Conf :=
  c <| c_refs ::= <[c_next c := {| r_ptr := dp; r_text := take (Z.to_nat (q_len q)) (q_text q);
                                   r_user := Some p |}]> |> <| c_next ::= S |>.

Definition lock_for (p : nat) (key : PschQueryInternKey) (pc : PC) (c : Conf) : option Conf :=
  match c_locks c !! partition key with
  | None => Some (set_pc p pc (c <| c_locks ::= <[partition key := p]> |>))
  | Some _ => None
  end.
Definition unlock (key : PschQueryInternKey) (c : Conf) : Conf := c <| c_locks ::= delete (partition key) |>.

(** [entry->refcount++] for an entry whose object has the text, in both critical
    sections; [None] when the bytes differ. *)
Definition share (p : nat) (q : Query) (e : PschQueryInternEntry) (c : Conf) : option nat * Conf :=
  let c := touch (object e) c in
  if ObjectMatches (c_heap c) (object e) (q_text q) (q_len q) then
    (Some (c_next c),
     take_ref p (object e) q (c <| c_tab ::= <[q_key q := e <| refcount ::= λ n, u32 (n + 1) |>]> |>))
  else (None, c).

Definition find_step (p : nat) (q : Query) (c : Conf) : Conf :=
  match c_tab c !! q_key q with
  | Some e => let '(result, c) := share p q e c in set_pc p (PFound q result) c
  | None => set_pc p (PMissed q) c
  end.

Definition new_object (q : Query) : DsaBlock :=
  DsaObject {| o_key := CopyKeyFields (q_key q); magic := PSCH_QUERY_INTERN_MAGIC;
               o_query := take (Z.to_nat (q_len q)) (q_text q) ++ [0] |}.

(** A request the allocator turned down. *)
Definition count_oom (c : Conf) : Conf := c <| c_oom ::= λ n, u64 (n + 1) |>.

(** [AllocInternObject]: nobody else can reach the block while it is filled. *)
Definition alloc_step (p : nat) (outcome : AllocOutcome) (c : Conf) : option Conf :=
  match c_pc c p with
  | PAlloc q =>
    match outcome with
    | AllocOk dp =>
      match c_heap c !! dp with
      | None => if DsaPointerIsValid dp
                then Some (set_pc p (PRelock q dp) (c <| c_heap ::= <[dp := new_object q]> |>)) else None
      | Some _ => None
      end
    | AllocOom => Some (set_pc p PIdle (count_oom c))
    | AllocError => Some (set_pc p PIdle c)
    end
  | _ => None
  end.

Definition enter_step (p : nat) (q : Query) (new_dp : Z) (c : Conf) : Conf :=
  match c_tab c !! q_key q with
  | None =>
    if hash_has_room (c_tab c) (q_key q) then
      set_pc p (PEntered q (Some (c_next c)) None)
        (take_ref p new_dp q (c <| c_tab ::= <[q_key q := {| object := new_dp; refcount := 1 |}]> |>))
    else set_pc p (PEntered q None (Some new_dp)) c
  | Some e => let '(result, c) := share p q e c in set_pc p (PEntered q result (Some new_dp)) c
  end.

(** [ResolveInto] for a buffer of [dst_size] bytes. *)
Definition copied (o : PschQueryInternObject) : bytes :=
  if negb (magic o =? PSCH_QUERY_INTERN_MAGIC) then []
  else
    let len := k_query_len (o_key o) in
    take (Z.to_nat (if dst_size <=? len then u16 (dst_size - 1) else len)) (o_query o).

Definition resolve_step (p r : nat) (c : Conf) : option Conf :=
  match c_refs c !! r with
  | None => None
  | Some x =>
    let text := match object_at (c_heap c) (r_ptr x) with Some o => copied o | None => [] end in
    Some (set_pc p (RKey r) ((touch (r_ptr x) c) <| c_read ::= λ l, l ++ [(r_text x, text)] |>))
  end.

Definition key_step (p r : nat) (c : Conf) : option Conf :=
  match c_refs c !! r with
  | None => None
  | Some x =>
    Some (set_pc p
      match object_at (c_heap c) (r_ptr x) with
      | Some o => if negb (magic o =? PSCH_QUERY_INTERN_MAGIC) then PIdle else RLock r (CopyKeyFields (o_key o))
      | None => PIdle
      end (touch (r_ptr x) c))
  end.

Definition release_step (p r : nat) (key : PschQueryInternKey) (c : Conf) : option Conf :=
  match c_refs c !! r with
  | None => None
  | Some x =>
    let c := c <| c_refs ::= delete r |> in
    Some match c_tab c !! key with
    | Some e =>
      if object e =? r_ptr x then
        let n := u32 (refcount e - 1) in
        if n =? 0 then set_pc p (RUnlock key (Some (object e))) (c <| c_tab ::= delete key |>)
        else set_pc p (RUnlock key None) (c <| c_tab ::= <[key := e <| refcount := n |>]> |>)
      else set_pc p (RUnlock key None) c
    | None => set_pc p (RUnlock key None) c
    end
  end.

Definition proc_step (p : nat) (c : Conf) : option Conf :=
  match c_pc c p with
  | PIdle | PAlloc _ => None
  | PLookup q => lock_for p (q_key q) (PFind q) c
  | PFind q => Some (find_step p q c)
  | PFound q result => Some (set_pc p PIdle (give result (unlock (q_key q) c)))
  | PMissed q => Some (set_pc p (PAlloc q) (unlock (q_key q) c))
  | PRelock q new_dp => lock_for p (q_key q) (PEnter q new_dp) c
  | PEnter q new_dp => Some (enter_step p q new_dp c)
  | PEntered q result None => Some (set_pc p PIdle (give result (unlock (q_key q) c)))
  | PEntered q result (Some loser) => Some (set_pc p (PBackOut result loser) (unlock (q_key q) c))
  | PBackOut result loser => Some (set_pc p PIdle (give result (free_block loser c)))
  | RResolve r => resolve_step p r c
  | RKey r => key_step p r c
  | RLock r key => lock_for p key (RFind r key) c
  | RFind r key => release_step p r key c
  | RUnlock key None => Some (set_pc p PIdle (unlock key c))
  | RUnlock key (Some dp) => Some (set_pc p (RFree dp) (unlock key c))
  | RFree dp => Some (set_pc p PIdle (free_block dp c))
  end.

(** What a call of [PschQueryInternAcquire] returns with the step that ends it, and the
    pointer this is. *)
Definition returned (pc : PC) : option nat :=
  match pc with
  | PFound _ r | PEntered _ r None | PBackOut r _ => r
  | _ => None
  end.
Definition pointer (c : Conf) (r : nat) : Z :=
  match c_refs c !! r with Some x => r_ptr x | None => InvalidDsaPointer end.

Definition acquire_call (p : nat) (dbid queryid : Z) (query : bytes) (len : Z) (c : Conf) : option Conf :=
  match c_pc c p with
  | PIdle =>
    if (0 <? len) && (len <? 2 ^ 16) && (Z.to_nat len <=? length query)%nat
    then Some (set_pc p (PLookup {| q_key := MakeKey dbid queryid query len; q_text := query; q_len := len |}) c)
    else None
  | _ => None
  end.

(** Any process may release a reference nobody works with. *)
Definition release_call (p r : nat) (c : Conf) : option Conf :=
  match c_pc c p, c_refs c !! r with
  | PIdle, Some {| r_user := None |} =>
    Some (set_pc p (RResolve r) (c <| c_refs ::= alter (λ x, x <| r_user := Some p |>) r |>))
  | _, _ => None
  end.

Inductive Action :=
  | AAcquire (p : nat) (dbid queryid : Z) (query : bytes) (len : Z) | ARelease (p r : nat)
  | AStep (p : nat) | AAllocate (p : nat) (outcome : AllocOutcome).

Definition exec (a : Action) (c : Conf) : option Conf :=
  match a with
  | AAcquire p dbid queryid query len => acquire_call p dbid queryid query len c
  | ARelease p r => release_call p r c
  | AStep p => proc_step p c
  | AAllocate p outcome => alloc_step p outcome c
  end.

(** The count of an entry is 32 bits wide. The queue, which has at most [2^22] slots
    and is left out here, keeps the references below that ([refs_bound] of
    [QueueConcInv.v]). *)
Inductive step (c c' : Conf) : Prop :=
  do_step a : Z.of_nat (size (c_refs c)) + 1 < 2 ^ 32 → exec a c = Some c' → step c c'.

Definition start : Conf := {|
  c_heap := ∅; c_tab := ∅; c_locks := ∅; c_pc := λ _, PIdle; c_oom := 0; c_refs := ∅; c_next := 0;
  c_read := []; c_fault := false |}.

Definition reachable (c : Conf) : Prop := rtc step start c.

Fixpoint exec_all (l : list Action) (c : Conf) : option Conf :=
  match l with
  | [] => Some c
  | a :: rest => match exec a c with Some c' => exec_all rest c' | None => None end
  end.

End machine.
End InternConc.
