(* ===== verification/InternConcThms.v ===== *)
(** Safety of the concurrent interner ([InternConc.v]): no memory is used after it was
    freed or freed twice, the counts are exact, every text is read back as it was
    handed in, and nothing is left behind. *)

From stdpp Require Import relations.
From S2P Require Import Prelude Event Shared Dsa Intern InternInv RingInv RingSpec QueueSpec QueueThms InternConc.
Import Event Shared Dsa Intern InternInv QueueThms InternConc.

Module InternConcThms.

Section invariant.
Context {E : Env} (dst_size : Z).

(** ** What a program counter says *)

(** The key whose partition is locked. *)
Definition locked (pc : PC) : option PschQueryInternKey :=
  match pc with
  | PFind q | PFound q _ | PMissed q | PEnter q _ | PEntered q _ _ => Some (q_key q)
  | RFind _ key | RUnlock key _ => Some key
  | _ => None
  end.

(** The block only this process can reach. *)
Definition owns (pc : PC) : option Z :=
  match pc with
  | PRelock _ dp | PEnter _ dp | PBackOut _ dp | RFree dp => Some dp
  | PEntered _ _ dp | RUnlock _ dp => dp
  | _ => None
  end.

(** The object being entered. *)
Definition building (pc : PC) : option (Query * Z) :=
  match pc with PRelock q dp | PEnter q dp => Some (q, dp) | _ => None end.

(** The reference it works with, and the key read out of it. *)
Definition uses (pc : PC) : option nat :=
  match pc with
  | PFound _ r | PEntered _ r _ | PBackOut r _ => r
  | RResolve r | RKey r | RLock r _ | RFind r _ => Some r
  | _ => None
  end.
Definition keyed (pc : PC) : option (nat * PschQueryInternKey) :=
  match pc with RLock r key | RFind r key => Some (r, key) | _ => None end.

Definition query_of (pc : PC) : option Query :=
  match pc with PLookup q | PFind q | PMissed q | PAlloc q | PRelock q _ | PEnter q _ => Some q | _ => None end.

Definition query_ok (q : Query) : Prop :=
  0 < q_len q < 2 ^ 16 ∧ (Z.to_nat (q_len q) ≤ length (q_text q))%nat ∧
  ∃ dbid queryid, q_key q = MakeKey dbid queryid (q_text q) (q_len q).

(** ** Invariant *)

Definition refs_of (refs : gmap nat Reference) : list Z := (λ x, r_ptr x.2) <$> map_to_list refs.

(** The table and the published part [h] of the heap. *)
Record table_ok (tab : gmap PschQueryInternKey PschQueryInternEntry) (h : gmap Z DsaBlock)
    (refs : gmap nat Reference) (next : nat) : Prop := {
  to_intern : intern_inv tab h (refs_of refs);
  to_text r x : refs !! r = Some x → text_at h (r_ptr x) = r_text x;
  to_next r x : refs !! r = Some x → (r < next)%nat;
  to_objects d b : h !! d = Some b → ∃ o, b = DsaObject o }.

Definition locks_ok (pc : nat → PC) (locks : gmap Z nat) : Prop :=
  ∀ p i, partition <$> locked (pc p) = Some i ↔ locks !! i = Some p.

(** The rest of the heap is private. *)
Record heap_ok (pc : nat → PC) (heap h : gmap Z DsaBlock) : Prop := {
  ho_sub : h ⊆ heap;
  ho_rest d b : heap !! d = Some b → h !! d = None → ∃ p, owns (pc p) = Some d;
  ho_owned p d : owns (pc p) = Some d → d ≠ InvalidDsaPointer ∧ (∃ o, heap !! d = Some (DsaObject o)) ∧ h !! d = None;
  ho_owner p q d : owns (pc p) = Some d → owns (pc q) = Some d → p = q;
  ho_building p q d : building (pc p) = Some (q, d) → heap !! d = Some (new_object q) }.

Record users_ok (pc : nat → PC) (h : gmap Z DsaBlock) (refs : gmap nat Reference) : Prop := {
  uo_user p r : uses (pc p) = Some r → ∃ x, refs !! r = Some x ∧ r_user x = Some p;
  uo_keyed p r key : keyed (pc p) = Some (r, key) →
    ∃ x o, refs !! r = Some x ∧ h !! r_ptr x = Some (DsaObject o) ∧ o_key o = key }.

Definition queries_ok (pc : nat → PC) : Prop := ∀ p q, query_of (pc p) = Some q → query_ok q.

(** What was copied is what fits the buffer of the text that was handed in. *)
Definition read_ok (x : bytes * bytes) : Prop :=
  x.2 = take (Z.to_nat (fit_len (Z.of_nat (length x.1)) dst_size)) x.1.

Record conc_ok (c : Conf) (h : gmap Z DsaBlock) : Prop := {
  co_table : table_ok (c_tab c) h (c_refs c) (c_next c);
  co_locks : locks_ok (c_pc c) (c_locks c);
  co_heap : heap_ok (c_pc c) (c_heap c) h;
  co_users : users_ok (c_pc c) h (c_refs c);
  co_queries : queries_ok (c_pc c);
  co_read : Forall read_ok (c_read c);
  co_fault : c_fault c = false }.

(** Case analysis on whether a process is the one that moved. *)
Ltac at_proc q p := destruct (decide (q = p)) as [->|]; [rewrite ?upd_same|rewrite ?upd_other by done].

(** *** Locks *)

Lemma locks_same pc locks p x :
  locks_ok pc locks → locked x = locked (pc p) → locks_ok (upd pc p x) locks.
Proof. intros H Hx q i. at_proc q p; [rewrite Hx|]; apply H. Qed.

Lemma locks_acquire pc locks p x key :
  locks_ok pc locks → locks !! partition key = None → locked (pc p) = None → locked x = Some key →
  locks_ok (upd pc p x) (<[partition key := p]> locks).
Proof.
  intros H Hfree Hp Hx q i. rewrite lookup_insert. at_proc q p.
  - rewrite Hx. simpl. split; [intros [= <-]; by rewrite decide_True|]. case_decide as Hi; [by subst|].
    intros Hl%H. by rewrite Hp in Hl.
  - rewrite (H q i). case_decide as Hi; [subst i|done]. rewrite Hfree. split; [done|]. intros [= ->]. done.
Qed.

Lemma locks_release pc locks p x key :
  locks_ok pc locks → locked (pc p) = Some key → locked x = None →
  locks_ok (upd pc p x) (delete (partition key) locks).
Proof.
  intros H Hp Hx q i. assert (locks !! partition key = Some p) as Hl by (apply H; by rewrite Hp).
  rewrite lookup_delete. at_proc q p.
  - rewrite Hx. case_decide as Hi; [by split|]. split; [done|]. intros Hq%H. rewrite Hp in Hq. simpl in Hq. congruence.
  - rewrite (H q i). case_decide as Hi; [subst i|done]. rewrite Hl. split; [intros [= ->]; done|done].
Qed.

(** *** Heap *)

Lemma heap_same pc heap h p x :
  heap_ok pc heap h → owns x = owns (pc p) → (∀ q d, building x = Some (q, d) → building (pc p) = Some (q, d)) →
  heap_ok (upd pc p x) heap h.
Proof.
  intros [H1 H2 H3 H4 H5] Ho Hb. constructor; [done|..].
  - intros d b Hd Hn. destruct (H2 d b Hd Hn) as [q Hq]. exists q. at_proc q p; congruence.
  - intros q d. at_proc q p; [rewrite Ho|]; apply H3.
  - intros q r d. at_proc q p; at_proc r p; rewrite ?Ho; eauto.
  - intros q qu d. at_proc q p; [intros ?%Hb|]; eauto.
Qed.

Lemma heap_alloc pc heap h p x q d :
  heap_ok pc heap h → owns (pc p) = None → heap !! d = None → d ≠ InvalidDsaPointer → owns x = Some d →
  (∀ q' d', building x = Some (q', d') → q' = q ∧ d' = d) →
  heap_ok (upd pc p x) (<[d := new_object q]> heap) h.
Proof.
  intros [H1 H2 H3 H4 H5] Hp Hd Hv Ho Hb. assert (h !! d = None) as Hh by by eapply lookup_weaken_None.
  constructor.
  - by apply insert_subseteq_r.
  - intros d' b. rewrite lookup_insert. case_decide as Hi.
    + intros _ _. exists p. rewrite upd_same. congruence.
    + intros Hd' Hn. destruct (H2 d' b Hd' Hn) as [r Hr]. exists r. at_proc r p; congruence.
  - intros r d'. rewrite lookup_insert. at_proc r p.
    + rewrite Ho. intros [= <-]. rewrite decide_True by done. unfold new_object. eauto.
    + intros Hr. destruct (H3 r d' Hr) as (? & [o Hod] & ?). case_decide; [congruence|eauto].
  - intros r s d'. assert (∀ t, owns (pc t) ≠ Some d) as Hno.
    { intros t Ht. destruct (H3 t d Ht) as (_ & [o Hod] & _). congruence. }
    at_proc r p; at_proc s p; rewrite ?Ho; [done|intros [= <-] []%Hno|intros Hr [= <-]; by destruct (Hno r)|eauto].
  - intros r q' d'. at_proc r p.
    + intros [-> ->]%Hb. apply lookup_insert_eq.
    + intros Hr. pose proof (H5 _ _ _ Hr). rewrite lookup_insert_ne; congruence.
Qed.

(** The private block becomes the object of an entry. *)
Lemma heap_publish pc heap h p x q d :
  heap_ok pc heap h → building (pc p) = Some (q, d) → owns (pc p) = Some d → owns x = None → building x = None →
  heap_ok (upd pc p x) heap (<[d := new_object q]> h).
Proof.
  intros [H1 H2 H3 H4 H5] Hb Hp Ho Hbx. constructor.
  - apply map_subseteq_spec. intros d' b. rewrite lookup_insert. case_decide as Hi.
    + intros [= <-]. subst. eauto.
    + intros Hd. by eapply lookup_weaken.
  - intros d' b Hd. rewrite lookup_insert. case_decide as Hi; [done|]. intros Hn.
    destruct (H2 d' b Hd Hn) as [r Hr]. exists r. at_proc r p; congruence.
  - intros r d'. at_proc r p; [congruence|]. intros Hr. destruct (H3 r d' Hr) as (? & ? & ?). split_and!; try done.
    rewrite lookup_insert_ne; [done|]. intros ->. eauto.
  - intros r s d'. at_proc r p; at_proc s p; try congruence. eauto.
  - intros r q' d'. at_proc r p; [congruence|]. eauto.
Qed.

Lemma heap_free pc heap h p x d :
  heap_ok pc heap h → owns (pc p) = Some d → owns x = None → building x = None →
  heap_ok (upd pc p x) (delete d heap) h.
Proof.
  intros [H1 H2 H3 H4 H5] Hp Ho Hbx. constructor.
  - apply map_subseteq_spec. intros d' b Hd. destruct (H3 p d Hp) as (_ & _ & Hn).
    rewrite lookup_delete_ne by congruence. by eapply lookup_weaken.
  - intros d' b [Hne Hd]%lookup_delete_Some Hn. destruct (H2 d' b Hd Hn) as [r Hr]. exists r. at_proc r p; congruence.
  - intros r d'. at_proc r p; [congruence|]. intros Hr. destruct (H3 r d' Hr) as (? & ? & ?). split_and!; try done.
    rewrite lookup_delete_ne; [done|]. intros <-. eauto.
  - intros r s d'. at_proc r p; at_proc s p; try congruence. eauto.
  - intros r q' d'. at_proc r p; [congruence|]. intros Hr. pose proof (H5 _ _ _ Hr).
    rewrite lookup_delete_ne; [done|]. intros <-. assert (owns (pc r) = Some d) by (destruct (pc r); simpl in *; congruence). eauto.
Qed.

(** An object leaves the table for the process that dropped its last reference. *)
Lemma heap_unpublish pc heap h p x d o :
  heap_ok pc heap h → owns (pc p) = None → h !! d = Some (DsaObject o) → d ≠ InvalidDsaPointer → owns x = Some d →
  building x = None →
  heap_ok (upd pc p x) heap (delete d h).
Proof.
  intros [H1 H2 H3 H4 H5] Hp Hd Hv Ho Hbx. pose proof (lookup_weaken _ _ _ _ Hd H1) as Hd'.
  assert (∀ t, owns (pc t) ≠ Some d) as Hno by (intros t Ht; destruct (H3 t d Ht) as (_ & _ & ?); congruence).
  constructor.
  - etrans; [apply delete_subseteq|done].
  - intros d' b Hb. rewrite lookup_delete. case_decide as Hi.
    + intros _. exists p. rewrite upd_same. congruence.
    + intros Hn. destruct (H2 d' b Hb Hn) as [r Hr]. exists r. at_proc r p; congruence.
  - intros r d'. at_proc r p.
    + rewrite Ho. intros [= <-]. rewrite lookup_delete_eq. eauto.
    + intros Hr. destruct (H3 r d' Hr) as (? & ? & Hn). split_and!; try done. rewrite lookup_delete. by case_decide.
  - intros r s d'. at_proc r p; at_proc s p; rewrite ?Ho; [done|intros [= <-] []%Hno|intros Hr [= <-]; by destruct (Hno r)|eauto].
  - intros r q' d'. at_proc r p; [congruence|]. eauto.
Qed.

(** *** References *)

Lemma users_same pc h refs p x :
  users_ok pc h refs → (∀ r, uses x = Some r → uses (pc p) = Some r) →
  (∀ r key, keyed x = Some (r, key) → keyed (pc p) = Some (r, key)) → users_ok (upd pc p x) h refs.
Proof.
  intros [H1 H2] Hu Hk. constructor; intros q; at_proc q p; eauto.
Qed.

Lemma users_heap pc h h' refs :
  users_ok pc h refs →
  (∀ r x o, refs !! r = Some x → h !! r_ptr x = Some (DsaObject o) → h' !! r_ptr x = Some (DsaObject o)) →
  users_ok pc h' refs.
Proof.
  intros [H1 H2] Hh. constructor; [done|]. intros p r key Hk. destruct (H2 p r key Hk) as (x & o & Hr & Ho & Hkey).
  exists x, o. eauto.
Qed.

Lemma users_read pc h refs p x r key y o :
  users_ok pc h refs → uses (pc p) = Some r → refs !! r = Some y → h !! r_ptr y = Some (DsaObject o) →
  o_key o = key → uses x = Some r → keyed x = Some (r, key) → users_ok (upd pc p x) h refs.
Proof.
  intros [H1 H2] Hp Hr Ho Hkey Hu Hk. constructor; intros q; at_proc q p; eauto.
  - rewrite Hu. intros ? [= <-]. eauto.
  - rewrite Hk. intros ?? [= <- <-]. eauto.
Qed.

Lemma keyed_uses pc r key : keyed pc = Some (r, key) → uses pc = Some r.
Proof. destruct pc; simpl; congruence. Qed.

Lemma users_take pc h refs p x r y :
  users_ok pc h refs → refs !! r = None → uses x = Some r → keyed x = None → r_user y = Some p →
  users_ok (upd pc p x) h (<[r := y]> refs).
Proof.
  intros [H1 H2] Hr Hu Hk Hy. constructor; intros q; at_proc q p.
  - rewrite Hu. intros ? [= <-]. exists y. by rewrite lookup_insert_eq.
  - intros r' Hq. destruct (H1 q r' Hq) as (z & Hz & ?). exists z. rewrite lookup_insert_ne by congruence. done.
  - by rewrite Hk.
  - intros r' key Hq. destruct (H2 q r' key Hq) as (z & o & Hz & ?). exists z, o.
    rewrite lookup_insert_ne by congruence. done.
Qed.

(** A reference changes hands: [y] is the user afterwards. *)
Lemma users_alter pc h refs p x r z y :
  users_ok pc h refs → refs !! r = Some z → (r_user z = None ∨ uses (pc p) = Some r) →
  (∀ r', uses x = Some r' → r' = r ∧ y = Some p) → keyed x = None →
  users_ok (upd pc p x) h (alter (λ w, w <| r_user := y |>) r refs).
Proof.
  intros [H1 H2] Hr Hz Hu Hk.
  assert (∀ q, q ≠ p → uses (pc q) ≠ Some r) as Hno.
  { intros q Hq Hqr. destruct (H1 q r Hqr) as (w & Hw & Hwu). destruct Hz as [Hz|Hz]; [congruence|].
    destruct (H1 p r Hz) as (w' & ? & ?). congruence. }
  constructor; intros q; at_proc q p.
  - intros r' Hx. destruct (Hu r' Hx) as [-> ->]. exists (z <| r_user := Some p |>). by rewrite lookup_alter_eq, Hr.
  - intros r' Hq. destruct (H1 q r' Hq) as (w & Hw & ?). exists w. rewrite lookup_alter_ne by (intros ->; by eapply Hno). done.
  - by rewrite Hk.
  - intros r' key Hq. destruct (H2 q r' key Hq) as (w & o & Hw & ?). exists w, o.
    rewrite lookup_alter_ne; [done|]. intros ->. by eapply Hno, keyed_uses.
Qed.

Lemma users_drop pc h refs p x r :
  users_ok pc h refs → uses (pc p) = Some r → uses x = None → keyed x = None →
  users_ok (upd pc p x) h (delete r refs).
Proof.
  intros [H1 H2] Hp Hu Hk.
  assert (∀ q, q ≠ p → uses (pc q) ≠ Some r) as Hno.
  { intros q Hq Hqr. destruct (H1 q r Hqr) as (w & ? & ?). destruct (H1 p r Hp) as (w' & ? & ?). congruence. }
  constructor; intros q; at_proc q p; [congruence| |congruence|].
  - intros r' Hq. destruct (H1 q r' Hq) as (w & Hw & ?). exists w. rewrite lookup_delete_ne by (intros ->; by eapply Hno). done.
  - intros r' key Hq. destruct (H2 q r' key Hq) as (w & o & Hw & ?). exists w, o.
    rewrite lookup_delete_ne; [done|]. intros ->. by eapply Hno, keyed_uses.
Qed.

(** *** Table *)

Lemma refs_insert refs r x : refs !! r = None → refs_of (<[r := x]> refs) ≡ₚ r_ptr x :: refs_of refs.
Proof. intros Hr. unfold refs_of. by rewrite map_to_list_insert. Qed.

Lemma refs_delete refs r x : refs !! r = Some x → refs_of refs ≡ₚ r_ptr x :: refs_of (delete r refs).
Proof. intros Hr. rewrite <- refs_insert by apply lookup_delete_eq. by rewrite insert_delete_id. Qed.

Lemma refs_alter refs r y : refs_of (alter (λ w, w <| r_user := y |>) r refs) ≡ₚ refs_of refs.
Proof.
  destruct (refs !! r) as [x|] eqn:Hr.
  - rewrite (refs_delete refs r x), (refs_delete (alter _ r refs) r (x <| r_user := y |>)) by
      (done || by rewrite lookup_alter_eq, Hr).
    simpl. f_equiv. by rewrite delete_alter_eq.
  - by rewrite alter_id by (intros ?; congruence).
Qed.

Lemma length_refs refs : length (refs_of refs) = size refs.
Proof. unfold refs_of. by rewrite length_fmap, length_map_to_list. Qed.

Lemma table_ref tab h refs next r x :
  table_ok tab h refs next → refs !! r = Some x →
  ∃ k e o, tab !! k = Some e ∧ object e = r_ptr x ∧ h !! r_ptr x = Some (DsaObject o) ∧ object_wf k o ∧
    r_ptr x ≠ InvalidDsaPointer.
Proof.
  intros [H1 _ _] Hr.
  destruct (ref_entry _ _ _ H1 (r_ptr x)) as (k & e & Hk & He).
  { rewrite (refs_delete _ _ _ Hr). apply elem_of_cons. by left. }
  destruct (entry_object _ _ _ H1 k e Hk) as (Hv & o & Ho & Hwf). rewrite He in *. by exists k, e, o.
Qed.

Lemma table_alter tab h refs next r y :
  table_ok tab h refs next → table_ok tab h (alter (λ w, w <| r_user := y |>) r refs) next.
Proof.
  intros [H1 H2 H3 H4]. constructor; [by rewrite refs_alter|..|done].
  - intros r' x (z & Hr & ->)%lookup_alter_Some_1 || intros r' x; rewrite lookup_alter_Some.
    intros [(<- & z & Hz & ->)|[_ Hx]]; [exact (H2 _ _ Hz)|exact (H2 _ _ Hx)].
  - intros r' x. rewrite lookup_alter_Some. intros [(<- & z & Hz & ->)|[_ Hx]]; eauto.
Qed.

Lemma table_share tab h refs next k e y :
  table_ok tab h refs next → tab !! k = Some e → Z.of_nat (size refs) + 1 < 2 ^ 32 →
  r_ptr y = object e → text_at h (object e) = r_text y →
  table_ok (<[k := e <| refcount ::= λ n, u32 (n + 1) |>]> tab) h (<[next := y]> refs) (S next).
Proof.
  intros [H1 H2 H3 H4] Hk Hs Hy Ht.
  assert (refs !! next = None) as Hn.
  { destruct (refs !! next) as [x|] eqn:Hx; [|done]. apply H3 in Hx. lia. }
  constructor; [|..|done].
  - rewrite refs_insert, Hy by done. unfold set_field. rewrite (u32_refcount tab h (refs_of refs) k); [|done..|by rewrite length_refs].
    by apply (intern_inv_hit tab h (refs_of refs) k e).
  - intros r x [[<- <-]|[? ?]]%lookup_insert_Some; [congruence|eauto].
  - intros r x [[<- <-]|[? Hr]]%lookup_insert_Some; [lia|apply H3 in Hr; lia].
Qed.

Lemma table_new tab h refs next q d y :
  table_ok tab h refs next → query_ok q → tab !! q_key q = None → h !! d = None → d ≠ InvalidDsaPointer →
  r_ptr y = d → r_text y = take (Z.to_nat (q_len q)) (q_text q) →
  table_ok (<[q_key q := {| object := d; refcount := 1 |}]> tab) (<[d := new_object q]> h) (<[next := y]> refs) (S next).
Proof.
  intros [H1 H2 H3 H4] (Hl & Hq & dbid & queryid & Hkey) Hk Hd Hv Hy Ht.
  assert (refs !! next = None) as Hn.
  { destruct (refs !! next) as [x|] eqn:Hx; [|done]. apply H3 in Hx. lia. }
  constructor.
  - rewrite refs_insert, Hy by done. unfold new_object. apply intern_inv_new; try done.
    rewrite Hkey. by apply fresh_object_wf.
  - intros r x [[<- <-]|[Hne Hr]]%lookup_insert_Some; unfold text_at, object_at.
    + rewrite Hy, lookup_insert_eq, Ht. unfold new_object. simpl. rewrite Hkey. simpl.
      rewrite take_app_le by (rewrite length_take; lia). rewrite take_take. f_equal. lia.
    + rewrite lookup_insert_ne; [exact (H2 r x Hr)|]. intros Heq.
      destruct (table_ref tab h refs next r x) as (k & e & o & _ & _ & Ho & _); [by constructor|done|]. congruence.
  - intros r x [[<- <-]|[? Hr]]%lookup_insert_Some; [lia|apply H3 in Hr; lia].
  - intros d' b [[<- <-]|[? Hb]]%lookup_insert_Some; [unfold new_object; eauto|eauto].
Qed.

(** The entry of a reference, with a count that is exact. *)
Lemma table_count tab h refs next k e :
  table_ok tab h refs next → tab !! k = Some e → Z.of_nat (size refs) < 2 ^ 32 →
  u32 (refcount e - 1) = refcount e - 1.
Proof.
  intros [H1 _ _ _] Hk Hs. destruct (entry_refcount _ _ _ H1 k e Hk) as [Hc ?].
  pose proof (count_eqb_le (object e) (refs_of refs)). rewrite length_refs in *. apply Z.mod_small. lia.
Qed.

Lemma table_decr tab h refs next k e r x :
  table_ok tab h refs next → tab !! k = Some e → refs !! r = Some x → r_ptr x = object e → refcount e ≠ 1 →
  table_ok (<[k := e <| refcount := refcount e - 1 |>]> tab) h (delete r refs) next.
Proof.
  intros [H1 H2 H3 H4] Hk Hr Hx Hc. constructor; [|..|done].
  - apply intern_inv_decr; [|done..]. rewrite <- Hx. by rewrite <- refs_delete.
  - intros r' y [_ Hy]%lookup_delete_Some. eauto.
  - intros r' y [_ Hy]%lookup_delete_Some. eauto.
Qed.

Lemma table_last tab h refs next k e r x :
  table_ok tab h refs next → tab !! k = Some e → refs !! r = Some x → r_ptr x = object e → refcount e = 1 →
  (∀ r' y, delete r refs !! r' = Some y → r_ptr y ≠ object e) ∧
  table_ok (delete k tab) (delete (object e) h) (delete r refs) next.
Proof.
  intros [H1 H2 H3 H4] Hk Hr Hx Hc.
  assert (∀ r' y, delete r refs !! r' = Some y → r_ptr y ≠ object e) as Hno.
  { intros r' y Hy Heq. destruct (entry_refcount _ _ _ H1 k e Hk) as [Hcount _].
    rewrite Hc in Hcount. rewrite (count_perm _ _ _ (refs_delete _ _ _ Hr)), count_cons, Hx, Z.eqb_refl,
      (count_perm _ _ _ (refs_delete _ _ _ Hy)), count_cons, Heq, Z.eqb_refl in Hcount. lia. }
  split; [done|]. constructor.
  - apply intern_inv_last; [|done..]. rewrite <- Hx. by rewrite <- refs_delete.
  - intros r' y Hy. pose proof (Hno r' y Hy). apply lookup_delete_Some in Hy as [_ Hy].
    unfold text_at, object_at. rewrite lookup_delete_ne by done. exact (H2 r' y Hy).
  - intros r' y [_ Hy]%lookup_delete_Some. eauto.
  - intros d b [_ Hb]%lookup_delete_Some. eauto.
Qed.

(** *** Steps *)

Lemma queries_set pc p x :
  queries_ok pc → (∀ q, query_of x = Some q → query_of (pc p) = Some q) → queries_ok (upd pc p x).
Proof. intros H Hx q qu. at_proc q p; eauto. Qed.

(** Objects the table or a reference points at can be followed. *)
Lemma touch_entry c h k e :
  conc_ok c h → c_tab c !! k = Some e → touch (object e) c = c <| c_fault := false |>.
Proof.
  intros Hok Hk. destruct (entry_object _ _ _ (to_intern _ _ _ _ (co_table _ _ Hok)) k e Hk) as (_ & o & Ho & _).
  pose proof (lookup_weaken _ _ _ _ Ho (ho_sub _ _ _ (co_heap _ _ Hok))) as Hh.
  pose proof (co_fault _ _ Hok) as Hf. unfold touch, object_at. rewrite Hh. destruct c. simpl in *. by subst.
Qed.

Lemma reference_object c h r x :
  conc_ok c h → c_refs c !! r = Some x →
  ∃ k e o, c_tab c !! k = Some e ∧ object e = r_ptr x ∧ h !! r_ptr x = Some (DsaObject o) ∧
    object_at (c_heap c) (r_ptr x) = Some o ∧ object_wf k o ∧ r_ptr x ≠ InvalidDsaPointer.
Proof.
  intros Hok Hr. destruct (table_ref _ _ _ _ r x (co_table _ _ Hok) Hr) as (k & e & o & ? & ? & Ho & ? & ?).
  exists k, e, o. split_and!; try done. unfold object_at.
  by rewrite (lookup_weaken _ _ _ _ Ho (ho_sub _ _ _ (co_heap _ _ Hok))).
Qed.

Lemma reference_text c h r x : conc_ok c h → c_refs c !! r = Some x → text_at (c_heap c) (r_ptr x) = r_text x.
Proof.
  intros Hok Hr. destruct (reference_object c h r x Hok Hr) as (k & e & o & _ & _ & Ho & Hobj & _).
  rewrite <- (to_text _ _ _ _ (co_table _ _ Hok) r x Hr). unfold text_at, object_at in *. by rewrite Ho, Hobj.
Qed.

(** Outside of all calls every block is the object of a reference. *)
Lemma idle_block c h d b :
  conc_ok c h → (∀ p, c_pc c p = PIdle) → c_heap c !! d = Some b → ∃ r x, c_refs c !! r = Some x ∧ r_ptr x = d.
Proof.
  intros [[H1 H2 H3 H4] _ Hheap _ _ _ _] Hidle Hb. destruct (h !! d) as [b'|] eqn:Hd'.
  - destruct (H4 d b' Hd') as [o ->]. destruct (object_entry _ _ _ H1 d o Hd') as (e & He & <-).
    destruct (entry_refcount _ _ _ H1 _ _ He) as [Hc Hpos].
    destruct (decide (object e ∈ refs_of (c_refs c))) as [Hin|Hn]; [|rewrite count_eqb_not_in in Hc by done; simpl in Hc; lia].
    apply list_elem_of_fmap in Hin as ([r x] & Hx & Hr%elem_of_map_to_list). by exists r, x.
  - destruct (ho_rest _ _ _ Hheap d b Hb Hd') as [p Hp]. by rewrite Hidle in Hp.
Qed.

Lemma touch_live c h dp o :
  conc_ok c h → object_at (c_heap c) dp = Some o → touch dp c = c <| c_fault := false |>.
Proof. intros Hok Ho. pose proof (co_fault _ _ Hok) as Hf. unfold touch. rewrite Ho. destruct c. simpl in *. by subst. Qed.

Lemma share_ok p q e c h result c' :
  conc_ok c h → c_tab c !! q_key q = Some e → Z.of_nat (size (c_refs c)) + 1 < 2 ^ 32 → uses (c_pc c p) = None →
  keyed (c_pc c p) = None → share p q e c = (result, c') →
  table_ok (c_tab c') h (c_refs c') (c_next c') ∧ c_locks c' = c_locks c ∧ c_pc c' = c_pc c ∧ c_heap c' = c_heap c ∧
  c_read c' = c_read c ∧ c_fault c' = false ∧
  ∀ x, uses x = result → keyed x = None → users_ok (upd (c_pc c) p x) h (c_refs c').
Proof.
  intros Hok Hk Hs Hu Hkey. unfold share. rewrite (touch_entry c h _ e Hok Hk). simpl.
  pose proof (co_table _ _ Hok) as Ht. pose proof (co_users _ _ Hok) as Hus.
  destruct (ObjectMatches _ _ _ _) eqn:Hm; intros [= <- <-]; simpl.
  - split_and!; try done.
    + apply table_share; try done. apply ObjectMatches_text in Hm. rewrite <- Hm.
      destruct (entry_object _ _ _ (to_intern _ _ _ _ Ht) _ e Hk) as (_ & o & Ho & _).
      unfold text_at, object_at. by rewrite Ho, (lookup_weaken _ _ _ _ Ho (ho_sub _ _ _ (co_heap _ _ Hok))).
    + intros x Hx Hkx. apply users_take; try done.
      destruct (c_refs c !! c_next c) as [y|] eqn:Hy; [|done]. apply (to_next _ _ _ _ Ht) in Hy. lia.
  - split_and!; try done. intros x Hx Hkx. apply users_same; [done|intros r; by rewrite Hx|intros ??; by rewrite Hkx].
Qed.

Lemma lock_for_ok p key pc c c' h :
  conc_ok c h → lock_for p key pc c = Some c' → locked (c_pc c p) = None → locked pc = Some key →
  owns pc = owns (c_pc c p) → building pc = building (c_pc c p) → uses pc = uses (c_pc c p) →
  keyed pc = keyed (c_pc c p) → query_of pc = query_of (c_pc c p) → conc_ok c' h.
Proof.
  intros [H1 H2 H3 H4 H5 H6 H7] Hl Hp Hx Ho Hb Hu Hk Hq. unfold lock_for in Hl.
  destruct (c_locks c !! partition key) eqn:Hf; [done|]. injection Hl as <-. constructor; simpl; try done.
  - by apply locks_acquire.
  - apply heap_same; [done..|]. intros ??. by rewrite Hb.
  - apply users_same; [done|intros ?; by rewrite Hu|intros ??; by rewrite Hk].
  - apply queries_set; [done|]. intros ?. by rewrite Hq.
Qed.

(** Leaving a critical section; [result] is what the call returns, if it ends here. *)
Lemma unlock_ok p pc pc' key c h :
  conc_ok c h → c_pc c p = pc → locked pc = Some key → locked pc' = None → owns pc' = owns pc → building pc' = None →
  uses pc' = uses pc → keyed pc' = None → (∀ q, query_of pc' = Some q → query_of pc = Some q) →
  conc_ok (set_pc p pc' (unlock key c)) h.
Proof.
  intros [H1 H2 H3 H4 H5 H6 H7] <- Hl Hl' Ho Hb Hu Hk Hq. constructor; simpl; try done.
  - by apply locks_release.
  - apply heap_same; [done..|]. intros ??. by rewrite Hb.
  - apply users_same; [done|intros ?; by rewrite Hu|intros ??; by rewrite Hk].
  - by apply queries_set.
Qed.

(** The end of a call that returns [result]. *)
Lemma give_ok p result c h :
  table_ok (c_tab c) h (c_refs c) (c_next c) → locks_ok (upd (c_pc c) p PIdle) (c_locks c) →
  heap_ok (upd (c_pc c) p PIdle) (c_heap c) h → users_ok (c_pc c) h (c_refs c) → uses (c_pc c p) = result →
  queries_ok (c_pc c) → Forall read_ok (c_read c) → c_fault c = false →
  conc_ok (set_pc p PIdle (give result c)) h.
Proof.
  intros H1 H2 H3 H4 Hu H5 H6 H7. destruct result as [r|]; simpl.
  - destruct (uo_user _ _ _ H4 p r Hu) as (x & Hr & Hx). constructor; simpl; try done.
    + by apply table_alter.
    + eapply users_alter; [done..|by right|done|done].
    + by apply queries_set.
  - constructor; simpl; try done.
    + by apply users_same.
    + by apply queries_set.
Qed.

Lemma find_ok p q c h :
  conc_ok c h → c_pc c p = PFind q → Z.of_nat (size (c_refs c)) + 1 < 2 ^ 32 → conc_ok (find_step p q c) h.
Proof.
  intros Hok Hpc Hs. pose proof Hok as [H1 H2 H3 H4 H5 H6 H7]. unfold find_step.
  destruct (c_tab c !! q_key q) as [e|] eqn:Hk.
  - destruct (share p q e c) as [result c1] eqn:Hsh.
    destruct (share_ok p q e c h result c1) as (T & Hl & Hp & Hh & Hr & Hf & U); [done..|by rewrite Hpc|by rewrite Hpc|done|].
    constructor; simpl; rewrite ?Hl, ?Hp, ?Hh, ?Hr; try done.
    + apply locks_same; [done|by rewrite Hpc].
    + apply heap_same; [done|by rewrite Hpc|done].
    + by apply U.
    + by apply queries_set.
  - constructor; simpl; try done.
    + apply locks_same; [done|by rewrite Hpc].
    + apply heap_same; [done|by rewrite Hpc|done].
    + apply users_same; [done|done|done].
    + apply queries_set; [done|]. intros ?. by rewrite Hpc.
Qed.

Lemma enter_ok p q d c h :
  conc_ok c h → c_pc c p = PEnter q d → Z.of_nat (size (c_refs c)) + 1 < 2 ^ 32 → ∃ h', conc_ok (enter_step p q d c) h'.
Proof.
  intros Hok Hpc Hs. pose proof Hok as [H1 H2 H3 H4 H5 H6 H7]. unfold enter_step.
  destruct (ho_owned _ _ _ H3 p d) as (Hv & [o Ho] & Hd); [by rewrite Hpc|].
  assert (query_ok q) as Hq by (apply (H5 p); by rewrite Hpc).
  destruct (c_tab c !! q_key q) as [e|] eqn:Hk; [|destruct (hash_has_room _ _)].
  - destruct (share p q e c) as [result c1] eqn:Hsh.
    destruct (share_ok p q e c h result c1) as (T & Hl & Hp & Hh & Hr & Hf & U); [done..|by rewrite Hpc|by rewrite Hpc|done|].
    exists h. constructor; simpl; rewrite ?Hl, ?Hp, ?Hh, ?Hr; try done.
    + apply locks_same; [done|by rewrite Hpc].
    + apply heap_same; [done|by rewrite Hpc|done].
    + by apply U.
    + by apply queries_set.
  - exists (<[d := new_object q]> h). constructor; simpl; try done.
    + by apply table_new.
    + apply locks_same; [done|by rewrite Hpc].
    + apply heap_publish; [done|by rewrite Hpc|by rewrite Hpc|done|done].
    + eapply users_take; [|..|done|done|done].
      * eapply users_heap; [done|]. intros r x o' _ Hx. rewrite lookup_insert_ne; congruence.
      * destruct (c_refs c !! c_next c) as [y|] eqn:Hy; [|done]. apply (to_next _ _ _ _ H1) in Hy. lia.
    + by apply queries_set.
  - exists h. constructor; simpl; try done.
    + apply locks_same; [done|by rewrite Hpc].
    + apply heap_same; [done|by rewrite Hpc|done].
    + by apply users_same.
    + by apply queries_set.
Qed.

Lemma alloc_ok p outcome c c' h :
  conc_ok c h → alloc_step p outcome c = Some c' → conc_ok c' h.
Proof.
  intros Hok Hs. pose proof Hok as [H1 H2 H3 H4 H5 H6 H7]. unfold alloc_step in Hs.
  destruct (c_pc c p) as [| | | | |q| | | | | | | | | |] eqn:Hpc; try done.
  assert (∀ x oom, locked x = None → owns x = None → building x = None → uses x = None → keyed x = None →
    query_of x = None → conc_ok (set_pc p x (c <| c_oom := oom |>)) h) as Hidle.
  { intros x oom Hl Ho Hb Hu Hk Hq. constructor; simpl; try done.
    - apply locks_same; [done|by rewrite Hpc].
    - apply heap_same; [done|by rewrite Hpc|]. intros ??. by rewrite Hb.
    - apply users_same; [done|intros ?; by rewrite Hu|intros ??; by rewrite Hk].
    - apply queries_set; [done|]. intros ?. by rewrite Hq. }
  destruct outcome as [d| |].
  - destruct (c_heap c !! d) eqn:Hd; [done|]. destruct (DsaPointerIsValid d) eqn:Hv; [|done]. injection Hs as <-.
    apply DsaPointerIsValid_spec in Hv. constructor; simpl; try done.
    + apply locks_same; [done|by rewrite Hpc].
    + apply heap_alloc; try done; [by rewrite Hpc|]. by intros q' d' [= <- <-].
    + by apply users_same.
    + apply queries_set; [done|]. intros ?. by rewrite Hpc.
  - injection Hs as <-. by apply Hidle.
  - injection Hs as <-. by apply (Hidle PIdle (c_oom c)).
Qed.

Lemma resolve_ok p r c c' h (Hd : 0 < dst_size ≤ 2 ^ 16) :
  conc_ok c h → c_pc c p = RResolve r → resolve_step dst_size p r c = Some c' → conc_ok c' h.
Proof.
  intros Hok Hpc Hs. pose proof Hok as [H1 H2 H3 H4 H5 H6 H7]. unfold resolve_step in Hs.
  destruct (c_refs c !! r) as [x|] eqn:Hr; [|done]. injection Hs as <-.
  destruct (reference_object c h r x Hok Hr) as (k & e & o & _ & _ & Ho & Hobj & (Hkey & Hmagic & Hlen & Hquery) & _).
  rewrite Hobj, (touch_live c h _ o Hok Hobj). constructor; simpl; try done.
  - apply locks_same; [done|by rewrite Hpc].
  - apply heap_same; [done|by rewrite Hpc|done].
  - apply users_same; [done|intros ?; by rewrite Hpc|done].
  - by apply queries_set.
  - apply Forall_app. split; [done|]. apply Forall_singleton. unfold read_ok. simpl.
    rewrite <- (to_text _ _ _ _ H1 r x Hr). unfold text_at, copied, fit_len, object_at.
    rewrite Ho, Hmagic, Z.eqb_refl, Hkey, length_take, Hquery. simpl.
    assert (u16 (dst_size - 1) = dst_size - 1) as -> by (apply u16_small; unfold is_u16; lia).
    replace (Z.of_nat (Z.to_nat (k_query_len k) `min` S (Z.to_nat (k_query_len k)))) with (k_query_len k) by lia.
    rewrite take_take. f_equal. destruct (Z.leb_spec dst_size (k_query_len k)); lia.
Qed.

Lemma key_ok p r c c' h :
  conc_ok c h → c_pc c p = RKey r → key_step p r c = Some c' → conc_ok c' h.
Proof.
  intros Hok Hpc Hs. pose proof Hok as [H1 H2 H3 H4 H5 H6 H7]. unfold key_step in Hs.
  destruct (c_refs c !! r) as [x|] eqn:Hr; [|done]. injection Hs as <-.
  destruct (reference_object c h r x Hok Hr) as (k & e & o & _ & _ & Ho & Hobj & (Hkey & Hmagic & _) & _).
  rewrite Hobj, (touch_live c h _ o Hok Hobj), Hmagic, Z.eqb_refl. simpl. constructor; simpl; try done.
  - apply locks_same; [done|by rewrite Hpc].
  - apply heap_same; [done|by rewrite Hpc|done].
  - apply (users_read _ _ _ _ _ r (CopyKeyFields (o_key o)) x o); try done; [by rewrite Hpc|]. by destruct (o_key o).
  - by apply queries_set.
Qed.

Lemma release_ok p r key c c' h :
  conc_ok c h → c_pc c p = RFind r key → Z.of_nat (size (c_refs c)) + 1 < 2 ^ 32 →
  release_step p r key c = Some c' → ∃ h', conc_ok c' h'.
Proof.
  intros Hok Hpc Hsz Hs. pose proof Hok as [H1 H2 H3 H4 H5 H6 H7]. unfold release_step in Hs.
  destruct (c_refs c !! r) as [x|] eqn:Hr; [|done]. injection Hs as <-. simpl.
  destruct (reference_object c h r x Hok Hr) as (k & e & o & Hk & He & Ho & Hobj & Hwf & Hv).
  assert (k = key) as ->.
  { destruct (uo_keyed _ _ _ H4 p r key) as (x' & o' & ? & Ho' & <-); [by rewrite Hpc|].
    simplify_eq. by destruct Hwf as [? _]. }
  rewrite Hk, He, Z.eqb_refl, (table_count _ _ _ _ _ _ H1 Hk) by lia.
  destruct (Z.eqb_spec (refcount e - 1) 0) as [Hc|Hc].
  - destruct (table_last _ _ _ _ key e r x H1) as [Hno T]; [done..|lia|]. rewrite He in Hno, T.
    exists (delete (r_ptr x) h). constructor; simpl; try done.
    + apply locks_same; [done|by rewrite Hpc].
    + rewrite <- He in Ho, Hv |- *. eapply heap_unpublish; try done. by rewrite Hpc.
    + eapply users_heap; [eapply users_drop; [done|by rewrite Hpc|done|done]|].
      intros r' y o' Hy Hoy. rewrite lookup_delete_ne; [done|]. intros Heq. by eapply Hno.
    + by apply queries_set.
  - exists h. constructor; simpl; try done.
    + eapply table_decr; try done. lia.
    + apply locks_same; [done|by rewrite Hpc].
    + apply heap_same; [done|by rewrite Hpc|done].
    + eapply users_drop; [done|by rewrite Hpc|done|done].
    + by apply queries_set.
Qed.

(** Freeing a private block. *)
Lemma free_ok p result d c h :
  conc_ok c h → owns (c_pc c p) = Some d → uses (c_pc c p) = result → locked (c_pc c p) = None →
  conc_ok (set_pc p PIdle (give result (free_block d c))) h.
Proof.
  intros Hok Ho Hu Hl. pose proof Hok as [H1 H2 H3 H4 H5 H6 H7].
  destruct (ho_owned _ _ _ H3 p d Ho) as (_ & [o Hd] & _).
  assert (object_at (c_heap c) d = Some o) as Hobj by by apply object_at_Some.
  unfold free_block. rewrite (touch_live c h d o Hok Hobj).
  apply give_ok; simpl; try done; [by apply locks_same|by eapply heap_free].
Qed.

Lemma proc_step_ok p c c' h (Hd : 0 < dst_size ≤ 2 ^ 16) :
  conc_ok c h → Z.of_nat (size (c_refs c)) + 1 < 2 ^ 32 → proc_step dst_size p c = Some c' → ∃ h', conc_ok c' h'.
Proof.
  intros Hok Hsz Hs. unfold proc_step in Hs. pose proof Hok as [H1 H2 H3 H4 H5 H6 H7].
  destruct (c_pc c p) as [|q|q|q result|q|q|q d|q d|q result [d|]|result d|r|r|r key|r key|key [d|]|d] eqn:Hpc; try done.
  - exists h. eapply lock_for_ok; try done; by rewrite Hpc.
  - injection Hs as <-. exists h. by apply find_ok.
  - injection Hs as <-. exists h. apply give_ok; simpl; try done; [|apply heap_same; [done|by rewrite Hpc|done]|by rewrite Hpc].
    apply locks_release; [done|by rewrite Hpc|done].
  - injection Hs as <-. exists h. by eapply unlock_ok.
  - exists h. eapply lock_for_ok; try done; by rewrite Hpc.
  - injection Hs as <-. by eapply enter_ok.
  - injection Hs as <-. exists h. by eapply unlock_ok.
  - injection Hs as <-. exists h. apply give_ok; simpl; try done; [|apply heap_same; [done|by rewrite Hpc|done]|by rewrite Hpc].
    apply locks_release; [done|by rewrite Hpc|done].
  - injection Hs as <-. exists h. apply free_ok; [done|by rewrite Hpc..].
  - exists h. by eapply resolve_ok.
  - exists h. by eapply key_ok.
  - exists h. eapply lock_for_ok; try done; by rewrite Hpc.
  - by eapply release_ok.
  - injection Hs as <-. exists h. by eapply unlock_ok.
  - injection Hs as <-. exists h. by eapply unlock_ok.
  - injection Hs as <-. exists h. apply (free_ok p None); [done|by rewrite Hpc..].
Qed.

Lemma acquire_call_ok p dbid queryid query len c c' h :
  conc_ok c h → acquire_call p dbid queryid query len c = Some c' → conc_ok c' h.
Proof.
  intros [H1 H2 H3 H4 H5 H6 H7] Hs. unfold acquire_call in Hs. destruct (c_pc c p) eqn:Hpc; try done.
  destruct (Z.ltb_spec 0 len); [|done]. destruct (Z.ltb_spec len (2 ^ 16)); [|done].
  destruct (Nat.leb_spec (Z.to_nat len) (length query)); [|done]. injection Hs as <-.
  constructor; simpl; try done.
  - apply locks_same; [done|by rewrite Hpc].
  - apply heap_same; [done|by rewrite Hpc|done].
  - by apply users_same.
  - intros q qu. at_proc q p; [|eauto]. intros [= <-]. split_and!; simpl; try done. by do 2 eexists.
Qed.

Lemma release_call_ok p r c c' h : conc_ok c h → release_call p r c = Some c' → conc_ok c' h.
Proof.
  intros [H1 H2 H3 H4 H5 H6 H7] Hs. unfold release_call in Hs. destruct (c_pc c p) eqn:Hpc; try done.
  destruct (c_refs c !! r) as [[ptr text [u|]]|] eqn:Hr; try done. injection Hs as <-. constructor; simpl; try done.
  - by apply table_alter.
  - apply locks_same; [done|by rewrite Hpc].
  - apply heap_same; [done|by rewrite Hpc|done].
  - eapply users_alter; [done..|by left| |done]. by intros r' [= <-].
  - by apply queries_set.
Qed.

Lemma exec_ok a c c' h (Hd : 0 < dst_size ≤ 2 ^ 16) :
  conc_ok c h → Z.of_nat (size (c_refs c)) + 1 < 2 ^ 32 → exec dst_size a c = Some c' → ∃ h', conc_ok c' h'.
Proof.
  intros Hok Hsz. destruct a; simpl; intros Hs.
  - exists h. by eapply acquire_call_ok.
  - exists h. by eapply release_call_ok.
  - by eapply proc_step_ok.
  - exists h. by eapply alloc_ok.
Qed.

Lemma start_ok : conc_ok start ∅.
Proof.
  constructor; simpl; try done.
  - constructor; try done. unfold refs_of. rewrite map_to_list_empty. apply intern_inv_empty.
Qed.

Lemma reachable_ok c (Hd : 0 < dst_size ≤ 2 ^ 16) : reachable dst_size c → ∃ h, conc_ok c h.
Proof.
  unfold reachable. intros Hr. cut (∀ c0 c1, rtc (step dst_size) c0 c1 → (∃ h, conc_ok c0 h) → ∃ h, conc_ok c1 h).
  { intros H. apply (H _ _ Hr). exists ∅. apply start_ok. }
  clear Hr. induction 1 as [|c0 c1 c2 [a Hsz Ha] _ IH]; [done|]. intros [h Hok]. apply IH. by eapply exec_ok.
Qed.

(** *** Runs *)

Lemma exec_size a c c' : exec dst_size a c = Some c' → (size (c_refs c') ≤ S (size (c_refs c)))%nat.
Proof.
  assert (∀ r x (m : gmap nat Reference), (size (<[r := x]> m) ≤ S (size m))%nat) as Hins.
  { intros r x m. rewrite map_size_insert. destruct (m !! r); simpl; lia. }
  assert (∀ r f (m : gmap nat Reference), size (alter f r m) = size m) as Halt.
  { intros r f m. destruct (m !! r) as [x|] eqn:Hr.
    - rewrite <- (insert_delete_id m r x Hr), alter_insert_eq, !map_size_insert.
      by rewrite !lookup_delete_eq.
    - by rewrite alter_id by (intros ?; congruence). }
  assert (∀ r c0, size (c_refs (give r c0)) = size (c_refs c0)) as Hg by (intros [r|] c0; simpl; [apply Halt|done]).
  assert (∀ p q e c0, (size (c_refs (share p q e c0).2) ≤ S (size (c_refs c0)))%nat) as Hsh.
  { intros p q e c0. unfold share. destruct (ObjectMatches _ _ _ _); simpl; [apply Hins|lia]. }
  destruct a as [p dbid queryid query len|p r|p|p outcome]; simpl; intros Hs.
  - unfold acquire_call in Hs. destruct (c_pc c p); try done. destruct (_ && _); [|done]. injection Hs as <-. simpl. lia.
  - unfold release_call in Hs. destruct (c_pc c p); try done. destruct (c_refs c !! r) as [[ptr text [u|]]|]; try done.
    injection Hs as <-. simpl. rewrite Halt. lia.
  - unfold proc_step in Hs. destruct (c_pc c p) as [|q|q|q result|q|q|q d|q d|q result [d|]|result d|r|r|r key|r key|key [d|]|d];
      try done; try (injection Hs as <-; simpl; rewrite ?Hg; simpl; lia);
      try (unfold lock_for in Hs; destruct (c_locks c !! _); [done|]; injection Hs as <-; simpl; lia).
    + injection Hs as <-. unfold find_step. destruct (c_tab c !! q_key q) as [e|]; [|simpl; lia].
      specialize (Hsh p q e c). by destruct (share p q e c).
    + injection Hs as <-. unfold enter_step. destruct (c_tab c !! q_key q) as [e|].
      * specialize (Hsh p q e c). by destruct (share p q e c).
      * destruct (hash_has_room _ _); simpl; [apply Hins|lia].
    + unfold resolve_step in Hs. destruct (c_refs c !! r); [|done]. injection Hs as <-. simpl. lia.
    + unfold key_step in Hs. destruct (c_refs c !! r); [|done]. injection Hs as <-. simpl. lia.
    + unfold release_step in Hs. destruct (c_refs c !! r) as [x|] eqn:Hr; [|done]. injection Hs as <-.
      assert (size (delete r (c_refs c)) ≤ S (size (c_refs c)))%nat as Hdel by (rewrite map_size_delete; destruct (c_refs c !! r); simpl; lia).
      simpl. destruct (c_tab c !! key) as [e|]; [|done]. destruct (_ =? _); [|done]. by destruct (_ =? 0).
  - unfold alloc_step in Hs. destruct (c_pc c p); try done. destruct outcome as [d| |]; [|injection Hs as <-; simpl; lia..].
    destruct (c_heap c !! d); [done|]. destruct (DsaPointerIsValid d); [|done]. injection Hs as <-. simpl. lia.
Qed.

Lemma intern_run_app l1 l2 c :
  exec_all dst_size (l1 ++ l2) c = match exec_all dst_size l1 c with Some c1 => exec_all dst_size l2 c1 | None => None end.
Proof. revert c. induction l1 as [|a l1 IH]; intros c; simpl; [done|]. destruct (exec _ a c); [apply IH|done]. Qed.

Lemma exec_all_size l c c' : exec_all dst_size l c = Some c' → (size (c_refs c') ≤ length l + size (c_refs c))%nat.
Proof.
  revert c. induction l as [|a l IH]; intros c; simpl; [intros [= ->]; lia|].
  destruct (exec _ a c) as [c1|] eqn:Ha; [|done]. intros ?%IH. pose proof (exec_size _ _ _ Ha). lia.
Qed.

Lemma exec_all_ok l c c' h (Hd : 0 < dst_size ≤ 2 ^ 16) :
  exec_all dst_size l c = Some c' → conc_ok c h → Z.of_nat (size (c_refs c) + length l) + 1 < 2 ^ 32 → ∃ h', conc_ok c' h'.
Proof.
  revert c h. induction l as [|a l IH]; intros c h; simpl; [intros [= ->]; eauto|].
  destruct (exec _ a c) as [c1|] eqn:Ha; [|done]. intros Hl Hok Hs.
  pose proof (exec_size _ _ _ Ha). destruct (exec_ok a c c1 h Hd Hok) as [h1 Hok1]; [lia|done|]. eapply IH; [done..|lia].
Qed.

Lemma intern_run_reachable l c c' :
  exec_all dst_size l c = Some c' → Z.of_nat (size (c_refs c) + length l) + 1 < 2 ^ 32 → rtc (step dst_size) c c'.
Proof.
  revert c. induction l as [|a l IH]; intros c; simpl; [by intros [= ->]|].
  destruct (exec _ a c) as [c1|] eqn:Ha; [|done]. intros Hl Hs.
  pose proof (exec_size _ _ _ Ha). eapply rtc_l; [eapply do_step; [|exact Ha]; lia|]. apply IH; [done|lia].
Qed.

End invariant.

(** ** Theorems *)

(** C18: The interner has no race on its memory. Under every interleaving of any number
    of acquiring and releasing processes, and whatever the allocator answers, no
    object is used after it was freed and none is freed twice; the count of every
    entry is the number of references that are out; every reference points at the
    text it was given for, and every text copied out is the one handed in, cut to the
    buffer; and whenever no call is in progress every block in the area is the object
    of a reference, so that nothing is left once all were released. *)
Theorem interner_race_free {E : Env} dst_size c (Hd : 0 < dst_size ≤ 2 ^ 16) (Hreach : reachable dst_size c) :
  c_fault c = false ∧ Forall (read_ok dst_size) (c_read c) ∧
  (∀ k e, c_tab c !! k = Some e →
    refcount e = Z.of_nat (count (Z.eqb (object e)) (refs_of (c_refs c))) ∧ 1 ≤ refcount e) ∧
  (∀ r x, c_refs c !! r = Some x → text_at (c_heap c) (r_ptr x) = r_text x) ∧
  ((∀ p, c_pc c p = PIdle) → ∀ d b, c_heap c !! d = Some b → ∃ r x, c_refs c !! r = Some x ∧ r_ptr x = d).
Proof.
  destruct (reachable_ok dst_size c Hd Hreach) as [h Hok]. pose proof Hok as [[H1 _ _ _] _ _ _ _ Hread Hf].
  split_and!; [done|done|intros k e; by apply (entry_refcount _ _ _ H1)|..].
  - intros r x Hr. by eapply reference_text.
  - intros Hidle d b Hb. by eapply idle_block.
Qed.

(** *** An execution *)

(** Two processes intern the same text at the same time: both miss, both allocate, the
    second finds the entry of the first and is about to free its own object. *)
Definition race_trace : list Action :=
  let call p := AAcquire p 1 42 (bytes_of_string "SELECT 1") 8 in
  [call 0%nat; call 1%nat; AStep 0; AStep 0; AStep 0; AStep 1; AStep 1; AStep 1;
   AAllocate 0 (AllocOk 16); AAllocate 1 (AllocOk 32);
   AStep 0; AStep 0; AStep 0; AStep 1; AStep 1; AStep 1].
Definition race_conf : Conf := default start (exec_all (E := demo1) 2048 race_trace start).

Lemma race_reachable : reachable (E := demo1) 2048 race_conf.
Proof.
  assert (is_Some (exec_all (E := demo1) 2048 race_trace start)) as [c Hc] by (vm_compute; eauto).
  unfold race_conf. rewrite Hc. apply (intern_run_reachable 2048 race_trace); [exact Hc|]. by vm_compute.
Qed.

Lemma interner_race_free_witness :
  c_pc race_conf 1 = PBackOut (Some 1%nat) 32 ∧ size (c_heap race_conf) = 2%nat ∧ size (c_refs race_conf) = 2%nat ∧
  c_fault race_conf = false ∧ ∀ k e, c_tab race_conf !! k = Some e → 1 ≤ refcount e.
Proof.
  split_and!; try by vm_compute.
  intros k e Hk. destruct (interner_race_free (E := demo1) 2048 race_conf ltac:(lia) race_reachable) as (_ & _ & Hc & _).
  by apply (Hc k e).
Defined.

End InternConcThms.
