(* ===== verification/InternLive.v ===== *)
(** Progress of the concurrent interner ([InternConc.v]): every call can be completed. *)

From stdpp Require Import relations.
From S2P Require Import Prelude Event Shared Dsa Intern InternInv QueueThms InternConc InternConcThms.
Import Event Shared Dsa Intern InternInv QueueThms InternConc InternConcThms.

Module InternLive.

Section live.
Context {E : Env} (dst_size : Z).
#[local] Abbreviation exec_all := (exec_all dst_size).
#[local] Abbreviation conc_ok := (conc_ok dst_size).

(** ** Progress *)

(** The last step of a critical section unlocks. *)
Definition leaving (pc : PC) : bool :=
  match pc with PFound _ _ | PMissed _ | PEntered _ _ _ | RUnlock _ _ => true | _ => false end.

(** The steps a process has left in its call, and those of others it waits for. *)
Definition budget (pc : PC) : nat :=
  match pc with
  | PIdle => 0 | PLookup _ => 12 | PFind _ => 9 | PMissed _ => 8 | PFound _ _ => 1 | PAlloc _ => 7
  | PRelock _ _ => 6 | PEnter _ _ => 3 | PEntered _ _ _ => 2 | PBackOut _ _ => 1
  | RResolve _ => 8 | RKey _ => 7 | RLock _ _ => 6 | RFind _ _ => 3 | RUnlock _ _ => 2 | RFree _ => 1
  end.

(** The key whose partition it waits for. *)
Definition waits (pc : PC) : option PschQueryInternKey :=
  match pc with PLookup q | PRelock q _ => Some (q_key q) | RLock _ key => Some key | _ => None end.

(** The allocator's answer, when the process has asked. *)
Definition next_action (p : nat) (c : Conf) : Action :=
  match c_pc c p with
  | PAlloc q => AAllocate p (dsa_pick (c_heap c) (intern_header_size + q_len q + 1))
  | _ => AStep p
  end.

Lemma share_frame p q e c result c' :
  share p q e c = (result, c') → c_locks c' = c_locks c ∧ c_pc c' = c_pc c.
Proof. unfold share. destruct (ObjectMatches _ _ _ _); by intros [= <- <-]. Qed.

(** In a critical section: its work is one step, after which it leaves. *)
Lemma locked_step c h p key :
  conc_ok c h → locked (c_pc c p) = Some key → leaving (c_pc c p) = false →
  ∃ c', exec dst_size (AStep p) c = Some c' ∧ leaving (c_pc c' p) = true ∧ locked (c_pc c' p) = Some key ∧
    c_locks c' = c_locks c ∧ (budget (c_pc c' p) < budget (c_pc c p))%nat ∧ ∀ q, q ≠ p → c_pc c' q = c_pc c q.
Proof.
  intros Hok Hl Hv. simpl. unfold proc_step.
  destruct (c_pc c p) as [|q|q|q result|q|q|q d|q d|q result d|result d|r|r|r key'|r key'|key' d|d] eqn:Hpc; try done;
    injection Hl as <-.
  - eexists. split; [done|]. unfold find_step. destruct (c_tab c !! q_key q) as [e|].
    + destruct (share p q e c) as [result c1] eqn:Hs. destruct (share_frame _ _ _ _ _ _ Hs) as [E1 E2].
      simpl. rewrite E1, E2, upd_same. split_and!; try done; [simpl; lia|]. intros. by apply upd_other.
    + simpl. rewrite upd_same. split_and!; try done; [simpl; lia|]. intros. by apply upd_other.
  - eexists. split; [done|]. unfold enter_step. destruct (c_tab c !! q_key q) as [e|].
    + destruct (share p q e c) as [result c1] eqn:Hs. destruct (share_frame _ _ _ _ _ _ Hs) as [E1 E2].
      simpl. rewrite E1, E2, upd_same. split_and!; try done; [simpl; lia|]. intros. by apply upd_other.
    + destruct (hash_has_room _ _); simpl; rewrite upd_same; split_and!; try done; try (simpl; lia); intros; by apply upd_other.
  - destruct (uo_user _ _ _ (co_users _ _ _ Hok) p r) as (x & Hr & _); [by rewrite Hpc|].
    unfold release_step. rewrite Hr. eexists. split; [done|]. simpl.
    destruct (c_tab c !! key') as [e|]; [destruct (_ =? _); [destruct (_ =? 0)|]|]; simpl; rewrite upd_same;
      split_and!; try done; try (simpl; lia); intros; by apply upd_other.
Qed.

Lemma give_frame result c : c_locks (give result c) = c_locks c ∧ c_pc (give result c) = c_pc c.
Proof. by destruct result. Qed.

Lemma leaving_step c p key :
  locked (c_pc c p) = Some key → leaving (c_pc c p) = true →
  ∃ c', exec dst_size (AStep p) c = Some c' ∧ locked (c_pc c' p) = None ∧ c_locks c' = delete (partition key) (c_locks c) ∧
    (budget (c_pc c' p) < budget (c_pc c p))%nat ∧ ∀ q, q ≠ p → c_pc c' q = c_pc c q.
Proof.
  intros Hl Hv. simpl. unfold proc_step.
  destruct (c_pc c p) as [|q|q|q result|q|q|q d|q d|q result [d|]|result d|r|r|r key'|r key'|key' [d|]|d] eqn:Hpc; try done;
    injection Hl as <-; eexists; (split; [done|]); simpl;
    rewrite ?(proj1 (give_frame _ _)), ?(proj2 (give_frame _ _)); simpl; rewrite upd_same;
    split_and!; try done; try (simpl; lia); intros; by apply upd_other.
Qed.

(** The holder of a lock gives it back within two steps of its own. *)
Lemma holder_leaves c h p key :
  conc_ok c h → locked (c_pc c p) = Some key →
  ∃ n c', (n ≤ 2)%nat ∧ exec_all (replicate n (AStep p)) c = Some c' ∧ locked (c_pc c' p) = None ∧
    c_locks c' = delete (partition key) (c_locks c) ∧ ∀ q, q ≠ p → c_pc c' q = c_pc c q.
Proof.
  intros Hok Hl. destruct (leaving (c_pc c p)) eqn:Hv.
  - destruct (leaving_step c p key Hl Hv) as (c' & Hs & ? & ? & _ & ?). exists 1%nat, c'. split; [lia|].
    change (exec_all (replicate 1 (AStep p)) c) with (exec dst_size (AStep p) c ≫= λ c, Some c). by rewrite Hs.
  - destruct (locked_step c h p key Hok Hl Hv) as (c1 & Hs1 & Hv1 & Hl1 & E1 & _ & F1).
    destruct (leaving_step c1 p key Hl1 Hv1) as (c' & Hs & ? & E2 & _ & F2). exists 2%nat, c'. split; [lia|].
    change (exec_all (replicate 2 (AStep p)) c)
      with (exec dst_size (AStep p) c ≫= λ c, exec dst_size (AStep p) c ≫= λ c, Some c).
    rewrite Hs1. cbn [mbind option_bind]. rewrite Hs. split_and!; try done; [congruence|].
    intros q Hq. rewrite F2, F1 by done. done.
Qed.

(** A process that is not kept waiting has a step to take. *)
Lemma caller_step {L : EnvLaws E} c h p :
  conc_ok c h → c_pc c p ≠ PIdle → (∀ key, waits (c_pc c p) = Some key → c_locks c !! partition key = None) →
  ∃ c', exec dst_size (next_action p c) c = Some c' ∧
    (budget (c_pc c' p) + (if waits (c_pc c p) then 3 else 1) ≤ budget (c_pc c p))%nat ∧
    ∀ q, q ≠ p → c_pc c' q = c_pc c q.
Proof.
  intros Hok Hp Hw.
  destruct (locked (c_pc c p)) as [key|] eqn:Hl.
  { assert (next_action p c = AStep p ∧ waits (c_pc c p) = None) as [-> ->].
    { unfold next_action. by destruct (c_pc c p). }
    destruct (leaving (c_pc c p)) eqn:Hv.
    - destruct (leaving_step c p key Hl Hv) as (c' & ? & _ & _ & ? & ?). exists c'. split_and!; try done. lia.
    - destruct (locked_step c h p key Hok Hl Hv) as (c' & ? & _ & _ & _ & ? & ?). exists c'. split_and!; try done. lia. }
  assert (∀ key x, waits (c_pc c p) = Some key → (budget x + 3 ≤ budget (c_pc c p))%nat →
    ∃ c', lock_for p key x c = Some c' ∧ (budget (c_pc c' p) + 3 ≤ budget (c_pc c p))%nat ∧ ∀ q, q ≠ p → c_pc c' q = c_pc c q) as Hlock.
  { intros key x Hk Hb. unfold lock_for. rewrite (Hw _ Hk). eexists. split; [done|]. simpl. rewrite upd_same.
    split; [done|]. intros. by apply upd_other. }
  unfold next_action. pose proof (co_users _ _ _ Hok) as Hu.
  destruct (c_pc c p) as [|q|q|q result|q|q|q d|q d|q result d|result d|r|r|r key|r key|key d|d] eqn:Hpc; try done; simpl;
    unfold proc_step, alloc_step; rewrite Hpc.
  - destruct (Hlock (q_key q) (PFind q)) as (c' & ? & Hb & ?); [done|simpl; lia|]. simpl in Hb. eauto.
  - destruct (dsa_pick _ _) as [d| |] eqn:Hd.
    + destruct (dsa_pick_fresh _ _ _ Hd) as [Hv Hf]. rewrite Hf, (proj2 (DsaPointerIsValid_spec d)) by done.
      eexists. split; [done|]. simpl. rewrite upd_same. split; [simpl; lia|]. intros. by apply upd_other.
    + eexists. split; [done|]. simpl. rewrite upd_same. split; [simpl; lia|]. intros. by apply upd_other.
    + eexists. split; [done|]. simpl. rewrite upd_same. split; [simpl; lia|]. intros. by apply upd_other.
  - destruct (Hlock (q_key q) (PEnter q d)) as (c' & ? & Hb & ?); [done|simpl; lia|]. simpl in Hb. eauto.
  - eexists. split; [done|]. simpl. rewrite (proj2 (give_frame _ _)). simpl. rewrite upd_same.
    split; [simpl; lia|]. intros. by apply upd_other.
  - destruct (uo_user _ _ _ Hu p r) as (x & Hr & _); [by rewrite Hpc|]. unfold resolve_step. rewrite Hr.
    eexists. split; [done|]. simpl. rewrite upd_same. split; [simpl; lia|]. intros. by apply upd_other.
  - destruct (uo_user _ _ _ Hu p r) as (x & Hr & _); [by rewrite Hpc|]. unfold key_step. rewrite Hr.
    eexists. split; [done|]. simpl. rewrite upd_same.
    split; [destruct (object_at _ _); [destruct (negb _)|]; simpl; lia|]. intros. by apply upd_other.
  - destruct (Hlock key (RFind r key)) as (c' & ? & Hb & ?); [done|simpl; lia|]. simpl in Hb. eauto.
  - eexists. split; [done|]. simpl. rewrite upd_same. split; [simpl; lia|]. intros. by apply upd_other.
Qed.

(** *** Completing a call *)

Definition actor (a : Action) : nat :=
  match a with AAcquire p _ _ _ _ | ARelease p _ | AStep p | AAllocate p _ => p end.
Definition is_call (a : Action) : bool :=
  match a with AAcquire _ _ _ _ _ | ARelease _ _ => true | _ => false end.

(** A step of [p], or of a process that holds a partition lock in [c]. *)
Definition helps (c : Conf) (p : nat) (a : Action) : Prop :=
  is_call a = false ∧ (actor a = p ∨ is_Some (locked (c_pc c (actor a)))).

Lemma next_helps c0 c p : helps c0 p (next_action p c).
Proof. unfold next_action. split; [|left]; by destruct (c_pc c p). Qed.

Lemma progress {L : EnvLaws E} c h p (Hd : 0 < dst_size ≤ 2 ^ 16) :
  conc_ok c h → c_pc c p ≠ PIdle → Z.of_nat (size (c_refs c)) + 4 < 2 ^ 32 →
  ∃ acts c', Forall (helps c p) acts ∧ exec_all acts c = Some c' ∧
    (budget (c_pc c' p) + length acts ≤ budget (c_pc c p))%nat ∧ (1 ≤ length acts)%nat ∧
    ∀ q, q ≠ p → c_pc c' q = c_pc c q ∨ locked (c_pc c' q) = None.
Proof.
  intros Hok Hp Hs.
  assert (∀ c1 h1 n, conc_ok c1 h1 → c_pc c1 p = c_pc c p → (∀ key, waits (c_pc c p) = Some key → c_locks c1 !! partition key = None) →
    (n + 1 ≤ if waits (c_pc c p) then 3 else 1)%nat →
    ∃ c', exec dst_size (next_action p c1) c1 = Some c' ∧ (budget (c_pc c' p) + (n + 1) ≤ budget (c_pc c p))%nat ∧
      ∀ q, q ≠ p → c_pc c' q = c_pc c1 q) as Hown.
  { intros c1 h1 n Hok1 Hpc Hfree Hn. destruct (caller_step c1 h1 p Hok1) as (c' & Hx & Hb & Hf); rewrite Hpc in *; [done..|].
    exists c'. split_and!; try done. destruct (waits (c_pc c p)); lia. }
  destruct (waits (c_pc c p)) as [key|] eqn:Hw.
  - destruct (c_locks c !! partition key) as [q|] eqn:Hq.
    + pose proof (proj2 (co_locks _ _ _ Hok q (partition key)) Hq) as Hl.
      destruct (locked (c_pc c q)) as [key'|] eqn:Hlq; [|done]. simpl in Hl. injection Hl as Hpart.
      destruct (holder_leaves c h q key' Hok Hlq) as (n & c1 & Hn & Hrun & Hnone & Hlocks & Hf).
      assert (q ≠ p) as Hqp by (intros ->; destruct (c_pc c p); done).
      destruct (exec_all_ok dst_size _ c c1 h Hd Hrun Hok) as [h1 Hok1]; [rewrite length_replicate; lia|].
      destruct (Hown c1 h1 n Hok1) as (c' & Hx & Hb & Hf'); [by apply Hf| |lia|].
      { intros k [= <-]. rewrite Hlocks, Hpart. apply lookup_delete_eq. }
      exists (replicate n (AStep q) ++ [next_action p c1]), c'. split_and!.
      * apply Forall_app. split; [apply Forall_replicate|apply Forall_singleton, next_helps].
        split; [done|]. right. simpl. by rewrite Hlq.
      * rewrite intern_run_app, Hrun. simpl. by rewrite Hx.
      * rewrite length_app, length_replicate. simpl. lia.
      * rewrite length_app. simpl. lia.
      * intros r Hr. destruct (decide (r = q)) as [->|]; [right; by rewrite Hf'|left; by rewrite Hf', Hf].
    + destruct (Hown c h 0%nat Hok) as (c' & Hx & Hb & Hf); [done| |lia|].
      { by intros k [= <-]. }
      exists [next_action p c], c'. split_and!; try done; [apply Forall_singleton, next_helps|simpl; by rewrite Hx|].
      intros r Hr. left. by apply Hf.
  - destruct (Hown c h 0%nat Hok) as (c' & Hx & Hb & Hf); [done|done|lia|].
    exists [next_action p c], c'. split_and!; try done; [apply Forall_singleton, next_helps|simpl; by rewrite Hx|].
    intros q Hq. left. by apply Hf.
Qed.

Lemma completes {L : EnvLaws E} n c h p (Hd : 0 < dst_size ≤ 2 ^ 16) :
  conc_ok c h → (budget (c_pc c p) ≤ n)%nat → Z.of_nat (size (c_refs c) + n) + 4 < 2 ^ 32 →
  ∃ acts c', (length acts ≤ n)%nat ∧ Forall (helps c p) acts ∧ exec_all acts c = Some c' ∧ c_pc c' p = PIdle.
Proof.
  revert c h. induction n as [n IH] using lt_wf_ind. intros c h Hok Hn Hs.
  destruct (decide (budget (c_pc c p) = 0%nat)) as [H0|H0].
  { exists [], c. split_and!; try done; [simpl; lia|]. by destruct (c_pc c p). }
  destruct (progress c h p Hd Hok) as (acts & c1 & Hh & Hrun & Hb & Hlen & Hf).
  { intros Hp. by rewrite Hp in H0. } { lia. }
  destruct (exec_all_ok dst_size _ c c1 h Hd Hrun Hok) as [h1 Hok1]; [lia|].
  pose proof (exec_all_size _ _ _ _ Hrun) as Hsz.
  destruct (IH (n - length acts)%nat ltac:(lia) c1 h1 Hok1) as (acts' & c' & Hlen' & Hh' & Hrun' & Hp'); [lia|lia|].
  exists (acts ++ acts'), c'. rewrite length_app, intern_run_app, Hrun. split_and!; try done; [lia|].
  apply Forall_app. split; [done|]. eapply Forall_impl; [exact Hh'|]. intros a [Hc Ha]. split; [done|].
  destruct Ha as [Ha|Ha]; [by left|]. destruct (decide (actor a = p)) as [|Hne]; [by left|]. right.
  destruct (Hf _ Hne) as [E1|E1]; [by rewrite <- E1|]. rewrite E1 in Ha. by destruct Ha.
Qed.

End live.

(** ** Theorems *)

(** C21: Every call of the interner can be completed. From every reachable state, and
    whatever the allocator answers, at most twelve steps of the caller and of processes
    that hold a partition lock, with no new call, bring the caller to the end of its
    call: the partition locks cannot deadlock, and nobody waits for a process that is
    outside a critical section. *)
Theorem interner_call_completes {E : Env} {L : EnvLaws E} dst_size c p (Hd : 0 < dst_size ≤ 2 ^ 16)
  (Hreach : reachable dst_size c) (Hroom : Z.of_nat (size (c_refs c)) + 16 < 2 ^ 32) :
  ∃ acts c', (length acts ≤ 12)%nat ∧ Forall (helps c p) acts ∧ exec_all dst_size acts c = Some c' ∧ c_pc c' p = PIdle.
Proof.
  destruct (reachable_ok dst_size c Hd Hreach) as [h Hok]. apply (completes dst_size 12 c h p Hd Hok); [|lia].
  destruct (c_pc c p); simpl; lia.
Qed.

(** *** Executions *)

(** Process 0 is in its critical section and process 1 waits for the same lock. *)
Definition wait_trace : list Action :=
  let call p := AAcquire p 1 42 (bytes_of_string "SELECT 1") 8 in [call 0%nat; call 1%nat; AStep 0].
Definition wait_conf : Conf := default start (InternConc.exec_all (E := demo1) 2048 wait_trace start).

Lemma wait_reachable : reachable (E := demo1) 2048 wait_conf.
Proof.
  assert (is_Some (InternConc.exec_all (E := demo1) 2048 wait_trace start)) as [c Hc] by (vm_compute; eauto).
  unfold wait_conf. rewrite Hc. apply (intern_run_reachable 2048 wait_trace); [exact Hc|]. by vm_compute.
Qed.

Lemma interner_call_completes_witness :
  proc_step (E := demo1) 2048 1 wait_conf = None ∧
  ∃ acts c', (length acts ≤ 12)%nat ∧ Forall (helps wait_conf 1) acts ∧
    InternConc.exec_all (E := demo1) 2048 acts wait_conf = Some c' ∧ c_pc c' 1 = PIdle.
Proof.
  split; [by vm_compute|].
  apply (interner_call_completes (E := demo1) 2048 wait_conf 1); [lia|exact wait_reachable|by vm_compute].
Defined.

End InternLive.
