(* ===== verification/InternMoves.v ===== *)
(** What single steps of the concurrent interner ([InternConc.v]) do to the references, for
    the machines that have the interner as a part. *)

From S2P Require Import Prelude Event Shared Dsa Intern InternInv InternConc InternConcThms.
Import Event Shared Intern InternInv InternConc InternConcThms.

Module InternMoves.

(** ** What a step of the interner does to the references *)

Section interner.
Context {E : Env}.
#[local] Abbreviation proc_step := (proc_step PSCH_MAX_QUERY_LEN).
#[local] Abbreviation conc_ok := (conc_ok PSCH_MAX_QUERY_LEN).

(** A step of process [p] that is not an allocation leaves the others' program counters
    and references alone. *)
Record moved (p : nat) (c c' : Conf) : Prop := {
  mv_other q : q ≠ p → c_pc c' q = c_pc c q;
  mv_keep r x : c_refs c !! r = Some x → r_user x ≠ Some p → c_refs c' !! r = Some x;
  mv_old r : is_Some (c_refs c' !! r) → is_Some (c_refs c !! r) ∨ uses (c_pc c' p) = Some r;
  mv_lost r : uses (c_pc c p) = Some r →
    uses (c_pc c' p) = Some r ∨ (c_pc c' p = PIdle ∧ returned (c_pc c p) = Some r) ∨ c_refs c' !! r = None;
  mv_heap d : is_Some (c_heap c' !! d) → is_Some (c_heap c !! d) }.

Lemma moved_pc p pc c1 c :
  c_pc c1 = c_pc c → c_refs c1 = c_refs c → (∀ d, is_Some (c_heap c1 !! d) → is_Some (c_heap c !! d)) →
  uses pc = uses (c_pc c p) → moved p c (set_pc p pc c1).
Proof.
  intros Hp Hr Hh Hu. constructor; simpl; rewrite ?Hp, ?Hr.
  - intros q Hq. by apply upd_other.
  - done.
  - auto.
  - intros r Hur. left. by rewrite upd_same, Hu.
  - done.
Qed.

Lemma moved_give p result c1 c :
  c_pc c1 = c_pc c → c_refs c1 = c_refs c → (∀ d, is_Some (c_heap c1 !! d) → is_Some (c_heap c !! d)) →
  uses (c_pc c p) = result → returned (c_pc c p) = result →
  (∀ r, result = Some r → ∃ x, c_refs c !! r = Some x ∧ r_user x = Some p) →
  moved p c (set_pc p PIdle (give result c1)).
Proof.
  intros Hp Hr Hh Hu Hret Hx.
  assert (∀ d, is_Some (c_heap (give result c1) !! d) → is_Some (c_heap c !! d)) as Hh' by by destruct result.
  assert (c_pc (give result c1) = c_pc c) as Hp' by by destruct result.
  constructor; simpl; rewrite ?Hp'; [intros q Hq; by apply upd_other|..|done].
  - intros r x Hrx Hux. destruct result as [r'|]; simpl; rewrite Hr; [|done].
    rewrite lookup_alter_ne; [done|]. intros ->. destruct (Hx r eq_refl) as (y & ? & ?). congruence.
  - intros r. destruct result as [r'|]; simpl; rewrite Hr; [|by left].
    rewrite lookup_alter. case_decide; [|by left]. subst. intros [x Hrx]. left.
    destruct (Hx r eq_refl) as (y & -> & _). done.
  - intros r Hur. right. left. rewrite upd_same. split; congruence.
Qed.

Lemma lock_for_moved p key pc c c' :
  lock_for p key pc c = Some c' → uses pc = uses (c_pc c p) → moved p c c'.
Proof.
  unfold lock_for. destruct (c_locks c !! _); [done|]. intros [= <-] Hu. by apply moved_pc.
Qed.

Lemma share_refs p q e c h result c1 :
  conc_ok c h → share p q e c = (result, c1) →
  c_pc c1 = c_pc c ∧ c_heap c1 = c_heap c ∧ c_read c1 = c_read c ∧
  match result with
  | Some r => c_refs c !! r = None ∧ ∃ x, c_refs c1 = <[r := x]> (c_refs c) ∧ r_user x = Some p ∧
      r_text x = take (Z.to_nat (q_len q)) (q_text q)
  | None => c_refs c1 = c_refs c
  end.
Proof.
  intros Hok. unfold share. destruct (ObjectMatches _ _ _ _); intros [= <- <-]; simpl; split_and!; try done.
  - destruct (c_refs c !! c_next c) as [x|] eqn:Hx; [|done].
    apply (to_next _ _ _ _ (co_table _ _ _ Hok)) in Hx. lia.
  - eexists. by split_and!.
Qed.

Lemma next_fresh c h : conc_ok c h → c_refs c !! c_next c = None.
Proof.
  intros Hok. destruct (c_refs c !! c_next c) as [x|] eqn:Hx; [|done].
  apply (to_next _ _ _ _ (co_table _ _ _ Hok)) in Hx. lia.
Qed.

Lemma moved_take p pc c c1 r x :
  c_pc c1 = c_pc c → c_heap c1 = c_heap c → c_refs c1 = <[r := x]> (c_refs c) → c_refs c !! r = None →
  uses (c_pc c p) = None → uses pc = Some r → moved p c (set_pc p pc c1).
Proof.
  intros Hp Hh Hr Hn Hu Hu'. constructor; simpl; rewrite ?Hp, ?Hr, ?Hh; [intros q Hq; by apply upd_other|..|done].
  - intros r' y Hy _. rewrite lookup_insert_ne; [done|]. congruence.
  - intros r'. rewrite lookup_insert. case_decide; [|by left]. subst. right. by rewrite upd_same.
  - intros r'. congruence.
Qed.

Lemma proc_step_moved p c c' h : conc_ok c h → proc_step p c = Some c' → moved p c c'.
Proof.
  intros Hok Hs. unfold InternConc.proc_step in Hs. pose proof (uo_user _ _ _ (co_users _ _ _ Hok) p) as Hus.
  destruct (c_pc c p) as [|q|q|q result|q|q|q d|q d|q result [d|]|result d|r|r|r key|r key|key [d|]|d] eqn:Hpc; try done.
  - eapply lock_for_moved; [done|]. by rewrite Hpc.
  - injection Hs as <-. unfold find_step. destruct (c_tab c !! q_key q) as [e|]; [|apply moved_pc; rewrite ?Hpc; done].
    destruct (share p q e c) as [result c1] eqn:Hsh.
    destruct (share_refs _ _ _ _ _ _ _ Hok Hsh) as (Hp & Hh & _ & Hr).
    destruct result as [r|]; [|apply moved_pc; rewrite ?Hpc, ?Hh; done].
    destruct Hr as (Hn & x & Hr & _). eapply moved_take; try done. by rewrite Hpc.
  - injection Hs as <-. apply moved_give; rewrite ?Hpc; done.
  - injection Hs as <-. apply moved_pc; rewrite ?Hpc; done.
  - eapply lock_for_moved; [done|]. by rewrite Hpc.
  - injection Hs as <-. unfold enter_step. destruct (c_tab c !! q_key q) as [e|].
    + destruct (share p q e c) as [result c1] eqn:Hsh.
      destruct (share_refs _ _ _ _ _ _ _ Hok Hsh) as (Hp & Hh & _ & Hr).
      destruct result as [r|]; [|apply moved_pc; rewrite ?Hpc, ?Hh; done].
      destruct Hr as (Hn & x & Hr & _). eapply moved_take; try done. by rewrite Hpc.
    + destruct (hash_has_room _ _); [|apply moved_pc; rewrite ?Hpc; done].
      pose proof (next_fresh _ _ Hok). eapply moved_take; try done. by rewrite Hpc.
  - injection Hs as <-. apply moved_pc; rewrite ?Hpc; done.
  - injection Hs as <-. apply moved_give; rewrite ?Hpc; done.
  - injection Hs as <-. apply moved_give; rewrite ?Hpc; try done.
    intros d'. simpl. intros [b [_ Hb]%lookup_delete_Some]. by exists b.
  - unfold resolve_step in Hs. destruct (c_refs c !! r) as [x|]; [|done]. injection Hs as <-. apply moved_pc; rewrite ?Hpc; done.
  - unfold key_step in Hs. destruct (c_refs c !! r) as [x|] eqn:Hr; [|done]. injection Hs as <-.
    destruct (reference_object _ _ _ _ _ Hok Hr) as (k & e & o & _ & _ & _ & Hobj & (_ & Hm & _) & _).
    rewrite Hobj, Hm, Z.eqb_refl. simpl. apply moved_pc; rewrite ?Hpc; done.
  - eapply lock_for_moved; [done|]. by rewrite Hpc.
  - unfold release_step in Hs. destruct (c_refs c !! r) as [x|] eqn:Hr; [|done]. injection Hs as <-.
    destruct (Hus r eq_refl) as (x' & Hx' & Hu). simplify_eq.
    assert (∀ c1 pc, c_pc c1 = c_pc c → c_heap c1 = c_heap c → c_refs c1 = delete r (c_refs c) → uses pc = None →
      moved p c (set_pc p pc c1)) as Hdrop.
    { intros c1 pc Hp Hh Hd Hpc'. constructor; simpl; rewrite ?Hp, ?Hd, ?Hh; [intros q Hq; by apply upd_other|..|done].
      - intros r' y Hy Huy. rewrite lookup_delete_ne; [done|]. congruence.
      - intros r' [y [_ Hy]%lookup_delete_Some]. left. by exists y.
      - intros r' Hr'. right. right. rewrite Hpc in Hr'. injection Hr' as <-. apply lookup_delete_eq. }
    simpl. destruct (c_tab c !! key) as [e|]; [|by apply Hdrop]. destruct (_ =? _); [|by apply Hdrop].
    destruct (_ =? 0); by apply Hdrop.
  - injection Hs as <-. apply moved_pc; rewrite ?Hpc; done.
  - injection Hs as <-. apply moved_pc; rewrite ?Hpc; done.
  - injection Hs as <-. apply moved_pc; rewrite ?Hpc; try done.
    intros d'. simpl. intros [b [_ Hb]%lookup_delete_Some]. by exists b.
Qed.

(** *** A call of [PschQueryInternAcquire] *)

Definition call_query (pc : PC) : option Query :=
  match pc with
  | PLookup q | PFind q | PFound q _ | PMissed q | PAlloc q | PRelock q _ | PEnter q _ | PEntered q _ _ => Some q
  | _ => None
  end.
Definition in_acquire (pc : PC) : bool := match pc with PBackOut _ _ => true | _ => bool_decide (is_Some (call_query pc)) end.

Definition text_of (q : Query) : bytes := take (Z.to_nat (q_len q)) (q_text q).

(** Process [p] is interning [q]. *)
Record acquiring (q : Query) (c : Conf) (p : nat) : Prop := {
  aq_in : in_acquire (c_pc c p) = true;
  aq_query q' : call_query (c_pc c p) = Some q' → q' = q;
  aq_ref r : uses (c_pc c p) = Some r →
    ∃ x, c_refs c !! r = Some x ∧ r_user x = Some p ∧ r_text x = text_of q }.

Lemma acquiring_pc q c p pc c1 :
  acquiring q c p → in_acquire pc = true → c_refs c1 = c_refs c → c_pc c1 = c_pc c →
  (∀ q', call_query pc = Some q' → call_query (c_pc c p) = Some q') → uses pc = uses (c_pc c p) →
  acquiring q (set_pc p pc c1) p.
Proof.
  intros [H1 H2 H3] Hin Hr Hp Hq Hu. constructor; simpl; rewrite ?upd_same, ?Hr, ?Hu; auto.
Qed.

Lemma acquiring_take q c p pc c1 r x :
  acquiring q c p → in_acquire pc = true → c_pc c1 = c_pc c → c_refs c1 = <[r := x]> (c_refs c) →
  call_query pc = call_query (c_pc c p) → uses pc = Some r → r_user x = Some p → r_text x = text_of q →
  acquiring q (set_pc p pc c1) p.
Proof.
  intros [H1 H2 H3] Hin Hp Hr Hq Hu Hx Ht. constructor; simpl; rewrite ?upd_same, ?Hr, ?Hu, ?Hq; auto.
  intros r' [= <-]. exists x. by rewrite lookup_insert_eq.
Qed.

(** What a call returns: a reference to the text, that nobody works with any more. *)
Definition result_ok (q : Query) (c : Conf) (result : option nat) : Prop :=
  match result with
  | Some r => ∃ x, c_refs c !! r = Some x ∧ r_user x = None ∧ r_text x = text_of q
  | None => True
  end.

Lemma result_give q c p c1 :
  acquiring q c p → c_refs c1 = c_refs c → result_ok q (set_pc p PIdle (give (uses (c_pc c p)) c1)) (uses (c_pc c p)).
Proof.
  intros [_ _ H3] Hr. destruct (uses (c_pc c p)) as [r|]; [|done]. destruct (H3 r eq_refl) as (x & Hx & _ & Ht).
  simpl. rewrite Hr. exists (x <| r_user := None |>). by rewrite lookup_alter_eq, Hx.
Qed.

Lemma acquiring_step q c c' p h :
  conc_ok c h → acquiring q c p → proc_step p c = Some c' →
  acquiring q c' p ∨ (c_pc c' p = PIdle ∧ result_ok q c' (returned (c_pc c p))).
Proof.
  intros Hok Hac Hs. unfold InternConc.proc_step in Hs. pose proof (aq_in _ _ _ Hac) as Hin.
  pose proof (aq_query _ _ _ Hac) as Hq. pose proof (result_give q c p) as Hgive.
  assert (∀ c1 pc, in_acquire pc = true → c_refs c1 = c_refs c → c_pc c1 = c_pc c →
    (∀ q', call_query pc = Some q' → call_query (c_pc c p) = Some q') → uses pc = uses (c_pc c p) →
    acquiring q (set_pc p pc c1) p) as Hset by (intros; by eapply acquiring_pc).
  assert (∀ key pc, lock_for p key pc c = Some c' → in_acquire pc = true → uses pc = uses (c_pc c p) →
    call_query pc = call_query (c_pc c p) → acquiring q c' p) as Hlock.
  { intros key pc. unfold lock_for. destruct (c_locks c !! _); [done|]. intros [= <-] ??. intros Hqq.
    apply Hset; try done. intros q'. by rewrite Hqq. }
  assert (∀ q' e result c1 pc, q' = q → share p q' e c = (result, c1) → uses pc = result → in_acquire pc = true →
    call_query pc = call_query (c_pc c p) → uses (c_pc c p) = None → acquiring q (set_pc p pc c1) p) as Hshare.
  { intros q' e result c1 pc -> Hsh Hu Hi Hqq Hn. destruct (share_refs _ _ _ _ _ _ _ Hok Hsh) as (Hp & _ & _ & Hr).
    destruct result as [r|]; [|apply Hset; try done; [by rewrite Hqq|by rewrite Hu]].
    destruct Hr as (_ & x & Hr & Hx & Ht). by eapply acquiring_take. }
  destruct (c_pc c p) as [|q'|q'|q' result|q'|q'|q' d|q' d|q' result [d|]|result d|r|r|r key|r key|key [d|]|d] eqn:Hpc;
    try done; simpl in *; try (rewrite (Hq q' eq_refl) in *).
  - left. by eapply Hlock.
  - injection Hs as <-. left. unfold find_step. destruct (c_tab c !! q_key q) as [e|]; [|by apply Hset].
    destruct (share p q e c) as [result c1] eqn:Hsh. by eapply Hshare.
  - injection Hs as <-. right. split; [apply upd_same|]. by apply Hgive.
  - injection Hs as <-. left. by apply Hset.
  - left. by eapply Hlock.
  - injection Hs as <-. left. unfold enter_step. destruct (c_tab c !! q_key q) as [e|].
    + destruct (share p q e c) as [result c1] eqn:Hsh. by eapply Hshare.
    + destruct (hash_has_room _ _); [|by apply Hset]. eapply acquiring_take; try done. by rewrite Hpc.
  - injection Hs as <-. left. by apply Hset.
  - injection Hs as <-. right. split; [apply upd_same|]. by apply Hgive.
  - injection Hs as <-. right. split; [apply upd_same|]. by apply Hgive.
Qed.

Lemma alloc_moves p outcome c c' :
  alloc_step p outcome c = Some c' →
  ∃ q, c_pc c p = PAlloc q ∧ c_refs c' = c_refs c ∧ (∀ p', p' ≠ p → c_pc c' p' = c_pc c p') ∧
    match outcome with
    | AllocOk d => c_heap c' = <[d := new_object q]> (c_heap c) ∧ c_pc c' p = PRelock q d ∧ d ≠ InvalidDsaPointer
    | _ => c_heap c' = c_heap c ∧ c_pc c' p = PIdle
    end.
Proof.
  unfold alloc_step. destruct (c_pc c p) as [| | | | |q| | | | | | | | | |] eqn:Hpc; try done. intros Hs. exists q.
  destruct outcome as [d| |].
  - destruct (c_heap c !! d); [done|]. destruct (DsaPointerIsValid d) eqn:Hv; [|done]. injection Hs as <-.
    split_and!; simpl; try done; [intros; by apply upd_other|apply upd_same|by apply DsaPointerIsValid_spec].
  - injection Hs as <-. split_and!; simpl; try done; [intros; by apply upd_other|apply upd_same].
  - injection Hs as <-. split_and!; simpl; try done; [intros; by apply upd_other|apply upd_same].
Qed.

Lemma acquire_call_moves p dbid queryid query len c c' :
  acquire_call p dbid queryid query len c = Some c' →
  c_pc c p = PIdle ∧ c_refs c' = c_refs c ∧ c_heap c' = c_heap c ∧ (∀ p', p' ≠ p → c_pc c' p' = c_pc c p') ∧
  uses (c_pc c' p) = None ∧
  acquiring {| q_key := MakeKey dbid queryid query len; q_text := query; q_len := len |} c' p.
Proof.
  unfold acquire_call. destruct (c_pc c p); try done. destruct (_ && _); [|done]. intros [= <-].
  split_and!; try done; [intros; by apply upd_other|simpl; by rewrite upd_same|].
  constructor; simpl; rewrite upd_same; try done. by intros q' [= <-].
Qed.

Lemma release_call_moves p r c c' :
  release_call p r c = Some c' →
  c_pc c p = PIdle ∧ c_refs c' = alter (λ x, x <| r_user := Some p |>) r (c_refs c) ∧ c_heap c' = c_heap c ∧
  (∀ p', p' ≠ p → c_pc c' p' = c_pc c p') ∧ c_pc c' p = RResolve r.
Proof.
  unfold release_call. destruct (c_pc c p); try done. destruct (c_refs c !! r) as [[ptr text [u|]]|]; try done.
  intros [= <-]. split_and!; try done; [intros; by apply upd_other|apply upd_same].
Qed.

(** The reference an acquire has taken since [c0], by its number. *)
Definition takes (c0 c : Conf) (result : option nat) : Prop :=
  match result with
  | Some r => r = c_next c0 ∧ ∃ x, c_refs c = <[r := x]> (c_refs c0)
  | None => c_refs c = c_refs c0 ∧ c_next c = c_next c0
  end.

Lemma takes_set p pc c0 c1 c result : c_refs c1 = c_refs c → c_next c1 = c_next c → takes c0 c result → takes c0 (set_pc p pc c1) result.
Proof. intros Hr Hn. destruct result; simpl; by rewrite Hr, ?Hn. Qed.

Lemma takes_give p pc c0 c1 c result : c_refs c1 = c_refs c → c_next c1 = c_next c → takes c0 c result → takes c0 (set_pc p pc (give result c1)) result.
Proof.
  intros Hr Hn. destruct result as [r|]; simpl; rewrite Hr, ?Hn; [|done]. intros (-> & x & ->). split; [done|].
  rewrite alter_insert_eq. by eexists.
Qed.

Lemma takes_share p q e c0 c result c1 :
  takes c0 c None → share p q e c = (result, c1) → takes c0 c1 result.
Proof.
  intros [Hr Hn]. unfold share. destruct (ObjectMatches _ _ _ _); intros [= <- <-]; simpl; [|done].
  rewrite Hr, Hn. split; [done|]. by eexists.
Qed.

Lemma takes_step p c0 c c' :
  in_acquire (c_pc c p) = true → takes c0 c (uses (c_pc c p)) → proc_step p c = Some c' →
  (in_acquire (c_pc c' p) = true ∧ takes c0 c' (uses (c_pc c' p))) ∨ (c_pc c' p = PIdle ∧ takes c0 c' (returned (c_pc c p))).
Proof.
  intros Hin Ht Hs. unfold InternConc.proc_step in Hs.
  assert (∀ key pc, lock_for p key pc c = Some c' → in_acquire pc = true → takes c0 c (uses pc) →
    in_acquire (c_pc c' p) = true ∧ takes c0 c' (uses (c_pc c' p))) as Hlock.
  { intros key pc. unfold lock_for. destruct (c_locks c !! _); [done|]. intros [= <-] ??. simpl. rewrite upd_same.
    split; [done|]. by eapply takes_set. }
  destruct (c_pc c p) as [|q|q|q result|q|q|q d|q d|q result [d|]|result d|r|r|r key|r key|key [d|]|d] eqn:Hpc; try done; simpl in Ht.
  - left. by eapply Hlock.
  - injection Hs as <-. left. unfold find_step. destruct (c_tab c !! q_key q) as [e|].
    + destruct (share p q e c) as [result c1] eqn:Hsh. simpl. rewrite upd_same. split; [done|].
      eapply takes_set; [done..|]. by eapply takes_share.
    + simpl. rewrite upd_same. split; [done|]. by eapply takes_set.
  - injection Hs as <-. right. split; [apply upd_same|]. by eapply takes_give.
  - injection Hs as <-. left. simpl. rewrite upd_same. split; [done|]. by eapply takes_set.
  - left. by eapply Hlock.
  - injection Hs as <-. left. unfold enter_step. destruct (c_tab c !! q_key q) as [e|].
    + destruct (share p q e c) as [result c1] eqn:Hsh. simpl. rewrite upd_same. split; [done|].
      eapply takes_set; [done..|]. by eapply takes_share.
    + destruct Ht as [Hr Hn]. destruct (hash_has_room _ _); simpl; rewrite upd_same; (split; [done|]); simpl; rewrite ?Hr, ?Hn.
      * split; [done|]. by eexists.
      * done.
  - injection Hs as <-. left. simpl. rewrite upd_same. split; [done|]. by eapply takes_set.
  - injection Hs as <-. right. split; [apply upd_same|]. by eapply takes_give.
  - injection Hs as <-. right. split; [apply upd_same|]. by eapply takes_give.
Qed.

(** *** A call of [PschQueryInternResolveAndRelease] *)

(** Past the copy of the text. *)
Definition resolved (pc : PC) : bool :=
  match pc with RKey _ | RLock _ _ | RFind _ _ | RUnlock _ _ | RFree _ => true | _ => false end.

Lemma resolving_step p r c c' h :
  conc_ok c h → c_pc c p = RResolve r → proc_step p c = Some c' →
  resolved (c_pc c' p) = true ∧ ∃ x text, c_refs c !! r = Some x ∧ c_read c' = c_read c ++ [(r_text x, text)].
Proof.
  intros Hok Hpc Hs. unfold InternConc.proc_step in Hs. rewrite Hpc in Hs. unfold resolve_step in Hs.
  destruct (c_refs c !! r) as [x|]; [|done]. injection Hs as <-. simpl. rewrite upd_same. eauto.
Qed.

Lemma resolved_step p c c' h :
  conc_ok c h → resolved (c_pc c p) = true → proc_step p c = Some c' →
  resolved (c_pc c' p) = true ∨ c_pc c' p = PIdle.
Proof.
  intros Hok Hr Hs. unfold InternConc.proc_step in Hs.
  destruct (c_pc c p) as [| | | | | | | | | | |r|r key|r key|key [d|]|d]; try done.
  - unfold key_step in Hs. destruct (c_refs c !! r); [|done]. injection Hs as <-. simpl. rewrite upd_same.
    destruct (object_at _ _); [|by right]. destruct (negb _); [by right|by left].
  - unfold lock_for in Hs. destruct (c_locks c !! _); [done|]. injection Hs as <-. simpl. rewrite upd_same. by left.
  - unfold release_step in Hs. destruct (c_refs c !! r); [|done]. injection Hs as <-. simpl.
    destruct (c_tab c !! key); [|simpl; rewrite upd_same; by left].
    destruct (_ =? _); [destruct (_ =? 0)|]; simpl; rewrite upd_same; by left.
  - injection Hs as <-. simpl. rewrite upd_same. by left.
  - injection Hs as <-. simpl. rewrite upd_same. by right.
  - injection Hs as <-. simpl. rewrite upd_same. by right.
Qed.

End interner.

End InternMoves.
