(* ===== verification/InternSeq.v ===== *)
(** The concurrent interner ([InternConc.v]) and the sequential one ([Intern.v]): a call
    that is not interrupted does what the sequential function does. The area may hold
    strings beside the interner's objects. *)

From stdpp Require Import relations.
From S2P Require Import Prelude Event Shared Dsa Intern InternInv QueueThms InternConc InternConcThms InternLive.
Import Event Shared Dsa Intern InternInv QueueThms InternConc InternConcThms InternLive.

Module InternSeq.

Section alone.
Context {E : Env} (dst_size : Z).
#[local] Abbreviation exec_all := (exec_all dst_size).
#[local] Abbreviation conc_ok := (conc_ok dst_size).

(** ** Uninterrupted calls *)

(** The interleaved state and the state a process sees, whose area holds [strs] beside the
    interner's objects. *)
Record agrees (strs : gmap Z bytes) (c : Conf) (s : Sys) : Prop := {
  ag_heap : heap s = c_heap c ∪ (DsaString <$> strs);
  ag_apart dp : is_Some (strs !! dp) → c_heap c !! dp = None;
  ag_tab : htab s = Some (c_tab c);
  ag_area : area_available s;
  ag_oom : ∃ st, psch_shared_state s = Some st ∧ dsa_oom_count st = c_oom c }.

Lemma object_beside strs h dp : object_at (h ∪ (DsaString <$> strs)) dp = object_at h dp.
Proof. unfold object_at. rewrite lookup_union, lookup_fmap. by destruct (h !! dp) as [[]|], (strs !! dp). Qed.

Lemma matches_beside strs h dp text len :
  ObjectMatches (h ∪ (DsaString <$> strs)) dp text len = ObjectMatches h dp text len.
Proof. unfold ObjectMatches. by rewrite object_beside. Qed.

Lemma delete_beside (strs : gmap Z bytes) h dp :
  strs !! dp = None → delete dp (h ∪ (DsaString <$> strs)) = delete dp h ∪ (DsaString <$> strs).
Proof. intros Hdp. by rewrite delete_union, (delete_id (DsaString <$> strs)) by by rewrite lookup_fmap, Hdp. Qed.

Lemma free_beside (strs : gmap Z bytes) h dp :
  (h ∪ (DsaString <$> strs)) !! dp = None ↔ h !! dp = None ∧ strs !! dp = None.
Proof. rewrite lookup_union_None, lookup_fmap, fmap_None. done. Qed.

Lemma object_no_string strs c s dp : agrees strs c s → is_Some (c_heap c !! dp) → strs !! dp = None.
Proof.
  intros Hag [b Hb]. destruct (strs !! dp) eqn:Hs; [|done].
  rewrite (ag_apart _ _ _ Hag) in Hb by by rewrite Hs. done.
Qed.

(** [p] alone goes from [c] to [c'], where its program counter is [x], within one call. *)
Definition alone (p : nat) (x : PC) (acts : list Action) (c c' : Conf) : Prop :=
  Forall (λ a, actor a = p ∧ is_call a = false) acts ∧ exec_all acts c = Some c' ∧ c_locks c' = c_locks c ∧
  c_pc c' p = x ∧ ∀ q, q ≠ p → c_pc c' q = c_pc c q.

(** An allocation that raised an error. *)
Definition fails (a : Action) : bool := match a with AAllocate _ AllocError => true | _ => false end.

Lemma alone_trans p x y acts1 acts2 c c1 c2 :
  alone p x acts1 c c1 → alone p y acts2 c1 c2 → alone p y (acts1 ++ acts2) c c2.
Proof.
  intros (F1 & R1 & L1 & P1 & O1) (F2 & R2 & L2 & P2 & O2). split_and!; [by apply Forall_app|..|congruence|done|].
  - by rewrite intern_run_app, R1.
  - intros q Hq. by rewrite O2, O1.
Qed.

Lemma exec_all_cons a l c c1 c2 :
  exec dst_size a c = Some c1 → exec_all l c1 = Some c2 → exec_all (a :: l) c = Some c2.
Proof. simpl. by intros ->. Qed.

(** One step of [p] at the program counter it has just got; [tac] works out what the
    step does. *)
Ltac one_step tac := eapply exec_all_cons;
  [simpl; unfold proc_step, alloc_step; simpl; rewrite ?upd_same; unfold lock_for; simpl; tac; reflexivity|].
Ltac alone_by run :=
  split; [repeat (apply Forall_cons; split; [done|]); by apply Forall_nil|];
  split; [run; reflexivity|];
  simpl; rewrite ?(proj1 (give_frame _ _)), ?(proj2 (give_frame _ _)); simpl; rewrite ?upd_same, ?delete_insert_id by done;
  split_and!; [done|done|intros ? ?; by rewrite ?upd_other by done].

Lemma run_hit c p q e :
  c_pc c p = PLookup q → c_locks c !! partition (q_key q) = None → c_tab c !! q_key q = Some e →
  ∃ c', alone p PIdle [AStep p; AStep p; AStep p] c c' ∧ c_heap c' = c_heap c ∧ c_oom c' = c_oom c ∧
    if ObjectMatches (c_heap c) (object e) (q_text q) (q_len q) then
      c_tab c' = <[q_key q := e <| refcount ::= λ n, u32 (n + 1) |>]> (c_tab c) ∧
      c_refs c' = <[c_next c := {| r_ptr := object e; r_text := take (Z.to_nat (q_len q)) (q_text q); r_user := None |}]> (c_refs c)
    else c_tab c' = c_tab c ∧ c_refs c' = c_refs c.
Proof.
  intros Hp Hfree Hk. destruct (ObjectMatches _ _ _ _) eqn:Hm.
  - eexists. split; [alone_by ltac:(one_step ltac:(rewrite Hp, Hfree);
      one_step ltac:(unfold find_step; simpl; rewrite Hk; unfold share; simpl; rewrite Hm); one_step idtac)|].
    simpl. by rewrite alter_insert_eq.
  - eexists. split; [alone_by ltac:(one_step ltac:(rewrite Hp, Hfree);
      one_step ltac:(unfold find_step; simpl; rewrite Hk; unfold share; simpl; rewrite Hm); one_step idtac)|].
    done.
Qed.

Definition same_store (c c' : Conf) : Prop :=
  c_heap c' = c_heap c ∧ c_tab c' = c_tab c ∧ c_refs c' = c_refs c ∧ c_next c' = c_next c ∧ c_oom c' = c_oom c.

Lemma run_miss c p q :
  c_pc c p = PLookup q → c_locks c !! partition (q_key q) = None → c_tab c !! q_key q = None →
  ∃ c', alone p (PAlloc q) [AStep p; AStep p; AStep p] c c' ∧ same_store c c'.
Proof.
  intros Hp Hfree Hk. eexists. split; [alone_by ltac:(one_step ltac:(rewrite Hp, Hfree);
    one_step ltac:(unfold find_step; simpl; rewrite Hk); one_step idtac)|done].
Qed.

Lemma run_insert c p q d :
  c_pc c p = PRelock q d → c_locks c !! partition (q_key q) = None → c_tab c !! q_key q = None →
  ∃ acts c', alone p PIdle acts c c' ∧ Forall (eq (AStep p)) acts ∧ c_oom c' = c_oom c ∧
    if hash_has_room (c_tab c) (q_key q) then
      c_heap c' = c_heap c ∧ c_tab c' = <[q_key q := {| object := d; refcount := 1 |}]> (c_tab c) ∧
      c_refs c' = <[c_next c := {| r_ptr := d; r_text := take (Z.to_nat (q_len q)) (q_text q); r_user := None |}]> (c_refs c)
    else c_heap c' = delete d (c_heap c) ∧ c_tab c' = c_tab c ∧ c_refs c' = c_refs c.
Proof.
  intros Hp Hfree Hk. destruct (hash_has_room _ _) eqn:Hr.
  - exists [AStep p; AStep p; AStep p]. eexists. split; [alone_by ltac:(one_step ltac:(rewrite Hp, Hfree);
      one_step ltac:(unfold enter_step; simpl; rewrite Hk, Hr); one_step idtac)|].
    simpl. rewrite alter_insert_eq. split_and!; try done. by repeat constructor.
  - exists [AStep p; AStep p; AStep p; AStep p]. eexists. split; [alone_by ltac:(one_step ltac:(rewrite Hp, Hfree);
      one_step ltac:(unfold enter_step; simpl; rewrite Hk, Hr); one_step idtac; one_step idtac)|].
    simpl. split_and!; try done. by repeat constructor.
Qed.

Lemma run_alloc c p q outcome d :
  c_pc c p = PAlloc q → outcome = AllocOk d → c_heap c !! d = None → d ≠ InvalidDsaPointer →
  ∃ c', alone p (PRelock q d) [AAllocate p outcome] c c' ∧ c_heap c' = <[d := new_object q]> (c_heap c) ∧
    c_tab c' = c_tab c ∧ c_refs c' = c_refs c ∧ c_next c' = c_next c ∧ c_oom c' = c_oom c.
Proof.
  intros Hp -> Hd Hv. eexists. split; [alone_by ltac:(one_step ltac:(rewrite Hp, Hd, (proj2 (DsaPointerIsValid_spec d)) by done))|]. done.
Qed.

Lemma run_no_alloc c p q :
  c_pc c p = PAlloc q →
  (∃ c', alone p PIdle [AAllocate p AllocOom] c c' ∧ same_store (count_oom c) c') ∧
  (∃ c', alone p PIdle [AAllocate p AllocError] c c' ∧ same_store c c').
Proof.
  intros Hp. split; eexists; (split; [alone_by ltac:(one_step ltac:(rewrite Hp))|done]).
Qed.

Lemma run_call c p dbid queryid query len :
  c_pc c p = PIdle → 0 < len < 2 ^ 16 → (Z.to_nat len ≤ length query)%nat →
  let q := {| q_key := MakeKey dbid queryid query len; q_text := query; q_len := len |} in
  ∃ c', exec dst_size (AAcquire p dbid queryid query len) c = Some c' ∧ c_pc c' p = PLookup q ∧
    c_locks c' = c_locks c ∧ same_store c c'.
Proof.
  intros Hp [Hl1 Hl2] Hq. apply Z.ltb_lt in Hl1, Hl2. apply Nat.leb_le in Hq. eexists. split_and!.
  - cbn [exec]. unfold acquire_call. rewrite Hp, Hl1, Hl2, Hq. reflexivity.
  - simpl. by rewrite upd_same.
  - done.
  - done.
Qed.

(** What a call leaves: the sequential function's memory, and the reference it returns. *)
Definition hands_out (strs : gmap Z bytes) (c c' : Conf) (s' : Sys) (dp : Z) (text : bytes) : Prop :=
  agrees strs c' s' ∧
  c_refs c' = if DsaPointerIsValid dp then <[c_next c := {| r_ptr := dp; r_text := text; r_user := None |}]> (c_refs c)
              else c_refs c.

Section calls.
Context (strs : gmap Z bytes).

(** The allocator hands out no address of a string. *)
Definition avoids (a : Action) : Prop := match a with AAllocate _ (AllocOk d) => strs !! d = None | _ => True end.

(** [p] runs from [c] to the end of its call, where [Q] holds; [raised] is whether the
    allocator raised an error. *)
Definition ends (raised : bool) (p : nat) (c : Conf) (Q : Conf → Prop) : Prop :=
  ∃ acts c', alone p PIdle acts c c' ∧ Forall avoids acts ∧ existsb fails acts = raised ∧ Q c'.

(** It makes the call [a] and runs to its end. *)
Definition calls (a : Action) (raised : bool) (p : nat) (c : Conf) (Q : Conf → Prop) : Prop :=
  ∃ c1, exec dst_size a c = Some c1 ∧ ends raised p c1 Q.

Lemma ends_after raised p x acts c c1 (Q : Conf → Prop) :
  alone p x acts c c1 → Forall avoids acts → existsb fails acts = false → ends raised p c1 Q → ends raised p c Q.
Proof.
  intros H1 Ha Hf (acts2 & c' & H2 & Ha2 & Hr & HQ). exists (acts ++ acts2), c'.
  split_and!; [by eapply alone_trans|by apply Forall_app|by rewrite existsb_app, Hf|done].
Qed.

Lemma ends_mono raised p c (Q Q' : Conf → Prop) : (∀ c', Q c' → Q' c') → ends raised p c Q → ends raised p c Q'.
Proof. intros HQ (acts & c' & ? & ? & ? & ?). exists acts, c'. auto. Qed.

Lemma steps_avoid p acts : Forall (eq (AStep p)) acts → Forall avoids acts ∧ existsb fails acts = false.
Proof. induction 1 as [|a acts <- _ [IH1 IH2]]; [done|]. split; [by apply Forall_cons|done]. Qed.

End calls.

Lemma hands_out_same strs c c1 c' s' dp text : same_store c c1 → hands_out strs c1 c' s' dp text → hands_out strs c c' s' dp text.
Proof. intros (_ & _ & Hr & Hn & _). unfold hands_out. by rewrite Hr, Hn. Qed.

Lemma agrees_shared strs c s s' : agrees strs c s → same_shared s s' → area_available s' → agrees strs c s'.
Proof. intros [] (Hst & _ & Hh & Ht & _) Ha. split; rewrite ?Hst, ?Hh, ?Ht; done. Qed.

Lemma agrees_store strs c c' s : agrees strs c s → same_store c c' → agrees strs c' s.
Proof. intros [] (H1 & H2 & _ & _ & H5). split; rewrite ?H1, ?H2, ?H5; done. Qed.

(** Having the area changes nothing shared. *)
Lemma wp_get_area_shared (Q : bool → Sys → Prop) R s :
  area_available s → (∀ s', same_shared s s' → area_available s' → Q true s') → wp PschDsaGetArea Q R s.
Proof.
  intros Ha HQ. apply wp_get_area. intros b s' Hsame Hd Hb. rewrite (proj2 Hb Ha) in *. apply HQ; [done|by left].
Qed.

Lemma keeps_shared s s' : same_shared s s' → area_available s' → keeps s s'.
Proof. intros Hs Ha. by apply keeps_attach. Qed.

Lemma keeps_update f g s : keeps s (s <| htab ::= f |> <| heap ::= g |>).
Proof. etrans; [apply keeps_htab|apply keeps_heap]. Qed.

Lemma insert_alone strs c p q d s :
  c_pc c p = PRelock q d → c_locks c !! partition (q_key q) = None → c_tab c !! q_key q = None →
  d ≠ InvalidDsaPointer → is_Some (c_heap c !! d) → agrees strs c s →
  wp (AcquireInsert (q_key q) (q_text q) (q_len q) d)
    (λ dp s', keeps s s' ∧ ends strs false p c (λ c', hands_out strs c c' s' dp (take (Z.to_nat (q_len q)) (q_text q))))
    (λ _, False) s.
Proof.
  intros Hp Hfree Hk Hv Hd Hag. pose proof Hag as [Hh Hap Ht Ha Hst].
  destruct (run_insert c p q d Hp Hfree Hk) as (acts & c' & Hrun & Hsteps & Ho' & Hrest).
  destruct (steps_avoid strs p acts Hsteps) as [Hav Hf].
  unfold AcquireInsert, get_htab, put_htab, dsa_free. wp_run. rewrite Ht. simpl. rewrite Hk.
  destruct (hash_has_room _ _); destruct Hrest as (Hh' & Ht' & Hr'); wp_run.
  - split; [apply keeps_htab|]. exists acts, c'. split_and!; [done..|]. split.
    + split; simpl; rewrite ?Hh', ?Ht', ?Ho'; done.
    + by rewrite (proj2 (DsaPointerIsValid_spec d)).
  - split; [apply keeps_heap|]. exists acts, c'. split_and!; [done..|]. split; [|done].
    split; simpl; rewrite ?Hh', ?Ht', ?Ho'; try done.
    + rewrite Hh, delete_beside; [done|]. by eapply object_no_string.
    + intros dp Hdp. apply lookup_delete_None. auto.
Qed.

(** After a miss. *)
Lemma miss_alone {L : EnvLaws E} strs c p q s :
  c_pc c p = PAlloc q → c_locks c !! partition (q_key q) = None → c_tab c !! q_key q = None → agrees strs c s →
  wp (new_dp ← AllocInternObject (q_key q) (q_text q) (q_len q);
      if negb (DsaPointerIsValid new_dp) then mret InvalidDsaPointer
      else AcquireInsert (q_key q) (q_text q) (q_len q) new_dp)
    (λ dp s', keeps s s' ∧ ends strs false p c (λ c', hands_out strs c c' s' dp (take (Z.to_nat (q_len q)) (q_text q))))
    (λ s', keeps s s' ∧ ends strs true p c (λ c', agrees strs c' s' ∧ c_refs c' = c_refs c)) s.
Proof.
  intros Hp Hfree Hk Hag. pose proof Hag as [Hh Hap Ht Ha (st & Hst & Hoom)]. unfold AllocInternObject. do 2 wp_step.
  destruct (run_no_alloc c p q Hp) as [(co & Hruno & Hsameo) (ce & Hrune & Hsamee)].
  apply wp_alloc; [intros d Hd|intros Hd..].
  - destruct (dsa_pick_fresh _ _ _ Hd) as [Hv Hfresh]. rewrite Hh, free_beside in Hfresh. destruct Hfresh as [Hfresh Hns].
    destruct (run_alloc c p q _ d Hp eq_refl Hfresh Hv) as (c1 & Hrun & Hh1 & Ht1 & Hr1 & Hn1 & Ho1).
    pose proof Hrun as (_ & _ & Hlocks & Hp1 & _).
    rewrite (proj2 (DsaPointerIsValid_spec d)) by done. unfold dsa_store. simpl. wp_run.
    rewrite (proj2 (DsaPointerIsValid_spec d)) by done. simpl.
    eapply (wp_mono _ _ _ (λ _, False)); [|by intros ? []|apply (insert_alone strs c1 p q d); try done; [congruence|congruence|..]].
    + intros dp s' [Hkeep Hend]. split; [etrans; [etrans; [apply keeps_heap|apply keeps_heap]|exact Hkeep]|].
      apply (ends_after _ _ _ _ _ _ _ _ Hrun); [by apply Forall_singleton|done|].
      eapply ends_mono; [|exact Hend]. intros c'. unfold hands_out. by rewrite Hn1, Hr1.
    + rewrite Hh1, lookup_insert_eq. by eexists.
    + split; simpl; rewrite ?Hh1, ?Ht1, ?Ho1; [|intros dp Hdp; rewrite lookup_insert_ne; [auto|intros ->; by rewrite Hns in Hdp; destruct Hdp]|done|exact Ha|eauto].
      by rewrite insert_insert_eq, Hh, insert_union_l.
  - rewrite DsaPointerIsValid_Invalid. simpl. wp_step. eapply wp_wr; [done|]. wp_run.
    rewrite DsaPointerIsValid_Invalid. simpl. wp_run. split; [by apply keeps_oom|].
    exists [AAllocate p AllocOom], co. split_and!; [done|by apply Forall_singleton|done|]. split; [|by destruct Hsameo as (_ & _ & -> & _)].
    eapply agrees_store; [|exact Hsameo]. split; try done.
    + apply (keeps_area s); [by apply keeps_oom|done].
    + eexists. split; [reflexivity|]. simpl. by rewrite Hoom.
  - split; [done|]. exists [AAllocate p AllocError], ce. split; [done|]. split; [by apply Forall_singleton|]. split; [done|].
    split; [by eapply agrees_store|apply Hsamee].
Qed.

Lemma acquire_alone {L : EnvLaws E} strs c h p s dbid queryid query len :
  conc_ok c h → c_pc c p = PIdle → c_locks c !! partition (MakeKey dbid queryid query len) = None → agrees strs c s →
  0 < len < 2 ^ 16 → (Z.to_nat len ≤ length query)%nat →
  wp (PschQueryInternAcquire dbid queryid query len)
    (λ dp s', keeps s s' ∧ calls strs (AAcquire p dbid queryid query len) false p c (λ c', hands_out strs c c' s' dp (take (Z.to_nat len) query)))
    (λ s', keeps s s' ∧ calls strs (AAcquire p dbid queryid query len) true p c (λ c', agrees strs c' s' ∧ c_refs c' = c_refs c)) s.
Proof.
  intros Hok Hp Hfree Hag Hlen Hq. unfold PschQueryInternAcquire. pose proof Hag as [_ _ Ht Ha _].
  destruct (run_call c p dbid queryid query len) as (c1 & Hcall & Hp1 & Hlocks1 & Hsame1); [done..|].
  set (q := {| q_key := _ |}) in *. rewrite <- Hlocks1 in Hfree.
  wp_step. wp_step. rewrite Ht, orb_false_r, (proj2 (Z.eqb_neq len 0)) by lia.
  wp_step. apply wp_get_area_shared; [done|]. intros s1 Hs1 Ha1. simpl.
  pose proof (agrees_store _ _ _ _ (agrees_shared _ _ _ _ Hag Hs1 Ha1) Hsame1) as Hag1. pose proof Hag1 as [Hh1 Hap1 Ht1 _ Hst1].
  pose proof (keeps_shared _ _ Hs1 Ha1) as Hkeep1.
  unfold AcquireLookup, get_htab, put_htab. wp_run. rewrite Ht1, Hh1. simpl. fold (q_key q).
  destruct (c_tab c1 !! q_key q) as [e|] eqn:Hk; change (MakeKey dbid queryid query len) with (q_key q); rewrite Hk.
  - destruct (run_hit c1 p q e Hp1 Hfree Hk) as (c2 & Hrun2 & Hh2 & Ho2 & Hrest).
    destruct (entry_object _ _ _ (to_intern _ _ _ _ (co_table _ _ _ Hok)) (q_key q) e) as [Hv _].
    { by destruct Hsame1 as (_ & <- & _). }
    simpl in Hrest. rewrite matches_beside. destruct (ObjectMatches _ _ _ _); destruct Hrest as [Ht2 Hr2]; wp_run;
      (split; [first [exact Hkeep1|etrans; [exact Hkeep1|apply keeps_htab]]|]);
      (exists c1; split; [exact Hcall|]); (do 2 eexists; split_and!; [exact Hrun2|by repeat constructor|done|]);
      (eapply hands_out_same; [done|]); (split; [split; simpl; rewrite ?Hh2, ?Ht2, ?Ho2; done|]).
    + by rewrite (proj2 (DsaPointerIsValid_spec _)).
    + done.
  - destruct (run_miss c1 p q Hp1 Hfree Hk) as (c2 & Hrun2 & Hsame2). pose proof Hrun2 as (_ & _ & Hlocks2 & Hp2 & _).
    wp_step. eapply wp_mono; [| |apply (miss_alone strs c2 p q s1); [done|by rewrite Hlocks2| |by eapply agrees_store]].
    + intros dp s' [Hkeep Hend]. split; [by etrans|].
      exists c1. split; [exact Hcall|]. apply (ends_after _ _ _ _ _ _ _ _ Hrun2); [by repeat constructor|done|].
      eapply ends_mono; [|exact Hend]. intros c' Hret. do 2 (eapply hands_out_same; [done|]). done.
    + intros s' [Hkeep Hend]. split; [by etrans|].
      exists c1. split; [exact Hcall|]. apply (ends_after _ _ _ _ _ _ _ _ Hrun2); [by repeat constructor|done|].
      eapply ends_mono; [|exact Hend]. intros c' [Hret Hr]. split; [done|].
      destruct Hsame1 as (_ & _ & <- & _). by destruct Hsame2 as (_ & _ & <- & _).
    + by destruct Hsame2 as (_ & -> & _).
Qed.

(** From the start of a release to the end of its critical section. *)
Ltac to_release Ha Ho Hm Hfree Hk He Hc :=
  one_step ltac:(unfold resolve_step; simpl; rewrite Ha; simpl; rewrite Ho);
  one_step ltac:(unfold key_step; simpl; rewrite Ha; simpl; rewrite Ho, Hm; simpl);
  one_step ltac:(rewrite Hfree);
  one_step ltac:(unfold release_step; simpl; rewrite Ha; simpl; rewrite Hk, He, Z.eqb_refl, Hc).

Lemma run_release strs c p r x o e :
  c_pc c p = PIdle → c_refs c !! r = Some x → r_user x = None → object_at (c_heap c) (r_ptr x) = Some o →
  magic o = PSCH_QUERY_INTERN_MAGIC → c_locks c !! partition (CopyKeyFields (o_key o)) = None →
  c_tab c !! CopyKeyFields (o_key o) = Some e → object e = r_ptr x →
  calls strs (ARelease p r) false p c (λ c', c_oom c' = c_oom c ∧ c_refs c' = delete r (c_refs c) ∧ c_read c' = c_read c ++ [(r_text x, copied dst_size o)] ∧
    if u32 (refcount e - 1) =? 0 then
      c_heap c' = delete (r_ptr x) (c_heap c) ∧ c_tab c' = delete (CopyKeyFields (o_key o)) (c_tab c)
    else c_heap c' = c_heap c ∧ c_tab c' = <[CopyKeyFields (o_key o) := e <| refcount := u32 (refcount e - 1) |>]> (c_tab c)).
Proof.
  intros Hp Hr Hu Ho Hm Hfree Hk He. destruct x as [ptr text user]. simpl in Hu, Ho, He. subst user.
  assert (alter (λ x, x <| r_user := Some p |>) r (c_refs c) !! r = Some {| r_ptr := ptr; r_text := text; r_user := Some p |}) as Ha.
  { by rewrite lookup_alter_eq, Hr. }
  assert (delete r (alter (λ x, x <| r_user := Some p |>) r (c_refs c)) = delete r (c_refs c)) as Hdel by apply delete_alter_eq.
  exists (set_pc p (RResolve r) (c <| c_refs ::= alter (λ x, x <| r_user := Some p |>) r |>)).
  split; [simpl; unfold release_call; by rewrite Hp, Hr|].
  destruct (u32 (refcount e - 1) =? 0) eqn:Hc.
  - exists (replicate 6 (AStep p)). eexists. simpl replicate.
    split; [alone_by ltac:(to_release Ha Ho Hm Hfree Hk He Hc; one_step idtac; one_step idtac)|]. by split; [repeat constructor|].
  - exists (replicate 5 (AStep p)). eexists. simpl replicate.
    split; [alone_by ltac:(to_release Ha Ho Hm Hfree Hk He Hc; one_step idtac)|]. by split; [repeat constructor|].
Qed.

(** A release by a process that runs alone, of a reference nobody works with. *)
Lemma release_alone strs c h p r x s dst n0 (Hd : 0 < dst_size ≤ 2 ^ 16) :
  conc_ok c h → c_pc c p = PIdle → c_locks c = ∅ → c_refs c !! r = Some x → r_user x = None → agrees strs c s →
  wp (PschQueryInternResolveAndRelease (r_ptr x) (Some dst) dst_size (Some n0))
    (λ out s', keeps s s' ∧ calls strs (ARelease p r) false p c (λ c', agrees strs c' s' ∧ c_refs c' = delete r (c_refs c) ∧
       ∃ text, c_read c' = c_read c ++ [(r_text x, text)] ∧
         out = (Some (blit (length text) [0] (blit 0 text (blit 0 [0] dst))), Some (Z.of_nat (length text)))))
    (λ _, False) s.
Proof.
  intros Hok Hp Hfree Hr Hu Hag.
  destruct (reference_object dst_size c h r x Hok Hr) as (k & e & o & Hk & He & _ & Hobj & (Hkey & Hmagic & Hrange & Hlen) & Hv).
  assert (CopyKeyFields (o_key o) = k) as Hck by (rewrite Hkey; by destruct k).
  destruct (run_release strs c p r x o e) as (c1 & Hcall & acts & c' & Hrun & Hav & Hf & Ho' & Hr' & Hread & Hrest); rewrite ?Hck; try done; [by rewrite Hfree|].
  unfold PschQueryInternResolveAndRelease. rewrite (proj2 (Z.ltb_lt 0 dst_size)) by lia. wp_step.
  unfold ResolveInto. rewrite (proj2 (DsaPointerIsValid_spec _)), (proj2 (Z.eqb_neq dst_size 0)) by (done || lia). simpl.
  wp_step. apply wp_get_area_shared; [apply Hag|]. intros s1 Hs1 Ha1. simpl.
  pose proof (agrees_shared _ _ _ _ Hag Hs1 Ha1) as Hag1.
  wp_run. rewrite (ag_heap _ _ _ Hag1), object_beside, Hobj, Hmagic, Z.eqb_refl. simpl. wp_run.
  unfold ReleaseRef. do 2 wp_step. rewrite (ag_tab _ _ _ Hag1), (proj2 (DsaPointerIsValid_spec _)) by done. simpl.
  wp_step. apply wp_get_area_shared; [done|]. intros s2 Hs2 Ha2. simpl.
  pose proof (agrees_shared _ _ _ _ Hag1 Hs2 Ha2) as [Hhs2 Hap2 Hts2 _ Hst2].
  assert (keeps s s2) as Hkeep by (etrans; by apply keeps_shared).
  wp_run. rewrite Hhs2, object_beside, Hobj, Hmagic, Z.eqb_refl. simpl.
  unfold ReleaseEntry, get_htab, put_htab, dsa_free. wp_run. rewrite Hts2, Hck. simpl. rewrite Hk, He, Z.eqb_refl.
  assert (copied dst_size o = take (Z.to_nat (if dst_size <=? k_query_len (o_key o) then u16 (dst_size - 1) else k_query_len (o_key o))) (o_query o)) as Hcopy
    by (unfold copied; by rewrite Hmagic, Z.eqb_refl).
  set (n := if dst_size <=? k_query_len (o_key o) then u16 (dst_size - 1) else k_query_len (o_key o)) in *.
  assert (0 ≤ n ∧ (Z.to_nat n ≤ length (o_query o))%nat) as [Hn Hnl].
  { unfold n. rewrite Hlen, Hkey. assert (u16 (dst_size - 1) = dst_size - 1) as -> by (apply u16_small; unfold is_u16; lia).
    destruct (Z.leb_spec dst_size (k_query_len k)); lia. }
  assert (∀ s', agrees strs c' s' → calls strs (ARelease p r) false p c (λ c', agrees strs c' s' ∧ c_refs c' = delete r (c_refs c) ∧
      ∃ text, c_read c' = c_read c ++ [(r_text x, text)] ∧
        (Some (blit (Z.to_nat n) [0] (blit 0 (take (Z.to_nat n) (o_query o)) (blit 0 [0] dst))), Some n) =
        (Some (blit (length text) [0] (blit 0 text (blit 0 [0] dst))), Some (Z.of_nat (length text))))) as Hend.
  { intros s' Hs'. exists c1. split; [exact Hcall|]. exists acts, c'. split_and!; try done. exists (copied dst_size o). split; [done|].
    rewrite Hcopy, length_take, Nat.min_l, Z2Nat.id by done. done. }
  destruct (_ =? 0); destruct Hrest as [Hh' Ht']; wp_run.
  - rewrite (proj2 (DsaPointerIsValid_spec _)) by done. wp_run. split; [etrans; [exact Hkeep|apply keeps_update]|]. apply Hend.
    split; simpl; rewrite ?Hh', ?Ht', ?Ho', ?Hck; try done.
    + rewrite Hhs2, delete_beside; [done|]. eapply object_no_string; [exact Hag|]. apply object_at_Some in Hobj. by rewrite Hobj.
    + intros dp Hdp. apply lookup_delete_None. auto.
  - rewrite DsaPointerIsValid_Invalid. wp_run. split; [etrans; [exact Hkeep|apply keeps_htab]|]. apply Hend.
    split; simpl; rewrite ?Hh', ?Ht', ?Ho', ?Hck; done.
Qed.

End alone.

(** ** The theorem *)

(** A call that no other process interrupts is the sequential function. From any
    reachable state in which no critical section is open, a process that runs alone
    ends its call with the memory, the table, the count of failed allocations and the
    result of the function of [Intern.v], whatever strings the area holds beside the
    objects, and leaves by an error exactly if the function does: an acquire hands out
    the pointer the function returns as a new reference to the text, or none; a release
    copies the function's bytes and takes the reference back. *)
Theorem uninterrupted_calls_sequential {E : Env} {L : EnvLaws E} dst_size c p s strs (Hd : 0 < dst_size ≤ 2 ^ 16)
  (Hreach : reachable dst_size c) (Hp : c_pc c p = PIdle) (Hlocks : c_locks c = ∅) (Hag : agrees strs c s) :
  (∀ dbid queryid query len, 0 < len < 2 ^ 16 → (Z.to_nat len ≤ length query)%nat →
    wp (PschQueryInternAcquire dbid queryid query len)
      (λ dp s', keeps s s' ∧ calls dst_size strs (AAcquire p dbid queryid query len) false p c (λ c', hands_out strs c c' s' dp (take (Z.to_nat len) query)))
      (λ s', keeps s s' ∧ calls dst_size strs (AAcquire p dbid queryid query len) true p c (λ c', agrees strs c' s' ∧ c_refs c' = c_refs c)) s) ∧
  (∀ r x dst n0, c_refs c !! r = Some x → r_user x = None →
    wp (PschQueryInternResolveAndRelease (r_ptr x) (Some dst) dst_size (Some n0))
      (λ out s', keeps s s' ∧ calls dst_size strs (ARelease p r) false p c (λ c', agrees strs c' s' ∧ c_refs c' = delete r (c_refs c) ∧
         ∃ text, c_read c' = c_read c ++ [(r_text x, text)] ∧
           out = (Some (blit (length text) [0] (blit 0 text (blit 0 [0] dst))), Some (Z.of_nat (length text)))))
      (λ _, False) s).
Proof.
  destruct (reachable_ok dst_size c Hd Hreach) as [h Hok]. split.
  - intros. apply (acquire_alone dst_size strs c h); try done. by rewrite Hlocks.
  - intros. by apply (release_alone dst_size strs c h).
Qed.

(** The state of a process that sees the memory of [race_conf], and a string. *)
Definition race_strings : gmap Z bytes := {[64 := [7; 0]]}.
Definition race_sys : Sys :=
  demo_sys1 <| heap := c_heap race_conf ∪ (DsaString <$> race_strings) |> <| htab := Some (c_tab race_conf) |>.

Lemma race_agrees : agrees race_strings race_conf race_sys.
Proof.
  split; [done| |done|right; by exists demo_st1|by exists demo_st1].
  intros dp [b Hb]. unfold race_strings in Hb. apply lookup_singleton_Some in Hb as [<- _]. by vm_compute.
Qed.

Lemma uninterrupted_calls_sequential_witness :
  (PschQueryInternAcquire (E := demo1) 1 42 (bytes_of_string "SELECT 1") 8 race_sys).1 = Some 16 ∧
  wp (PschQueryInternAcquire (E := demo1) 1 42 (bytes_of_string "SELECT 1") 8)
    (λ dp s', keeps race_sys s' ∧
       calls (E := demo1) 2048 race_strings (AAcquire 0 1 42 (bytes_of_string "SELECT 1") 8) false 0 race_conf (λ c', hands_out race_strings race_conf c' s' dp (bytes_of_string "SELECT 1")))
    (λ s', keeps race_sys s' ∧
       calls (E := demo1) 2048 race_strings (AAcquire 0 1 42 (bytes_of_string "SELECT 1") 8) true 0 race_conf (λ c', agrees race_strings c' s' ∧ c_refs c' = c_refs race_conf)) race_sys.
Proof.
  split; [by vm_compute|].
  destruct (uninterrupted_calls_sequential (E := demo1) 2048 race_conf 0 race_sys race_strings ltac:(lia) race_reachable) as [H _];
    [by vm_compute|by vm_compute|exact race_agrees|].
  apply (H 1 42 (bytes_of_string "SELECT 1") 8); [lia|]. by vm_compute; lia.
Defined.

End InternSeq.
