(* ===== verification/QueueConc.v ===== *)
(** The whole queue under concurrency: the ring of [src/src/queue/shmem.c] and the
    interner of [src/src/queue/query_intern.c] as one machine.

    [RingConc.v] has the positions, the lock and where every process is, with a number
    for each event; [InternConc.v] has the hash table, the partition locks and the
    interned objects. Here both run together: filling a slot in [TryEnqueueLocked] is
    the copy of the fixed prefix, the allocation of the error message and a call of
    [PschQueryInternAcquire], step by step; taking one in [PschDequeueEvent] is the copy,
    the resolution and the release of the error message, a call of
    [PschQueryInternResolveAndRelease] and the advance of the tail. All other steps are
    those of the ring.

    The event with number [n] is [event n]. The DSA area is the union of [strings] and of
    the interner's heap: an address is allocated only when it is free in both. The
    processes of the interner are the worker, number 0, and the backends. What starts
    with [h_], [delivered] and [fault] is history the code does not have. The area and the
    table are there, so the calls are past the early returns for a missing one. *)

From stdpp Require Import relations.
From S2P Require Import Prelude Event Shared Dsa Intern Ring InternInv RingInv RingSpec RingConc InternConc.
Import Event Shared Dsa Intern Ring RingSpec.

Module QueueConc.

(** Where a producer is while it fills a slot. *)
Inductive FillPC :=
  | FIdle       (** not filling, or about to copy the prefix *)
  | FErr        (** about to store the error message *)
  | FQuery      (** about to intern the query *)
  | FAcquire    (** in [PschQueryInternAcquire] *)
  | FDone.      (** the slot is complete *)

(** Where the consumer is while it takes one. *)
Inductive DrainPC :=
  | DIdle
  | DErr                (** about to resolve the error message *)
  | DErrFree (dp : Z)   (** about to free it *)
  | DQuery              (** about to resolve the query *)
  | DRelease            (** in [PschQueryInternResolveAndRelease] *)
  | DDone.              (** about to advance the tail *)

#[export] Instance FillPC_eq_dec : EqDecision FillPC.
Proof. solve_decision. Defined.
#[export] Instance DrainPC_eq_dec : EqDecision DrainPC.
Proof. solve_decision. Defined.

Record Conf := {
  ring : RingConc.Conf;
  intern : InternConc.Conf;
  slots : list PschRingEntry;
  strings : gmap Z bytes;
  fill : nat → FillPC;
  drain : DrainPC;
  out : PschEvent;             (** the consumer's buffer *)
  delivered : list PschEvent;
  fault : bool;                (** memory that is not a string was read or freed as one *)
  h_err : gmap Z Z;            (** the string a position holds *)
  h_ref : gmap Z nat;          (** the reference a position holds *)
  h_leaked : list Z }.         (** strings left behind by errors *)

#[export] Instance Conf_eta : Eta Conf := λ c,
  Build_Conf (ring c) (intern c) (slots c) (strings c) (fill c) (drain c) (out c) (delivered c) (fault c)
    (h_err c) (h_ref c) (h_leaked c).

Definition worker : nat := 0.
Definition backend (p : nat) : nat := S p.

Section machine.
Context {E : Env} (capacity : Z) (event : Z → PschEvent).

Definition ring_exec := RingConc.exec capacity psch_debug_force_locked_overflow.
Definition intern_exec := InternConc.exec PSCH_MAX_QUERY_LEN.

Definition ring_move (a : RingConc.Action) (c : Conf) : option Conf :=
  match ring_exec a (ring c) with Some r => Some (c <| ring := r |>) | None => None end.
Definition intern_move (a : InternConc.Action) (c : Conf) : option Conf :=
  match intern_exec a (intern c) with Some i => Some (c <| intern := i |>) | None => None end.

Definition set_fill (p : nat) (pc : FillPC) (c : Conf) : Conf := c <| fill := upd (fill c) p pc |>.
Definition put_slot (pos : Z) (f : PschRingEntry → PschRingEntry) (c : Conf) : Conf :=
  c <| slots ::= alter f (slot_index capacity pos) |>.
Definition slot (pos : Z) (c : Conf) : PschRingEntry := slots c !!! slot_index capacity pos.

(** The steps of the ring that are not refined here. *)
Definition ring_step (a : RingConc.Action) (c : Conf) : option Conf :=
  match a with
  | RingConc.AProd p =>
    match RingConc.c_prod (ring c) p with
    | RingConc.PFilling _ _ _ | RingConc.PPartial _ _ _ => None
    | _ => ring_move a c
    end
  | RingConc.AError _ => None
  | RingConc.ACons =>
    match RingConc.c_cons (ring c) with
    | RingConc.CCopy _ | RingConc.CCopied _ _ => None
    | _ => ring_move a c
    end
  | _ => ring_move a c
  end.

(** ** Filling a slot *)

(** The event a producer fills in, and the position of its slot. *)
Definition filling (p : nat) (c : Conf) : option (PschEvent * Z) :=
  match RingConc.c_prod (ring c) p with
  | RingConc.PFilling ev pos _ | RingConc.PPartial ev pos _ => Some (event ev, pos)
  | _ => None
  end.

Definition clamped_len (ev : PschEvent) : Z :=
  Z.min (query_len (ev_fixed ev)) (u16 (PSCH_MAX_QUERY_LEN - 1)).

Definition store_err (ev : PschEvent) (pos err_dsa : Z) (c : Conf) : Conf :=
  put_slot pos (λ e,
    let e := e <| err_message_dsa := err_dsa |> in
    if (0 <? err_message_len (ev_fixed ev)) && negb (DsaPointerIsValid err_dsa)
    then set_err_message_len 0 e else e) c.

Definition store_query (ev : PschEvent) (pos q_dsa : Z) (c : Conf) : Conf :=
  put_slot pos (λ e,
    let e := e <| query_dsa := q_dsa |> in
    if negb (DsaPointerIsValid q_dsa) then set_query_len 0 e else set_query_len (clamped_len ev) e) c.

Definition keep_query (ev : PschEvent) (pos : Z) (result : option nat) (c : Conf) : Conf :=
  match result with
  | Some r => (store_query ev pos (InternConc.pointer (intern c) r) c) <| h_ref ::= <[pos := r]> |>
  | None => store_query ev pos InvalidDsaPointer c
  end.

(** [PschQueryInternAcquire] went a step; [result] is what it returns if it is back. *)
Definition acquired (p : nat) (ev : PschEvent) (pos : Z) (result : option nat) (c : Conf) : Conf :=
  match InternConc.c_pc (intern c) (backend p) with
  | InternConc.PIdle => set_fill p FDone (keep_query ev pos result c)
  | _ => c
  end.

(** A step of a producer that needs nothing of the allocator. *)
Definition fill_step (p : nat) (c : Conf) : option Conf :=
  match filling p c with
  | None => None
  | Some (ev, pos) =>
    match RingConc.c_prod (ring c) p, fill c p with
    | RingConc.PFilling _ _ _, FIdle =>
      option_map (λ c, set_fill p FErr (put_slot pos (λ e, e <| re_fixed := ev_fixed ev |>) c))
        (ring_move (RingConc.AProd p) c)
    | RingConc.PPartial _ _ _, FErr =>
      if err_message_len (ev_fixed ev) =? 0
      then Some (set_fill p FQuery (store_err ev pos InvalidDsaPointer c)) else None
    | RingConc.PPartial _ _ _, FQuery =>
      if 0 <? query_len (ev_fixed ev) then
        option_map (set_fill p FAcquire)
          (intern_move (InternConc.AAcquire (backend p) (dbid (identity (ev_fixed ev)))
             (queryid (identity (ev_fixed ev))) (query ev) (clamped_len ev)) c)
      else Some (set_fill p FDone (put_slot pos (λ e, e <| query_dsa := InvalidDsaPointer |>) c))
    | RingConc.PPartial _ _ _, FAcquire =>
      option_map (acquired p ev pos (InternConc.returned (InternConc.c_pc (intern c) (backend p))))
        (intern_move (InternConc.AStep (backend p)) c)
    | RingConc.PPartial _ _ _, FDone => option_map (set_fill p FIdle) (ring_move (RingConc.AProd p) c)
    | _, _ => None
    end
  end.

(** An error raised while the slot is filled: [PG_FINALLY] releases the lock; the error
    message that was stored has no owner any more. *)
Definition raise_from (p : nat) (pos : Z) (c : Conf) : option Conf :=
  option_map (λ c, set_fill p FIdle
      (c <| h_leaked ::= (λ l, match h_err c !! pos with Some dp => dp :: l | None => l end) |>
         <| h_err ::= delete pos |>))
    (ring_move (RingConc.AError p) c).

(** [PschDsaAllocString], with the answer of the allocator. *)
Definition alloc_err (p : nat) (ev : PschEvent) (pos : Z) (outcome : AllocOutcome) (c : Conf) : option Conf :=
  match outcome with
  | AllocOk dp =>
    match strings c !! dp, InternConc.c_heap (intern c) !! dp with
    | None, None =>
      if DsaPointerIsValid dp then
        let clamped := Z.min (err_message_len (ev_fixed ev)) (u16 (PSCH_MAX_ERR_MSG_LEN - 1)) in
        Some (set_fill p FQuery (store_err ev pos dp
          (c <| strings ::= <[dp := take (Z.to_nat clamped) (err_message ev) ++ [0]]> |>
             <| h_err ::= <[pos := dp]> |>)))
      else None
    | _, _ => None
    end
  | AllocOom =>
    Some (set_fill p FQuery (store_err ev pos InvalidDsaPointer
      (c <| intern ::= InternConc.count_oom |>)))
  | AllocError => raise_from p pos c
  end.

(** A step that asks the allocator. *)
Definition fill_alloc (p : nat) (outcome : AllocOutcome) (c : Conf) : option Conf :=
  match filling p c with
  | None => None
  | Some (ev, pos) =>
    match RingConc.c_prod (ring c) p, fill c p with
    | RingConc.PPartial _ _ _, FErr =>
      if err_message_len (ev_fixed ev) =? 0 then None else alloc_err p ev pos outcome c
    | RingConc.PPartial _ _ _, FAcquire =>
      match outcome with
      | AllocOk dp =>
        match strings c !! dp with
        | None => intern_move (InternConc.AAllocate (backend p) outcome) c
        | Some _ => None
        end
      | AllocOom =>
        option_map (acquired p ev pos None) (intern_move (InternConc.AAllocate (backend p) outcome) c)
      | AllocError =>
        match intern_move (InternConc.AAllocate (backend p) outcome) c with
        | Some c => raise_from p pos c
        | None => None
        end
      end
    | _, _ => None
    end
  end.

(** ** Taking a slot *)

(** [PschDsaResolveString] up to the release of the string. *)
Definition resolve_err (e : PschRingEntry) (c : Conf) : Conf :=
  if DsaPointerIsValid (err_message_dsa e) then
    let src := default [] (strings c !! err_message_dsa e) in
    let len := Z.min (err_message_len (re_fixed e)) (u16 (PSCH_MAX_ERR_MSG_LEN - 1)) in
    c <| out ::= (λ o, o <| err_message ::= λ dst, blit (Z.to_nat len) [0] (blit 0 (take (Z.to_nat len) src) dst) |>
                        <| ev_fixed ::= λ f, f <| err_message_len := len |> |>) |>
      <| fault ::= orb (negb (bool_decide (is_Some (strings c !! err_message_dsa e)))) |>
      <| drain := DErrFree (err_message_dsa e) |>
  else
    c <| out ::= (λ o, o <| err_message ::= blit 0 [0] |> <| ev_fixed ::= λ f, f <| err_message_len := 0 |> |>) |>
      <| drain := DQuery |>.

(** What [ResolveInto] copied last. *)
Definition read_query (i : InternConc.Conf) (o : PschEvent) : PschEvent :=
  let text := default [] (snd <$> last (InternConc.c_read i)) in
  o <| query ::= λ dst, blit (length text) [0] (blit 0 text dst) |>
    <| ev_fixed ::= λ f, f <| query_len := Z.of_nat (length text) |> |>.

Definition drain_step (c : Conf) : option Conf :=
  match RingConc.c_cons (ring c), drain c with
  | RingConc.CCopy pos, DIdle =>
    option_map (λ c, c <| out ::= (λ o, o <| ev_fixed := re_fixed (slot pos c) |>) |> <| drain := DErr |>)
      (ring_move RingConc.ACons c)
  | RingConc.CCopied pos _, DErr => Some (resolve_err (slot pos c) c)
  | RingConc.CCopied pos _, DErrFree dp =>
    Some (c <| strings ::= delete dp |> <| h_err ::= delete pos |>
            <| fault ::= orb (negb (bool_decide (is_Some (strings c !! dp)))) |> <| drain := DQuery |>)
  | RingConc.CCopied pos _, DQuery =>
    let c := c <| out ::= λ o, o <| query ::= blit 0 [0] |> <| ev_fixed ::= λ f, f <| query_len := 0 |> |> |> in
    if DsaPointerIsValid (query_dsa (slot pos c)) then
      match h_ref c !! pos with
      | Some r =>
        if InternConc.pointer (intern c) r =? query_dsa (slot pos c)
        then option_map (λ c, c <| drain := DRelease |> <| h_ref ::= delete pos |>)
               (intern_move (InternConc.ARelease worker r) c)
        else None
      | None => None
      end
    else Some (c <| drain := DDone |>)
  | RingConc.CCopied _ _, DRelease =>
    let resolving := match InternConc.c_pc (intern c) worker with InternConc.RResolve _ => true | _ => false end in
    option_map (λ c,
        let c := if resolving : bool then c <| out ::= read_query (intern c) |> else c in
        match InternConc.c_pc (intern c) worker with
        | InternConc.PIdle => c <| drain := DDone |>
        | _ => c
        end) (intern_move (InternConc.AStep worker) c)
  | RingConc.CCopied _ _, DDone =>
    option_map (λ c, c <| drain := DIdle |> <| delivered ::= λ l, l ++ [out c] |>) (ring_move RingConc.ACons c)
  | _, _ => None
  end.

(** ** Runs *)

Inductive Action :=
  | ARing (a : RingConc.Action)
  | AFill (p : nat)
  | AFillAlloc (p : nat) (outcome : AllocOutcome)
  | ADrain.

Definition exec (a : Action) (c : Conf) : option Conf :=
  match a with
  | ARing a => ring_step a c
  | AFill p => fill_step p c
  | AFillAlloc p outcome => fill_alloc p outcome c
  | ADrain => drain_step c
  end.

Inductive step (c c' : Conf) : Prop := do_step a : exec a c = Some c' → step c c'.

(** [slots0] and [out0] are what the memory holds before the first use. *)
Definition start (pos : Z) (slots0 : list PschRingEntry) (out0 : PschEvent) : Conf := {|
  ring := RingConc.start capacity pos; intern := InternConc.start; slots := slots0; strings := ∅;
  fill := λ _, FIdle; drain := DIdle; out := out0; delivered := []; fault := false;
  h_err := ∅; h_ref := ∅; h_leaked := [] |}.

Definition reachable (c : Conf) : Prop :=
  ∃ pos slots0 out0, is_u64 pos ∧ length slots0 = Z.to_nat capacity ∧ event_ok out0 ∧
    rtc step (start pos slots0 out0) c.

Fixpoint exec_all (l : list Action) (c : Conf) : option Conf :=
  match l with
  | [] => Some c
  | a :: rest => match exec a c with Some c' => exec_all rest c' | None => None end
  end.

Lemma queue_exec_rtc l c c' : exec_all l c = Some c' → rtc step c c'.
Proof.
  revert c. induction l as [|a l IH]; intros c; simpl; [intros [= ->]; done|].
  destruct (exec a c) as [c1|] eqn:Ha; [|done]. intros Hl.
  eapply rtc_l; [by eapply do_step|by apply IH].
Qed.

End machine.
End QueueConc.
