(* ===== verification/QueueConcInv.v ===== *)
(** The invariant of the whole queue under concurrency ([QueueConc.v]): what the slots
    hold, who owns which string and which reference, and what steps of one process leave
    alone. *)

From stdpp Require Import relations.
From S2P Require Import Prelude Event Shared Dsa Intern Ring InternInv RingInv RingSpec RingConc InternConc.
From S2P Require Import InternConcThms InternMoves QueueConc.
Import Event Shared Dsa Intern Ring InternInv RingInv RingSpec InternMoves QueueConc.

Module QueueConcInv.

(** ** The invariant *)

Section queue.
Context {E : Env} (capacity : Z) (event : Z → PschEvent) (k : Z) (Hk : 0 ≤ k ≤ 31) (Hcap : capacity = 2 ^ k).
Context (Hev : ∀ n, event_ok (event n)).
#[local] Abbreviation slot := (slot capacity).
#[local] Abbreviation ring_inv := (RingConc.conc_inv capacity).
#[local] Abbreviation intern_ok := (InternConcThms.conc_ok PSCH_MAX_QUERY_LEN).
#[local] Abbreviation uses := InternConcThms.uses.

(** The fixed prefix of an event, but for the lengths of its texts. *)
Definition like (ev : PschEvent) (f : PschFixed) : Prop :=
  ∃ en qn, f = (ev_fixed ev) <| err_message_len := en |> <| query_len := qn |>.

Definition query_of (ev : PschEvent) : InternConc.Query := {|
  InternConc.q_key := MakeKey (dbid (identity (ev_fixed ev))) (queryid (identity (ev_fixed ev))) (query ev) (clamped_len ev);
  InternConc.q_text := query ev; InternConc.q_len := clamped_len ev |}.

(** The slot at [pos] holds the error message of [ev], or has lost it. *)
Definition err_slot (c : Conf) (ev : PschEvent) (pos : Z) : Prop :=
  match h_err c !! pos with
  | None => err_message_dsa (slot pos c) = InvalidDsaPointer ∧ err_message_len (re_fixed (slot pos c)) = 0
  | Some dp =>
    err_message_dsa (slot pos c) = dp ∧ dp ≠ InvalidDsaPointer ∧
    strings c !! dp = Some (take (Z.to_nat (cut (err_message_len (ev_fixed ev)) PSCH_MAX_ERR_MSG_LEN)) (err_message ev) ++ [0]) ∧
    err_message_len (re_fixed (slot pos c)) = err_message_len (ev_fixed ev)
  end.

(** It has a reference to the query of [ev], or has lost it. *)
Definition query_slot (c : Conf) (ev : PschEvent) (pos : Z) : Prop :=
  match h_ref c !! pos with
  | None => query_dsa (slot pos c) = InvalidDsaPointer ∧ query_len (re_fixed (slot pos c)) = 0
  | Some r =>
    query_len (re_fixed (slot pos c)) = clamped_len ev ∧
    ∃ x, InternConc.c_refs (intern c) !! r = Some x ∧ InternConc.r_user x = None ∧
      InternConc.r_ptr x = query_dsa (slot pos c) ∧ InternConc.r_text x = text_of (query_of ev)
  end.

Record slot_ok (c : Conf) (ev : PschEvent) (pos : Z) : Prop := {
  so_fixed : like ev (re_fixed (slot pos c));
  so_err : err_slot c ev pos;
  so_query : query_slot c ev pos }.

(** What is known of the slot a producer fills. *)
Definition partial_ok (c : Conf) (p : nat) (ev : PschEvent) (pos : Z) (f : FillPC) : Prop :=
  match f with
  | FIdle => False
  | FErr => re_fixed (slot pos c) = ev_fixed ev ∧ h_err c !! pos = None ∧ h_ref c !! pos = None
  | FQuery =>
    like ev (re_fixed (slot pos c)) ∧ query_len (re_fixed (slot pos c)) = query_len (ev_fixed ev) ∧ err_slot c ev pos ∧
    h_ref c !! pos = None
  | FAcquire =>
    like ev (re_fixed (slot pos c)) ∧ err_slot c ev pos ∧ h_ref c !! pos = None ∧
    acquiring (query_of ev) (intern c) (backend p)
  | FDone => slot_ok c ev pos
  end.

Definition filling_ok (c : Conf) (p : nat) : Prop :=
  match RingConc.c_prod (ring c) p with
  | RingConc.PPartial n pos _ => partial_ok c p (event n) pos (fill c p)
  | RingConc.PFilled n pos _ => slot_ok c (event n) pos ∧ fill c p = FIdle
  | _ => fill c p = FIdle
  end.

Definition idle (c : Conf) (q : nat) : Prop := InternConc.c_pc (intern c) q = InternConc.PIdle.

Definition fill_ok (c : Conf) (p : nat) : Prop :=
  filling_ok c p ∧ (fill c p ≠ FAcquire → idle c (backend p)).

Lemma fill_ok_partial c p n pos todo f :
  RingConc.c_prod (ring c) p = RingConc.PPartial n pos todo → fill c p = f → partial_ok c p (event n) pos f →
  (f ≠ FAcquire → idle c (backend p)) → fill_ok c p.
Proof. intros Hp <- Hok Hi. split; [|done]. unfold filling_ok. by rewrite Hp. Qed.

(** The texts in the consumer's buffer are those of [ev], or are lost. *)
Definition err_done (ev o : PschEvent) : Prop :=
  text_stored (err_message_len (ev_fixed ev)) PSCH_MAX_ERR_MSG_LEN (err_message ev)
    (err_message_len (ev_fixed o)) (take (Z.to_nat (err_message_len (ev_fixed o))) (err_message o)).
Definition query_done (ev o : PschEvent) : Prop :=
  text_stored (query_len (ev_fixed ev)) PSCH_MAX_QUERY_LEN (query ev)
    (query_len (ev_fixed o)) (take (Z.to_nat (query_len (ev_fixed o))) (query o)).

Definition releasing (c : Conf) (ev : PschEvent) : Prop :=
  (∃ r x, InternConc.c_pc (intern c) worker = InternConc.RResolve r ∧ InternConc.c_refs (intern c) !! r = Some x ∧
     InternConc.r_user x = Some worker ∧ InternConc.r_text x = text_of (query_of ev)) ∨
  (resolved (InternConc.c_pc (intern c) worker) = true ∧ query_done ev (out c)).

(** What is known of the slot the consumer takes, which holds [ev]. *)
Definition taking_ok (c : Conf) (ev : PschEvent) (pos : Z) : Prop :=
  like ev (ev_fixed (out c)) ∧
  match drain c with
  | DIdle => False
  | DErr => slot_ok c ev pos
  | DErrFree dp => err_done ev (out c) ∧ h_err c !! pos = Some dp ∧ query_slot c ev pos
  | DQuery => err_done ev (out c) ∧ h_err c !! pos = None ∧ query_slot c ev pos
  | DRelease => err_done ev (out c) ∧ h_err c !! pos = None ∧ h_ref c !! pos = None ∧ releasing c ev
  | DDone => err_done ev (out c) ∧ h_err c !! pos = None ∧ h_ref c !! pos = None ∧ query_done ev (out c)
  end.

Definition drain_ok (c : Conf) (queue : list Z) : Prop :=
  match RingConc.c_cons (ring c) with
  | RingConc.CCopied pos _ => ∃ n rest, queue = n :: rest ∧ taking_ok c (event n) pos
  | _ => drain c = DIdle
  end ∧ (drain c ≠ DRelease → idle c worker).

(** A position that can hold a string or a reference: that of a waiting event, or of the
    slot that is being filled. *)
Definition held (c : Conf) (H T : Z) (a : Z) : Prop :=
  ∃ i, a = u64 (T + i) ∧ 0 ≤ i ≤ H - T ∧
    (i = H - T → ∃ p n todo, RingConc.c_prod (ring c) p = RingConc.PPartial n a todo ∨
                             RingConc.c_prod (ring c) p = RingConc.PFilled n a todo).

(** Who owns the strings, and who owns the references. *)
Record err_owners (c : Conf) (H T : Z) : Prop := {
  ow_err_inj a b dp : h_err c !! a = Some dp → h_err c !! b = Some dp → a = b;
  ow_err_live a dp : h_err c !! a = Some dp → is_Some (strings c !! dp);
  ow_err_pos a dp : h_err c !! a = Some dp → held c H T a;
  ow_string dp : is_Some (strings c !! dp) → (∃ a, h_err c !! a = Some dp) ∨ dp ∈ h_leaked c }.

Record ref_owners (c : Conf) (H T : Z) : Prop := {
  ow_ref_inj a b r : h_ref c !! a = Some r → h_ref c !! b = Some r → a = b;
  ow_ref_free a r : h_ref c !! a = Some r →
    ∃ x, InternConc.c_refs (intern c) !! r = Some x ∧ InternConc.r_user x = None;
  ow_ref_pos a r : h_ref c !! a = Some r → held c H T a;
  ow_ref r : is_Some (InternConc.c_refs (intern c) !! r) →
    (∃ a, h_ref c !! a = Some r) ∨ ∃ q, uses (InternConc.c_pc (intern c) q) = Some r }.

(** No address is a string and an object of the interner. *)
Definition apart (c : Conf) : Prop :=
  ∀ dp, is_Some (strings c !! dp) → is_Some (InternConc.c_heap (intern c) !! dp) → False.

Record queue_inv (c : Conf) (H T : Z) (queue : list Z) (h : gmap Z DsaBlock) : Prop := {
  qi_ring : ring_inv (ring c) H T queue;
  qi_intern : intern_ok (intern c) h;
  qi_len : length (slots c) = Z.to_nat capacity;
  qi_slots i n : queue !! i = Some n → i ≠ 0%nat ∨ drain c = DIdle → slot_ok c (event n) (u64 (T + Z.of_nat i));
  qi_fill p : fill_ok c p;
  qi_drain : drain_ok c queue;
  qi_out : length (err_message (out c)) = Z.to_nat PSCH_MAX_ERR_MSG_LEN ∧
           length (query (out c)) = Z.to_nat PSCH_MAX_QUERY_LEN;
  qi_delivered : Forall2 (λ n o, stored (event n) (view o)) (RingConc.h_popped (ring c)) (delivered c);
  qi_fault : fault c = false;
  qi_err : err_owners c H T;
  qi_ref : ref_owners c H T;
  qi_apart : apart c }.

(** *** Framing *)

(** What a slot at [pos] stands for is the same in both states. *)
Record frame_at (pos : Z) (c c' : Conf) : Prop := {
  fa_slot : slot pos c' = slot pos c;
  fa_err : h_err c' !! pos = h_err c !! pos;
  fa_ref : h_ref c' !! pos = h_ref c !! pos;
  fa_string dp : h_err c !! pos = Some dp → strings c' !! dp = strings c !! dp;
  fa_refs r x : h_ref c !! pos = Some r → InternConc.c_refs (intern c) !! r = Some x → InternConc.r_user x = None →
    InternConc.c_refs (intern c') !! r = Some x }.

Lemma err_slot_frame pos c c' ev : frame_at pos c c' → err_slot c ev pos → err_slot c' ev pos.
Proof.
  intros [H1 H2 _ H4 _]. unfold err_slot. rewrite H1, H2. destruct (h_err c !! pos) as [dp|] eqn:Hd; [|done].
  by rewrite (H4 dp eq_refl).
Qed.

Lemma query_slot_frame pos c c' ev : frame_at pos c c' → query_slot c ev pos → query_slot c' ev pos.
Proof.
  intros [H1 _ H3 _ H5]. unfold query_slot. rewrite H1, H3. destruct (h_ref c !! pos) as [r|] eqn:Hr; [|done].
  intros (Hl & x & Hx & Hu & Hp & Ht). split; [done|]. exists x. split_and!; try done. by apply H5.
Qed.

Lemma slot_ok_frame pos c c' ev : frame_at pos c c' → slot_ok c ev pos → slot_ok c' ev pos.
Proof.
  intros Hf [H1 H2 H3]. constructor; [by rewrite (fa_slot _ _ _ Hf)|by eapply err_slot_frame|by eapply query_slot_frame].
Qed.

(** *** Positions *)

Lemma capacity_le : 0 < capacity ≤ 2 ^ 31.
Proof. rewrite Hcap. pose proof (pow2_pos k). assert (2 ^ k ≤ 2 ^ 31) by (apply Z.pow_le_mono_r; lia). lia. Qed.

(** Positions at most a lap apart are told apart by their 64 bits. *)
Lemma u64_window T i j : 0 ≤ i ≤ capacity → 0 ≤ j ≤ capacity → u64 (T + i) = u64 (T + j) → i = j.
Proof.
  intros Hi Hj Heq. pose proof capacity_le.
  assert (u64 (u64 (T + i) - u64 (T + j)) = i - j ∨ i < j) as [Hd|Hd].
  { destruct (decide (i < j)); [by right|left]. rewrite u64_sub_u64.
    replace (T + i - (T + j)) with (i - j) by lia. apply u64_small. unfold is_u64. lia. }
  - rewrite Heq, Z.sub_diag in Hd. change (u64 0) with 0 in Hd. lia.
  - assert (u64 (u64 (T + j) - u64 (T + i)) = j - i) as Hd'.
    { rewrite u64_sub_u64. replace (T + j - (T + i)) with (j - i) by lia. apply u64_small. unfold is_u64. lia. }
    rewrite Heq, Z.sub_diag in Hd'. change (u64 0) with 0 in Hd'. lia.
Qed.

Lemma slot_apart T i j : 0 ≤ i < capacity → 0 ≤ j < capacity → i ≠ j →
  slot_index capacity (u64 (T + i)) ≠ slot_index capacity (u64 (T + j)).
Proof.
  intros Hi Hj Hne. rewrite Hcap in *. rewrite !slot_index_u64 by done. intros Heq%slot_index_inj; done.
Qed.

Lemma slot_put pos f c : length (slots c) = Z.to_nat capacity → slot pos (put_slot capacity pos f c) = f (slot pos c).
Proof.
  intros Hl. unfold QueueConc.slot. simpl. apply list_lookup_total_alter_eq. rewrite Hl, Hcap. by apply slot_index_lt.
Qed.

Lemma slot_put_ne pos i f c : i ≠ slot_index capacity pos → slots (put_slot capacity pos f c) !!! i = slots c !!! i.
Proof. intros Hne. simpl. by apply list_lookup_total_alter_ne. Qed.

(** *** Steps of a producer that fills a slot *)

(** What such a step leaves alone. *)
Record fill_frame (p : nat) (pos : Z) (c c' : Conf) : Prop := {
  ff_cons : RingConc.c_cons (ring c') = RingConc.c_cons (ring c);
  ff_popped : RingConc.h_popped (ring c') = RingConc.h_popped (ring c);
  ff_prod q : q ≠ p → RingConc.c_prod (ring c') q = RingConc.c_prod (ring c) q;
  ff_len : length (slots c') = length (slots c);
  ff_slots i : i ≠ slot_index capacity pos → slots c' !!! i = slots c !!! i;
  ff_drain : drain c' = drain c;
  ff_out : out c' = out c;
  ff_delivered : delivered c' = delivered c;
  ff_fault : fault c' = fault c;
  ff_fill q : q ≠ p → fill c' q = fill c q;
  ff_pc q : q ≠ backend p → InternConc.c_pc (intern c') q = InternConc.c_pc (intern c) q;
  ff_err a : a ≠ pos → h_err c' !! a = h_err c !! a;
  ff_ref a : a ≠ pos → h_ref c' !! a = h_ref c !! a;
  ff_strings dp : is_Some (strings c !! dp) → strings c' !! dp = strings c !! dp;
  ff_refs r x : InternConc.c_refs (intern c) !! r = Some x → InternConc.r_user x ≠ Some (backend p) →
    InternConc.c_refs (intern c') !! r = Some x }.

Lemma fill_frame_trans p pos c1 c2 c3 : fill_frame p pos c1 c2 → fill_frame p pos c2 c3 → fill_frame p pos c1 c3.
Proof.
  intros [] []. constructor; try congruence; auto.
  - intros. rewrite ff_prod1; auto.
  - intros. rewrite ff_slots1; auto.
  - intros. rewrite ff_fill1; auto.
  - intros. rewrite ff_pc1; auto.
  - intros. rewrite ff_err1; auto.
  - intros. rewrite ff_ref1; auto.
  - intros dp Hdp. rewrite ff_strings1; [auto|]. by rewrite ff_strings0.
Qed.

(** The slot that is filled is at the head, and nothing waits there. *)
Lemma filling_head c H T queue h p n pos todo :
  queue_inv c H T queue h →
  RingConc.c_prod (ring c) p = RingConc.PFilling n pos todo ∨ RingConc.c_prod (ring c) p = RingConc.PPartial n pos todo →
  pos = u64 H ∧ 0 ≤ H - T < capacity ∧ Z.of_nat (length queue) = H - T.
Proof.
  intros Hinv Hp. pose proof (RingConc.ci_prod _ _ _ _ _ (qi_ring _ _ _ _ _ Hinv) p) as Hok.
  pose proof (RingConc.ci_order _ _ _ _ _ (qi_ring _ _ _ _ _ Hinv)).
  pose proof (RingConc.ci_queue _ _ _ _ _ (qi_ring _ _ _ _ _ Hinv)).
  destruct Hp as [Hp|Hp]; rewrite Hp in Hok; destruct Hok as [-> ?]; (split; [done|lia]).
Qed.

Lemma fill_frame_at p pos c c' H T queue h i :
  queue_inv c H T queue h → fill_frame p pos c c' → pos = u64 H → 0 ≤ i < H - T → H - T < capacity →
  frame_at (u64 (T + i)) c c'.
Proof.
  intros Hinv Hf -> Hi Hroom.
  assert (u64 (T + i) ≠ u64 H) as Hne.
  { replace H with (T + (H - T)) by lia. intros Heq%u64_window; lia. }
  assert (slot_index capacity (u64 (T + i)) ≠ slot_index capacity (u64 H)) as Hsl.
  { replace H with (T + (H - T)) by lia. apply slot_apart; lia. }
  constructor.
  - by apply (ff_slots _ _ _ _ Hf).
  - by apply (ff_err _ _ _ _ Hf).
  - by apply (ff_ref _ _ _ _ Hf).
  - intros dp Hdp. apply (ff_strings _ _ _ _ Hf). by eapply (ow_err_live _ _ _ (qi_err _ _ _ _ _ Hinv)).
  - intros r x _ Hx Hu. apply (ff_refs _ _ _ _ Hf); [done|]. by rewrite Hu.
Qed.

(** Another producer is not in the locked section. *)
Lemma others_out c H T queue p q :
  ring_inv (ring c) H T queue → RingConc.holds_lock (RingConc.c_prod (ring c) p) = true → q ≠ p →
  RingConc.holds_lock (RingConc.c_prod (ring c) q) = false.
Proof.
  intros Hinv Hp Hne. destruct (RingConc.holds_lock (RingConc.c_prod (ring c) q)) eqn:Hq; [|done].
  by destruct (Hne (RingConc.lock_exclusive _ _ _ (RingConc.ci_lock _ _ _ _ _ Hinv) Hq Hp)).
Qed.

Lemma fill_ok_out c p :
  RingConc.holds_lock (RingConc.c_prod (ring c) p) = false →
  fill_ok c p ↔ fill c p = FIdle ∧ idle c (backend p).
Proof.
  intros Hp. unfold fill_ok, filling_ok.
  destruct (RingConc.c_prod (ring c) p); try done; destruct (fill c p); naive_solver.
Qed.

Lemma releasing_frame p pos c c' ev : fill_frame p pos c c' → releasing c ev → releasing c' ev.
Proof.
  intros Hf. unfold releasing. rewrite (ff_out _ _ _ _ Hf), (ff_pc _ _ _ _ Hf) by done.
  intros [(r & x & Hpc & Hx & Hu & Ht)|Hr]; [left|by right]. exists r, x. split_and!; try done.
  apply (ff_refs _ _ _ _ Hf); [done|]. by rewrite Hu.
Qed.

(** The consumer's slot is not the one that is filled. *)
Lemma drain_frame p pos c c' H T queue h :
  queue_inv c H T queue h → fill_frame p pos c c' → pos = u64 H → H - T < capacity → drain_ok c' queue.
Proof.
  intros Hinv Hf Hpos Hroom. destruct (qi_drain _ _ _ _ _ Hinv) as [Hd Hidle]. split.
  - rewrite (ff_cons _ _ _ _ Hf).
    pose proof (RingConc.ci_cons _ _ _ _ _ (qi_ring _ _ _ _ _ Hinv)) as Hc.
    pose proof (RingConc.ci_queue _ _ _ _ _ (qi_ring _ _ _ _ _ Hinv)) as Hq.
    destruct (RingConc.c_cons (ring c)) as [| | |t x]; [by rewrite (ff_drain _ _ _ _ Hf)..|].
    destruct Hd as (n & rest & -> & Hlike & Ht). destruct Hc as [-> _]. exists n, rest. split; [done|].
    assert (frame_at (u64 T) c c') as Hfr.
    { replace T with (T + 0) by lia. eapply fill_frame_at; try done. simpl in Hq. lia. }
    split; [by rewrite (ff_out _ _ _ _ Hf)|]. rewrite (ff_drain _ _ _ _ Hf), (ff_out _ _ _ _ Hf).
    destruct (drain c); [done|..].
    + by eapply slot_ok_frame.
    + destruct Ht as (? & ? & ?). split_and!; [done|by rewrite (fa_err _ _ _ Hfr)|by eapply query_slot_frame].
    + destruct Ht as (? & ? & ?). split_and!; [done|by rewrite (fa_err _ _ _ Hfr)|by eapply query_slot_frame].
    + destruct Ht as (? & ? & ? & ?). rewrite (fa_err _ _ _ Hfr), (fa_ref _ _ _ Hfr). split_and!; try done.
      by eapply releasing_frame.
    + by rewrite (fa_err _ _ _ Hfr), (fa_ref _ _ _ Hfr).
  - rewrite (ff_drain _ _ _ _ Hf). intros Hn. unfold idle. rewrite (ff_pc _ _ _ _ Hf) by done. by apply Hidle.
Qed.

Lemma fill_assemble c c' p n pos todo H T queue h h' :
  queue_inv c H T queue h →
  RingConc.c_prod (ring c) p = RingConc.PFilling n pos todo ∨ RingConc.c_prod (ring c) p = RingConc.PPartial n pos todo →
  fill_frame p pos c c' → ring_inv (ring c') H T queue → intern_ok (intern c') h' → fill_ok c' p → err_owners c' H T →
  ref_owners c' H T → apart c' → queue_inv c' H T queue h'.
Proof.
  intros Hinv Hp Hf Hring Hint Hfill He Hr Ha. destruct (filling_head _ _ _ _ _ _ _ _ _ Hinv Hp) as (Hpos & Hroom & Hq).
  constructor; try done.
  - rewrite (ff_len _ _ _ _ Hf). apply Hinv.
  - intros i m Hi Hd. rewrite (ff_drain _ _ _ _ Hf) in Hd. pose proof (lookup_lt_Some _ _ _ Hi).
    eapply slot_ok_frame; [eapply fill_frame_at; try done; lia|by eapply qi_slots].
  - intros q. destruct (decide (q = p)) as [->|Hne]; [done|].
    assert (RingConc.holds_lock (RingConc.c_prod (ring c) q) = false) as Hout.
    { eapply others_out; [apply Hinv| |done]. by destruct Hp as [-> | ->]. }
    pose proof (proj1 (fill_ok_out _ _ Hout) (qi_fill _ _ _ _ _ Hinv q)) as [H1 H2].
    apply fill_ok_out; [by rewrite (ff_prod _ _ _ _ Hf)|]. unfold idle.
    by rewrite (ff_fill _ _ _ _ Hf), (ff_pc _ _ _ _ Hf) by (unfold backend in *; congruence).
  - eapply drain_frame; try done. lia.
  - rewrite (ff_out _ _ _ _ Hf). apply Hinv.
  - rewrite (ff_popped _ _ _ _ Hf), (ff_delivered _ _ _ _ Hf). apply Hinv.
  - rewrite (ff_fault _ _ _ _ Hf). apply Hinv.
Qed.

(** *** Owners *)

Lemma held_mono c c' H T a :
  held c H T a →
  (∀ p n todo, RingConc.c_prod (ring c) p = RingConc.PPartial n a todo ∨
               RingConc.c_prod (ring c) p = RingConc.PFilled n a todo →
     ∃ p n todo, RingConc.c_prod (ring c') p = RingConc.PPartial n a todo ∨
                 RingConc.c_prod (ring c') p = RingConc.PFilled n a todo) →
  held c' H T a.
Proof.
  intros (i & Ha & Hi & Hl) Hp. exists i. split_and!; try done; try lia.
  intros Hh. destruct (Hl Hh) as (p & n & todo & ?). eauto.
Qed.

Lemma err_owners_ext c c' H T H' T' :
  err_owners c H T → strings c' = strings c → h_err c' = h_err c → h_leaked c' = h_leaked c →
  (∀ a dp, h_err c !! a = Some dp → held c H T a → held c' H' T' a) → err_owners c' H' T'.
Proof.
  intros [H1 H2 H3 H4] E1 E2 E3 Hh. constructor; rewrite ?E1, ?E2, ?E3; try done. intros a dp Ha. eauto.
Qed.

Lemma ref_owners_ext c c' H T H' T' :
  ref_owners c H T → InternConc.c_refs (intern c') = InternConc.c_refs (intern c) →
  (∀ q, uses (InternConc.c_pc (intern c') q) = uses (InternConc.c_pc (intern c) q)) → h_ref c' = h_ref c →
  (∀ a r, h_ref c !! a = Some r → held c H T a → held c' H' T' a) → ref_owners c' H' T'.
Proof.
  intros [H1 H2 H3 H4] E1 E2 E3 Hh. constructor; rewrite ?E1, ?E3; try done; [eauto|].
  intros r Hr. destruct (H4 r Hr) as [?|[q ?]]; [by left|]. right. exists q. by rewrite E2.
Qed.

(** A position mapped in the history is that of a waiting event when the slot at the head
    is not being filled. *)
Lemma head_unheld c H T queue h p n pos todo :
  queue_inv c H T queue h → RingConc.c_prod (ring c) p = RingConc.PFilling n pos todo →
  h_err c !! pos = None ∧ h_ref c !! pos = None.
Proof.
  intros Hinv Hp. destruct (filling_head _ _ _ _ _ _ _ _ _ Hinv (or_introl Hp)) as (-> & Hroom & _).
  assert (¬ held c H T (u64 H)) as Hn.
  { intros (i & Heq & Hi & Hl). assert (i = H - T) as ->.
    { apply (u64_window T); [lia..|]. rewrite <- Heq. f_equal. lia. }
    destruct (Hl eq_refl) as (q & m & todo' & Hq). destruct (decide (q = p)) as [->|Hne].
    - rewrite Hp in Hq. by destruct Hq.
    - pose proof (others_out c H T queue p q (qi_ring _ _ _ _ _ Hinv)) as Ho. rewrite Hp in Ho.
      specialize (Ho eq_refl Hne). by destruct Hq as [Hq|Hq]; rewrite Hq in Ho. }
  split.
  - destruct (h_err c !! u64 H) as [dp|] eqn:Hd; [|done]. by apply (ow_err_pos _ _ _ (qi_err _ _ _ _ _ Hinv)) in Hd.
  - destruct (h_ref c !! u64 H) as [r|] eqn:Hr; [|done]. by apply (ow_ref_pos _ _ _ (qi_ref _ _ _ _ _ Hinv)) in Hr.
Qed.

Lemma held_head c p n pos todo H T queue h :
  queue_inv c H T queue h → RingConc.c_prod (ring c) p = RingConc.PPartial n pos todo → held c H T pos.
Proof.
  intros Hinv Hp. destruct (filling_head _ _ _ _ _ _ _ _ _ Hinv (or_intror Hp)) as (-> & Hroom & _).
  exists (H - T). split_and!; [f_equal; lia|lia|lia|]. intros _. exists p, n, todo. by left.
Qed.

(** *** The references *)

(** The references that are out belong to a position, to the consumer or to the holder of
    the lock. *)
Definition ref_holders (c : Conf) (H T : Z) : list nat :=
  omap (λ i, h_ref c !! u64 (T + i)) (seqZ 0 (H - T + 1)) ++
  option_list (uses (InternConc.c_pc (intern c) worker)) ++
  match RingConc.c_lock (ring c) with
  | RingConc.Exclusive (RingConc.HProducer p) => option_list (uses (InternConc.c_pc (intern c) (backend p)))
  | _ => []
  end.

Lemma elem_of_option_list {A} (x : A) o : x ∈ option_list o ↔ o = Some x.
Proof. destruct o; simpl; [rewrite list_elem_of_singleton; naive_solver|]. split; [by intros ?%elem_of_nil|done]. Qed.

Lemma uses_idle c q r : uses (InternConc.c_pc (intern c) q) = Some r → ¬ idle c q.
Proof. intros Hu Hi. unfold idle in Hi. by rewrite Hi in Hu. Qed.

Lemma acquire_locked c p : fill_ok c p → fill c p = FAcquire → RingConc.holds_lock (RingConc.c_prod (ring c) p) = true.
Proof. intros [Hf _] Hp. unfold filling_ok in Hf. rewrite Hp in Hf. by destruct (RingConc.c_prod (ring c) p). Qed.

Lemma ref_holders_all c H T queue h r :
  queue_inv c H T queue h → is_Some (InternConc.c_refs (intern c) !! r) → r ∈ ref_holders c H T.
Proof.
  intros Hinv Hr. unfold ref_holders. rewrite !elem_of_app, list_elem_of_omap, elem_of_option_list.
  destruct (ow_ref _ _ _ (qi_ref _ _ _ _ _ Hinv) r Hr) as [[a Ha]|[[|p] Hq]].
  - left. destruct (ow_ref_pos _ _ _ (qi_ref _ _ _ _ _ Hinv) a r Ha) as (i & -> & Hi & _). exists i.
    split; [|done]. apply elem_of_seqZ. lia.
  - by right; left.
  - right; right. destruct (qi_fill _ _ _ _ _ Hinv p) as [Hf Hidle].
    destruct (decide (fill c p = FAcquire)) as [Hp|Hp]; [|by destruct (uses_idle _ _ _ Hq (Hidle Hp))].
    pose proof (acquire_locked c p (conj Hf Hidle) Hp) as Hl.
    rewrite (proj1 (RingConc.li_prod _ (RingConc.ci_lock _ _ _ _ _ (qi_ring _ _ _ _ _ Hinv)) p) Hl).
    by apply elem_of_option_list.
Qed.

Lemma refs_size c H T queue h :
  queue_inv c H T queue h → (size (InternConc.c_refs (intern c)) ≤ length (ref_holders c H T))%nat.
Proof.
  intros Hinv. rewrite <- length_map_to_list, <- (length_fmap fst). apply submseteq_length.
  apply NoDup_submseteq; [apply NoDup_fst_map_to_list|].
  intros r ([r' x] & -> & Hx%elem_of_map_to_list)%list_elem_of_fmap. simpl. eapply ref_holders_all; eauto.
Qed.

Lemma refs_bound c H T queue h :
  queue_inv c H T queue h → Z.of_nat (size (InternConc.c_refs (intern c))) + 1 < 2 ^ 32.
Proof.
  intros Hinv. pose proof (refs_size _ _ _ _ _ Hinv) as Hs. unfold ref_holders in Hs. rewrite !length_app in Hs.
  pose proof (length_omap_le (λ i, h_ref c !! u64 (T + i)) (seqZ 0 (H - T + 1))) as Hl. rewrite length_seqZ in Hl.
  pose proof (RingConc.ci_order _ _ _ _ _ (qi_ring _ _ _ _ _ Hinv)). pose proof capacity_le.
  assert (∀ o : option nat, (length (option_list o) ≤ 1)%nat) as Ho by (intros []; simpl; lia).
  pose proof (Ho (uses (InternConc.c_pc (intern c) worker))).
  assert (length match RingConc.c_lock (ring c) with
    | RingConc.Exclusive (RingConc.HProducer p) => option_list (uses (InternConc.c_pc (intern c) (backend p)))
    | _ => [] end ≤ 1)%nat by (destruct (RingConc.c_lock (ring c)) as [|[]|]; simpl; auto).
  lia.
Qed.

(** *** Filling *)

Lemma fill_frame_set p pos pc c : fill_frame p pos c (set_fill p pc c).
Proof. constructor; simpl; try done. intros. by apply upd_other. Qed.

Lemma fill_frame_put p pos f c : fill_frame p pos c (put_slot capacity pos f c).
Proof. constructor; simpl; try done; [apply length_alter|]. intros. by apply list_lookup_total_alter_ne. Qed.

Lemma fill_frame_ring p pos c a r :
  a = RingConc.AProd p ∨ a = RingConc.AError p →
  (∃ n todo, RingConc.c_prod (ring c) p = RingConc.PFilling n pos todo ∨ RingConc.c_prod (ring c) p = RingConc.PPartial n pos todo) →
  ring_exec capacity a (ring c) = Some r → fill_frame p pos c (c <| ring := r |>).
Proof.
  intros Ha (n & todo & Hp) Hr.
  assert (RingConc.c_cons r = RingConc.c_cons (ring c) ∧ RingConc.h_popped r = RingConc.h_popped (ring c) ∧
    ∀ q, q ≠ p → RingConc.c_prod r q = RingConc.c_prod (ring c) q) as (H1 & H2 & H3).
  { unfold ring_exec in Hr. destruct Ha as [-> | ->]; simpl in Hr; unfold RingConc.prod_step, RingConc.prod_error in Hr;
      destruct Hp as [Hp|Hp]; rewrite Hp in Hr; injection Hr as <-; (split_and!; [done..|]); intros; by apply upd_other. }
  by constructor.
Qed.

(** The steps of the ring while a slot is filled leave the positions alone. *)
Lemma fill_ring_inv c p a r n pos todo H T queue h :
  queue_inv c H T queue h → a = RingConc.AProd p ∨ a = RingConc.AError p →
  RingConc.c_prod (ring c) p = RingConc.PFilling n pos todo ∨ RingConc.c_prod (ring c) p = RingConc.PPartial n pos todo →
  ring_exec capacity a (ring c) = Some r → ring_inv r H T queue.
Proof.
  intros Hinv Ha Hp Hr.
  destruct (RingConc.conc_inv_exec _ _ k Hk Hcap _ _ _ _ _ _ (qi_ring _ _ _ _ _ Hinv) Hr) as (H' & T' & q' & Hi & He).
  assert (H' = H ∧ T' = T ∧ q' = queue) as (-> & -> & ->); [|done].
  destruct Ha as [-> | ->]; simpl in He; [|done]. by destruct Hp as [Hp|Hp]; rewrite Hp in He; destruct He as (-> & -> & ->).
Qed.

(** The fixed prefix is copied. *)
Lemma fill_prefix_ok c p n pos todo r H T queue h :
  queue_inv c H T queue h → RingConc.c_prod (ring c) p = RingConc.PFilling n pos todo → fill c p = FIdle →
  ring_exec capacity (RingConc.AProd p) (ring c) = Some r →
  queue_inv (set_fill p FErr (put_slot capacity pos (λ e, e <| re_fixed := ev_fixed (event n) |>) (c <| ring := r |>)))
    H T queue h.
Proof.
  intros Hinv Hp Hf Hr. destruct (head_unheld _ _ _ _ _ _ _ _ _ Hinv Hp) as [Hne Hnr].
  assert (RingConc.c_prod r = upd (RingConc.c_prod (ring c)) p (RingConc.PPartial n pos todo)) as Hpc.
  { unfold ring_exec in Hr. simpl in Hr. unfold RingConc.prod_step in Hr. rewrite Hp in Hr. by injection Hr as <-. }
  assert (∀ a, held c H T a → held (c <| ring := r |>) H T a) as Hheld.
  { intros a Ha. eapply held_mono; [done|]. intros q m todo' Hq. exists q, m, todo'. simpl. rewrite Hpc.
    destruct (decide (q = p)) as [->|]; [rewrite Hp in Hq; by destruct Hq|by rewrite upd_other]. }
  eapply fill_assemble; [done|by left|..].
  - eapply fill_frame_trans; [by eapply (fill_frame_ring p pos c (RingConc.AProd p)); eauto|].
    eapply fill_frame_trans; [apply fill_frame_put|apply fill_frame_set].
  - eapply (fill_ring_inv c p (RingConc.AProd p)); eauto.
  - apply Hinv.
  - apply (fill_ok_partial _ _ n pos todo FErr); simpl; [by rewrite Hpc, upd_same|apply upd_same| |].
    2: { intros _. apply (qi_fill _ _ _ _ _ Hinv p). by rewrite Hf. }
    split_and!; [|done..].
    pose proof (slot_put pos (λ e, e <| re_fixed := ev_fixed (event n) |>) c (qi_len _ _ _ _ _ Hinv)) as Hs.
    unfold QueueConc.slot in *. simpl in *. by rewrite Hs.
  - apply (err_owners_ext c _ H T); try done; [apply Hinv|]. intros ????. by apply Hheld.
  - apply (ref_owners_ext c _ H T); try done; [apply Hinv|]. intros ????. by apply Hheld.
  - apply Hinv.
Qed.

Lemma like_err ev f n : like ev f → like ev (f <| err_message_len := n |>).
Proof. intros (en & qn & ->). exists n, qn. done. Qed.
Lemma like_query ev f n : like ev f → like ev (f <| query_len := n |>).
Proof. intros (en & qn & ->). exists en, n. done. Qed.
Lemma like_refl ev : like ev (ev_fixed ev).
Proof. exists (err_message_len (ev_fixed ev)), (query_len (ev_fixed ev)). by destruct (ev_fixed ev). Qed.

(** A producer that fills a slot, seen from the interner: a step of its own. *)
Lemma fill_frame_intern p pos c i h :
  intern_ok (intern c) h → moved (backend p) (intern c) i → fill_frame p pos c (c <| intern := i |>).
Proof. intros Hok [H1 H2 H3 H4 H5]. constructor; simpl; done. Qed.

(** The error message is stored, or is empty or lost. *)
Lemma store_err_none_ok c i p n pos todo H T queue h :
  queue_inv c H T queue h → RingConc.c_prod (ring c) p = RingConc.PPartial n pos todo → fill c p = FErr →
  i = intern c ∨ i = InternConc.count_oom (intern c) →
  queue_inv (set_fill p FQuery (store_err capacity (event n) pos InvalidDsaPointer (c <| intern := i |>))) H T queue h.
Proof.
  intros Hinv Hp Hf Hi. destruct (qi_fill _ _ _ _ _ Hinv p) as [Hok Hidle].
  unfold filling_ok in Hok. rewrite Hp, Hf in Hok. destruct Hok as (Hfix & Hne & Hnr).
  destruct (Hev n) as (_ & _ & Hl & _).
  eapply fill_assemble; [done|by right|..].
  - eapply fill_frame_trans; [|eapply fill_frame_trans; [apply fill_frame_put|apply fill_frame_set]].
    by destruct Hi as [-> | ->].
  - apply Hinv.
  - pose proof (qi_intern _ _ _ _ _ Hinv) as Hint. destruct Hi as [-> | ->]; [done|]. by destruct Hint.
  - apply (fill_ok_partial _ _ n pos todo FQuery); simpl; [done|apply upd_same| |].
    2: { intros _. destruct Hi as [-> | ->]; apply Hidle; by rewrite Hf. }
    pose proof (slot_put pos (λ e, let e := e <| err_message_dsa := InvalidDsaPointer |> in
      if (0 <? err_message_len (ev_fixed (event n))) && negb (DsaPointerIsValid InvalidDsaPointer)
      then set_err_message_len 0 e else e) c (qi_len _ _ _ _ _ Hinv)) as Hs.
    unfold err_slot, store_err, QueueConc.slot in *. simpl in *. rewrite Hs, Hne. rewrite andb_true_r.
    assert (like (event n) (ev_fixed (event n))) as Hlike by apply like_refl.
    destruct (Z.ltb_spec 0 (err_message_len (ev_fixed (event n)))); simpl; rewrite Hfix; (split_and!; try done).
    + by apply like_err.
    + unfold is_u16 in Hl. lia.
  - apply (err_owners_ext c _ H T); try done; apply Hinv.
  - apply (ref_owners_ext c _ H T); try done; [apply Hinv|by destruct Hi as [-> | ->]..].
  - destruct Hi as [-> | ->]; apply Hinv.
Qed.

(** A waiting position is held whatever the producers do. *)
Lemma held_waiting c c' H T a : held c H T a → a ≠ u64 H → held c' H T a.
Proof.
  intros (i & -> & Hi & _) Hne. exists i. split_and!; [done|lia|lia|]. intros ->. destruct Hne. f_equal. lia.
Qed.

Lemma slot_store_err ev pos dp c :
  length (slots c) = Z.to_nat capacity →
  slot pos (store_err capacity ev pos dp c) =
    let e := (slot pos c) <| err_message_dsa := dp |> in
    if (0 <? err_message_len (ev_fixed ev)) && negb (DsaPointerIsValid dp) then set_err_message_len 0 e else e.
Proof. intros Hl. by apply (slot_put pos). Qed.

Lemma slot_store_query ev pos dp c :
  length (slots c) = Z.to_nat capacity →
  slot pos (store_query capacity ev pos dp c) =
    let e := (slot pos c) <| query_dsa := dp |> in
    if negb (DsaPointerIsValid dp) then set_query_len 0 e else set_query_len (clamped_len ev) e.
Proof. intros Hl. by apply (slot_put pos). Qed.

(** The error message is allocated. *)
Lemma store_err_some_ok c p n pos todo dp H T queue h :
  queue_inv c H T queue h → RingConc.c_prod (ring c) p = RingConc.PPartial n pos todo → fill c p = FErr →
  strings c !! dp = None → InternConc.c_heap (intern c) !! dp = None → dp ≠ InvalidDsaPointer →
  let clamped := Z.min (err_message_len (ev_fixed (event n))) (u16 (PSCH_MAX_ERR_MSG_LEN - 1)) in
  queue_inv (set_fill p FQuery (store_err capacity (event n) pos dp
    (c <| strings ::= <[dp := take (Z.to_nat clamped) (err_message (event n)) ++ [0]]> |>
       <| h_err ::= <[pos := dp]> |>))) H T queue h.
Proof.
  intros Hinv Hp Hf Hs Hh Hv clamped. destruct (qi_fill _ _ _ _ _ Hinv p) as [Hok Hidle].
  unfold filling_ok in Hok. rewrite Hp, Hf in Hok. destruct Hok as (Hfix & Hne & Hnr).
  set (c1 := c <| strings ::= <[dp := take (Z.to_nat clamped) (err_message (event n)) ++ [0]]> |>
               <| h_err ::= <[pos := dp]> |>).
  pose proof (held_head _ _ _ _ _ _ _ _ _ Hinv Hp) as Hheld. pose proof (qi_err _ _ _ _ _ Hinv) as [O1 O2 O3 O4].
  eapply fill_assemble; [done|by right|..].
  - eapply fill_frame_trans; [|eapply fill_frame_trans; [apply fill_frame_put|apply fill_frame_set]].
    constructor; simpl; try done.
    + intros a Ha. by rewrite lookup_insert_ne.
    + intros d [b Hb]. rewrite lookup_insert_ne; congruence.
  - apply Hinv.
  - apply Hinv.
  - apply (fill_ok_partial _ _ n pos todo FQuery); [done|apply upd_same| |intros _; apply Hidle; by rewrite Hf].
    pose proof (slot_store_err (event n) pos dp c1 (qi_len _ _ _ _ _ Hinv)) as Hsl.
    apply DsaPointerIsValid_spec in Hv as Hv'. rewrite Hv', andb_false_r in Hsl. cbv zeta in Hsl.
    set (c2 := set_fill p FQuery _). change (slot pos _ = ?x) with (slot pos c2 = x) in Hsl.
    unfold partial_ok, err_slot. rewrite Hsl. simpl. rewrite lookup_insert_eq.
    change (slot pos c1) with (slot pos c). rewrite Hfix. simpl.
    split_and!; try done; [apply like_refl|]. by rewrite lookup_insert_eq.
  - constructor; simpl.
    + intros a b d. rewrite !lookup_insert_Some. intros [[<- <-]|[? Ha]] [[<- Hd]|[? Hb]]; subst; try done; eauto.
      * apply O2 in Hb as [? Hb]. congruence.
      * apply O2 in Ha as [? Ha]. congruence.
    + intros a d [[<- <-]|[? Ha]]%lookup_insert_Some; [by rewrite lookup_insert_eq|].
      rewrite lookup_insert_ne; [eauto|]. intros <-. apply O2 in Ha as [? Ha]. congruence.
    + intros a d [[<- <-]|[? Ha]]%lookup_insert_Some; [done|eauto].
    + intros d. rewrite lookup_insert. case_decide as Hd; [intros _; left; exists pos; subst; apply lookup_insert_eq|].
      intros [[a Ha]|?]%O4; [left|by right]. exists a. rewrite lookup_insert_ne; [done|]. congruence.
  - apply (ref_owners_ext c _ H T); try done; apply Hinv.
  - intros d. simpl. rewrite lookup_insert. case_decide as Hd; [subst; rewrite Hh; by intros _ []|]. apply Hinv.
Qed.

(** An error while the slot is filled. *)
Lemma raise_ok c i p n pos todo r H T queue h h' :
  queue_inv c H T queue h → RingConc.c_prod (ring c) p = RingConc.PPartial n pos todo → fill c p = FErr ∨ fill c p = FAcquire →
  intern_ok i h' → InternConc.c_refs i = InternConc.c_refs (intern c) → InternConc.c_heap i = InternConc.c_heap (intern c) →
  (∀ q, q ≠ backend p → InternConc.c_pc i q = InternConc.c_pc (intern c) q) →
  InternConc.c_pc i (backend p) = InternConc.PIdle → uses (InternConc.c_pc (intern c) (backend p)) = None →
  ring_exec capacity (RingConc.AError p) (ring c) = Some r →
  queue_inv (set_fill p FIdle (c <| intern := i |> <| ring := r |>
      <| h_leaked ::= (λ l, match h_err c !! pos with Some dp => dp :: l | None => l end) |>
      <| h_err ::= delete pos |>)) H T queue h'.
Proof.
  intros Hinv Hp Hf Hi Erefs Eheap Epc Hidle Hu Hr.
  destruct (qi_fill _ _ _ _ _ Hinv p) as [Hok _]. unfold filling_ok in Hok. rewrite Hp in Hok.
  assert (h_ref c !! pos = None) as Hnr.
  { destruct Hf as [Hf|Hf]; rewrite Hf in Hok; [by destruct Hok as (_ & _ & ?)|by destruct Hok as (_ & _ & ? & _)]. }
  destruct (filling_head _ _ _ _ _ _ _ _ _ Hinv (or_intror Hp)) as (Hpos & Hroom & _).
  assert (RingConc.c_prod r = upd (RingConc.c_prod (ring c)) p RingConc.PUnlock) as Hpc.
  { unfold ring_exec in Hr. simpl in Hr. unfold RingConc.prod_error in Hr. rewrite Hp in Hr. by injection Hr as <-. }
  pose proof (qi_err _ _ _ _ _ Hinv) as [O1 O2 O3 O4].
  eapply fill_assemble; [done|by right|..].
  - eapply fill_frame_trans; [by eapply (fill_frame_ring p pos c (RingConc.AError p)); eauto|].
    eapply fill_frame_trans; [|apply fill_frame_set]. constructor; simpl; try done.
    + intros a Ha. by rewrite lookup_delete_ne.
    + by rewrite Erefs.
  - eapply (fill_ring_inv c p (RingConc.AError p)); eauto.
  - done.
  - split; [|by intros _]. unfold filling_ok. simpl. by rewrite Hpc, !upd_same.
  - constructor; simpl.
    + intros a b d [_ Ha]%lookup_delete_Some [_ Hb]%lookup_delete_Some. eauto.
    + intros a d [_ Ha]%lookup_delete_Some. eauto.
    + intros a d [Hne Ha]%lookup_delete_Some. eapply held_waiting; [by eapply O3|congruence].
    + intros d [[a Ha]|Hl]%O4.
      * destruct (decide (a = pos)) as [->|Hne]; [right; rewrite Ha; apply elem_of_cons; by left|].
        left. exists a. by rewrite lookup_delete_ne.
      * right. destruct (h_err c !! pos); [apply elem_of_cons; by right|done].
  - apply (ref_owners_ext c _ H T); try done; [apply Hinv| |].
    + intros q. simpl. destruct (decide (q = backend p)) as [->|Hne]; [by rewrite Hidle, Hu|by rewrite Epc].
    + intros a r' Ha Hheld. eapply held_waiting; [done|]. congruence.
  - intros d. simpl. rewrite Eheap. apply Hinv.
Qed.


Lemma intern_exec_ok c a i H T queue h :
  queue_inv c H T queue h → intern_exec a (intern c) = Some i → ∃ h', intern_ok i h'.
Proof.
  intros Hinv Hi. eapply (InternConcThms.exec_ok PSCH_MAX_QUERY_LEN a _ _ h); [done|apply Hinv|by eapply refs_bound|exact Hi].
Qed.

(** The call of the interner, or none when the query is empty. *)
Lemma query_call_ok c i p n pos todo H T queue h :
  queue_inv c H T queue h → RingConc.c_prod (ring c) p = RingConc.PPartial n pos todo → fill c p = FQuery →
  let ev := event n in
  intern_exec (InternConc.AAcquire (backend p) (dbid (identity (ev_fixed ev))) (queryid (identity (ev_fixed ev)))
    (query ev) (clamped_len ev)) (intern c) = Some i →
  ∃ h', queue_inv (set_fill p FAcquire (c <| intern := i |>)) H T queue h'.
Proof.
  intros Hinv Hp Hf ev Hi. destruct (qi_fill _ _ _ _ _ Hinv p) as [Hok _]. unfold filling_ok in Hok. rewrite Hp, Hf in Hok.
  destruct (intern_exec_ok _ _ _ _ _ _ _ Hinv Hi) as [h' Hint].
  destruct (acquire_call_moves _ _ _ _ _ _ _ Hi) as (Hidle & Erefs & Eheap & Epc & Hu & Hac).
  exists h'. eapply fill_assemble; [done|by right|..].
  - eapply fill_frame_trans; [|apply fill_frame_set]. constructor; simpl; try done. by rewrite Erefs.
  - apply Hinv.
  - done.
  - destruct Hok as (H1 & _ & H2 & H3). apply (fill_ok_partial _ _ n pos todo FAcquire); [done|apply upd_same| |done].
    by split_and!.
  - apply (err_owners_ext c _ H T); try done; apply Hinv.
  - apply (ref_owners_ext c _ H T); try done; [apply Hinv|]. intros q. simpl.
    destruct (decide (q = backend p)) as [->|Hne]; [by rewrite Hu, Hidle|by rewrite Epc].
  - intros d. simpl. rewrite Eheap. apply Hinv.
Qed.

Lemma query_empty_ok c p n pos todo H T queue h :
  queue_inv c H T queue h → RingConc.c_prod (ring c) p = RingConc.PPartial n pos todo → fill c p = FQuery →
  query_len (ev_fixed (event n)) = 0 →
  queue_inv (set_fill p FDone (put_slot capacity pos (λ e, e <| query_dsa := InvalidDsaPointer |>) c)) H T queue h.
Proof.
  intros Hinv Hp Hf Hz. destruct (qi_fill _ _ _ _ _ Hinv p) as [Hok Hidle]. unfold filling_ok in Hok. rewrite Hp, Hf in Hok.
  destruct Hok as (H1 & Hl & H2 & H3).
  eapply fill_assemble; [done|by right|..].
  - eapply fill_frame_trans; [apply fill_frame_put|apply fill_frame_set].
  - apply Hinv.
  - apply Hinv.
  - apply (fill_ok_partial _ _ n pos todo FDone); [done|apply upd_same| |intros _; apply Hidle; by rewrite Hf].
    pose proof (slot_put pos (λ e, e <| query_dsa := InvalidDsaPointer |>) c (qi_len _ _ _ _ _ Hinv)) as Hsl.
    set (c2 := set_fill p FDone _). change (slot pos _ = ?x) with (slot pos c2 = x) in Hsl.
    constructor; unfold err_slot, query_slot; rewrite Hsl; simpl; [done|exact H2|]. rewrite H3. simpl. by rewrite Hl, Hz.
  - apply (err_owners_ext c _ H T); try done; apply Hinv.
  - apply (ref_owners_ext c _ H T); try done; apply Hinv.
  - apply Hinv.
Qed.

Lemma returned_uses pc r : InternConc.returned pc = Some r → uses pc = Some r.
Proof. destruct pc as [| | | | | | | |q result [d|]| | | | | | |]; simpl; congruence. Qed.

(** What the references of the positions and of the calls in progress are after a step
    of the interner. *)
Lemma ref_moved c i p H T queue h r :
  queue_inv c H T queue h → moved p (intern c) i → is_Some (InternConc.c_refs i !! r) →
  (∃ a, h_ref c !! a = Some r) ∨ (∃ q, uses (InternConc.c_pc i q) = Some r) ∨
  (InternConc.c_pc i p = InternConc.PIdle ∧ InternConc.returned (InternConc.c_pc (intern c) p) = Some r).
Proof.
  intros Hinv [M1 M2 M3 M4 M5] Hr. destruct (M3 r Hr) as [Hold|?]; [|right; left; by exists p].
  destruct (ow_ref _ _ _ (qi_ref _ _ _ _ _ Hinv) r Hold) as [?|[q Hq]]; [by left|right].
  destruct (decide (q = p)) as [->|Hne]; [|left; exists q; by rewrite M1].
  destruct (M4 r Hq) as [?|[?|Hn]]; [left; by exists p|by right|]. rewrite Hn in Hr. by destruct Hr.
Qed.

Lemma free_kept c i p H T queue h a r :
  queue_inv c H T queue h → moved p (intern c) i → h_ref c !! a = Some r →
  ∃ x, InternConc.c_refs i !! r = Some x ∧ InternConc.r_user x = None.
Proof.
  intros Hinv Hm Ha. destruct (ow_ref_free _ _ _ (qi_ref _ _ _ _ _ Hinv) a r Ha) as (x & Hx & Hu). exists x.
  split; [|done]. apply (mv_keep _ _ _ Hm); [done|]. by rewrite Hu.
Qed.

Lemma apart_moved c i p H T queue h dp :
  queue_inv c H T queue h → moved p (intern c) i → is_Some (strings c !! dp) →
  is_Some (InternConc.c_heap i !! dp) → False.
Proof. intros Hinv Hm Hs Hh. by apply (qi_apart _ _ _ _ _ Hinv dp Hs), (mv_heap _ _ _ Hm). Qed.

(** A step of the interner that does not end the call. *)
Lemma acquire_goes_on c i p n pos todo H T queue h h' :
  queue_inv c H T queue h → RingConc.c_prod (ring c) p = RingConc.PPartial n pos todo → fill c p = FAcquire →
  intern_ok i h' → moved (backend p) (intern c) i → acquiring (query_of (event n)) i (backend p) →
  queue_inv (c <| intern := i |>) H T queue h'.
Proof.
  intros Hinv Hp Hf Hint Hm Hac. destruct (qi_fill _ _ _ _ _ Hinv p) as [Hok Hidle].
  unfold filling_ok in Hok. rewrite Hp, Hf in Hok. destruct Hok as (H1 & H2 & H3 & _).
  eapply fill_assemble; [done|by right|..].
  - eapply fill_frame_intern; [apply Hinv|done].
  - apply Hinv.
  - done.
  - apply (fill_ok_partial _ _ n pos todo FAcquire); [done|done| |done]. by split_and!.
  - apply (err_owners_ext c _ H T); try done; apply Hinv.
  - pose proof (qi_ref _ _ _ _ _ Hinv) as [O1 O2 O3 O4]. constructor; simpl; [done|..|done|].
    + intros a r Ha. by eapply free_kept.
    + intros r Hr. destruct (ref_moved _ _ _ _ _ _ _ r Hinv Hm Hr) as [?|[?|[Hi _]]]; [by left|by right|].
      pose proof (aq_in _ _ _ Hac) as Hin. rewrite Hi in Hin. done.
  - intros d. simpl. by eapply apart_moved.
Qed.

(** The step that ends it. *)
Lemma acquire_returns c i p n pos todo H T queue h h' result :
  queue_inv c H T queue h → RingConc.c_prod (ring c) p = RingConc.PPartial n pos todo → fill c p = FAcquire →
  intern_ok i h' → moved (backend p) (intern c) i → InternConc.c_pc i (backend p) = InternConc.PIdle →
  result = InternConc.returned (InternConc.c_pc (intern c) (backend p)) → result_ok (query_of (event n)) i result →
  queue_inv (set_fill p FDone (keep_query capacity (event n) pos result (c <| intern := i |>))) H T queue h'.
Proof.
  intros Hinv Hp Hf Hint Hm Hidle Hret Hres. destruct (qi_fill _ _ _ _ _ Hinv p) as [Hok _].
  unfold filling_ok in Hok. rewrite Hp, Hf in Hok. destruct Hok as (H1 & H2 & H3 & _).
  pose proof (qi_ref _ _ _ _ _ Hinv) as [O1 O2 O3 O4].
  eapply fill_assemble; [done|by right|..].
  - eapply fill_frame_trans; [by eapply fill_frame_intern; [apply Hinv|]|].
    eapply fill_frame_trans; [|apply fill_frame_set]. destruct result as [r|]; [|apply fill_frame_put].
    eapply fill_frame_trans; [apply fill_frame_put|]. constructor; simpl; try done. intros a Ha. by rewrite lookup_insert_ne.
  - by destruct result; apply Hinv.
  - by destruct result.
  - apply (fill_ok_partial _ _ n pos todo FDone); [by destruct result|by destruct result; apply upd_same| |by destruct result].
    pose proof (slot_store_query (event n) pos) as Hsl. destruct result as [r|]; simpl in Hres.
    + destruct Hres as (x & Hx & Hu & Ht). pose proof (Hsl (InternConc.pointer i r) (c <| intern := i |>) (qi_len _ _ _ _ _ Hinv)) as Hs.
      assert (InternConc.pointer i r = InternConc.r_ptr x) as Hptr by (unfold InternConc.pointer; by rewrite Hx).
      destruct (InternConcThms.table_ref _ _ _ _ _ _ (InternConcThms.co_table _ _ _ Hint) Hx) as (_ & _ & _ & _ & _ & _ & _ & Hv).
      rewrite Hptr in Hs. apply DsaPointerIsValid_spec in Hv. rewrite Hv in Hs.
      set (c2 := set_fill p FDone _). 
      assert (slot pos c2 = set_query_len (clamped_len (event n)) ((slot pos c) <| query_dsa := InternConc.r_ptr x |>)) as Hs2.
      { rewrite <- Hptr in *. exact Hs. }
      constructor; unfold err_slot, query_slot; rewrite Hs2; simpl; [by apply like_query|exact H2|].
      rewrite lookup_insert_eq. split; [done|]. by exists x.
    + pose proof (Hsl InvalidDsaPointer (c <| intern := i |>) (qi_len _ _ _ _ _ Hinv)) as Hs.
      set (c2 := set_fill p FDone _). change (slot pos _ = ?x) with (slot pos c2 = x) in Hs.
      constructor; unfold err_slot, query_slot; rewrite Hs; simpl; [by apply like_query|exact H2|by rewrite H3].
  - by destruct result; apply (err_owners_ext c _ H T); try done; apply Hinv.
  - assert (∀ r, is_Some (InternConc.c_refs i !! r) →
      (∃ a, h_ref c !! a = Some r) ∨ (∃ q, uses (InternConc.c_pc i q) = Some r) ∨ result = Some r) as Hown.
    { intros r Hr. destruct (ref_moved _ _ _ _ _ _ _ r Hinv Hm Hr) as [?|[?|[_ Hi]]]; [by left|by right; left|].
      right; right. congruence. }
    destruct result as [r|]; constructor; simpl; try done; try (intros a r' Ha; by eapply free_kept).
    + assert (∀ a, h_ref c !! a ≠ Some r) as Hnew.
      { intros a (x & Hx & Hu)%O2. destruct (InternConcThms.uo_user _ _ _ (InternConcThms.co_users _ _ _ (qi_intern _ _ _ _ _ Hinv)) (backend p) r)
          as (y & Hy & Hy'); [by apply returned_uses|]. congruence. }
      intros a b r'. rewrite !lookup_insert_Some. intros [[<- <-]|[? Ha]] [[<- Hb]|[? Hb]]; subst; try done; eauto.
      * by destruct (Hnew b).
      * by destruct (Hnew a).
    + intros a r'. rewrite lookup_insert_Some. intros [[<- <-]|[? Ha]]; [|by eapply free_kept].
      destruct Hres as (x & Hx & Hu & _). eauto.
    + intros a r' [[<- <-]|[? Ha]]%lookup_insert_Some; [by eapply (held_head c)|by eapply O3].
    + intros r' Hr. destruct (Hown r' Hr) as [[a Ha]|[?|[= ->]]]; [left|by right|left; exists pos; by rewrite lookup_insert_eq].
      exists a. rewrite lookup_insert_ne; [done|]. congruence.
    + intros r' Hr. destruct (Hown r' Hr) as [?|[?|?]]; [by left|by right|done].
  - intros d. destruct result; simpl; by eapply apart_moved.
Qed.

(** The allocator gives memory for the interned object. *)
Lemma acquire_allocates c i p n pos todo dp H T queue h h' :
  queue_inv c H T queue h → RingConc.c_prod (ring c) p = RingConc.PPartial n pos todo → fill c p = FAcquire →
  intern_ok i h' → strings c !! dp = None → InternConc.alloc_step (backend p) (AllocOk dp) (intern c) = Some i →
  queue_inv (c <| intern := i |>) H T queue h'.
Proof.
  intros Hinv Hp Hf Hint Hs Hi. destruct (qi_fill _ _ _ _ _ Hinv p) as [Hok _].
  unfold filling_ok in Hok. rewrite Hp, Hf in Hok. destruct Hok as (H1 & H2 & H3 & Hac).
  destruct (alloc_moves _ _ _ _ Hi) as (q & Hq & Erefs & Epc & Eheap & Eq & _).
  eapply fill_assemble; [done|by right|..].
  - constructor; simpl; try done. by rewrite Erefs.
  - apply Hinv.
  - done.
  - apply (fill_ok_partial _ _ n pos todo FAcquire); [done|done| |done]. split_and!; [done..|].
    destruct Hac as [A1 A2 A3]. rewrite Hq in *. constructor; simpl; by rewrite Eq.
  - apply (err_owners_ext c _ H T); try done; apply Hinv.
  - apply (ref_owners_ext c _ H T); try done; [apply Hinv|]. intros q'. simpl.
    destruct (decide (q' = backend p)) as [->|Hne]; [by rewrite Eq, Hq|by rewrite Epc].
  - intros d. simpl. intros Hd. rewrite Eheap, lookup_insert. case_decide as Heq; [subst; rewrite Hs in Hd; by destruct Hd|].
    by apply Hinv.
Qed.

Lemma alloc_fails_moved c i p outcome h :
  intern_ok c h → match outcome with AllocOk _ => False | _ => True end →
  InternConc.alloc_step p outcome c = Some i →
  moved p c i ∧ InternConc.c_pc i p = InternConc.PIdle ∧ uses (InternConc.c_pc c p) = None ∧
  InternConc.c_refs i = InternConc.c_refs c ∧ InternConc.c_heap i = InternConc.c_heap c ∧
  InternConc.returned (InternConc.c_pc c p) = None.
Proof.
  intros Hok Ho Hi. destruct (alloc_moves _ _ _ _ Hi) as (q & Hq & Erefs & Epc & Hout).
  destruct outcome as [d| |]; [done|..]; destruct Hout as [Eheap Eq]; rewrite Hq; (split_and!; try done);
    (constructor; rewrite ?Erefs, ?Eheap, ?Eq, ?Hq; try done; auto).
Qed.

(** The slot is complete. *)
Lemma fill_done_ok c p n pos todo r H T queue h :
  queue_inv c H T queue h → RingConc.c_prod (ring c) p = RingConc.PPartial n pos todo → fill c p = FDone →
  ring_exec capacity (RingConc.AProd p) (ring c) = Some r → queue_inv (set_fill p FIdle (c <| ring := r |>)) H T queue h.
Proof.
  intros Hinv Hp Hf Hr. destruct (qi_fill _ _ _ _ _ Hinv p) as [Hok Hidle].
  unfold filling_ok in Hok. rewrite Hp, Hf in Hok. simpl in Hok.
  assert (RingConc.c_prod r = upd (RingConc.c_prod (ring c)) p (RingConc.PFilled n pos todo)) as Hpc.
  { unfold ring_exec in Hr. simpl in Hr. unfold RingConc.prod_step in Hr. rewrite Hp in Hr. by injection Hr as <-. }
  assert (∀ a, held c H T a → held (c <| ring := r |>) H T a) as Hheld.
  { intros a Ha. eapply held_mono; [done|]. intros q m todo' Hq. simpl. rewrite Hpc.
    destruct (decide (q = p)) as [->|]; [|exists q, m, todo'; by rewrite upd_other].
    rewrite Hp in Hq. destruct Hq as [[= <- <- <-]|]; [|done]. exists p, n, todo. right. by rewrite upd_same. }
  eapply fill_assemble; [done|by right|..].
  - eapply fill_frame_trans; [by eapply (fill_frame_ring p pos c (RingConc.AProd p)); eauto|apply fill_frame_set].
  - eapply (fill_ring_inv c p (RingConc.AProd p)); eauto.
  - apply Hinv.
  - split; [|intros _; apply Hidle; by rewrite Hf]. unfold filling_ok. simpl. rewrite Hpc, !upd_same.
    split; [|done]. eapply slot_ok_frame; [|exact Hok]. by constructor.
  - apply (err_owners_ext c _ H T); try done; [apply Hinv|]. intros ????. by apply Hheld.
  - apply (ref_owners_ext c _ H T); try done; [apply Hinv|]. intros ????. by apply Hheld.
  - apply Hinv.
Qed.

Lemma option_map_Some {A B} (f : A → B) o y : option_map f o = Some y → ∃ x, o = Some x ∧ y = f x.
Proof. destruct o; simpl; [intros [= <-]; eauto|done]. Qed.

Lemma ring_move_Some a c c' : ring_move capacity a c = Some c' → ∃ r, ring_exec capacity a (ring c) = Some r ∧ c' = c <| ring := r |>.
Proof. unfold ring_move. destruct (ring_exec _ a (ring c)); [intros [= <-]; eauto|done]. Qed.

Lemma intern_move_Some a c c' : intern_move a c = Some c' → ∃ i, intern_exec a (intern c) = Some i ∧ c' = c <| intern := i |>.
Proof. unfold intern_move. destruct (intern_exec a (intern c)); [intros [= <-]; eauto|done]. Qed.

Lemma fill_step_ok c c' p H T queue h :
  queue_inv c H T queue h → fill_step capacity event p c = Some c' → ∃ h', queue_inv c' H T queue h'.
Proof.
  intros Hinv Hs. unfold fill_step, filling in Hs. destruct (RingConc.c_prod (ring c) p) eqn:Hp; try done.
  - destruct (fill c p) eqn:Hf; try done. apply option_map_Some in Hs as (c1 & Hm & ->).
    apply ring_move_Some in Hm as (r & Hr & ->). exists h. by eapply fill_prefix_ok.
  - destruct (fill c p) eqn:Hf; try done.
    + destruct (_ =? 0); [|done]. injection Hs as <-. exists h.
      pose proof (store_err_none_ok c (intern c) p ev h0 todo H T queue h Hinv Hp Hf (or_introl eq_refl)) as Hi. by destruct c.
    + destruct (Z.ltb_spec 0 (query_len (ev_fixed (event ev)))) as [|Hz].
      * apply option_map_Some in Hs as (c1 & Hm & ->). apply intern_move_Some in Hm as (i & Hi & ->).
        by eapply query_call_ok.
      * injection Hs as <-. exists h. destruct (Hev ev) as (_ & _ & _ & [? _]). eapply query_empty_ok; try done. lia.
    + apply option_map_Some in Hs as (c1 & Hm & ->). apply intern_move_Some in Hm as (i & Hi & ->).
      destruct (intern_exec_ok _ _ _ _ _ _ _ Hinv Hi) as [h' Hint]. exists h'.
      pose proof (qi_intern _ _ _ _ _ Hinv) as Hok. pose proof (proc_step_moved _ _ _ _ Hok Hi) as Hmv.
      assert (acquiring (query_of (event ev)) (intern c) (backend p)) as Hac.
      { destruct (qi_fill _ _ _ _ _ Hinv p) as [Hfl _]. unfold filling_ok in Hfl. rewrite Hp, Hf in Hfl. apply Hfl. }
      unfold acquired. simpl. destruct (acquiring_step _ _ _ _ _ Hok Hac Hi) as [Hac'|[Hpc Hres]].
      * pose proof (aq_in _ _ _ Hac') as Hin. pose proof (acquire_goes_on c i p ev h0 todo H T queue h h') as Hgo.
        destruct (InternConc.c_pc i (backend p)); [done|by apply Hgo..].
      * rewrite Hpc. by eapply acquire_returns.
    + apply option_map_Some in Hs as (c1 & Hm & ->). apply ring_move_Some in Hm as (r & Hr & ->). exists h.
      by eapply fill_done_ok.
Qed.

Lemma fill_alloc_ok c c' p outcome H T queue h :
  queue_inv c H T queue h → fill_alloc capacity event p outcome c = Some c' → ∃ h', queue_inv c' H T queue h'.
Proof.
  intros Hinv Hs. unfold fill_alloc, filling in Hs.
  destruct (RingConc.c_prod (ring c) p) as [| | | | | | | | | | | | |ev pos todo| | |] eqn:Hp; try done.
  pose proof (qi_intern _ _ _ _ _ Hinv) as Hok. destruct (fill c p) eqn:Hf; try done.
  - destruct (_ =? 0); [done|]. unfold alloc_err in Hs. destruct outcome as [dp| |].
    + destruct (strings c !! dp) eqn:Hd; [done|]. destruct (InternConc.c_heap (intern c) !! dp) eqn:Hh; [done|].
      destruct (DsaPointerIsValid dp) eqn:Hv; [|done]. injection Hs as <-. exists h. apply DsaPointerIsValid_spec in Hv.
      by eapply store_err_some_ok.
    + injection Hs as <-. exists h. eapply (store_err_none_ok c); eauto.
    + unfold raise_from in Hs. apply option_map_Some in Hs as (c1 & Hm & ->). apply ring_move_Some in Hm as (r & Hr & ->).
      exists h. destruct (qi_fill _ _ _ _ _ Hinv p) as [_ Hidle]. specialize (Hidle ltac:(by rewrite Hf)).
      pose proof (raise_ok c (intern c) p ev pos todo r H T queue h h Hinv Hp (or_introl Hf) Hok eq_refl eq_refl
        (λ _ _, eq_refl) Hidle) as Hr'. rewrite Hidle in Hr'. specialize (Hr' eq_refl Hr). by destruct c.
  - destruct outcome as [dp| |].
    + destruct (strings c !! dp) eqn:Hd; [done|]. apply intern_move_Some in Hs as (i & Hi & ->).
      destruct (intern_exec_ok _ _ _ _ _ _ _ Hinv Hi) as [h' Hint]. exists h'. by eapply acquire_allocates.
    + apply option_map_Some in Hs as (c1 & Hm & ->). apply intern_move_Some in Hm as (i & Hi & ->).
      destruct (intern_exec_ok _ _ _ _ _ _ _ Hinv Hi) as [h' Hint]. exists h'.
      destruct (alloc_fails_moved _ _ _ AllocOom _ Hok I Hi) as (Hmv & Hpc & _ & _ & _ & Hret).
      unfold acquired. cbn -[keep_query set_fill]. rewrite Hpc.
      by apply (acquire_returns c i p ev pos todo H T queue h h' None).
    + destruct (intern_move _ c) as [c1|] eqn:Hm; [|done]. apply intern_move_Some in Hm as (i & Hi & ->).
      destruct (intern_exec_ok _ _ _ _ _ _ _ Hinv Hi) as [h' Hint].
      destruct (alloc_fails_moved _ _ _ AllocError _ Hok I Hi) as (Hmv & Hpc & Hu & Erefs & Eheap & _).
      unfold raise_from in Hs. apply option_map_Some in Hs as (c2 & Hm & ->). apply ring_move_Some in Hm as (r & Hr & ->).
      exists h'. eapply (raise_ok c i); eauto. by destruct (alloc_moves _ _ _ _ Hi) as (_ & _ & _ & ? & _).
Qed.

(** *** Steps of the consumer that takes a slot *)

(** What such a step leaves alone. *)
Record drain_keeps (pos : Z) (c c' : Conf) : Prop := {
  df_prod : RingConc.c_prod (ring c') = RingConc.c_prod (ring c);
  df_slots : slots c' = slots c;
  df_fill : fill c' = fill c;
  df_pc q : q ≠ worker → InternConc.c_pc (intern c') q = InternConc.c_pc (intern c) q;
  df_err a : a ≠ pos → h_err c' !! a = h_err c !! a;
  df_ref a : a ≠ pos → h_ref c' !! a = h_ref c !! a;
  df_strings a dp : a ≠ pos → h_err c !! a = Some dp → strings c' !! dp = strings c !! dp;
  df_refs r x : InternConc.c_refs (intern c) !! r = Some x → InternConc.r_user x ≠ Some worker → h_ref c !! pos ≠ Some r →
    InternConc.c_refs (intern c') !! r = Some x }.

Lemma drain_frame_at pos c c' H T queue h a :
  queue_inv c H T queue h → drain_keeps pos c c' → a ≠ pos → frame_at a c c'.
Proof.
  intros Hinv Hf Hne. constructor.
  - unfold QueueConc.slot. by rewrite (df_slots _ _ _ Hf).
  - by apply (df_err _ _ _ Hf).
  - by apply (df_ref _ _ _ Hf).
  - intros dp Hd. by eapply (df_strings _ _ _ Hf).
  - intros r x Hr Hx Hu. apply (df_refs _ _ _ Hf); [done|by rewrite Hu|]. intros Hp.
    by apply Hne, (ow_ref_inj _ _ _ (qi_ref _ _ _ _ _ Hinv) a pos r).
Qed.

Lemma acquiring_frame pos c c' p q H T queue h :
  queue_inv c H T queue h → drain_keeps pos c c' → acquiring q (intern c) (backend p) → acquiring q (intern c') (backend p).
Proof.
  intros Hinv Hf [A1 A2 A3]. pose proof (df_pc _ _ _ Hf (backend p) ltac:(done)) as Hpc. constructor; rewrite Hpc; try done.
  intros r Hr. destruct (A3 r Hr) as (x & Hx & Hu & Ht). exists x. split_and!; try done.
  apply (df_refs _ _ _ Hf); [done|by rewrite Hu|]. intros (y & Hy & Hn)%(ow_ref_free _ _ _ (qi_ref _ _ _ _ _ Hinv)). congruence.
Qed.

(** The slot that is filled is not the consumer's. *)
Lemma drain_fill_ok c c' p H T queue h :
  queue_inv c H T queue h → drain_keeps (u64 T) c c' → T < H → fill_ok c' p.
Proof.
  intros Hinv Hf Hlt. destruct (qi_fill _ _ _ _ _ Hinv p) as [Hok Hidle].
  pose proof (RingConc.ci_prod _ _ _ _ _ (qi_ring _ _ _ _ _ Hinv) p) as Hp.
  pose proof (RingConc.ci_order _ _ _ _ _ (qi_ring _ _ _ _ _ Hinv)) as Hord.
  assert (∀ pos, pos = u64 H → frame_at pos c c') as Hfr.
  { intros pos ->. eapply drain_frame_at; try done. replace H with (T + (H - T)) by lia.
    rewrite <- (Z.add_0_r T) at 3. intros Heq%u64_window; lia. }
  split.
  - unfold filling_ok in *. rewrite (df_prod _ _ _ Hf), (df_fill _ _ _ Hf).
    destruct (RingConc.c_prod (ring c) p) as [| | | | | | | | | | | | |n pos todo|n pos todo| |]; try done.
    + destruct Hp as [Hpos _]. specialize (Hfr pos Hpos). unfold partial_ok in *.
      destruct (fill c p); rewrite ?(fa_slot _ _ _ Hfr), ?(fa_err _ _ _ Hfr), ?(fa_ref _ _ _ Hfr); try done.
      * destruct Hok as (? & ? & ? & ?). split_and!; try done. by eapply err_slot_frame.
      * destruct Hok as (? & ? & ? & ?). split_and!; try done; [by eapply err_slot_frame|by eapply acquiring_frame].
      * by eapply slot_ok_frame.
    + destruct Hp as (Hpos & _). specialize (Hfr pos Hpos). destruct Hok as [? ?]. split; [|done]. by eapply slot_ok_frame.
  - rewrite (df_fill _ _ _ Hf). intros Hn. unfold idle. rewrite (df_pc _ _ _ Hf) by done. by apply Hidle.
Qed.

Lemma drain_assemble c c' H T queue h h' :
  queue_inv c H T queue h → T < H → drain_keeps (u64 T) c c' → drain c' ≠ DIdle → ring_inv (ring c') H T queue →
  intern_ok (intern c') h' → drain_ok c' queue → fault c' = false →
  length (err_message (out c')) = length (err_message (out c)) → length (query (out c')) = length (query (out c)) →
  RingConc.h_popped (ring c') = RingConc.h_popped (ring c) → delivered c' = delivered c →
  err_owners c' H T → ref_owners c' H T → apart c' → queue_inv c' H T queue h'.
Proof.
  intros Hinv Hlt Hf Hd Hring Hint Hdr Hfault Hl1 Hl2 Epop Edel He Hr Ha.
  pose proof (RingConc.ci_order _ _ _ _ _ (qi_ring _ _ _ _ _ Hinv)) as Hord.
  pose proof (RingConc.ci_queue _ _ _ _ _ (qi_ring _ _ _ _ _ Hinv)) as Hq. constructor; try done.
  - rewrite (df_slots _ _ _ Hf). apply Hinv.
  - intros i n Hi [Hne|?]; [|done]. pose proof (lookup_lt_Some _ _ _ Hi).
    eapply slot_ok_frame; [eapply drain_frame_at; try done|eapply qi_slots; [done..|by left]].
    rewrite <- (Z.add_0_r T) at 2. intros Heq%u64_window; lia.
  - intros p. by eapply drain_fill_ok.
  - destruct (qi_out _ _ _ _ _ Hinv). by rewrite Hl1, Hl2.
  - rewrite Epop, Edel. apply Hinv.
Qed.

(** The consumer is at the first waiting event. *)
Lemma taking c H T queue h pos x :
  queue_inv c H T queue h → RingConc.c_cons (ring c) = RingConc.CCopied pos x →
  pos = u64 T ∧ T < H ∧ ∃ n rest, queue = n :: rest ∧ taking_ok c (event n) (u64 T).
Proof.
  intros Hinv Hc. destruct (qi_drain _ _ _ _ _ Hinv) as [Hd _]. rewrite Hc in Hd. destruct Hd as (n & rest & -> & Ht).
  pose proof (RingConc.ci_cons _ _ _ _ _ (qi_ring _ _ _ _ _ Hinv)) as Hk'. rewrite Hc in Hk'. destruct Hk' as [-> _].
  pose proof (RingConc.ci_queue _ _ _ _ _ (qi_ring _ _ _ _ _ Hinv)) as Hq. simpl in Hq.
  split_and!; [done|lia|]. by exists n, rest.
Qed.

Lemma drain_ok_taking c n rest pos x :
  RingConc.c_cons (ring c) = RingConc.CCopied pos x → taking_ok c (event n) pos → (drain c ≠ DRelease → idle c worker) →
  drain_ok c (n :: rest).
Proof. intros Hc Ht Hi. split; [|done]. rewrite Hc. by exists n, rest. Qed.

(** The prefix is copied. *)
Lemma drain_copy_ok c r pos H T queue h :
  queue_inv c H T queue h → RingConc.c_cons (ring c) = RingConc.CCopy pos → drain c = DIdle →
  ring_exec capacity RingConc.ACons (ring c) = Some r →
  queue_inv (c <| ring := r |> <| out ::= (λ o, o <| ev_fixed := re_fixed (slot pos c) |>) |> <| drain := DErr |>) H T queue h.
Proof.
  intros Hinv Hc Hd Hr.
  destruct (RingConc.conc_inv_exec _ _ k Hk Hcap _ _ _ _ _ _ (qi_ring _ _ _ _ _ Hinv) Hr) as (H' & T' & q' & Hi & He).
  simpl in He. rewrite Hc in He. destruct He as (-> & -> & ->).
  pose proof (RingConc.ci_cons _ _ _ _ _ (qi_ring _ _ _ _ _ Hinv)) as Hcons. rewrite Hc in Hcons. destruct Hcons as [-> Hlt].
  assert (RingConc.c_prod r = RingConc.c_prod (ring c) ∧ RingConc.h_popped r = RingConc.h_popped (ring c) ∧
    ∃ x, RingConc.c_cons r = RingConc.CCopied (u64 T) x) as (Hprod & Hpop & x & Hcr).
  { unfold ring_exec in Hr. simpl in Hr. unfold RingConc.cons_step in Hr. rewrite Hc in Hr. injection Hr as <-. eauto. }
  pose proof (RingConc.ci_queue _ _ _ _ _ (qi_ring _ _ _ _ _ Hinv)) as Hq.
  destruct queue as [|n rest]; [simpl in Hq; lia|].
  assert (slot_ok c (event n) (u64 T)) as Hs.
  { rewrite <- (Z.add_0_r T). apply (qi_slots _ _ _ _ _ Hinv 0%nat n eq_refl). by right. }
  eapply drain_assemble; [done|done|..]; try done; try apply Hinv.
  - eapply drain_ok_taking; [exact Hcr| |intros _; apply (qi_drain _ _ _ _ _ Hinv); by rewrite Hd].
    split; [apply Hs|]. eapply slot_ok_frame; [|exact Hs]. by constructor.
  - apply (err_owners_ext c _ H T); try done; [apply Hinv|]. intros a dp _ Ha. eapply held_mono; [done|].
    simpl. rewrite Hprod. eauto.
  - apply (ref_owners_ext c _ H T); try done; [apply Hinv|]. intros a dp _ Ha. eapply held_mono; [done|].
    simpl. rewrite Hprod. eauto.
Qed.

(** A text copied into a buffer of [max] bytes is the one that was stored. *)
Lemma copied_text (len max : Z) (buf dst : bytes) :
  0 ≤ len → 0 < max → length buf = Z.to_nat max → length dst = Z.to_nat max →
  let n := Z.to_nat (cut len max) in
  let dst' := blit n [0] (blit 0 (take n (take n buf ++ [0])) dst) in
  take n dst' = take n buf ∧ length dst' = length dst.
Proof.
  intros Hl Hm Hb Hd n dst'. assert (n < length buf)%nat by (unfold n, cut; lia).
  assert (take n (take n buf ++ [0]) = take n buf) as Ht.
  { rewrite take_app_le by (rewrite length_take; lia). by rewrite take_take, Nat.min_id. }
  destruct (take_resolved n (take n buf ++ [0]) dst) as [H1 H2]; [rewrite length_app, length_take; simpl; lia|lia|].
  split; [unfold dst'; by rewrite H1|done].
Qed.

(** The error message is copied out, or there is none. *)
Lemma resolve_err_ok c pos x H T queue h :
  queue_inv c H T queue h → RingConc.c_cons (ring c) = RingConc.CCopied pos x → drain c = DErr →
  queue_inv (resolve_err (slot pos c) c) H T queue h.
Proof.
  intros Hinv Hc Hd. destruct (taking _ _ _ _ _ _ _ Hinv Hc) as (-> & Hlt & n & rest & -> & Hlike & Ht). rewrite Hd in Ht.
  destruct (qi_out _ _ _ _ _ Hinv) as [Hl1 Hl2]. destruct (Hev n) as (He1 & _ & [He2 _] & _).
  pose proof (so_err _ _ _ Ht) as Herr. unfold err_slot in Herr. unfold resolve_err.
  assert (idle c worker) as Hidle by (apply (qi_drain _ _ _ _ _ Hinv); by rewrite Hd).
  destruct (h_err c !! u64 T) as [dp|] eqn:Hdp.
  - destruct Herr as (-> & Hv & Hs & Hlen). apply DsaPointerIsValid_spec in Hv. rewrite Hv, Hs, Hlen. simpl.
    change (u16 (PSCH_MAX_ERR_MSG_LEN - 1)) with (PSCH_MAX_ERR_MSG_LEN - 1).
    fold (cut (err_message_len (ev_fixed (event n))) PSCH_MAX_ERR_MSG_LEN).
    destruct (copied_text (err_message_len (ev_fixed (event n))) PSCH_MAX_ERR_MSG_LEN (err_message (event n))
      (err_message (out c))) as [Hcopy Hlen']; [done..|].
    eapply drain_assemble; [done|done|..]; try done; try apply Hinv.
    + eapply drain_ok_taking; [exact Hc| |done]. split; [by apply like_err|]. simpl. split_and!.
      * unfold err_done. simpl. rewrite Hcopy. constructor.
      * done.
      * eapply query_slot_frame; [|apply Ht]. by constructor.
    + by destruct (qi_err _ _ _ _ _ Hinv).
    + by destruct (qi_ref _ _ _ _ _ Hinv).
  - destruct Herr as [-> _]. simpl. eapply drain_assemble; [done|done|..]; try done; try apply Hinv.
    + eapply drain_ok_taking; [exact Hc| |done]. split; [by apply like_err|]. simpl. split_and!.
      * unfold err_done. simpl. constructor.
      * done.
      * eapply query_slot_frame; [|apply Ht]. by constructor.
    + apply (length_blit 0 [0]). rewrite Hl1. unfold PSCH_MAX_ERR_MSG_LEN. simpl. lia.
    + by destruct (qi_err _ _ _ _ _ Hinv).
    + by destruct (qi_ref _ _ _ _ _ Hinv).
Qed.

(** Its storage is given back. *)
Lemma free_err_ok c pos x dp H T queue h :
  queue_inv c H T queue h → RingConc.c_cons (ring c) = RingConc.CCopied pos x → drain c = DErrFree dp →
  queue_inv (c <| strings ::= delete dp |> <| h_err ::= delete pos |>
               <| fault ::= orb (negb (bool_decide (is_Some (strings c !! dp)))) |> <| drain := DQuery |>) H T queue h.
Proof.
  intros Hinv Hc Hd. destruct (taking _ _ _ _ _ _ _ Hinv Hc) as (-> & Hlt & n & rest & -> & Hlike & Ht). rewrite Hd in Ht.
  destruct Ht as (Herr & Hdp & Hq). pose proof (qi_err _ _ _ _ _ Hinv) as [O1 O2 O3 O4].
  assert (idle c worker) as Hidle by (apply (qi_drain _ _ _ _ _ Hinv); by rewrite Hd).
  eapply drain_assemble; [done|done|..]; try done; try apply Hinv.
  - constructor; simpl; try done.
    + intros a Ha. by rewrite lookup_delete_ne.
    + intros a d Ha Hd'. rewrite lookup_delete_ne; [done|]. intros <-. by apply Ha, (O1 _ _ dp).
  - eapply drain_ok_taking; [exact Hc| |done]. split; [done|]. simpl. split_and!; [done|apply lookup_delete_eq|exact Hq].
  - simpl. rewrite bool_decide_eq_true_2 by eauto. simpl. apply Hinv.
  - constructor; simpl.
    + intros a b d [_ Ha]%lookup_delete_Some [_ Hb]%lookup_delete_Some. eauto.
    + intros a d [Hne Ha]%lookup_delete_Some. rewrite lookup_delete_ne; [eauto|]. intros <-. by apply Hne, (O1 _ _ dp).
    + intros a d [_ Ha]%lookup_delete_Some. exact (O3 _ _ Ha).
    + intros d [b [Hne Hb]%lookup_delete_Some]. destruct (O4 d) as [[a Ha]|?]; [eauto|left|by right].
      exists a. rewrite lookup_delete_ne; [done|]. congruence.
  - by destruct (qi_ref _ _ _ _ _ Hinv).
  - intros d. simpl. intros [b [_ Hb]%lookup_delete_Some]. by apply Hinv.
Qed.

(** The buffer before a query is resolved. *)
Definition query_cleared (o : PschEvent) : PschEvent :=
  o <| query ::= blit 0 [0] |> <| ev_fixed ::= λ f, f <| query_len := 0 |> |>.

Lemma length_cleared o : length (query o) = Z.to_nat PSCH_MAX_QUERY_LEN → length (query (query_cleared o)) = length (query o).
Proof. intros Hl. apply (length_blit 0 [0]). rewrite Hl. unfold PSCH_MAX_QUERY_LEN. simpl. lia. Qed.

(** There is no query. *)
Lemma query_none_ok c pos x H T queue h :
  queue_inv c H T queue h → RingConc.c_cons (ring c) = RingConc.CCopied pos x → drain c = DQuery →
  query_dsa (slot pos c) = InvalidDsaPointer →
  queue_inv (c <| out ::= query_cleared |> <| drain := DDone |>) H T queue h.
Proof.
  intros Hinv Hc Hd Hnone. destruct (taking _ _ _ _ _ _ _ Hinv Hc) as (-> & Hlt & n & rest & -> & Hlike & Ht). rewrite Hd in Ht.
  destruct Ht as (Herr & Hne & Hq). destruct (qi_out _ _ _ _ _ Hinv) as [Hl1 Hl2].
  assert (idle c worker) as Hidle by (apply (qi_drain _ _ _ _ _ Hinv); by rewrite Hd).
  assert (h_ref c !! u64 T = None) as Hnr.
  { unfold query_slot in Hq. destruct (h_ref c !! u64 T) as [r|] eqn:Hr; [|done].
    destruct Hq as (_ & y & Hy & _ & Hptr & _).
    destruct (InternConcThms.table_ref _ _ _ _ _ _ (InternConcThms.co_table _ _ _ (qi_intern _ _ _ _ _ Hinv)) Hy)
      as (_ & _ & _ & _ & _ & _ & _ & Hv). congruence. }
  eapply drain_assemble; [done|done|..]; try done; try apply Hinv.
  - eapply drain_ok_taking; [exact Hc| |done]. split; [by apply like_query|]. simpl. split_and!; try done.
    unfold query_done. simpl. constructor.
  - by apply length_cleared.
  - by destruct (qi_err _ _ _ _ _ Hinv).
  - by destruct (qi_ref _ _ _ _ _ Hinv).
Qed.

(** The call that resolves and releases it. *)
Lemma query_release_ok c i pos x r H T queue h :
  queue_inv c H T queue h → RingConc.c_cons (ring c) = RingConc.CCopied pos x → drain c = DQuery →
  h_ref c !! pos = Some r → intern_exec (InternConc.ARelease worker r) (intern c) = Some i →
  ∃ h', queue_inv (c <| out ::= query_cleared |> <| intern := i |> <| drain := DRelease |> <| h_ref ::= delete pos |>)
    H T queue h'.
Proof.
  intros Hinv Hc Hd Hr Hi. destruct (taking _ _ _ _ _ _ _ Hinv Hc) as (-> & Hlt & n & rest & -> & Hlike & Ht). rewrite Hd in Ht.
  destruct Ht as (Herr & Hne & Hq). destruct (qi_out _ _ _ _ _ Hinv) as [Hl1 Hl2].
  destruct (intern_exec_ok _ _ _ _ _ _ _ Hinv Hi) as [h' Hint].
  destruct (release_call_moves _ _ _ _ Hi) as (Hidle & Erefs & Eheap & Epc & Epc').
  pose proof (qi_ref _ _ _ _ _ Hinv) as [O1 O2 O3 O4].
  unfold query_slot in Hq. rewrite Hr in Hq. destruct Hq as (_ & y & Hy & Hu & Hptr & Htext).
  exists h'. eapply drain_assemble; [done|done|..]; try done; try apply Hinv.
  - constructor; simpl; try done.
    + intros a Ha. by rewrite lookup_delete_ne.
    + intros r' z Hz Hzu Hzr. rewrite Erefs, lookup_alter_ne; [done|]. congruence.
  - eapply drain_ok_taking; [exact Hc| |done]. split; [by apply like_query|]. simpl.
    split_and!; [done|done|apply lookup_delete_eq|]. left. exists r. eexists. simpl.
    rewrite Erefs, lookup_alter_eq, Hy. by split_and!.
  - by apply length_cleared.
  - by destruct (qi_err _ _ _ _ _ Hinv).
  - constructor; simpl.
    + intros a b r' [_ Ha]%lookup_delete_Some [_ Hb]%lookup_delete_Some. eauto.
    + intros a r' [Hna Ha]%lookup_delete_Some. rewrite Erefs. destruct (O2 a r' Ha) as (z & Hz & Hzu). exists z.
      rewrite lookup_alter_ne; [done|]. intros <-. by apply Hna, (O1 _ _ r).
    + intros a r' [_ Ha]%lookup_delete_Some. exact (O3 _ _ Ha).
    + intros r' Hr'. rewrite Erefs in Hr'. destruct (decide (r' = r)) as [->|Hner]; [right; exists worker; by rewrite Epc'|].
      rewrite lookup_alter_ne in Hr' by done. destruct (O4 r' Hr') as [[a Ha]|[q Hqu]].
      * left. exists a. rewrite lookup_delete_ne; [done|]. congruence.
      * right. exists q. destruct (decide (q = worker)) as [->|?]; [by rewrite Hidle in Hqu|by rewrite Epc].
  - intros d. simpl. rewrite Eheap. apply Hinv.
Qed.

(** What is read is the text that was interned. *)
Lemma read_query_done c i ev text :
  InternConcThms.read_ok PSCH_MAX_QUERY_LEN (text_of (query_of ev), text) → event_ok ev →
  last (InternConc.c_read i) = Some (text_of (query_of ev), text) → length (query (out c)) = Z.to_nat PSCH_MAX_QUERY_LEN →
  query_done ev (read_query i (out c)) ∧ length (query (read_query i (out c))) = length (query (out c)).
Proof.
  intros Hread (_ & He & _ & [Hq _]) Hlast Hl. unfold read_query. rewrite Hlast. simpl.
  unfold InternConcThms.read_ok, fit_len, text_of in Hread. simpl in Hread.
  assert (clamped_len ev = cut (query_len (ev_fixed ev)) PSCH_MAX_QUERY_LEN) as Hcl by done. rewrite Hcl in Hread.
  set (n := cut (query_len (ev_fixed ev)) PSCH_MAX_QUERY_LEN) in *.
  assert (0 ≤ n < PSCH_MAX_QUERY_LEN) as Hn by (unfold n, cut, PSCH_MAX_QUERY_LEN in *; lia).
  assert (length (take (Z.to_nat n) (query ev)) = Z.to_nat n) as Hln by (rewrite length_take; unfold PSCH_MAX_QUERY_LEN in *; lia).
  rewrite Hln, Z2Nat.id in Hread by lia. rewrite (proj2 (Z.leb_gt _ _)) in Hread by lia. rewrite take_take, Nat.min_id in Hread.
  subst text. destruct (take_resolved (Z.to_nat n) (query ev) (query (out c))) as [H1 H2]; [rewrite length_take in Hln; lia|
    unfold PSCH_MAX_QUERY_LEN in *; lia|].
  unfold query_done. simpl. rewrite Hln, Z2Nat.id, H1 by lia. split; [constructor|done].
Qed.

(** A step of the call that releases the query. *)
Lemma release_moves_ok c i o f pos x H T queue h h' :
  queue_inv c H T queue h → RingConc.c_cons (ring c) = RingConc.CCopied pos x → drain c = DRelease →
  intern_ok i h' → moved worker (intern c) i → f ≠ DIdle →
  (InternConc.c_pc i worker = InternConc.PIdle → InternConc.returned (InternConc.c_pc (intern c) worker) = None) →
  length (err_message o) = length (err_message (out c)) → length (query o) = length (query (out c)) →
  (∀ n rest, queue = n :: rest → taking_ok (c <| intern := i |> <| out := o |> <| drain := f |>) (event n) pos) →
  (f ≠ DRelease → InternConc.c_pc i worker = InternConc.PIdle) →
  queue_inv (c <| intern := i |> <| out := o |> <| drain := f |>) H T queue h'.
Proof.
  intros Hinv Hc Hd Hint Hm Hf Hret Hl1 Hl2 Htake Hidle.
  destruct (taking _ _ _ _ _ _ _ Hinv Hc) as (-> & Hlt & n & rest & -> & Ht).
  pose proof (qi_ref _ _ _ _ _ Hinv) as [O1 O2 O3 O4].
  eapply drain_assemble; [done|done|..]; try done; try apply Hinv.
  - constructor; simpl; try done; [apply Hm|]. intros r y Hy Hu _. by apply (mv_keep _ _ _ Hm).
  - eapply drain_ok_taking; [exact Hc|by eapply Htake|done].
  - by destruct (qi_err _ _ _ _ _ Hinv).
  - constructor; simpl; [done|..|done|].
    + intros a r Ha. by eapply free_kept.
    + intros r Hr. destruct (ref_moved _ _ _ _ _ _ _ r Hinv Hm Hr) as [?|[?|[Hi Hr']]]; [by left|by right|].
      rewrite Hret in Hr'; done.
  - intros d. simpl. by eapply apart_moved.
Qed.

Lemma release_step_ok c c' pos x H T queue h :
  queue_inv c H T queue h → RingConc.c_cons (ring c) = RingConc.CCopied pos x → drain c = DRelease →
  drain_step capacity c = Some c' → ∃ h', queue_inv c' H T queue h'.
Proof.
  intros Hinv Hc Hd Hs. unfold drain_step in Hs. rewrite Hc, Hd in Hs.
  apply option_map_Some in Hs as (c1 & Hm & ->). apply intern_move_Some in Hm as (i & Hi & ->).
  destruct (intern_exec_ok _ _ _ _ _ _ _ Hinv Hi) as [h' Hint]. exists h'.
  pose proof (qi_intern _ _ _ _ _ Hinv) as Hok. pose proof (proc_step_moved _ _ _ _ Hok Hi) as Hmv.
  destruct (taking _ _ _ _ _ _ _ Hinv Hc) as (Hpos & Hlt & n & rest & -> & Hlike & Ht). rewrite Hd in Ht.
  destruct Ht as (Herr & He & Hr & Hrel). rewrite <- Hpos in *. simpl. destruct (qi_out _ _ _ _ _ Hinv) as [Hl1 Hl2].
  destruct Hrel as [(r & y & Hpc & Hy & Hu & Htext)|[Hpc Hdone]].
  - destruct (resolving_step _ _ _ _ _ Hok Hpc Hi) as [Hres (y' & text & Hy' & Hread)]. simplify_eq.
    assert (InternConcThms.read_ok PSCH_MAX_QUERY_LEN (InternConc.r_text y, text)) as Hrok.
    { pose proof (InternConcThms.co_read _ _ _ Hint) as Hall. rewrite Hread in Hall.
      apply Forall_app in Hall as [_ Hall]. by inversion Hall. }
    rewrite Htext in *.
    destruct (read_query_done c i (event n) text Hrok (Hev n)) as [Hqd Hql]; [by rewrite Hread, last_snoc|done|].
    assert (queue_inv (c <| intern := i |> <| out := read_query i (out c) |> <| drain := drain c |>) H T (n :: rest) h') as Hgo.
    { eapply (release_moves_ok c i); try done; [by rewrite Hd|by rewrite Hpc|].
      intros n' rest' Hq'. assert (n' = n) as -> by congruence. split; [by apply like_query|]. simpl. rewrite Hd.
      split_and!; try done. by right. }
    rewrite Hpc. simpl. destruct (InternConc.c_pc i worker); try discriminate Hres; exact Hgo.
  - assert (InternConc.returned (InternConc.c_pc (intern c) worker) = None) as Hret by by destruct (InternConc.c_pc (intern c) worker).
    replace (match InternConc.c_pc (intern c) worker with InternConc.RResolve _ => true | _ => false end) with false
      by by destruct (InternConc.c_pc (intern c) worker).
    destruct (resolved_step _ _ _ _ Hok Hpc Hi) as [Hres|Hidle].
    + assert (queue_inv (c <| intern := i |> <| out := out c |> <| drain := drain c |>) H T (n :: rest) h') as Hgo.
      { eapply (release_moves_ok c i); try done; [by rewrite Hd|].
        intros n' rest' Hq'. assert (n' = n) as -> by congruence. split; [done|]. simpl. rewrite Hd.
        split_and!; try done. by right. }
      simpl. destruct (InternConc.c_pc i worker); try discriminate Hres; exact Hgo.
    + simpl. rewrite Hidle. apply (release_moves_ok c i (out c) DDone pos x H T (n :: rest) h h'); try done.
      intros n' rest' Hq'. assert (n' = n) as -> by congruence. split; [done|]. by split_and!.
Qed.

(** The slot is given back and the event delivered. *)
Lemma drain_done_ok c r pos x H T queue h :
  queue_inv c H T queue h → RingConc.c_cons (ring c) = RingConc.CCopied pos x → drain c = DDone →
  ring_exec capacity RingConc.ACons (ring c) = Some r →
  ∃ T' rest, queue_inv (c <| ring := r |> <| drain := DIdle |> <| delivered ::= λ l, l ++ [out c] |>) H T' rest h.
Proof.
  intros Hinv Hc Hd Hr. destruct (taking _ _ _ _ _ _ _ Hinv Hc) as (-> & Hlt & n & rest & -> & Hlike & Ht). rewrite Hd in Ht.
  destruct Ht as (Herr & Hne & Hnr & Hq).
  destruct (RingConc.conc_inv_exec _ _ k Hk Hcap _ _ _ _ _ _ (qi_ring _ _ _ _ _ Hinv) Hr) as (H' & T' & q' & Hi & He).
  simpl in He. rewrite Hc in He. destruct He as (-> & -> & n' & Heq). assert (n' = n ∧ q' = rest) as [-> ->] by (split; congruence).
  assert (RingConc.c_prod r = RingConc.c_prod (ring c) ∧ RingConc.c_cons r = RingConc.CIdle ∧
    RingConc.h_popped r = RingConc.h_popped (ring c) ++ [default (-1) x]) as (Hprod & Hcr & Hpop).
  { unfold ring_exec in Hr. simpl in Hr. unfold RingConc.cons_step in Hr. rewrite Hc in Hr. by injection Hr as <-. }
  pose proof (RingConc.ci_cons _ _ _ _ _ (qi_ring _ _ _ _ _ Hinv)) as Hcons. rewrite Hc in Hcons.
  destruct Hcons as [_ (n' & rest' & -> & Heq')]. assert (n' = n) as -> by congruence.
  assert (idle c worker) as Hidle by (apply (qi_drain _ _ _ _ _ Hinv); by rewrite Hd).
  set (c' := c <| ring := r |> <| drain := DIdle |> <| delivered ::= λ l, l ++ [out c] |>).
  assert (∀ a, frame_at a c c') as Hfr by (intros a; by constructor).
  assert (∀ a, a ≠ u64 T → held c H T a → held c' H (T + 1) a) as Hheld.
  { intros a Hna (i & -> & Hb & Hw). exists (i - 1). split_and!; [f_equal; lia|..|lia|].
    - destruct (decide (i = 0)) as [->|]; [|lia]. by rewrite Z.add_0_r in Hna.
    - intros Hl. simpl. rewrite Hprod. apply Hw. lia. }
  exists (T + 1), rest. constructor; try apply Hinv; try done.
  - intros i m Hi' _. replace (T + 1 + Z.of_nat i) with (T + Z.of_nat (S i)) by lia.
    eapply slot_ok_frame; [apply Hfr|]. eapply qi_slots; [done|exact Hi'|by left].
  - intros p. by eapply (drain_fill_ok c).
  - split; [|done]. simpl. by rewrite Hcr.
  - simpl. rewrite Hpop. apply Forall2_app; [apply Hinv|]. constructor; [|done]. simpl.
    destruct Hlike as (en & qn & Hlike). exists (err_message_len (ev_fixed (out c))), (take (Z.to_nat (err_message_len (ev_fixed (out c)))) (err_message (out c))),
      (query_len (ev_fixed (out c))), (take (Z.to_nat (query_len (ev_fixed (out c)))) (query (out c))).
    split_and!; try done. unfold view. f_equal. by rewrite Hlike.
  - apply (err_owners_ext c _ H T); try done; [apply Hinv|]. intros a dp Ha. apply Hheld. congruence.
  - apply (ref_owners_ext c _ H T); try done; [apply Hinv|]. intros a dp Ha. apply Hheld. congruence.
Qed.

Lemma drain_step_ok c c' H T queue h :
  queue_inv c H T queue h → drain_step capacity c = Some c' → ∃ H' T' queue' h', queue_inv c' H' T' queue' h'.
Proof.
  intros Hinv Hs. pose proof Hs as Hs'. unfold drain_step in Hs.
  destruct (RingConc.c_cons (ring c)) as [|hd|pos|pos x] eqn:Hc; try done.
  - destruct (drain c) eqn:Hd; try done. apply option_map_Some in Hs as (c1 & Hm & ->).
    apply ring_move_Some in Hm as (r & Hr & ->). exists H, T, queue, h.
    exact (drain_copy_ok c r pos H T queue h Hinv Hc Hd Hr).
  - destruct (drain c) as [| |dp| | |] eqn:Hd; try done.
    + injection Hs as <-. exists H, T, queue, h. by eapply resolve_err_ok.
    + injection Hs as <-. exists H, T, queue, h. by eapply free_err_ok.
    + destruct (DsaPointerIsValid _) eqn:Hv.
      * simpl in Hs. destruct (h_ref c !! pos) as [r|] eqn:Hr; [|done]. destruct (_ =? _); [|done].
        apply option_map_Some in Hs as (c1 & Hm & ->). apply intern_move_Some in Hm as (i & Hi & ->).
        destruct (query_release_ok _ _ _ _ _ _ _ _ _ Hinv Hc Hd Hr Hi) as [h' Hok]. by exists H, T, queue, h'.
      * injection Hs as <-. apply DsaPointerIsValid_false in Hv. exists H, T, queue, h. exact (query_none_ok c pos x H T queue h Hinv Hc Hd Hv).
    + destruct (release_step_ok _ _ _ _ _ _ _ _ Hinv Hc Hd Hs') as [h' Hok]. by exists H, T, queue, h'.
    + apply option_map_Some in Hs as (c1 & Hm & ->). apply ring_move_Some in Hm as (r & Hr & ->).
      destruct (drain_done_ok _ _ _ _ _ _ _ _ Hinv Hc Hd Hr) as (T' & rest & Hok). by exists H, T', rest, h.
Qed.

(** *** The other steps of the ring *)

(** Outside the filling of a slot. *)
Definition quiet (pc : RingConc.ProducerPC) : bool :=
  match pc with RingConc.PPartial _ _ _ | RingConc.PFilled _ _ _ => false | _ => true end.

Definition unrefined (a : RingConc.Action) (r : RingConc.Conf) : Prop :=
  match a with
  | RingConc.AProd p => match RingConc.c_prod r p with RingConc.PFilling _ _ _ | RingConc.PPartial _ _ _ => False | _ => True end
  | RingConc.AError _ => False
  | RingConc.ACons => match RingConc.c_cons r with RingConc.CCopy _ | RingConc.CCopied _ _ => False | _ => True end
  | _ => True
  end.

Definition publishes (a : RingConc.Action) (p : nat) (r : RingConc.Conf) : Prop :=
  a = RingConc.AProd p ∧ ∃ n pos todo, RingConc.c_prod r p = RingConc.PFilled n pos todo.

Lemma ring_step_Some a c c' :
  ring_step capacity a c = Some c' →
  unrefined a (ring c) ∧ ∃ r, ring_exec capacity a (ring c) = Some r ∧ c' = c <| ring := r |>.
Proof.
  intros Hs. destruct a as [p ev|p ev todo|p|p| |p|p writes|p]; simpl in *; try done;
    try (split; [done|exact (ring_move_Some _ _ _ Hs)]).
  - destruct (RingConc.c_prod (ring c) p); try done; (split; [done|exact (ring_move_Some _ _ _ Hs)]).
  - destruct (RingConc.c_cons (ring c)); try done; (split; [done|exact (ring_move_Some _ _ _ Hs)]).
Qed.

Lemma quiet_next todo : quiet (RingConc.next_event todo) = true.
Proof. by destruct todo. Qed.

(** Who moved, and to where. *)
Lemma unrefined_prod a r r' q :
  ring_exec capacity a r = Some r' → unrefined a r →
  RingConc.c_prod r' q = RingConc.c_prod r q ∨
  (quiet (RingConc.c_prod r' q) = true ∧ (quiet (RingConc.c_prod r q) = true ∨ publishes a q r)).
Proof.
  assert (∀ p pc c1, RingConc.c_prod c1 = RingConc.c_prod r → quiet pc = true →
    quiet (RingConc.c_prod r p) = true ∨ publishes a p r →
    RingConc.c_prod (RingConc.set_pc p pc c1) q = RingConc.c_prod r q ∨
    (quiet (RingConc.c_prod (RingConc.set_pc p pc c1) q) = true ∧ (quiet (RingConc.c_prod r q) = true ∨ publishes a q r))) as Hset.
  { intros p pc c1 E1 Hpc Hp. simpl. rewrite E1. destruct (decide (q = p)) as [->|Hne]; [right|left; by apply upd_other].
    by rewrite upd_same. }
  unfold ring_exec. destruct a as [p ev|p ev todo|p|p| |p|p writes|p]; simpl; intros Hr Hu; try done.
  - unfold RingConc.prod_call in Hr. destruct (RingConc.c_prod r p) eqn:Hp; try done. injection Hr as <-. apply Hset; rewrite ?Hp; auto.
  - unfold RingConc.batch_call in Hr. destruct (RingConc.c_prod r p) eqn:Hp; try done. injection Hr as <-. apply Hset; rewrite ?Hp; auto.
  - unfold RingConc.prod_step in Hr. destruct (RingConc.c_prod r p) eqn:Hp; try done;
      try (injection Hr as <-); try (destruct (RingConc.c_lock r); try done; injection Hr as <-);
      apply Hset; rewrite ?Hp; try (by left); try done; try apply quiet_next;
      try (by destruct (_ <=? _)); try (by destruct (_ || _)); try (by destruct more).
    right. split; [done|eauto].
  - unfold RingConc.cons_step in Hr. destruct (RingConc.c_cons r); injection Hr as <-; by left.
  - unfold RingConc.reader_step in Hr. destruct (RingConc.c_reader r p); try destruct (RingConc.c_lock r); simplify_eq; by left.
  - unfold RingConc.client_call in Hr. destruct (RingConc.c_client r p); simplify_eq; by left.
  - unfold RingConc.client_step in Hr. destruct (RingConc.c_client r p) as [| |[|[] ?]]; try destruct (RingConc.c_lock r); simplify_eq; by left.
Qed.

Definition taking_pc (pc : RingConc.ConsumerPC) : bool := match pc with RingConc.CCopied _ _ => true | _ => false end.

Lemma unrefined_cons a r r' :
  ring_exec capacity a r = Some r' → unrefined a r →
  RingConc.h_popped r' = RingConc.h_popped r ∧
  (RingConc.c_cons r' = RingConc.c_cons r ∨
   (taking_pc (RingConc.c_cons r) = false ∧ taking_pc (RingConc.c_cons r') = false)).
Proof.
  unfold ring_exec. destruct a as [p ev|p ev todo|p|p| |p|p writes|p]; simpl; intros Hr Hu; try done.
  - unfold RingConc.prod_call in Hr. destruct (RingConc.c_prod r p); simplify_eq; by split; [|left].
  - unfold RingConc.batch_call in Hr. destruct (RingConc.c_prod r p); simplify_eq; by split; [|left].
  - unfold RingConc.prod_step in Hr. destruct (RingConc.c_prod r p); try destruct (RingConc.c_lock r); simplify_eq; by split; [|left].
  - unfold RingConc.cons_step in Hr. destruct (RingConc.c_cons r); try done; injection Hr as <-; (split; [done|right]); (split; [done|]).
    + done.
    + simpl. by destruct (_ =? _).
  - unfold RingConc.reader_step in Hr. destruct (RingConc.c_reader r p); try destruct (RingConc.c_lock r); simplify_eq; by split; [|left].
  - unfold RingConc.client_call in Hr. destruct (RingConc.c_client r p); simplify_eq; by split; [|left].
  - unfold RingConc.client_step in Hr. destruct (RingConc.c_client r p) as [| |[|[] ?]]; try destruct (RingConc.c_lock r); simplify_eq; by split; [|left].
Qed.

(** The queue after such a step: the same, or longer by the event that is published. *)
Lemma unrefined_effect c a r H T queue h :
  queue_inv c H T queue h → ring_exec capacity a (ring c) = Some r → unrefined a (ring c) →
  ∃ H' queue', ring_inv r H' T queue' ∧
    ((H' = H ∧ queue' = queue ∧ ∀ p, ¬ publishes a p (ring c)) ∨
     ∃ p n pos todo, a = RingConc.AProd p ∧ RingConc.c_prod (ring c) p = RingConc.PFilled n pos todo ∧
       pos = u64 H ∧ H' = H + 1 ∧ queue' = queue ++ [n]).
Proof.
  intros Hinv Hr Hu.
  destruct (RingConc.conc_inv_exec _ _ k Hk Hcap _ _ _ _ _ _ (qi_ring _ _ _ _ _ Hinv) Hr) as (H' & T' & q' & Hi & He).
  assert (∀ p, a = RingConc.AProd p → T' = T ∧ match RingConc.c_prod (ring c) p with
    | RingConc.PFilled ev _ _ => H' = H + 1 ∧ q' = queue ++ [ev] | _ => H' = H ∧ q' = queue end) as Hp by by intros p ->.
  destruct a as [p ev|p ev todo|p|p| |p|p writes|p]; simpl in He, Hu; try done;
    try (destruct He as (-> & -> & ->); exists H, queue; split; [done|left]; split_and!; try done; by intros p' [? _]).
  - destruct (Hp p eq_refl) as [-> He']. exists H', q'. split; [done|].
    pose proof (RingConc.ci_prod _ _ _ _ _ (qi_ring _ _ _ _ _ Hinv) p) as Hok.
    destruct (RingConc.c_prod (ring c) p) as [| | | | | | | | | | | | | |n pos todo| |] eqn:Hpc; try done;
      destruct He' as [-> ->]; try (left; split_and!; try done; intros p' [[= <-] (n' & pos' & todo' & Hn)]; congruence).
    right. exists p, n, pos, todo. split_and!; try done. by destruct Hok.
  - exists H', q'. destruct (RingConc.c_cons (ring c)); try done; destruct He as (-> & -> & ->);
      (split; [done|left]; split_and!; try done; by intros p' [? _]).
Qed.

(** What is known of the slots does not depend on the ring. *)
Lemma frame_at_ring a c r : frame_at a c (c <| ring := r |>).
Proof. by constructor. Qed.

Lemma taking_ok_ring c r ev pos : taking_ok c ev pos → taking_ok (c <| ring := r |>) ev pos.
Proof.
  intros [Hl Ht]. split; [done|]. simpl. destruct (drain c); try done. eapply slot_ok_frame; [apply frame_at_ring|done].
Qed.

Lemma ring_step_ok c c' a H T queue h :
  queue_inv c H T queue h → ring_step capacity a c = Some c' → ∃ H' queue', queue_inv c' H' T queue' h.
Proof.
  intros Hinv Hs. apply ring_step_Some in Hs as (Hu & r & Hr & ->).
  destruct (unrefined_effect _ _ _ _ _ _ _ Hinv Hr Hu) as (H' & queue' & Hring & Heff).
  destruct (unrefined_cons _ _ _ Hr Hu) as [Hpop Hcons].
  pose proof (RingConc.ci_queue _ _ _ _ _ (qi_ring _ _ _ _ _ Hinv)) as Hq.
  pose proof (RingConc.ci_order _ _ _ _ _ (qi_ring _ _ _ _ _ Hinv)) as Hord.
  assert (∀ p, fill_ok (c <| ring := r |>) p) as Hfill.
  { intros p. destruct (qi_fill _ _ _ _ _ Hinv p) as [Hok Hi]. split; [|done].
    unfold filling_ok in *. simpl. destruct (unrefined_prod _ _ _ p Hr Hu) as [-> |[Hq1 Hq2]].
    - destruct (RingConc.c_prod (ring c) p); try done.
      + unfold partial_ok in *. simpl. destruct (fill c p); try done. eapply slot_ok_frame; [apply frame_at_ring|done].
      + split; [|apply Hok]. eapply slot_ok_frame; [apply frame_at_ring|apply Hok].
    - assert (fill c p = FIdle) as Hf.
      { destruct Hq2 as [Hq2|[_ (n & pos & todo & Hn)]]; [|by rewrite Hn in Hok; destruct Hok].
        by destruct (RingConc.c_prod (ring c) p). }
      by destruct (RingConc.c_prod r p). }
  assert (drain_ok (c <| ring := r |>) queue') as Hdrain.
  { destruct (qi_drain _ _ _ _ _ Hinv) as [Hd Hi]. split; [|done]. simpl. destruct Hcons as [-> |[Hc1 Hc2]].
    - destruct (RingConc.c_cons (ring c)); try done. destruct Hd as (n & rest & -> & Ht).
      destruct Heff as [(_ & -> & _)|(? & m & ? & ? & _ & _ & _ & _ & ->)]; [exists n, rest|exists n, (rest ++ [m])];
        (split; [done|by apply taking_ok_ring]).
    - by destruct (RingConc.c_cons (ring c)), (RingConc.c_cons r). }
  assert (∀ a', held c H T a' → held (c <| ring := r |>) H' T a') as Hheld.
  { intros a' Ha. destruct Heff as [(-> & _ & Hnp)|(? & m & ? & ? & _ & _ & _ & -> & _)].
    - eapply held_mono; [done|]. intros p n todo Hp. exists p, n, todo. simpl.
      destruct (unrefined_prod _ _ _ p Hr Hu) as [-> |[_ [Hq2|Hp2]]]; [done| |by destruct (Hnp p)].
      by destruct Hp as [Hp|Hp]; rewrite Hp in Hq2.
    - destruct Ha as (i & -> & Hi & _). exists i. split_and!; [done|lia..]. }
  assert (∀ i n, queue !! i = Some n → i ≠ 0%nat ∨ drain c = DIdle →
    slot_ok (c <| ring := r |>) (event n) (u64 (T + Z.of_nat i))) as Hslots.
  { intros i n Hi Hd. eapply slot_ok_frame; [apply frame_at_ring|]. by eapply qi_slots. }
  exists H', queue'. constructor; try apply Hinv; try done.
  - intros i n Hi Hd. destruct Heff as [(_ & -> & _)|(p & m & pos & todo & _ & Hp & Hpos & _ & ->)]; [by apply Hslots|].
    apply lookup_app_Some in Hi as [Hi|[Hge Hi]]; [by apply Hslots|].
    apply list_lookup_singleton_Some in Hi as [Hz <-]. replace (T + Z.of_nat i) with H by lia. rewrite <- Hpos.
    destruct (qi_fill _ _ _ _ _ Hinv p) as [Hok _]. unfold filling_ok in Hok. rewrite Hp in Hok.
    eapply slot_ok_frame; [apply frame_at_ring|apply Hok].
  - simpl. rewrite Hpop. apply Hinv.
  - apply (err_owners_ext c _ H T); try done; [apply Hinv|]. intros a' dp _. apply Hheld.
  - apply (ref_owners_ext c _ H T); try done; [apply Hinv|]. intros a' dp _. apply Hheld.
Qed.

(** ** Reachable states *)

Lemma queue_inv_step c c' H T queue h :
  queue_inv c H T queue h → step capacity event c c' → ∃ H' T' queue' h', queue_inv c' H' T' queue' h'.
Proof.
  intros Hinv [[a|p|p outcome|] Ha]; simpl in Ha.
  - destruct (ring_step_ok _ _ _ _ _ _ _ Hinv Ha) as (H' & queue' & Hok). by exists H', T, queue', h.
  - destruct (fill_step_ok _ _ _ _ _ _ _ Hinv Ha) as [h' Hok]. by exists H, T, queue, h'.
  - destruct (fill_alloc_ok _ _ _ _ _ _ _ _ Hinv Ha) as [h' Hok]. by exists H, T, queue, h'.
  - by eapply drain_step_ok.
Qed.

Lemma queue_inv_start pos slots0 out0 :
  is_u64 pos → length slots0 = Z.to_nat capacity → event_ok out0 →
  queue_inv (start capacity pos slots0 out0) pos pos [] ∅.
Proof.
  intros Hpos Hl (Ho1 & Ho2 & _). constructor; simpl; try done.
  - by apply (RingConc.conc_inv_start capacity k Hk Hcap).
  - apply InternConcThms.start_ok.
  - constructor; simpl; try done. intros dp [b Hb]. by rewrite lookup_empty in Hb.
  - constructor; simpl; try done. intros r [b Hb]. by rewrite lookup_empty in Hb.
  - intros dp [b Hb]. simpl in Hb. by rewrite lookup_empty in Hb.
Qed.

Lemma queue_reachable_inv c : reachable capacity event c → ∃ H T queue h, queue_inv c H T queue h.
Proof.
  intros (pos & slots0 & out0 & Hpos & Hl & Ho & Hr).
  cut (∀ c0 c1, rtc (step capacity event) c0 c1 → (∃ H T queue h, queue_inv c0 H T queue h) →
    ∃ H T queue h, queue_inv c1 H T queue h).
  { intros Hall. apply (Hall _ _ Hr). exists pos, pos, [], ∅. by apply queue_inv_start. }
  clear - Hk Hcap Hev. induction 1 as [|c0 c1 c2 Hs _ IH]; [done|]. intros (H & T & queue & h & Hinv). apply IH. by eapply queue_inv_step.
Qed.

End queue.
End QueueConcInv.
