(* ===== verification/QueueConcThms.v ===== *)
(** What the whole queue promises under concurrency ([QueueConc.v]): every event arrives
    with its texts, nothing is used after it was freed, an empty queue holds no memory, and
    the intern table is never full. *)

From stdpp Require Import relations.
From S2P Require Import Prelude Event Shared Dsa Intern Ring InternInv RingInv RingSpec QueueThms RingConc InternConc.
From S2P Require Import InternConcThms BatchThms InternMoves QueueConc QueueConcInv.
Import Event Shared Dsa Intern Ring InternInv RingInv RingSpec QueueThms BatchThms InternMoves QueueConc QueueConcInv.

Module QueueConcThms.

(** The DSA area: the strings and the objects of the interner. *)
Definition area (c : Conf) : gmap Z DsaBlock := (DsaString <$> strings c) ∪ InternConc.c_heap (intern c).

(** What the consumer will see of the [i]-th waiting event. *)
Definition waiting_slot (capacity : Z) (c : Conf) (i : nat) : Delivered :=
  abs_slot (area c) (slot capacity (u64 (RingConc.c_tail (ring c) + Z.of_nat i)) c).

Section queue.
Context {E : Env} (k : Z) (Hk : 0 ≤ k ≤ 31) (event : Z → PschEvent) (Hev : ∀ n, event_ok (event n)).
#[local] Abbreviation capacity := (2 ^ k).

Lemma area_string c dp b : strings c !! dp = Some b → area c !! dp = Some (DsaString b).
Proof. intros Hb. unfold area. apply lookup_union_Some_l. by rewrite lookup_fmap, Hb. Qed.

Lemma area_object c h dp o :
  apart c → InternConcThms.conc_ok PSCH_MAX_QUERY_LEN (intern c) h → InternConc.c_heap (intern c) !! dp = Some (DsaObject o) →
  area c !! dp = Some (DsaObject o).
Proof.
  intros Ha Hok Ho. unfold area. rewrite lookup_union_r; [done|]. rewrite lookup_fmap.
  destruct (strings c !! dp) as [b|] eqn:Hb; [|done]. destruct (Ha dp); [by exists b|by exists (DsaObject o)].
Qed.

Lemma heap_valid c h : InternConcThms.conc_ok PSCH_MAX_QUERY_LEN c h → InternConc.c_heap c !! InvalidDsaPointer = None.
Proof.
  intros Hok. destruct (InternConc.c_heap c !! InvalidDsaPointer) as [b|] eqn:Hb; [|done].
  destruct (InternConcThms.co_table _ _ _ Hok) as [H1 _ _ H4]. pose proof (InternConcThms.co_heap _ _ _ Hok) as Hheap.
  destruct (h !! InvalidDsaPointer) as [b'|] eqn:Hh.
  - destruct (H4 _ _ Hh) as [o ->]. destruct (object_entry _ _ _ H1 _ _ Hh) as (e & He & Ho).
    by destruct (entry_object _ _ _ H1 _ _ He) as [? _].
  - destruct (InternConcThms.ho_rest _ _ _ Hheap _ _ Hb Hh) as [p Hp].
    by destruct (InternConcThms.ho_owned _ _ _ Hheap _ _ Hp) as [? _].
Qed.

(** A slot stands for its event. *)
Lemma slot_ok_stored c H T queue h ev pos :
  queue_inv capacity event c H T queue h → event_ok ev → slot_ok capacity c ev pos →
  stored ev (abs_slot (area c) (slot capacity pos c)).
Proof.
  intros Hinv (Hml & Hql & [Hm0 Hm1] & [Hq0 Hq1]) [Hlike Herr Hq]. pose proof (qi_intern _ _ _ _ _ _ _ Hinv) as Hint.
  unfold err_slot in Herr. unfold query_slot in Hq. destruct Hlike as (en & qn & Hfix).
  set (e := slot capacity pos c) in *. set (n := cut (err_message_len (re_fixed e)) PSCH_MAX_ERR_MSG_LEN).
  assert (text_stored (err_message_len (ev_fixed ev)) PSCH_MAX_ERR_MSG_LEN (err_message ev) n
    (take (Z.to_nat n) (string_at (area c) (err_message_dsa e)))) as H1.
  { unfold n. destruct (h_err c !! pos) as [dp|].
    - destruct Herr as (-> & _ & Hs & ->). unfold string_at. rewrite (area_string _ _ _ Hs).
      set (m := cut (err_message_len (ev_fixed ev)) _). rewrite take_app_le; [rewrite take_take, Nat.min_id; constructor|].
      rewrite length_take. unfold m, cut, PSCH_MAX_ERR_MSG_LEN in *. lia.
    - destruct Herr as [_ ->]. constructor. }
  assert (text_stored (query_len (ev_fixed ev)) PSCH_MAX_QUERY_LEN (query ev) (query_len (re_fixed e))
    (text_at (area c) (query_dsa e))) as H2.
  { destruct (h_ref c !! pos) as [r|].
    - destruct Hq as (-> & x & Hx & _ & <- & Ht).
      destruct (InternConcThms.reference_object _ _ _ _ _ Hint Hx) as (_ & _ & o & _ & _ & _ & Hobj & _).
      apply object_at_Some in Hobj.
      assert (text_at (area c) (InternConc.r_ptr x) = take (Z.to_nat (clamped_len ev)) (query ev)) as ->.
      { change (take (Z.to_nat (clamped_len ev)) (query ev)) with (text_of (query_of ev)). rewrite <- Ht.
        rewrite <- (InternConcThms.reference_text _ _ _ _ _ Hint Hx). unfold text_at, object_at.
        by rewrite Hobj, (area_object _ _ _ _ (qi_apart _ _ _ _ _ _ _ Hinv) Hint Hobj). }
      constructor.
    - destruct Hq as [-> ->]. unfold text_at, object_at, area.
      rewrite lookup_union, (heap_valid _ _ Hint), lookup_fmap. destruct (strings c !! _); constructor. }
  exists n, (take (Z.to_nat n) (string_at (area c) (err_message_dsa e))), (query_len (re_fixed e)), (text_at (area c) (query_dsa e)).
  split_and!; [done|done|]. unfold abs_slot. fold n. f_equal. rewrite Hfix. done.
Qed.

(** ** Every event arrives *)

(** C3: The whole queue under every interleaving of backends that enqueue, one at a time or
    in batches, and the worker that dequeues, with the interner's calls interleaved step by
    step, any answer of the allocator and any errors: what the worker has been handed are
    the events published, in the order of their publication, each with all its fields and
    with each text intact or lost as a whole; the slots that wait read back as the events
    still to come; and no string and no interned object is read after it was freed or
    freed twice. *)
Theorem every_event_arrives c (Hreach : reachable capacity event c) :
  Forall2 (λ n o, stored (event n) (view o)) (RingConc.h_popped (ring c)) (delivered c) ∧
  (∃ waiting, RingConc.h_pushed (ring c) = RingConc.h_popped (ring c) ++ waiting ∧
     ∀ i n, waiting !! i = Some n → i ≠ 0%nat ∨ drain c = DIdle → stored (event n) (waiting_slot capacity c i)) ∧
  fault c = false ∧ InternConc.c_fault (intern c) = false.
Proof.
  destruct (queue_reachable_inv capacity event k Hk eq_refl Hev c Hreach) as (H & T & queue & h & Hinv). split_and!.
  - apply Hinv.
  - exists queue. split; [apply (qi_ring _ _ _ _ _ _ _ Hinv)|]. intros i n Hi Hd. unfold waiting_slot.
    rewrite (RingConc.ci_tail _ _ _ _ _ (qi_ring _ _ _ _ _ _ _ Hinv)), u64_add_u64_l.
    eapply slot_ok_stored; [done|apply Hev|by eapply qi_slots].
  - apply Hinv.
  - apply (InternConcThms.co_fault _ _ _ (qi_intern _ _ _ _ _ _ _ Hinv)).
Qed.

(** ** Memory *)

Lemma nothing_held c H T queue h a :
  queue_inv capacity event c H T queue h → (∀ p, quiet (RingConc.c_prod (ring c) p) = true) →
  RingConc.c_head (ring c) = RingConc.c_tail (ring c) → ¬ held c H T a.
Proof.
  intros Hinv Hquiet Hht (i & _ & Hi & Hw). pose proof (qi_ring _ _ _ _ _ _ _ Hinv) as Hring.
  rewrite (RingConc.ci_head _ _ _ _ _ Hring), (RingConc.ci_tail _ _ _ _ _ Hring) in Hht.
  pose proof (RingConc.ci_order _ _ _ _ _ Hring).
  assert (H - T = 0) as Hz.
  { apply (u64_window capacity k Hk eq_refl T); [lia..|]. rewrite Z.add_0_r, <- Hht. f_equal. lia. }
  destruct Hw as (p & n & todo & Hp); [lia|]. specialize (Hquiet p). by destruct Hp as [Hp|Hp]; rewrite Hp in Hquiet.
Qed.

Lemma all_idle c H T queue h :
  queue_inv capacity event c H T queue h → (∀ p, quiet (RingConc.c_prod (ring c) p) = true) →
  RingConc.c_cons (ring c) = RingConc.CIdle → ∀ q, InternConc.c_pc (intern c) q = InternConc.PIdle.
Proof.
  intros Hinv Hquiet Hc [|p].
  - destruct (qi_drain _ _ _ _ _ _ _ Hinv) as [Hd Hi]. rewrite Hc in Hd. apply Hi. by rewrite Hd.
  - destruct (qi_fill _ _ _ _ _ _ _ Hinv p) as [Hok Hi]. apply Hi. specialize (Hquiet p). unfold filling_ok in Hok.
    destruct (RingConc.c_prod (ring c) p); try done; by rewrite Hok.
Qed.

(** The answer of the allocator that leaves by an error. *)
Definition raises (a : Action) : bool := match a with AFillAlloc _ AllocError => true | _ => false end.

Lemma leak_raises a c c' : exec capacity event a c = Some c' → raises a = false → h_leaked c' = h_leaked c.
Proof.
  destruct a as [a|p|p outcome|]; simpl; intros Ha Hr.
  - apply ring_step_Some in Ha as (_ & r & _ & ->). done.
  - unfold fill_step in Ha. destruct (filling event p c) as [[ev pos]|]; [|done].
    destruct (RingConc.c_prod (ring c) p); try done; destruct (fill c p); try done.
    + apply option_map_Some in Ha as (c1 & Hm & ->). by apply ring_move_Some in Hm as (r & _ & ->).
    + destruct (_ =? 0); [|done]. by injection Ha as <-.
    + destruct (0 <? _); [|by injection Ha as <-].
      apply option_map_Some in Ha as (c1 & Hm & ->). by apply intern_move_Some in Hm as (i & _ & ->).
    + apply option_map_Some in Ha as (c1 & Hm & ->). apply intern_move_Some in Hm as (i & _ & ->). unfold acquired.
      destruct (InternConc.c_pc _ _); try done. by destruct (InternConc.returned _).
    + apply option_map_Some in Ha as (c1 & Hm & ->). by apply ring_move_Some in Hm as (r & _ & ->).
  - unfold fill_alloc in Ha. destruct (filling event p c) as [[ev pos]|]; [|done].
    destruct (RingConc.c_prod (ring c) p); try done; destruct (fill c p); try done.
    + destruct (_ =? 0); [done|]. destruct outcome as [dp| |]; simpl in Ha, Hr; [|by injection Ha as <-|done].
      destruct (strings c !! dp); [done|]. destruct (InternConc.c_heap (intern c) !! dp); [done|].
      destruct (DsaPointerIsValid dp); [|done]. by injection Ha as <-.
    + destruct outcome as [dp| |]; [| |done].
      * destruct (strings c !! dp); [done|]. by apply intern_move_Some in Ha as (i & _ & ->).
      * apply option_map_Some in Ha as (c1 & Hm & ->). apply intern_move_Some in Hm as (i & _ & ->). unfold acquired.
        by destruct (InternConc.c_pc _ _).
  - unfold drain_step in Ha. destruct (RingConc.c_cons (ring c)) as [| |pos|pos x]; try done; destruct (drain c); try done.
    + apply option_map_Some in Ha as (c1 & Hm & ->). by apply ring_move_Some in Hm as (r & _ & ->).
    + injection Ha as <-. unfold resolve_err. by destruct (DsaPointerIsValid _).
    + by injection Ha as <-.
    + destruct (DsaPointerIsValid _); [|by injection Ha as <-]. destruct (h_ref _ !! pos); [|done]. destruct (_ =? _); [|done].
      apply option_map_Some in Ha as (c1 & Hm & ->). by apply intern_move_Some in Hm as (i & _ & ->).
    + apply option_map_Some in Ha as (c1 & Hm & ->). apply intern_move_Some in Hm as (i & _ & ->).
      destruct (InternConc.c_pc (intern c) worker); simpl; by destruct (InternConc.c_pc i worker).
    + apply option_map_Some in Ha as (c1 & Hm & ->). by apply ring_move_Some in Hm as (r & _ & ->).
Qed.

(** C19: When the queue is empty, no slot is being filled and the worker is between two
    events, the interner has no object, no entry and no reference; and the only strings
    that are still there are those an allocation error left behind, which nothing but
    such an error adds to. *)
Theorem drained_queue_holds_nothing c (Hreach : reachable capacity event c)
  (Hempty : RingConc.c_head (ring c) = RingConc.c_tail (ring c)) (Hcons : RingConc.c_cons (ring c) = RingConc.CIdle)
  (Hquiet : ∀ p, quiet (RingConc.c_prod (ring c) p) = true) :
  InternConc.c_heap (intern c) = ∅ ∧ InternConc.c_tab (intern c) = ∅ ∧ InternConc.c_refs (intern c) = ∅ ∧
  (∀ dp, is_Some (strings c !! dp) → dp ∈ h_leaked c) ∧
  ∀ a c', exec capacity event a c = Some c' → raises a = false → h_leaked c' = h_leaked c.
Proof.
  destruct (queue_reachable_inv capacity event k Hk eq_refl Hev c Hreach) as (H & T & queue & h & Hinv).
  pose proof (λ a, nothing_held c H T queue h a Hinv Hquiet Hempty) as Hn.
  pose proof (all_idle c H T queue h Hinv Hquiet Hcons) as Hidle. pose proof (qi_intern _ _ _ _ _ _ _ Hinv) as Hint.
  assert (InternConc.c_refs (intern c) = ∅) as Hrefs.
  { apply map_empty. intros r. destruct (InternConc.c_refs (intern c) !! r) as [x|] eqn:Hr; [|done].
    destruct (ow_ref _ _ _ (qi_ref _ _ _ _ _ _ _ Hinv) r) as [[a Ha]|[q Hq]]; [by exists x| |by rewrite Hidle in Hq].
    by apply (ow_ref_pos _ _ _ (qi_ref _ _ _ _ _ _ _ Hinv)), Hn in Ha. }
  split_and!; [..|done| |intros a c'; apply leak_raises].
  - apply map_empty. intros d. destruct (InternConc.c_heap (intern c) !! d) as [b|] eqn:Hd; [|done].
    destruct (InternConcThms.idle_block _ _ _ _ _ Hint Hidle Hd) as (r & x & Hr & _). by rewrite Hrefs in Hr.
  - apply map_empty. intros key. destruct (InternConc.c_tab (intern c) !! key) as [e|] eqn:He; [|done].
    destruct (entry_refcount _ _ _ (InternConcThms.to_intern _ _ _ _ (InternConcThms.co_table _ _ _ Hint)) key e He) as [Hc Hp].
    rewrite Hrefs in Hc. unfold InternConcThms.refs_of in Hc. rewrite map_to_list_empty, fmap_nil, count_nil in Hc. lia.
  - intros dp Hdp. destruct (ow_string _ _ _ (qi_err _ _ _ _ _ _ _ Hinv) dp Hdp) as [[a Ha]|?]; [|done].
    by apply (ow_err_pos _ _ _ (qi_err _ _ _ _ _ _ _ Hinv)), Hn in Ha.
Qed.

(** The holders of references while a producer is about to enter an object of its own. *)
Lemma holders_entering c H T queue h p q dp :
  queue_inv capacity event c H T queue h → InternConc.c_pc (intern c) (backend p) = InternConc.PEnter q dp →
  Z.of_nat (length (ref_holders c H T)) ≤ H - T < capacity.
Proof.
  intros Hinv Hpc. destruct (qi_fill _ _ _ _ _ _ _ Hinv p) as [Hok Hi].
  destruct (decide (fill c p = FAcquire)) as [Hf|Hf]; [|apply Hi in Hf; unfold idle in Hf; congruence].
  pose proof (acquire_locked _ _ _ _ (conj Hok Hi) Hf) as Hl. unfold filling_ok in Hok.
  destruct (RingConc.c_prod (ring c) p) as [| | | | | | | | | | | | |n pos todo|n pos todo| |] eqn:Hp; try (by rewrite Hok in Hf);
    [|by destruct Hok; congruence].
  rewrite Hf in Hok. destruct Hok as (_ & _ & Hnr & _).
  destruct (filling_head capacity event k Hk c H T queue h p n pos todo Hinv (or_intror Hp)) as (-> & Hroom & Hq). split; [|lia].
  unfold ref_holders. rewrite <- Hp in Hl.
  rewrite (proj1 (RingConc.li_prod _ (RingConc.ci_lock _ _ _ _ _ (qi_ring _ _ _ _ _ _ _ Hinv)) p) Hl), Hpc. simpl.
  rewrite app_nil_r, length_app. replace (H - T + 1) with (Z.of_nat (Z.to_nat (H - T)) + 1) by lia.
  rewrite seqZ_app, omap_app by lia. rewrite !Z2Nat.id by lia. simpl.
  replace (T + (Z.of_nat 0 + (0 + (H - T)))) with H by lia.
  rewrite Hnr. simpl. rewrite app_nil_r.
  pose proof (length_omap_le (λ i, h_ref c !! u64 (T + i)) (seqZ 0 (H - T))) as Hle. rewrite length_seqZ in Hle.
  destruct (InternConcThms.uses (InternConc.c_pc (intern c) worker)) as [r|] eqn:Hu; simpl; [|lia].
  destruct (qi_drain _ _ _ _ _ _ _ Hinv) as [Hd Hdi].
  destruct (decide (drain c = DRelease)) as [Hdr|Hdr]; [|apply Hdi in Hdr; unfold idle in Hdr; by rewrite Hdr in Hu].
  destruct (RingConc.c_cons (ring c)) as [| | |pos x] eqn:Hc; try congruence.
  destruct (taking capacity event k Hk c H T queue h pos x Hinv Hc) as (-> & Hlt & m & rest & -> & _ & Ht). rewrite Hdr in Ht.
  destruct Ht as (_ & _ & Hnone & _). rewrite (seqZ_cons 0) in * by lia. csimpl in *. rewrite Z.add_0_r, Hnone in *.
  pose proof (length_omap_le (λ i, h_ref c !! u64 (T + i)) (seqZ (Z.succ 0) (Z.pred (H - T)))) as Hle'. rewrite length_seqZ in Hle'. lia.
Qed.

(** C20: A producer never finds the intern table full. When it is about to enter an object of
    its own, the table has fewer entries than the queue has slots, for which it was sized;
    so no query is lost for lack of an entry, whatever the worker and the other producers
    are doing. *)
Theorem intern_table_has_room c p q dp (Hreach : reachable capacity event c)
  (Hpc : InternConc.c_pc (intern c) (backend p) = InternConc.PEnter q dp) :
  Z.of_nat (size (InternConc.c_tab (intern c))) < capacity ∧
  (htab_sized E → psch_queue_capacity = capacity → hash_has_room (InternConc.c_tab (intern c)) (InternConc.q_key q) = true).
Proof.
  destruct (queue_reachable_inv capacity event k Hk eq_refl Hev c Hreach) as (H & T & queue & h & Hinv).
  pose proof (holders_entering _ _ _ _ _ _ _ _ Hinv Hpc) as Hh. pose proof (refs_size capacity event k Hk c H T queue h Hinv) as Hs.
  pose proof (intern_inv_size _ _ _ (InternConcThms.to_intern _ _ _ _ (InternConcThms.co_table _ _ _ (qi_intern _ _ _ _ _ _ _ Hinv)))) as Ht.
  rewrite InternConcThms.length_refs in Ht.
  assert (Z.of_nat (size (InternConc.c_tab (intern c))) < capacity) as Hlt by lia.
  split; [done|]. intros Hsz Hcap. apply Hsz. by rewrite Hcap.
Qed.

End queue.

(** ** A run on concrete events *)

Definition run_to (actions : list Action) : Conf :=
  let c := start (2 ^ 2) (2 ^ 64 - 1) (repeat zero_entry 4) zero_event in
  default c (exec_all (E := demo1) (2 ^ 2) (λ _, demo_ev1) actions c).

(** Backend 0 queues an event with both texts; the worker takes it. *)
Definition entering_run : list Action :=
  ARing (RingConc.ACall 0 7) :: repeat (ARing (RingConc.AProd 0)) 5 ++
  [AFill 0; AFillAlloc 0 (AllocOk 16)] ++ repeat (AFill 0) 4 ++ AFillAlloc 0 (AllocOk 32) :: [AFill 0].
Definition enqueue_run : list Action := entering_run ++ repeat (AFill 0) 3 ++ repeat (ARing (RingConc.AProd 0)) 3.
Definition deliver_run : list Action := enqueue_run ++ repeat (ARing RingConc.ACons) 2 ++ repeat ADrain 11.

Lemma run_to_reachable actions :
  (if exec_all (E := demo1) (2 ^ 2) (λ _, demo_ev1) actions
     (start (2 ^ 2) (2 ^ 64 - 1) (repeat zero_entry 4) zero_event) then true else false) = true →
  reachable (E := demo1) (2 ^ 2) (λ _, demo_ev1) (run_to actions).
Proof.
  intros Hrun. exists (2 ^ 64 - 1), (repeat zero_entry 4), zero_event.
  split_and!; [done|done|by vm_compute|]. unfold run_to. revert Hrun.
  destruct (exec_all _ _ _ _) as [c|] eqn:Hc; [|done]. intros _. by eapply queue_exec_rtc.
Qed.

Lemma demo_runs_reachable :
  reachable (E := demo1) (2 ^ 2) (λ _, demo_ev1) (run_to entering_run) ∧
  reachable (E := demo1) (2 ^ 2) (λ _, demo_ev1) (run_to enqueue_run) ∧
  reachable (E := demo1) (2 ^ 2) (λ _, demo_ev1) (run_to deliver_run).
Proof. split_and!; apply run_to_reachable; by vm_compute. Qed.

Lemma every_event_arrives_witness :
  (RingConc.h_popped (ring (run_to deliver_run)) = [7] ∧
   (λ o, (firstn 8 (query o), firstn 8 (err_message o))) <$> delivered (run_to deliver_run) =
     [(bytes_of_string "SELECT 1", bytes_of_string "division")]) ∧
  ∃ waiting, [7] = [] ++ waiting ∧
    ∀ i n, waiting !! i = Some n → stored demo_ev1 (waiting_slot (2 ^ 2) (run_to enqueue_run) i).
Proof.
  split; [by vm_compute|].
  destruct (every_event_arrives (E := demo1) 2 ltac:(lia) (λ _, demo_ev1) (λ _, demo_ev1_ok) (run_to enqueue_run)
    (proj1 (proj2 demo_runs_reachable))) as (_ & (w & Hw & Hs) & _).
  exists w. split; [exact Hw|]. intros i n Hi. apply (Hs i n Hi). right. by vm_compute.
Defined.

Lemma drained_queue_holds_nothing_witness :
  (length (delivered (run_to deliver_run)) = 1%nat ∧ size (strings (run_to enqueue_run)) = 1%nat ∧
   size (InternConc.c_heap (intern (run_to enqueue_run))) = 1%nat) ∧
  InternConc.c_heap (intern (run_to deliver_run)) = ∅ ∧ InternConc.c_tab (intern (run_to deliver_run)) = ∅.
Proof.
  split; [by vm_compute|].
  destruct (drained_queue_holds_nothing (E := demo1) 2 ltac:(lia) (λ _, demo_ev1) (λ _, demo_ev1_ok) (run_to deliver_run)
    (proj2 (proj2 demo_runs_reachable)) ltac:(by vm_compute) ltac:(by vm_compute)
    ltac:(intros [|p]; by vm_compute)) as (H1 & H2 & _).
  by split.
Defined.

Lemma intern_table_has_room_witness :
  ∃ q dp, InternConc.c_pc (intern (run_to entering_run)) (backend 0) = InternConc.PEnter q dp ∧
    hash_has_room (Env := demo1) (InternConc.c_tab (intern (run_to entering_run))) (InternConc.q_key q) = true.
Proof.
  destruct (InternConc.c_pc (intern (run_to entering_run)) (backend 0)) as [| | | | | | |q dp| | | | | | | |] eqn:Hpc;
    try (vm_compute in Hpc; congruence).
  exists q, dp. split; [done|].
  exact (proj2 (intern_table_has_room (E := demo1) 2 ltac:(lia) (λ _, demo_ev1) (λ _, demo_ev1_ok) (run_to entering_run) 0 q dp
    (proj1 demo_runs_reachable) Hpc) (demo_sized 9 true false) eq_refl).
Defined.

End QueueConcThms.
