(* ===== verification/QueueConcLive.v ===== *)
(** The consumer always gets through: progress of the whole queue under concurrency
    ([QueueConc.v]). The only thing the worker can wait for is a partition lock of the
    interner, and a backend that holds one gives it back within two steps of its own. *)

From stdpp Require Import relations.
From S2P Require Import Prelude Event Shared Dsa Intern Ring InternInv RingInv RingSpec QueueThms RingConc InternConc.
From S2P Require Import InternConcThms InternLive InternMoves QueueConc QueueConcInv QueueConcThms.
Import Event Shared Dsa Intern Ring InternInv RingInv RingSpec QueueThms InternMoves QueueConc QueueConcInv QueueConcThms.

Module QueueConcLive.

Section live.
Context {E : Env} {L : EnvLaws E} (k : Z) (Hk : 0 ≤ k ≤ 31) (event : Z → PschEvent) (Hev : ∀ n, event_ok (event n)).
#[local] Abbreviation capacity := (2 ^ k).
#[local] Abbreviation exec := (exec capacity event).
#[local] Abbreviation exec_all := (exec_all capacity event).
#[local] Abbreviation queue_inv := (queue_inv capacity event).

(** An event waits. *)
Definition pending (c : Conf) : Prop := RingConc.c_head (ring c) ≠ RingConc.c_tail (ring c).

(** The steps, of the worker and of those it waits for, until the next event is delivered. *)
Definition left (c : Conf) : nat :=
  match RingConc.c_cons (ring c) with
  | RingConc.CIdle => 15
  | RingConc.CGotHead h => if h =? RingConc.c_tail (ring c) then 16 else 14
  | RingConc.CCopy _ => 13
  | RingConc.CCopied _ _ =>
    match drain c with
    | DIdle => 0
    | DErr => 12
    | DErrFree _ => 11
    | DQuery => 10
    | DRelease => S (InternLive.budget (InternConc.c_pc (intern c) worker))
    | DDone => 1
    end
  end.

(** A step of the worker, or of a backend that holds a partition lock in [c]. *)
Definition helps (c : Conf) (a : Action) : Prop :=
  a = ADrain ∨ a = ARing RingConc.ACons ∨
  ∃ p, a = AFill p ∧ is_Some (InternConcThms.locked (InternConc.c_pc (intern c) (backend p))).

(** The backends are where they were, or hold no lock any more. *)
Definition others (c c' : Conf) : Prop :=
  ∀ p, InternConc.c_pc (intern c') (backend p) = InternConc.c_pc (intern c) (backend p) ∨
       InternConcThms.locked (InternConc.c_pc (intern c') (backend p)) = None.

Lemma others_refl c c' : InternConc.c_pc (intern c') = InternConc.c_pc (intern c) → others c c'.
Proof. intros H p. left. by rewrite H. Qed.

Lemma others_trans c1 c2 c3 : others c1 c2 → others c2 c3 → others c1 c3.
Proof. intros H1 H2 p. destruct (H2 p) as [->|]; [apply H1|by right]. Qed.

Lemma helps_later c c' a : others c c' → helps c' a → helps c a.
Proof.
  intros Ho [->|[->|(p & -> & Hl)]]; [by left|by right; left|]. right. right. exists p. split; [done|].
  destruct (Ho p) as [<-|Hn]; [done|]. rewrite Hn in Hl. by destruct Hl.
Qed.

Lemma run_app l1 l2 c : exec_all (l1 ++ l2) c = exec_all l1 c ≫= exec_all l2.
Proof. revert c. induction l1 as [|a l1 IH]; intros c; simpl; [done|]. destruct (exec a c); [apply IH|done]. Qed.

Lemma run_cons a l c c1 c2 : exec a c = Some c1 → exec_all l c1 = Some c2 → exec_all (a :: l) c = Some c2.
Proof. cbn [QueueConc.exec_all]. by intros ->. Qed.

Lemma inv_run_step c a c' : (∃ H T q h, queue_inv c H T q h) → exec a c = Some c' → ∃ H T q h, queue_inv c' H T q h.
Proof.
  intros (H & T & q & h & Hinv) Ha. eapply (queue_inv_step capacity event k Hk eq_refl Hev); [done|by eapply do_step].
Qed.

Lemma inv_exec_all l c c' : (∃ H T q h, queue_inv c H T q h) → exec_all l c = Some c' → ∃ H T q h, queue_inv c' H T q h.
Proof.
  revert c. induction l as [|a l IH]; intros c Hinv; simpl; [by intros [= <-]|].
  destruct (exec a c) as [c1|] eqn:Ha; [|done]. intros Hl. eapply IH; [by eapply inv_run_step|done].
Qed.

(** ** A backend that holds a partition lock *)

(** What its step leaves alone. *)
Definition same_drain (c c' : Conf) : Prop :=
  ring c' = ring c ∧ drain c' = drain c ∧ delivered c' = delivered c.

Lemma lift_fill c p i H T q h :
  queue_inv c H T q h → InternConc.c_pc (intern c) (backend p) ≠ InternConc.PIdle →
  intern_exec (InternConc.AStep (backend p)) (intern c) = Some i →
  ∃ c', exec (AFill p) c = Some c' ∧ intern c' = i ∧ same_drain c c'.
Proof.
  intros Hinv Hp Hi. destruct (qi_fill _ _ _ _ _ _ _ Hinv p) as [Hok Hidle].
  assert (fill c p = FAcquire) as Hf by (destruct (decide (fill c p = FAcquire)); [done|by destruct Hp; apply Hidle]).
  unfold filling_ok in Hok. simpl. unfold fill_step, filling.
  destruct (RingConc.c_prod (ring c) p) as [| | | | | | | | | | | | |n pos todo|n pos todo| |] eqn:Hpc; try (by rewrite Hf in Hok);
    [|by destruct Hok; congruence].
  rewrite Hf. unfold intern_move. rewrite Hi. eexists. split; [done|]. unfold acquired, same_drain. simpl.
  destruct (InternConc.c_pc i (backend p)); try done. by destruct (InternConc.returned _).
Qed.

Lemma lock_freed c H T q h i o :
  queue_inv c H T q h → InternConc.c_locks (intern c) !! i = Some o → o ≠ worker →
  ∃ acts c', exec_all acts c = Some c' ∧ (length acts ≤ 2)%nat ∧ Forall (helps c) acts ∧ same_drain c c' ∧ others c c' ∧
    InternConc.c_pc (intern c') worker = InternConc.c_pc (intern c) worker ∧ InternConc.c_locks (intern c') !! i = None.
Proof.
  intros Hinv Hlk Ho. destruct o as [|p]; [done|]. clear Ho. pose proof (qi_intern _ _ _ _ _ _ _ Hinv) as Hok.
  pose proof (proj2 (InternConcThms.co_locks _ _ _ Hok (S p) i) Hlk) as Hl.
  destruct (InternConcThms.locked (InternConc.c_pc (intern c) (S p))) as [key|] eqn:Hkey; [|done]. simpl in Hl. injection Hl as Hpart.
  assert (∀ c1 x, InternConcThms.locked (InternConc.c_pc (intern c1) (backend p)) = Some x →
    InternConc.c_pc (intern c1) (backend p) ≠ InternConc.PIdle) as Hbusy by (intros c1 x Hx Hp; by rewrite Hp in Hx).
  assert (helps c (AFill p)) as Hh by (right; right; exists p; split; [done|]; unfold backend; by rewrite Hkey).
  assert (∀ c1 c2, (∀ q, q ≠ S p → InternConc.c_pc (intern c2) q = InternConc.c_pc (intern c1) q) →
    InternConcThms.locked (InternConc.c_pc (intern c2) (S p)) = None → others c1 c2) as Hoth.
  { intros c1 c2 Hf Hn r. destruct (decide (r = p)) as [->|Hne]; [by right|left]. apply Hf. unfold backend. congruence. }
  destruct (InternLive.leaving (InternConc.c_pc (intern c) (S p))) eqn:Hv.
  - destruct (InternLive.leaving_step PSCH_MAX_QUERY_LEN _ _ _ Hkey Hv) as (i' & Hs & Hn & Hlocks & _ & Hf).
    destruct (lift_fill c p i' H T q h Hinv (Hbusy _ _ Hkey) Hs) as (c' & Hc & <- & Hsd).
    exists [AFill p], c'. split_and!; [by eapply run_cons|simpl; lia|by apply Forall_singleton|done|by apply Hoth| |].
    + by apply Hf.
    + rewrite Hlocks, Hpart. apply lookup_delete_eq.
  - destruct (InternLive.locked_step PSCH_MAX_QUERY_LEN _ _ _ _ Hok Hkey Hv) as (i1 & Hs1 & Hv1 & Hl1 & E1 & _ & F1).
    destruct (lift_fill c p i1 H T q h Hinv (Hbusy _ _ Hkey) Hs1) as (c1 & Hc1 & <- & Hsd1).
    destruct (inv_run_step c (AFill p) c1) as (H1 & T1 & q1 & h1 & Hinv1); [by do 4 eexists|done|].
    destruct (InternLive.leaving_step PSCH_MAX_QUERY_LEN _ _ _ Hl1 Hv1) as (i' & Hs & Hn & Hlocks & _ & Hf).
    destruct (lift_fill c1 p i' H1 T1 q1 h1 Hinv1 (Hbusy _ _ Hl1) Hs) as (c' & Hc & <- & Hsd).
    exists [AFill p; AFill p], c'. split_and!; [by do 2 (eapply run_cons; [done|])|simpl; lia|by apply Forall_cons_2, Forall_singleton| | | |].
    + destruct Hsd1 as (? & ? & ?), Hsd as (? & ? & ?). split_and!; congruence.
    + apply Hoth; [|done]. intros r Hr. by rewrite Hf, F1.
    + by rewrite Hf, F1.
    + rewrite Hlocks, E1, Hpart. apply lookup_delete_eq.
Qed.

(** ** A step of the worker *)

(** A step that neither delivers nor loses sight of the next event. *)
Definition nearer (c c' : Conf) (n : nat) : Prop :=
  delivered c' = delivered c ∧ pending c' ∧ (left c' + n ≤ left c)%nat ∧ others c c'.

(** In [PschQueryInternResolveAndRelease], when it need not wait. *)
Lemma release_advances c pos x H T q h :
  queue_inv c H T q h → RingConc.c_cons (ring c) = RingConc.CCopied pos x → drain c = DRelease →
  (∀ key, InternLive.waits (InternConc.c_pc (intern c) worker) = Some key → InternConc.c_locks (intern c) !! InternConc.partition key = None) →
  ∃ c', exec ADrain c = Some c' ∧ delivered c' = delivered c ∧ ring c' = ring c ∧ others c c' ∧
    (left c' + (if InternLive.waits (InternConc.c_pc (intern c) worker) then 3 else 1) ≤ left c)%nat.
Proof.
  intros Hinv Hc Hd Hfree. destruct (taking capacity event k Hk c H T q h pos x Hinv Hc) as (-> & Hlt & m & rest & -> & _ & Ht).
  rewrite Hd in Ht. destruct Ht as (_ & _ & _ & Hrel).
  assert (InternConc.c_pc (intern c) worker ≠ InternConc.PIdle ∧
          InternLive.next_action worker (intern c) = InternConc.AStep worker) as [Hp Hnext].
  { unfold InternLive.next_action. destruct Hrel as [(r & y & -> & _)|[Hr _]]; [done|].
    by destruct (InternConc.c_pc (intern c) worker). }
  destruct (InternLive.caller_step PSCH_MAX_QUERY_LEN _ _ worker (qi_intern _ _ _ _ _ _ _ Hinv) Hp Hfree) as (i & Hi & Hb & Hf).
  rewrite Hnext in Hi. cbn [exec]. unfold drain_step. rewrite Hc, Hd. unfold intern_move, intern_exec. rewrite Hi. simpl.
  eexists. split; [reflexivity|]. clear Hfree.
  set (c2 := if _ : bool then _ else _).
  assert (intern c2 = i ∧ ring c2 = ring c ∧ delivered c2 = delivered c ∧ drain c2 = DRelease) as (E1 & E2 & E3 & E4).
  { unfold c2. destruct (match InternConc.c_pc (intern c) worker with InternConc.RResolve _ => true | _ => false end); done. }
  rewrite E1. unfold left at 2. rewrite Hc, Hd. destruct (InternConc.c_pc i worker) eqn:Hpc; rewrite ?E2, ?E3;
    (split_and!; [simpl; congruence|simpl; congruence|intros p; left; simpl; rewrite E1; by apply Hf|]);
    unfold left; simpl; rewrite ?E2, Hc, ?E4, ?E1, ?Hpc; simpl in *; lia.
Qed.

(** Looking for an event that waits. *)
Lemma head_advances c H T q h :
  queue_inv c H T q h → pending c → RingConc.c_cons (ring c) = RingConc.CIdle →
  ∃ c', exec (ARing RingConc.ACons) c = Some c' ∧ nearer c c' 1.
Proof.
  intros Hinv Hp Hc. cbn [QueueConc.exec]. unfold ring_step. rewrite Hc. unfold ring_move, ring_exec. simpl.
  unfold RingConc.cons_step. rewrite Hc. eexists. split; [done|]. split_and!; [done|done| |by apply others_refl].
  unfold left. rewrite Hc. simpl. by rewrite (proj2 (Z.eqb_neq _ _) Hp).
Qed.

Lemma tail_advances c hd H T q h :
  queue_inv c H T q h → pending c → RingConc.c_cons (ring c) = RingConc.CGotHead hd →
  ∃ c', exec (ARing RingConc.ACons) c = Some c' ∧ nearer c c' 1.
Proof.
  intros Hinv Hp Hc. cbn [QueueConc.exec]. unfold ring_step. rewrite Hc. unfold ring_move, ring_exec. simpl.
  unfold RingConc.cons_step. rewrite Hc. eexists. split; [done|]. split_and!; [done|done| |by apply others_refl].
  unfold left. rewrite Hc. simpl. by destruct (hd =? RingConc.c_tail (ring c)).
Qed.

(** Copying the prefix of its slot. *)
Lemma copy_advances c t H T q h :
  queue_inv c H T q h → pending c → RingConc.c_cons (ring c) = RingConc.CCopy t →
  ∃ c', exec ADrain c = Some c' ∧ nearer c c' 1.
Proof.
  intros Hinv Hp Hc. destruct (qi_drain _ _ _ _ _ _ _ Hinv) as [Hd _]. rewrite Hc in Hd.
  cbn [QueueConc.exec]. unfold drain_step. rewrite Hc, Hd. unfold ring_move, ring_exec. simpl.
  unfold RingConc.cons_step. rewrite Hc. eexists. split; [done|]. split_and!; [done|done| |by apply others_refl].
  unfold left. by rewrite Hc.
Qed.

(** Taking it, outside the interner. *)
Lemma take_advances c t x H T q h :
  queue_inv c H T q h → pending c → RingConc.c_cons (ring c) = RingConc.CCopied t x → drain c ≠ DRelease →
  ∃ c', exec ADrain c = Some c' ∧ (nearer c c' 1 ∨ ((∃ o, delivered c' = delivered c ++ [o]) ∧ left c = 1%nat)).
Proof.
  intros Hinv Hp Hc Hr. destruct (taking capacity event k Hk c H T q h t x Hinv Hc) as (-> & Hlt & m & rest & -> & _ & Ht).
  pose proof (proj2 (qi_drain _ _ _ _ _ _ _ Hinv) Hr) as Hidle. unfold idle in Hidle.
  assert (left c = match drain c with DErr => 12 | DErrFree _ => 11 | DQuery => 10 | DDone => 1 | _ => 0 end)%nat as Hl.
  { unfold left. rewrite Hc. by destruct (drain c). }
  cbn [QueueConc.exec]. unfold drain_step. rewrite Hc. destruct (drain c) as [| |dp| | |] eqn:Hd; try done.
  - eexists. split; [done|]. left. unfold resolve_err, nearer, left, pending. destruct (DsaPointerIsValid _); simpl; rewrite Hc, Hd;
      (split_and!; [done|done|lia|by apply others_refl]).
  - eexists. split; [done|]. left. unfold nearer. rewrite Hl. split_and!; [done|done| |by apply others_refl].
    unfold left. simpl. rewrite Hc. lia.
  - destruct Ht as (_ & _ & Hq). unfold query_slot in Hq. cbn. destruct (h_ref c !! u64 T) as [r|] eqn:Href.
    + destruct Hq as (_ & y & Hy & Hu & Hptr & _).
      destruct (InternConcThms.reference_object _ _ _ _ _ (qi_intern _ _ _ _ _ _ _ Hinv) Hy) as (? & ? & ? & _ & _ & _ & _ & _ & Hv).
      assert (DsaPointerIsValid (query_dsa (slot capacity (u64 T) c)) = true) as Hvalid by by apply DsaPointerIsValid_spec; rewrite <- Hptr.
      change (slot capacity (u64 T) _) with (slot capacity (u64 T) c). rewrite Hvalid.
      unfold InternConc.pointer. rewrite Hy, Hptr, Z.eqb_refl. unfold intern_move, intern_exec. simpl.
      unfold InternConc.release_call. rewrite Hidle, Hy. destruct y as [yp yt yu]. simpl in Hu. subst yu. eexists. split; [done|]. left.
      unfold nearer. rewrite Hl. split_and!; [done|done| |intros p; by left].
      unfold left. simpl. rewrite Hc. lia.
    + destruct Hq as [Hq _]. change (slot capacity (u64 T) _) with (slot capacity (u64 T) c). rewrite Hq. simpl. eexists. split; [done|].
      left. unfold nearer. rewrite Hl. split_and!; [done|done| |by apply others_refl]. unfold left. simpl. rewrite Hc. lia.
  - unfold ring_move, ring_exec. simpl. unfold RingConc.cons_step. rewrite Hc. eexists. split; [done|]. right. split; [by eexists|done].
Qed.

Lemma drain_progress c H T q h :
  queue_inv c H T q h → pending c →
  ∃ acts c', Forall (helps c) acts ∧ exec_all acts c = Some c' ∧ (1 ≤ length acts)%nat ∧
    (nearer c c' (length acts) ∨ ((∃ o, delivered c' = delivered c ++ [o]) ∧ (length acts ≤ left c)%nat)).
Proof.
  intros Hinv Hp.
  assert (∀ a c', helps c a → exec a c = Some c' → (nearer c c' 1 ∨ ((∃ o, delivered c' = delivered c ++ [o]) ∧ left c = 1%nat)) →
    ∃ acts c', Forall (helps c) acts ∧ exec_all acts c = Some c' ∧ (1 ≤ length acts)%nat ∧
      (nearer c c' (length acts) ∨ ((∃ o, delivered c' = delivered c ++ [o]) ∧ (length acts ≤ left c)%nat))) as Hone.
  { intros a c' Ha Hx Hn. exists [a], c'. split_and!; [by apply Forall_singleton|by eapply run_cons|done|].
    destruct Hn as [|[? ->]]; [by left|by right]. }
  destruct (RingConc.c_cons (ring c)) as [|hd|t|t x] eqn:Hc.
  - destruct (head_advances _ _ _ _ _ Hinv Hp Hc) as (c' & Hx & Hn). eapply Hone; [by right; left|done|by left].
  - destruct (tail_advances _ _ _ _ _ _ Hinv Hp Hc) as (c' & Hx & Hn). eapply Hone; [by right; left|done|by left].
  - destruct (copy_advances _ _ _ _ _ _ Hinv Hp Hc) as (c' & Hx & Hn). eapply Hone; [by left|done|by left].
  - destruct (decide (drain c = DRelease)) as [Hd|Hd];
      [|destruct (take_advances _ _ _ _ _ _ _ Hinv Hp Hc Hd) as (c' & Hx & Hn); by eapply Hone; [left|..]].
    destruct (InternLive.waits (InternConc.c_pc (intern c) worker)) as [key|] eqn:Hw;
      [destruct (InternConc.c_locks (intern c) !! InternConc.partition key) as [o|] eqn:Ho|].
    + assert (o ≠ worker) as How.
      { intros ->. pose proof (proj2 (InternConcThms.co_locks _ _ _ (qi_intern _ _ _ _ _ _ _ Hinv) _ _) Ho) as Hl.
        destruct (InternConc.c_pc (intern c) worker); done. }
      destruct (lock_freed _ _ _ _ _ _ _ Hinv Ho How) as (acts & c1 & Hrun & Hlen & Hh & (S1 & S2 & S3) & Hoth & Hpc & Hfree).
      destruct (inv_exec_all acts c c1) as (H1 & T1 & q1 & h1 & Hinv1); [by do 4 eexists|done|].
      destruct (release_advances c1 t x H1 T1 q1 h1 Hinv1) as (c' & Hx & D1 & D2 & D3 & D4);
        [by rewrite S1|by rewrite S2|intros key'; rewrite Hpc, Hw; by intros [= <-]|].
      exists (acts ++ [ADrain]), c'. split_and!.
      * apply Forall_app. split; [done|]. apply Forall_singleton. by left.
      * rewrite run_app, Hrun. simpl. simpl in Hx. by rewrite Hx.
      * rewrite length_app. simpl. lia.
      * left. split_and!; [congruence|unfold pending in *; by rewrite D2, S1| |by eapply others_trans].
        assert (left c1 = left c) as Hl by (unfold left; by rewrite S1, S2, Hpc). rewrite Hpc, Hw in D4.
        rewrite length_app. simpl. lia.
    + destruct (release_advances c t x H T q h Hinv Hc Hd) as (c' & Hx & D1 & D2 & D3 & D4); [rewrite Hw; by intros key' [= <-]|].
      eapply Hone; [by left|done|]. left. split_and!; [done|unfold pending in *; by rewrite D2| |done]. rewrite Hw in D4. lia.
    + destruct (release_advances c t x H T q h Hinv Hc Hd) as (c' & Hx & D1 & D2 & D3 & D4); [by rewrite Hw|].
      eapply Hone; [by left|done|]. left. split_and!; [done|unfold pending in *; by rewrite D2| |done]. rewrite Hw in D4. lia.
Qed.

Lemma gets_through n c :
  (∃ H T q h, queue_inv c H T q h) → pending c → (left c ≤ n)%nat →
  ∃ acts c' o, (length acts ≤ n)%nat ∧ Forall (helps c) acts ∧ exec_all acts c = Some c' ∧ delivered c' = delivered c ++ [o].
Proof.
  revert c. induction n as [n IH] using lt_wf_ind. intros c (H & T & q & h & Hinv) Hp Hn.
  destruct (drain_progress _ _ _ _ _ Hinv Hp) as (acts & c1 & Hh & Hrun & Hlen & [(D & Hp1 & Hl & Ho)|[[o Hd] Hl]]).
  - destruct (IH (n - length acts)%nat ltac:(lia) c1) as (acts2 & c' & o & L2 & H2 & R2 & D2).
    { eapply inv_exec_all; [|exact Hrun]. by do 4 eexists. }
    { done. }
    { lia. }
    exists (acts ++ acts2), c', o. split_and!.
    + rewrite length_app. lia.
    + apply Forall_app. split; [done|]. eapply Forall_impl; [done|]. intros a. by apply helps_later.
    + by rewrite run_app, Hrun.
    + by rewrite D2, D.
  - exists acts, c1, o. split_and!; [lia|done..].
Qed.

(** C7: The consumer always gets through. From every reachable state in which an event
    waits, at most sixteen steps deliver the next one: steps of the worker, and of
    backends that hold a partition lock of the interner at the beginning; whatever the
    other backends were about to do, or wherever they stopped. *)
Theorem next_event_delivered c (Hreach : reachable capacity event c) (Hwait : pending c) :
  ∃ acts c' o, (length acts ≤ 16)%nat ∧ Forall (helps c) acts ∧ exec_all acts c = Some c' ∧ delivered c' = delivered c ++ [o].
Proof.
  apply gets_through; [by apply (queue_reachable_inv capacity event k Hk eq_refl Hev)|done|].
  unfold left. destruct (RingConc.c_cons (ring c)) as [|h|t|t x]; [lia|by case_match; lia|lia|].
  destruct (drain c); try lia. destruct (InternConc.c_pc (intern c) worker); simpl; lia.
Qed.

End live.
(** ** A concrete run *)

(** The worker is about to take the partition lock that backend 1 holds for the same
    query; backend 0's event waits. *)
Definition blocked_run : list Action :=
  enqueue_run ++ repeat (ARing RingConc.ACons) 2 ++ repeat ADrain 6 ++
  ARing (RingConc.ACall 1 8) :: repeat (ARing (RingConc.AProd 1)) 5 ++ [AFill 1; AFillAlloc 1 (AllocOk 48)] ++ repeat (AFill 1) 2.

Lemma next_event_delivered_witness :
  exec (E := demo1) (2 ^ 2) (λ _, demo_ev1) ADrain (run_to blocked_run) = None ∧
  ∃ acts c' o, (length acts ≤ 16)%nat ∧ Forall (helps (run_to blocked_run)) acts ∧
    exec_all (E := demo1) (2 ^ 2) (λ _, demo_ev1) acts (run_to blocked_run) = Some c' ∧ delivered c' = [o].
Proof.
  split; [by vm_compute|].
  destruct (next_event_delivered (E := demo1) 2 ltac:(lia) (λ _, demo_ev1) (λ _, demo_ev1_ok) (run_to blocked_run))
    as (acts & c' & o & H1 & H2 & H3 & H4).
  - apply run_to_reachable. by vm_compute.
  - by vm_compute.
  - exists acts, c', o. split; [exact H1|]. split; [exact H2|]. split; [exact H3|]. rewrite H4. by vm_compute.
Defined.

End QueueConcLive.
