(* ===== verification/QueueConcSeq.v ===== *)
(** The whole queue under concurrency ([QueueConc.v]) and the sequential functions of
    [Ring.v] and [LocalBatch.v]: an enqueue, a batch or a dequeue that no other process
    interrupts does what the function does. *)

From stdpp Require Import relations.
From S2P Require Import Prelude Event Shared Dsa Intern Ring LocalBatch InternInv RingInv RingSpec QueueThms RingConc.
From S2P Require Import InternConc InternConcThms InternLive InternMoves InternSeq QueueConc QueueConcInv QueueConcThms QueueConcLive.
Import Event Shared Dsa Intern Ring LocalBatch InternInv RingInv RingSpec QueueThms InternMoves InternSeq QueueConc QueueConcInv QueueConcThms QueueConcLive.

Module QueueConcSeq.

#[local] Existing Instance RingConc.Conf_eta.
#[local] Existing Instance InternConc.Conf_eta.

Section seq.
Context {E : Env} {L : EnvLaws E} (k : Z) (Hk : 0 ≤ k ≤ 31) (event : Z → PschEvent) (Hev : ∀ n, event_ok (event n)).
#[local] Abbreviation capacity := (2 ^ k).
#[local] Abbreviation exec := (exec capacity event).
#[local] Abbreviation exec_all := (exec_all capacity event).
#[local] Abbreviation queue_inv := (queue_inv capacity event).
#[local] Abbreviation slot := (slot capacity).
#[local] Abbreviation force := psch_debug_force_locked_overflow.

(** ** Runs of one process beside a sequential computation *)

(** The state [s] that a process sees is that of the machine. *)
Record mirrors (c : Conf) (s : Sys) : Prop := {
  mi_shared : ∃ st, psch_shared_state s = Some st ∧ q_head st = RingConc.c_head (ring c) ∧
    q_tail st = RingConc.c_tail (ring c) ∧ Shared.capacity st = capacity ∧
    enqueued st = RingConc.c_enqueued (ring c) ∧ dropped st = RingConc.c_dropped (ring c);
  mi_ring : Shared.ring s = slots c;
  mi_memory : agrees (strings c) (intern c) s }.

(** From [c] by steps that satisfy [P] to a state where [Q] holds. *)
Definition runs (P : Action → Prop) (c : Conf) (Q : Conf → Prop) : Prop :=
  ∃ acts c', Forall P acts ∧ exec_all acts c = Some c' ∧ Q c'.

Lemma runs_done (P : Action → Prop) c (Q : Conf → Prop) : Q c → runs P c Q.
Proof. intros HQ. exists [], c. by split_and!. Qed.

Lemma runs_step (P : Action → Prop) a c c1 Q : P a → exec a c = Some c1 → runs P c1 Q → runs P c Q.
Proof.
  intros HP Ha (acts & c' & Hacts & Hrun & HQ). exists (a :: acts), c'.
  split_and!; [by apply Forall_cons|by eapply run_cons|done].
Qed.

Lemma runs_trans (P : Action → Prop) c Q Q' : runs P c Q → (∀ c', Q c' → runs P c' Q') → runs P c Q'.
Proof.
  intros (acts & c1 & Hacts & Hrun & HQ) HQ'. destruct (HQ' c1 HQ) as (acts' & c' & Hacts' & Hrun' & H).
  exists (acts ++ acts'), c'. split_and!; [by apply Forall_app|by rewrite run_app, Hrun|done].
Qed.

Definition inv (c : Conf) : Prop := ∃ H T q h, queue_inv c H T q h.

Lemma queue_inv_exec c a c' : inv c → exec a c = Some c' → inv c'.
Proof. by apply (inv_run_step k Hk event Hev). Qed.

(** A sequential computation from [s], and steps of the machine beside it from [c]. *)
Definition sim {A} (P : Action → Prop) (c : Conf) (m : M Sys A) (Q : A → Conf → Sys → Prop) (R : Conf → Sys → Prop)
    (s : Sys) : Prop :=
  wp m (λ a s', runs P c (λ c', Q a c' s')) (λ s', runs P c (λ c', R c' s')) s.

Lemma sim_wp {A} P c (m : M Sys A) (Q : A → Conf → Sys → Prop) (R : Conf → Sys → Prop) s :
  wp m (λ a s', Q a c s') (λ s', R c s') s → sim P c m Q R s.
Proof. apply wp_mono; intros; by apply runs_done. Qed.

Lemma sim_mono {A} P c (m : M Sys A) (Q Q' : A → Conf → Sys → Prop) (R R' : Conf → Sys → Prop) s :
  (∀ a c' s', Q a c' s' → Q' a c' s') → (∀ c' s', R c' s' → R' c' s') → sim P c m Q R s → sim P c m Q' R' s.
Proof.
  intros HQ HR. apply wp_mono; intros; (eapply runs_trans; [done|]); intros; apply runs_done; eauto.
Qed.

Lemma sim_later {A} P c (m : M Sys A) Q R s : runs P c (λ c', sim P c' m Q R s) → sim P c m Q R s.
Proof.
  intros (acts & c1 & Hacts & Hrun & H1). eapply wp_mono; [| |exact H1];
    intros * Hr; (apply (runs_trans P c (λ c', c' = c1)); [by exists acts, c1|by intros c' ->]).
Qed.

Lemma sim_bind {A B} P c (m : M Sys A) (f : A → M Sys B) Q R s :
  sim P c m (λ a c' s', sim P c' (f a) Q R s') R s → sim P c (m ≫= f) Q R s.
Proof.
  intros Hm. apply wp_bind. refine (wp_mono _ _ _ _ _ _ _ (λ _ H, H) Hm). intros a s' Hr. by apply sim_later.
Qed.

Lemma sim_step {A} P a c c1 (m : M Sys A) Q R s : P a → exec a c = Some c1 → sim P c1 m Q R s → sim P c m Q R s.
Proof. intros HP Ha. apply wp_mono; intros; by eapply runs_step. Qed.

Lemma sim_finally {A} P c (m : M Sys A) fin Q R s :
  sim P c m (λ a c' s', sim P c' fin (λ _ c'' s'', Q a c'' s'') R s') (λ c' s', sim P c' fin (λ _ c'' s'', R c'' s'') R s') s →
  sim P c (pg_finally m fin) Q R s.
Proof.
  intros Hm. apply wp_finally. refine (wp_mono _ _ _ _ _ _ _ _ Hm).
  - intros a s' Hr. by apply (sim_later P c fin (λ _, Q a) R).
  - intros s' Hr. by apply (sim_later P c fin (λ _, R) R).
Qed.
Lemma sim_ret {A} P c (a : A) (Q : A → Conf → Sys → Prop) R s : Q a c s → sim P c (mret a) Q R s.
Proof. intros HQ. apply sim_wp. by wp_step. Qed.

Lemma sim_gets {A} P c (g : Sys → A) (Q : A → Conf → Sys → Prop) R s : Q (g s) c s → sim P c (gets g) Q R s.
Proof. intros HQ. apply sim_wp. by wp_step. Qed.

Lemma sim_modify P c g (Q : unit → Conf → Sys → Prop) R s : Q tt c (g s) → sim P c (modify g) Q R s.
Proof. intros HQ. apply sim_wp. by wp_step. Qed.

Lemma sim_rd {A} P c (g : PschSharedState → A) st (Q : A → Conf → Sys → Prop) R s :
  psch_shared_state s = Some st → Q (g st) c s → sim P c (rd g) Q R s.
Proof. intros Hst HQ. apply sim_wp. by eapply wp_rd. Qed.

Lemma sim_wr P c g st (Q : unit → Conf → Sys → Prop) R s :
  psch_shared_state s = Some st → Q tt c (s <| psch_shared_state := Some (g st) |>) → sim P c (wr g) Q R s.
Proof. intros Hst HQ. apply sim_wp. by eapply wp_wr. Qed.

(** ** Shared memory *)

(** [s'] has the fields [st'] of the shared struct, the area and the count of failed
    allocations being those of [s]. *)
Lemma agrees_write strs i s st st' :
  agrees strs i s → psch_shared_state s = Some st → raw_dsa_area st' = raw_dsa_area st →
  dsa_oom_count st' = dsa_oom_count st → agrees strs i (s <| psch_shared_state := Some st' |>).
Proof.
  intros [Hh Hap Ht Ha (st0 & Hst0 & Ho)] Hst Hraw Hoom. simplify_eq. split; try done.
  - destruct Ha as [Ha|(st1 & Hst1 & Hr)]; [by left|right]. simplify_eq. exists st'. by rewrite Hraw.
  - exists st'. by rewrite Hoom.
Qed.

Lemma mirrors_write c s st st' r :
  mirrors c s → psch_shared_state s = Some st → raw_dsa_area st' = raw_dsa_area st →
  dsa_oom_count st' = dsa_oom_count st → Shared.capacity st' = Shared.capacity st →
  q_head st' = RingConc.c_head r → q_tail st' = RingConc.c_tail r →
  enqueued st' = RingConc.c_enqueued r → dropped st' = RingConc.c_dropped r →
  mirrors (c <| ring := r |>) (s <| psch_shared_state := Some st' |>).
Proof.
  intros [(st0 & Hst0 & _ & _ & Hc & _) Hr Hm] Hst Hraw Hoom Hcap ? ? ? ?. simplify_eq. split; [|done|].
  - exists st'. simpl. split_and!; congruence.
  - by eapply agrees_write.
Qed.

Lemma mirrors_ring c s r :
  mirrors c s → RingConc.c_head r = RingConc.c_head (ring c) → RingConc.c_tail r = RingConc.c_tail (ring c) →
  RingConc.c_enqueued r = RingConc.c_enqueued (ring c) → RingConc.c_dropped r = RingConc.c_dropped (ring c) →
  mirrors (c <| ring := r |>) s.
Proof.
  intros [(st & Hst & ?) Hr Hm] ? ? ? ?. split; [|done..]. exists st. simpl. split; [done|]. split_and!; intuition congruence.
Qed.

Lemma mirrors_same c s s' :
  mirrors c s → psch_shared_state s' = psch_shared_state s → Shared.ring s' = Shared.ring s → heap s' = heap s →
  htab s' = htab s → psch_dsa s' = psch_dsa s → mirrors c s'.
Proof.
  intros [(st & Hst & ?) Hr [Hh Hap Ht Ha Ho]] H1 H2 H3 H4 H5. split; [|congruence|split]; rewrite ?H1, ?H3, ?H4; try done.
  - by exists st.
  - unfold area_available. by rewrite H1, H5.
Qed.

(** ** A producer *)

(** What producer [p] does inside a call; [p] has come to [x] and [f], and [l] are the events published. *)
Definition by_producer (p : nat) (a : Action) : Prop :=
  match a with
  | ARing (RingConc.AProd q) | AFill q | AFillAlloc q _ => q = p
  | _ => False
  end.

Record turn (p : nat) (x : RingConc.ProducerPC) (f : FillPC) (l : list Z) (c : Conf) (s : Sys) : Prop := {
  tn_inv : inv c;
  tn_locks : InternConc.c_locks (intern c) = ∅;
  tn_pc : RingConc.c_prod (ring c) p = x;
  tn_fill : fill c p = f;
  tn_pushed : RingConc.h_pushed (ring c) = l;
  tn_mirrors : mirrors c s }.

Definition outside (x : RingConc.ProducerPC) : bool :=
  match x with RingConc.PFilling _ _ _ | RingConc.PPartial _ _ _ => false | _ => true end.

Lemma ring_prod_exec p c r :
  outside (RingConc.c_prod (ring c) p) = true → RingConc.prod_step capacity force p (ring c) = Some r →
  exec (ARing (RingConc.AProd p)) c = Some (c <| ring := r |>).
Proof.
  intros Ho Hr. simpl. unfold ring_move, ring_exec. simpl. rewrite Hr. by destruct (RingConc.c_prod (ring c) p).
Qed.

(** A step of the ring beside a part [s'] of the computation. *)
Lemma sim_ring {A} p x f l c s s' (m : M Sys A) Q R r :
  turn p x f l c s → outside x = true → RingConc.prod_step capacity force p (ring c) = Some r →
  mirrors (c <| ring := r |>) s' →
  (∀ c', turn p (RingConc.c_prod r p) f (RingConc.h_pushed r) c' s' → ring c' = r → sim (by_producer p) c' m Q R s') →
  sim (by_producer p) c m Q R s'.
Proof.
  intros [Hinv Hl Hpc Hf Hpu Hm] Ho Hr Hm' Hsim. pose proof (ring_prod_exec p c r) as Hx. rewrite Hpc in Hx.
  apply (sim_step _ (ARing (RingConc.AProd p)) _ (c <| ring := r |>)); [done|by apply Hx|]. apply Hsim; [|done].
  split; try done. eapply queue_inv_exec; [done|by apply Hx].
Qed.

Lemma turn_mirrors p x f l c s s' : turn p x f l c s → mirrors c s' → turn p x f l c s'.
Proof. intros [] ?. by split. Qed.

Lemma conf_ring_eta c : c <| ring := ring c |> = c.
Proof. by destruct c. Qed.

(** A drop is counted; the first one is reported. *)
Lemma sim_overflow p x x' f l c s (Q : unit → Conf → Sys → Prop) R :
  turn p x f l c s → outside x = true →
  (∀ r, RingConc.c_prod r p = x →
    RingConc.prod_step capacity force p r = Some (RingConc.set_pc p x' (r <| RingConc.c_dropped ::= λ n, u64 (n + 1) |>))) →
  (∀ c' s', turn p x' f l c' s' → RingConc.c_lock (ring c') = RingConc.c_lock (ring c) → lock_held s' = lock_held s → Q tt c' s') →
  sim (by_producer p) c HandleOverflow Q R s.
Proof.
  intros Ht Ho Hstep HQ. unfold HandleOverflow. destruct (mi_shared _ _ (tn_mirrors _ _ _ _ _ _ Ht)) as (st & Hst & Heq).
  apply sim_bind. eapply sim_wr; [done|].
  eapply sim_ring; [done|done|apply Hstep, Ht| |].
  { eapply mirrors_write; [apply Ht|done|..]; simpl; intuition congruence. }
  set (s1 := s <| psch_shared_state := Some (incr_dropped st) |>).
  intros c1 Ht1 Hr1. simpl in Ht1. rewrite upd_same, (tn_pushed _ _ _ _ _ _ Ht) in Ht1.
  destruct (mi_shared _ _ (tn_mirrors _ _ _ _ _ _ Ht1)) as (st1 & Hst1 & Heq1).
  apply sim_bind. eapply sim_rd; [done|]. destruct (overflow_logged st1); simpl.
  - apply sim_ret. apply HQ; [done|by rewrite Hr1|done].
  - apply sim_bind. eapply sim_wr; [done|]. apply sim_modify. apply HQ; [|by rewrite Hr1|done]. eapply turn_mirrors; [exact Ht1|].
    apply (mirrors_same _ (s1 <| psch_shared_state := Some (st1 <| overflow_logged := true |>) |>)); [|done..].
    rewrite <- (conf_ring_eta c1). apply (mirrors_write _ _ st1 (st1 <| overflow_logged := true |>)); [apply Ht1|done|..]; simpl; intuition congruence.
Qed.

(** *** The query *)

#[local] Abbreviation intern_run := (InternConc.exec_all PSCH_MAX_QUERY_LEN).

(** A process that is not in a call makes no step of one. *)
Lemma idle_run p acts i i' :
  InternConc.c_pc i p = InternConc.PIdle → Forall (λ a, InternLive.actor a = p ∧ InternLive.is_call a = false) acts →
  intern_run acts i = Some i' → acts = [] ∧ i' = i.
Proof.
  intros Hp. destruct 1 as [|a acts [Ha Hc] _]; simpl; [by intros [= ->]|].
  destruct a as [| |q|q o]; try done; simpl in *; subst q; unfold InternConc.proc_step, InternConc.alloc_step; by rewrite Hp.
Qed.

(** The interner's steps of a call are those of the producer that made it. *)
Lemma lift_acquire p n pos todo i0 acts :
  ∀ c i', RingConc.c_prod (ring c) p = RingConc.PPartial n pos todo → fill c p = FAcquire →
  in_acquire (InternConc.c_pc (intern c) (backend p)) = true →
  takes i0 (intern c) (InternConcThms.uses (InternConc.c_pc (intern c) (backend p))) →
  Forall (λ a, InternLive.actor a = backend p ∧ InternLive.is_call a = false) acts → Forall (avoids (strings c)) acts →
  intern_run acts (intern c) = Some i' → InternConc.c_pc i' (backend p) = InternConc.PIdle →
  if existsb fails acts
  then runs (by_producer p) c (λ c', raise_from capacity p pos (c <| intern := i' |>) = Some c')
  else runs (by_producer p) c (λ c', ∃ result,
    c' = set_fill p FDone (keep_query capacity (event n) pos result (c <| intern := i' |>)) ∧ takes i0 i' result).
Proof.
  induction acts as [|a acts IH]; intros c i' Hpc Hf Hin Ht Hacts Hav Hrun Hidle.
  { simpl in Hrun. simplify_eq. by rewrite Hidle in Hin. }
  apply Forall_cons in Hacts as [[Hact Hcall] Hacts], Hav as [Hava Hav].
  simpl in Hrun. destruct (InternConc.exec _ a (intern c)) as [i1|] eqn:Ha; [|done].
  destruct a as [| |q|q o]; try done; simpl in Hact, Ha; subst q.
  - assert (exec (AFill p) c = Some (acquired capacity p (event n) pos (InternConc.returned (InternConc.c_pc (intern c) (backend p)))
      (c <| intern := i1 |>))) as Hx.
    { simpl. unfold fill_step, filling. rewrite Hpc, Hf. unfold intern_move, intern_exec. simpl. by rewrite Ha. }
    destruct (takes_step _ _ _ _ Hin Ht Ha) as [[Hin1 Ht1]|[Hid1 Ht1]].
    + assert (acquired capacity p (event n) pos (InternConc.returned (InternConc.c_pc (intern c) (backend p))) (c <| intern := i1 |>)
        = c <| intern := i1 |>) as Heq by (unfold acquired; simpl; by destruct (InternConc.c_pc i1 (backend p))).
      rewrite Heq in Hx. specialize (IH (c <| intern := i1 |>)). specialize (IH i' Hpc Hf Hin1 Ht1 Hacts Hav Hrun Hidle). simpl.
      destruct (existsb fails acts); (eapply runs_step; [|exact Hx|exact IH]; done).
    + destruct (idle_run _ _ _ _ Hid1 Hacts Hrun) as [-> ->]. simpl.
      eapply runs_step; [|exact Hx|apply runs_done]; [done|]. unfold acquired. simpl. rewrite Hid1. by eexists.
  - destruct (alloc_moves _ _ _ _ Ha) as (q & Hpq & Hr & _ & Ho). rewrite Hpq in Ht.
    assert (InternConc.c_next i1 = InternConc.c_next (intern c)) as Hn.
    { unfold InternConc.alloc_step in Ha. rewrite Hpq in Ha. destruct o as [d| |]; [|by injection Ha as <-..].
      destruct (InternConc.c_heap _ !! d); [done|]. destruct (DsaPointerIsValid d); [|done]. by injection Ha as <-. }
    destruct o as [d| |]; simpl in Hava.
    + destruct Ho as (_ & Hp1 & _).
      assert (exec (AFillAlloc p (AllocOk d)) c = Some (c <| intern := i1 |>)) as Hx'.
      { simpl. unfold fill_alloc, filling. rewrite Hpc, Hf, Hava. unfold intern_move, intern_exec. simpl. by rewrite Ha. }
      specialize (IH (c <| intern := i1 |>)). specialize (IH i' Hpc Hf). simpl in IH. rewrite Hp1 in IH. simpl in IH. rewrite Hr, Hn in IH.
      specialize (IH eq_refl Ht Hacts Hav Hrun Hidle). simpl. destruct (existsb fails acts); (eapply runs_step; [|exact Hx'|exact IH]; done).
    + destruct Ho as [_ Hp1]. destruct (idle_run _ _ _ _ Hp1 Hacts Hrun) as [-> ->]. simpl.
      apply (runs_step _ (AFillAlloc p AllocOom) _ (acquired capacity p (event n) pos None (c <| intern := i1 |>))); [done|..].
      { simpl. unfold fill_alloc, filling. rewrite Hpc, Hf. unfold intern_move, intern_exec. simpl. by rewrite Ha. }
      apply runs_done. unfold acquired. simpl. rewrite Hp1. exists None. split; [done|]. simpl. by rewrite Hr, Hn.
    + destruct Ho as [_ Hp1]. destruct (idle_run _ _ _ _ Hp1 Hacts Hrun) as [-> ->]. simpl.
      destruct (raise_from capacity p pos (c <| intern := i1 |>)) as [c'|] eqn:Hraise.
      * apply (runs_step _ (AFillAlloc p AllocError) _ c'); [done| |by apply runs_done].
        simpl. unfold fill_alloc, filling. rewrite Hpc, Hf. unfold intern_move, intern_exec. simpl. by rewrite Ha.
      * exfalso. unfold raise_from, ring_move, ring_exec in Hraise. simpl in Hraise. unfold RingConc.prod_error in Hraise.
        by rewrite Hpc in Hraise.
Qed.

Lemma runs_inv P c (Q : Conf → Prop) : inv c → runs P c Q → runs P c (λ c', inv c' ∧ Q c').
Proof.
  intros Hinv (acts & c' & Hacts & Hrun & HQ). exists acts, c'. split_and!; try done.
  by apply (inv_exec_all k Hk event Hev acts c).
Qed.

Lemma runs_mono P c (Q Q' : Conf → Prop) : (∀ c', Q c' → Q' c') → runs P c Q → runs P c Q'.
Proof. intros HQ Hr. eapply runs_trans; [exact Hr|]. intros c' H. by apply runs_done, HQ. Qed.

Lemma mirrors_conf c c' s :
  mirrors c s → ring c' = ring c → slots c' = slots c → strings c' = strings c → intern c' = intern c → mirrors c' s.
Proof. intros [H1 H2 H3] Hr Hs Hst Hi. split; rewrite ?Hr, ?Hs, ?Hst, ?Hi; done. Qed.

Lemma mirrors_keeps c s s' i' : mirrors c s → keeps s s' → agrees (strings c) i' s' → mirrors (c <| intern := i' |>) s'.
Proof.
  intros [(st & Hst & H) Hr _] Hkeep Ha. destruct (keeps_st _ _ Hkeep _ Hst) as [n Hn]. split; [|by rewrite (keeps_ring _ _ Hkeep)|done].
  by exists (st <| dsa_oom_count := n |>).
Qed.

Lemma mirrors_shared c s s' : mirrors c s → same_shared s s' → area_available s' → mirrors c s'.
Proof.
  intros Hm Hs Ha. pose proof (mirrors_keeps c s s' (intern c) Hm (keeps_shared _ _ Hs Ha)) as Hm'.
  eapply mirrors_conf; [apply Hm'; by eapply agrees_shared; [apply Hm| |]|done..].
Qed.

Lemma mirrors_slot c s pos g : mirrors c s → mirrors (QueueConc.put_slot capacity pos g c) (s <| Shared.ring ::= alter g (slot_index capacity pos) |>).
Proof. intros [H1 H2 [H3 H4 H5 H6 H7]]. split; [done|simpl; by rewrite H2|by split]. Qed.

(** An error releases the lock. *)
Lemma raise_turn p n pos todo c c' s :
  RingConc.c_prod (ring c) p = RingConc.PPartial n pos todo → raise_from capacity p pos c = Some c' → mirrors c s →
  RingConc.c_prod (ring c') p = RingConc.PUnlock ∧ fill c' p = FIdle ∧
  RingConc.h_pushed (ring c') = RingConc.h_pushed (ring c) ∧ intern c' = intern c ∧ mirrors c' s.
Proof.
  intros Hpc Hr Hm. unfold raise_from, ring_move, ring_exec in Hr. simpl in Hr. unfold RingConc.prod_error in Hr.
  rewrite Hpc in Hr. injection Hr as <-. simpl. rewrite !upd_same. split_and!; try done.
  eapply (mirrors_conf (c <| ring := RingConc.set_pc p RingConc.PUnlock (ring c) |>)); try done.
  by apply mirrors_ring.
Qed.

(** The call of the interner, from its start. *)
Lemma run_query p n pos todo c raised (Q : InternConc.Conf → Prop) :
  RingConc.c_prod (ring c) p = RingConc.PPartial n pos todo → fill c p = FQuery → 0 < query_len (ev_fixed (event n)) →
  calls PSCH_MAX_QUERY_LEN (strings c)
    (InternConc.AAcquire (backend p) (dbid (identity (ev_fixed (event n)))) (queryid (identity (ev_fixed (event n))))
       (query (event n)) (clamped_len (event n))) raised (backend p) (intern c) Q →
  let c1 i' := set_fill p FAcquire (c <| intern := i' |>) in
  let same_locks i' := InternConc.c_locks i' = InternConc.c_locks (intern c) in
  if raised then runs (by_producer p) c (λ c', ∃ i', Q i' ∧ same_locks i' ∧ raise_from capacity p pos (c1 i') = Some c')
  else runs (by_producer p) c (λ c', ∃ i' result, Q i' ∧ same_locks i' ∧ takes (intern c) i' result ∧
         c' = set_fill p FDone (keep_query capacity (event n) pos result (c1 i'))).
Proof.
  intros Hpc Hf Hlen (i1 & Hcall & acts & i' & (Hacts & Hrun & Hlocks & Hidle & _) & Hav & Hraised & HQ) c1 same_locks.
  assert (exec (AFill p) c = Some (c1 i1)) as Hx.
  { simpl. unfold fill_step, filling. rewrite Hpc, Hf, (proj2 (Z.ltb_lt _ _) Hlen). unfold intern_move, intern_exec. simpl in Hcall |- *.
    by rewrite Hcall. }
  destruct (acquire_call_moves _ _ _ _ _ _ _ Hcall) as (_ & Hr & _ & _ & Hu & [Hin _ _]).
  assert (InternConc.c_next i1 = InternConc.c_next (intern c) ∧ InternConc.c_locks i1 = InternConc.c_locks (intern c)) as [Hn Hl].
  { simpl in Hcall. unfold InternConc.acquire_call in Hcall. destruct (InternConc.c_pc _ _); try done.
    destruct (_ && _); [|done]. by injection Hcall as <-. }
  pose proof (lift_acquire p n pos todo (intern c) acts (c1 i1) i') as Hlift. simpl in Hlift. rewrite upd_same, Hu in Hlift.
  specialize (Hlift Hpc eq_refl Hin (conj Hr Hn) Hacts Hav Hrun Hidle). rewrite Hraised in Hlift.
  destruct raised; (eapply runs_step; [|exact Hx|eapply runs_mono; [|exact Hlift]]; [done|]).
  - intros c' Hc'. exists i'. split_and!; [done|by unfold same_locks; rewrite Hlocks|done].
  - intros c' (result & -> & Ht). exists i', result. split_and!; [done|by unfold same_locks; rewrite Hlocks|done..].
Qed.

(** What the slot gets when the call is back. *)
Lemma keep_query_slot n pos result c dp (i0 : InternConc.Conf) :
  takes i0 (intern c) result → InternConc.c_refs i0 !! InternConc.c_next i0 = None →
  (if DsaPointerIsValid dp
   then ∃ x, InternConc.c_refs (intern c) = <[InternConc.c_next i0 := x]> (InternConc.c_refs i0) ∧ InternConc.r_ptr x = dp
   else InternConc.c_refs (intern c) = InternConc.c_refs i0) →
  slots (keep_query capacity (event n) pos result c) = slots (store_query capacity (event n) pos dp c).
Proof.
  intros Ht Hfresh Hr. destruct result as [r|]; simpl in Ht.
  - destruct Ht as (-> & y & Hy). destruct (DsaPointerIsValid dp) eqn:Hv.
    + destruct Hr as (x & Hx & <-).
      assert (InternConc.pointer (intern c) (InternConc.c_next i0) = InternConc.r_ptr x) as Hp
        by (unfold InternConc.pointer; by rewrite Hx, lookup_insert_eq).
      change (slots (store_query capacity (event n) pos (InternConc.pointer (intern c) (InternConc.c_next i0)) c) =
        slots (store_query capacity (event n) pos (InternConc.r_ptr x) c)). by rewrite Hp.
    + exfalso. rewrite Hy in Hr. by rewrite <- Hr, lookup_insert_eq in Hfresh.
  - destruct Ht as [Ht _]. destruct (DsaPointerIsValid dp) eqn:Hv.
    + exfalso. destruct Hr as (x & Hx & _). rewrite Ht in Hx. by rewrite Hx, lookup_insert_eq in Hfresh.
    + by apply DsaPointerIsValid_false in Hv as ->.
Qed.

Lemma keep_query_rest n pos result c :
  ring (keep_query capacity (event n) pos result c) = ring c ∧ fill (keep_query capacity (event n) pos result c) = fill c ∧
  strings (keep_query capacity (event n) pos result c) = strings c ∧ intern (keep_query capacity (event n) pos result c) = intern c.
Proof. by destruct result. Qed.

Lemma mirrors_store n pos dp c s :
  mirrors c s →
  mirrors (store_query capacity (event n) pos dp c)
    (s <| Shared.ring ::= alter (λ e, e <| query_dsa := dp |>) (slot_index capacity pos) |>
       <| Shared.ring ::= alter (if negb (DsaPointerIsValid dp) then set_query_len 0 else set_query_len (clamped_len (event n)))
            (slot_index capacity pos) |>).
Proof.
  intros [H1 H2 [H3 H4 H5 H6 H7]]. split; [done| |by split]. simpl. rewrite H2, list_alter_alter_eq.
  by destruct (negb (DsaPointerIsValid dp)).
Qed.

Lemma clamped_range n : 0 < query_len (ev_fixed (event n)) → 0 < clamped_len (event n) < 2 ^ 16 ∧
  (Z.to_nat (clamped_len (event n)) ≤ length (query (event n)))%nat.
Proof.
  intros Hlen. destruct (Hev n) as (_ & -> & _ & Hq). unfold is_u16 in Hq. unfold clamped_len.
  change (u16 (PSCH_MAX_QUERY_LEN - 1)) with 2047. unfold PSCH_MAX_QUERY_LEN. lia.
Qed.

(** The producer's partition is free and it is not in a call of the interner. *)
Lemma turn_intern p n pos todo f l c s :
  turn p (RingConc.PPartial n pos todo) f l c s → f ≠ FAcquire →
  ∃ h, InternConcThms.conc_ok PSCH_MAX_QUERY_LEN (intern c) h ∧ InternConc.c_pc (intern c) (backend p) = InternConc.PIdle ∧
    InternConc.c_refs (intern c) !! InternConc.c_next (intern c) = None.
Proof.
  intros [(H & T & q & h & Hinv) _ _ Hf _ _] Hne. exists h. split; [apply Hinv|]. split.
  - destruct (qi_fill _ _ _ _ _ _ _ Hinv p) as [_ Hidle]. apply Hidle. by rewrite Hf.
  - eapply next_fresh. apply Hinv.
Qed.

(** The query is interned and the slot refers to it. *)
Lemma sim_store_query p n pos todo l c s (Q : unit → Conf → Sys → Prop) (R : Conf → Sys → Prop) :
  turn p (RingConc.PPartial n pos todo) FQuery l c s →
  (∀ c' s', turn p (RingConc.PPartial n pos todo) FDone l c' s' → Q tt c' s') →
  (∀ c' s', turn p RingConc.PUnlock FIdle l c' s' → R c' s') →
  sim (by_producer p) c (StoreQuery (event n) (slot_index capacity pos)) Q R s.
Proof.
  intros Ht HQ HR. pose proof Ht as [Hinv Hlocks Hpc Hf Hpu Hm]. unfold StoreQuery.
  destruct (Z.ltb_spec 0 (query_len (ev_fixed (event n)))) as [Hlen|Hlen].
  - apply sim_bind. destruct (turn_intern _ _ _ _ _ _ _ _ Ht) as (h & Hok & Hidle & Hfresh); [done|].
    destruct (clamped_range n Hlen) as [Hcl Hq].
    eapply wp_mono; [| |apply (acquire_alone PSCH_MAX_QUERY_LEN (strings c) (intern c) h (backend p) s); try done; [by rewrite Hlocks|apply Hm]].
    + intros dp s1 [Hkeep Hcall]. pose proof (run_query _ _ _ _ _ _ _ Hpc Hf Hlen Hcall) as Hrun. cbv zeta iota in Hrun.
      eapply runs_mono; [|apply (runs_inv _ _ _ Hinv Hrun)]. intros c' (Hinv' & i' & result & [Hag Hrefs] & Hl & Htakes & ->).
      set (c2 := set_fill p FAcquire (c <| intern := i' |>)) in *. destruct (keep_query_rest n pos result c2) as (Er & Ef & Es & Ei).
      assert (mirrors c2 s1) as Hm2 by (eapply (mirrors_conf (c <| intern := i' |>)); [by eapply mirrors_keeps|done..]).
      apply (mirrors_store n pos dp) in Hm2. apply sim_bind, sim_modify.
      apply (mirrors_conf _ (set_fill p FDone (keep_query capacity (event n) pos result c2))) in Hm2; simpl; try done.
      2: { apply (keep_query_slot n pos result c2 dp (intern c)); [done..|]. simpl. rewrite Hrefs.
           destruct (DsaPointerIsValid dp); [|done]. by eexists. }
      destruct (negb (DsaPointerIsValid dp)); apply sim_modify, HQ; (split; try done; simpl; rewrite ?Er, ?Ei, ?upd_same; try done; by rewrite <- Hlocks).
    + intros s1 [Hkeep Hcall]. pose proof (run_query _ _ _ _ _ _ _ Hpc Hf Hlen Hcall) as Hrun. cbv zeta iota in Hrun.
      eapply runs_mono; [|apply (runs_inv _ _ _ Hinv Hrun)]. intros c' (Hinv' & i' & [Hag Hrefs] & Hl & Hraise).
      apply HR. destruct (raise_turn p n pos todo (set_fill p FAcquire (c <| intern := i' |>)) c' s1) as (Hp' & Hf' & Hpu' & Hi' & Hm'); [done|done| |].
      { eapply (mirrors_conf (c <| intern := i' |>)); [by eapply mirrors_keeps|done..]. }
      split; try done; [|by rewrite Hpu']. rewrite Hi'. simpl. by rewrite Hl.
  - apply (sim_step _ (AFill p) _ (set_fill p FDone (QueueConc.put_slot capacity pos (λ e, e <| query_dsa := InvalidDsaPointer |>) c))); [done|..].
    { simpl. unfold fill_step, filling. by rewrite Hpc, Hf, (proj2 (Z.ltb_ge _ _) Hlen). }
    apply sim_modify, HQ. split; try done.
    + eapply queue_inv_exec; [done|]. instantiate (1 := AFill p). simpl. unfold fill_step, filling. by rewrite Hpc, Hf, (proj2 (Z.ltb_ge _ _) Hlen).
    + simpl. by rewrite upd_same.
    + eapply mirrors_conf; [by apply mirrors_slot|done..].
Qed.

(** *** The error message *)

Definition err_update n dp (e : PschRingEntry) : PschRingEntry :=
  let e := e <| err_message_dsa := dp |> in
  if (0 <? err_message_len (ev_fixed (event n))) && negb (DsaPointerIsValid dp) then set_err_message_len 0 e else e.

Lemma sim_put_err n pos dp P c (Q : unit → Conf → Sys → Prop) R s :
  Q tt c (s <| Shared.ring ::= alter (err_update n dp) (slot_index capacity pos) |>) →
  sim P c (_ ← Ring.put_slot (slot_index capacity pos) (λ e, e <| err_message_dsa := dp |>);
    if (0 <? err_message_len (ev_fixed (event n))) && negb (DsaPointerIsValid dp)
    then Ring.put_slot (slot_index capacity pos) (set_err_message_len 0) else mret tt) Q R s.
Proof.
  intros HQ. apply sim_bind, sim_modify. unfold err_update in HQ. destruct (_ && _).
  - apply sim_modify. unfold set_field in *. simpl in *. by rewrite list_alter_alter_eq.
  - by apply sim_ret.
Qed.

Lemma mirrors_err n pos dp c s :
  mirrors c s → mirrors (store_err capacity (event n) pos dp c) (s <| Shared.ring ::= alter (err_update n dp) (slot_index capacity pos) |>).
Proof. apply mirrors_slot. Qed.

Lemma agrees_string strs i s dp size str :
  agrees strs i s → heap s !! dp = None →
  agrees (<[dp := str]> strs) i (s <| heap ::= <[dp := DsaUninit size]> |> <| heap ::= <[dp := DsaString str]> |>).
Proof.
  intros [Hh Hap Ht Ha Ho] Hd. rewrite Hh, free_beside in Hd. destruct Hd as [Hd Hs]. split; try done; simpl.
  - by rewrite insert_insert_eq, Hh, fmap_insert, insert_union_r.
  - intros d. rewrite lookup_insert. case_decide; [by subst|]. apply Hap.
Qed.

Lemma agrees_oom strs i s st :
  agrees strs i s → psch_shared_state s = Some st →
  agrees strs (InternConc.count_oom i) (s <| psch_shared_state := Some (incr_dsa_oom st) |>).
Proof.
  intros [Hh Hap Ht Ha (st' & Hst' & Ho)] Hst. simplify_eq. split; try done.
  - destruct Ha as [Ha|(st1 & Hst1 & Hr)]; [by left|right]. simplify_eq. by eexists.
  - eexists. split; [reflexivity|]. simpl. by rewrite Ho.
Qed.

Lemma sim_store_err p n pos todo l c s (Q : unit → Conf → Sys → Prop) (R : Conf → Sys → Prop) :
  turn p (RingConc.PPartial n pos todo) FErr l c s →
  (∀ c' s', turn p (RingConc.PPartial n pos todo) FQuery l c' s' → Q tt c' s') →
  (∀ c' s', turn p RingConc.PUnlock FIdle l c' s' → R c' s') →
  sim (by_producer p) c (StoreErrMessage (event n) (slot_index capacity pos)) Q R s.
Proof.
  intros Ht HQ HR. pose proof Ht as [Hinv Hlocks Hpc Hf Hpu Hm]. unfold StoreErrMessage, PschDsaAllocString. apply sim_bind.
  destruct (err_message_len (ev_fixed (event n)) =? 0) eqn:Hlen.
  - set (c1 := set_fill p FQuery (store_err capacity (event n) pos InvalidDsaPointer c)).
    assert (exec (AFill p) c = Some c1) as Hx.
    { simpl. unfold fill_step, filling. by rewrite Hpc, Hf, Hlen. }
    apply (sim_step _ (AFill p) _ c1); [done..|]. apply sim_ret, sim_put_err, HQ. split; try done.
    + by eapply queue_inv_exec.
    + simpl. by rewrite upd_same.
    + eapply mirrors_conf; [by apply mirrors_err|done..].
  - assert (∀ o, exec (AFillAlloc p o) c = alloc_err capacity p (event n) pos o c) as Hx.
    { intros o. simpl. unfold fill_alloc, filling. by rewrite Hpc, Hf, Hlen. }
    apply sim_bind. eapply wp_get_area_shared; [apply Hm|]. intros s1 Hs1 Ha1.
    pose proof (mirrors_shared _ _ _ Hm Hs1 Ha1) as Hm1.
    apply runs_done. simpl. apply sim_bind. apply wp_alloc; [intros dp Hdp|intros Hdp..].
    + destruct (dsa_pick_fresh _ _ _ Hdp) as [Hv Hfresh]. apply DsaPointerIsValid_spec in Hv.
      pose proof Hfresh as Hfresh'. rewrite (ag_heap _ _ _ (mi_memory _ _ Hm1)), free_beside in Hfresh'. destruct Hfresh' as [Hd1 Hd2].
      destruct (alloc_err capacity p (event n) pos (AllocOk dp) c) as [c1|] eqn:Hc1; [|unfold alloc_err in Hc1; by rewrite Hd1, Hd2, Hv in Hc1].
      specialize (Hx (AllocOk dp)). rewrite Hc1 in Hx. apply (runs_step _ (AFillAlloc p (AllocOk dp)) _ c1); [done..|]. apply runs_done.
      unfold alloc_err in Hc1. rewrite Hd1, Hd2, Hv in Hc1. injection Hc1 as Hc1.
      apply sim_bind. rewrite Hv. apply sim_modify, sim_ret. simpl negb. apply sim_put_err, HQ.
      subst c1. split; try done; [by eapply queue_inv_exec|simpl; by rewrite upd_same|].
      eapply (mirrors_conf (store_err capacity (event n) pos dp (c <| strings ::= <[dp := _]> |>))); [apply mirrors_err|done..].
      destruct Hm1 as [H1 H2 H3]. split; [done..|]. by apply agrees_string.
    + specialize (Hx AllocOom). eapply (runs_step _ (AFillAlloc p AllocOom)); [done|exact Hx|]. apply runs_done.
      rewrite DsaPointerIsValid_Invalid. destruct (mi_shared _ _ Hm1) as (st & Hst & Heq).
      apply sim_bind. eapply sim_wr; [done|]. apply sim_ret, sim_put_err, HQ.
      split; try done; [by eapply queue_inv_exec|simpl; by rewrite upd_same|].
      eapply (mirrors_conf (store_err capacity (event n) pos InvalidDsaPointer (c <| intern ::= InternConc.count_oom |>))); [apply mirrors_err|done..].
      destruct Hm1 as [_ H2 H3]. split; [by exists (incr_dsa_oom st)|done|]. by apply agrees_oom.
    + assert (exec (AFillAlloc p AllocError) c = raise_from capacity p pos c) as Hx' by apply Hx. clear Hx. destruct (raise_from capacity p pos c) as [c'|] eqn:Hraise.
      * eapply (runs_step _ (AFillAlloc p AllocError)); [done|exact Hx'|]. apply runs_done, HR.
        destruct (raise_turn _ _ _ _ _ _ _ Hpc Hraise Hm1) as (Hp' & Hf' & Hpu' & Hi' & Hm').
        split; try done; [by eapply queue_inv_exec|by rewrite Hi'|by rewrite Hpu'].
      * exfalso. unfold raise_from, ring_move, ring_exec in Hraise. simpl in Hraise. unfold RingConc.prod_error in Hraise.
        by rewrite Hpc in Hraise.
Qed.

(** *** [TryEnqueueLocked] *)

(** The slot is filled. *)
Lemma sim_fill_slot {A} p n h todo l c s (m : M Sys A) (Q : A → Conf → Sys → Prop) (R : Conf → Sys → Prop) :
  turn p (RingConc.PFilling n h todo) FIdle l c s →
  (∀ c' s', turn p (RingConc.PFilled n h todo) FIdle l c' s' → sim (by_producer p) c' m Q R s') →
  (∀ c' s', turn p RingConc.PUnlock FIdle l c' s' → R c' s') →
  sim (by_producer p) c
    (_ ← Ring.put_slot (slot_index capacity h) (λ e, e <| re_fixed := ev_fixed (event n) |>);
     _ ← StoreErrMessage (event n) (slot_index capacity h);
     _ ← StoreQuery (event n) (slot_index capacity h); m) Q R s.
Proof.
  intros [Hinv Hlocks Hpc Hf Hpu Hm] HQ HR.
  set (r1 := RingConc.set_pc p (RingConc.PPartial n h todo) ((ring c) <| RingConc.c_slots ::= <[slot_index capacity h := None]> |>)).
  set (c1 := set_fill p FErr (QueueConc.put_slot capacity h (λ e, e <| re_fixed := ev_fixed (event n) |>) (c <| ring := r1 |>))).
  assert (exec (AFill p) c = Some c1) as Hx.
  { simpl. unfold fill_step, filling, ring_move, ring_exec. rewrite Hpc, Hf. simpl. unfold RingConc.prod_step. by rewrite Hpc. }
  apply (sim_step _ (AFill p) _ c1); [done..|]. apply sim_bind, sim_modify, sim_bind.
  apply (sim_store_err p n h todo l); [|clear c1 Hx Hinv; intros c1 s1 Ht1|done].
  { split; try done; [by eapply queue_inv_exec|simpl; by rewrite upd_same..|].
    eapply mirrors_conf; [apply mirrors_slot; by apply (mirrors_ring c s r1)|done..]. }
  apply sim_bind, (sim_store_query p n h todo l); [done| |done].
  intros c2 s2 [Hinv2 Hlocks2 Hpc2 Hf2 Hpu2 Hm2].
  set (r3 := RingConc.set_pc p (RingConc.PFilled n h todo) ((ring c2) <| RingConc.c_slots ::= <[slot_index capacity h := Some n]> |>)).
  assert (exec (AFill p) c2 = Some (set_fill p FIdle (c2 <| ring := r3 |>))) as Hx.
  { simpl. unfold fill_step, filling, ring_move, ring_exec. rewrite Hpc2, Hf2. simpl. unfold RingConc.prod_step. by rewrite Hpc2. }
  apply (sim_step _ (AFill p) _ (set_fill p FIdle (c2 <| ring := r3 |>))); [done..|]. apply HQ.
  split; try done; [by eapply queue_inv_exec|simpl; by rewrite upd_same..|].
  eapply mirrors_conf; [by apply (mirrors_ring c2 s2 r3)|done..].
Qed.

Lemma sim_try_enqueue p n todo l c s (Q : bool → Conf → Sys → Prop) (R : Conf → Sys → Prop) :
  turn p (RingConc.PLocked n todo) FIdle l c s →
  (∀ (ok : bool) c' s', turn p (RingConc.next_event todo) FIdle (l ++ if ok then [n] else []) c' s' → Q ok c' s') →
  (∀ c' s', turn p RingConc.PUnlock FIdle l c' s' → R c' s') →
  sim (by_producer p) c (TryEnqueueLocked (event n) capacity) Q R s.
Proof.
  intros Ht HQ HR. unfold TryEnqueueLocked. destruct (mi_shared _ _ (tn_mirrors _ _ _ _ _ _ Ht)) as (st & Hst & Hh & Htl & _).
  apply sim_bind. eapply sim_rd; [done|]. apply sim_bind. eapply sim_rd; [done|].
  eapply (sim_ring p _ _ l); [exact Ht|done|unfold RingConc.prod_step; by rewrite (tn_pc _ _ _ _ _ _ Ht)|by apply mirrors_ring; [apply Ht|..]|].
  intros c1 Ht1 _. simpl in Ht1. rewrite upd_same, (tn_pushed _ _ _ _ _ _ Ht), <- Hh in Ht1.
  destruct (mi_shared _ _ (tn_mirrors _ _ _ _ _ _ Ht1)) as (st' & Hst' & _ & Htl1 & _). simplify_eq.
  eapply (sim_ring p _ _ l); [exact Ht1|done|unfold RingConc.prod_step; by rewrite (tn_pc _ _ _ _ _ _ Ht1)|by apply mirrors_ring; [apply Ht1|..]|].
  intros c2 Ht2 _. simpl in Ht2. rewrite upd_same, (tn_pushed _ _ _ _ _ _ Ht1), <- Htl1 in Ht2.
  destruct ((capacity <=? u64 (q_head st - q_tail st)) || force).
  - apply sim_bind. eapply sim_overflow; [exact Ht2|done|intros r Hr; unfold RingConc.prod_step; by rewrite Hr|].
    intros c3 s3 Ht3 _ _. apply sim_ret. apply (HQ false). by rewrite app_nil_r.
  - apply (sim_fill_slot p n (q_head st) todo l); [done| |done]. intros c3 s3 Ht3.
    destruct (mi_shared _ _ (tn_mirrors _ _ _ _ _ _ Ht3)) as (st3 & Hst3 & Heq3).
    apply sim_bind. eapply sim_wr; [done|].
    eapply (sim_ring p _ _ l); [exact Ht3|done|unfold RingConc.prod_step; by rewrite (tn_pc _ _ _ _ _ _ Ht3)| |].
    { eapply mirrors_write; [apply Ht3|done|..]; simpl; intuition congruence. }
    intros c4 Ht4 _. simpl in Ht4. rewrite upd_same, (tn_pushed _ _ _ _ _ _ Ht3) in Ht4.
    destruct (mi_shared _ _ (tn_mirrors _ _ _ _ _ _ Ht4)) as (st4 & Hst4 & Heq4).
    apply sim_bind. eapply sim_wr; [done|].
    eapply (sim_ring p); [exact Ht4|done|unfold RingConc.prod_step; by rewrite (tn_pc _ _ _ _ _ _ Ht4)| |].
    { eapply mirrors_write; [apply Ht4|done|..]; simpl; intuition congruence. }
    intros c5 Ht5 _. simpl in Ht5. rewrite upd_same, (tn_pushed _ _ _ _ _ _ Ht4) in Ht5. by apply sim_ret, (HQ true).
Qed.

Lemma sim_enqueue_loop p todo : ∀ n l c s count (Q : Z → Conf → Sys → Prop) (R : Conf → Sys → Prop),
  turn p (RingConc.PLocked n todo) FIdle l c s →
  (∀ l' c' s', turn p RingConc.PUnlock FIdle (l ++ l') c' s' → sublist l' (n :: todo) → Q (count + Z.of_nat (length l')) c' s') →
  (∀ l' c' s', turn p RingConc.PUnlock FIdle (l ++ l') c' s' → sublist l' (n :: todo) → R c' s') →
  sim (by_producer p) c (EnqueueLoop (map event (n :: todo)) capacity count) Q R s.
Proof.
  induction todo as [|n' todo IH]; intros n l c s count Q R Ht HQ HR; cbn [map EnqueueLoop]; apply sim_bind;
    (eapply sim_try_enqueue; [exact Ht|intros ok c1 s1 Ht1|intros c1 s1 Ht1]).
  - apply sim_ret. specialize (HQ _ _ _ Ht1). destruct ok; simpl in HQ; [apply HQ; by repeat constructor|].
    rewrite Z.add_0_r in HQ. apply HQ. by repeat constructor.
  - apply (HR []); [by rewrite app_nil_r|by apply sublist_nil_l].
  - apply (IH n' (l ++ if ok then [n] else [])); [exact Ht1|..].
    + intros l' c' s' Ht' Hsub. rewrite <- app_assoc in Ht'. destruct ok; simpl in Ht'.
      * replace (count + 1 + Z.of_nat (length l')) with (count + Z.of_nat (length (n :: l'))) by (simpl; lia).
        apply HQ; [done|by constructor].
      * apply HQ; [done|by constructor].
    + intros l' c' s' Ht' Hsub. rewrite <- app_assoc in Ht'. destruct ok; simpl in Ht'; (eapply HR; [exact Ht'|by constructor]).
  - apply (HR []); [by rewrite app_nil_r|by apply sublist_nil_l].
Qed.

(** ** Whole calls *)

(** Before and after a call of a producer: it is in none, and nobody holds a lock. *)
Record ready (p : nat) (c : Conf) (s : Sys) : Prop := {
  rd_pc : RingConc.c_prod (ring c) p = RingConc.PIdle;
  rd_lock : RingConc.c_lock (ring c) = RingConc.Free;
  rd_locks : InternConc.c_locks (intern c) = ∅;
  rd_held : lock_held s = false;
  rd_mirrors : mirrors c s }.

Lemma ready_fill p c s : inv c → ready p c s → fill c p = FIdle.
Proof.
  intros (H & T & q & h & Hinv) Hr. destruct (qi_fill _ _ _ _ _ _ _ Hinv p) as [Hf _]. unfold filling_ok in Hf.
  by rewrite (rd_pc _ _ _ Hr) in Hf.
Qed.

(** The call is made by the step [a]. *)
Definition entering (a : Action) (c : Conf) (Q : Conf → Prop) : Prop := ∃ c1, exec a c = Some c1 ∧ Q c1.

Definition is_full (c : Conf) : bool := capacity <=? u64 (RingConc.c_head (ring c) - RingConc.c_tail (ring c)).

(** The way into a call, up to the look at the queue's length. *)
Lemma enter p a y0 y1 x c s :
  inv c → ready p c s → match a with RingConc.ACall q _ | RingConc.ABatch q _ _ => q = p | _ => False end →
  (∀ r, RingConc.c_prod r p = RingConc.PIdle → RingConc.exec capacity force a r = Some (RingConc.set_pc p y0 r)) →
  outside y0 = true →
  (∀ r, RingConc.c_prod r p = y0 → RingConc.prod_step capacity force p r = Some (RingConc.set_pc p (y1 (RingConc.c_head r)) r)) →
  (∀ h, outside (y1 h) = true) →
  (∀ r h, RingConc.c_prod r p = y1 h → RingConc.prod_step capacity force p r =
     Some (RingConc.set_pc p (x (capacity <=? u64 (h - RingConc.c_tail r))) r)) →
  ∃ c1, exec (ARing a) c = Some c1 ∧
    runs (by_producer p) c1 (λ c', turn p (x (is_full c)) FIdle (RingConc.h_pushed (ring c)) c' s ∧ RingConc.c_lock (ring c') = RingConc.Free).
Proof.
  intros Hinv Hr Ha Hs0 Ho0 Hs1 Ho1 Hs2. pose proof (ready_fill _ _ _ Hinv Hr) as Hfill. destruct Hr as [Hpc Hlock Hlocks _ Hm].
  set (r1 := RingConc.set_pc p y0 (ring c)). set (r2 := RingConc.set_pc p (y1 (RingConc.c_head (ring c))) r1).
  set (r3 := RingConc.set_pc p (x (is_full c)) r2).
  assert (exec (ARing a) c = Some (c <| ring := r1 |>)) as H1.
  { simpl. unfold ring_step, ring_move, ring_exec. rewrite (Hs0 _ Hpc). destruct a as [q ev|q ev l|q|q| |q|q ws|q]; done. }
  assert (exec (ARing (RingConc.AProd p)) (c <| ring := r1 |>) = Some (c <| ring := r2 |>)) as H2.
  { rewrite (ring_prod_exec p (c <| ring := r1 |>) r2); [done|simpl; by rewrite upd_same|]. apply (Hs1 r1). simpl. by rewrite upd_same. }
  assert (exec (ARing (RingConc.AProd p)) (c <| ring := r2 |>) = Some (c <| ring := r3 |>)) as H3.
  { rewrite (ring_prod_exec p (c <| ring := r2 |>) r3); [done|simpl; by rewrite upd_same|].
    apply (Hs2 r2 (RingConc.c_head (ring c))). simpl. by rewrite upd_same. }
  eexists. split; [exact H1|]. eapply runs_step; [|exact H2|]; [done|]. eapply runs_step; [|exact H3|]; [done|].
  apply runs_done. split; [|done]. split; try done; [|simpl; by rewrite upd_same|by apply mirrors_ring].
  do 2 (eapply queue_inv_exec; [|eassumption]). by eapply queue_inv_exec.
Qed.

(** Taking the lock, which is free. *)
Lemma sim_take_lock {A} p x n todo l c s (m : M Sys A) Q R :
  turn p x FIdle l c s → RingConc.c_lock (ring c) = RingConc.Free → x = RingConc.BLock n todo ∨ (x = RingConc.PTryLock n ∧ todo = []) →
  (∀ c', turn p (RingConc.PLocked n todo) FIdle l c' s → sim (by_producer p) c' m Q R s) → sim (by_producer p) c m Q R s.
Proof.
  intros Ht Hl Hx Hsim. pose proof Ht as [_ _ Hpc _ Hpu Hm].
  set (r := RingConc.set_pc p (RingConc.PLocked n todo) ((ring c) <| RingConc.c_lock := RingConc.Exclusive (RingConc.HProducer p) |>)).
  apply (sim_ring p x FIdle l c s s m Q R r); [exact Ht|by destruct Hx as [->|[-> _]]| |by apply mirrors_ring|].
  - unfold RingConc.prod_step. rewrite Hpc, Hl. by destruct Hx as [->|[-> ->]].
  - intros c' Ht' _. simpl in Ht'. rewrite upd_same, Hpu in Ht'. by apply Hsim.
Qed.

Lemma sim_batch_overflow p evs : ∀ c s l (Q : unit → Conf → Sys → Prop) R,
  turn p (RingConc.BOverflow (pred (length evs))) FIdle l c s → evs ≠ [] →
  (∀ c' s', turn p RingConc.PIdle FIdle l c' s' → RingConc.c_lock (ring c') = RingConc.c_lock (ring c) → lock_held s' = lock_held s → Q tt c' s') →
  sim (by_producer p) c (for_each (λ _ : PschEvent, HandleOverflow) evs) Q R s.
Proof.
  induction evs as [|ev evs IH]; intros c s l Q R Ht Hne HQ; [done|]. simpl. apply sim_bind.
  eapply sim_overflow; [exact Ht|done|intros r Hr; unfold RingConc.prod_step; rewrite Hr; reflexivity|]. intros c1 s1 Ht1 Hl1 Hh1.
  destruct evs as [|ev' evs]; [apply sim_ret, HQ; done|].
  apply (IH c1 s1 l); [done..|]. intros c' s' Ht' Hl' Hh'. apply HQ; [done|congruence..].
Qed.

(** What a call leaves: the events [l'] published, and the state of the function. *)
Definition left_by (p : nat) (c : Conf) (l' : list Z) (c' : Conf) (s' : Sys) : Prop :=
  ready p c' s' ∧ RingConc.h_pushed (ring c') = RingConc.h_pushed (ring c) ++ l'.

Lemma ready_mirrors p c s s' : ready p c s → mirrors c s' → lock_held s' = false → ready p c s'.
Proof. intros [] ??. by split. Qed.

Lemma turn_ready p l c s : turn p RingConc.PIdle FIdle l c s → RingConc.c_lock (ring c) = RingConc.Free → lock_held s = false → ready p c s.
Proof. intros [] ??. by split. Qed.

(** The guard and the flag of the lock are the process's own. *)
Lemma mirrors_guard c s b : mirrors c s → mirrors c (s <| disable_error_capture := b |>).
Proof. intros Hm. by eapply mirrors_same; [exact Hm|..]. Qed.

Lemma mirrors_held c s b : mirrors c s → mirrors c (s <| lock_held := b |>).
Proof. intros Hm. by eapply mirrors_same; [exact Hm|..]. Qed.

Lemma turn_held p x f l c s b : turn p x f l c s → turn p x f l c (s <| lock_held := b |>).
Proof. intros Ht. eapply turn_mirrors; [exact Ht|]. apply mirrors_held, Ht. Qed.

Lemma ready_guard p c s b : ready p c s → ready p c (s <| disable_error_capture := b |>).
Proof. intros []. split; try done. by apply mirrors_guard. Qed.

Lemma sim_suppress {A} P c b (f : bool → M Sys A) Q R s :
  (∀ prev, sim P c (f prev) Q R (s <| disable_error_capture := b |>)) → sim P c (PschSuppressErrorCapture b ≫= f) Q R s.
Proof.
  intros H. unfold PschSuppressErrorCapture. apply sim_bind, sim_bind, sim_gets, sim_bind, sim_modify, sim_ret, H.
Qed.

Lemma sim_acquire P c (Q : unit → Conf → Sys → Prop) R s :
  lock_held s = false → Q tt c (s <| lock_held := true |>) → sim P c LWLockAcquire Q R s.
Proof. intros Hl HQ. apply sim_wp. unfold wp, LWLockAcquire. by rewrite Hl. Qed.

(** The end of a call: the lock is released, the guard restored. *)
Lemma sim_leave p l c s saved (Q : unit → Conf → Sys → Prop) R :
  turn p RingConc.PUnlock FIdle l c s →
  (∀ c' s', ready p c' s' → RingConc.h_pushed (ring c') = l → Q tt c' s') →
  sim (by_producer p) c (_ ← LWLockRelease; _ ← PschSuppressErrorCapture saved; mret tt) Q R s.
Proof.
  intros Ht HQ. pose proof Ht as [Hinv Hlocks Hpc _ Hpu Hm].
  set (r := RingConc.set_pc p RingConc.PIdle ((ring c) <| RingConc.c_lock := RingConc.Free |>)).
  apply (sim_step _ (ARing (RingConc.AProd p)) _ (c <| ring := r |>)); [done| |].
  { apply ring_prod_exec; [by rewrite Hpc|]. unfold RingConc.prod_step. by rewrite Hpc. }
  apply sim_bind, sim_modify, sim_suppress. intros prev. apply sim_ret, HQ; [|done].
  split; try done; [simpl; by rewrite upd_same|]. apply mirrors_guard, mirrors_held. by apply mirrors_ring.
Qed.

Lemma sim_batch p n todo c s :
  inv c → ready p c s → psch_enabled = true →
  entering (ARing (RingConc.ABatch p n todo)) c (λ c1,
    sim (by_producer p) c1 (PschEnqueueBatch (map event (n :: todo)) (Z.of_nat (length (n :: todo))))
      (λ count c' s', ∃ l', count = Z.of_nat (length l') ∧ sublist l' (n :: todo) ∧ left_by p c l' c' s')
      (λ c' s', ∃ l', sublist l' (n :: todo) ∧ left_by p c l' c' s') s).
Proof.
  intros Hinv Hr Hen. pose proof (ready_guard _ _ _ true Hr) as Hr1.
  destruct (enter p (RingConc.ABatch p n todo) (RingConc.BEnter n todo) (RingConc.BGotHead n todo)
    (λ full, if full : bool then RingConc.BOverflow (length todo) else RingConc.BLock n todo) c _ Hinv Hr1) as (c0 & Hx & Hruns); try done.
  { intros r Hp. simpl. unfold RingConc.batch_call. by rewrite Hp. }
  { intros r Hp. unfold RingConc.prod_step. by rewrite Hp. }
  { intros r h Hp. unfold RingConc.prod_step. by rewrite Hp. }
  exists c0. split; [done|]. destruct (mi_shared _ _ (rd_mirrors _ _ _ Hr)) as (st & Hst & Hh & Ht & Hcap & _).
  unfold PschEnqueueBatch. apply sim_bind, sim_gets. rewrite Hst, Hen, (proj2 (Z.eqb_neq _ 0)) by (simpl; lia). simpl orb. cbv iota.
  apply sim_suppress. intros saved.
  do 3 (apply sim_bind; eapply sim_rd; [done|]). rewrite Hcap, Hh, Ht, Nat2Z.id, <- (length_map event (n :: todo)), firstn_all.
  apply sim_later. eapply runs_mono; [|exact Hruns].
  intros c1 [Ht1 Hl1]. unfold is_full in Ht1. destruct (_ <=? _).
  - apply sim_bind. eapply sim_batch_overflow; [simpl; rewrite length_map; exact Ht1|done|]. intros c2 s2 Ht2 Hl2 Hh2.
    apply sim_suppress. intros prev. apply sim_ret. exists []. split_and!; [done|by apply sublist_nil_l|].
    split; [|by rewrite app_nil_r, (tn_pushed _ _ _ _ _ _ Ht2)]. apply ready_guard. eapply turn_ready; [done|congruence|].
    rewrite Hh2. apply Hr.
  - apply sim_bind, sim_acquire; [apply Hr|]. apply (turn_held _ _ _ _ _ _ true) in Ht1.
    apply (sim_take_lock p _ n todo _ _ _ _ _ _ Ht1 Hl1); [by left|]. intros c2 Ht2.
    apply sim_finally, (sim_enqueue_loop p todo n (RingConc.h_pushed (ring c))); [done|..].
    + intros l' c3 s3 Ht3 Hsub. eapply sim_leave; [exact Ht3|]. intros c' s' Hr' Hpu'. exists l'. by split_and!.
    + intros l' c3 s3 Ht3 Hsub. eapply sim_leave; [exact Ht3|]. intros c' s' Hr' Hpu'. exists l'. by split_and!.
Qed.

Lemma sim_event p n c s :
  inv c → ready p c s → psch_enabled = true → lock_available = true →
  entering (ARing (RingConc.ACall p n)) c (λ c1,
    sim (by_producer p) c1 (PschEnqueueEvent (event n))
      (λ (ok : bool) c' s', left_by p c (if ok then [n] else []) c' s') (λ c' s', left_by p c [] c' s') s).
Proof.
  intros Hinv Hr Hen Hav. pose proof (ready_guard _ _ _ true Hr) as Hr1.
  destruct (enter p (RingConc.ACall p n) (RingConc.PEnter n) (RingConc.PGotHead n)
    (λ full, if full : bool then RingConc.POverflow n else RingConc.PTryLock n) c _ Hinv Hr1) as (c0 & Hx & Hruns); try done.
  { intros r Hp. simpl. unfold RingConc.prod_call. by rewrite Hp. }
  { intros r Hp. unfold RingConc.prod_step. by rewrite Hp. }
  { intros r h Hp. unfold RingConc.prod_step. by rewrite Hp. }
  exists c0. split; [done|]. destruct (mi_shared _ _ (rd_mirrors _ _ _ Hr)) as (st & Hst & Hh & Ht & Hcap & _).
  unfold PschEnqueueEvent. apply sim_bind, sim_gets. rewrite Hst, Hen. simpl orb. cbv iota.
  apply sim_suppress. intros saved.
  do 3 (apply sim_bind; eapply sim_rd; [done|]). rewrite Hcap, Hh, Ht.
  apply sim_later. eapply runs_mono; [|exact Hruns].
  intros c1 [Ht1 Hl1]. unfold is_full in Ht1. destruct (_ <=? _).
  - apply sim_bind. eapply sim_overflow; [exact Ht1|done|intros r Hp; unfold RingConc.prod_step; by rewrite Hp|]. intros c2 s2 Ht2 Hl2 Hh2.
    apply sim_suppress. intros prev. apply sim_ret. split; [|by rewrite app_nil_r, (tn_pushed _ _ _ _ _ _ Ht2)].
    apply ready_guard. eapply turn_ready; [done|congruence|]. rewrite Hh2. apply Hr.
  - apply sim_bind, sim_wp. unfold wp, LWLockConditionalAcquire. simpl. rewrite Hav, (rd_held _ _ _ Hr). simpl.
    apply (turn_held _ _ _ _ _ _ true) in Ht1.
    apply (sim_take_lock p _ n [] _ _ _ _ _ _ Ht1 Hl1); [by right|]. intros c2 Ht2.
    apply sim_finally, (sim_try_enqueue p n [] (RingConc.h_pushed (ring c))); [done|..].
    + intros ok c3 s3 Ht3. eapply sim_leave; [exact Ht3|]. by split.
    + intros c3 s3 Ht3. eapply sim_leave; [exact Ht3|]. intros c' s' Hr' Hpu'. split; [done|]. by rewrite app_nil_r.
Qed.

(** ** The consumer *)

Definition by_worker (a : Action) : Prop := a = ADrain ∨ a = ARing RingConc.ACons.

(** The worker has come to [x] and [d]; [o] is in its buffer and [l] was delivered. *)
Record taking (x : RingConc.ConsumerPC → Prop) (d : DrainPC) (o : PschEvent) (l : list PschEvent) (c : Conf) (s : Sys) : Prop := {
  tk_inv : inv c;
  tk_locks : InternConc.c_locks (intern c) = ∅;
  tk_cons : x (RingConc.c_cons (ring c));
  tk_drain : drain c = d;
  tk_out : out c = o;
  tk_delivered : delivered c = l;
  tk_mirrors : mirrors c s }.

(** It has the slot at [pos]. *)
Definition has_slot (pos : Z) (x : RingConc.ConsumerPC) : Prop := ∃ v, x = RingConc.CCopied pos v.

(** What is known of the slot. *)
Lemma taking_slot pos d o l c s :
  taking (has_slot pos) d o l c s → ∃ n, taking_ok capacity c (event n) pos.
Proof.
  intros [(H & T & q & h & Hinv) _ [v Hv] _ _ _ _]. destruct (qi_drain _ _ _ _ _ _ _ Hinv) as [Hd _].
  rewrite Hv in Hd. destruct Hd as (n & rest & _ & Hok). by exists n.
Qed.

Lemma sim_drain {A} x' d' o' l' x d o l c c1 s s' (m : M Sys A) Q R :
  taking x d o l c s → exec ADrain c = Some c1 → InternConc.c_locks (intern c1) = ∅ →
  x' (RingConc.c_cons (ring c1)) → drain c1 = d' → out c1 = o' → delivered c1 = l' → mirrors c1 s' →
  (taking x' d' o' l' c1 s' → sim by_worker c1 m Q R s') → sim by_worker c m Q R s'.
Proof.
  intros [Hinv _ _ _ _ _ _] Hx Hl Hc Hd Ho Hdel Hm Hsim. apply (sim_step _ ADrain _ c1); [by left|done|].
  apply Hsim. split; try done. by eapply queue_inv_exec.
Qed.

Lemma string_beside strs h dp b :
  h !! dp = None → strs !! dp = Some b → string_at (h ∪ (DsaString <$> strs)) dp = b.
Proof. intros Hh Hs. unfold string_at. by rewrite lookup_union, Hh, lookup_fmap, Hs. Qed.

Lemma agrees_free strs i s dp :
  agrees strs i s → is_Some (strs !! dp) → agrees (delete dp strs) i (s <| heap ::= delete dp |>).
Proof.
  intros [Hh Hap Ht Ha Ho] Hd. split; try done; simpl.
  - by rewrite Hh, delete_union, fmap_delete, (delete_id (InternConc.c_heap i)) by auto.
  - intros d Hd'. apply Hap. destruct Hd' as [b [_ Hb]%lookup_delete_Some]. by eexists.
Qed.

(** The error message is copied and freed. *)
Lemma sim_resolve_err pos o l c s (Q : bytes * Z → Conf → Sys → Prop) R :
  taking (has_slot pos) DErr o l c s →
  let e := slot pos c in
  (∀ r c' s', taking (has_slot pos) DQuery (o <| err_message := r.1 |> <| ev_fixed ::= λ f, f <| err_message_len := r.2 |> |>) l c' s' →
     slot pos c' = e → Q r c' s') →
  sim by_worker c (PschDsaResolveString (err_message_dsa e) (err_message_len (re_fixed e)) (err_message o) PSCH_MAX_ERR_MSG_LEN) Q R s.
Proof.
  intros Ht e HQ. destruct (taking_slot _ _ _ _ _ _ Ht) as [n [_ Hok]]. pose proof Ht as [Hinv Hlocks [v Hv] Hd Ho Hl Hm].
  rewrite Hd in Hok. destruct Hok as [_ Herr _]. unfold err_slot in Herr. unfold PschDsaResolveString.
  assert (exec ADrain c = Some (resolve_err (slot pos c) c)) as Hx by (simpl; unfold drain_step; by rewrite Hv, Hd).
  fold e in Hx. destruct (DsaPointerIsValid (err_message_dsa e)) eqn:Hvalid.
  - destruct (h_err c !! pos) as [dp|] eqn:Hh; [|by destruct Herr as [Herr _]; fold e in Herr; rewrite Herr in Hvalid].
    fold e in Herr. destruct Herr as (<- & _ & Hstr & _). unfold resolve_err in Hx. rewrite Hvalid, Hstr in Hx. simpl in Hx.
    apply sim_bind. eapply wp_get_area_shared; [apply Hm|]. intros s1 Hs1 Ha1. apply runs_done. simpl.
    pose proof (mirrors_shared _ _ _ Hm Hs1 Ha1) as Hm1. apply sim_bind, sim_gets.
    rewrite (ag_heap _ _ _ (mi_memory _ _ Hm1)), (string_beside _ _ _ _ (ag_apart _ _ _ (mi_memory _ _ Hm1) _ (mk_is_Some _ _ Hstr)) Hstr).
    set (len := Z.min (err_message_len (re_fixed e)) (u16 (PSCH_MAX_ERR_MSG_LEN - 1))) in *.
    eapply (sim_drain (has_slot pos) (DErrFree (err_message_dsa e)) (o <| err_message ::= λ dst, blit (Z.to_nat len) [0] (blit 0 (take (Z.to_nat len) _) dst) |>
      <| ev_fixed ::= λ f, f <| err_message_len := len |> |>) l); [exact Ht|exact Hx|done|by exists v|done|simpl; by rewrite Ho|exact Hl|by eapply mirrors_conf|].
    intros Ht1. apply sim_bind, sim_modify.
    eapply (sim_drain (has_slot pos) DQuery _ l); [exact Ht1|simpl; unfold drain_step; simpl; by rewrite Hv|done|by exists v|done|simpl; by rewrite Ho|exact Hl| |].
    { destruct Hm1 as [H1 H2 H3]. split; [done..|]. simpl. apply agrees_free; [done|]. by rewrite Hstr. }
    intros Ht2. apply sim_ret, HQ; [exact Ht2|done].
  - unfold resolve_err in Hx. rewrite Hvalid in Hx.
    eapply (sim_drain (has_slot pos) DQuery _ l); [exact Ht|exact Hx|done|by exists v|done|simpl; by rewrite Ho|exact Hl|by eapply mirrors_conf|].
    intros Ht1. by apply sim_ret, HQ.
Qed.

(** The steps of a release after the copy of the text. *)
Lemma resolved_reads p i i' :
  resolved (InternConc.c_pc i p) = true → InternConc.proc_step PSCH_MAX_QUERY_LEN p i = Some i' → InternConc.c_read i' = InternConc.c_read i.
Proof.
  intros Hr Hs. unfold InternConc.proc_step in Hs.
  destruct (InternConc.c_pc i p) as [| | | | | | | | | | |r|r key|r key|key [d|]|d]; try done.
  - unfold InternConc.key_step in Hs. destruct (InternConc.c_refs i !! r); [|done]. by injection Hs as <-.
  - unfold InternConc.lock_for in Hs. destruct (InternConc.c_locks i !! _); [done|]. by injection Hs as <-.
  - unfold InternConc.release_step in Hs. destruct (InternConc.c_refs i !! r); [|done]. injection Hs as <-. simpl.
    destruct (InternConc.c_tab i !! key); [|done]. destruct (_ =? _); [|done]. by destruct (_ =? 0).
  - by injection Hs as <-.
  - by injection Hs as <-.
  - by injection Hs as <-.
Qed.

Lemma lift_resolved pos v acts : ∀ c i',
  inv c → RingConc.c_cons (ring c) = RingConc.CCopied pos v → drain c = DRelease →
  resolved (InternConc.c_pc (intern c) worker) = true →
  Forall (λ a, InternLive.actor a = worker ∧ InternLive.is_call a = false) acts →
  intern_run acts (intern c) = Some i' → InternConc.c_pc i' worker = InternConc.PIdle →
  InternConc.c_read i' = InternConc.c_read (intern c) ∧
  runs by_worker c (λ c', c' = c <| intern := i' |> <| drain := DDone |>).
Proof.
  induction acts as [|a acts IH]; intros c i' Hinv Hv Hd Hres Hacts Hrun Hidle.
  { simpl in Hrun. simplify_eq. by rewrite Hidle in Hres. }
  apply Forall_cons in Hacts as [[Hact Hcall] Hacts]. simpl in Hrun.
  destruct (InternConc.exec _ a (intern c)) as [i1|] eqn:Ha; [|done].
  destruct a as [| |q|q o]; try done; simpl in Hact, Ha; subst q.
  2: { exfalso. unfold InternConc.alloc_step in Ha. by destruct (InternConc.c_pc (intern c) worker). }
  pose proof (resolved_reads _ _ _ Hres Ha) as Hread.
  assert (∃ h, InternConcThms.conc_ok PSCH_MAX_QUERY_LEN (intern c) h) as [h Hok].
  { destruct Hinv as (H & T & q & h & Hinv). exists h. apply Hinv. }
  assert (exec ADrain c = Some match InternConc.c_pc i1 worker with
      | InternConc.PIdle => c <| intern := i1 |> <| drain := DDone |> | _ => c <| intern := i1 |> end) as Hx.
  { simpl. unfold drain_step, intern_move, intern_exec. rewrite Hv, Hd. simpl. rewrite Ha. simpl.
    revert Hres. clear. by destruct (InternConc.c_pc (intern c) worker). }
  destruct (resolved_step _ _ _ _ Hok Hres Ha) as [Hres1|Hid1].
  - assert (exec ADrain c = Some (c <| intern := i1 |>)) as Hx1 by (rewrite Hx; by destruct (InternConc.c_pc i1 worker)).
    specialize (IH (c <| intern := i1 |>)).
    destruct (IH i' (queue_inv_exec _ _ _ Hinv Hx1) Hv Hd Hres1 Hacts Hrun Hidle) as [IHr IHrun].
    split; [by rewrite IHr|]. apply (runs_step _ ADrain _ (c <| intern := i1 |>)); [by left|done..].
  - destruct (idle_run _ _ _ _ Hid1 Hacts Hrun) as [-> ->]. split; [done|]. rewrite Hid1 in Hx.
    eapply (runs_step _ ADrain); [by left|exact Hx|by apply runs_done].
Qed.

(** A release, from its start. *)
Lemma run_drain pos v r c (Q : InternConc.Conf → Prop) :
  inv c → RingConc.c_cons (ring c) = RingConc.CCopied pos v → drain c = DRelease →
  InternConc.c_pc (intern c) worker = InternConc.RResolve r →
  ends PSCH_MAX_QUERY_LEN (strings c) false worker (intern c) Q →
  runs by_worker c (λ c', ∃ i', Q i' ∧ InternConc.c_locks i' = InternConc.c_locks (intern c) ∧
    c' = c <| intern := i' |> <| out ::= read_query i' |> <| drain := DDone |>).
Proof.
  intros Hinv Hv Hd Hpc (acts & i' & (Hacts & Hrun & Hlocks & Hidle & _) & _ & _ & HQ).
  destruct acts as [|a acts]; [simpl in Hrun; simplify_eq; congruence|].
  apply Forall_cons in Hacts as [[Hact Hcall] Hacts]. simpl in Hrun.
  destruct (InternConc.exec _ a (intern c)) as [i1|] eqn:Ha; [|done].
  destruct a as [| |q|q o]; try done; simpl in Hact, Ha; subst q; [|unfold InternConc.alloc_step in Ha; by rewrite Hpc in Ha].
  assert (∃ h, InternConcThms.conc_ok PSCH_MAX_QUERY_LEN (intern c) h) as [h Hok].
  { destruct Hinv as (H & T & q & h & Hinv). exists h. apply Hinv. }
  destruct (resolving_step _ _ _ _ _ Hok Hpc Ha) as [Hres1 _].
  assert (exec ADrain c = Some (c <| intern := i1 |> <| out ::= read_query i1 |>)) as Hx.
  { simpl. unfold drain_step, intern_move, intern_exec. rewrite Hv, Hd, Hpc. simpl. rewrite Ha. simpl.
    revert Hres1. clear. by destruct (InternConc.c_pc i1 worker). }
  set (c1 := c <| intern := i1 |> <| out ::= read_query i1 |>) in *.
  destruct (lift_resolved pos v acts c1 i' (queue_inv_exec _ _ _ Hinv Hx) Hv Hd Hres1 Hacts Hrun Hidle) as [Hread Hruns].
  apply (runs_step _ ADrain _ c1); [by left|done|]. eapply runs_mono; [|exact Hruns]. intros c' ->. exists i'. split_and!; [done..|].
  unfold c1, read_query. by rewrite Hread.
Qed.

(** The query is copied and its reference given back. *)
Lemma sim_resolve_query pos o l c s (Q : option bytes * option Z → Conf → Sys → Prop) R :
  taking (has_slot pos) DQuery o l c s →
  (∀ r c' s', taking (has_slot pos) DDone (o <| query := default [] r.1 |> <| ev_fixed ::= λ f, f <| query_len := default 0 r.2 |> |>) l c' s' →
     Q r c' s') →
  sim by_worker c (PschQueryInternResolveAndRelease (query_dsa (slot pos c)) (Some (query o)) PSCH_MAX_QUERY_LEN (Some (query_len (ev_fixed o)))) Q R s.
Proof.
  intros Ht HQ. destruct (taking_slot _ _ _ _ _ _ Ht) as [n [_ Hok]]. pose proof Ht as [Hinv Hlocks [v Hv] Hd Ho Hl Hm].
  rewrite Hd in Hok. simpl in Hok. destruct Hok as (_ & _ & Hq). unfold query_slot in Hq.
  destruct (DsaPointerIsValid (query_dsa (slot pos c))) eqn:Hvalid.
  - destruct (h_ref c !! pos) as [r|] eqn:Hr; [|by destruct Hq as [Hq _]; rewrite Hq in Hvalid].
    destruct Hq as (_ & x & Hx & Hu & Hptr & _). rewrite <- Hptr.
    assert (∃ h, InternConcThms.conc_ok PSCH_MAX_QUERY_LEN (intern c) h ∧ InternConc.c_pc (intern c) worker = InternConc.PIdle) as (h & Hok & Hidle).
    { destruct Hinv as (H & T & q & h & Hinv). exists h. split; [apply Hinv|].
      destruct (qi_drain _ _ _ _ _ _ _ Hinv) as [_ Hidle]. apply Hidle. by rewrite Hd. }
    assert (exec ADrain c = option_map (λ c, c <| drain := DRelease |> <| h_ref ::= delete pos |>)
      (intern_move (InternConc.ARelease worker r)
         (c <| out ::= λ o, o <| query ::= blit 0 [0] |> <| ev_fixed ::= λ f, f <| query_len := 0 |> |> |>))) as Hstep.
    { unfold QueueConc.slot in *. simpl. unfold drain_step, QueueConc.slot, InternConc.pointer. rewrite Hv, Hd. simpl.
      by rewrite Hvalid, Hr, Hx, Hptr, Z.eqb_refl. }
    eapply wp_mono; [| |apply (release_alone PSCH_MAX_QUERY_LEN (strings c) (intern c) h worker r x s); try done; apply Hm].
    + intros out1 s1 (Hkeep & i1 & Hcall & Hends). unfold intern_move, intern_exec in Hstep. simpl in Hcall, Hstep. rewrite Hcall in Hstep.
      simpl in Hstep.
      set (c1 := c <| out ::= _ |> <| intern := i1 |> <| drain := DRelease |> <| h_ref ::= delete pos |>) in Hstep.
      change (exec ADrain c = Some c1) in Hstep. apply (runs_step _ ADrain _ c1); [by left|done|].
      destruct (release_call_moves _ _ _ _ Hcall) as (_ & _ & _ & _ & Hpc1).
      pose proof (run_drain pos v r c1 _ (queue_inv_exec _ _ _ Hinv Hstep) Hv eq_refl Hpc1 Hends) as Hruns.
      eapply runs_mono; [|apply (runs_inv _ _ _ (queue_inv_exec _ _ _ Hinv Hstep) Hruns)].
      intros c' (Hinv' & i' & (Hag & _ & text & Hread & ->) & Hl' & ->). apply HQ. simpl.
      split; try done.
      * simpl. rewrite Hl'. unfold InternConc.release_call in Hcall. rewrite Hidle, Hx in Hcall. destruct x as [ptr text' [u|]]; [done|].
        by injection Hcall as <-.
      * by exists v.
      * simpl. unfold read_query. by rewrite Hread, last_snoc, Ho.
      * eapply (mirrors_conf (c <| intern := i' |>)); [by eapply mirrors_keeps|done..].
    + by intros ? [].
  - unfold PschQueryInternResolveAndRelease, ResolveInto, ReleaseRef. rewrite Hvalid. simpl.
    apply sim_bind, sim_ret, sim_bind, sim_bind, sim_gets, sim_ret.
    set (c1 := c <| out ::= λ o, o <| query ::= blit 0 [0] |> <| ev_fixed ::= λ f, f <| query_len := 0 |> |> |> <| drain := DDone |>).
    assert (exec ADrain c = Some c1) as Hx.
    { unfold QueueConc.slot in *. simpl. unfold drain_step, QueueConc.slot. rewrite Hv, Hd. simpl. by rewrite Hvalid. }
    eapply (sim_drain (has_slot pos) DDone _ l); [exact Ht|exact Hx|done|by exists v|done|simpl; by rewrite Ho|exact Hl|by eapply mirrors_conf|].
    intros Ht1. by apply sim_ret, HQ.
Qed.

(** A step of the ring's consumer. *)
Lemma sim_cons {A} y x o l c s s' (m : M Sys A) Q R r :
  taking (eq x) DIdle o l c s → match x with RingConc.CIdle | RingConc.CGotHead _ => true | _ => false end = true →
  RingConc.cons_step capacity (ring c) = Some r → RingConc.c_cons r = y → mirrors (c <| ring := r |>) s' →
  (taking (eq y) DIdle o l (c <| ring := r |>) s' → sim by_worker (c <| ring := r |>) m Q R s') → sim by_worker c m Q R s'.
Proof.
  intros [Hinv Hl Hc Hd Ho Hdel Hm] Hx Hr Hy Hm' Hsim.
  assert (exec (ARing RingConc.ACons) c = Some (c <| ring := r |>)) as He.
  { simpl. unfold ring_step, ring_move, ring_exec. rewrite <- Hc. simpl. rewrite Hr. by destruct x. }
  apply (sim_step _ (ARing RingConc.ACons) _ (c <| ring := r |>)); [by right|done|]. apply Hsim. split; try done. by eapply queue_inv_exec.
Qed.

(** [PschDequeueEvent], between two events. *)
Lemma sim_dequeue o l c s :
  taking (eq RingConc.CIdle) DIdle o l c s →
  sim by_worker c (PschDequeueEvent o)
    (λ r c' s', taking (eq RingConc.CIdle) DIdle r.2 (l ++ if r.1 : bool then [r.2] else []) c' s') (λ _ _, False) s.
Proof.
  intros Ht. pose proof Ht as [_ _ Hc Hd Ho _ Hm]. destruct (mi_shared _ _ Hm) as (st & Hst & Hh & Htl & Hcap & Heq).
  unfold PschDequeueEvent. apply sim_bind, sim_gets. rewrite Hst. do 2 (apply sim_bind; eapply sim_rd; [done|]). rewrite Hh, Htl.
  set (r1 := (ring c) <| RingConc.c_cons := RingConc.CGotHead (RingConc.c_head (ring c)) |>).
  eapply (sim_cons _ _ o l c s s _ _ _ r1); [exact Ht|done|unfold RingConc.cons_step; by rewrite <- Hc|reflexivity|by apply mirrors_ring|].
  clear Ht. intros Ht. set (c1 := c <| ring := r1 |>) in *.
  set (r2 := r1 <| RingConc.c_cons := if RingConc.c_head (ring c) =? RingConc.c_tail (ring c) then RingConc.CIdle else RingConc.CCopy (RingConc.c_tail (ring c)) |>).
  eapply (sim_cons _ _ o l c1 s s _ _ _ r2); [exact Ht|done|done|reflexivity|by apply (mirrors_ring c s r2)|].
  clear Ht. intros Ht. change (c1 <| ring := r2 |>) with (c <| ring := r2 |>) in *. clear c1.
  destruct (_ =? _) eqn:Hempty; [apply sim_ret; simpl; by rewrite app_nil_r|].
  set (pos := RingConc.c_tail (ring c)) in *. apply sim_bind. eapply sim_rd; [done|]. rewrite Hcap. apply sim_bind, sim_gets.
  set (c2 := c <| ring := r2 |>) in *. rewrite (mi_ring _ _ Hm). change (slots c !!! slot_index capacity pos) with (slot pos c2).
  set (r3 := r2 <| RingConc.c_cons := RingConc.CCopied pos (RingConc.c_slots r2 !!! slot_index capacity pos) |>).
  set (c3 := c2 <| ring := r3 |> <| out ::= (λ o, o <| ev_fixed := re_fixed (slot pos c2) |>) |> <| drain := DErr |>).
  assert (exec ADrain c2 = Some c3) as Hx.
  { simpl. unfold drain_step, ring_move, ring_exec. simpl. by rewrite Hd. }
  eapply (sim_drain (has_slot pos) DErr _ l); [exact Ht|exact Hx|apply Ht|by eexists|done|simpl; rewrite Ho; reflexivity|apply Ht| |].
  { eapply (mirrors_conf (c <| ring := r3 |>)); [by apply mirrors_ring|done..]. }
  clear Ht. intros Ht. apply sim_bind, (sim_resolve_err pos _ l c3 s); [exact Ht|].
  intros err c4 s4 Ht4 Hslot. change (slot pos c2) with (slot pos c3) in Ht4 |- *. rewrite <- Hslot in Ht4 |- *.
  apply sim_bind. eapply (sim_resolve_query pos _ l c4 s4); [exact Ht4|].
  intros q c5 s5 [Hinv5 Hl5 [v Hv] Hd5 Ho5 Hdel5 Hm5]. destruct (mi_shared _ _ Hm5) as (st5 & Hst5 & Heq5).
  apply sim_bind. eapply sim_wr; [done|].
  set (r6 := (ring c5) <| RingConc.c_cons := RingConc.CIdle |> <| RingConc.c_tail := u64 (pos + 1) |>
    <| RingConc.h_popped ::= λ l, l ++ [default (-1) v] |>).
  set (c6 := c5 <| ring := r6 |> <| drain := DIdle |> <| delivered ::= λ l, l ++ [out c5] |>).
  assert (exec ADrain c5 = Some c6) as Hx6.
  { simpl. unfold drain_step, ring_move, ring_exec. rewrite Hv, Hd5. simpl. unfold RingConc.cons_step. by rewrite Hv. }
  apply (sim_step _ ADrain _ c6); [by left|done|]. apply sim_ret. split; try done; [by eapply queue_inv_exec|simpl; by rewrite Hdel5, Ho5|].
  eapply (mirrors_conf (c5 <| ring := r6 |>)); [|done..]. eapply mirrors_write; [done|done|..]; simpl; intuition congruence.
Qed.

(** ** The theorem *)

(** Between two events: the worker is in no call and has [o] in its buffer. *)
Definition between (o : PschEvent) (c : Conf) (s : Sys) : Prop :=
  RingConc.c_cons (ring c) = RingConc.CIdle ∧ InternConc.c_locks (intern c) = ∅ ∧ out c = o ∧ mirrors c s.

(** C8: A call on the queue that no other process interrupts is the sequential function.
    In any reachable state of the whole machine and any state [s] of one process that shows
    the same shared memory, with no lock held and the process in no call: steps of a
    backend alone make the call of [PschEnqueueEvent] (the lock manager granting the
    lock) or of [PschEnqueueBatch] end with the positions, the counters, the slots, the
    string area, the table and the result of the function of [Ring.v] or
    [LocalBatch.v], by a return or by an error as the function does, with both locks
    free and the events of the result published in their order; and steps of the worker
    alone end as [PschDequeueEvent] does, which raises nothing: an event is delivered
    exactly if the function says so, and it is what the function leaves in the buffer. *)
Theorem uninterrupted_queue_sequential c s (Hreach : reachable capacity event c) (Hen : psch_enabled = true) :
  (∀ p n, lock_available = true → ready p c s →
     entering (ARing (RingConc.ACall p n)) c (λ c1,
       sim (by_producer p) c1 (PschEnqueueEvent (event n))
         (λ ok c' s', left_by p c (if ok : bool then [n] else []) c' s')
         (λ c' s', left_by p c [] c' s') s)) ∧
  (∀ p n todo, ready p c s →
     entering (ARing (RingConc.ABatch p n todo)) c (λ c1,
       sim (by_producer p) c1 (PschEnqueueBatch (map event (n :: todo)) (Z.of_nat (length (n :: todo))))
         (λ count c' s', ∃ l', count = Z.of_nat (length l') ∧ sublist l' (n :: todo) ∧ left_by p c l' c' s')
         (λ c' s', ∃ l', sublist l' (n :: todo) ∧ left_by p c l' c' s') s)) ∧
  (∀ o, between o c s →
     sim by_worker c (PschDequeueEvent o)
       (λ r c' s', between r.2 c' s' ∧ delivered c' = delivered c ++ if r.1 : bool then [r.2] else [])
       (λ _ _, False) s).
Proof.
  assert (inv c) as Hinv by by apply (queue_reachable_inv capacity event k Hk eq_refl Hev). split_and!.
  - intros p n Hav Hr. by apply sim_event.
  - intros p n todo Hr. by apply sim_batch.
  - intros o (Hc & Hl & Ho & Hm). eapply sim_mono; [| |apply (sim_dequeue o (delivered c) c s)]; [|done|].
    + intros r c' s' []. by split_and!.
    + split; try done. destruct Hinv as (H & T & q & h & Hinv). destruct (qi_drain _ _ _ _ _ _ _ Hinv) as [Hd _]. by rewrite Hc in Hd.
Qed.

End seq.

(** ** A concrete state *)

(** One event waits; the state of a process that sees the memory of the machine. *)
Definition waiting_conf : Conf := run_to enqueue_run.
Definition waiting_sys : Sys :=
  demo_sys1 <| psch_shared_state := Some (demo_st1 <| q_head := 0 |> <| enqueued := 1 |>) |>
    <| Shared.ring := slots waiting_conf |> <| htab := Some (InternConc.c_tab (intern waiting_conf)) |>
    <| heap := InternConc.c_heap (intern waiting_conf) ∪ (DsaString <$> strings waiting_conf) |>.

Lemma waiting_strings dp : is_Some (strings waiting_conf !! dp) → dp = 16.
Proof.
  intros Hd%elem_of_dom. apply elem_of_elements in Hd.
  assert (elements (dom (strings waiting_conf)) = [16]) as Hs by (vm_compute; reflexivity).
  rewrite Hs in Hd. by apply list_elem_of_singleton in Hd.
Qed.

Lemma waiting_mirrors : mirrors 2 waiting_conf waiting_sys.
Proof.
  split; [|reflexivity|split; [reflexivity| |reflexivity| |]].
  - eexists. split; [reflexivity|]. split_and!; vm_compute; reflexivity.
  - intros dp ->%waiting_strings. vm_compute. reflexivity.
  - right. eexists. split; [reflexivity|done].
  - eexists. split; [reflexivity|]. vm_compute. reflexivity.
Qed.

Lemma uninterrupted_queue_sequential_witness :
  (PschEnqueueEvent (E := demo1) demo_ev1 waiting_sys).1 = Some true ∧
  (PschEnqueueBatch (E := demo1) [demo_ev1; demo_ev1] 2 waiting_sys).1 = Some 2 ∧
  fst <$> (PschDequeueEvent zero_event waiting_sys).1 = Some true ∧
  ∃ c1, exec (E := demo1) (2 ^ 2) (λ _, demo_ev1) (ARing (RingConc.ACall 0 8)) waiting_conf = Some c1 ∧
    sim (E := demo1) 2 (λ _, demo_ev1) (by_producer 0) c1 (PschEnqueueEvent (E := demo1) demo_ev1)
      (λ ok c' s', left_by 2 0 waiting_conf (if ok : bool then [8] else []) c' s') (λ c' s', left_by 2 0 waiting_conf [] c' s') waiting_sys.
Proof.
  split; [by vm_compute|]. split; [by vm_compute|]. split; [by vm_compute|].
  destruct (uninterrupted_queue_sequential (E := demo1) 2 ltac:(lia) (λ _, demo_ev1) (λ _, demo_ev1_ok) waiting_conf waiting_sys)
    as [H _]; [exact (proj1 (proj2 demo_runs_reachable))|done|].
  apply (H 0%nat 8 eq_refl). split; [by vm_compute..|exact waiting_mirrors].
Defined.

End QueueConcSeq.
