(* ===== verification/NormalizeCache.v ===== *)
(** The backend-local cache of normalized query text
    ([src/src/hooks/query_normalize_state.c]): a hash table of texts by query id
    with a list of the ids in order of use.

    The list threaded through the table's entries is the list of their keys, most
    recently used first. An entry's [normalized_query] is [None] when the pointer
    does not point at a text: before it is first assigned, and after [pfree]. *)

From S2P Require Import Prelude Event.
Import Event.

Module NormalizeCache.

Definition PSCH_MAX_CACHED_QUERY_LEN : Z := 2048.

Record PschNormalizeCacheEntry := {
  normalized_query : option bytes;
  normalized_len : Z }.

#[export] Instance PschNormalizeCacheEntry_eta : Eta PschNormalizeCacheEntry := λ e,
  Build_PschNormalizeCacheEntry (normalized_query e) (normalized_len e).

Record PschNormalizedQueryCache := {
  c_htab : option (gmap Z PschNormalizeCacheEntry);
  lru : list Z;
  max_entries : Z }.

#[export] Instance PschNormalizedQueryCache_eta : Eta PschNormalizedQueryCache := λ c,
  Build_PschNormalizedQueryCache (c_htab c) (lru c) (max_entries c).

Abbreviation Cache := PschNormalizedQueryCache.

Definition empty_cache : Cache := {| c_htab := None; lru := []; max_entries := 0 |}.

(** Memory can run out, by an error, where the code allocates: for a new hash
    table element, and for a text. *)
Class CacheEnv := {
  psch_normalize_cache_max : Z;
  enter_ok : Cache → bool;
  palloc_ok : Cache → Z → bool }.

Section Cache.
Context {CE : CacheEnv}.

Definition PschInitNormalizedQueryCache (max : Z) : M Cache unit :=
  modify (λ c, c <| c_htab := Some ∅ |> <| lru := [] |> <| max_entries := max |>).

Definition EnsureCacheInitialized : M Cache unit :=
  h ← gets c_htab;
  match h with
  | Some _ => mret tt
  | None =>
    n ← gets max_entries;
    PschInitNormalizedQueryCache (if 0 <? n then n else psch_normalize_cache_max)
  end.

Definition ClampCachedQueryLen (n : Z) : Z :=
  if PSCH_MAX_CACHED_QUERY_LEN <=? n then PSCH_MAX_CACHED_QUERY_LEN - 1 else n.

Definition PushEntryToMru (id : Z) : M Cache unit := modify (λ c, c <| lru ::= cons id |>).

(** [dclist_delete_from]: unlinks the entry's own node. *)
Definition unlink (id : Z) : M Cache unit :=
  modify (λ c, c <| lru ::= filter (λ k, k ≠ id) |>).

Definition PromoteEntryToMru (id : Z) : M Cache unit := _ ← unlink id; PushEntryToMru id.

(** Changing an entry in place. *)
Definition set_entry (id : Z) (f : PschNormalizeCacheEntry → PschNormalizeCacheEntry) : M Cache unit :=
  modify (λ c, c <| c_htab ::= fmap (alter f id) |>).

(** [normalized_len + 1] bytes: the text and a NUL. *)
Definition CopyQueryText (q : bytes) (len : Z) : M Cache bytes :=
  ok ← gets (λ c, palloc_ok c (len + 1));
  if ok : bool then mret (take (Z.to_nat len) q ++ [0]) else raise.

(** Returns the destination and the length copied. *)
Definition CopyEntryText (e : PschNormalizeCacheEntry) (dst : bytes) (dst_size : Z) : bytes * Z :=
  let len := Z.min (normalized_len e) (dst_size - 1) in
  (blit (Z.to_nat len) [0] (blit 0 (take (Z.to_nat len) (default [] (normalized_query e))) dst),
   u16 len).

(** Drops the last of the list. *)
Definition EvictLru : M Cache unit :=
  l ← gets lru;
  match last l with
  | None => mret tt
  | Some victim =>
    _ ← unlink victim;
    _ ← set_entry victim (λ e, e <| normalized_query := None |>);
    modify (λ c, c <| c_htab ::= fmap (delete victim) |>)
  end.

(** [normalized_query] is [None] for [NULL]; the cache itself is never [NULL]. *)
Definition PschRememberNormalizedQuery (query_id : Z) (q : option bytes) (len : Z) : M Cache unit :=
  match q with
  | None => mret tt
  | Some q =>
    if query_id =? 0 then mret tt
    else
      _ ← EnsureCacheInitialized;
      m ← gets (λ c, default ∅ (c_htab c));
      _ ← match m !! query_id with
          | Some _ =>
            _ ← set_entry query_id (λ e, e <| normalized_query := None |>);
            unlink query_id
          | None =>
            ok ← gets enter_ok;
            if ok : bool then
              _ ← modify (λ c, c <| c_htab ::= fmap <[query_id :=
                    {| normalized_query := None; normalized_len := 0 |}]> |>);
              n ← gets (λ c, Z.of_nat (length (lru c)));
              max ← gets max_entries;
              if max <=? n then EvictLru else mret tt
            else raise
          end;
      let len := ClampCachedQueryLen len in
      copy ← CopyQueryText q len;
      _ ← set_entry query_id (λ _, {| normalized_query := Some copy; normalized_len := len |});
      PushEntryToMru query_id
  end.

(** Returns whether there was a hit, the destination and [*out_len]; [dst] is
    the caller's buffer of [dst_size] bytes and [out_len] the value it had. *)
Definition PschLookupNormalizedQuery (query_id : Z) (dst : bytes) (dst_size : Z) (out_len : Z)
    : M Cache (bool * bytes * Z) :=
  h ← gets c_htab;
  match h with
  | None => mret (false, dst, out_len)
  | Some m =>
    if (dst_size =? 0) || (query_id =? 0) then mret (false, dst, out_len)
    else
      match m !! query_id with
      | None => mret (false, dst, out_len)
      | Some entry =>
        _ ← PromoteEntryToMru query_id;
        let '(dst, n) := CopyEntryText entry dst dst_size in
        mret (true, dst, n)
      end
  end.

End Cache.

(** ** The abstract cache

    A list of ids and texts, most recently used first, of bounded length. *)

Definition spec_put (max : Z) (id : Z) (txt : bytes) (l : list (Z * bytes)) : list (Z * bytes) :=
  (id, txt) :: take (Z.to_nat (max - 1)) (filter (λ kv, kv.1 ≠ id) l).

Definition spec_get (id : Z) (l : list (Z * bytes)) : option (bytes * list (Z * bytes)) :=
  match list_find (λ kv, kv.1 = id) l with
  | Some (_, kv) => Some (kv.2, kv :: filter (λ kv, kv.1 ≠ id) l)
  | None => None
  end.

(** The text an id stands for. *)
Definition cached_text (m : gmap Z PschNormalizeCacheEntry) (id : Z) : bytes :=
  match m !! id with
  | Some e => take (Z.to_nat (normalized_len e)) (default [] (normalized_query e))
  | None => []
  end.

Definition cache_abs (c : Cache) : list (Z * bytes) :=
  match c_htab c with
  | Some m => (λ id, (id, cached_text m id)) <$> lru c
  | None => []
  end.

Definition entry_wf (e : PschNormalizeCacheEntry) : Prop :=
  0 ≤ normalized_len e < PSCH_MAX_CACHED_QUERY_LEN ∧
  ∃ b, normalized_query e = Some b ∧ length b = S (Z.to_nat (normalized_len e)).

Record cache_inv (c : Cache) (m : gmap Z PschNormalizeCacheEntry) : Prop := {
  cv_htab : c_htab c = Some m;
  cv_nodup : NoDup (lru c);
  cv_keys id : id ∈ lru c ↔ is_Some (m !! id);
  cv_entries id e : m !! id = Some e → entry_wf e;
  cv_bound : Z.of_nat (length (lru c)) ≤ max_entries c;
  cv_max : 0 < max_entries c;
  cv_nonzero : 0 ∉ lru c }.

(** ** Lists without an element *)

Lemma filter_ne_id (id : Z) (l : list Z) : id ∉ l → filter (λ k, k ≠ id) l = l.
Proof.
  induction l as [|k l IH]; intros Hn; [done|]. rewrite filter_cons, IH by set_solver.
  case_decide; [done|]. set_solver.
Qed.

Lemma length_filter_ne (id : Z) (l : list Z) :
  NoDup l → id ∈ l → S (length (filter (λ k, k ≠ id) l)) = length l.
Proof.
  induction 1 as [|k l Hk Hl IH]; [by intros ?%elem_of_nil|]. intros Hin.
  rewrite filter_cons. destruct (decide (k ≠ id)) as [Hne|He]; simpl.
  - rewrite IH; [done|]. set_solver.
  - assert (k = id) as -> by (destruct (decide (k = id)); [done|by destruct He]).
    by rewrite filter_ne_id.
Qed.

(** The cache's contents under ids other than [id]. *)
Lemma cached_texts_ext m m' (l : list Z) :
  (∀ k, k ∈ l → m' !! k = m !! k) →
  (λ k, (k, cached_text m' k)) <$> l = (λ k, (k, cached_text m k)) <$> l.
Proof.
  induction l as [|k l IH]; intros H; [done|]. rewrite !fmap_cons. f_equal.
  - unfold cached_text. by rewrite H by set_solver.
  - apply IH. intros. apply H. set_solver.
Qed.

Lemma filter_texts id m (l : list Z) :
  filter (λ kv : Z * bytes, kv.1 ≠ id) ((λ k, (k, cached_text m k)) <$> l) =
  (λ k, (k, cached_text m k)) <$> filter (λ k, k ≠ id) l.
Proof.
  induction l as [|k l IH]; [done|]. rewrite fmap_cons, !filter_cons, IH. simpl.
  by destruct (decide (k ≠ id)).
Qed.

(** ** Remembering *)

Section remember.
Context {CE : CacheEnv}.

(** The state when the new text is about to be copied: [id] is out of the list,
    its entry is there, room is made. *)
Record making_room (c c1 : Cache) (m : gmap Z PschNormalizeCacheEntry) (id : Z) : Prop := {
  mr_entry : ∃ m1, c_htab c1 = Some m1 ∧ is_Some (m1 !! id) ∧
    (∀ k, k ≠ id → k ∈ lru c1 → m1 !! k = m !! k) ∧
    (∀ k, k ≠ id → k ∉ lru c1 → m1 !! k = None);
  mr_lru : lru c1 = take (Z.to_nat (max_entries c - 1)) (filter (λ k, k ≠ id) (lru c));
  mr_max : max_entries c1 = max_entries c }.

Lemma wp_update c m id e (Q : unit → Cache → Prop) R :
  cache_inv c m → m !! id = Some e →
  (∀ c1, making_room c c1 m id → Q tt c1) →
  wp (_ ← set_entry id (λ e, e <| normalized_query := None |>); unlink id) Q R c.
Proof.
  intros Hinv He HQ. unfold set_entry, unlink. wp_run. apply HQ. constructor; simpl.
  - rewrite (cv_htab _ _ Hinv). eexists. split; [done|]. split; [|split].
    + rewrite lookup_alter_eq, He. by eexists.
    + intros k Hk _. by rewrite lookup_alter_ne.
    + intros k Hk Hn. rewrite lookup_alter_ne by done.
      destruct (m !! k) as [e'|] eqn:Hk'; [|done]. destruct Hn.
      apply list_elem_of_filter. split; [done|]. apply (cv_keys _ _ Hinv). by rewrite Hk'.
  - rewrite take_ge; [done|].
    pose proof (length_filter_ne id (lru c) (cv_nodup _ _ Hinv)) as Hl.
    pose proof (cv_bound _ _ Hinv). rewrite (cv_keys _ _ Hinv), He in Hl.
    specialize (Hl ltac:(by eexists)). lia.
  - done.
Qed.

Lemma lru_not_in c m id : cache_inv c m → m !! id = None → id ∉ lru c.
Proof. intros Hinv Hn Hin. apply (cv_keys _ _ Hinv) in Hin as [e He]. congruence. Qed.

(** A new entry in a cache that is not full. *)
Lemma making_room_new c m id :
  cache_inv c m → m !! id = None → Z.of_nat (length (lru c)) < max_entries c →
  making_room c (c <| c_htab ::= fmap <[id := {| normalized_query := None; normalized_len := 0 |}]> |>) m id.
Proof.
  intros Hinv Hn Hlt. pose proof (lru_not_in _ _ _ Hinv Hn) as Hnin. constructor; simpl.
  - rewrite (cv_htab _ _ Hinv). eexists. split; [done|]. split; [|split].
    + rewrite lookup_insert_eq. by eexists.
    + intros k Hk _. by rewrite lookup_insert_ne by done.
    + intros k Hk Hkn. rewrite lookup_insert_ne by done.
      destruct (m !! k) as [e'|] eqn:Hk'; [|done]. destruct Hkn. apply (cv_keys _ _ Hinv). by rewrite Hk'.
  - rewrite filter_ne_id by done. rewrite take_ge; [done|lia].
  - done.
Qed.

(** A new entry in a full cache: the last of the list goes. *)
Lemma wp_evict_new c m id (Q : unit → Cache → Prop) R :
  cache_inv c m → m !! id = None → max_entries c ≤ Z.of_nat (length (lru c)) →
  (∀ c1, making_room c c1 m id → Q tt c1) →
  wp EvictLru Q R
    (c <| c_htab ::= fmap <[id := {| normalized_query := None; normalized_len := 0 |}]> |>).
Proof.
  intros Hinv Hn Hfull HQ. pose proof (lru_not_in _ _ _ Hinv Hn) as Hnin.
  pose proof (cv_bound _ _ Hinv). pose proof (cv_max _ _ Hinv). pose proof (cv_nodup _ _ Hinv) as Hnd.
  unfold EvictLru, unlink, set_entry. do 2 wp_step. simpl.
  destruct (lru c) as [|v l _] eqn:Hl using rev_ind; [simpl in *; lia|].
  rewrite last_snoc. apply NoDup_app in Hnd as (Hndl & Hvl & _).
  assert (v ∉ l) as Hv by (intros Hin; apply (Hvl _ Hin); set_solver).
  rewrite length_app in *. simpl in *. wp_run. apply HQ. constructor; simpl.
  - rewrite (cv_htab _ _ Hinv), Hl. simpl. eexists. split; [done|].
    assert (filter (λ k, k ≠ v) (l ++ [v]) = l) as Hf.
    { rewrite list.filter_app, filter_ne_id by done. rewrite filter_cons. simpl.
      case_decide; [done|]. by rewrite app_nil_r. }
    rewrite Hf. assert (id ≠ v) as Hidv by set_solver.
    split; [|split].
    + rewrite lookup_delete_ne, lookup_alter_ne, lookup_insert_eq by done. by eexists.
    + intros k Hk Hkl. rewrite lookup_delete_ne by (by intros ->).
      rewrite lookup_alter_ne by (by intros ->). by rewrite lookup_insert_ne by done.
    + intros k Hk Hkl. destruct (decide (k = v)) as [->|Hkv]; [by rewrite lookup_delete_eq|].
      rewrite lookup_delete_ne, lookup_alter_ne, lookup_insert_ne by done.
      destruct (m !! k) as [e'|] eqn:Hk'; [|done].
      assert (k ∈ lru c) as Hin by (apply (cv_keys _ _ Hinv); by rewrite Hk').
      rewrite Hl in Hin. set_solver.
  - rewrite Hl, (filter_ne_id id) by done. rewrite list.filter_app, filter_ne_id by done.
    rewrite filter_cons. simpl. case_decide; [done|]. rewrite app_nil_r.
    replace (Z.to_nat (max_entries c - 1)) with (length l) by lia. by rewrite take_app_length.
  - done.
Qed.

(** Storing the text and putting the id first completes the operation. *)
Lemma making_room_done c c1 m id txt len :
  cache_inv c m → making_room c c1 m id → id ≠ 0 → 0 ≤ len < PSCH_MAX_CACHED_QUERY_LEN →
  length txt = Z.to_nat len →
  let c' := c1 <| c_htab ::= fmap (alter (λ _, {| normalized_query := Some (txt ++ [0]);
                                                 normalized_len := len |}) id) |>
               <| lru ::= cons id |> in
  (∃ m', cache_inv c' m') ∧ cache_abs c' = spec_put (max_entries c) id txt (cache_abs c) ∧
  max_entries c' = max_entries c.
Proof.
  intros Hinv [(m1 & Hm1 & [e1 He1] & Hsame & Hgone) Hlru Hmax] Hnz Hlen Htxt c'.
  set (e := {| normalized_query := Some (txt ++ [0]); normalized_len := len |}).
  assert (c_htab c' = Some (alter (λ _, e) id m1)) as Hc' by (simpl; by rewrite Hm1).
  assert (alter (λ _, e) id m1 !! id = Some e) as Hid by (by rewrite lookup_alter_eq, He1).
  assert (id ∉ lru c1) as Hnin.
  { rewrite Hlru. intros Hin%elem_of_take. destruct Hin as (i & Hi & _).
    apply list_elem_of_lookup_2, list_elem_of_filter in Hi as [Hi _]. done. }
  assert (NoDup (lru c1)) as Hnd.
  { pose proof (NoDup_filter (λ k, k ≠ id) _ (cv_nodup _ _ Hinv)) as Hnd.
    rewrite <- (take_drop (Z.to_nat (max_entries c - 1)) (filter _ _)), <- Hlru in Hnd.
    by apply NoDup_app in Hnd as [? _]. }
  assert (∀ k, k ∈ lru c1 → k ∈ lru c) as Hsub.
  { intros k. rewrite Hlru. intros (i & Hi & _)%elem_of_take.
    by apply list_elem_of_lookup_2, list_elem_of_filter in Hi as [_ Hi]. }
  split_and!; [| |done].
  - exists (alter (λ _, e) id m1). constructor; [done|simpl; by apply NoDup_cons|..].
    + intros k. simpl. rewrite elem_of_cons. destruct (decide (k = id)) as [->|Hk].
      { rewrite Hid. split; [by eexists|by left]. }
      rewrite lookup_alter_ne by done. split.
      * intros [?|Hin]; [done|]. rewrite Hsame by done. by apply (cv_keys _ _ Hinv), Hsub.
      * intros [e' He']. right. destruct (decide (k ∈ lru c1)) as [|Hkn]; [done|].
        rewrite Hgone in He' by done. done.
    + intros k e'. destruct (decide (k = id)) as [->|Hk].
      * rewrite Hid. intros [= <-]. split; [done|]. eexists. split; [done|].
        rewrite length_app, Htxt. simpl. lia.
      * rewrite lookup_alter_ne by done. intros He'.
        destruct (decide (k ∈ lru c1)) as [Hin|Hkn]; [|rewrite Hgone in He' by done; done].
        rewrite Hsame in He' by done. by eapply cv_entries.
    + simpl. rewrite Hmax, Hlru. pose proof (cv_max _ _ Hinv).
      rewrite length_take. lia.
    + simpl. rewrite Hmax. apply Hinv.
    + simpl. intros [?|Hin]%elem_of_cons; [done|]. by apply (cv_nonzero _ _ Hinv), Hsub.
  - unfold cache_abs, spec_put. rewrite Hc', (cv_htab _ _ Hinv). simpl. f_equal.
    + unfold cached_text. rewrite Hid. simpl. by rewrite <- Htxt, take_app_length.
    + rewrite filter_texts, <- fmap_take, <- Hlru. apply cached_texts_ext.
      intros k Hk. rewrite lookup_alter_ne by (by intros ->). apply Hsame; [by intros ->|done].
Qed.

(** Fresh, or in use with [max] entries at most. *)
Definition cache_ready (max : Z) (c : Cache) : Prop :=
  (∃ m, cache_inv c m ∧ max_entries c = max) ∨
  (c_htab c = None ∧ 0 < max ∧ max = if 0 <? max_entries c then max_entries c
                                     else psch_normalize_cache_max).

Lemma wp_ensure max c (Q : unit → Cache → Prop) R :
  cache_ready max c →
  (∀ c1 m, cache_inv c1 m → max_entries c1 = max → cache_abs c1 = cache_abs c → Q tt c1) →
  wp EnsureCacheInitialized Q R c.
Proof.
  intros Hready HQ. unfold EnsureCacheInitialized. do 2 wp_step.
  destruct Hready as [(m & Hinv & Hmax)|(Hnone & Hpos & Hmax)].
  - rewrite (cv_htab _ _ Hinv). wp_step. by eapply HQ.
  - rewrite Hnone. unfold PschInitNormalizedQueryCache. wp_run. rewrite <- Hmax.
    apply (HQ _ ∅); [|done|unfold cache_abs; by rewrite Hnone].
    constructor; simpl; [done|apply NoDup_nil_2|..]; try lia.
    + intros id. rewrite lookup_empty. split; [by intros ?%elem_of_nil|by intros [? ?]].
    + intros id e. by rewrite lookup_empty.
    + by intros ?%elem_of_nil.
Qed.

(** The allocations the cache makes can fail. *)
Definition cache_oom : Prop := (∃ c, enter_ok c = false) ∨ ∃ c n, palloc_ok c n = false.

Lemma wp_remember max c id q len (Q : unit → Cache → Prop) R :
  cache_ready max c → id ≠ 0 → 0 ≤ len ≤ Z.of_nat (length q) →
  (∀ c' m', cache_inv c' m' → max_entries c' = max →
     cache_abs c' = spec_put max id (take (Z.to_nat (ClampCachedQueryLen len)) q) (cache_abs c) →
     Q tt c') →
  (∀ c', cache_oom → R c') →
  wp (PschRememberNormalizedQuery id (Some q) len) Q R c.
Proof.
  intros Hready Hid Hlen HQ HR. unfold PschRememberNormalizedQuery.
  rewrite (proj2 (Z.eqb_neq _ _)) by done. wp_step. eapply wp_ensure; [done|].
  intros c0 m Hinv Hmax Habs. do 2 wp_step. rewrite (cv_htab _ _ Hinv). simpl.
  assert (∀ c1, making_room c0 c1 m id →
    wp (copy ← CopyQueryText q (ClampCachedQueryLen len);
        _ ← set_entry id (λ _, {| normalized_query := Some copy;
                                 normalized_len := ClampCachedQueryLen len |});
        PushEntryToMru id) Q R c1) as Hrest.
  { intros c1 Hmr. unfold CopyQueryText. do 3 wp_step.
    destruct (palloc_ok c1 (ClampCachedQueryLen len + 1)) eqn:Hok; wp_step; [|apply HR; right; eauto].
    assert (0 ≤ ClampCachedQueryLen len < PSCH_MAX_CACHED_QUERY_LEN ∧ ClampCachedQueryLen len ≤ len) as [Hc1 Hc2].
    { unfold ClampCachedQueryLen, PSCH_MAX_CACHED_QUERY_LEN. destruct (Z.leb_spec 2048 len); lia. }
    destruct (making_room_done c0 c1 m id (take (Z.to_nat (ClampCachedQueryLen len)) q)
      (ClampCachedQueryLen len) Hinv Hmr Hid Hc1) as ((m' & Hinv') & Habs' & Hmax');
      [rewrite length_take; lia|].
    unfold set_entry, PushEntryToMru. wp_run. eapply HQ; [exact Hinv'|congruence|].
    by rewrite Habs', Habs, Hmax. }
  wp_step. destruct (m !! id) as [e|] eqn:He.
  - by eapply wp_update.
  - do 2 wp_step. destruct (enter_ok c0) eqn:Hok; [|wp_step; apply HR; left; eauto].
    do 6 wp_step. simpl. destruct (Z.leb_spec (max_entries c0) (Z.of_nat (length (lru c0)))).
    + by eapply wp_evict_new.
    + wp_step. apply Hrest. by apply making_room_new.
Qed.

(** ** Looking up *)

Lemma list_find_texts id m (l : list Z) :
  list_find (λ kv : Z * bytes, kv.1 = id) ((λ k, (k, cached_text m k)) <$> l) =
  match list_find (λ k, k = id) l with
  | Some (i, k) => Some (i, (k, cached_text m k))
  | None => None
  end.
Proof.
  induction l as [|k l IH]; [done|]. rewrite fmap_cons. simpl.
  destruct (decide (k = id)); [done|]. rewrite IH. by destruct (list_find _ l) as [[i x]|].
Qed.

Lemma spec_get_abs c m id :
  cache_inv c m →
  spec_get id (cache_abs c) =
  match m !! id with
  | Some _ => Some (cached_text m id, (id, cached_text m id) ::
                    ((λ k, (k, cached_text m k)) <$> filter (λ k, k ≠ id) (lru c)))
  | None => None
  end.
Proof.
  intros Hinv. unfold spec_get, cache_abs. rewrite (cv_htab _ _ Hinv), list_find_texts, filter_texts.
  destruct (list_find (λ k, k = id) (lru c)) as [[i k]|] eqn:Hf.
  - apply list_find_Some in Hf as (Hi & -> & _). simpl.
    assert (is_Some (m !! id)) as [e ->]; [|done].
    apply (cv_keys _ _ Hinv). by eapply list_elem_of_lookup_2.
  - apply list_find_None in Hf. destruct (m !! id) as [e|] eqn:He; [|done].
    assert (id ∈ lru c) as Hin by (apply (cv_keys _ _ Hinv); by rewrite He).
    rewrite Forall_forall in Hf. by destruct (Hf _ Hin).
Qed.

End remember.

(** A cached text fits an event. *)
Lemma spec_get_short c m id txt l :
  cache_inv c m → spec_get id (cache_abs c) = Some (txt, l) →
  Z.of_nat (length txt) < PSCH_MAX_CACHED_QUERY_LEN.
Proof.
  intros Hinv. rewrite (spec_get_abs _ _ _ Hinv). destruct (m !! id) as [e|] eqn:He; [|done].
  intros [= <- _]. destruct (cv_entries _ _ Hinv _ _ He) as (Hlen & _).
  unfold cached_text. rewrite He, length_take. lia.
Qed.

(** What a lookup leaves in the caller's buffer, for a hit with text [txt]. *)
Definition looked_up (dst : bytes) (dst_size n0 : Z) (c c' : Cache) (id : Z) (r : bool * bytes * Z) : Prop :=
  match spec_get id (cache_abs c) with
  | Some (txt, l) =>
    r.1.1 = true ∧ r.2 = Z.min (Z.of_nat (length txt)) (dst_size - 1) ∧
    take (Z.to_nat r.2) r.1.2 = take (Z.to_nat r.2) txt ∧
    r.1.2 !! Z.to_nat r.2 = Some 0 ∧ length r.1.2 = length dst ∧ cache_abs c' = l
  | None => r = (false, dst, n0) ∧ c' = c
  end.

Lemma wp_lookup c m id dst dst_size n0 :
  cache_inv c m → 0 < dst_size ≤ 2 ^ 16 → Z.of_nat (length dst) = dst_size →
  wp (PschLookupNormalizedQuery id dst dst_size n0)
    (λ r c', cache_inv c' m ∧ max_entries c' = max_entries c ∧ looked_up dst dst_size n0 c c' id r)
    (λ _, False) c.
Proof.
  intros Hinv Hsize Hdst. unfold looked_up. rewrite (spec_get_abs c m id Hinv). unfold PschLookupNormalizedQuery. do 2 wp_step.
  rewrite (cv_htab _ _ Hinv), (proj2 (Z.eqb_neq dst_size 0)) by lia. simpl.
  destruct (Z.eqb_spec id 0) as [->|Hid].
  { wp_step. split_and!; [done..|]. destruct (m !! 0) as [e|] eqn:He; [|done].
    destruct (cv_nonzero _ _ Hinv). apply (cv_keys _ _ Hinv). by rewrite He. }
  destruct (m !! id) as [e|] eqn:He; [|wp_step; eauto].
  destruct (cv_entries _ _ Hinv _ _ He) as (Hlen & b & Hb & Hbl).
  assert (cached_text m id = take (Z.to_nat (normalized_len e)) b) as Htxt
    by (unfold cached_text; by rewrite He, Hb).
  assert (length (cached_text m id) = Z.to_nat (normalized_len e)) as Htl
    by (rewrite Htxt, length_take; lia).
  assert (id ∈ lru c) as Hin by (apply (cv_keys _ _ Hinv); by rewrite He).
  unfold PromoteEntryToMru, unlink, PushEntryToMru. wp_run. split; [|split; [done|]].
  - pose proof Hinv as []. constructor; simpl; try done.
    + apply NoDup_cons. split; [|by apply NoDup_filter].
      intros [Hne _]%list_elem_of_filter. done.
    + intros k. rewrite <- cv_keys0, elem_of_cons, list_elem_of_filter.
      destruct (decide (k = id)) as [->|]; [tauto|]. naive_solver.
    + pose proof (length_filter_ne id (lru c) cv_nodup0 Hin). lia.
    + intros [?|[_ ?]%list_elem_of_filter]%elem_of_cons; done.
  - unfold CopyEntryText. simpl. rewrite Htl, Z2Nat.id, Hb by lia. simpl.
    set (n := Z.min (normalized_len e) (dst_size - 1)).
    assert (u16 n = n) as -> by (apply u16_small; unfold is_u16, n, PSCH_MAX_CACHED_QUERY_LEN in *; lia).
    assert (length (take (Z.to_nat n) b) = Z.to_nat n) as Htn by (rewrite length_take; lia).
    assert (length (blit 0 (take (Z.to_nat n) b) dst) = length dst) as Hbl0 by (apply length_blit; lia).
    split_and!; try done.
    + unfold blit at 1. rewrite take_app_le by (rewrite length_take; lia).
      rewrite take_take, Nat.min_id. rewrite <- Htn at 1. rewrite take_blit0, Htxt, take_take.
      f_equal. lia.
    + unfold blit at 1. rewrite lookup_app_r by (rewrite length_take; lia).
      rewrite length_take, Hbl0. replace (Z.to_nat n - (Z.to_nat n `min` length dst))%nat with 0%nat by lia. done.
    + rewrite length_blit; [done|]. simpl. lia.
    + unfold cache_abs. simpl. by rewrite (cv_htab _ _ Hinv).
Qed.

(** A cache not set up yet misses. *)
Lemma wp_lookup_ready {CE : CacheEnv} max c id dst dst_size n0 :
  cache_ready max c → 0 < dst_size ≤ 2 ^ 16 → Z.of_nat (length dst) = dst_size →
  wp (PschLookupNormalizedQuery id dst dst_size n0)
    (λ r c', cache_ready max c' ∧ looked_up dst dst_size n0 c c' id r) (λ _, False) c.
Proof.
  intros [(m & Hinv & Hmax)|(Hnone & Hmax)] Hsize Hdst.
  - eapply wp_mono; [| |by eapply wp_lookup]; [|done]. intros r c' (Hinv' & Hm & Hr).
    split; [|done]. left. exists m. split; [done|congruence].
  - unfold PschLookupNormalizedQuery, looked_up, cache_abs. do 2 wp_step. rewrite Hnone. wp_step.
    split; [by right|done].
Qed.

(** ** Properties *)

(** C23: Remembering a text refines the abstract cache: the id becomes the most
    recently used with the text (cut to what an event can carry), a former text of
    the id is replaced, and when a new id would exceed the bound exactly the least
    recently used entry goes. The bound and the consistency of table, list and
    texts are kept. The only other exit is an allocation failure. *)
Theorem cache_remember_refines {CE : CacheEnv} max c id q len
  (Hready : cache_ready max c) (Hid : id ≠ 0) (Hlen : 0 ≤ len ≤ Z.of_nat (length q)) :
  wp (PschRememberNormalizedQuery id (Some q) len)
    (λ _ c', (∃ m', cache_inv c' m') ∧ max_entries c' = max ∧
       cache_abs c' = spec_put max id (take (Z.to_nat (ClampCachedQueryLen len)) q) (cache_abs c))
    (λ _, cache_oom) c.
Proof. eapply wp_remember; try done. intros. split_and!; eauto. Qed.

(** Looking an id up refines the abstract cache: on a hit the text is copied,
    cut to the buffer and NUL-terminated inside it, its length is returned, and the
    id becomes the most recently used; on a miss the buffer, the length and the
    cache are unchanged. It never fails. *)
Theorem cache_lookup_refines c m id dst dst_size n0
  (Hinv : cache_inv c m) (Hsize : 0 < dst_size ≤ 2 ^ 16)
  (Hdst : Z.of_nat (length dst) = dst_size) :
  wp (PschLookupNormalizedQuery id dst dst_size n0)
    (λ r c', cache_inv c' m ∧ looked_up dst dst_size n0 c c' id r) (λ _, False) c.
Proof. eapply wp_mono; [| |by apply wp_lookup]; [|done]. by intros r c' (? & _ & ?). Qed.

(** ** Witnesses *)

Definition roomy : CacheEnv :=
  {| psch_normalize_cache_max := 2; enter_ok := λ _, true; palloc_ok := λ _ _, true |}.

Definition sql1 : bytes := bytes_of_string "SELECT $1".

(** A fresh cache of two entries after remembering queries 5, 6 and 7. *)
Definition warm_cache : Cache :=
  ((_ ← PschRememberNormalizedQuery (CE := roomy) 5 (Some sql1) 9;
    _ ← PschRememberNormalizedQuery (CE := roomy) 6 (Some sql1) 6;
    PschRememberNormalizedQuery (CE := roomy) 7 (Some sql1) 9) empty_cache).2.

Lemma fresh_ready : cache_ready (CE := roomy) 2 empty_cache.
Proof. right. by split_and!. Qed.

Lemma warm_inv : ∃ m, cache_inv warm_cache m ∧ max_entries warm_cache = 2.
Proof.
  assert (∀ c id len, cache_ready (CE := roomy) 2 c → id ≠ 0 → 0 ≤ len ≤ Z.of_nat (length sql1) →
    ∃ r, PschRememberNormalizedQuery (CE := roomy) id (Some sql1) len c = (Some tt, r) ∧
         cache_ready (CE := roomy) 2 r) as Hstep.
  { intros c id len Hr Hid Hlen.
    destruct (wp_run_spec (PschRememberNormalizedQuery (CE := roomy) id (Some sql1) len)
      (λ _ c', cache_ready (CE := roomy) 2 c') (λ _, cache_oom (CE := roomy)) c) as (r & c' & Heq & H).
    - eapply wp_remember; try done. intros c' m' Hi Hm _. left. by exists m'.
    - destruct r as [[]|]; [by exists c'|]. by destruct H as [(? & ?)|(? & ? & ?)]. }
  destruct (Hstep empty_cache 5 9 fresh_ready) as (c1 & H1 & R1); [done|by vm_compute|].
  destruct (Hstep c1 6 6 R1) as (c2 & H2 & R2); [done|by vm_compute|].
  destruct (Hstep c2 7 9 R2) as (c3 & H3 & R3); [done|by vm_compute|].
  assert (warm_cache = c3) as Hw by (unfold warm_cache, mbind, M_bind; by rewrite H1, H2, H3).
  destruct R3 as [(m & Hm)|(Hn & _)]; rewrite <- Hw in *; [by exists m|].
  exfalso. revert Hn. by vm_compute.
Qed.

Lemma cache_remember_refines_witness :
  ∃ r c', PschRememberNormalizedQuery (CE := roomy) 5 (Some sql1) 9 empty_cache = (r, c') ∧
    (r = Some tt → cache_abs c' = [(5, sql1)]).
Proof.
  destruct (wp_run_spec _ _ _ _ (cache_remember_refines (CE := roomy) 2 empty_cache 5 sql1 9 fresh_ready
    ltac:(discriminate) ltac:(vm_compute; split; discriminate))) as (r & c' & Heq & H).
  exists r, c'. split; [exact Heq|]. intros ->. destruct H as (_ & _ & ->). reflexivity.
Defined.

Lemma cache_lookup_refines_witness :
  map fst (cache_abs warm_cache) = [7; 6] ∧
  ∃ r c', PschLookupNormalizedQuery 6 (repeat 0 16) 16 0 warm_cache = (r, c') ∧
    map fst (cache_abs c') = [6; 7].
Proof.
  split; [reflexivity|]. destruct warm_inv as (m & Hinv & _).
  destruct (wp_run_spec _ _ _ _ (cache_lookup_refines warm_cache m 6 (repeat 0 16) 16 0 Hinv
    ltac:(lia) eq_refl)) as (r & c' & Heq & H).
  exists r, c'. split; [exact Heq|]. destruct r; [|destruct H].
  destruct H as [_ H]. unfold looked_up in H.
  change (spec_get 6 (cache_abs warm_cache)) with
    (Some (take 6 sql1, [(6, take 6 sql1); (7, sql1)])) in H.
  destruct H as (_ & _ & _ & _ & _ & ->). reflexivity.
Defined.

(** An environment in which texts can no longer be allocated. *)
Definition exhausted : CacheEnv :=
  {| psch_normalize_cache_max := 2; enter_ok := λ _, true; palloc_ok := λ _ _, false |}.

(** When the copy of a text cannot be allocated the error leaves the table
    with an entry whose text was never assigned and which is not in the list, so
    the cache's invariant is lost, and the next lookup of that id takes the entry
    for a hit. *)
Theorem remember_oom_breaks_cache :
  ∃ c', PschRememberNormalizedQuery (CE := exhausted) 9 (Some sql1) 9 warm_cache = (None, c') ∧
    (∀ m, ¬ cache_inv c' m) ∧
    (PschLookupNormalizedQuery 9 (repeat 0 16) 16 0 c').1 = Some (true, repeat 0 16, 0).
Proof.
  eexists. split; [vm_compute; reflexivity|]. split; [|by vm_compute].
  intros m Hinv. pose proof (cv_htab _ _ Hinv) as Hm. simpl in Hm. injection Hm as <-.
  assert (9 ∈ [7]) as Hin; [|by apply elem_of_cons in Hin as [?|?%elem_of_nil]].
  apply (cv_keys _ _ Hinv 9). by eexists.
Qed.

End NormalizeCache.
