(* ===== verification/Normalize.v ===== *)
(** Query normalization ([src/src/hooks/query_normalize.c]): finding the extent of
    each constant with the lexer and replacing it by a parameter symbol.

    PostgreSQL's lexer is a parameter: the list of tokens it finds in the text,
    with their offsets. The [squashed] and [extern_param] flags of a location exist
    from PostgreSQL 18 on; before that both are [false], as the code's version
    branches say. *)

From stdpp Require Import pretty sorting.
From S2P Require Import Prelude.

Module Normalize.

Record LocationLen := {
  location : Z; loc_length : Z; squashed : bool; extern_param : bool }.

#[export] Instance LocationLen_eta : Eta LocationLen := λ l,
  Build_LocationLen (location l) (loc_length l) (squashed l) (extern_param l).

Record JumbleState := {
  clocations : list LocationLen;
  highest_extern_param_id : Z;
  has_squashed_lists : bool }.

(** A token: the offset it starts at and the offset after its last byte. *)
Record Token := { tok_start : Z; tok_end : Z }.

Definition CompLocation (a b : LocationLen) : Z :=
  if location a <? location b then -1 else if location b <? location a then 1 else 0.

Definition loc_le (a b : LocationLen) : Prop := CompLocation a b ≤ 0.
#[export] Instance loc_le_dec : RelDecision loc_le.
Proof. intros a b. unfold loc_le. apply _. Defined.

Definition IsSquashedConstant (l : LocationLen) : bool := squashed l.
Definition ShouldPreserveExternalParam (j : JumbleState) (l : LocationLen) : bool :=
  extern_param l && negb (has_squashed_lists j).

(** [query[loc] == '-'] *)
Definition is_minus (query : bytes) (loc : Z) : bool := query !!! Z.to_nat loc =? 45.

(** The inner loop of [FillInConstantLengths]: scans on to the token at [loc], and
    to the one after it when that is a minus sign. The lexer ends the current token
    in its buffer with a NUL, so [strlen] from [loc] is the distance to the token's
    end. [None] is the end of the text. *)
Fixpoint lex_until (query : bytes) (loc : Z) (toks : list Token) : option (Z * list Token) :=
  match toks with
  | [] => None
  | t :: rest =>
    if loc <=? tok_start t then
      if is_minus query loc then
        match rest with
        | [] => None
        | t2 :: rest2 => Some (tok_end t2 - loc, rest2)
        end
      else Some (tok_end t - loc, rest)
    else lex_until query loc rest
  end.

(** The loop over the sorted locations; [prev] is the previous one's location. *)
Fixpoint fill_lengths (query : bytes) (query_loc : Z) (prev : option Z) (toks : list Token)
    (locs : list LocationLen) : list LocationLen :=
  match locs with
  | [] => []
  | l :: rest =>
    if bool_decide (prev = Some (location l)) then
      (l <| loc_length := -1 |>) :: fill_lengths query query_loc (Some (location l)) toks rest
    else if IsSquashedConstant l then
      l :: fill_lengths query query_loc (Some (location l)) toks rest
    else
      match lex_until query (location l - query_loc) toks with
      | Some (n, toks') =>
        (l <| loc_length := n |>) :: fill_lengths query query_loc (Some (location l)) toks' rest
      | None => l :: rest
      end
  end.

Section Normalize.
Context (lexer : bytes → list Token).

Definition FillInConstantLengths (locs : list LocationLen) (query : bytes) (query_loc : Z)
    : list LocationLen :=
  let locs := if (1 <? Z.of_nat (length locs)) then merge_sort loc_le locs else locs in
  fill_lengths query query_loc None (lexer query) locs.

(** [appendBinaryStringInfo(out, query + from, len)]; [None] when the copy would
    not stay inside the text. *)
Definition chunk (query : bytes) (from len : Z) : option bytes :=
  if (0 <=? from) && (0 <=? len) && (from + len <=? Z.of_nat (length query))
  then Some (take (Z.to_nat len) (drop (Z.to_nat from) query)) else None.

(** ["$%d%s"] *)
Definition placeholder (n : Z) (sq : bool) : bytes :=
  bytes_of_string ("$" ++ pretty n ++ if sq then " /*, ... */" else "")%string.

(** The loop that writes the text, in the code's own variables. *)
Fixpoint replace_constants (query : bytes) (query_loc : Z) (j : JumbleState)
    (quer_loc last_off last_tok_len replaced : Z) (locs : list LocationLen)
    : option (bytes * Z) :=
  match locs with
  | [] => Some ([], quer_loc)
  | l :: rest =>
    if ShouldPreserveExternalParam j l then
      replace_constants query query_loc j quer_loc last_off last_tok_len replaced rest
    else
      let off := location l - query_loc in
      let tok_len := loc_length l in
      if tok_len <? 0 then
        replace_constants query query_loc j quer_loc last_off last_tok_len replaced rest
      else
        head ← chunk query quer_loc (off - last_off - last_tok_len);
        '(tail, quer_loc) ←
          replace_constants query query_loc j (off + tok_len) off tok_len (replaced + 1) rest;
        Some (head ++ placeholder (replaced + 1 + highest_extern_param_id j) (IsSquashedConstant l)
                   ++ tail, quer_loc)
  end.

(** [Some None] is the [NULL] return; [Some (Some (text, len))] the new text and
    [*query_len_p]; [None] a copy outside the text. *)
Definition PschNormalizeQuery (query : bytes) (query_loc query_len : Z) (j : option JumbleState)
    : option (option (bytes * Z)) :=
  match j with
  | None => Some None
  | Some j =>
    if Z.of_nat (length (clocations j)) <=? 0 then Some None
    else
      let locs := FillInConstantLengths (clocations j) query query_loc in
      '(text, quer_loc) ← replace_constants query query_loc j 0 0 0 0 locs;
      rest ← chunk query quer_loc (query_len - quer_loc);
      Some (Some (text ++ rest, Z.of_nat (length (text ++ rest))))
  end.

End Normalize.

#[local] Opaque placeholder.

(** ** Reference

    The replaced intervals, and the text with them replaced. *)

Definition spans (query_loc : Z) (j : JumbleState) (locs : list LocationLen) : list (Z * Z * bool) :=
  (λ l, (location l - query_loc, loc_length l, squashed l)) <$>
  filter (λ l, ShouldPreserveExternalParam j l = false ∧ 0 ≤ loc_length l) locs.

(** Bytes [a] to [b] of the text. *)
Definition slice (query : bytes) (a b : Z) : bytes :=
  take (Z.to_nat (b - a)) (drop (Z.to_nat a) query).

Fixpoint render (query : bytes) (pos n query_len : Z) (sp : list (Z * Z * bool)) : bytes :=
  match sp with
  | [] => slice query pos query_len
  | (off, len, sq) :: rest =>
    slice query pos off ++ placeholder n sq ++ render query (off + len) (n + 1) query_len rest
  end.

(** The intervals are in order, do not overlap and lie between [lo] and [hi]. *)
Fixpoint spans_ok (lo hi : Z) (sp : list (Z * Z * bool)) : Prop :=
  match sp with
  | [] => lo ≤ hi
  | (off, len, _) :: rest => lo ≤ off ∧ 0 ≤ len ∧ spans_ok (off + len) hi rest
  end.

Fixpoint outside (sp : list (Z * Z * bool)) (i : Z) : Prop :=
  match sp with
  | [] => True
  | (off, len, _) :: rest => (i < off ∨ off + len ≤ i) ∧ outside rest i
  end.

(** The tokens of a text: in order, not overlapping, inside the text. *)
Fixpoint toks_ok (lo hi : Z) (toks : list Token) : Prop :=
  match toks with
  | [] => lo ≤ hi
  | t :: rest => lo ≤ tok_start t ∧ tok_start t < tok_end t ∧ toks_ok (tok_end t) hi rest
  end.

(** A recorded location is a place where the parser saw a constant of the
    statement: the start of a token, and when that is a minus sign a number follows
    which is not a recorded location itself. *)
Definition located (query : bytes) (query_loc query_len : Z) (all : list LocationLen)
    (toks : list Token) (l : LocationLen) : Prop :=
  ∃ pre t rest, toks = pre ++ t :: rest ∧ tok_start t = location l - query_loc ∧
    tok_end t ≤ query_len ∧
    (is_minus query (location l - query_loc) = true →
     ∃ t2 rest2, rest = t2 :: rest2 ∧ tok_end t2 ≤ query_len ∧
       ∀ l', l' ∈ all → location l' - query_loc ≠ tok_start t2).

(** ** The writing loop computes the reference *)

Lemma chunk_slice query from b :
  0 ≤ from ≤ b → b ≤ Z.of_nat (length query) → chunk query from (b - from) = Some (slice query from b).
Proof.
  intros Hf Hb. unfold chunk.
  rewrite (proj2 (Z.leb_le 0 from)), (proj2 (Z.leb_le 0 (b - from))), (proj2 (Z.leb_le _ _)) by lia.
  done.
Qed.

Lemma spans_ok_le lo hi sp : spans_ok lo hi sp → lo ≤ hi.
Proof.
  revert lo. induction sp as [|[[off len] sq] sp IH]; intros lo; simpl; [done|].
  intros (? & ? & ?%IH). lia.
Qed.

Lemma spans_cons query_loc j l locs :
  spans query_loc j (l :: locs) =
  if decide (ShouldPreserveExternalParam j l = false ∧ 0 ≤ loc_length l)
  then (location l - query_loc, loc_length l, squashed l) :: spans query_loc j locs
  else spans query_loc j locs.
Proof. unfold spans. rewrite filter_cons. by case_decide. Qed.

Lemma replace_render query query_loc query_len j locs pos off0 len0 n :
  pos = off0 + len0 → 0 ≤ pos → spans_ok pos query_len (spans query_loc j locs) →
  query_len ≤ Z.of_nat (length query) →
  ∃ text pos', replace_constants query query_loc j pos off0 len0 n locs = Some (text, pos') ∧
    0 ≤ pos' ≤ query_len ∧
    text ++ slice query pos' query_len =
      render query pos (n + 1 + highest_extern_param_id j) query_len (spans query_loc j locs).
Proof.
  revert pos off0 len0 n. induction locs as [|l locs IH]; intros pos off0 len0 n Hpos H0 Hok Hlen.
  { exists [], pos. simpl in *. split_and!; done || lia. }
  rewrite spans_cons in *. cbn [replace_constants].
  destruct (ShouldPreserveExternalParam j l) eqn:Hp.
  { destruct (decide _) as [[? _]|_] in *; [done|]. by apply IH. }
  destruct (Z.ltb_spec (loc_length l) 0) as [Hneg|Hnn].
  { destruct (decide _) as [[_ ?]|_] in *; [lia|]. by apply IH. }
  destruct (decide _) as [_|Hd] in *; [|by destruct Hd]. simpl in Hok.
  destruct Hok as (Hlo & Hl & Hrest). pose proof (spans_ok_le _ _ _ Hrest).
  destruct (IH (location l - query_loc + loc_length l) (location l - query_loc) (loc_length l) (n + 1))
    as (text & pos' & Hr & Hb & Ht); try done; [lia|].
  replace (location l - query_loc - off0 - len0) with (location l - query_loc - pos) by lia.
  rewrite chunk_slice by lia. simpl. rewrite Hr. simpl. eexists _, pos'. split; [done|].
  split; [done|]. rewrite <- !app_assoc, Ht.
  by replace (n + 1 + 1 + highest_extern_param_id j) with (n + 1 + highest_extern_param_id j + 1) by lia.
Qed.

(** ** The lengths found *)

Lemma toks_ok_le lo hi toks : toks_ok lo hi toks → lo ≤ hi.
Proof. revert lo. induction toks as [|t toks IH]; intros lo; simpl; [done|]. intros (? & ? & ?%IH). lia. Qed.

Lemma toks_ok_app lo hi pre t rest :
  toks_ok lo hi (pre ++ t :: rest) →
  lo ≤ tok_start t ∧ tok_start t < tok_end t ∧ toks_ok (tok_end t) hi rest.
Proof.
  revert lo. induction pre as [|t' pre IH]; intros lo; simpl; [tauto|].
  intros (? & ? & (? & ? & ?)%IH). split; [lia|done].
Qed.

(** Scanning stops exactly at the token that starts at the location. *)
Lemma lex_until_found query loc lo hi pre t rest :
  toks_ok lo hi (pre ++ t :: rest) → tok_start t = loc →
  lex_until query loc (pre ++ t :: rest) =
    if is_minus query loc then
      match rest with [] => None | t2 :: rest2 => Some (tok_end t2 - loc, rest2) end
    else Some (tok_end t - loc, rest).
Proof.
  intros Hok Ht. revert lo Hok. induction pre as [|t' pre IH]; intros lo; cbn [app lex_until].
  - intros _. by rewrite (proj2 (Z.leb_le _ _)) by lia.
  - intros (_ & ? & Hok). pose proof (toks_ok_app _ _ _ _ _ Hok) as (? & _).
    rewrite (proj2 (Z.leb_gt _ _)) by lia. by eapply IH.
Qed.

(** A location further on is still located in what is left of the tokens. *)
Lemma located_rest query query_loc query_len all lo hi pre t rest l :
  toks_ok lo hi (pre ++ t :: rest) → tok_start t < location l - query_loc →
  located query query_loc query_len all (pre ++ t :: rest) l →
  located query query_loc query_len all rest l.
Proof.
  intros Hok Hlt (pre' & t' & rest' & Heq & Hs & He & Hm).
  assert (∃ mid, rest = mid ++ t' :: rest') as [mid ->]; [|by exists mid, t', rest'].
  revert lo pre' Hok Heq. induction pre as [|p pre IH]; intros lo pre' Hok Heq; destruct pre' as [|p' pre'];
    simpl in *; injection Heq as <- Heq.
  - lia.
  - by exists pre'.
  - destruct Hok as (? & ? & Hok). pose proof (toks_ok_app _ _ _ _ _ Hok) as (? & _). lia.
  - destruct Hok as (_ & _ & Hok). by eapply IH.
Qed.

(** The locations that count: neither repeated nor flagged. *)
Definition plain (l : LocationLen) : Prop := squashed l = false ∧ extern_param l = false.

Lemma plain_preserve j l : plain l → ShouldPreserveExternalParam j l = false.
Proof. intros [_ He]. unfold ShouldPreserveExternalParam. by rewrite He. Qed.

Lemma loc_le_spec a b : loc_le a b ↔ location a ≤ location b.
Proof.
  unfold loc_le, CompLocation. destruct (Z.ltb_spec (location a) (location b)); [lia|].
  destruct (Z.ltb_spec (location b) (location a)); lia.
Qed.

#[export] Instance loc_le_transitive : Transitive loc_le.
Proof. intros a b c. rewrite !loc_le_spec. lia. Qed.

#[export] Instance loc_le_total : Total loc_le.
Proof. intros a b. rewrite !loc_le_spec. lia. Qed.

Lemma fill_spans query query_loc query_len j all locs prev toks lo hi :
  (∀ l, l ∈ locs → l ∈ all) → Forall plain locs → Sorted loc_le locs →
  (∀ l, l ∈ locs → prev = Some (location l) ∨ located query query_loc query_len all toks l) →
  (∀ p l, prev = Some p → l ∈ locs → p ≤ location l) →
  toks_ok lo hi toks → lo ≤ query_len →
  spans_ok lo query_len (spans query_loc j (fill_lengths query query_loc prev toks locs)).
Proof.
  revert prev toks lo. induction locs as [|l locs IH]; intros prev toks lo Hall Hpl Hsort Hloc Hprev Htoks Hlo.
  { done. }
  apply Forall_cons in Hpl as [Hpl1 Hpls].
  assert (Sorted loc_le locs) as Hsort' by by inversion Hsort.
  assert (∀ l', l' ∈ locs → location l ≤ location l') as Hmin.
  { apply Sorted_StronglySorted, StronglySorted_inv in Hsort as [_ Hf]; [|apply _].
    intros l' Hl'. rewrite Forall_forall in Hf. by apply loc_le_spec, Hf. }
  assert (∀ p l', Some (location l) = Some p → l' ∈ locs → p ≤ location l') as Hprev'
    by (intros p l' [= <-]; apply Hmin).
  assert (∀ l', l' ∈ locs → l' ∈ all) as Hall' by (intros; apply Hall, elem_of_cons; by right).
  cbn [fill_lengths]. case_bool_decide as Hdup.
  { rewrite spans_cons. simpl. rewrite decide_False by (intros [_ ?]; lia).
    apply IH; try done. intros l' Hl'. rewrite <- Hdup. apply Hloc, elem_of_cons. by right. }
  unfold IsSquashedConstant. rewrite (proj1 Hpl1).
  destruct (Hloc l) as [?|(pre & t & rest & -> & Hts & Hte & Hm)]; [apply elem_of_cons; by left|done|].
  rewrite (lex_until_found query _ lo hi pre t rest) by done.
  pose proof (toks_ok_app _ _ _ _ _ Htoks) as (Hge & Hpos & Hrest).
  assert (∀ l', l' ∈ locs → Some (location l) = Some (location l') ∨
            located query query_loc query_len all rest l') as Hloc'.
  { intros l' Hl'. destruct (decide (location l = location l')) as [->|Hne]; [by left|right].
    specialize (Hmin _ Hl'). destruct (Hloc l') as [Hp|Hl]; [apply elem_of_cons; by right| |].
    - assert (location l' ≤ location l); [|lia].
      eapply Hprev; [done|apply elem_of_cons; by left].
    - eapply located_rest; [exact Htoks|lia|done]. }
  assert (∀ n, 0 ≤ n → spans query_loc j ((l <| loc_length := n |>) ::
    fill_lengths query query_loc (Some (location l)) rest locs) =
    (location l - query_loc, n, squashed l) ::
    spans query_loc j (fill_lengths query query_loc (Some (location l)) rest locs)) as Hsp.
  { intros n Hn. rewrite spans_cons. rewrite decide_True; [done|]. split; [by apply plain_preserve|done]. }
  destruct (is_minus query (location l - query_loc)) eqn:Hminus.
  - destruct (Hm eq_refl) as (t2 & rest2 & -> & Ht2 & Hnot). simpl in Hrest.
    destruct Hrest as (Hs2 & Hp2 & Hr2).
    rewrite spans_cons, decide_True; [|split; [by apply plain_preserve|simpl; lia]].
    simpl. split; [lia|]. split; [lia|].
    replace (location l - query_loc + (tok_end t2 - (location l - query_loc))) with (tok_end t2) by lia.
    apply IH; try done. intros l' Hl'. destruct (Hloc' l' Hl') as [?|Hl]; [by left|right].
    destruct Hl as ([|p pre'] & t' & rest' & Heq & Hs' & He' & Hm').
    + simpl in Heq. injection Heq as <- <-. by destruct (Hnot l' (Hall' _ Hl')).
    + simpl in Heq. injection Heq as <- ->. by exists pre', t', rest'.
  - rewrite Hsp by lia. simpl. split; [lia|]. split; [lia|].
    replace (location l - query_loc + (tok_end t - (location l - query_loc))) with (tok_end t) by lia.
    by apply IH.
Qed.

(** ** Bytes outside the intervals *)

Lemma slice_ext q1 q2 a b :
  0 ≤ a → (∀ i, a ≤ i < b → q1 !! Z.to_nat i = q2 !! Z.to_nat i) → slice q1 a b = slice q2 a b.
Proof.
  intros Ha H. unfold slice. apply list_eq. intros i.
  destruct (decide (i < Z.to_nat (b - a))%nat) as [Hi|Hi].
  - rewrite !lookup_take_lt, !lookup_drop by done.
    specialize (H (a + Z.of_nat i) ltac:(lia)). by rewrite !Z2Nat.inj_add, !Nat2Z.id in H by lia.
  - by rewrite !lookup_take_ge by lia.
Qed.

Lemma spans_outside_lt lo hi sp i : spans_ok lo hi sp → i < lo → outside sp i.
Proof.
  revert lo. induction sp as [|[[off len] sq] sp IH]; intros lo; simpl; [done|].
  intros (? & ? & Hr) Hi. split; [lia|]. eapply IH; [done|lia].
Qed.

Lemma render_ext q1 q2 pos n hi sp :
  0 ≤ pos → spans_ok pos hi sp →
  (∀ i, pos ≤ i < hi → outside sp i → q1 !! Z.to_nat i = q2 !! Z.to_nat i) →
  render q1 pos n hi sp = render q2 pos n hi sp.
Proof.
  revert pos n. induction sp as [|[[off len] sq] sp IH]; intros pos n Hp Hok H; simpl.
  - apply slice_ext; [done|]. intros i Hi. by apply H.
  - destruct Hok as (Hlo & Hl & Hrest). pose proof (spans_ok_le _ _ _ Hrest). f_equal; [|f_equal].
    + apply slice_ext; [done|]. intros i Hi. apply H; [lia|]. split; [lia|].
      eapply spans_outside_lt; [done|lia].
    + apply IH; [lia|done|]. intros i Hi Ho. apply H; [lia|]. simpl. split; [lia|done].
Qed.

(** ** Properties *)

(** What the parser and the lexer provide for one statement, with the version
    flags unset: tokens in order inside the text, and constants recorded at
    tokens of the statement. *)
Record normalizable (lexer : bytes → list Token) (query : bytes) (query_loc query_len : Z)
    (j : JumbleState) : Prop := {
  nz_some : clocations j ≠ [];
  nz_plain : Forall plain (clocations j);
  nz_len : 0 ≤ query_len ≤ Z.of_nat (length query);
  nz_toks : toks_ok 0 (Z.of_nat (length query)) (lexer query);
  nz_located l : l ∈ clocations j →
    located query query_loc query_len (clocations j) (lexer query) l }.

(** The intervals the call replaces. *)
Definition replaced_spans (lexer : bytes → list Token) (query : bytes) (query_loc : Z) (j : JumbleState)
    : list (Z * Z * bool) :=
  spans query_loc j (FillInConstantLengths lexer (clocations j) query query_loc).

Lemma normalize_spans lexer query query_loc query_len j :
  normalizable lexer query query_loc query_len j →
  spans_ok 0 query_len (replaced_spans lexer query query_loc j).
Proof.
  intros [Hs Hp Hl Ht Hloc]. unfold replaced_spans, FillInConstantLengths.
  set (locs := if 1 <? _ then _ else _).
  assert (locs ≡ₚ clocations j ∧ Sorted loc_le locs) as [Hperm Hsort].
  { unfold locs. destruct (Z.ltb_spec 1 (Z.of_nat (length (clocations j)))).
    - split; [apply merge_sort_Permutation|apply (Sorted_merge_sort loc_le)].
    - split; [done|]. destruct (clocations j) as [|a [|b l]]; [done|repeat constructor|simpl in *; lia]. }
  eapply (fill_spans _ _ _ _ (clocations j)); try done; try lia.
  - intros l. by rewrite Hperm.
  - by rewrite Hperm.
  - intros l Hin. right. apply Hloc. by rewrite <- Hperm.
Qed.

Lemma normalize_render lexer query query_loc query_len j :
  normalizable lexer query query_loc query_len j →
  let text := render query 0 (1 + highest_extern_param_id j) query_len
                (replaced_spans lexer query query_loc j) in
  PschNormalizeQuery lexer query query_loc query_len (Some j) = Some (Some (text, Z.of_nat (length text))).
Proof.
  intros Hnz. pose proof (normalize_spans _ _ _ _ _ Hnz) as Hok. destruct Hnz as [Hs Hp Hl Ht Hloc].
  unfold PschNormalizeQuery.
  rewrite (proj2 (Z.leb_gt _ _)) by (destruct (clocations j); [done|simpl; lia]).
  destruct (replace_render query query_loc query_len j
    (FillInConstantLengths lexer (clocations j) query query_loc) 0 0 0 0)
    as (text & pos & Hr & Hb & Heq); try done; [lia|].
  rewrite Hr. cbn [mbind option_bind]. rewrite chunk_slice by lia. cbn [mbind option_bind].
  rewrite Heq. done.
Qed.


(** The exported text says nothing about the constants: two statements that
    differ only inside the replaced extents have the same normalized text. *)
Theorem normalize_hides_constants lexer q1 q2 query_loc query_len j
  (Hnz1 : normalizable lexer q1 query_loc query_len j)
  (Hnz2 : normalizable lexer q2 query_loc query_len j)
  (Hsame : replaced_spans lexer q1 query_loc j = replaced_spans lexer q2 query_loc j)
  (Hout : ∀ i, 0 ≤ i < query_len → outside (replaced_spans lexer q1 query_loc j) i →
     q1 !! Z.to_nat i = q2 !! Z.to_nat i) :
  PschNormalizeQuery lexer q1 query_loc query_len (Some j) =
  PschNormalizeQuery lexer q2 query_loc query_len (Some j).
Proof.
  rewrite (normalize_render _ _ _ _ _ Hnz1), (normalize_render _ _ _ _ _ Hnz2), <- Hsame.
  rewrite (render_ext q1 q2); try done. by eapply normalize_spans.
Qed.

(** ** Witnesses *)

#[local] Transparent placeholder.

Definition secret1 : bytes := bytes_of_string "SELECT 'aa', -7".
Definition secret2 : bytes := bytes_of_string "SELECT 'zz', -5".
Definition demo_lexer : bytes → list Token := λ _,
  [Build_Token 0 6; Build_Token 7 11; Build_Token 11 12; Build_Token 13 14; Build_Token 14 15].
Definition const_at (l : Z) : LocationLen := Build_LocationLen l (-1) false false.
Definition demo_jumble : JumbleState :=
  {| clocations := [const_at 13; const_at 7; const_at 7]; highest_extern_param_id := 0;
     has_squashed_lists := false |}.

Lemma demo_normalizable q : q = secret1 ∨ q = secret2 → normalizable demo_lexer q 0 15 demo_jumble.
Proof.
  intros Hq. assert (length q = 15%nat ∧ is_minus q 7 = false) as [Hl Hm]
    by (destruct Hq as [->| ->]; by vm_compute).
  constructor; [done|by repeat constructor|rewrite Hl; lia|rewrite Hl; simpl; lia|].
  assert (located q 0 15 (clocations demo_jumble) (demo_lexer q) (const_at 7)) as H7.
  { exists [Build_Token 0 6], (Build_Token 7 11), [Build_Token 11 12; Build_Token 13 14; Build_Token 14 15].
    split_and!; [done|done|done|]. change (location (const_at 7) - 0) with 7. by rewrite Hm. }
  assert (located q 0 15 (clocations demo_jumble) (demo_lexer q) (const_at 13)) as H13.
  { exists [Build_Token 0 6; Build_Token 7 11; Build_Token 11 12], (Build_Token 13 14), [Build_Token 14 15].
    split_and!; [done|done|done|]. intros _. exists (Build_Token 14 15), []. split_and!; [done|done|].
    intros l' Hin. repeat (apply elem_of_cons in Hin as [->|Hin]; [done|]). by apply elem_of_nil in Hin. }
  intros l Hin. repeat (apply elem_of_cons in Hin as [->|Hin]; [done|]). by apply elem_of_nil in Hin.
Qed.


Lemma normalize_hides_constants_witness :
  PschNormalizeQuery demo_lexer secret1 0 15 (Some demo_jumble) =
  PschNormalizeQuery demo_lexer secret2 0 15 (Some demo_jumble).
Proof.
  apply (normalize_hides_constants demo_lexer secret1 secret2 0 15 demo_jumble
    (demo_normalizable secret1 (or_introl eq_refl)) (demo_normalizable secret2 (or_intror eq_refl))).
  - vm_compute. reflexivity.
  - change (replaced_spans demo_lexer secret1 0 demo_jumble) with [(7, 4, false); (13, 2, false)].
    intros i Hi (Ho1 & Ho2 & _).
    assert (0 ≤ i < 7 ∨ 11 ≤ i < 13) as Hr by lia.
    assert (i = 0 ∨ i = 1 ∨ i = 2 ∨ i = 3 ∨ i = 4 ∨ i = 5 ∨ i = 6 ∨ i = 11 ∨ i = 12) as Hc by lia.
    repeat destruct Hc as [->|Hc]; try reflexivity. subst i. reflexivity.
Defined.

End Normalize.
