(* ===== verification/Hooks.v ===== *)
(** The executor, utility and log hooks ([src/src/hooks/hooks.c]), on a build for
    PostgreSQL 18.

    [Backend] is what one session keeps: the file's static variables, the shared
    state of [Shared.v], and what PostgreSQL tells it ([World]). The hook called
    before, or the standard function when there is none, is an argument of each
    hook, any computation over the session, so that it may run nested statements
    and with them these hooks again. [emitted] records the events handed to
    [PschEnqueueEvent]. *)

From Stdlib Require Import QArith.
From S2P Require Import Prelude Event StringUtils Shared LocalBatch NormalizeCache Normalize Guc.
Import Event StringUtils Shared LocalBatch NormalizeCache Normalize.
#[local] Open Scope Z_scope.

Module Hooks.

(** ** Data *)

Record BufferUsage := {
  bu_blocks : PschBlocks;
  bu_shared_read : Z; bu_shared_write : Z; bu_local_read : Z; bu_local_write : Z;
  bu_temp_read : Z; bu_temp_write : Z (** times, microseconds *) }.

Record JitInstrumentation := {
  created_functions : Z; generation_counter : Z; deform_counter : Z; inlining_counter : Z;
  optimization_counter : Z; emission_counter : Z }.

Inductive CmdType : Set :=
  CMD_UNKNOWN | CMD_SELECT | CMD_UPDATE | CMD_INSERT | CMD_DELETE | CMD_MERGE | CMD_UTILITY | CMD_NOTHING.

(** [Instrumentation]: the total as microseconds, and the usage. *)
Record Instrumentation := { total_us : Z; bufusage : BufferUsage; walusage : PschWal }.

Record QueryDesc := {
  operation : CmdType; qd_queryId : Z; es_processed : Z;
  totaltime : option Instrumentation; es_jit : option JitInstrumentation;
  es_parallel_workers_to_launch : Z; es_parallel_workers_launched : Z }.

#[export] Instance QueryDesc_eta : Eta QueryDesc := λ q,
  Build_QueryDesc (operation q) (qd_queryId q) (es_processed q) (totaltime q) (es_jit q)
    (es_parallel_workers_to_launch q) (es_parallel_workers_launched q).

(** Statement kinds [ShouldTrackUtility] distinguishes. *)
Inductive UtilityStmt : Set := ExecuteStmt | PrepareStmt | DeallocateStmt | TransactionStmt | OtherStmt.

Inductive CommandTag : Set :=
  CMDTAG_COPY | CMDTAG_FETCH | CMDTAG_SELECT | CMDTAG_REFRESH_MATERIALIZED_VIEW | CMDTAG_OTHER.
Record QueryCompletion := { commandTag : CommandTag; nprocessed : Z }.

Record ErrorData := { elevel : Z; sqlerrcode : Z; message : option bytes }.

(** [struct timeval]: seconds and microseconds. *)
Record TimeVal := { tv_sec : Z; tv_usec : Z }.
Record Rusage := { ru_utime : TimeVal; ru_stime : TimeVal }.

Record PschBackendState := {
  initialized : bool;
  bs_datname : bytes; bs_datname_len : Z;
  cached_userid : Z; bs_username : bytes; bs_username_len : Z;
  bs_client_addr : bytes; bs_client_addr_len : Z;
  normalize_cache : Cache }.

#[export] Instance PschBackendState_eta : Eta PschBackendState := λ b,
  Build_PschBackendState (initialized b) (bs_datname b) (bs_datname_len b) (cached_userid b)
    (bs_username b) (bs_username_len b) (bs_client_addr b) (bs_client_addr_len b) (normalize_cache b).

(** What PostgreSQL provides at a moment. *)
Record World := {
  now : Z;                     (** [GetCurrentTimestamp()] *)
  cur_userid : Z;              (** [GetUserId()] *)
  in_transaction : bool;       (** [IsTransactionState()] *)
  rusage_now : option Rusage;  (** [getrusage], [None] when it fails *)
  prng : list Q;               (** the numbers [pg_prng_double] will draw *)
  pgBufferUsage : BufferUsage; pgWalUsage : PschWal }.

#[export] Instance World_eta : Eta World := λ w,
  Build_World (now w) (cur_userid w) (in_transaction w) (rusage_now w) (prng w) (pgBufferUsage w)
    (pgWalUsage w).

Record Backend := {
  b_sys : Sys;
  nesting_level : Z;
  current_query_is_top_level : bool;
  query_start_ts : Z;
  rusage_start : Rusage;
  system_init : bool;
  backend_state : PschBackendState;
  world : World;
  emitted : list PschEvent }.

#[export] Instance Backend_eta : Eta Backend := λ b,
  Build_Backend (b_sys b) (nesting_level b) (current_query_is_top_level b) (query_start_ts b)
    (rusage_start b) (system_init b) (backend_state b) (world b) (emitted b).

(** Session constants, catalogs and settings. A catalog lookup returns a name or
    nothing, or raises ([None]). *)
Class HookEnv := {
  MyDatabaseId : Z; MyProcPid : Z;
  get_database_name : Z → option (option bytes);
  GetUserNameFromId : Z → option (option bytes);
  app_name_guc : option bytes;
  (** the client's address, [None] without a client connection; the address is
      [None] when it cannot be resolved *)
  MyProcPort : option (option bytes);
  IsParallelWorker : bool; MyProc_set : bool; IsUnderPostmaster : bool; is_bgworker : bool;
  psch_min_duration_us : Z; psch_sample_rate : Q; psch_log_min_elevel : Z;
  (** PostgreSQL's [CleanQuerytext]: the statement's text, location and length *)
  CleanQuerytext : bytes → Z → Z → bytes * Z * Z;
  core_lexer : bytes → list Token;
  (** [BufferUsageAccumDiff] and [WalUsageAccumDiff] from zero *)
  BufferUsageDiff : BufferUsage → BufferUsage → BufferUsage;
  WalUsageDiff : PschWal → PschWal → PschWal }.

Section Hooks.
Context {E : Env} {CE : CacheEnv} {HE : HookEnv}.

Definition on_sys {A} (m : M Sys A) : M Backend A := λ b,
  let '(r, s) := m (b_sys b) in (r, b <| b_sys := s |>).
Definition on_cache {A} (m : M Cache A) : M Backend A := λ b,
  let '(r, c) := m (normalize_cache (backend_state b)) in
  (r, b <| backend_state ::= λ st, st <| normalize_cache := c |> |>).
(** A lookup that can raise. *)
Definition may_raise {A} (r : option A) : M Backend A := λ b, (r, b).

Definition unknown_name : bytes := bytes_of_string "<unknown>" ++ [0].

(** ** The session's cached names *)

Definition CacheUsername (userid : Z) (fallback_on_null : bool) : M Backend unit :=
  username ← may_raise (GetUserNameFromId userid);
  match username with
  | Some name =>
    modify (λ b, b <| backend_state ::= λ st,
      let '(buf, n) := PschCopyName (bs_username st) 64 name in
      st <| bs_username := buf |> <| bs_username_len := n |> <| cached_userid := userid |> |>)
  | None =>
    if fallback_on_null then
      modify (λ b, b <| backend_state ::= λ st,
        let '(buf, n) := PschCopyName (bs_username st) 64 unknown_name in
        st <| bs_username := buf |> <| bs_username_len := n |> <| cached_userid := userid |> |>)
    else mret tt
  end.

(** Returns the buffer and the length. *)
Definition GetClientAddress (buf : bytes) (buf_size : Z) : bytes * Z :=
  let buf := blit 0 [0] buf in
  match MyProcPort with
  | None => (buf, 0)
  | Some None => (buf, 0)
  | Some (Some remote_host) =>
    if bool_decide (cstr remote_host = []) then (buf, 0)
    else if bool_decide (cstr remote_host = bytes_of_string "[local]") then
      let '(buf, src_len) := strlcpy buf buf_size (bytes_of_string "127.0.0.1" ++ [0]) in
      (buf, Z.min src_len (buf_size - 1))
    else
      let '(buf, src_len) := strlcpy buf buf_size remote_host in
      (buf, Z.min src_len (buf_size - 1))
  end.

Definition EnsureBackendCache : M Backend unit :=
  userid ← gets (λ b, cur_userid (world b));
  init ← gets (λ b, initialized (backend_state b));
  in_xact ← gets (λ b, in_transaction (world b));
  if negb init then
    if negb in_xact then mret tt
    else
      datname ← may_raise (get_database_name MyDatabaseId);
      _ ← modify (λ b, b <| backend_state ::= λ st,
            let '(buf, n) := PschCopyName (bs_datname st) 64 (default unknown_name datname) in
            st <| bs_datname := buf |> <| bs_datname_len := n |> |>);
      _ ← modify (λ b, b <| backend_state ::= λ st,
            let '(buf, n) := GetClientAddress (bs_client_addr st) 46 in
            st <| bs_client_addr := buf |> <| bs_client_addr_len := u8 n |> |>);
      _ ← CacheUsername userid true;
      modify (λ b, b <| backend_state ::= λ st, st <| initialized := true |> |>)
  else
    cached ← gets (λ b, cached_userid (backend_state b));
    if negb (cached =? userid) then
      if in_xact then CacheUsername userid false else mret tt
    else mret tt.

(** ** Conversions *)

Definition ConvertCmdType (cmd : CmdType) : PschCmdType :=
  match cmd with
  | CMD_SELECT => PSCH_CMD_SELECT
  | CMD_UPDATE => PSCH_CMD_UPDATE
  | CMD_INSERT => PSCH_CMD_INSERT
  | CMD_DELETE => PSCH_CMD_DELETE
  | CMD_MERGE => PSCH_CMD_MERGE
  | CMD_UTILITY => PSCH_CMD_UTILITY
  | CMD_NOTHING => PSCH_CMD_NOTHING
  | _ => PSCH_CMD_UNKNOWN
  end.

Definition TimeDiffMicrosec (end_ start : TimeVal) : Z :=
  i64 (i64 (tv_sec end_ - tv_sec start) * 1000000 + i64 (tv_usec end_ - tv_usec start)).

(** [PGUNSIXBIT]: six bits as a character from ['0'] on. *)
Definition PGUNSIXBIT (v : Z) : Z := u8 (Z.land v 63 + 48).

Fixpoint unpack (n : nat) (sql_state : Z) : bytes :=
  match n with
  | O => []
  | S n => PGUNSIXBIT sql_state :: unpack n (Z.shiftr sql_state 6)
  end.
(** The six bytes of [err_sqlstate]. *)
Definition UnpackSqlState (sql_state : Z) : bytes := unpack 5 sql_state ++ [0].

Definition GetApplicationName (buf : bytes) (buf_size : Z) : bytes * Z :=
  match app_name_guc with
  | Some name =>
    if bool_decide (cstr name = []) then (blit 0 [0] buf, 0)
    else PschCopyTrimmed buf buf_size (Some name)
  | None => (blit 0 [0] buf, 0)
  end.

(** The next number of the generator. *)
Definition pg_prng_double : M Backend Q :=
  l ← gets (λ b, prng (world b));
  _ ← modify (λ b, b <| world ::= λ w, w <| prng := tail l |> |>);
  mret (default 0%Q (head l)).

Definition ShouldSampleEvent (duration_us : Z) : M Backend bool :=
  if (psch_min_duration_us =? 0) && Qle_bool 1 psch_sample_rate then mret true
  else if u64 psch_min_duration_us <=? duration_us then mret true
  else if Qle_bool psch_sample_rate 0 then mret false
  else if Qle_bool 1 psch_sample_rate then mret true
  else
    x ← pg_prng_double;
    mret (negb (Qle_bool psch_sample_rate x)).

(** ** Building events *)

Definition upd_fixed (f : PschFixed → PschFixed) (e : PschEvent) : PschEvent := e <| ev_fixed ::= f |>.

Definition CopyBufferUsage (bu : BufferUsage) (f : PschFixed) : PschFixed :=
  f <| blocks := bu_blocks bu |>.

Definition CopyIoTiming (bu : BufferUsage) (f : PschFixed) : PschFixed :=
  f <| io_timing := {| shared_blk_read_time_us := bu_shared_read bu;
                       shared_blk_write_time_us := bu_shared_write bu;
                       local_blk_read_time_us := bu_local_read bu;
                       local_blk_write_time_us := bu_local_write bu;
                       temp_blk_read_time_us := bu_temp_read bu;
                       temp_blk_write_time_us := bu_temp_write bu |} |>.

Definition CopyWalUsage (w : PschWal) (f : PschFixed) : PschFixed := f <| wal := w |>.

(** [event] is the caller's uninitialised struct. *)
Definition InitEventPartial (event : PschEvent) : PschEvent :=
  event <| ev_fixed := zero_fixed |> <| err_message ::= blit 0 [0] |> <| query ::= blit 0 [0] |>.

(** Copies a cached name with its NUL: [len + 1] bytes. *)
Definition copy_cached (src : bytes) (len : Z) (dst : bytes) : bytes :=
  blit 0 (take (Z.to_nat (len + 1)) src) dst.

Definition ResolveNames (event : PschEvent) : M Backend PschEvent :=
  _ ← EnsureBackendCache;
  st ← gets backend_state;
  if initialized st then
    mret (upd_fixed (λ f, f <| identity ::= λ i,
      i <| datname ::= copy_cached (bs_datname st) (bs_datname_len st) |>
        <| datname_len := bs_datname_len st |>
        <| username ::= copy_cached (bs_username st) (bs_username_len st) |>
        <| username_len := bs_username_len st |> |>) event)
  else
    in_xact ← gets (λ b, in_transaction (world b));
    dat ← (if in_xact : bool then may_raise (get_database_name (dbid (identity (ev_fixed event))))
           else mret None);
    usr ← (if in_xact : bool then may_raise (GetUserNameFromId (userid (identity (ev_fixed event))))
           else mret None);
    mret (upd_fixed (λ f, f <| identity ::= λ i,
      let '(db, dn) := PschCopyName (datname i) 64 (default unknown_name dat) in
      let '(us, un) := PschCopyName (username i) 64 (default unknown_name usr) in
      i <| datname := db |> <| datname_len := dn |> <| username := us |> <| username_len := un |> |>) event).

Definition InitBaseEvent (event : PschEvent) (ts : Z) (top : bool) (cmd : PschCmdType) : M Backend PschEvent :=
  uid ← gets (λ b, cur_userid (world b));
  let event := InitEventPartial event in
  let event := upd_fixed (λ f, f <| ts_start := ts |> <| identity ::= λ i,
                 i <| dbid := MyDatabaseId |> <| userid := uid |> <| pid := MyProcPid |>
                   <| top_level := top |> <| cmd_type := cmd |> |>) event in
  ResolveNames event.

Definition CopyClientContext (event : PschEvent) : M Backend PschEvent :=
  let event := upd_fixed (λ f,
                 let '(buf, n) := GetApplicationName (application_name f) 64 in
                 f <| application_name := buf |> <| application_name_len := u8 n |>) event in
  _ ← EnsureBackendCache;
  st ← gets backend_state;
  if initialized st then
    mret (upd_fixed (λ f, f <| client_addr ::= copy_cached (bs_client_addr st) (bs_client_addr_len st) |>
                            <| client_addr_len := bs_client_addr_len st |>) event)
  else
    mret (upd_fixed (λ f, let '(buf, n) := GetClientAddress (client_addr f) 46 in
                          f <| client_addr := buf |> <| client_addr_len := u8 n |>) event).

Definition CopyQueryText (query_id : Z) (event : PschEvent) : M Backend PschEvent :=
  r ← on_cache (PschLookupNormalizedQuery query_id (query event) PSCH_MAX_QUERY_LEN
                  (query_len (ev_fixed event)));
  mret (upd_fixed (λ f, f <| query_len := r.2 |>) (event <| query := r.1.2 |>)).

Definition CopyJitInstrumentation (q : QueryDesc) (f : PschFixed) : PschFixed :=
  match es_jit q with
  | None => f
  | Some j =>
    f <| jit := {| jit_functions := i32 (created_functions j);
                   jit_generation_time_us := i32 (generation_counter j);
                   jit_deform_time_us := i32 (deform_counter j);
                   jit_inlining_time_us := i32 (inlining_counter j);
                   jit_optimization_time_us := i32 (optimization_counter j);
                   jit_emission_time_us := i32 (emission_counter j) |} |>
  end.

Definition CopyParallelWorkerInfo (q : QueryDesc) (f : PschFixed) : PschFixed :=
  f <| parallel_workers_planned := i16 (es_parallel_workers_to_launch q) |>
    <| parallel_workers_launched := i16 (es_parallel_workers_launched q) |>.

Definition BuildEventFromQueryDesc (q : QueryDesc) (event : PschEvent) (cpu_user_us cpu_sys_us : Z)
    : M Backend PschEvent :=
  start ← gets query_start_ts;
  top ← gets current_query_is_top_level;
  t ← gets (λ b, now (world b));
  event ← InitBaseEvent event start top (ConvertCmdType (operation q));
  let event := upd_fixed (λ f, f <| identity ::= λ i, i <| queryid := qd_queryId q |> |>
                 <| rows := es_processed q |>
                 <| cpu_user_time_us := cpu_user_us |> <| cpu_sys_time_us := cpu_sys_us |>) event in
  let event := match totaltime q with
               | Some i => upd_fixed (λ f, CopyWalUsage (walusage i) (CopyIoTiming (bufusage i)
                             (CopyBufferUsage (bufusage i) (f <| duration_us := u64 (total_us i) |>)))) event
               | None => upd_fixed (λ f, f <| duration_us := u64 (t - start) |>) event
               end in
  let event := upd_fixed (λ f, CopyParallelWorkerInfo q (CopyJitInstrumentation q f)) event in
  event ← CopyClientContext event;
  CopyQueryText (qd_queryId q) event.

Definition BuildEventForUtility (event : PschEvent) (query_id start_ts duration : Z) (is_top : bool)
    (nrows : Z) (bu : BufferUsage) (w : PschWal) (cpu_user_us cpu_sys_us : Z) : M Backend PschEvent :=
  event ← InitBaseEvent event start_ts is_top PSCH_CMD_UTILITY;
  let event := upd_fixed (λ f, CopyWalUsage w (CopyIoTiming bu (CopyBufferUsage bu
                 (f <| identity ::= λ i, i <| queryid := query_id |> |>
                    <| duration_us := duration |> <| rows := nrows |>
                    <| cpu_user_time_us := cpu_user_us |> <| cpu_sys_time_us := cpu_sys_us |>)))) event in
  event ← CopyClientContext event;
  CopyQueryText query_id event.

(** [PschEnqueueEvent], with the event recorded. *)
Definition enqueue (event : PschEvent) : M Backend bool :=
  _ ← modify (λ b, b <| emitted ::= λ l, l ++ [event] |>);
  on_sys (PschEnqueueEvent event).

(** CPU time since a baseline; zero when [getrusage] fails. *)
Definition cpu_since (start : Rusage) (b : Backend) : Z * Z :=
  match rusage_now (world b) with
  | Some r => (TimeDiffMicrosec (ru_utime r) (ru_utime start), TimeDiffMicrosec (ru_stime r) (ru_stime start))
  | None => (0, 0)
  end.

(** ** The hooks *)

(** [prev] is the hook installed before, [None] if there was none. *)
Definition PschPostParseAnalyze (prev : option (M Backend unit)) (sourcetext : bytes)
    (stmt_location stmt_len queryId : Z) (jstate : option JumbleState) : M Backend unit :=
  _ ← match prev with Some hook => hook | None => mret tt end;
  if negb psch_enabled || IsParallelWorker then mret tt
  else if queryId =? 0 then mret tt
  else
    let '(query_text, query_loc, query_len) := CleanQuerytext sourcetext stmt_location stmt_len in
    match jstate with
    | Some j =>
      if 0 <? Z.of_nat (length (clocations j)) then
        match PschNormalizeQuery core_lexer query_text query_loc query_len jstate with
        | Some (Some (text, n)) => on_cache (PschRememberNormalizedQuery queryId (Some text) n)
        | Some None => mret tt
        | None => raise
        end
      else
        match PschCopyTrimmedStatement (Some query_text) query_len with
        | Some text => on_cache (PschRememberNormalizedQuery queryId (Some text) (strlen text))
        | None => mret tt
        end
    | None =>
      match PschCopyTrimmedStatement (Some query_text) query_len with
      | Some text => on_cache (PschRememberNormalizedQuery queryId (Some text) (strlen text))
      | None => mret tt
      end
    end.

(** [next] is the hook installed before or the standard function; it sets the
    execution up. Returns the query descriptor with its instrumentation. *)
Definition PschExecutorStart (next : M Backend QueryDesc) : M Backend QueryDesc :=
  if IsParallelWorker then next
  else
    level ← gets nesting_level;
    _ ← (if level =? 0 then
           modify (λ b, let b := b <| current_query_is_top_level := true |>
                                   <| query_start_ts := now (world b) |> in
                        if psch_enabled then
                          match rusage_now (world b) with
                          | Some r => b <| rusage_start := r |>
                          | None => b
                          end
                        else b)
         else modify (λ b, b <| current_query_is_top_level := false |>));
    q ← next;
    if psch_enabled && negb (qd_queryId q =? 0) then
      match totaltime q with
      | None => mret (q <| totaltime := Some {| total_us := 0; bufusage :=
                  {| bu_blocks := Build_PschBlocks 0 0 0 0 0 0 0 0 0 0; bu_shared_read := 0;
                     bu_shared_write := 0; bu_local_read := 0; bu_local_write := 0; bu_temp_read := 0;
                     bu_temp_write := 0 |}; walusage := Build_PschWal 0 0 0 |} |>)
      | Some _ => mret q
      end
    else mret q.

(** The body of [PG_TRY] with the nesting level raised around it. *)
Definition nested {A} (body : M Backend A) : M Backend A :=
  _ ← modify (λ b, b <| nesting_level ::= Z.succ |>);
  pg_finally body (modify (λ b, b <| nesting_level ::= Z.pred |>)).

Definition PschExecutorRun (next : M Backend unit) : M Backend unit :=
  if IsParallelWorker then next else nested next.

Definition PschExecutorFinish (next : M Backend unit) : M Backend unit :=
  if IsParallelWorker then next else nested next.

(** [stack] is the uninitialised event on the stack. *)
Definition PschExecutorEnd (next : M Backend unit) (stack : PschEvent) (q : QueryDesc) : M Backend unit :=
  if negb psch_enabled || IsParallelWorker || (qd_queryId q =? 0) then next
  else
    start ← gets query_start_ts;
    t ← gets (λ b, now (world b));
    let duration := match totaltime q with
                    | Some i => u64 (total_us i)
                    | None => u64 (t - start)
                    end in
    sample ← ShouldSampleEvent duration;
    if negb sample then next
    else
      cpu ← gets (λ b, cpu_since (rusage_start b) b);
      event ← BuildEventFromQueryDesc q stack cpu.1 cpu.2;
      _ ← enqueue event;
      next.

Definition ShouldTrackUtility (stmt : UtilityStmt) : bool :=
  if negb psch_enabled || IsParallelWorker then false
  else match stmt with
       | ExecuteStmt | PrepareStmt | DeallocateStmt => false
       | TransactionStmt => false
       | OtherStmt => true
       end.

Definition GetUtilityRowCount (qc : option QueryCompletion) : Z :=
  match qc with
  | None => 0
  | Some qc =>
    match commandTag qc with
    | CMDTAG_COPY | CMDTAG_FETCH | CMDTAG_SELECT | CMDTAG_REFRESH_MATERIALIZED_VIEW => nprocessed qc
    | _ => 0
    end
  end.

Definition ExecuteUtilityWithNesting {A} (next : M Backend A) : M Backend A := nested next.

(** [next] runs the statement and returns its completion and the microseconds
    it took by the monotonic clock; [stack] and [stack_ru] are the uninitialised
    variables on the stack. *)
Definition PschProcessUtility (next : M Backend (option QueryCompletion * Z)) (stack : PschEvent)
    (stack_ru : Rusage) (stmt : UtilityStmt) (queryId : Z) : M Backend unit :=
  if negb (ShouldTrackUtility stmt) then _ ← next; mret tt
  else
    level ← gets nesting_level;
    let is_top_level := level =? 0 in
    start_ts ← gets (λ b, now (world b));
    bu0 ← gets (λ b, pgBufferUsage (world b));
    wal0 ← gets (λ b, pgWalUsage (world b));
    ru0 ← gets (λ b, default stack_ru (rusage_now (world b)));
    done ← ExecuteUtilityWithNesting next;
    let duration := u64 done.2 in
    sample ← ShouldSampleEvent duration;
    if negb sample then mret tt
    else
      bu ← gets (λ b, BufferUsageDiff (pgBufferUsage (world b)) bu0);
      w ← gets (λ b, WalUsageDiff (pgWalUsage (world b)) wal0);
      cpu ← gets (cpu_since ru0);
      event ← BuildEventForUtility stack queryId start_ts duration is_top_level
                (GetUtilityRowCount done.1) bu w cpu.1 cpu.2;
      _ ← enqueue event;
      mret tt.

(** ** Log capture *)

Definition ShouldCaptureLog (edata : option ErrorData) : M Backend bool :=
  init ← gets system_init;
  guard ← gets (λ b, disable_error_capture (b_sys b));
  null ← gets (λ b, match psch_shared_state (b_sys b) with None => true | Some _ => false end);
  match edata with
  | None => mret false
  | Some ed =>
    if negb init || negb psch_enabled || guard then mret false
    else if elevel ed <? psch_log_min_elevel then mret false
    else if negb MyProc_set || IsParallelWorker then mret false
    else if (MyDatabaseId =? 0) || negb IsUnderPostmaster || null || is_bgworker then mret false
    else mret true
  end.

Definition CaptureLogEvent (stack : PschEvent) (ed : ErrorData) : M Backend unit :=
  t ← gets (λ b, now (world b));
  level ← gets nesting_level;
  event ← InitBaseEvent stack t (level =? 0) PSCH_CMD_UNKNOWN;
  let event := upd_fixed (λ f, f <| err_sqlstate := UnpackSqlState (sqlerrcode ed) |>
                                 <| err_elevel := u8 (elevel ed) |>) event in
  let event := match message ed with
               | Some msg =>
                 let '(buf, n) := PschCopyTrimmed (err_message event) PSCH_MAX_ERR_MSG_LEN (Some msg) in
                 upd_fixed (λ f, f <| err_message_len := u16 n |>) (event <| err_message := buf |>)
               | None => event
               end in
  event ← CopyClientContext event;
  _ ← enqueue event;
  mret tt.

(** [PG_TRY(); body; PG_CATCH(); { FlushErrorState } PG_END_TRY();] *)
Definition swallow (body : M Backend unit) : M Backend unit := λ b,
  match body b with
  | (_, b') => (Some tt, b')
  end.

Definition set_guard (g : bool) : M Backend unit :=
  modify (λ b, b <| b_sys ::= λ s, s <| disable_error_capture := g |> |>).

Definition PschEmitLogHook (prev : option (M Backend unit)) (stack : PschEvent) (edata : option ErrorData)
    : M Backend unit :=
  _ ← match prev with Some hook => hook | None => mret tt end;
  capture ← ShouldCaptureLog edata;
  if negb capture then mret tt
  else
    _ ← set_guard true;
    _ ← swallow (match edata with Some ed => CaptureLogEvent stack ed | None => mret tt end);
    set_guard false.

End Hooks.
End Hooks.
