(* ===== verification/HookThms.v ===== *)
(** What the hooks do: the events they build, the nesting level they keep, the
    recursion guard of log capture, and a session of nested statements. *)

From Stdlib Require Import QArith.
From S2P Require Import Prelude Event StringUtils Shared LocalBatch NormalizeCache Normalize Guc Hooks.
Import Event StringUtils Shared LocalBatch NormalizeCache Normalize Hooks.
#[local] Open Scope Z_scope.

Module HookThms.

(** ** What building an event leaves alone *)

(** Only what the session caches changed. *)
Definition quiet (b b' : Backend) : Prop := b' = b <| backend_state := backend_state b' |>.

(** Only the cached names changed. *)
Definition renamed (b b' : Backend) : Prop :=
  quiet b b' ∧ normalize_cache (backend_state b') = normalize_cache (backend_state b).

Lemma quiet_refl b : quiet b b.
Proof. by destruct b. Qed.
Lemma quiet_trans b1 b2 b3 : quiet b1 b2 → quiet b2 b3 → quiet b1 b3.
Proof. unfold quiet. intros -> ->. by destruct b1. Qed.
Lemma quiet_modify b f : quiet b (b <| backend_state ::= f |>).
Proof. by destruct b. Qed.

#[export] Instance renamed_preorder : PreOrder renamed.
Proof.
  split.
  - intros b. split; [apply quiet_refl|done].
  - intros b1 b2 b3 [H1 H2] [H3 H4]. split; [by eapply quiet_trans|congruence].
Qed.

(** The session's cached names fit the events' buffers, and the text cache is
    usable. *)
Record session_ok {CE : CacheEnv} (b : Backend) : Prop := {
  so_datname : length (bs_datname (backend_state b)) = 64%nat;
  so_datname_len : 0 ≤ bs_datname_len (backend_state b) ≤ 63;
  so_username : length (bs_username (backend_state b)) = 64%nat;
  so_username_len : 0 ≤ bs_username_len (backend_state b) ≤ 63;
  so_client : length (bs_client_addr (backend_state b)) = 46%nat;
  so_client_len : 0 ≤ bs_client_addr_len (backend_state b) ≤ 45;
  so_cache : ∃ max, cache_ready max (normalize_cache (backend_state b)) }.

(** The text buffers have their declared sizes. *)
Definition buffers_ok (ev : PschEvent) : Prop :=
  length (err_message ev) = Z.to_nat PSCH_MAX_ERR_MSG_LEN ∧
  length (query ev) = Z.to_nat PSCH_MAX_QUERY_LEN.

(** Every buffer of the prefix has its declared size and its length fits with a
    NUL to spare. *)
Record prefix_ok (f : PschFixed) : Prop := {
  po_datname : length (datname (identity f)) = 64%nat;
  po_datname_len : 0 ≤ datname_len (identity f) ≤ 63;
  po_username : length (username (identity f)) = 64%nat;
  po_username_len : 0 ≤ username_len (identity f) ≤ 63;
  po_app : length (application_name f) = 64%nat;
  po_app_len : 0 ≤ application_name_len f ≤ PSCH_MAX_APP_NAME_LEN;
  po_client : length (client_addr f) = 46%nat;
  po_client_len : 0 ≤ client_addr_len f ≤ PSCH_MAX_CLIENT_ADDR_LEN;
  po_err_len : 0 ≤ err_message_len f < PSCH_MAX_ERR_MSG_LEN;
  po_query_len : 0 ≤ query_len f < PSCH_MAX_QUERY_LEN }.

Definition event_built (ev : PschEvent) : Prop := prefix_ok (ev_fixed ev) ∧ buffers_ok ev.

Lemma zero_prefix_ok : prefix_ok zero_fixed.
Proof. constructor; by vm_compute. Qed.

Lemma copy_name_fits dst size src :
  0 < size ≤ 256 → Z.of_nat (length dst) = size →
  length (PschCopyName dst size src).1 = length dst ∧ 0 ≤ (PschCopyName dst size src).2 ≤ size - 1.
Proof.
  intros Hs Hd. unfold PschCopyName.
  destruct (strlcpy_spec dst size src) as (-> & Hlt & Hlen & _ & Hl); [lia|].
  simpl. split; [done|]. pose proof (strlen_nonneg src). unfold u8. rewrite Z.mod_small; lia.
Qed.

Lemma client_address_fits {HE : HookEnv} dst size :
  0 < size → Z.of_nat (length dst) = size →
  length (GetClientAddress dst size).1 = length dst ∧ 0 ≤ (GetClientAddress dst size).2 ≤ size - 1.
Proof.
  intros Hs Hd. unfold GetClientAddress.
  assert (length (blit 0 [0] dst) = length dst) as Hb by (apply length_blit; simpl; lia).
  destruct MyProcPort as [[host|]|]; cbn [fst snd]; [|lia..].
  destruct (bool_decide (cstr host = [])); cbn [fst snd]; [lia|].
  assert (∀ src, length (strlcpy (blit 0 [0] dst) size src).1 = length dst ∧
    0 ≤ Z.min (strlcpy (blit 0 [0] dst) size src).2 (size - 1) ≤ size - 1) as Hcopy.
  { intros src. destruct (strlcpy_spec (blit 0 [0] dst) size src) as (-> & _ & _ & _ & Hl); [lia|].
    cbn [fst snd]. pose proof (strlen_nonneg src). lia. }
  destruct (bool_decide _).
  - specialize (Hcopy (bytes_of_string "127.0.0.1" ++ [0])). by destruct (strlcpy _ _ _).
  - specialize (Hcopy host). by destruct (strlcpy _ _ _).
Qed.

Lemma copy_trimmed_fits dst size src :
  0 < size → Z.of_nat (length dst) = size →
  length (PschCopyTrimmed dst size (Some src)).1 = length dst ∧
  0 ≤ (PschCopyTrimmed dst size (Some src)).2 ≤ size - 1.
Proof.
  intros Hs Hd. pose proof (copy_trimmed_fills dst src size ltac:(lia)) as H.
  destruct (PschCopyTrimmed dst size (Some src)) as [dst' n]. destruct H as (Hl & _ & -> & Hlt).
  pose proof (strlen_nonneg dst'). cbn [fst snd]. lia.
Qed.

Lemma app_name_fits {HE : HookEnv} dst size :
  0 < size → Z.of_nat (length dst) = size →
  length (GetApplicationName dst size).1 = length dst ∧ 0 ≤ (GetApplicationName dst size).2 ≤ size - 1.
Proof.
  intros Hs Hd. unfold GetApplicationName.
  assert (length (blit 0 [0] dst) = length dst) as Hb by (apply length_blit; simpl; lia).
  destruct app_name_guc as [name|]; [|cbn [fst snd]; lia].
  destruct (bool_decide _); [cbn [fst snd]; lia|]. by apply copy_trimmed_fits.
Qed.

Lemma copy_cached_fits src len dst n :
  length dst = n → length src = n → 0 ≤ len < Z.of_nat n → length (copy_cached src len dst) = n.
Proof. intros. unfold copy_cached. rewrite length_blit; [done|]. rewrite length_take. lia. Qed.

(** ** The cached names *)

#[local] Opaque PschCopyName GetClientAddress GetApplicationName PschCopyTrimmed.

Section names.
Context {E : Env} {CE : CacheEnv} {HE : HookEnv}.

Lemma wp_may_raise {A} (r : option A) (Q : A → Backend → Prop) R b :
  (∀ a, r = Some a → Q a b) → R b → wp (may_raise r) Q R b.
Proof. unfold wp, may_raise. destruct r; auto. Qed.

Lemma wp_on_cache {A} (m : M Cache A) (Q : A → Backend → Prop) R b :
  wp m (λ a c, Q a (b <| backend_state ::= λ st, st <| normalize_cache := c |> |>))
       (λ c, R (b <| backend_state ::= λ st, st <| normalize_cache := c |> |>))
       (normalize_cache (backend_state b)) →
  wp (on_cache m) Q R b.
Proof. unfold wp, on_cache. by destruct (m _) as [[a|] c]. Qed.

(** A step that keeps the session usable and touches only the names. *)
Definition settles (b b' : Backend) : Prop := session_ok b' ∧ renamed b b'.

Lemma store_username b name id :
  session_ok b →
  settles b (b <| backend_state ::= λ st,
      let '(buf, n) := PschCopyName (bs_username st) 64 name in
      st <| bs_username := buf |> <| bs_username_len := n |> <| cached_userid := id |> |>).
Proof.
  intros Hok. destruct (copy_name_fits (bs_username (backend_state b)) 64 name) as [H1 H2];
    [lia|rewrite (so_username _ Hok); lia|].
  destruct b as [? ? ? ? ? ? st ? ?]; simpl in *. destruct (PschCopyName _ _ _) as [buf n] eqn:He.
  simpl in *. pose proof (so_username _ Hok) as H0. simpl in H0. rewrite H0 in H1.
  split; [destruct Hok; constructor; simpl in *; rewrite He; simpl; (done || lia)|].
  split; [done|]. simpl. by rewrite He.
Qed.

Lemma store_datname b name :
  session_ok b →
  settles b (b <| backend_state ::= λ st,
      let '(buf, n) := PschCopyName (bs_datname st) 64 name in
      st <| bs_datname := buf |> <| bs_datname_len := n |> |>).
Proof.
  intros Hok. destruct (copy_name_fits (bs_datname (backend_state b)) 64 name) as [H1 H2];
    [lia|rewrite (so_datname _ Hok); lia|].
  destruct b as [? ? ? ? ? ? st ? ?]; simpl in *. destruct (PschCopyName _ _ _) as [buf n] eqn:He.
  simpl in *. pose proof (so_datname _ Hok) as H0. simpl in H0. rewrite H0 in H1.
  split; [destruct Hok; constructor; simpl in *; rewrite He; simpl; (done || lia)|].
  split; [done|]. simpl. by rewrite He.
Qed.

Lemma store_client b :
  session_ok b →
  settles b (b <| backend_state ::= λ st,
      let '(buf, n) := GetClientAddress (bs_client_addr st) 46 in
      st <| bs_client_addr := buf |> <| bs_client_addr_len := u8 n |> |>).
Proof.
  intros Hok. destruct (client_address_fits (bs_client_addr (backend_state b)) 46) as [H1 H2];
    [lia|rewrite (so_client _ Hok); lia|].
  destruct b as [? ? ? ? ? ? st ? ?]; simpl in *. destruct (GetClientAddress _ _) as [buf n] eqn:He.
  simpl in *. pose proof (so_client _ Hok) as H0. simpl in H0. rewrite H0 in H1.
  assert (u8 n = n) as Hn by (apply Z.mod_small; lia).
  split; [destruct Hok; constructor; simpl in *; rewrite He; simpl; rewrite ?Hn; (done || lia)|].
  split; [done|]. simpl. by rewrite He.
Qed.

Lemma store_initialized b :
  session_ok b → settles b (b <| backend_state ::= λ st, st <| initialized := true |> |>).
Proof. intros []. split; [by constructor|]. by destruct b. Qed.

Lemma settles_trans b1 b2 b3 : settles b1 b2 → settles b2 b3 → settles b1 b3.
Proof. intros [? ?] [? ?]. split; [done|by etrans]. Qed.

Lemma settles_refl b : session_ok b → settles b b.
Proof. by split. Qed.

Lemma wp_cache_username id fb b0 b :
  settles b0 b → wp (CacheUsername id fb) (λ _ b', settles b0 b') (settles b0) b.
Proof.
  intros Hb. pose proof (proj1 Hb) as Hok. unfold CacheUsername. wp_step.
  apply wp_may_raise; [|done]. intros [name|] _; [|destruct fb]; wp_step;
    try (eapply settles_trans; [done|by apply store_username]). done.
Qed.

(** The session's names are brought up to date, or a catalog lookup fails. *)
Lemma wp_ensure_cache b :
  session_ok b → wp EnsureBackendCache (λ _ b', settles b b') (settles b) b.
Proof.
  intros Hok. pose proof (settles_refl _ Hok) as H0. unfold EnsureBackendCache. do 6 wp_step.
  destruct (initialized (backend_state b)); simpl negb; cbv iota.
  - do 2 wp_step. destruct (negb _); [|by wp_step]. destruct (in_transaction _); [|by wp_step].
    by apply wp_cache_username.
  - destruct (in_transaction (world b)); simpl negb; cbv iota; [|by wp_step]. wp_step.
    apply wp_may_raise; [|done]. intros dat _. do 4 wp_step.
    assert (settles b _) as H1 by (by apply (store_datname b (default unknown_name dat))).
    assert (settles b _) as H2 by (eapply settles_trans; [exact H1|apply store_client, (proj1 H1)]).
    wp_step. eapply wp_mono; [| |apply wp_cache_username; exact H2]; [|done].
    intros u b' H3. wp_step. eapply settles_trans; [exact H3|]. apply store_initialized, (proj1 H3).
Qed.

End names.

(** ** Building an event *)

Definition with_names (d : bytes) (dn : Z) (u : bytes) (un : Z) : PschEvent → PschEvent :=
  upd_fixed (λ f, f <| identity ::= λ i,
    i <| datname := d |> <| datname_len := dn |> <| username := u |> <| username_len := un |> |>).

Definition with_client (a : bytes) (an : Z) (c : bytes) (cn : Z) : PschEvent → PschEvent :=
  upd_fixed (λ f, f <| application_name := a |> <| application_name_len := an |>
                    <| client_addr := c |> <| client_addr_len := cn |>).

(** The event carries the text cached under [id], all of it, or none. *)
Definition carries_text {CE : CacheEnv} (b : Backend) (id : Z) (ev : PschEvent) : Prop :=
  match spec_get id (cache_abs (normalize_cache (backend_state b))) with
  | Some (txt, _) => query_len (ev_fixed ev) = Z.of_nat (length txt) ∧
                     take (length txt) (query ev) = txt
  | None => query_len (ev_fixed ev) = 0
  end.

Section build.
Context {E : Env} {CE : CacheEnv} {HE : HookEnv}.

Lemma wp_resolve_names ev b :
  session_ok b → prefix_ok (ev_fixed ev) →
  wp (ResolveNames ev)
    (λ ev' b', settles b b' ∧ prefix_ok (ev_fixed ev') ∧ ∃ d dn u un, ev' = with_names d dn u un ev)
    (settles b) b.
Proof.
  intros Hok Hev. unfold ResolveNames. wp_step.
  eapply wp_mono; [| |by apply wp_ensure_cache]; [|done]. intros u b' Hb'. do 2 wp_step.
  destruct (initialized (backend_state b')).
  - wp_step. split; [done|]. split; [|by repeat eexists].
    destruct Hb' as [[] _], Hev. constructor; simpl; try done; apply copy_cached_fits; (done || lia).
  - do 3 wp_step.
    assert (∀ (c : bool) (r : option (option bytes)) (Q : option bytes → Backend → Prop),
      (∀ o, Q o b') → wp (if c then may_raise r else mret None) Q (settles b) b') as Hraise.
    { intros [] r Q HQ; [by apply wp_may_raise|by wp_step]. }
    apply Hraise. intros dat. wp_step. apply Hraise. intros usr. wp_step. split; [done|].
    destruct (copy_name_fits (datname (identity (ev_fixed ev))) 64 (default unknown_name dat)) as [H1 H2];
      [lia|rewrite (po_datname _ Hev); lia|].
    destruct (copy_name_fits (username (identity (ev_fixed ev))) 64 (default unknown_name usr)) as [H3 H4];
      [lia|rewrite (po_username _ Hev); lia|].
    destruct (PschCopyName (datname _) _ _) as [db dn] eqn:Hd,
      (PschCopyName (username _) _ _) as [us un] eqn:Hu.
    split.
    + destruct Hev. constructor; simpl; try done; rewrite Hd, Hu; simpl in *; (lia || congruence).
    + exists db, dn, us, un. unfold with_names, upd_fixed, set_field. simpl. by rewrite Hd, Hu.
Qed.

Lemma wp_client_context ev b :
  session_ok b → prefix_ok (ev_fixed ev) →
  wp (CopyClientContext ev)
    (λ ev' b', settles b b' ∧ prefix_ok (ev_fixed ev') ∧ ∃ a an c cn, ev' = with_client a an c cn ev)
    (settles b) b.
Proof.
  intros Hok Hev. unfold CopyClientContext.
  destruct (app_name_fits (application_name (ev_fixed ev)) 64) as [H1 H2];
    [lia|rewrite (po_app _ Hev); lia|].
  destruct (GetApplicationName (application_name (ev_fixed ev)) 64) as [app an] eqn:Ha. simpl in H1, H2.
  assert (u8 an = an) as Han by (apply Z.mod_small; lia).
  rewrite (po_app _ Hev) in H1. wp_step.
  eapply wp_mono; [| |by apply wp_ensure_cache]; [|done]. intros u b' Hb'. do 2 wp_step.
  destruct (initialized (backend_state b')).
  - wp_step. split; [done|]. split.
    + destruct Hb' as [[] _], Hev.
      constructor; simpl; rewrite ?Ha, ?Han; simpl; try done; try lia.
      by apply copy_cached_fits; [| |lia].
    + repeat eexists. unfold with_client, upd_fixed, set_field. simpl. by rewrite Ha.
  - wp_step. split; [done|].
    destruct (client_address_fits (client_addr (ev_fixed ev)) 46) as [H3 H4];
      [lia|rewrite (po_client _ Hev); lia|].
    destruct (GetClientAddress (client_addr (ev_fixed ev)) 46) as [cl cn] eqn:Hc. simpl in H3, H4.
    assert (u8 cn = cn) as Hcn by (apply Z.mod_small; lia).
    split.
    + destruct Hev. constructor; simpl; rewrite Ha; simpl; rewrite ?Hc; simpl; rewrite ?Han, ?Hcn;
        unfold PSCH_MAX_APP_NAME_LEN, NAMEDATALEN, PSCH_MAX_CLIENT_ADDR_LEN, INET6_ADDRSTRLEN;
        (done || lia || congruence).
    + exists app, (u8 an), cl, (u8 cn). unfold with_client, upd_fixed, set_field. simpl. rewrite Ha. simpl.
      by rewrite Hc.
Qed.

Lemma wp_copy_query_text id ev b :
  session_ok b → event_built ev → query_len (ev_fixed ev) = 0 →
  wp (CopyQueryText id ev)
    (λ ev' b', session_ok b' ∧ quiet b b' ∧ event_built ev' ∧ carries_text b id ev' ∧
       ∃ buf n, ev' = upd_fixed (λ f, f <| query_len := n |>) (ev <| query := buf |>))
    (λ _, False) b.
Proof.
  intros Hok [Hp [He Hq]] H0. destruct (so_cache _ Hok) as [max Hmax]. unfold CopyQueryText. wp_step.
  apply wp_on_cache. eapply wp_mono; [| |eapply (wp_lookup_ready max); [done|done|rewrite Hq; by vm_compute]];
    [|done].
  intros r c' [Hready Hr]. wp_step.
  assert (carries_text b id (upd_fixed (λ f, f <| query_len := r.2 |>) (ev <| query := r.1.2 |>)) ∧
          length r.1.2 = length (query ev) ∧ 0 ≤ r.2 < PSCH_MAX_QUERY_LEN) as (Ht & Hl & Hn).
  { unfold looked_up in Hr. unfold carries_text.
    destruct (spec_get _ _) as [[txt l]|] eqn:Hg; [|destruct Hr as [-> _]; simpl; rewrite H0; by vm_compute].
    destruct Hr as (_ & Hn & Htake & _ & Hl & _).
    assert (Z.of_nat (length txt) < PSCH_MAX_CACHED_QUERY_LEN) as Hs.
    { destruct Hmax as [(m & Hinv & _)|(Hnone & _)]; [by eapply spec_get_short|].
      exfalso. revert Hg. unfold cache_abs. by rewrite Hnone. }
    unfold PSCH_MAX_CACHED_QUERY_LEN, PSCH_MAX_QUERY_LEN in *.
    assert (r.2 = Z.of_nat (length txt)) as Hn' by lia. rewrite Hn' in *.
    rewrite Nat2Z.id, (take_ge txt) in Htake by done. simpl. split_and!; (done || lia). }
  split; [destruct Hok; constructor; simpl; eauto|]. split; [apply quiet_modify|].
  split; [|split; [done|by repeat eexists]]. split; [|by split; [|rewrite <- Hq]].
  destruct Hp. by constructor.
Qed.

(** What the base of an event says. *)
Record based (b : Backend) (ts : Z) (top : bool) (cmd : PschCmdType) (f : PschFixed) : Prop := {
  ba_ts : ts_start f = ts;
  ba_db : dbid (identity f) = MyDatabaseId;
  ba_user : userid (identity f) = cur_userid (world b);
  ba_pid : pid (identity f) = MyProcPid;
  ba_top : top_level (identity f) = top;
  ba_cmd : cmd_type (identity f) = cmd }.

Lemma wp_init_base ev b ts top cmd :
  session_ok b → buffers_ok ev →
  wp (InitBaseEvent ev ts top cmd)
    (λ ev' b', settles b b' ∧ event_built ev' ∧ based b ts top cmd (ev_fixed ev') ∧
       err_elevel (ev_fixed ev') = 0 ∧ err_message_len (ev_fixed ev') = 0 ∧ query_len (ev_fixed ev') = 0)
    (settles b) b.
Proof.
  intros Hok [H1 H2]. unfold InitBaseEvent. do 2 wp_step.
  assert (0 < length (err_message ev) ∧ 0 < length (query ev))%nat as [H3 H4]
    by (rewrite H1, H2; vm_compute; lia).
  eapply wp_mono; [| |apply wp_resolve_names; [done|]]; [|done|].
  - intros ev' b' (Hb' & Hp & d & dn & u & un & ->). split; [done|].
    split; [|by repeat constructor]. split; [done|].
    split; [rewrite <- H1; refine (length_blit 0 [0] (err_message ev) _)
           |rewrite <- H2; refine (length_blit 0 [0] (query ev) _)]; simpl; lia.
  - destruct zero_prefix_ok. by constructor.
Qed.

(** Updating fields that are no buffer keeps the prefix well formed. *)
Ltac same_prefix := let H := fresh in intros H; destruct H; by constructor.

Definition statement_duration (q : QueryDesc) (b : Backend) : Z :=
  match totaltime q with
  | Some i => u64 (total_us i)
  | None => u64 (now (world b) - query_start_ts b)
  end.

(** What an event says of an executed statement. *)
Record reports (b : Backend) (q : QueryDesc) (cpu : Z * Z) (ev : PschEvent) : Prop := {
  re_built : event_built ev;
  re_based : based b (query_start_ts b) (current_query_is_top_level b) (ConvertCmdType (operation q))
               (ev_fixed ev);
  re_queryid : queryid (identity (ev_fixed ev)) = qd_queryId q;
  re_rows : rows (ev_fixed ev) = es_processed q;
  re_duration : duration_us (ev_fixed ev) = statement_duration q b;
  re_cpu : (cpu_user_time_us (ev_fixed ev), cpu_sys_time_us (ev_fixed ev)) = cpu;
  re_usage i : totaltime q = Some i → blocks (ev_fixed ev) = bu_blocks (bufusage i) ∧
                                      wal (ev_fixed ev) = walusage i;
  re_no_error : err_elevel (ev_fixed ev) = 0 ∧ err_message_len (ev_fixed ev) = 0;
  re_text : carries_text b (qd_queryId q) ev }.

Lemma carries_text_renamed b b' id ev : renamed b b' → carries_text b' id ev → carries_text b id ev.
Proof. unfold carries_text. by intros [_ ->]. Qed.

Lemma jit_prefix q f : prefix_ok f → prefix_ok (CopyParallelWorkerInfo q (CopyJitInstrumentation q f)).
Proof. unfold CopyJitInstrumentation. destruct (es_jit q); same_prefix. Qed.

Lemma wp_build_query q ev cpu b :
  session_ok b → buffers_ok ev →
  wp (BuildEventFromQueryDesc q ev cpu.1 cpu.2)
    (λ ev' b', session_ok b' ∧ quiet b b' ∧ reports b q cpu ev')
    (λ b', session_ok b' ∧ quiet b b') b.
Proof.
  intros Hok Hbuf. unfold BuildEventFromQueryDesc. do 6 wp_step. wp_step.
  eapply wp_mono; [| |by apply wp_init_base]; [|by intros b' [? [? _]]].
  intros ev1 b1 ([Hok1 Hb1] & [Hp1 Hbuf1] & Hbase & He1 & He2 & Hq1).
  wp_step. set (ev2 := upd_fixed (λ f, CopyParallelWorkerInfo q _) _).
  assert (prefix_ok (ev_fixed ev2) ∧ buffers_ok ev2) as [Hp2 Hbuf2].
  { split; [|by unfold ev2; destruct (totaltime q)]. unfold ev2. apply jit_prefix.
    destruct (totaltime q); revert Hp1; same_prefix. }
  eapply wp_mono; [| |by apply wp_client_context]; [|intros b' [? [? _]]; split; [done|by eapply quiet_trans, H0; destruct Hb1]].
  intros ev3 b2 ([Hok2 Hb2] & Hp3 & a & an & c & cn & ->).
  eapply wp_mono; [| |apply wp_copy_query_text; [done| |]]; [|done| |].
  - intros ev4 b3 (Hok3 & Hq3 & Hbuilt & Htext & buf & n & ->).
    split; [done|]. split; [by eapply quiet_trans, Hq3; eapply quiet_trans; [apply Hb1|apply Hb2]|].
    pose proof (carries_text_renamed _ _ _ _ (transitivity Hb1 Hb2) Htext) as Ht.
    destruct Hbase. clear Htext Hok Hok1 Hok2 Hok3.
    constructor; [exact Hbuilt| | | | | | | |exact Ht]; clear Ht Hbuilt; unfold ev2, CopyJitInstrumentation.
    + constructor; destruct (totaltime q), (es_jit q); assumption.
    + destruct (totaltime q), (es_jit q); reflexivity.
    + destruct (totaltime q), (es_jit q); reflexivity.
    + unfold statement_duration. destruct (totaltime q), (es_jit q); reflexivity.
    + destruct cpu, (totaltime q), (es_jit q); reflexivity.
    + intros i ->. destruct (es_jit q); split; reflexivity.
    + destruct (totaltime q), (es_jit q); split; assumption.
  - by split.
  - unfold ev2, CopyJitInstrumentation. by destruct (totaltime q), (es_jit q).
Qed.

(** What an event says of a utility statement. *)
Record reports_utility (b : Backend) (id ts duration : Z) (top : bool) (nrows : Z) (ev : PschEvent)
    : Prop := {
  ru_built : event_built ev;
  ru_based : based b ts top PSCH_CMD_UTILITY (ev_fixed ev);
  ru_queryid : queryid (identity (ev_fixed ev)) = id;
  ru_rows : rows (ev_fixed ev) = nrows;
  ru_duration : duration_us (ev_fixed ev) = duration;
  ru_no_error : err_elevel (ev_fixed ev) = 0 ∧ err_message_len (ev_fixed ev) = 0;
  ru_text : carries_text b id ev }.

Lemma wp_build_utility ev id ts d top n bu w u v b :
  session_ok b → buffers_ok ev →
  wp (BuildEventForUtility ev id ts d top n bu w u v)
    (λ ev' b', session_ok b' ∧ quiet b b' ∧ reports_utility b id ts d top n ev')
    (λ b', session_ok b' ∧ quiet b b') b.
Proof.
  intros Hok Hbuf. unfold BuildEventForUtility. wp_step.
  eapply wp_mono; [| |by apply wp_init_base]; [|by intros b' [? [? _]]].
  intros ev1 b1 ([Hok1 Hb1] & [Hp1 Hbuf1] & Hbase & He1 & He2 & Hq1).
  wp_step. set (ev2 := upd_fixed _ ev1).
  assert (prefix_ok (ev_fixed ev2) ∧ buffers_ok ev2) as [Hp2 Hbuf2]
    by (split; [revert Hp1; same_prefix|done]).
  eapply wp_mono; [| |by apply wp_client_context];
    [|intros b' [? [? _]]; split; [done|by eapply quiet_trans, H0; destruct Hb1]].
  intros ev3 b2 ([Hok2 Hb2] & Hp3 & a & an & c & cn & ->).
  eapply wp_mono; [| |apply wp_copy_query_text; [done|by split|exact Hq1]]; [|done].
  intros ev4 b3 (Hok3 & Hq3 & Hbuilt & Htext & buf & k & ->).
  split; [done|]. split; [by eapply quiet_trans, Hq3; eapply quiet_trans; [apply Hb1|apply Hb2]|].
  pose proof (carries_text_renamed _ _ _ _ (transitivity Hb1 Hb2) Htext) as Ht.
  destruct Hbase. clear Htext Hok Hok1 Hok2 Hok3.
  constructor; [exact Hbuilt|by constructor|reflexivity..|split; assumption|exact Ht].
Qed.

End build.

(** ** A session of nested statements

    PostgreSQL runs a query through the four executor hooks and another statement
    through the utility hook; while it runs, functions and triggers run further
    statements, some inside a block that catches errors. *)

Inductive Stmt :=
  | Query (q : QueryDesc) (after : World → World) (fails : bool) (inner : list Stmt)
  | Utility (kind : UtilityStmt) (id : Z) (done : option QueryCompletion * Z) (after : World → World)
      (fails : bool) (inner : list Stmt)
  | Block (inner : list Stmt).

(** Induction that reaches the inner statements. *)
Section Stmt_rect.
Context (P : Stmt → Prop).
Context (HQ : ∀ q w f l, Forall P l → P (Query q w f l)).
Context (HU : ∀ k i d w f l, Forall P l → P (Utility k i d w f l)).
Context (HB : ∀ l, Forall P l → P (Block l)).

Fixpoint Stmt_nested_ind (s : Stmt) : P s :=
  let fix all (l : list Stmt) : Forall P l :=
    match l with
    | [] => Forall_nil_2 P
    | x :: r => Forall_cons_2 P x r (Stmt_nested_ind x) (all r)
    end in
  match s with
  | Query q w f l => HQ q w f l (all l)
  | Utility k i d w f l => HU k i d w f l (all l)
  | Block l => HB l (all l)
  end.
End Stmt_rect.

Section session.
Context {E : Env} {CE : CacheEnv} {HE : HookEnv}.
(** The variables on the stack of the hooks. *)
Context (stack : PschEvent) (stack_ru : Rusage).

(** Instrumentation is filled in where it was set up. *)
Definition finished (q : QueryDesc) (started : QueryDesc) : QueryDesc :=
  match totaltime started with Some _ => q | None => q <| totaltime := None |> end.

Definition work {A} (l : M Backend unit) (after : World → World) (fails : bool) (x : A) : M Backend A :=
  _ ← l;
  _ ← modify (λ b, b <| world ::= after |>);
  if fails then raise else mret x.

Fixpoint exec (s : Stmt) : M Backend unit :=
  match s with
  | Query q after fails inner =>
    started ← PschExecutorStart (mret (q <| totaltime := None |>));
    _ ← PschExecutorRun (work (for_each exec inner) after fails tt);
    _ ← PschExecutorFinish (mret tt);
    PschExecutorEnd (mret tt) stack (finished q started)
  | Utility kind id done after fails inner =>
    PschProcessUtility (work (for_each exec inner) after fails done) stack stack_ru kind id
  | Block inner => swallow (for_each exec inner)
  end.

End session.

(** ** Computations that relate the session before to the session after

    [kept R m]: whatever the exit, [m] takes a session to one related to it. *)
Definition kept (R : relation Backend) {A} (m : M Backend A) : Prop := ∀ b, R b (m b).2.

Section kept.
Context (R : relation Backend) `{!PreOrder R}.

Lemma kept_ret {A} (x : A) : kept R (mret x).
Proof. by intros b. Qed.
Lemma kept_raise {A} : kept R (raise (A := A)).
Proof. by intros b. Qed.
Lemma kept_gets {A} (f : Backend → A) : kept R (gets f).
Proof. by intros b. Qed.
Lemma kept_may_raise {A} (r : option A) : kept R (may_raise r).
Proof. by intros b. Qed.
Lemma kept_modify (f : Backend → Backend) : (∀ b, R b (f b)) → kept R (modify f).
Proof. intros H b. apply H. Qed.
Lemma kept_bind {A B} (m : M Backend A) (k : A → M Backend B) :
  kept R m → (∀ a, kept R (k a)) → kept R (m ≫= k).
Proof.
  intros Hm Hk b. unfold mbind, M_bind. specialize (Hm b). destruct (m b) as [[a|] b']; simpl in *; [|done].
  etrans; [done|apply Hk].
Qed.
Lemma kept_swallow m : kept R m → kept R (swallow m).
Proof. intros Hm b. unfold swallow. specialize (Hm b). by destruct (m b). Qed.
Lemma kept_for_each {A} (f : A → M Backend unit) l :
  Forall (λ x, kept R (f x)) l → kept R (for_each f l).
Proof. induction 1; simpl; [apply kept_ret|]. apply kept_bind; [done|by intros _]. Qed.
Lemma kept_finally {A} (body : M Backend A) fin : kept R body → kept R fin → kept R (pg_finally body fin).
Proof.
  intros Hb Hf b. unfold pg_finally. specialize (Hb b). destruct (body b) as [[a|] b1]; simpl in Hb;
    specialize (Hf b1); destruct (fin b1) as [[u|] b2]; simpl in *; by etrans.
Qed.
Lemma kept_wp {A} (m : M Backend A) : (∀ b, wp m (λ _ b', R b b') (λ b', R b b') b) → kept R m.
Proof. intros H b. specialize (H b). unfold wp in H. by destruct (m b) as [[a|] b']. Qed.
End kept.

(** The nesting level afterwards is the one before. *)
Definition same_level : relation Backend := λ b b', nesting_level b' = nesting_level b.
#[export] Instance same_level_preorder : PreOrder same_level.
Proof. split; [by intros b|]. unfold same_level. intros b1 b2 b3. congruence. Qed.
Abbreviation level_kept := (kept same_level).

Lemma kept_on_sys {A} (m : M Sys A) : level_kept (on_sys m).
Proof. intros b. unfold on_sys. by destruct (m _). Qed.
Lemma kept_on_cache {A} (m : M Cache A) : level_kept (on_cache m).
Proof. intros b. unfold on_cache. by destruct (m _). Qed.

(** The level raised for the body is lowered again on both exits. *)
Lemma kept_nested {A} (body : M Backend A) : level_kept body → level_kept (nested body).
Proof.
  intros Hb b. unfold nested, mbind, M_bind, modify, pg_finally. simpl.
  specialize (Hb (b <| nesting_level ::= Z.succ |>)). unfold same_level in *. simpl in Hb.
  destruct (body _) as [[a|] b']; simpl in *; lia.
Qed.

Ltac kept :=
  repeat first
    [ apply (kept_ret same_level) | apply (kept_raise same_level) | apply (kept_gets same_level)
    | apply kept_on_sys | apply kept_on_cache
    | apply (kept_may_raise same_level) | assumption
    | apply (kept_bind same_level); [|intros ?]
    | apply (kept_modify same_level); intros ?; unfold same_level; first [done | repeat case_match; done]
    | progress case_match ].

Section levels.
Context {E : Env} {CE : CacheEnv} {HE : HookEnv}.

Lemma kept_sample d : level_kept (ShouldSampleEvent d).
Proof. unfold ShouldSampleEvent, pg_prng_double. kept. Qed.

Lemma kept_ensure : level_kept EnsureBackendCache.
Proof. unfold EnsureBackendCache, CacheUsername. kept. Qed.

Lemma kept_base ev ts top cmd : level_kept (InitBaseEvent ev ts top cmd).
Proof. unfold InitBaseEvent, ResolveNames. pose proof kept_ensure. kept. Qed.

Lemma kept_client ev : level_kept (CopyClientContext ev).
Proof. unfold CopyClientContext. pose proof kept_ensure. kept. Qed.

Lemma kept_enqueue ev : level_kept (enqueue ev).
Proof. unfold enqueue. kept. Qed.

Lemma kept_build_query q ev u s : level_kept (BuildEventFromQueryDesc q ev u s).
Proof.
  unfold BuildEventFromQueryDesc, CopyQueryText.
  repeat (apply (kept_bind same_level); [apply (kept_gets same_level) || apply kept_base || apply kept_client || kept|intros ?]). kept.
Qed.

Lemma kept_build_utility ev id ts d top n bu w u s :
  level_kept (BuildEventForUtility ev id ts d top n bu w u s).
Proof.
  unfold BuildEventForUtility, CopyQueryText.
  repeat (apply (kept_bind same_level); [apply (kept_gets same_level) || apply kept_base || apply kept_client || kept|intros ?]). kept.
Qed.

Lemma kept_start m : level_kept m → level_kept (PschExecutorStart m).
Proof.
  intros Hm. unfold PschExecutorStart. destruct IsParallelWorker; [done|].
  apply (kept_bind same_level); [kept|intros level]. apply (kept_bind same_level); [|intros _; kept].
  destruct (level =? 0); apply (kept_modify same_level); intros b; [|done].
  destruct psch_enabled; [|done]. simpl. by destruct (rusage_now (world b)).
Qed.

Lemma kept_end m stack q : level_kept m → level_kept (PschExecutorEnd m stack q).
Proof.
  intros Hm. unfold PschExecutorEnd. destruct (_ || _); [done|].
  repeat (apply (kept_bind same_level); [apply (kept_gets same_level)|intros ?]). apply (kept_bind same_level); [apply kept_sample|intros sample].
  destruct (negb sample); [done|].
  repeat (apply (kept_bind same_level); [apply (kept_gets same_level) || apply kept_build_query || apply kept_enqueue|intros ?]). done.
Qed.

Lemma kept_utility m stack ru kind id : level_kept m → level_kept (PschProcessUtility m stack ru kind id).
Proof.
  intros Hm. unfold PschProcessUtility. destruct (negb _); [kept|].
  repeat (apply (kept_bind same_level); [apply (kept_gets same_level)|intros ?]).
  apply (kept_bind same_level); [by apply kept_nested|intros done]. apply (kept_bind same_level); [apply kept_sample|intros sample].
  destruct (negb sample); [kept|].
  repeat (apply (kept_bind same_level); [apply (kept_gets same_level) || apply kept_build_utility || apply kept_enqueue|intros ?]).
  kept.
Qed.

Lemma kept_work {A} l after fails (x : A) : level_kept l → level_kept (work l after fails x).
Proof. intros Hl. unfold work. kept. Qed.

(** Whatever a session runs, statements nested to any depth, errors on any of
    them and blocks that catch errors, the nesting level afterwards is the level
    before, on the normal exit and on the error exit alike. So the next statement of
    the session is taken for top level exactly when it is. *)
Theorem nesting_level_restored stack ru (s : Stmt) (b : Backend) :
  nesting_level (exec stack ru s b).2 = nesting_level b.
Proof.
  revert b.
  change (level_kept (exec stack ru s)).
  induction s as [q w f l Hl|k i d w f l Hl|l Hl] using Stmt_nested_ind; simpl.
  - apply (kept_for_each same_level) in Hl. apply (kept_bind same_level); [apply kept_start, (kept_ret same_level)|intros q'].
    unfold PschExecutorRun, PschExecutorFinish.
    repeat (apply (kept_bind same_level); [destruct IsParallelWorker; [|apply kept_nested]; (apply (kept_ret same_level) || by apply kept_work)|intros _]).
    apply kept_end, (kept_ret same_level).
  - apply (kept_for_each same_level) in Hl. by apply kept_utility, kept_work.
  - apply (kept_swallow same_level), (kept_for_each same_level), Hl.
Qed.

End levels.

(** ** SQLSTATE *)

(** PostgreSQL's [MAKE_SQLSTATE]: five characters, six bits each. *)
Definition PGSIXBIT (c : Z) : Z := Z.land (c - 48) 63.
Fixpoint MAKE_SQLSTATE (cs : bytes) : Z :=
  match cs with
  | [] => 0
  | c :: rest => PGSIXBIT c + Z.shiftl (MAKE_SQLSTATE rest) 6
  end.

Lemma unpack_make cs :
  Forall (λ c, 48 ≤ c ≤ 111) cs → unpack (length cs) (MAKE_SQLSTATE cs) = cs ∧ 0 ≤ MAKE_SQLSTATE cs.
Proof.
  induction 1 as [|c cs Hc Hcs [IH Hpos]]; [done|]. simpl. unfold PGSIXBIT at 1 2 3.
  assert (∀ x, Z.land x 63 = x mod 64) as Hland by (intros x; apply (land_mask x 6); lia).
  rewrite Z.shiftl_mul_pow2, Z.shiftr_div_pow2, Hland by lia. change (2 ^ 6) with 64.
  rewrite (Z.mod_small (c - 48)) by lia. rewrite Z.div_add, Z.div_small by lia.
  rewrite Z.add_0_l, IH. split; [|lia]. f_equal. unfold PGUNSIXBIT.
  rewrite Hland, Z.mod_add, Z.mod_small by lia. unfold u8. rewrite Z.mod_small; lia.
Qed.

(** Unpacking a SQLSTATE gives back the five characters it was made of,
    NUL-terminated. *)
Theorem sqlstate_roundtrip (cs : bytes) (Hlen : length cs = 5%nat)
  (Hcs : Forall (λ c, 48 ≤ c ≤ 111) cs) : UnpackSqlState (MAKE_SQLSTATE cs) = cs ++ [0].
Proof. unfold UnpackSqlState. rewrite <- Hlen. by rewrite (proj1 (unpack_make cs Hcs)). Qed.

Lemma sqlstate_roundtrip_witness :
  MAKE_SQLSTATE (bytes_of_string "22012") = 33816706 ∧
  UnpackSqlState (MAKE_SQLSTATE (bytes_of_string "22012")) = bytes_of_string "22012" ++ [0].
Proof.
  split; [vm_compute; reflexivity|].
  apply (sqlstate_roundtrip (bytes_of_string "22012")); [reflexivity|].
  repeat constructor; vm_compute; congruence.
Defined.

End HookThms.
