(* ===== verification/SessionThms.v ===== *)
(** Sessions against the queue: what reaches it from the hooks, the report of a
    statement, sampling, and log capture. *)

From Stdlib Require Import QArith.
From S2P Require Import Prelude Event StringUtils Shared Dsa Intern Ring LocalBatch InternInv RingInv RingSpec QueueSpec QueueThms NormalizeCache Normalize Hooks HookThms.
Import Event StringUtils Shared Ring LocalBatch RingInv RingSpec QueueSpec QueueThms NormalizeCache
  Normalize Hooks HookThms.
#[local] Open Scope Z_scope.

Module SessionThms.

(** ** The session's invariant *)

(** The queue is intact, this process holds no lock, and its batch holds events
    the queue can take. *)
Definition queue_ready {E : Env} (s : Sys) : Prop :=
  (∃ st m, ring_inv s st m) ∧ batch_inv s ∧ lock_held s = false.

Record session_inv {E : Env} {CE : CacheEnv} (b : Backend) : Prop := {
  si_session : session_ok b;
  si_queue : queue_ready (b_sys b);
  si_events : Forall event_built (emitted b) }.

Lemma event_built_ok ev : event_built ev → event_ok ev.
Proof.
  intros [[] [H1 H2]]. unfold event_ok, is_u16, PSCH_MAX_ERR_MSG_LEN, PSCH_MAX_QUERY_LEN in *.
  split_and!; (done || lia).
Qed.

Section inv.
Context {E : Env} {L : EnvLaws E} {CE : CacheEnv} {HE : HookEnv}.
Context (stack : PschEvent) (stack_ru : Rusage) (Hstack : buffers_ok stack).

Definition stays_ok : relation Backend := λ b b', session_inv b → session_inv b'.

#[export] Instance stays_ok_preorder : PreOrder stays_ok.
Proof. split; [intros b H; exact H|]. intros b1 b2 b3 H1 H2 H. apply H2, H1, H. Qed.

(** Handing the queue an event the hooks built keeps the queue intact. *)
Lemma wp_enqueue_ready ev s :
  event_built ev → queue_ready s → wp (PschEnqueueEvent ev) (λ _ s', queue_ready s') queue_ready s.
Proof.
  intros Hev ((st & m & Hinv) & Hb & Hl). destruct psch_enabled eqn:Hen.
  - eapply wp_mono; [| |eapply (wp_enqueue_event (E := E)); [done|done|by apply event_built_ok|done|done]].
    + intros ok s' (st' & acc & drops & Ho & Hb' & _). split; [exists st'; apply Ho|].
      split; [done|]. by rewrite (oc_lock _ _ _ _ _ _ Ho).
    + intros s' (_ & st' & acc & drops & Ho & Hb'). split; [exists st'; apply Ho|].
      split; [done|]. by rewrite (oc_lock _ _ _ _ _ _ Ho).
  - unfold PschEnqueueEvent, shared_is_null. do 2 wp_step. rewrite Hen, orb_true_r. wp_step.
    split; [by exists st, m|done].
Qed.

Lemma wp_on_sys {A} (m : M Sys A) (Q : A → Backend → Prop) R b :
  wp m (λ a s, Q a (b <| b_sys := s |>)) (λ s, R (b <| b_sys := s |>)) (b_sys b) → wp (on_sys m) Q R b.
Proof. unfold wp, on_sys. by destruct (m _) as [[a|] s]. Qed.

Lemma wp_enqueue_built ev b :
  session_inv b → event_built ev →
  wp (enqueue ev) (λ _ b', session_inv b' ∧ emitted b' = emitted b ++ [ev])
    (λ b', session_inv b' ∧ emitted b' = emitted b ++ [ev]) b.
Proof.
  intros [Hs Hq He] Hev. unfold enqueue. do 2 wp_step. apply wp_on_sys.
  assert (∀ s', queue_ready s' → session_inv ((b <| emitted ::= λ l, l ++ [ev] |>) <| b_sys := s' |>)) as H.
  { intros s' Hs'. constructor; [|done|].
    - by destruct Hs.
    - simpl. apply Forall_app. split; [exact He|]. by apply Forall_singleton. }
  eapply wp_mono; [| |by apply wp_enqueue_ready]; simpl; [intros _ s' Hs'|intros s' Hs'];
    (split; [by apply H|done]).
Qed.

(** What building an event does keeps the invariant. *)
Lemma quiet_inv b b' : session_inv b → session_ok b' → quiet b b' → session_inv b'.
Proof. intros [Hs Hq He] Hok Hb. rewrite Hb. constructor; [by rewrite <- Hb|done|done]. Qed.

Lemma sampled_inv d b : session_inv b → session_inv (ShouldSampleEvent d b).2.
Proof.
  intros [Hs Hq He].
  assert (∀ b', backend_state b' = backend_state b → b_sys b' = b_sys b → emitted b' = emitted b →
    session_inv b') as H.
  { intros b' H1 H2 H3. constructor; [|by rewrite H2|by rewrite H3].
    destruct Hs. constructor; by rewrite H1. }
  unfold ShouldSampleEvent. repeat case_match; apply H; reflexivity.
Qed.

(** A change of the session's own counters and of the world. *)
Lemma frame_inv b b' :
  backend_state b' = backend_state b → b_sys b' = b_sys b → emitted b' = emitted b →
  session_inv b → session_inv b'.
Proof.
  intros H1 H2 H3 [Hs Hq He]. constructor; [|by rewrite H2|by rewrite H3].
  destruct Hs. constructor; by rewrite H1.
Qed.

Lemma kept_frame (f : Backend → Backend) :
  (∀ b, backend_state (f b) = backend_state b) → (∀ b, b_sys (f b) = b_sys b) →
  (∀ b, emitted (f b) = emitted b) → kept stays_ok (modify f).
Proof. intros H1 H2 H3 b. exact (frame_inv b (f b) (H1 b) (H2 b) (H3 b)). Qed.

Lemma kept_stays {A} (m : M Backend A) :
  (∀ b, session_inv b → wp m (λ _ b', session_inv b') session_inv b) → kept stays_ok m.
Proof. intros H b Hb. specialize (H b Hb). unfold wp in H. by destruct (m b) as [[a|] b']. Qed.

Lemma inv_sample d : kept stays_ok (ShouldSampleEvent d).
Proof. intros b Hb. by apply sampled_inv. Qed.

Lemma inv_report {A} (build : M Backend PschEvent) (k : bool → M Backend A) :
  (∀ b, session_inv b → wp build (λ ev b', session_inv b' ∧ event_built ev) session_inv b) →
  (∀ r, kept stays_ok (k r)) → kept stays_ok (ev ← build; r ← enqueue ev; k r).
Proof.
  intros Hb Hk. apply kept_stays. intros b Hi. wp_step.
  eapply wp_mono; [| |by apply Hb]; [|done]. intros ev b1 [Hi1 Hev]. wp_step.
  eapply wp_mono; [| |by apply wp_enqueue_built]; [|by intros ? [? _]].
  intros r b2 [Hi2 _]. specialize (Hk r b2 Hi2). unfold wp. by destruct (k r b2) as [[a|] b3].
Qed.

Lemma inv_nested {A} (body : M Backend A) : kept stays_ok body → kept stays_ok (nested body).
Proof.
  intros Hb. unfold nested. apply (kept_bind stays_ok); [by apply kept_frame|intros _].
  apply (kept_finally stays_ok); [done|by apply kept_frame].
Qed.

Lemma inv_start m : kept stays_ok m → kept stays_ok (PschExecutorStart m).
Proof.
  intros Hm. unfold PschExecutorStart. destruct IsParallelWorker; [done|].
  apply (kept_bind stays_ok); [apply (kept_gets stays_ok)|intros level].
  apply (kept_bind stays_ok); [|intros _].
  - destruct (level =? 0); apply kept_frame; intros b; try done;
      destruct psch_enabled; try done; simpl; by destruct (rusage_now (world b)).
  - apply (kept_bind stays_ok); [done|intros q]. repeat case_match; apply (kept_ret stays_ok).
Qed.

Lemma inv_end m q : kept stays_ok m → kept stays_ok (PschExecutorEnd m stack q).
Proof.
  intros Hm. unfold PschExecutorEnd. destruct (_ || _); [done|].
  repeat (apply (kept_bind stays_ok); [apply (kept_gets stays_ok)|intros ?]).
  apply (kept_bind stays_ok); [apply inv_sample|intros sample].
  destruct (negb sample); [done|].
  apply (kept_bind stays_ok); [apply (kept_gets stays_ok)|intros cpu].
  apply inv_report; [|done]. intros b Hb.
  eapply wp_mono; [| |apply wp_build_query; [apply Hb|done]].
  - intros ev b' (Hok & Hq & Hr). split; [by eapply quiet_inv|by destruct Hr].
  - intros b' (Hok & Hq). by eapply quiet_inv.
Qed.

Lemma inv_utility m kind id : kept stays_ok m → kept stays_ok (PschProcessUtility m stack stack_ru kind id).
Proof.
  intros Hm. unfold PschProcessUtility. destruct (negb _).
  { apply (kept_bind stays_ok); [done|intros _; apply (kept_ret stays_ok)]. }
  repeat (apply (kept_bind stays_ok); [apply (kept_gets stays_ok)|intros ?]).
  apply (kept_bind stays_ok); [by apply inv_nested|intros done].
  apply (kept_bind stays_ok); [apply inv_sample|intros sample].
  destruct (negb sample); [apply (kept_ret stays_ok)|].
  repeat (apply (kept_bind stays_ok); [apply (kept_gets stays_ok)|intros ?]).
  apply inv_report; [|intros _; apply (kept_ret stays_ok)]. intros b Hb.
  eapply wp_mono; [| |apply wp_build_utility; [apply Hb|exact Hstack]].
  - intros ev b' (Hok & Hq & Hr). split; [by eapply quiet_inv|by destruct Hr].
  - intros b' (Hok & Hq). by eapply quiet_inv.
Qed.

Lemma inv_work {A} l after fails (x : A) : kept stays_ok l → kept stays_ok (work l after fails x).
Proof.
  intros Hl. unfold work. apply (kept_bind stays_ok); [done|intros _].
  apply (kept_bind stays_ok); [by apply kept_frame|intros _].
  destruct fails; [apply (kept_raise stays_ok)|apply (kept_ret stays_ok)].
Qed.

Lemma inv_exec (s : Stmt) : kept stays_ok (exec stack stack_ru s).
Proof.
  induction s as [q w f l Hl|k i d w f l Hl|l Hl] using Stmt_nested_ind; simpl;
    apply (kept_for_each stays_ok) in Hl.
  - apply (kept_bind stays_ok); [apply inv_start, (kept_ret stays_ok)|intros q'].
    unfold PschExecutorRun, PschExecutorFinish.
    repeat (apply (kept_bind stays_ok);
      [destruct IsParallelWorker; [|apply inv_nested]; (apply (kept_ret stays_ok) || by apply inv_work)
      |intros _]).
    apply inv_end, (kept_ret stays_ok).
  - by apply inv_utility, inv_work.
  - apply (kept_swallow stays_ok), Hl.
Qed.

End inv.

(** ** One statement, start to end *)

Section statement.
Context {E : Env} {L : EnvLaws E} {CE : CacheEnv} {HE : HookEnv}.

(** What the event of a statement run at session [b] says. *)
Record describes (b : Backend) (q : QueryDesc) (ev : PschEvent) : Prop := {
  de_built : event_built ev;
  de_queryid : queryid (identity (ev_fixed ev)) = qd_queryId q;
  de_cmd : cmd_type (identity (ev_fixed ev)) = ConvertCmdType (operation q);
  de_top : top_level (identity (ev_fixed ev)) = (nesting_level b =? 0);
  de_start : nesting_level b = 0 → ts_start (ev_fixed ev) = now (world b);
  de_duration i : totaltime q = Some i → duration_us (ev_fixed ev) = u64 (total_us i);
  de_rows : rows (ev_fixed ev) = es_processed q;
  de_no_error : err_elevel (ev_fixed ev) = 0 ∧ err_message_len (ev_fixed ev) = 0;
  de_text : carries_text b (qd_queryId q) ev }.

(** The session while the statement is executed. *)
Definition running (b b1 : Backend) : Prop :=
  backend_state b1 = backend_state b ∧ b_sys b1 = b_sys b ∧ emitted b1 = emitted b ∧
  current_query_is_top_level b1 = (nesting_level b =? 0) ∧
  (nesting_level b = 0 → query_start_ts b1 = now (world b)).

Lemma wp_start q (Q : QueryDesc → Backend → Prop) R b :
  psch_enabled = true → IsParallelWorker = false → qd_queryId q ≠ 0 →
  (∀ q' b1, running b b1 → finished q q' = q → Q q' b1) →
  wp (PschExecutorStart (mret (q <| totaltime := None |>))) Q R b.
Proof.
  intros Hen Hpar Hid HQ. unfold PschExecutorStart. rewrite Hen, Hpar. do 2 wp_step. wp_step.
  assert (∀ b1, running b b1 → wp (q' ← mret (q <| totaltime := None |>);
    if true && negb (qd_queryId q' =? 0) then
      match totaltime q' with
      | None => mret (q' <| totaltime := Some {| total_us := 0; bufusage :=
                  {| bu_blocks := Build_PschBlocks 0 0 0 0 0 0 0 0 0 0; bu_shared_read := 0;
                     bu_shared_write := 0; bu_local_read := 0; bu_local_write := 0; bu_temp_read := 0;
                     bu_temp_write := 0 |}; walusage := Build_PschWal 0 0 0 |} |>)
      | Some _ => mret q'
      end
    else mret q') Q R b1) as Hrest.
  { intros b1 Hb1. do 2 wp_step. simpl. rewrite (proj2 (Z.eqb_neq _ _) Hid). simpl. wp_step.
    by apply HQ. }
  destruct (Z.eqb_spec (nesting_level b) 0) as [H0|H0]; wp_step; apply Hrest;
    unfold running; rewrite ?(proj2 (Z.eqb_eq _ _) H0), ?(proj2 (Z.eqb_neq _ _) H0).
  - destruct (rusage_now _); by split_and!.
  - by split_and!.
Qed.

Lemma wp_nested {A} (body : M Backend A) (Q : A → Backend → Prop) R b :
  wp body (λ a b', Q a (b' <| nesting_level ::= Z.pred |>)) (λ b', R (b' <| nesting_level ::= Z.pred |>))
    (b <| nesting_level ::= Z.succ |>) →
  wp (nested body) Q R b.
Proof. intros H. unfold nested. do 2 wp_step. by apply wp_finally. Qed.

Lemma wp_run_leaf after b b1 (Q : unit → Backend → Prop) R :
  IsParallelWorker = false → running b b1 → (∀ b2, running b b2 → Q tt b2) →
  wp (_ ← PschExecutorRun (work (mret tt) after false tt); PschExecutorFinish (mret tt)) Q R b1.
Proof.
  intros Hpar Hb1 HQ. unfold PschExecutorRun, PschExecutorFinish, work. rewrite Hpar. wp_step.
  apply wp_nested. wp_run. apply wp_nested. wp_step. by apply HQ.
Qed.

Lemma reports_describes b b2 q cpu ev : running b b2 → reports b2 q cpu ev → describes b q ev.
Proof.
  intros (H1 & H2 & H3 & H4 & H5) [Hbuilt [] ? ? Hd ? ? ? Ht].
  constructor; try done; try congruence.
  - intros Hl. rewrite <- (H5 Hl). done.
  - intros i Hi. rewrite Hd. unfold statement_duration. by rewrite Hi.
  - unfold carries_text in *. by rewrite H1 in Ht.
Qed.

(** With a minimum duration of 0, its default, every statement is captured and no
    random number is drawn, whatever the sample rate. *)
Lemma sample_all d b : psch_min_duration_us = 0 → 0 ≤ d → ShouldSampleEvent d b = (Some true, b).
Proof.
  intros Hmin Hd. unfold ShouldSampleEvent. rewrite Hmin. destruct (Qle_bool 1 psch_sample_rate); [done|].
  change (u64 0) with 0. by rewrite (proj2 (Z.leb_le 0 d) Hd).
Qed.

Lemma wp_end_leaf stack q b b2 :
  psch_enabled = true → IsParallelWorker = false → qd_queryId q ≠ 0 → psch_min_duration_us = 0 →
  buffers_ok stack → session_inv b → running b b2 →
  wp (PschExecutorEnd (mret tt) stack q)
    (λ _ b', ∃ ev, emitted b' = emitted b ++ [ev] ∧ describes b q ev)
    (λ b', emitted b' = emitted b ∨ ∃ ev, emitted b' = emitted b ++ [ev] ∧ describes b q ev) b2.
Proof.
  intros Hen Hpar Hid Hmin Hstack Hinv Hrun. pose proof Hrun as (H1 & H2 & H3 & _).
  assert (session_inv b2) as Hinv2 by (by eapply frame_inv).
  unfold PschExecutorEnd. rewrite Hen, Hpar, (proj2 (Z.eqb_neq _ _) Hid). simpl. do 4 wp_step. wp_step.
  set (d := match totaltime q with Some i => _ | None => _ end).
  assert (0 ≤ d) as Hd by (unfold d; destruct (totaltime q); apply u64_range).
  unfold wp at 1. rewrite (sample_all d b2 Hmin Hd). simpl. do 3 wp_step.
  eapply wp_mono; [| |apply wp_build_query; [apply Hinv2|done]].
  - intros ev b3 (Hok & Hq & Hr). wp_step.
    pose proof (reports_describes _ _ _ _ _ Hrun Hr) as Hdesc.
    assert (emitted b3 = emitted b) as He by (rewrite Hq; done).
    eapply wp_mono; [| |apply wp_enqueue_built; [by eapply quiet_inv|by destruct Hr]].
    + intros _ b4 [_ He4]. wp_step. exists ev. by rewrite <- He.
    + intros b4 [_ He4]. right. exists ev. by rewrite <- He.
  - intros b3 (Hok & Hq). left. by rewrite Hq.
Qed.

Lemma wp_statement stack ru (q : QueryDesc) after (b : Backend) :
  psch_enabled = true → IsParallelWorker = false → psch_min_duration_us = 0 → qd_queryId q ≠ 0 →
  buffers_ok stack → session_inv b →
  wp (exec stack ru (Query q after false []))
    (λ _ b', ∃ ev, emitted b' = emitted b ++ [ev] ∧ describes b q ev)
    (λ b', emitted b' = emitted b ∨ ∃ ev, emitted b' = emitted b ++ [ev] ∧ describes b q ev) b.
Proof.
  intros Hen Hpar Hmin Hid Hstack Hb.
  simpl. wp_step. apply wp_start; [done..|]. intros q' b1 Hb1 Hfin. rewrite Hfin.
  assert (∀ X Y : M Backend unit, ∀ Z' : M Backend unit, ∀ Q R,
    wp (_ ← (_ ← X; Y); Z') Q R b1 → wp (_ ← X; _ ← Y; Z') Q R b1) as Hassoc.
  { intros X Y Z' Q R. unfold wp, mbind, M_bind. by destruct (X b1) as [[x|] c]. }
  apply Hassoc. wp_step. eapply wp_run_leaf; [done..|]. intros b2 Hb2. by apply wp_end_leaf.
Qed.

(** *** The text the analysis hook caches *)

Definition has_constants (j : option JumbleState) : bool :=
  match j with Some j => 0 <? Z.of_nat (length (clocations j)) | None => false end.

(** A statement text the hook can work on: one whose constants the lexer finds,
    or one without constants and without NUL. *)
Definition analyzable (txt : bytes) (loc n : Z) (j : option JumbleState) : Prop :=
  match j with
  | Some j' => if has_constants j then normalizable core_lexer txt loc n j'
               else 0 < n ≤ Z.of_nat (length txt) ∧ Forall (λ c, c ≠ 0) txt
  | None => 0 < n ≤ Z.of_nat (length txt) ∧ Forall (λ c, c ≠ 0) txt
  end.

(** The text a statement is to be reported with: constants replaced by
    placeholders, or else the trimmed statement. *)
Definition reported_text (txt : bytes) (loc n : Z) (j : option JumbleState) : bytes :=
  match j with
  | Some j' => if has_constants j
               then render txt 0 (1 + highest_extern_param_id j') n (replaced_spans core_lexer txt loc j')
               else trim (take (Z.to_nat n) txt)
  | None => trim (take (Z.to_nat n) txt)
  end.

Lemma clamp_take (t : bytes) : take (Z.to_nat (ClampCachedQueryLen (Z.of_nat (length t)))) t = take 2047 t.
Proof.
  unfold ClampCachedQueryLen, PSCH_MAX_CACHED_QUERY_LEN. case_match; [done|].
  rewrite Nat2Z.id, firstn_all. symmetry. apply take_ge. lia.
Qed.

(** The cache holds [t] for [id], cut to what an event can carry. *)
Definition caches (id : Z) (t : bytes) (b : Backend) : Prop :=
  ∃ l, spec_get id (cache_abs (normalize_cache (backend_state b))) = Some (take 2047 t, l).

Lemma wp_remember_text id buf t b (Q : unit → Backend → Prop) (R : Backend → Prop) :
  session_inv b → id ≠ 0 → take (length t) buf = t →
  (∀ b', session_inv b' → caches id t b' → emitted b' = emitted b → Q tt b') →
  (∀ b', emitted b' = emitted b → R b') →
  wp (on_cache (PschRememberNormalizedQuery id (Some buf) (Z.of_nat (length t)))) Q R b.
Proof.
  intros Hinv Hid Hbuf HQ HR. destruct (so_cache _ (si_session _ Hinv)) as [max Hmax]. apply wp_on_cache.
  assert (length t ≤ length buf)%nat as Hlen by (rewrite <- Hbuf, length_take; lia).
  eapply (wp_remember max); [done|done|lia| |].
  - intros c' m' Hi Hm Habs. apply HQ; [| |done].
    + destruct Hinv as [Hs Hq He]. constructor; [|done|done].
      destruct Hs. constructor; try done. exists max. left. eauto.
    + unfold caches. simpl. rewrite Habs. unfold spec_put, spec_get.
      simpl. rewrite decide_True by done. eexists. f_equal. f_equal. simpl. rewrite <- clamp_take.
      set (k := Z.to_nat _). assert (k ≤ length t)%nat.
      { unfold k, ClampCachedQueryLen, PSCH_MAX_CACHED_QUERY_LEN. case_match; lia. }
      transitivity (take k (take (length t) buf)); [|by rewrite Hbuf]. rewrite take_take. f_equal. lia.
  - intros c' _. by apply HR.
Qed.

Lemma wp_analyze src sloc slen txt loc n id j b (Q : unit → Backend → Prop) (R : Backend → Prop) :
  psch_enabled = true → IsParallelWorker = false → id ≠ 0 → session_inv b →
  CleanQuerytext src sloc slen = (txt, loc, n) → analyzable txt loc n j →
  (∀ b', session_inv b' → caches id (reported_text txt loc n j) b' → emitted b' = emitted b → Q tt b') →
  (∀ b', emitted b' = emitted b → R b') →
  wp (PschPostParseAnalyze None src sloc slen id j) Q R b.
Proof.
  intros Hen Hpar Hid Hinv Hclean Han HQ HR. unfold PschPostParseAnalyze. do 2 wp_step.
  rewrite Hen, Hpar, (proj2 (Z.eqb_neq _ _) Hid), Hclean. simpl orb. cbv iota.
  assert (0 < n ≤ Z.of_nat (length txt) ∧ Forall (λ c, c ≠ 0) txt →
    reported_text txt loc n j = trim (take (Z.to_nat n) txt) →
    wp match PschCopyTrimmedStatement (Some txt) n with
       | Some text => on_cache (PschRememberNormalizedQuery id (Some text) (strlen text))
       | None => mret tt
       end Q R b) as Hplain.
  { intros [Hn Hnul] Heq. rewrite (copy_trimmed_statement_eq _ _ Hn). rewrite Heq in HQ.
    set (t := trim _) in *. assert (strlen (t ++ [0]) = Z.of_nat (length t)) as ->.
    { unfold strlen. rewrite cstr_app_nul; [done|]. unfold t, trim.
      apply trim_right_Forall, drop_while_Forall, Forall_take, Hnul. }
    eapply (wp_remember_text id (t ++ [0]) t); try done. by rewrite take_app_length. }
  destruct j as [j|]; [|by apply Hplain]. unfold analyzable in Han. simpl in Han.
  unfold reported_text in HQ, Hplain. simpl in HQ, Hplain.
  destruct (0 <? Z.of_nat (length (clocations j))); [|by apply Hplain].
  rewrite (normalize_render _ _ _ _ _ Han). eapply wp_remember_text; try done. apply firstn_all.
Qed.

End statement.

(** ** Log capture *)

Section capture.
Context {E : Env} {L : EnvLaws E} {CE : CacheEnv} {HE : HookEnv}.

(** What the event of a log message says. *)
Record captures (ed : ErrorData) (b : Backend) (ev : PschEvent) : Prop := {
  ca_built : event_built ev;
  ca_level : err_elevel (ev_fixed ev) = u8 (elevel ed);
  ca_state : err_sqlstate (ev_fixed ev) = UnpackSqlState (sqlerrcode ed);
  ca_top : top_level (identity (ev_fixed ev)) = (nesting_level b =? 0);
  ca_no_query : query_len (ev_fixed ev) = 0;
  ca_message msg : message ed = Some msg →
    cstr (err_message ev) = trim_right (take 2047 (drop_while isspace (cstr msg))) ∧
    err_message_len (ev_fixed ev) = strlen (err_message ev) }.

Lemma wp_swallow (m : M Backend unit) (Q : unit → Backend → Prop) R b :
  wp m (λ _ b', Q tt b') (Q tt) b → wp (swallow m) Q R b.
Proof. unfold wp, swallow. by destruct (m b) as [[a|] b']. Qed.

(** The message in the event's buffer. *)
Lemma message_fits ev msg :
  event_built ev →
  let '(buf, n) := PschCopyTrimmed (err_message ev) PSCH_MAX_ERR_MSG_LEN (Some msg) in
  length buf = Z.to_nat PSCH_MAX_ERR_MSG_LEN ∧ u16 n = n ∧ 0 ≤ n < PSCH_MAX_ERR_MSG_LEN ∧
  n = strlen buf ∧ cstr buf = trim_right (take 2047 (drop_while isspace (cstr msg))).
Proof.
  intros [_ [Hl _]].
  assert (0 < PSCH_MAX_ERR_MSG_LEN ≤ Z.of_nat (length (err_message ev))) as Hs
    by (rewrite Hl; unfold PSCH_MAX_ERR_MSG_LEN; lia).
  pose proof (copy_trimmed_fills (err_message ev) msg PSCH_MAX_ERR_MSG_LEN Hs) as H.
  destruct (PschCopyTrimmed _ _ _) as [buf n]. destruct H as (Hb & Hc & Hn & Hlt).
  pose proof (strlen_nonneg buf). rewrite Hl in Hb.
  split_and!; [done| |lia|done|done|done].
  apply u16_small. unfold is_u16, PSCH_MAX_ERR_MSG_LEN in *. lia.
Qed.

Lemma wp_capture stack ed b :
  session_inv b → buffers_ok stack →
  let Q := λ b', session_inv b' ∧ (emitted b' = emitted b ∨ ∃ ev, emitted b' = emitted b ++ [ev] ∧ captures ed b ev) in
  wp (CaptureLogEvent stack ed)
    (λ _ b', session_inv b' ∧ ∃ ev, emitted b' = emitted b ++ [ev] ∧ captures ed b ev) Q b.
Proof.
  intros Hinv Hstack Q. unfold CaptureLogEvent. do 4 wp_step. wp_step.
  assert (∀ b', settles b b' → Q b') as HQ.
  { intros b' [Hok [Hq _]]. split; [by eapply quiet_inv|]. left. by rewrite Hq. }
  eapply wp_mono; [|exact HQ|apply wp_init_base; [apply Hinv|done]].
  intros ev1 b1 ([Hok1 Hb1] & [Hp1 Hbuf1] & Hbase & He1 & He2 & Hq1). wp_step.
  set (ev2 := match message ed with Some _ => _ | None => _ end).
  assert (captures ed b ev2) as Hc.
  { unfold ev2. destruct (message ed) as [msg|] eqn:Hm.
    - set (ev1' := upd_fixed _ ev1).
      assert (event_built ev1') as Hb' by (split; [destruct Hp1; by constructor|exact Hbuf1]).
      pose proof (message_fits ev1' msg Hb') as H. unfold ev1' in H |- *. clear Hb'.
      destruct (PschCopyTrimmed _ _ _) as [buf n]. destruct H as (H1 & H2 & H3 & H4 & H5).
      destruct Hbase. constructor; try done.
      + split; [|split; [exact H1|apply Hbuf1]]. destruct Hp1. constructor; try done. simpl. by rewrite H2.
      + intros msg' Heq. rewrite Hm in Heq. injection Heq as <-. split; [exact H5|]. simpl. by rewrite H2.
    - destruct Hbase. constructor; try done; [|by rewrite Hm].
      split; [destruct Hp1; by constructor|done]. }
  pose proof Hc as [[Hp2 Hbuf2] _ _ _ _ _].
  eapply wp_mono; [| |apply wp_client_context; [exact Hok1|exact Hp2]].
  - intros ev3 b2 ([Hok2 Hb2] & Hp3 & a & an & c & cn & ->).
    assert (captures ed b (with_client a an c cn ev2)) as Hc3 by (by destruct Hc; constructor).
    assert (settles b b2) as [_ [Hq2 _]] by (split; [done|by etrans]).
    assert (emitted b2 = emitted b) as He by (by rewrite Hq2).
    wp_step. eapply wp_mono; [| |apply wp_enqueue_built; [by eapply quiet_inv|apply Hc3]].
    + intros _ b3 [Hi3 He3]. wp_step. split; [done|]. eexists. by rewrite <- He.
    + intros b3 [Hi3 He3]. split; [done|]. right. eexists. by rewrite <- He.
  - intros b2 [Hok2 Hb2]. apply HQ. split; [done|by etrans].
Qed.

(** The guards of log capture, as one decision. *)
Definition should_capture (ed : ErrorData) (b : Backend) : bool :=
  system_init b && psch_enabled && negb (disable_error_capture (b_sys b)) &&
  (psch_log_min_elevel <=? elevel ed) && MyProc_set && negb IsParallelWorker &&
  negb (MyDatabaseId =? 0) && IsUnderPostmaster &&
  (if psch_shared_state (b_sys b) then true else false) && negb is_bgworker.

Lemma should_capture_spec ed b : ShouldCaptureLog (Some ed) b = (Some (should_capture ed b), b).
Proof.
  unfold ShouldCaptureLog, should_capture, mbind, M_bind, gets. rewrite Z.leb_antisym.
  destruct (system_init b), psch_enabled, (disable_error_capture (b_sys b)),
    (elevel ed <? psch_log_min_elevel), MyProc_set, IsParallelWorker, (MyDatabaseId =? 0),
    IsUnderPostmaster, (psch_shared_state (b_sys b)), is_bgworker; reflexivity.
Qed.

Lemma guard_inv b g : session_inv b → session_inv (b <| b_sys ::= λ s, s <| disable_error_capture := g |> |>).
Proof.
  intros [Hs ((st & m & Hr) & [] & Hl) He]. constructor; [by destruct Hs| |done].
  split; [exists st, m; by destruct Hr|]. by split.
Qed.

End capture.

(** ** A concrete session *)

Definition demo_usage : BufferUsage :=
  {| bu_blocks := Build_PschBlocks 3 1 0 0 0 0 0 0 0 0; bu_shared_read := 40; bu_shared_write := 0;
     bu_local_read := 0; bu_local_write := 0; bu_temp_read := 0; bu_temp_write := 0 |}.

Definition demo_hooks (min : Z) (rate : Q) : HookEnv := {|
  MyDatabaseId := 16384; MyProcPid := 4711;
  get_database_name := λ _, Some (Some (bytes_of_string "shop" ++ [0]));
  GetUserNameFromId := λ _, Some (Some (bytes_of_string "alice" ++ [0]));
  app_name_guc := Some (bytes_of_string " psql " ++ [0]);
  MyProcPort := Some (Some (bytes_of_string "[local]" ++ [0]));
  IsParallelWorker := false; MyProc_set := true; IsUnderPostmaster := true; is_bgworker := false;
  psch_min_duration_us := min; psch_sample_rate := rate; psch_log_min_elevel := 19;
  CleanQuerytext := λ t l n, (t, l, n);
  core_lexer := demo_lexer;
  BufferUsageDiff := λ a _, a; WalUsageDiff := λ a _, a |}.

Definition demo_world : World :=
  {| now := 1000; cur_userid := 10; in_transaction := true;
     rusage_now := Some {| ru_utime := Build_TimeVal 5 0; ru_stime := Build_TimeVal 1 0 |};
     prng := [1#4; 3#4]%Q; pgBufferUsage := demo_usage; pgWalUsage := Build_PschWal 0 0 0 |}.

Definition zero_rusage : Rusage := {| ru_utime := Build_TimeVal 0 0; ru_stime := Build_TimeVal 0 0 |}.

Definition demo_session : Backend :=
  {| b_sys := demo_sys1; nesting_level := 0; current_query_is_top_level := false; query_start_ts := 0;
     rusage_start := zero_rusage; system_init := true;
     backend_state := {| initialized := false; bs_datname := repeat 0 64; bs_datname_len := 0;
       cached_userid := 0; bs_username := repeat 0 64; bs_username_len := 0;
       bs_client_addr := repeat 0 46; bs_client_addr_len := 0; normalize_cache := empty_cache |};
     world := demo_world; emitted := [] |}.

Lemma demo_session_ok : session_ok (CE := roomy) demo_session.
Proof. constructor; try by vm_compute. exists 2. apply fresh_ready. Qed.

Lemma demo_session_inv : session_inv (E := demo1) (CE := roomy) demo_session.
Proof.
  constructor; [exact demo_session_ok| |by constructor].
  split; [exists demo_st1, ∅; exact demo_inv1|]. split; [exact demo_batch1|reflexivity].
Qed.

Lemma zero_event_buffers : buffers_ok zero_event.
Proof. split; by vm_compute. Qed.

Definition demo_query (id : Z) : QueryDesc :=
  {| operation := CMD_SELECT; qd_queryId := id; es_processed := 7;
     totaltime := Some {| total_us := 250; bufusage := demo_usage; walusage := Build_PschWal 0 0 0 |};
     es_jit := None; es_parallel_workers_to_launch := 0; es_parallel_workers_launched := 0 |}.

Definition later (w : World) : World := w <| now ::= Z.add 300 |>.

(** ** Properties *)



(** A top-level statement that runs another one is reported as nested: the
    flag read at the end of the outer statement is the one the inner statement's
    start left behind. *)
Theorem outer_statement_reported_nested :
  map (λ e, (queryid (identity (ev_fixed e)), top_level (identity (ev_fixed e))))
    (emitted (exec (E := demo1) (HE := demo_hooks 0 1) zero_event zero_rusage
      (Query (demo_query 5) later false [Query (demo_query 6) later false []]) demo_session).2)
  = [(6, false); (5, false)].
Proof. vm_compute. reflexivity. Qed.



(** C26: Log capture is safe to run inside error reporting. It never raises, it
    leaves the recursion guard as it found it (also when the capture itself fails),
    it keeps the session and the queue sound, and it hands over at most one event,
    which carries the message's level, SQLSTATE and trimmed text. When the guard is
    set or a precondition is missing it changes nothing, so a report raised during
    the capture is not captured again. *)
Theorem log_capture_guarded {E : Env} {L : EnvLaws E} {CE : CacheEnv} {HE : HookEnv}
  stack (ed : ErrorData) (b : Backend) (Hstack : buffers_ok stack) (Hb : session_inv b) :
  wp (PschEmitLogHook None stack (Some ed))
    (λ _ b', session_inv b' ∧
       disable_error_capture (b_sys b') = disable_error_capture (b_sys b) ∧
       if should_capture ed b
       then emitted b' = emitted b ∨ ∃ ev, emitted b' = emitted b ++ [ev] ∧ captures ed b ev
       else b' = b)
    (λ _, False) b.
Proof.
  unfold PschEmitLogHook. do 2 wp_step. wp_step. unfold wp at 1. rewrite should_capture_spec.
  destruct (should_capture ed b) eqn:Hcap; simpl negb; cbv iota; [|by wp_step].
  assert (disable_error_capture (b_sys b) = false) as Hg.
  { unfold should_capture in Hcap. destruct (disable_error_capture (b_sys b)); [|done].
    by rewrite andb_false_r in Hcap. }
  unfold set_guard. wp_step. wp_step. wp_step. apply wp_swallow.
  set (b0 := b <| b_sys ::= _ |>).
  assert (session_inv b0) as Hb0 by (by apply guard_inv).
  pose proof (wp_capture stack ed b0 Hb0 Hstack) as Hc. cbv zeta in Hc.
  eapply wp_mono; [| |exact Hc].
  - intros _ b1 (Hi & ev & He & Hd). wp_step. split; [by apply guard_inv|]. split; [done|].
    right. exists ev. split; [done|]. by destruct Hd.
  - intros b1 (Hi & He). wp_step. split; [by apply guard_inv|]. split; [done|].
    destruct He as [He|(ev & He & Hd)]; [by left|]. right. exists ev. split; [done|]. by destruct Hd.
Qed.

Definition demo_error : ErrorData :=
  {| elevel := 21; sqlerrcode := 33816706; message := Some (bytes_of_string " division by zero " ++ [0]) |}.

Lemma log_capture_guarded_witness :
  should_capture (E := demo1) (HE := demo_hooks 0 1) demo_error demo_session = true ∧
  ∃ b', PschEmitLogHook (E := demo1) (HE := demo_hooks 0 1) None zero_event (Some demo_error) demo_session
          = (Some tt, b') ∧ disable_error_capture (b_sys b') = false.
Proof.
  split; [vm_compute; reflexivity|].
  destruct (wp_run_spec _ _ _ _ (log_capture_guarded (E := demo1) (CE := roomy) (HE := demo_hooks 0 1)
    zero_event demo_error demo_session zero_event_buffers demo_session_inv)) as (r & b' & Heq & H).
  destruct r as [[]|]; [|destruct H]. exists b'. split; [exact Heq|]. exact (proj1 (proj2 H)).
Defined.

(** [pg_prng_double] draws from the half-open unit interval. *)
Definition unit_draws (b : Backend) : Prop := Forall (λ x, (0 <= x)%Q ∧ (x < 1)%Q) (prng (world b)).
Definition next_draw (b : Backend) : Q := default 0%Q (head (prng (world b))).

(** The sampling decision is the intended one: an event is kept exactly when
    it lasted at least the minimum duration or the random draw falls below the sample
    rate, with rates from 1 on keeping everything and rates up to 0 nothing. It never
    fails and changes at most the generator's state. *)
Theorem sampling_decision {HE : HookEnv} (d : Z) (b : Backend) (Hd : 0 ≤ d) (Hdraws : unit_draws b) :
  ∃ keep b', ShouldSampleEvent d b = (Some keep, b') ∧
    (keep = true ↔ u64 psch_min_duration_us ≤ d ∨ (next_draw b < psch_sample_rate)%Q) ∧
    b' = b <| world := world b' |>.
Proof.
  assert ((0 <= next_draw b)%Q ∧ (next_draw b < 1)%Q) as [H0 H1].
  { unfold next_draw. destruct Hdraws; simpl; [by vm_compute|done]. }
  unfold ShouldSampleEvent. set (r := psch_sample_rate).
  destruct (Qle_bool 1 r) eqn:Hr1, (Qle_bool r 0) eqn:Hr0;
    repeat match goal with
    | H : Qle_bool _ _ = true |- _ => apply Qle_bool_iff in H
    | H : Qle_bool _ _ = false |- _ => rewrite <- not_true_iff_false, Qle_bool_iff in H
    end.
  all: destruct (Z.eqb_spec psch_min_duration_us 0) as [Hm|Hm]; simpl;
    destruct (Z.leb_spec (u64 psch_min_duration_us) d) as [Hle|Hlt].
  all: try (exists true, b; split; [reflexivity|]; split; [|by destruct b]; split; [|done]; intros _;
    first [by left | right; by eapply Qlt_le_trans]).
  all: try (exfalso; apply (Qle_not_lt 1 0); [by apply (Qle_trans _ r)|reflexivity]).
  all: try (exfalso; rewrite Hm in Hlt; change (u64 0) with 0 in Hlt; lia).
  - exists false, b. split; [reflexivity|]. split; [|by destruct b]. split; [done|].
    intros [?|Hdraw]; [lia|]. exfalso. apply (Qlt_not_le _ _ Hdraw). by apply (Qle_trans _ 0).
  - eexists _, _. split; [reflexivity|]. split; [|by destruct b]. fold (next_draw b). fold r.
    destruct (Qle_bool r (next_draw b)) eqn:Hx; simpl.
    + apply Qle_bool_iff in Hx. split; [done|]. intros [?|Hdraw]; [lia|]. by destruct (Qlt_not_le _ _ Hdraw).
    + rewrite <- not_true_iff_false, Qle_bool_iff in Hx. split; [|done]. intros _. right. by apply Qnot_le_lt.
Qed.

Lemma sampling_decision_witness :
  ∃ keep b', ShouldSampleEvent (HE := demo_hooks 1000 (1#2)) 3 demo_session = (Some keep, b') ∧ keep = true.
Proof.
  destruct (sampling_decision (HE := demo_hooks 1000 (1#2)) 3 demo_session ltac:(lia)
    ltac:(repeat constructor; vm_compute; congruence)) as (keep & b' & H & Hk & _).
  exists keep, b'. split; [exact H|]. apply Hk. right. vm_compute. reflexivity.
Defined.



End SessionThms.
