(* ===== verification/Exporter.v ===== *)
(** The exporter front end ([src/src/export/stats_exporter.cc]) and the interface
    it drives ([src/src/export/exporter_interface.h]).

    A computation of the exporter returns, throws a C++ exception or leaves by a
    PostgreSQL error: [C S A] is the state monad of the prelude over [res A], with
    the two failures kept apart, since [try]/[catch] stops the one and
    [PG_TRY]/[PG_CATCH] the other. *)

From stdpp Require Import pretty.
From S2P Require Import Prelude Event Shared Ring.
Import Event Shared Ring.

Module Exporter.

(** ** C++ exceptions *)

Inductive Exn : Set :=
  | bad_alloc
  | std_exception (what : string).

Inductive res (A : Type) : Type :=
  | Ret (a : A)
  | Throw (e : Exn).
Arguments Ret {A} a.
Arguments Throw {A} e.

Definition C (S A : Type) : Type := S → option (res A) * S.

#[global] Instance C_ret {S} : MRet (C S) := λ A x s, (Some (Ret x), s).
#[global] Instance C_bind {S} : MBind (C S) := λ A B f m s,
  match m s with
  | (Some (Ret a), s') => f a s'
  | (Some (Throw e), s') => (Some (Throw e), s')
  | (None, s') => (None, s')
  end.

Definition throw {S A} (e : Exn) : C S A := λ s, (Some (Throw e), s).
Definition lift {S A} (m : M S A) : C S A := λ s,
  match m s with
  | (Some a, s') => (Some (Ret a), s')
  | (None, s') => (None, s')
  end.

(** [try { body } catch (...) { handler }] over the standard exceptions. *)
Definition try_catch {S A} (body : C S A) (handler : Exn → M S A) : M S A := λ s,
  match body s with
  | (Some (Ret a), s') => (Some a, s')
  | (Some (Throw e), s') => handler e s'
  | (None, s') => (None, s')
  end.

Fixpoint c_for_each {S A} (body : A → C S unit) (l : list A) : C S unit :=
  match l with
  | [] => mret tt
  | x :: rest => _ ← body x; c_for_each body rest
  end.

Fixpoint c_map {S A B} (body : A → C S B) (l : list A) : C S (list B) :=
  match l with
  | [] => mret []
  | x :: rest => y ← body x; ys ← c_map body rest; mret (y :: ys)
  end.

(** ** The interface of a back end *)

(** The column factories, by the name of the virtual method. *)
Inductive ColKind : Set :=
  | StatLCString (name : string) | StatLCUInt8 (name : string)
  | StatLCInt16 (name : string) | StatLCInt32 (name : string)
  | StatHCString (name : string) | StatHCInt64 (name : string) | StatHCUInt64 (name : string)
  | StatTimestamp (name : string)
  | DbNameColumn | DbUserColumn | DbDurationColumn | DbOperationColumn | DbQueryTextColumn.

Inductive Value : Type :=
  | VInt (n : Z)
  | VStr (b : bytes).

(** A back end keeps a state [X]. The operations that report failures to the
    shared state return the messages they passed to [PschRecordExportFailure]. *)
Class StatsExporter (X : Type) := {
  IsConnected : X → bool;
  NumConsecutiveFailures : X → Z;
  NumExported : X → Z;
  ResetFailures : X → X;
  EstablishNewConnection : X → res bool * X * list string;
  BeginBatch : X → res unit * X;
  MakeColumn : ColKind → X → res nat * X;
  BeginRow : X → res unit * X * list string;
  Append : nat → Value → X → res unit * X;
  CommitBatch : X → res bool * X * list string;
  SendArrowBatch : bytes → Z → X → res bool * X * list string }.

(** What the front end relies on: the number a back end reports as exported never
    exceeds the rows begun in the batch. [begun n x]: at most [n] rows count. *)
Class StatsExporterLaws (X : Type) {SE : StatsExporter X} := {
  begun : Z → X → Prop;
  begun_bound n x : begun n x → NumExported x ≤ n;
  begun_batch x x' : BeginBatch x = (Ret tt, x') → begun 0 x';
  begun_column k n x i x' : MakeColumn k x = (Ret i, x') → begun n x → begun n x';
  begun_row n x x' msgs : BeginRow x = (Ret tt, x', msgs) → begun n x → begun (n + 1) x';
  begun_append i v n x x' : Append i v x = (Ret tt, x') → begun n x → begun n x';
  begun_commit n x ok x' msgs : CommitBatch x = (Ret ok, x', msgs) → begun n x → begun n x' }.

(** The Arrow batch builder ([src/src/export/arrow_batch.cc]) as the front end
    uses it; [Finish] returns the buffer, if there is one, and its rows. What the
    builder logs is not part of the interface. *)
Class ArrowBatchBuilder (B : Type) := {
  ArrowInit : res (option B);
  ArrowAppend : PschEvent → B → res bool * B;
  ArrowFinish : B → res (option bytes * Z) * B;
  ArrowReset : B → B;
  EstimatedBytes : B → Z;
  NumRows : B → Z }.

(** A builder holds the events appended since it was made or reset; a finished
    block carries them. *)
Class ArrowLaws (B : Type) {AB : ArrowBatchBuilder B} := {
  arrow_holds : list PschEvent → B → Prop;
  arrow_block : list PschEvent → bytes → Prop;
  arrow_estimate : list PschEvent → Z;
  arrow_init b : ArrowInit = Ret (Some b) → arrow_holds [] b;
  arrow_append evs ev b b' :
    arrow_holds evs b → ArrowAppend ev b = (Ret true, b') → arrow_holds (evs ++ [ev]) b';
  arrow_rows evs b :
    arrow_holds evs b → NumRows b = Z.of_nat (length evs) ∧ EstimatedBytes b = arrow_estimate evs;
  arrow_finish evs b data n b' :
    arrow_holds evs b → ArrowFinish b = (Ret (Some data, n), b') →
    n = Z.of_nat (length evs) ∧ arrow_block evs data ∧ arrow_holds [] (ArrowReset b');
  arrow_empty : arrow_estimate [] < 65536 }.

(** Settings, and whether [std::vector::reserve] finds memory. *)
Class ExportEnv := {
  psch_batch_max : Z;
  psch_flush_interval_ms : Z;
  psch_use_otel : bool;
  psch_otel_arrow_passthrough : bool;
  psch_otel_max_block_bytes : Z;
  reserve_ok : Z → bool }.

(** The worker process: shared memory, and [g_exporter.exporter]. *)
Record Worker (X : Type) := { w_sys : Sys; w_exporter : option X }.
Arguments Build_Worker {X} w_sys w_exporter.
Arguments w_sys {X} _.
Arguments w_exporter {X} _.

(** ** Columns *)

Definition kPostgresEpochOffsetUs : Z := 946684800000000.

(** Logs when the length is out of bounds. *)
Definition ClampFieldLen (len max : Z) (field_name : string) : M Sys Z :=
  if len <=? max then mret len
  else
    _ ← ereport_warning ("pg_stat_ch: invalid " ++ field_name ++ " " ++ pretty len ++ ", clamping");
    mret max.

Definition str (buf : bytes) (len : Z) : Value := VStr (take (Z.to_nat len) buf).

(** The columns of a row, in the order in which they are declared and appended. *)
Definition export_columns : list (ColKind * (PschEvent → M Sys Value)) :=
  let int k f := (k, λ ev : PschEvent, mret (VInt (f (ev_fixed ev)))) in
  let i64col name f := int (StatHCInt64 name) f in
  let i32col name f := int (StatLCInt32 name) f in
  [ int (StatTimestamp "ts") (λ f, i64 (ts_start f + kPostgresEpochOffsetUs));
    int DbDurationColumn duration_us;
    (DbNameColumn, λ ev, mret (str (datname (identity (ev_fixed ev))) (datname_len (identity (ev_fixed ev)))));
    (DbUserColumn, λ ev, mret (str (username (identity (ev_fixed ev))) (username_len (identity (ev_fixed ev)))));
    i32col "pid" (λ f, pid (identity f));
    i64col "query_id" (λ f, i64 (queryid (identity f)));
    (DbOperationColumn, λ ev, mret (VStr (bytes_of_string (PschCmdTypeToString (cmd_type (identity (ev_fixed ev)))))));
    int (StatHCUInt64 "rows") rows;
    (DbQueryTextColumn, λ ev, qlen ← ClampFieldLen (query_len (ev_fixed ev)) (u16 PSCH_MAX_QUERY_LEN) "query_len";
                              mret (str (query ev) qlen));
    i64col "shared_blks_hit" (λ f, shared_blks_hit (blocks f));
    i64col "shared_blks_read" (λ f, shared_blks_read (blocks f));
    i64col "shared_blks_dirtied" (λ f, shared_blks_dirtied (blocks f));
    i64col "shared_blks_written" (λ f, shared_blks_written (blocks f));
    i64col "local_blks_hit" (λ f, local_blks_hit (blocks f));
    i64col "local_blks_read" (λ f, local_blks_read (blocks f));
    i64col "local_blks_dirtied" (λ f, local_blks_dirtied (blocks f));
    i64col "local_blks_written" (λ f, local_blks_written (blocks f));
    i64col "temp_blks_read" (λ f, temp_blks_read (blocks f));
    i64col "temp_blks_written" (λ f, temp_blks_written (blocks f));
    i64col "shared_blk_read_time_us" (λ f, shared_blk_read_time_us (io_timing f));
    i64col "shared_blk_write_time_us" (λ f, shared_blk_write_time_us (io_timing f));
    i64col "local_blk_read_time_us" (λ f, local_blk_read_time_us (io_timing f));
    i64col "local_blk_write_time_us" (λ f, local_blk_write_time_us (io_timing f));
    i64col "temp_blk_read_time_us" (λ f, temp_blk_read_time_us (io_timing f));
    i64col "temp_blk_write_time_us" (λ f, temp_blk_write_time_us (io_timing f));
    i64col "wal_records" (λ f, wal_records (wal f));
    i64col "wal_fpi" (λ f, wal_fpi (wal f));
    int (StatHCUInt64 "wal_bytes") (λ f, wal_bytes (wal f));
    i64col "cpu_user_time_us" cpu_user_time_us;
    i64col "cpu_sys_time_us" cpu_sys_time_us;
    i32col "jit_functions" (λ f, jit_functions (jit f));
    i32col "jit_generation_time_us" (λ f, jit_generation_time_us (jit f));
    i32col "jit_deform_time_us" (λ f, jit_deform_time_us (jit f));
    i32col "jit_inlining_time_us" (λ f, jit_inlining_time_us (jit f));
    i32col "jit_optimization_time_us" (λ f, jit_optimization_time_us (jit f));
    i32col "jit_emission_time_us" (λ f, jit_emission_time_us (jit f));
    int (StatLCInt16 "parallel_workers_planned") parallel_workers_planned;
    int (StatLCInt16 "parallel_workers_launched") parallel_workers_launched;
    (StatLCString "err_sqlstate", λ ev, mret (VStr (cstr (take 5 (err_sqlstate (ev_fixed ev))))));
    int (StatLCUInt8 "err_elevel") err_elevel;
    (StatHCString "err_message", λ ev, elen ← ClampFieldLen (err_message_len (ev_fixed ev)) (u16 PSCH_MAX_ERR_MSG_LEN) "err_message_len";
                                 mret (str (err_message ev) elen));
    (* both lengths are clamped before the two strings are appended *)
    (StatLCString "app", λ ev, alen ← ClampFieldLen (application_name_len (ev_fixed ev)) (u8 PSCH_MAX_APP_NAME_LEN) "app_name_len";
                         _ ← ClampFieldLen (client_addr_len (ev_fixed ev)) (u8 PSCH_MAX_CLIENT_ADDR_LEN) "client_addr_len";
                         mret (str (application_name (ev_fixed ev)) alen));
    (StatHCString "client_addr", λ ev, mret (str (client_addr (ev_fixed ev))
                                   (Z.min (client_addr_len (ev_fixed ev)) (u8 PSCH_MAX_CLIENT_ADDR_LEN)))) ].

(** ** Operations *)

Section Exporter.
Context {E : Env} {X : Type} {SE : StatsExporter X} {B : Type} {AB : ArrowBatchBuilder B} {EE : ExportEnv}.
#[local] Abbreviation W := (Worker X).

Definition on_wsys {A} (m : M Sys A) : M W A := λ w,
  let '(r, s) := m (w_sys w) in (r, Build_Worker s (w_exporter w)).

(** A virtual call through the exporter pointer; a null pointer is a crash. *)
Definition call {A} (f : X → res A * X) : C W A := λ w,
  match w_exporter w with
  | None => (None, w)
  | Some x => let '(r, x') := f x in (Some r, Build_Worker (w_sys w) (Some x'))
  end.
Definition query_exporter {A} (f : X → A) : C W A := call (λ x, (Ret (f x), x)).

Definition LogExporterWarning (context message : string) : M W unit :=
  on_wsys (ereport_warning ("pg_stat_ch: " ++ context ++ ": " ++ message)).
Definition RecordExporterFailure (message : string) : M W unit :=
  on_wsys (PschRecordExportFailure (Some (bytes_of_string message ++ [0]))).

(** A virtual call that may report failures. *)
Definition call_reporting {A} (f : X → res A * X * list string) : C W A := λ w,
  match w_exporter w with
  | None => (None, w)
  | Some x =>
    let '(r, x', msgs) := f x in
    match for_each RecordExporterFailure msgs (Build_Worker (w_sys w) (Some x')) with
    | (Some _, w') => (Some r, w')
    | (None, w') => (None, w')
    end
  end.

(** The loop of [DequeueEvents]: at most [n] more events; [event] is the one
    buffer all of them pass through. *)
Fixpoint DequeueLoop (n : nat) (event : PschEvent) : M Sys (list PschEvent) :=
  match n with
  | O => mret []
  | S n =>
    r ← PschDequeueEvent event;
    if r.1 : bool then rest ← DequeueLoop n r.2; mret (r.2 :: rest) else mret []
  end.

(** [stack] is the uninitialised event on the stack. *)
Definition DequeueEvents (stack : PschEvent) (max_events : Z) : C W (list PschEvent) :=
  if reserve_ok max_events then lift (on_wsys (DequeueLoop (Z.to_nat max_events) stack))
  else throw bad_alloc.

(** Appends one event as a row; [cols] are the handles with their values. *)
Definition append_row (cols : list (nat * (PschEvent → M Sys Value))) (ev : PschEvent) : C W unit :=
  _ ← call_reporting BeginRow;
  c_for_each (λ col, v ← lift (on_wsys (col.2 ev)); call (Append col.1 v)) cols.

Definition ExportEventStatsInternal (events : list PschEvent) : C W unit :=
  _ ← call BeginBatch;
  handles ← c_map (λ col, call (MakeColumn (fst col))) export_columns;
  c_for_each (append_row (zip handles (map snd export_columns))) events.

(** The two [catch] clauses the entry points share. *)
Definition report_exception {A} (context oom_context oom_failure : string) (x : A) (e : Exn) : M W A :=
  match e with
  | bad_alloc =>
    _ ← LogExporterWarning oom_context "out of memory";
    _ ← RecordExporterFailure oom_failure;
    mret x
  | std_exception what =>
    _ ← LogExporterWarning context what;
    _ ← RecordExporterFailure what;
    mret x
  end.

Definition ExportEventStats (events : list PschEvent) : M W bool :=
  try_catch (_ ← ExportEventStatsInternal events; mret true)
    (report_exception "event stats exception" "event stats export" "event stats OOM" false).

(** [pg_atomic_fetch_add_u64(&psch_shared_state->exported, n)] *)
Definition add_exported (n : Z) : M W unit :=
  on_wsys (null ← shared_is_null;
           if null : bool then mret tt else wr (λ st, st <| exported ::= λ m, u64 (m + n) |>)).

(** *** The Arrow path *)

(** The loop's variables: the builder, what was sent, whether it failed. *)
Record ArrowRun := { ar_builder : B; ar_total : Z; ar_failed : bool }.

(** [flush_builder]; writing the debug dump changes nothing here. *)
Definition flush_builder (r : ArrowRun) : C W (bool * ArrowRun) :=
  match ArrowFinish (ar_builder r) with
  | (Throw e, _) => throw e
  | (Ret (buf, num_rows), b) =>
    let r := {| ar_builder := b; ar_total := ar_total r; ar_failed := ar_failed r |} in
    match buf with
    | None => mret (false, r)
    | Some data =>
      if num_rows <=? 0 then mret (false, r)
      else
        sent ← call_reporting (SendArrowBatch data num_rows);
        if sent : bool
        then mret (true, {| ar_builder := b; ar_total := ar_total r + num_rows; ar_failed := ar_failed r |})
        else mret (false, r)
    end
  end.

Definition arrow_failed (r : ArrowRun) : ArrowRun :=
  {| ar_builder := ar_builder r; ar_total := ar_total r; ar_failed := true |}.

Fixpoint arrow_loop (max_block_bytes : Z) (events : list PschEvent) (r : ArrowRun) : C W ArrowRun :=
  match events with
  | [] => mret r
  | event :: rest =>
    match ArrowAppend event (ar_builder r) with
    | (Throw e, _) => throw e
    | (Ret false, b) => mret {| ar_builder := b; ar_total := ar_total r; ar_failed := true |}
    | (Ret true, b) =>
      let r := {| ar_builder := b; ar_total := ar_total r; ar_failed := ar_failed r |} in
      if max_block_bytes <=? EstimatedBytes b then
        f ← flush_builder r;
        if f.1 : bool
        then arrow_loop max_block_bytes rest
               {| ar_builder := ArrowReset (ar_builder f.2); ar_total := ar_total f.2;
                  ar_failed := ar_failed f.2 |}
        else mret (arrow_failed f.2)
      else arrow_loop max_block_bytes rest r
    end
  end.

Definition ExportEventsAsArrowInternal (events : list PschEvent) : C W Z :=
  match ArrowInit with
  | Throw e => throw e
  | Ret None =>
    _ ← lift (LogExporterWarning "Arrow init" "failed to initialize Arrow batch builder");
    _ ← lift (RecordExporterFailure "Arrow batch builder init failed");
    mret 0
  | Ret (Some b) =>
    let max_block_bytes := Z.max 65536 (u64 psch_otel_max_block_bytes) in
    r ← arrow_loop max_block_bytes events {| ar_builder := b; ar_total := 0; ar_failed := false |};
    r ← (if negb (ar_failed r) && (0 <? NumRows (ar_builder r)) then
           f ← flush_builder r;
           mret (if f.1 : bool then f.2 else arrow_failed f.2)
         else mret r);
    _ ← (if ar_failed r then lift (RecordExporterFailure "Arrow batch build/send failed") else mret tt);
    _ ← (if negb (ar_failed r) && (0 <? ar_total r) then
           _ ← lift (add_exported (ar_total r));
           lift (on_wsys PschRecordExportSuccess)
         else mret tt);
    mret (ar_total r)
  end.

Definition ExportEventsAsArrow (events : list PschEvent) : M W Z :=
  try_catch (ExportEventsAsArrowInternal events)
    (report_exception "Arrow export exception" "Arrow export" "Arrow export OOM" 0).

(** *** Entry points *)

Definition PschExportBatch (stack : PschEvent) : M W Z :=
  try_catch
    (connected ← query_exporter IsConnected;
     established ← (if connected : bool then mret true else call_reporting EstablishNewConnection);
     if negb established then
       _ ← lift (RecordExporterFailure "Failed to connect to exporter backend");
       mret 0
     else
       events ← DequeueEvents stack psch_batch_max;
       if bool_decide (events = []) then mret 0
       else if psch_use_otel && psch_otel_arrow_passthrough then lift (ExportEventsAsArrow events)
       else
         ok ← lift (ExportEventStats events);
         if negb ok then mret 0
         else
           committed ← call_reporting CommitBatch;
           _ ← (if committed : bool then
                  n ← query_exporter NumExported;
                  _ ← lift (add_exported n);
                  lift (on_wsys PschRecordExportSuccess)
                else mret tt);
           query_exporter NumExported)
    (report_exception "export batch exception" "export batch" "export batch OOM" 0).

(** [made] is what the factory of the configured back end constructs; the [FATAL]
    reports on an exception end the process. *)
Definition PschExporterInit (made : res X) : M W bool := λ w,
  match made with
  | Throw _ => (None, w)
  | Ret x =>
    match call_reporting EstablishNewConnection (Build_Worker (w_sys w) (Some x)) with
    | (Some (Ret ok), w') => (Some ok, w')
    | (Some (Throw _), w') => (None, w')
    | (None, w') => (None, w')
    end
  end.

Definition PschExporterShutdown : M W unit := λ w, (Some tt, Build_Worker (w_sys w) None).

Definition PschResetRetryState : M W unit := λ w,
  (Some tt, Build_Worker (w_sys w) (ResetFailures <$> w_exporter w)).

Definition kBaseDelayMs : Z := 1000.
Definition kMaxDelayMs : Z := 60000.
Definition kMaxConsecutiveFailures : Z := 10.

(** The delay after a number of failures, in [int] arithmetic. *)
Definition retry_delay (failures : Z) : Z :=
  if failures <=? 0 then 0
  else
    let capped_failures := if kMaxConsecutiveFailures <? failures then kMaxConsecutiveFailures else failures in
    let delay := i32 (kBaseDelayMs * i32 (Z.shiftl 1 (capped_failures - 1))) in
    if kMaxDelayMs <? delay then kMaxDelayMs else delay.

Definition PschGetRetryDelayMs : M W Z :=
  gets (λ w, match w_exporter w with
             | None => 0
             | Some x => retry_delay (NumConsecutiveFailures x)
             end).

Definition PschGetConsecutiveFailures : M W Z :=
  gets (λ w, match w_exporter w with Some x => NumConsecutiveFailures x | None => 0 end).

End Exporter.

End Exporter.
