(* ===== verification/Diagnostics.v ===== *)
(** Diagnostics of the exporter ([src/src/export/stats_exporter.cc]): the dump of
    Arrow blocks to files, the throttled report of negative values, and the handler of
    uncaught exceptions. *)

From stdpp Require Import gmap pretty.
From S2P Require Import Prelude Exporter.
Import Exporter.

Module Diagnostics.

(** ** Dump files *)

Definition MAXPGPATH : nat := 1024.

(** Files by path. *)
Abbreviation Disk := (gmap bytes bytes).

(** What the calls of the C library do: [stored] bytes of the data are in the file
    after [fclose], whose result is not looked at. *)
Record DumpIO := { fopen_ok : bool; written : nat; stored : nat; rename_ok : bool; remove_ok : bool }.

(** [snprintf] of a path into a buffer of [MAXPGPATH] bytes. *)
Definition dump_path (dir : bytes) (unix_now_ns : Z) (suffix : string) : bytes :=
  take (MAXPGPATH - 1) (cstr dir ++ bytes_of_string ("/arrow_" ++ pretty unix_now_ns ++ suffix)).

Definition remove (io : DumpIO) (path : bytes) (d : Disk) : Disk := if remove_ok io then delete path d else d.

Definition MaybeDumpArrowBatch (io : DumpIO) (dir : option bytes) (now : Z) (data : bytes) (d : Disk)
    : Disk * list string :=
  match dir with
  | None => (d, [])
  | Some dir =>
    if bool_decide (data = []) || bool_decide (cstr dir = []) then (d, [])
    else
      let unix_now_ns := u64 ((now + kPostgresEpochOffsetUs) * 1000) in
      let path := dump_path dir unix_now_ns ".ipc" in
      let tmp_path := dump_path dir unix_now_ns ".ipc.tmp" in
      if negb (fopen_ok io) then (d, ["pg_stat_ch: failed to open Arrow dump file"%string])
      else
        let d := <[tmp_path := take (stored io) data]> d in
        if negb (written io =? length data)%nat then
          (remove io tmp_path d, ["pg_stat_ch: short Arrow dump write"%string])
        else if rename_ok io then
          (match d !! tmp_path with Some f => <[path := f]> (delete tmp_path d) | None => d end, [])
        else (remove io tmp_path d, ["pg_stat_ch: failed to finalize Arrow dump file"%string])
  end.

(** ** Negative values *)

(** The times are nanoseconds of the steady clock; returns whether it logged, and the
    time of the last message. *)
Definition LogNegativeValue (now last_log : Z) : bool * Z :=
  if 1000000000 <? now - last_log then (true, now) else (false, last_log).

Fixpoint log_all (times : list Z) (last_log : Z) : list Z :=
  match times with
  | [] => []
  | now :: rest =>
    let '(logged, last_log) := LogNegativeValue now last_log in
    if logged then now :: log_all rest last_log else log_all rest last_log
  end.

(** ** Uncaught exceptions *)

Inductive Uncaught : Set := NoException | UncaughtStd (e : Exn) | NotStandard.

(** The [FATAL] message. *)
Definition PschTerminateHandler (u : Uncaught) : string :=
  match u with
  | UncaughtStd bad_alloc => "pg_stat_ch: uncaught std::bad_alloc"
  | UncaughtStd (std_exception what) => "pg_stat_ch: uncaught C++ exception: " ++ what
  | NotStandard => "pg_stat_ch: uncaught non-standard C++ exception"
  | NoException => "pg_stat_ch: std::terminate called without an active exception"
  end.

(** ** Lemmas *)

(** Messages about negative values are more than a second apart. *)
Lemma log_all_apart times last_log :
  match log_all times last_log with
  | [] => True
  | t :: _ => last_log + 1000000000 < t
  end.
Proof.
  revert last_log. induction times as [|now times IH]; intros last_log; simpl; [done|].
  unfold LogNegativeValue. destruct (Z.ltb_spec 1000000000 (now - last_log)); [lia|apply IH].
Qed.

Lemma log_all_spaced times last_log i t u :
  log_all times last_log !! i = Some t → log_all times last_log !! S i = Some u → t + 1000000000 < u.
Proof.
  revert last_log i. induction times as [|now times IH]; intros last_log i; simpl; [done|].
  unfold LogNegativeValue. destruct (Z.ltb_spec 1000000000 (now - last_log)); [|apply IH].
  destruct i as [|i]; simpl; [|apply IH]. intros [= <-] Hu. pose proof (log_all_apart times now) as Ha.
  destruct (log_all times now); [done|]. simpl in Hu. injection Hu as ->. lia.
Qed.

Lemma dump_paths_differ dir ns :
  (length (dump_path dir ns ".ipc.tmp") < MAXPGPATH - 1)%nat → dump_path dir ns ".ipc" ≠ dump_path dir ns ".ipc.tmp".
Proof.
  unfold dump_path. intros Hl Heq. rewrite length_take in Hl.
  apply (f_equal length) in Heq. rewrite !length_take in Heq. unfold bytes_of_string in *.
  rewrite !length_app, !length_map in *.
  assert (∀ s t, String.list_ascii_of_string (s ++ t) = String.list_ascii_of_string s ++ String.list_ascii_of_string t) as Happ.
  { induction s as [|a s IH]; intros t; simpl; [done|]. by rewrite <- IH. }
  assert (length (String.list_ascii_of_string ("/arrow_" ++ pretty ns ++ ".ipc.tmp")) =
          4 + length (String.list_ascii_of_string ("/arrow_" ++ pretty ns ++ ".ipc")))%nat as Hlen.
  { rewrite !Happ, !length_app. simpl. lia. }
  lia.
Qed.

(** A dump file appears whole: when [fclose] stores what [fwrite] took and the
    temporary name fits its buffer, the file under the final name is the block or
    what was there before, and no file but those two changes. *)
Lemma dump_is_whole io dir now data d d' msgs
  (Hio : written io = length data → stored io = length data)
  (Hfit : (length (dump_path dir (u64 ((now + kPostgresEpochOffsetUs) * 1000)) ".ipc.tmp") < MAXPGPATH - 1)%nat) :
  MaybeDumpArrowBatch io (Some dir) now data d = (d', msgs) →
  let path := dump_path dir (u64 ((now + kPostgresEpochOffsetUs) * 1000)) ".ipc" in
  let tmp := dump_path dir (u64 ((now + kPostgresEpochOffsetUs) * 1000)) ".ipc.tmp" in
  (d' !! path = d !! path ∨ d' !! path = Some data) ∧ ∀ p, p ≠ path → p ≠ tmp → d' !! p = d !! p.
Proof.
  unfold MaybeDumpArrowBatch. cbv zeta. set (ns := u64 _) in *. pose proof (dump_paths_differ _ _ Hfit) as Hne.
  set (path := dump_path dir ns ".ipc") in *. set (tmp := dump_path dir ns ".ipc.tmp") in *. clearbody path tmp.
  destruct (_ || _); [intros [= <- <-]; auto|]. destruct (fopen_ok io); cbn [negb]; [|intros [= <- <-]; auto].
  destruct (Nat.eqb_spec (written io) (length data)) as [Hw|]; cbn [negb].
  2: { unfold remove. destruct (remove_ok io); intros [= <- <-]; (split; [left|intros p Hp Ht]);
       rewrite ?lookup_delete_ne, ?lookup_insert_ne by done; done. }
  rewrite (Hio Hw), firstn_all. destruct (rename_ok io).
  - rewrite lookup_insert_eq. intros [= <- <-]. split; [right; apply lookup_insert_eq|]. intros p Hp Ht.
    by rewrite lookup_insert_ne, lookup_delete_ne, lookup_insert_ne by done.
  - unfold remove. destruct (remove_ok io); intros [= <- <-]; (split; [left|intros p Hp Ht]);
      rewrite ?lookup_delete_ne, ?lookup_insert_ne by done; done.
Qed.

(** The result of [fclose] is not looked at: when the buffered bytes do not reach the
    file, a cut block gets the final name, and nothing is logged. *)
Lemma dump_may_be_cut :
  let io := {| fopen_ok := true; written := 3; stored := 1; rename_ok := true; remove_ok := true |} in
  MaybeDumpArrowBatch io (Some (bytes_of_string "/tmp")) 0 [1; 2; 3] ∅ =
    ({[dump_path (bytes_of_string "/tmp") 946684800000000000 ".ipc" := [1]]}, []).
Proof. vm_compute. reflexivity. Qed.

End Diagnostics.
