(* ===== verification/Bgworker.v ===== *)
(** The background worker ([src/src/worker/bgworker.c]) and the extension's SQL
    functions ([src/src/pg_stat_ch.c]). *)

From Stdlib Require Import QArith.
From S2P Require Import Prelude Event Shared Dsa Ring Exporter.
Import Event Shared Dsa Ring Exporter.
#[local] Open Scope Z_scope.

Module Bgworker.

(** ** State *)

(** Signals the worker installs a handler for. *)
Inductive Signal : Set := SIGHUP | SIGTERM | SIGUSR1 | SIGUSR2 | SIGPIPE.

Inductive Handler : Set :=
  | SignalHandlerForConfigReload | die | procsignal_sigusr1_handler | HandleFlushSignal | SIG_IGN.

(** The settings the worker reads; a reload of the configuration replaces them. *)
Record Settings := { set_enabled : bool; set_export : ExportEnv }.

(** What [pg_stat_activity] shows. *)
Inductive Activity : Set := NotReported | STATE_RUNNING (what : string) | STATE_IDLE.

(** The worker process. [WaitEventExtensionNew] is the number PostgreSQL gives to a wait
    event of that name, [wait_event_info] what the process last slept on. [incoming] are the signals that will arrive, one group
    for each time the process looks. *)
Record Bgw (X : Type) := {
  g_worker : Worker X;
  settings : Settings;
  config_file : Settings;
  handlers : Signal → option Handler;
  ConfigReloadPending : bool;
  ProcSignalBarrierPending : bool;
  ProcDiePending : bool;
  latch : bool;
  incoming : list (list Signal);
  on_exit : bool;          (** [PschBgworkerShutdown] is registered *)
  activity : Activity;
  WaitEventExtensionNew : string → Z;
  psch_wait_event_main : Z;
  wait_event_info : Z;
  pid_self : Z }.
Arguments g_worker {X} _.
Arguments settings {X} _.
Arguments config_file {X} _.
Arguments handlers {X} _.
Arguments ConfigReloadPending {X} _.
Arguments ProcSignalBarrierPending {X} _.
Arguments ProcDiePending {X} _.
Arguments latch {X} _.
Arguments incoming {X} _.
Arguments on_exit {X} _.
Arguments activity {X} _.
Arguments WaitEventExtensionNew {X} _.
Arguments psch_wait_event_main {X} _.
Arguments wait_event_info {X} _.
Arguments pid_self {X} _.

#[export] Instance Bgw_eta {X} : Eta (Bgw X) := λ b,
  Build_Bgw X (g_worker b) (settings b) (config_file b) (handlers b) (ConfigReloadPending b)
    (ProcSignalBarrierPending b) (ProcDiePending b) (latch b) (incoming b) (on_exit b) (activity b)
    (WaitEventExtensionNew b) (psch_wait_event_main b) (wait_event_info b) (pid_self b).

Section Bgworker.
Context {E : Env} {X : Type} {SE : StatsExporter X} {B : Type} {AB : ArrowBatchBuilder B}.

Definition on_worker {A} (m : M (Worker X) A) : M (Bgw X) A := λ b,
  let '(r, w) := m (g_worker b) in (r, b <| g_worker := w |>).

(** ** Signals *)

Definition SetupSignalHandlers : M (Bgw X) unit :=
  modify (λ b, b <| handlers := λ sig,
    Some match sig with
         | SIGHUP => SignalHandlerForConfigReload
         | SIGTERM => die
         | SIGUSR1 => procsignal_sigusr1_handler
         | SIGUSR2 => HandleFlushSignal
         | SIGPIPE => SIG_IGN
         end |>).

(** What a handler does; all of PostgreSQL's set the latch. *)
Definition run_handler (h : option Handler) (b : Bgw X) : Bgw X :=
  match h with
  | Some SignalHandlerForConfigReload => b <| ConfigReloadPending := true |> <| latch := true |>
  | Some die => b <| ProcDiePending := true |> <| latch := true |>
  | Some procsignal_sigusr1_handler => b <| ProcSignalBarrierPending := true |> <| latch := true |>
  | Some HandleFlushSignal => b <| latch := true |>
  | Some SIG_IGN => b
  | None => b
  end.

(** The signals that arrived since the process last looked. *)
Definition deliver : M (Bgw X) unit :=
  modify (λ b, foldl (λ b sig, run_handler (handlers b sig) b)
                 (b <| incoming := tail (incoming b) |>) (default [] (head (incoming b)))).

Definition HandleConfigReload : M (Bgw X) unit :=
  pending ← gets ConfigReloadPending;
  if pending : bool
  then modify (λ b, b <| ConfigReloadPending := false |> <| settings := config_file b |>)
  else mret tt.

(** [CHECK_FOR_INTERRUPTS] leaves by a [FATAL] error when the process is to die. *)
Definition ProcessPendingSignals : M (Bgw X) unit :=
  _ ← deliver;
  barrier ← gets ProcSignalBarrierPending;
  _ ← (if barrier : bool then modify (λ b, b <| ProcSignalBarrierPending := false |>) else mret tt);
  dying ← gets ProcDiePending;
  _ ← (if dying : bool then raise else mret tt);
  HandleConfigReload.

(** ** Export *)

(** One batch inside [PG_TRY]/[PG_CATCH]: an error counts as nothing exported. *)
Definition export_guarded (stack : PschEvent) : M (Bgw X) Z := λ b,
  match on_worker (PschExportBatch (EE := set_export (settings b)) stack) b with
  | (Some n, b') => (Some n, b')
  | (None, b') =>
    match on_worker (on_wsys (ereport_warning "pg_stat_ch: export error, will retry")) b' with
    | (_, b'') => (Some 0, b'')
    end
  end.

Definition pgstat_report_activity (a : Activity) : M (Bgw X) unit := modify (λ b, b <| activity := a |>).

(** The [for (;;)] of [ExportBatchWithRecovery], at most [fuel] times; whether
    the loop was left by one of its [break]s. *)
Fixpoint drain_loop (fuel : nat) (stack : PschEvent) : M (Bgw X) bool :=
  match fuel with
  | O => mret false
  | S fuel =>
    exported ← export_guarded stack;
    max ← gets (λ b, psch_batch_max (ExportEnv := set_export (settings b)));
    if exported <? max then mret true
    else
      _ ← ProcessPendingSignals;
      enabled ← gets (λ b, set_enabled (settings b));
      if negb enabled then mret true
      else drain_loop fuel stack
  end.

Definition ExportBatchWithRecovery (fuel : nat) (stack : PschEvent) : M (Bgw X) bool :=
  _ ← pgstat_report_activity (STATE_RUNNING "exporting to ClickHouse");
  broke ← drain_loop fuel stack;
  _ ← pgstat_report_activity STATE_IDLE;
  mret broke.

(** As built for PostgreSQL 17 and later. *)
Definition InitializeWaitEvent : M (Bgw X) Z :=
  new ← gets WaitEventExtensionNew;
  mret (new "PgStatChExporter"%string).

Definition CalculateSleepMs : M (Bgw X) Z :=
  sleep_ms ← gets (λ b, psch_flush_interval_ms (ExportEnv := set_export (settings b)));
  failures ← on_worker PschGetConsecutiveFailures;
  if 0 <? failures then
    backoff_ms ← on_worker PschGetRetryDelayMs;
    mret (if sleep_ms <? backoff_ms then backoff_ms else sleep_ms)
  else mret sleep_ms.

(** Returns the time it was ready to sleep. [WaitLatch] lets signals arrive; they
    may cut the sleep. *)
Definition RunExportCycle (wait_event : Z) (fuel : nat) (stack : PschEvent) : M (Bgw X) Z :=
  sleep_ms ← CalculateSleepMs;
  _ ← modify (λ b, b <| wait_event_info := wait_event |>);
  _ ← deliver;
  _ ← modify (λ b, b <| latch := false |>);
  _ ← ProcessPendingSignals;
  enabled ← gets (λ b, set_enabled (settings b));
  _ ← (if enabled : bool then ExportBatchWithRecovery fuel stack else mret true);
  mret sleep_ms.

(** The worker up to its main loop; [made] is what the exporter's factory makes. *)
Definition PschBgworkerStart (made : res X) : M (Bgw X) bool :=
  _ ← SetupSignalHandlers;
  _ ← modify (λ b, b <| on_exit := true |>);
  pid ← gets pid_self;
  _ ← on_worker (on_wsys (PschSetBgworkerPid pid));
  _ ← on_worker (on_wsys PschDsaAttach);
  event ← gets psch_wait_event_main;
  _ ← (if event =? 0 then
         event ← InitializeWaitEvent;
         modify (λ b, b <| psch_wait_event_main := event |>)
       else mret tt);
  _ ← pgstat_report_activity (STATE_RUNNING "initializing ClickHouse exporter");
  connected ← on_worker (PschExporterInit made);
  _ ← pgstat_report_activity STATE_IDLE;
  mret connected.

(** [PschBgworkerMain] with [n] turns of its main loop. *)
Fixpoint run_cycles (n fuel : nat) (stack : PschEvent) : M (Bgw X) unit :=
  match n with
  | O => mret tt
  | S n =>
    wait_event ← gets psch_wait_event_main;
    _ ← RunExportCycle wait_event fuel stack;
    run_cycles n fuel stack
  end.
Definition PschBgworkerMain (made : res X) (n fuel : nat) (stack : PschEvent) : M (Bgw X) unit :=
  _ ← PschBgworkerStart made;
  run_cycles n fuel stack.

Definition PschBgworkerShutdown : M (Bgw X) unit :=
  _ ← on_worker (on_wsys (PschSetBgworkerPid 0));
  on_worker PschExporterShutdown.

(** ** Flush requests from sessions *)

(** What [kill] says. *)
Inductive KillResult : Set := Delivered | ESRCH | OtherErrno.

(** [kill] and, between reading the pid and clearing it, [others], what other
    processes do to the shared state meanwhile. Returns the pid signalled. *)
Definition PschSignalFlush (kill : Z → KillResult) (others : PschSharedState → PschSharedState)
    : M Sys (option Z) :=
  bgworker_pid ← PschGetBgworkerPid;
  if bgworker_pid =? 0 then
    _ ← ereport_warning "pg_stat_ch: background worker not running";
    mret None
  else
    _ ← wr others;
    match kill bgworker_pid with
    | Delivered => mret (Some bgworker_pid)
    | err =>
      _ ← match err with
          | ESRCH =>
            wr (λ st, if Shared.bgworker_pid st =? u32 bgworker_pid then st <| Shared.bgworker_pid := 0 |> else st)
          | _ => mret tt
          end;
      _ ← ereport_warning "pg_stat_ch: failed to signal background worker";
      mret None
    end.

End Bgworker.

(** ** SQL functions *)

(** A column of the result row; [None] is SQL's null. *)
Inductive Datum : Type :=
  | Int64Datum (n : Z) | Int32Datum (n : Z) | TimestampDatum (t : Z) | TextDatum (b : bytes)
  | Float8Datum (q : Q).

(** The percentage is an exact fraction here. *)
Definition usage_pct (size cap : Z) : Q :=
  if 0 <? cap then (100 * size # Z.to_pos cap) else 0.

Definition pg_stat_ch_stats : M Sys (list (option Datum)) :=
  st ← PschGetStats (repeat 0 256) 256;
  mret [ Some (Int64Datum (i64 (s_enqueued st)));
         Some (Int64Datum (i64 (s_dropped st)));
         Some (Int64Datum (i64 (s_exported st)));
         Some (Int64Datum (i64 (s_send_failures st)));
         (if s_last_success_ts st =? 0 then None else Some (TimestampDatum (s_last_success_ts st)));
         (if s_last_error st !!! 0%nat =? 0 then None else Some (TextDatum (cstr (s_last_error st))));
         (if s_last_error_ts st =? 0 then None else Some (TimestampDatum (s_last_error_ts st)));
         Some (Int32Datum (i32 (s_queue_size st)));
         Some (Int32Datum (i32 (s_queue_capacity st)));
         Some (Float8Datum (usage_pct (s_queue_size st) (s_queue_capacity st)));
         Some (Int64Datum (i64 (s_dsa_oom_count st))) ].

Definition pg_stat_ch_reset : M Sys unit := PschResetStats.

Definition pg_stat_ch_flush (kill : Z → KillResult) (others : PschSharedState → PschSharedState)
    : M Sys unit :=
  _ ← PschSignalFlush kill others; mret tt.

End Bgworker.
