(* ===== verification/Arrow.v ===== *)
(** The Arrow batch builder ([src/src/export/arrow_batch.cc]) as an instance of the
    interface the exporter drives.

    A column builder is the list of the values appended to it, under the name of
    the member without its suffix. The Arrow library is a parameter ([ArrowLib]):
    whether a builder takes a value or gives up its array, and the stream the
    writer makes of a record batch. What is logged is left out. *)

From stdpp Require Import pretty.
From S2P Require Import Prelude Event StringUtils Shared Exporter.
Import Event StringUtils Shared Exporter.

Module Arrow.

Definition kFixedBytesPerRow : Z := 512.
Definition kIpcEnvelopeBytes : Z := 1024.

(** ** Extra attributes

    The setting [pg_stat_ch.extra_attributes]: [key:value;key:value]. *)

(** [find]: what precedes the first [c] and, if there is one, what follows it. *)
Fixpoint split_first (c : Z) (l : bytes) : bytes * option bytes :=
  match l with
  | [] => ([], None)
  | x :: rest => if x =? c then ([], Some rest)
                 else let '(before, after) := split_first c rest in (x :: before, after)
  end.

(** [remove_prefix] while the front, [remove_suffix] while the back is a space. *)
Fixpoint remove_prefix_space (l : bytes) : bytes :=
  match l with
  | [] => []
  | c :: rest => if isspace c then remove_prefix_space rest else l
  end.
Definition TrimAsciiWhitespace (input : bytes) : bytes :=
  rev (remove_prefix_space (rev (remove_prefix_space input))).

Definition semicolon : Z := 59.
Definition colon : Z := 58.

Abbreviation Attrs := (gmap bytes bytes).

(** [emplace] leaves an entry that is there alone. *)
Definition emplace (key value : bytes) (attrs : Attrs) : Attrs :=
  match attrs !! key with Some _ => attrs | None => <[key := value]> attrs end.

Definition parse_token (token : bytes) (attrs : Attrs) : Attrs :=
  match split_first colon token with
  | (before, Some after) =>
    let key := TrimAsciiWhitespace before in
    let value := TrimAsciiWhitespace after in
    match key with [] => attrs | _ => emplace key value attrs end
  | (_, None) => attrs
  end.

(** The loop over the tokens, at most [fuel] of them. *)
Fixpoint parse_loop (fuel : nat) (input : bytes) (attrs : Attrs) : Attrs :=
  match fuel, input with
  | S fuel, _ :: _ =>
    match split_first semicolon input with
    | (token, None) => parse_token token attrs
    | (token, Some rest) => parse_loop fuel rest (parse_token token attrs)
    end
  | _, _ => attrs
  end.

(** [raw_attrs] is the C string; each round consumes at least one byte. *)
Definition ParseExtraAttributes (raw_attrs : bytes) : Attrs :=
  parse_loop (length (cstr raw_attrs)) (cstr raw_attrs) ∅.

(** ** The builders *)

Inductive BuilderType : Set :=
  | TimestampBuilder | DictBuilder | StringBuilder | Int32Builder | UInt64Builder | UInt32Builder.

Inductive DataType : Set :=
  | TimestampType | DictionaryUtf8Type | utf8 | int32 | uint64 | uint32.

Inductive FinishKind : Set := FinishArray | FinishDictionaryArray.
Inductive ResetKind : Set := Reset | ResetFull.

(** The members of [Impl], with their C++ types. *)
Definition members : list (string * BuilderType) :=
  [
    ("ts", TimestampBuilder); ("severity", DictBuilder); ("body", StringBuilder);
    ("trace_id", StringBuilder); ("span_id", StringBuilder); ("query_id", DictBuilder);
    ("db_name", DictBuilder); ("db_user", DictBuilder); ("db_operation", DictBuilder);
    ("app", DictBuilder); ("client_addr", DictBuilder); ("query_text", StringBuilder);
    ("pid", StringBuilder); ("err_message", StringBuilder); ("err_sqlstate", DictBuilder);
    ("err_elevel", Int32Builder); ("duration_us", UInt64Builder); ("rows", UInt64Builder);
    ("shared_blks_hit", UInt64Builder); ("shared_blks_read", UInt64Builder);
    ("shared_blks_written", UInt64Builder); ("shared_blks_dirtied", UInt64Builder);
    ("shared_blk_read_time_us", UInt64Builder); ("shared_blk_write_time_us", UInt64Builder);
    ("local_blks_hit", UInt64Builder); ("local_blks_read", UInt64Builder);
    ("local_blks_written", UInt64Builder); ("local_blks_dirtied", UInt64Builder);
    ("local_blk_read_time_us", UInt64Builder); ("local_blk_write_time_us", UInt64Builder);
    ("temp_blks_read", UInt64Builder); ("temp_blks_written", UInt64Builder);
    ("temp_blk_read_time_us", UInt64Builder); ("temp_blk_write_time_us", UInt64Builder);
    ("wal_records", UInt64Builder); ("wal_bytes", UInt64Builder); ("wal_fpi", UInt64Builder);
    ("cpu_user_time_us", UInt64Builder); ("cpu_sys_time_us", UInt64Builder);
    ("jit_functions", UInt64Builder); ("jit_generation_time_us", UInt64Builder);
    ("jit_inlining_time_us", UInt64Builder); ("jit_optimization_time_us", UInt64Builder);
    ("jit_emission_time_us", UInt64Builder); ("jit_deform_time_us", UInt64Builder);
    ("parallel_workers_planned", UInt32Builder); ("parallel_workers_launched", UInt32Builder);
    ("instance_ubid", StringBuilder); ("server_ubid", StringBuilder); ("server_role", DictBuilder);
    ("read_replica_type", DictBuilder); ("region", DictBuilder); ("cell", DictBuilder);
    ("service_version", DictBuilder); ("host_id", StringBuilder); ("pod_name", StringBuilder) ]%string.

Definition schema_fields : list (string * DataType) :=
  [
    ("ts", TimestampType); ("severity", DictionaryUtf8Type); ("body", utf8); ("trace_id", utf8);
    ("span_id", utf8); ("query_id", DictionaryUtf8Type); ("db_name", DictionaryUtf8Type);
    ("db_user", DictionaryUtf8Type); ("db_operation", DictionaryUtf8Type); ("app", DictionaryUtf8Type);
    ("client_addr", DictionaryUtf8Type); ("query_text", utf8); ("pid", utf8); ("err_message", utf8);
    ("err_sqlstate", DictionaryUtf8Type); ("err_elevel", int32); ("duration_us", uint64); ("rows", uint64);
    ("shared_blks_hit", uint64); ("shared_blks_read", uint64); ("shared_blks_written", uint64);
    ("shared_blks_dirtied", uint64); ("shared_blk_read_time_us", uint64);
    ("shared_blk_write_time_us", uint64); ("local_blks_hit", uint64); ("local_blks_read", uint64);
    ("local_blks_written", uint64); ("local_blks_dirtied", uint64); ("local_blk_read_time_us", uint64);
    ("local_blk_write_time_us", uint64); ("temp_blks_read", uint64); ("temp_blks_written", uint64);
    ("temp_blk_read_time_us", uint64); ("temp_blk_write_time_us", uint64); ("wal_records", uint64);
    ("wal_bytes", uint64); ("wal_fpi", uint64); ("cpu_user_time_us", uint64); ("cpu_sys_time_us", uint64);
    ("jit_functions", uint64); ("jit_generation_time_us", uint64); ("jit_inlining_time_us", uint64);
    ("jit_optimization_time_us", uint64); ("jit_emission_time_us", uint64); ("jit_deform_time_us", uint64);
    ("parallel_workers_planned", uint32); ("parallel_workers_launched", uint32); ("instance_ubid", utf8);
    ("server_ubid", utf8); ("server_role", DictionaryUtf8Type); ("read_replica_type", DictionaryUtf8Type);
    ("region", DictionaryUtf8Type); ("cell", DictionaryUtf8Type); ("service_version", DictionaryUtf8Type);
    ("host_id", utf8); ("pod_name", utf8) ]%string.

(** The order in which [Finish] takes the arrays. *)
Definition finish_order : list (string * FinishKind) :=
  [
    ("ts", FinishArray); ("severity", FinishDictionaryArray); ("body", FinishArray);
    ("trace_id", FinishArray); ("span_id", FinishArray); ("query_id", FinishDictionaryArray);
    ("db_name", FinishDictionaryArray); ("db_user", FinishDictionaryArray);
    ("db_operation", FinishDictionaryArray); ("app", FinishDictionaryArray);
    ("client_addr", FinishDictionaryArray); ("query_text", FinishArray); ("pid", FinishArray);
    ("err_message", FinishArray); ("err_sqlstate", FinishDictionaryArray); ("err_elevel", FinishArray);
    ("duration_us", FinishArray); ("rows", FinishArray); ("shared_blks_hit", FinishArray);
    ("shared_blks_read", FinishArray); ("shared_blks_written", FinishArray);
    ("shared_blks_dirtied", FinishArray); ("shared_blk_read_time_us", FinishArray);
    ("shared_blk_write_time_us", FinishArray); ("local_blks_hit", FinishArray);
    ("local_blks_read", FinishArray); ("local_blks_written", FinishArray);
    ("local_blks_dirtied", FinishArray); ("local_blk_read_time_us", FinishArray);
    ("local_blk_write_time_us", FinishArray); ("temp_blks_read", FinishArray);
    ("temp_blks_written", FinishArray); ("temp_blk_read_time_us", FinishArray);
    ("temp_blk_write_time_us", FinishArray); ("wal_records", FinishArray); ("wal_bytes", FinishArray);
    ("wal_fpi", FinishArray); ("cpu_user_time_us", FinishArray); ("cpu_sys_time_us", FinishArray);
    ("jit_functions", FinishArray); ("jit_generation_time_us", FinishArray);
    ("jit_inlining_time_us", FinishArray); ("jit_optimization_time_us", FinishArray);
    ("jit_emission_time_us", FinishArray); ("jit_deform_time_us", FinishArray);
    ("parallel_workers_planned", FinishArray); ("parallel_workers_launched", FinishArray);
    ("instance_ubid", FinishArray); ("server_ubid", FinishArray); ("server_role", FinishDictionaryArray);
    ("read_replica_type", FinishDictionaryArray); ("region", FinishDictionaryArray);
    ("cell", FinishDictionaryArray); ("service_version", FinishDictionaryArray); ("host_id", FinishArray);
    ("pod_name", FinishArray) ]%string.

Definition reset_order : list (string * ResetKind) :=
  [
    ("ts", Reset); ("severity", ResetFull); ("body", Reset); ("trace_id", Reset); ("span_id", Reset);
    ("query_id", ResetFull); ("db_name", ResetFull); ("db_user", ResetFull); ("db_operation", ResetFull);
    ("app", ResetFull); ("client_addr", ResetFull); ("query_text", Reset); ("pid", Reset);
    ("err_message", Reset); ("err_sqlstate", ResetFull); ("err_elevel", Reset); ("duration_us", Reset);
    ("rows", Reset); ("shared_blks_hit", Reset); ("shared_blks_read", Reset);
    ("shared_blks_written", Reset); ("shared_blks_dirtied", Reset); ("shared_blk_read_time_us", Reset);
    ("shared_blk_write_time_us", Reset); ("local_blks_hit", Reset); ("local_blks_read", Reset);
    ("local_blks_written", Reset); ("local_blks_dirtied", Reset); ("local_blk_read_time_us", Reset);
    ("local_blk_write_time_us", Reset); ("temp_blks_read", Reset); ("temp_blks_written", Reset);
    ("temp_blk_read_time_us", Reset); ("temp_blk_write_time_us", Reset); ("wal_records", Reset);
    ("wal_bytes", Reset); ("wal_fpi", Reset); ("cpu_user_time_us", Reset); ("cpu_sys_time_us", Reset);
    ("jit_functions", Reset); ("jit_generation_time_us", Reset); ("jit_inlining_time_us", Reset);
    ("jit_optimization_time_us", Reset); ("jit_emission_time_us", Reset); ("jit_deform_time_us", Reset);
    ("parallel_workers_planned", Reset); ("parallel_workers_launched", Reset); ("instance_ubid", Reset);
    ("server_ubid", Reset); ("server_role", ResetFull); ("read_replica_type", ResetFull);
    ("region", ResetFull); ("cell", ResetFull); ("service_version", ResetFull); ("host_id", Reset);
    ("pod_name", Reset) ]%string.

Record Impl := {
  im_schema : option (list (string * DataType));
  builders : gmap string (list Value);
  extra_attrs : Attrs;
  service_version : bytes;
  num_rows : Z;
  estimated_bytes : Z }.

#[export] Instance Impl_eta : Eta Impl := λ b,
  Build_Impl (im_schema b) (builders b) (extra_attrs b) (service_version b) (num_rows b) (estimated_bytes b).

(** A constructed [Impl]: every builder empty, nothing else set. *)
Definition new_impl : Impl :=
  {| im_schema := None; builders := list_to_map (map (λ m, (m.1, [])) members); extra_attrs := ∅;
     service_version := []; num_rows := 0; estimated_bytes := 0 |}.

Definition ExtraAttr (key : string) (b : Impl) : bytes := default [] (extra_attrs b !! bytes_of_string key).

(** ** Values of a row *)

Definition ClampSignedToUint64 (value : Z) : Z := if value <? 0 then 0 else value.
Definition ClampSignedToUint32 (value : Z) : Z := if value <? 0 then 0 else value.
Definition clamp_len (len max : Z) : Z := if len <=? max then len else max.

(** [std::string_view(buf, len)] *)
Definition string_view (buf : bytes) (len : Z) : bytes := take (Z.to_nat len) buf.

(** [snprintf] of a decimal number into a buffer of [size] bytes. *)
Definition snprintf_decimal (size : nat) (n : Z) : bytes := take (size - 1) (bytes_of_string (pretty n)).

Section row.
Context (ev : PschEvent).

Definition view_db_name : bytes :=
  let i := identity (ev_fixed ev) in string_view (datname i) (clamp_len (datname_len i) (u8 (NAMEDATALEN - 1))).
Definition view_db_user : bytes :=
  let i := identity (ev_fixed ev) in string_view (username i) (clamp_len (username_len i) (u8 (NAMEDATALEN - 1))).
Definition view_app : bytes :=
  let f := ev_fixed ev in
  string_view (application_name f) (clamp_len (application_name_len f) (u8 PSCH_MAX_APP_NAME_LEN)).
Definition view_client_addr : bytes :=
  let f := ev_fixed ev in
  string_view (client_addr f) (clamp_len (client_addr_len f) (u8 PSCH_MAX_CLIENT_ADDR_LEN)).
Definition view_query_text : bytes :=
  string_view (query ev) (clamp_len (query_len (ev_fixed ev)) (u16 PSCH_MAX_QUERY_LEN)).
Definition view_err_message : bytes :=
  string_view (err_message ev) (clamp_len (err_message_len (ev_fixed ev)) (u16 PSCH_MAX_ERR_MSG_LEN)).
Definition view_err_sqlstate : bytes := cstr (take 5 (err_sqlstate (ev_fixed ev))).

Definition queryid_buf : bytes := snprintf_decimal 24 (queryid (identity (ev_fixed ev))).
Definition pid_buf : bytes := snprintf_decimal 12 (pid (identity (ev_fixed ev))).
End row.

(** What [Append] appends to each builder, in its order. *)
Definition row (b : Impl) (ev : PschEvent) : list (string * Value) :=
  let f := ev_fixed ev in
  [
    ("ts", VInt (i64 ((ts_start f + kPostgresEpochOffsetUs) * 1000))); ("severity", VStr []);
    ("body", VStr []); ("trace_id", VStr []); ("span_id", VStr []); ("query_id", VStr (queryid_buf ev));
    ("db_name", VStr (view_db_name ev)); ("db_user", VStr (view_db_user ev));
    ("db_operation", VStr (bytes_of_string (PschCmdTypeToString (cmd_type (identity f)))));
    ("app", VStr (view_app ev)); ("client_addr", VStr (view_client_addr ev));
    ("query_text", VStr (view_query_text ev)); ("pid", VStr (pid_buf ev));
    ("err_message", VStr (view_err_message ev)); ("err_sqlstate", VStr (view_err_sqlstate ev));
    ("err_elevel", VInt (err_elevel f)); ("duration_us", VInt (duration_us f)); ("rows", VInt (rows f));
    ("shared_blks_hit", VInt (ClampSignedToUint64 (shared_blks_hit (blocks f))));
    ("shared_blks_read", VInt (ClampSignedToUint64 (shared_blks_read (blocks f))));
    ("shared_blks_written", VInt (ClampSignedToUint64 (shared_blks_written (blocks f))));
    ("shared_blks_dirtied", VInt (ClampSignedToUint64 (shared_blks_dirtied (blocks f))));
    ("shared_blk_read_time_us", VInt (ClampSignedToUint64 (shared_blk_read_time_us (io_timing f))));
    ("shared_blk_write_time_us", VInt (ClampSignedToUint64 (shared_blk_write_time_us (io_timing f))));
    ("local_blks_hit", VInt (ClampSignedToUint64 (local_blks_hit (blocks f))));
    ("local_blks_read", VInt (ClampSignedToUint64 (local_blks_read (blocks f))));
    ("local_blks_written", VInt (ClampSignedToUint64 (local_blks_written (blocks f))));
    ("local_blks_dirtied", VInt (ClampSignedToUint64 (local_blks_dirtied (blocks f))));
    ("local_blk_read_time_us", VInt (ClampSignedToUint64 (local_blk_read_time_us (io_timing f))));
    ("local_blk_write_time_us", VInt (ClampSignedToUint64 (local_blk_write_time_us (io_timing f))));
    ("temp_blks_read", VInt (ClampSignedToUint64 (temp_blks_read (blocks f))));
    ("temp_blks_written", VInt (ClampSignedToUint64 (temp_blks_written (blocks f))));
    ("temp_blk_read_time_us", VInt (ClampSignedToUint64 (temp_blk_read_time_us (io_timing f))));
    ("temp_blk_write_time_us", VInt (ClampSignedToUint64 (temp_blk_write_time_us (io_timing f))));
    ("wal_records", VInt (ClampSignedToUint64 (wal_records (wal f))));
    ("wal_bytes", VInt (wal_bytes (wal f))); ("wal_fpi", VInt (ClampSignedToUint64 (wal_fpi (wal f))));
    ("cpu_user_time_us", VInt (ClampSignedToUint64 (cpu_user_time_us f)));
    ("cpu_sys_time_us", VInt (ClampSignedToUint64 (cpu_sys_time_us f)));
    ("jit_functions", VInt (ClampSignedToUint64 (jit_functions (jit f))));
    ("jit_generation_time_us", VInt (ClampSignedToUint64 (jit_generation_time_us (jit f))));
    ("jit_inlining_time_us", VInt (ClampSignedToUint64 (jit_inlining_time_us (jit f))));
    ("jit_optimization_time_us", VInt (ClampSignedToUint64 (jit_optimization_time_us (jit f))));
    ("jit_emission_time_us", VInt (ClampSignedToUint64 (jit_emission_time_us (jit f))));
    ("jit_deform_time_us", VInt (ClampSignedToUint64 (jit_deform_time_us (jit f))));
    ("parallel_workers_planned", VInt (ClampSignedToUint32 (parallel_workers_planned f)));
    ("parallel_workers_launched", VInt (ClampSignedToUint32 (parallel_workers_launched f)));
    ("instance_ubid", VStr (ExtraAttr "instance_ubid" b));
    ("server_ubid", VStr (ExtraAttr "server_ubid" b)); ("server_role", VStr (ExtraAttr "server_role" b));
    ("read_replica_type", VStr (ExtraAttr "read_replica_type" b)); ("region", VStr (ExtraAttr "region" b));
    ("cell", VStr (ExtraAttr "cell" b)); ("service_version", VStr (service_version b));
    ("host_id", VStr (ExtraAttr "host_id" b)); ("pod_name", VStr (ExtraAttr "pod_name" b)) ]%string.

Definition blen (l : bytes) : Z := Z.of_nat (length l).

Definition attr_columns : list string :=
  ["instance_ubid"; "server_ubid"; "server_role"; "read_replica_type"; "region"; "cell"; "host_id"; "pod_name"]%string.

(** What a row adds to the estimate. *)
Definition row_bytes (b : Impl) (ev : PschEvent) : Z :=
  kFixedBytesPerRow + blen (view_db_name ev) + blen (view_db_user ev) + blen (view_app ev) +
  blen (view_client_addr ev) + blen (view_query_text ev) + blen (view_err_message ev) +
  blen (view_err_sqlstate ev) + blen (service_version b) +
  foldr (λ key acc, blen (ExtraAttr key b) + acc) 0 attr_columns.

(** ** The library *)

Record RecordBatch := {
  rb_schema : list (string * DataType);
  rb_rows : Z;
  rb_columns : list (list Value) }.

Class ArrowLib := {
  make_impl_ok : bool;                                     (** [std::make_unique] *)
  builder_append : string → list Value → Value → bool;
  builder_finish : string → list Value → bool;
  reserve_columns_ok : bool;
  sink_create_ok : bool;
  codec_create_ok : bool;
  writer_create_ok : bool;
  write_record_batch_ok : RecordBatch → bool;
  writer_close_ok : bool;
  sink_finish : RecordBatch → option bytes;                (** the IPC stream *)
  psch_extra_attributes : option bytes;
  PG_STAT_CH_VERSION : bytes }.

Section Arrow.
Context {AR : ArrowLib}.

(** ** Operations *)

(** [Reset]: every builder is emptied. *)
Definition ResetImpl (b : Impl) : Impl :=
  b <| builders := foldr (λ r bs, <[r.1 := []]> bs) (builders b) reset_order |>
    <| num_rows := 0 |> <| estimated_bytes := kIpcEnvelopeBytes |>.

Definition Init (extra_attrs_input service_version_input : option bytes) (b : Impl) : bool * Impl :=
  let b := b <| service_version := match service_version_input with Some v => cstr v | None => [] end |>
             <| extra_attrs := ParseExtraAttributes (default [] extra_attrs_input) |>
             <| im_schema := Some schema_fields |> in
  (true, ResetImpl b).

(** The [||] chains of [Append]: the first builder that does not take its value
    ends it. *)
Fixpoint append_cells (cells : list (string * Value)) (bs : gmap string (list Value))
    : bool * gmap string (list Value) :=
  match cells with
  | [] => (true, bs)
  | (name, v) :: rest =>
    let col := default [] (bs !! name) in
    if builder_append name col v then append_cells rest (<[name := col ++ [v]]> bs)
    else (false, bs)
  end.

Definition AppendImpl (ev : PschEvent) (b : Impl) : bool * Impl :=
  let '(ok, bs) := append_cells (row b ev) (builders b) in
  let b' := b <| builders := bs |> in
  if ok then (true, b' <| estimated_bytes := u64 (estimated_bytes b + row_bytes b ev) |>
                       <| num_rows ::= Z.succ |>)
  else (false, b').

(** The [||] chain of [Finish]; a finished builder is empty again. *)
Fixpoint finish_columns (order : list (string * FinishKind)) (bs : gmap string (list Value))
    : option (list (list Value)) * gmap string (list Value) :=
  match order with
  | [] => (Some [], bs)
  | (name, _) :: rest =>
    let col := default [] (bs !! name) in
    if builder_finish name col then
      let '(cols, bs) := finish_columns rest (<[name := []]> bs) in
      (cons col <$> cols, bs)
    else (None, bs)
  end.

(** The stream of a record batch: sink, codec, writer, batch, end of stream. *)
Definition write_stream (batch : RecordBatch) : option bytes :=
  if sink_create_ok && codec_create_ok && writer_create_ok && write_record_batch_ok batch && writer_close_ok
  then sink_finish batch else None.

(** The buffer and the number of rows; a failure gives back neither. *)
Definition FinishImpl (b : Impl) : res (option bytes * Z) * Impl :=
  match im_schema b with
  | None => (Ret (None, num_rows b), b)
  | Some schema =>
    if num_rows b =? 0 then (Ret (None, num_rows b), b)
    else if negb reserve_columns_ok then (Throw bad_alloc, b)
    else
      let '(cols, bs) := finish_columns finish_order (builders b) in
      let b' := b <| builders := bs |> in
      match cols with
      | None => (Ret (None, 0), b')
      | Some columns =>
        match write_stream {| rb_schema := schema; rb_rows := num_rows b; rb_columns := columns |} with
        | None => (Ret (None, 0), b')
        | Some buffer => (Ret (Some buffer, num_rows b), b')
        end
      end
  end.

#[global] Instance Arrow_builder : ArrowBatchBuilder Impl := {|
  ArrowInit := if make_impl_ok then
                 let '(ok, b) := Init psch_extra_attributes (Some PG_STAT_CH_VERSION) new_impl in
                 Ret (if ok then Some b else None)
               else Throw bad_alloc;
  ArrowAppend ev b := let '(ok, b') := AppendImpl ev b in (Ret ok, b');
  ArrowFinish := FinishImpl;
  ArrowReset := ResetImpl;
  EstimatedBytes := estimated_bytes;
  NumRows := num_rows |}.

End Arrow.
End Arrow.
