(* ===== verification/Otel.v ===== *)
(** The OpenTelemetry back end ([src/src/export/otel_exporter.cc]) as an instance of
    the exporter interface.

    gRPC, the protobuf arena and the operating system are parameters ([OtlpLib]).
    A request under construction is what the pointers [request_], [scope_logs_] and
    [current_record_] reach; [fault] records that one of them was followed while it
    did not point at anything, and [delivered] the requests the collector accepted.
    What is logged is left out. *)

From Stdlib Require Import QArith.
From S2P Require Import Prelude Event Shared Ring Exporter.
Import Event Shared Ring Exporter.
#[local] Open Scope Z_scope.

Module Otel.

(** ** Protobuf messages *)

Inductive AnyValue : Type :=
  | string_value (s : bytes)
  | int_value (n : Z)
  | double_value (q : Q).

Abbreviation KeyValue := (string * AnyValue)%type.

(** A field that was not set is [None]. *)
Record LogRecord := {
  time_unix_nano : option Z;
  observed_time_unix_nano : option Z;
  body : option bytes;
  attributes : list KeyValue }.

#[export] Instance LogRecord_eta : Eta LogRecord := λ r,
  Build_LogRecord (time_unix_nano r) (observed_time_unix_nano r) (body r) (attributes r).

Definition empty_record : LogRecord :=
  {| time_unix_nano := None; observed_time_unix_nano := None; body := None; attributes := [] |}.

(** An [ExportLogsServiceRequest] with its one resource and its one scope. *)
Record Request := {
  resource : list KeyValue;
  scope : string * bytes;
  log_records : list LogRecord }.

#[export] Instance Request_eta : Eta Request := λ r, Build_Request (resource r) (scope r) (log_records r).

Definition AddAttr (kv : KeyValue) (rec : LogRecord) : LogRecord := rec <| attributes ::= λ l, l ++ [kv] |>.
Definition SetString (key : string) (val : bytes) : KeyValue := (key, string_value val).
Definition SetInt (key : string) (val : Z) : KeyValue := (key, int_value (i64 val)).
(** The quotient is an exact fraction here. *)
Definition SetDouble (key : string) (val : Q) : KeyValue := (key, double_value val).

(** ** Sizes *)

Definition kMinBytesPerRecord : Z := 1200.
Definition kRequestOverheadBytes : Z := 512.
Definition kLogRecordOverheadBytes : Z := 128.
Definition kAttrOverheadBytes : Z := 24.

Definition slen (s : string) : Z := Z.of_nat (String.length s).

Definition EstimateStringAttrBytes (key : string) (value : bytes) : Z :=
  kAttrOverheadBytes + slen key + Z.of_nat (length value).
Definition EstimateScalarAttrBytes (key : string) : Z := kAttrOverheadBytes + slen key + 8.

(** ** State *)

Record GrpcOpts := { endpoint : bytes; timeout_ms : Z; use_ssl_credentials : bool; cacert : bytes }.

(** A pointer into the arena. *)
Inductive Ptr : Set := nullptr | dangling | valid.

Record OTelExporter := {
  grpc_opts_ : GrpcOpts;
  stub_ : bool;
  max_chunk_records_ : Z;
  max_chunk_bytes_ : Z;
  consecutive_failures_ : Z;
  exported_count_ : Z;
  batch_failed_ : bool;
  request : Request;           (** what [request_] points at *)
  request_ : Ptr;
  scope_logs_ : Ptr;
  current_record_ : Ptr;       (** the last record of the request *)
  chunk_count_ : Z;
  chunk_bytes_ : Z;
  columns : list ColKind;      (** the column objects of the batch *)
  delivered : list Request;
  fault : bool }.

#[export] Instance OTelExporter_eta : Eta OTelExporter := λ x,
  Build_OTelExporter (grpc_opts_ x) (stub_ x) (max_chunk_records_ x) (max_chunk_bytes_ x)
    (consecutive_failures_ x) (exported_count_ x) (batch_failed_ x) (request x) (request_ x)
    (scope_logs_ x) (current_record_ x) (chunk_count_ x) (chunk_bytes_ x) (columns x) (delivered x) (fault x).

Abbreviation OT := OTelExporter.

(** What the constructor of a chunk met: an exception when the arena, the request
    or the rest of it was made, or none. *)
Inductive ArenaOutcome : Set := ArenaOk | ArenaThrows (e : Exn) | RequestThrows (e : Exn) | ResourceThrows (e : Exn).

Inductive RpcOutcome : Set := StatusOk | StatusError (message : string) | RpcThrows (e : Exn).

Class OtlpLib := {
  psch_hostname : option bytes;
  getenv_HOSTNAME : option bytes;
  gethostname : option bytes;            (** the buffer it filled, or an error *)
  psch_otel_endpoint : option bytes;
  psch_otel_log_delay_ms : Z;
  psch_otel_log_max_bytes : Z;
  psch_otel_log_batch_size : Z;
  PG_STAT_CH_VERSION : bytes;
  default_opts : GrpcOpts;               (** the options' constructor *)
  configure_throws : option Exn;
  CreateCustomChannel : bytes → bool → bytes → list (string * Z) → bool;
  make_column_ok : OT → bool;            (** [std::make_shared] *)
  new_chunk : OT → ArenaOutcome;
  arena_ok : OT → bool;                  (** room for another message in the arena *)
  MakeClientContext : OT → option Exn;
  DelegateExport : Request → OT → RpcOutcome;
  arrow_request_throws : OT → option Exn;
  system_clock_ns : OT → Z }.

Section Otel.
Context {OL : OtlpLib}.

(** ** Host name and channel *)

Definition nonempty (s : option bytes) : option bytes :=
  match s with Some s => match cstr s with [] => None | c => Some c end | None => None end.

Definition GetAHostname (fallback : bytes) : bytes :=
  match nonempty psch_hostname with
  | Some h => h
  | None =>
    match nonempty getenv_HOSTNAME with
    | Some h => h
    | None => match gethostname with
              | Some buf => cstr (take 255 buf)
              | None => fallback
              end
    end
  end.

Definition MakeOptimizedChannel (opts : GrpcOpts) : bool :=
  let args := [("grpc.default_compression_algorithm", 2); ("grpc.keepalive_time_ms", 30000);
               ("grpc.keepalive_timeout_ms", 10000); ("grpc.keepalive_permit_without_calls", 1);
               ("grpc.http2.max_pings_without_data", 0)]%string in
  CreateCustomChannel (endpoint opts) (use_ssl_credentials opts)
    (if use_ssl_credentials opts then cacert opts else []) args.

Definition PopulateResource (arrow_ipc : bool) : list KeyValue :=
  [SetString "service.name" (bytes_of_string "pg_stat_ch");
   SetString "service.version" PG_STAT_CH_VERSION;
   SetString "host.name" (GetAHostname (bytes_of_string "postgres-primary"))] ++
  if arrow_ipc then [SetString "pg_stat_ch.block_format" (bytes_of_string "arrow_ipc")] else [].

Definition new_request (arrow_ipc : bool) : Request :=
  {| resource := PopulateResource arrow_ipc; scope := ("pg_stat_ch"%string, PG_STAT_CH_VERSION); log_records := [] |}.

(** ** Chunks *)

Definition ChunkFull (x : OT) : bool :=
  (max_chunk_records_ x <=? chunk_count_ x) || (max_chunk_bytes_ x <=? chunk_bytes_ x).

(** Replacing the arena frees what the pointers reached. *)
Definition ResetChunk (x : OT) : res unit * OT :=
  match new_chunk x with
  | ArenaThrows e => (Throw e, x)
  | RequestThrows e =>
    (Throw e, x <| request_ := dangling |> <| scope_logs_ := dangling |> <| current_record_ := dangling |>)
  | outcome =>
    let x := x <| request := new_request false |> <| request_ := valid |> <| scope_logs_ := dangling |>
               <| chunk_count_ := 0 |> <| chunk_bytes_ := kRequestOverheadBytes |> <| current_record_ := nullptr |> in
    match outcome with
    | ResourceThrows e => (Throw e, x)
    | _ => (Ret tt, x <| scope_logs_ := valid |>)
    end
  end.

(** Returns the outcome, the state and the messages recorded. *)
Definition FlushChunk (x : OT) : res bool * OT * list string :=
  if negb (stub_ x) || (chunk_count_ x =? 0) then (Ret true, x, [])
  else
    match MakeClientContext x with
    | Some e => (Throw e, x, [])
    | None =>
      let moved p := x <| request_ := p |> <| scope_logs_ := p |> <| current_record_ := p |>
                       <| fault ::= orb (match request_ x with valid => false | _ => true end) |> in
      match DelegateExport (request x) x with
      | RpcThrows e => (Throw e, moved dangling, [])
      | StatusOk =>
        (Ret true, (moved nullptr) <| exported_count_ := i32 (exported_count_ x + chunk_count_ x) |>
                     <| chunk_count_ := 0 |> <| chunk_bytes_ := 0 |> <| delivered ::= λ l, l ++ [request x] |>, [])
      | StatusError message =>
        (Ret false, (moved nullptr) <| consecutive_failures_ ::= Z.succ |>, [message])
      end
    end.

Definition begin_batch (x : OT) : res unit * OT :=
  ResetChunk (x <| exported_count_ := 0 |> <| batch_failed_ := false |> <| columns := [] |>).

(** [scope_logs_->add_log_records()] and the two counters. *)
Definition add_record (x : OT) : res unit * OT :=
  match scope_logs_ x with
  | valid =>
    if arena_ok x then
      (Ret tt, x <| request ::= λ r, r <| log_records ::= λ l, l ++ [empty_record] |> |>
                 <| current_record_ := valid |> <| chunk_count_ ::= Z.succ |>
                 <| chunk_bytes_ ::= λ n, u64 (n + kLogRecordOverheadBytes) |>)
    else (Throw bad_alloc, x)
  | _ => (Ret tt, x <| fault := true |>)
  end.

Definition begin_row (x : OT) : res unit * OT * list string :=
  if batch_failed_ x then (Ret tt, x, [])
  else if ChunkFull x then
    match FlushChunk x with
    | (Throw e, x, msgs) => (Throw e, x, msgs)
    | (Ret false, x, msgs) => (Ret tt, x <| batch_failed_ := true |>, msgs)
    | (Ret true, x, msgs) =>
      match ResetChunk x with
      | (Throw e, x) => (Throw e, x, msgs)
      | (Ret _, x) => let '(r, x) := add_record x in (r, x, msgs)
      end
    end
  else let '(r, x) := add_record x in (r, x, []).

(** ** Columns *)

Definition column_name (k : ColKind) : string :=
  match k with
  | StatLCString name | StatLCUInt8 name | StatLCInt16 name | StatLCInt32 name
  | StatHCString name | StatHCInt64 name | StatHCUInt64 name | StatTimestamp name => name
  | DbNameColumn => "db.name"
  | DbUserColumn => "db.user"
  | DbDurationColumn => "db.client.operation.duration"
  | DbOperationColumn => "db.operation.name"
  | DbQueryTextColumn => "db.query.text"
  end%string.

(** A zero is not written, but for the timestamp and the duration. *)
Definition skipped (k : ColKind) (v : Value) : bool :=
  match k, v with
  | (StatTimestamp _ | DbDurationColumn), _ => false
  | _, VInt n => n =? 0
  | _, VStr _ => false
  end.

(** What [Append] of a column does to the record, and what it adds to the size. *)
Definition append_value (k : ColKind) (v : Value) (rec : LogRecord) : LogRecord * Z :=
  let name := column_name k in
  match k, v with
  | StatTimestamp _, VInt n =>
    (AddAttr (SetInt name n) (rec <| time_unix_nano := Some (u64 (u64 n * 1000)) |>),
     EstimateScalarAttrBytes name + 8)
  | DbDurationColumn, VInt n =>
    (AddAttr (SetInt "duration_us" n) (AddAttr (SetDouble name (n # 1000000)) rec),
     EstimateScalarAttrBytes name + EstimateScalarAttrBytes "duration_us")
  | _, VInt n => (AddAttr (SetInt name n) rec, EstimateScalarAttrBytes name)
  | _, VStr s => (AddAttr (SetString name s) rec, EstimateStringAttrBytes name s)
  end.

Definition make_column (k : ColKind) (x : OT) : res nat * OT :=
  if make_column_ok x then (Ret (length (columns x)), x <| columns ::= λ l, l ++ [k] |>)
  else (Throw bad_alloc, x).

Definition append (i : nat) (v : Value) (x : OT) : res unit * OT :=
  match columns x !! i with
  | None => (Ret tt, x <| fault := true |>)
  | Some k =>
    match current_record_ x with
    | nullptr => (Ret tt, x)
    | dangling => (Ret tt, x <| fault := true |>)
    | valid =>
      match last (log_records (request x)) with
      | None => (Ret tt, x <| fault := true |>)
      | Some rec =>
        if skipped k v then (Ret tt, x)
        else if arena_ok x then
          let '(rec', size) := append_value k v rec in
          (Ret tt, x <| request ::= λ r, r <| log_records ::= λ l, removelast l ++ [rec'] |> |>
                     <| chunk_bytes_ ::= λ n, u64 (n + size) |>)
        else (Throw bad_alloc, x)
      end
    end
  end.

(** ** Connection, commit, Arrow blocks *)

Definition ConfigureLogExport (endpoint : bytes) (x : OT) : OT :=
  let opts := default_opts in
  let opts := {| Otel.endpoint := match endpoint with [] => Otel.endpoint opts | _ => endpoint end;
                 timeout_ms := psch_otel_log_delay_ms;
                 use_ssl_credentials := use_ssl_credentials opts; cacert := cacert opts |} in
  let max_bytes := Z.max kMinBytesPerRecord (u64 psch_otel_log_max_bytes) in
  x <| grpc_opts_ := opts |> <| max_chunk_bytes_ := max_bytes |>
    <| max_chunk_records_ := Z.max 1 (Z.min (u64 psch_otel_log_batch_size) (max_bytes / kMinBytesPerRecord)) |>.

Definition establish (x : OT) : bool * OT :=
  match configure_throws with
  | Some _ => (false, x <| stub_ := false |>)
  | None =>
    let x := ConfigureLogExport (default [] (nonempty psch_otel_endpoint)) x in
    if MakeOptimizedChannel (grpc_opts_ x) then (true, x <| stub_ := true |>)
    else (false, x <| stub_ := false |>)
  end.

Definition what (e : Exn) : string := match e with bad_alloc => "std::bad_alloc" | std_exception w => w end.

Definition commit (x : OT) : bool * OT * list string :=
  if batch_failed_ x then (false, x, [])
  else if negb (stub_ x) then (true, x <| consecutive_failures_ := 0 |>, [])
  else
    match FlushChunk x with
    | (Ret true, x, msgs) => (true, x <| consecutive_failures_ := 0 |>, msgs)
    | (Ret false, x, msgs) => (false, x, msgs)
    | (Throw e, x, msgs) => (false, x <| consecutive_failures_ ::= Z.succ |>, msgs ++ [what e])
    end.

(** The record that carries an Arrow block. *)
Definition arrow_record (data : bytes) (num_rows now_ns : Z) : LogRecord :=
  AddAttr (SetInt "pg_stat_ch.block_rows" num_rows)
    (AddAttr (SetString "pg_stat_ch.block_format" (bytes_of_string "arrow_ipc"))
      {| time_unix_nano := Some (u64 now_ns); observed_time_unix_nano := Some (u64 now_ns);
         body := Some data; attributes := [] |}).

Definition arrow_request (data : bytes) (num_rows now_ns : Z) : Request :=
  (new_request true) <| log_records := [arrow_record data num_rows now_ns] |>.

Definition send_arrow (data : bytes) (num_rows : Z) (x : OT) : bool * OT * list string :=
  if negb (stub_ x) || bool_decide (data = []) || (num_rows <=? 0) then (false, x, [])
  else
    let failed msg := (false, x <| consecutive_failures_ ::= Z.succ |>, [msg]) in
    match arrow_request_throws x with
    | Some e => failed (what e)
    | None =>
      let req := arrow_request data num_rows (system_clock_ns x) in
      match MakeClientContext x with
      | Some e => failed (what e)
      | None =>
        match DelegateExport req x with
        | RpcThrows e => failed (what e)
        | StatusError message => failed message
        | StatusOk => (true, x <| exported_count_ := i32 (exported_count_ x + num_rows) |>
                               <| consecutive_failures_ := 0 |> <| delivered ::= λ l, l ++ [req] |>, [])
        end
      end
    end.

Definition MakeOpenTelemetryExporter : OT :=
  {| grpc_opts_ := default_opts; stub_ := false; max_chunk_records_ := 1; max_chunk_bytes_ := kMinBytesPerRecord;
     consecutive_failures_ := 0; exported_count_ := 0; batch_failed_ := false; request := new_request false;
     request_ := nullptr; scope_logs_ := nullptr; current_record_ := nullptr; chunk_count_ := 0; chunk_bytes_ := 0;
     columns := []; delivered := []; fault := false |}.

#[global] Instance OTel_exporter : StatsExporter OT := {|
  IsConnected := stub_;
  NumConsecutiveFailures := consecutive_failures_;
  NumExported := exported_count_;
  ResetFailures x := x <| consecutive_failures_ := 0 |>;
  EstablishNewConnection x := let '(ok, x') := establish x in (Ret ok, x', []);
  BeginBatch := begin_batch;
  MakeColumn := make_column;
  BeginRow := begin_row;
  Append := append;
  CommitBatch x := let '(ok, x', msgs) := commit x in (Ret ok, x', msgs);
  SendArrowBatch data num_rows x := let '(ok, x', msgs) := send_arrow data num_rows x in (Ret ok, x', msgs) |}.

End Otel.
End Otel.
