(* ===== verification/ChcConnection.v ===== *)
(** The connection of the ClickHouse back end ([src/src/export/clickhouse_exporter.cc]):
    memory contexts, the allocator made of them for the client library, socket, TLS
    session, client and parsed types, with what the process holds of each.

    The operating system, OpenSSL and the client library are parameters ([NetLib]):
    the outcome of a call is a function of the number of calls made so far, so that
    the same call may end differently each time. Error numbers, which only reach the
    log, are left out. *)

From stdpp Require Import gmap.
From S2P Require Import Prelude.

Module ChcConnection.

Definition kSocketTimeoutSec : Z := 30.

(** ** State *)

(** A memory context of the exporter. *)
Inductive Cxt : Set := ConnCxt | BatchCxt.

#[export] Instance Cxt_eq_dec : EqDecision Cxt.
Proof. solve_decision. Defined.

(** The allocator handed to the client library: its callbacks get the context. *)
Record chc_alloc := { ud : Cxt }.

Definition MakePschChcAlloc (cxt : Cxt) : chc_alloc := {| ud := cxt |}.

(** The chunks of memory the callbacks allocated, with their context and size. *)
Abbreviation Chunks := (gmap Z (Cxt * Z)).

Record Conn := {
  conn_cxt_ : bool;
  batch_cxt_ : bool;
  conn_al_ : option chc_alloc;
  batch_al_ : option chc_alloc;
  client_ : bool;
  fd_ : Z;
  ssl_ctx_ : bool;
  ssl_ : bool;
  types_ : list (string * nat);  (** with the life of the connection context they are in *)
  (** what the process holds *)
  open_files : gset Z;
  nonblocking : gset Z;
  live_contexts : nat;
  live_ssl_ctxs : nat;
  live_ssls : nat;
  live_clients : nat;
  chunks : Chunks;
  conn_life : nat;               (** how often the connection context was reset or made *)
  misuse : bool;                 (** something was freed or closed that was not there *)
  raised : bool;                 (** a PostgreSQL error left a callback *)
  read_deadline : Z;             (** of the I/O object *)
  waits : list Z;                (** the time-outs [poll] was called with *)
  os_calls : nat }.

#[export] Instance Conn_eta : Eta Conn := λ c,
  Build_Conn (conn_cxt_ c) (batch_cxt_ c) (conn_al_ c) (batch_al_ c) (client_ c) (fd_ c) (ssl_ctx_ c) (ssl_ c) (types_ c) (open_files c)
    (nonblocking c) (live_contexts c) (live_ssl_ctxs c) (live_ssls c) (live_clients c) (chunks c) (conn_life c)
    (misuse c) (raised c) (read_deadline c) (waits c) (os_calls c).

(** Nothing yet; [files] are the descriptors the process has for other purposes. *)
Definition no_connection (files : gset Z) : Conn :=
  {| conn_cxt_ := false; batch_cxt_ := false; conn_al_ := None; batch_al_ := None; client_ := false; fd_ := -1; ssl_ctx_ := false; ssl_ := false;
     types_ := []; open_files := files; nonblocking := ∅; live_contexts := 0; live_ssl_ctxs := 0; live_ssls := 0;
     live_clients := 0; chunks := ∅; conn_life := 0; misuse := false; raised := false; read_deadline := 0; waits := []; os_calls := 0 |}.

(** Code on a connection; it always returns. *)
Definition Net (A : Type) : Type := Conn → A * Conn.

#[global] Instance Net_ret : MRet Net := λ A a c, (a, c).
#[global] Instance Net_bind : MBind Net := λ A B f m c, let '(a, c') := m c in f a c'.

Definition get {A} (f : Conn → A) : Net A := λ c, (f c, c).
Definition put (f : Conn → Conn) : Net unit := λ c, (tt, f c).

(** ** The outside *)

Inductive ConnectResult : Set := Connected | EINPROGRESS | ConnectFailed.
Inductive PollResult : Set := EINTR | PollFailed | PollTimedOut | PollReady.

(** [polls] are the results of the calls of [poll] in one attempt to connect: signals
    interrupt it a finite number of times, and past the end it times out. The client
    library says whether it succeeded and whether it set the client pointer. *)
Class NetLib := {
  psch_clickhouse_use_tls : bool;
  psch_clickhouse_skip_tls_verify : bool;
  clock_gettime : nat → Z * Z;             (** seconds and nanoseconds *)
  getaddrinfo : nat → option nat;          (** how many addresses *)
  socket_ok : nat → bool;
  fcntl_getfl_ok : nat → bool;
  fcntl_setfl_ok : nat → bool;
  connect : nat → ConnectResult;
  polls : nat → list PollResult;
  getsockopt_SO_ERROR : nat → option Z;
  SSL_CTX_new : nat → bool;
  SSL_CTX_set_default_verify_paths : nat → bool;
  SSL_new : nat → bool;
  SSL_set_tlsext_host_name : nat → bool;
  SSL_set1_host : nat → bool;
  SSL_set_fd : nat → bool;
  SSL_connect : nat → bool;
  AllocSetContextCreate : nat → bool;
  MemoryContextAllocExtended : Cxt → Z → Chunks → nat → option Z;   (** with [MCXT_ALLOC_NO_OOM] *)
  repalloc_extended : Z → Z → Chunks → nat → option Z;
  chc_client_init : nat → bool * bool;
  chc_type_parse : string → nat → option string }.  (** an error message, or none *)

(** A call to the outside. *)
Definition os {A} (f : nat → A) : Net A := λ c, (f (os_calls c), c <| os_calls ::= S |>).

(** The lowest descriptor that is not open. *)
Definition lowest_free (s : gset Z) : Z :=
  default 0 (head (filter (λ z, z ∉ s) (map Z.of_nat (seq 0 (S (size s)))))).

Definition close (fd : Z) : Net unit :=
  put (λ c, c <| misuse ::= orb (bool_decide (fd ∉ open_files c)) |>
              <| open_files ::= λ s, s ∖ {[fd]} |> <| nonblocking ::= λ s, s ∖ {[fd]} |>).

(** Gives back one of [n] objects. *)
Definition free_one (field : Conn → nat) (set : (nat → nat) → Conn → Conn) : Net unit :=
  put (λ c, set Nat.pred (c <| misuse ::= orb (field c =? 0)%nat |>)).

Definition chc_client_close : Net unit := free_one live_clients (λ f c, c <| live_clients ::= f |>).
Definition SSL_free : Net unit := free_one live_ssls (λ f c, c <| live_ssls ::= f |>).
Definition SSL_CTX_free : Net unit := free_one live_ssl_ctxs (λ f c, c <| live_ssl_ctxs ::= f |>).

(** The chunks of a context go with it. *)
Definition drop_chunks (cxt : Cxt) (c : Conn) : Conn := c <| chunks ::= filter (λ kv, kv.2.1 ≠ cxt) |>.
Definition MemoryContextReset (cxt : Cxt) : Net unit := put (drop_chunks cxt).
Definition MemoryContextDelete (cxt : Cxt) : Net unit :=
  _ ← put (drop_chunks cxt); free_one live_contexts (λ f c, c <| live_contexts ::= f |>).

Section Connection.
Context {NL : NetLib}.

Definition MonotonicNowUs (n : nat) : Z := let '(tv_sec, tv_nsec) := clock_gettime n in tv_sec * 1000000 + tv_nsec / 1000.

(** ** Memory for the client library *)

(** The allocators of PostgreSQL raise an error for a size beyond this one, even when
    they are told to return null for lack of memory. *)
Definition MaxAllocHugeSize : Z := 2 ^ 63 - 1.

Definition palloc (cxt : Cxt) (bytes : Z) (f : Chunks → nat → option Z) : Net Z :=
  if MaxAllocHugeSize <? bytes then _ ← put (λ c, c <| raised := true |>); mret 0
  else
    m ← get chunks;
    r ← os (f m);
    match r with
    | Some p => _ ← put (λ c, c <| chunks ::= <[p := (cxt, bytes)]> |>); mret p
    | None => mret 0
    end.

Definition PschChcAlloc (cxt : Cxt) (bytes : Z) : Net Z := palloc cxt bytes (MemoryContextAllocExtended cxt bytes).

(** [repalloc] and [pfree] find the context of a chunk by themselves. *)
Definition PschChcRealloc (cxt : Cxt) (p new_bytes : Z) : Net Z :=
  if p =? 0 then PschChcAlloc cxt new_bytes
  else
    m ← get chunks;
    match m !! p with
    | None => _ ← put (λ c, c <| misuse := true |>); mret 0
    | Some (owner, _) =>
      q ← palloc owner new_bytes (repalloc_extended p new_bytes);
      _ ← (if (q =? 0) || (q =? p) then mret tt else put (λ c, c <| chunks ::= delete p |>));
      mret q
    end.

Definition PschChcFree (p : Z) : Net unit :=
  if p =? 0 then mret tt
  else put (λ c, c <| misuse ::= orb (negb (bool_decide (is_Some (chunks c !! p)))) |> <| chunks ::= delete p |>).

(** A function of the library, as the calls it makes of the callbacks. Null is 0. *)
Inductive LibProg (A : Type) : Type :=
  | LDone (a : A)
  | LAlloc (bytes : Z) (k : Z → LibProg A)
  | LRealloc (p bytes : Z) (k : Z → LibProg A)
  | LFree (p : Z) (k : LibProg A).
#[global] Arguments LDone {A}.
#[global] Arguments LAlloc {A}.
#[global] Arguments LRealloc {A}.
#[global] Arguments LFree {A}.

Fixpoint run_lib {A} (al : chc_alloc) (m : LibProg A) : Net A :=
  match m with
  | LDone a => mret a
  | LAlloc bytes k => p ← PschChcAlloc (ud al) bytes; run_lib al (k p)
  | LRealloc p bytes k => q ← PschChcRealloc (ud al) p bytes; run_lib al (k q)
  | LFree p k => _ ← PschChcFree p; run_lib al k
  end.

(** ** Connecting a socket *)

Definition set_nonblocking (fd : Z) (on : bool) : Net bool :=
  ok ← os fcntl_setfl_ok;
  _ ← (if ok : bool then put (λ c, c <| nonblocking ::= λ s, if on then s ∪ {[fd]} else s ∖ {[fd]} |>) else mret tt);
  mret ok.

(** The argument of [poll]: the time left, rounded up to milliseconds, as an [int]. *)
Definition poll_timeout_ms (remaining_us : Z) : Z := i32 ((remaining_us + 999) / 1000).

Fixpoint poll_loop (deadline : Z) (results : list PollResult) : Net bool :=
  now ← os MonotonicNowUs;
  let remaining_us := deadline - now in
  if remaining_us <=? 0 then mret false
  else
    _ ← put (λ c, c <| waits ::= λ l, l ++ [poll_timeout_ms remaining_us] |>);
    match results with
    | EINTR :: rest => poll_loop deadline rest
    | PollReady :: _ =>
      soerr ← os getsockopt_SO_ERROR;
      mret (match soerr with Some e => e =? 0 | None => false end)
    | PollFailed :: _ | PollTimedOut :: _ | [] => mret false
    end.

Definition ConnectWithTimeout (fd timeout_sec : Z) : Net bool :=
  got ← os fcntl_getfl_ok;
  if negb got then mret false
  else
    flags ← get (λ c, bool_decide (fd ∈ nonblocking c));
    ok ← set_nonblocking fd true;
    if negb ok then mret false
    else
      r ← os connect;
      ok ← match r with
           | Connected => mret true
           | EINPROGRESS =>
             now ← os MonotonicNowUs;
             results ← os polls;
             poll_loop (now + timeout_sec * 1000000) results
           | ConnectFailed => mret false
           end;
      restored ← set_nonblocking fd flags;
      if negb restored then mret false else mret ok.

(** The loop over the addresses: the descriptor, or -1. *)
Fixpoint try_addresses (n : nat) : Net Z :=
  match n with
  | O => mret (-1)
  | S n =>
    made ← os socket_ok;
    if negb made then try_addresses n
    else
      fd ← get (lowest_free ∘ open_files);
      _ ← put (λ c, c <| open_files ::= λ s, s ∪ {[fd]} |> <| nonblocking ::= λ s, s ∖ {[fd]} |>);
      ok ← ConnectWithTimeout fd kSocketTimeoutSec;
      if ok : bool then mret fd
      else _ ← close fd; try_addresses n
  end.

(** The results of [setsockopt] are not looked at. *)
Definition TcpConnect : Net bool :=
  addresses ← os getaddrinfo;
  match addresses with
  | None => mret false
  | Some n =>
    fd ← try_addresses n;
    if fd <? 0 then mret false
    else _ ← put (λ c, c <| fd_ := fd |>); mret true
  end.

Definition TlsConnect : Net bool :=
  ok ← os SSL_CTX_new;
  _ ← put (λ c, c <| ssl_ctx_ := ok |> <| live_ssl_ctxs ::= λ n, if ok then S n else n |>);
  if negb ok then mret false
  else
    ok ← (if psch_clickhouse_skip_tls_verify then mret true else os SSL_CTX_set_default_verify_paths);
    if negb ok then mret false
    else
      ok ← os SSL_new;
      _ ← put (λ c, c <| ssl_ := ok |> <| live_ssls ::= λ n, if ok then S n else n |>);
      if negb ok then mret false
      else
        ok ← os SSL_set_tlsext_host_name;
        if negb ok then mret false
        else
          ok ← (if psch_clickhouse_skip_tls_verify then mret true else os SSL_set1_host);
          if negb ok then mret false
          else
            ok ← os SSL_set_fd;
            if negb ok then mret false else os SSL_connect.

(** ** The connection *)

(** The types are destroyed one by one; one from an earlier life of the context is
    not there any more. *)
Definition ClearTypes : Net unit :=
  put (λ c, c <| misuse ::= orb (negb (forallb (λ t, (t.2 =? conn_life c)%nat) (types_ c))) |> <| types_ := [] |>).

Definition ResetConnectionContext : Net unit :=
  _ ← ClearTypes;
  there ← get conn_cxt_;
  if there : bool then
    _ ← MemoryContextReset ConnCxt;
    put (λ c, c <| conn_life ::= S |> <| conn_al_ := Some (MakePschChcAlloc ConnCxt) |>)
  else mret tt.

Definition ResetBatchContext : Net unit :=
  there ← get batch_cxt_;
  if there : bool then
    _ ← MemoryContextReset BatchCxt;
    put (λ c, c <| batch_al_ := Some (MakePschChcAlloc BatchCxt) |>)
  else mret tt.

(** Frees what a pointer reaches, if it is not null, and clears the pointer. *)
Definition release (has : Conn → bool) (free : Net unit) (clear : Conn → Conn) : Net unit :=
  there ← get has;
  if there : bool then _ ← free; put clear else mret tt.

Definition CloseConnection : Net unit :=
  _ ← release client_ chc_client_close (λ c, c <| client_ := false |>);
  _ ← release ssl_ SSL_free (λ c, c <| ssl_ := false |>);
  _ ← release ssl_ctx_ SSL_CTX_free (λ c, c <| ssl_ctx_ := false |>);
  fd ← get fd_;
  _ ← release (λ c, 0 <=? fd_ c) (close fd) (λ c, c <| fd_ := -1 |>);
  ResetConnectionContext.

Definition MemoryContextsReady (c : Conn) : bool := conn_cxt_ c && batch_cxt_ c.

(** Makes a context unless the pointer is set; [false] when that raised an error. *)
Definition make_context (has : Conn → bool) (set : Conn → Conn) : Net bool :=
  there ← get has;
  if there : bool then mret true
  else
    ok ← os AllocSetContextCreate;
    _ ← (if ok : bool then put (λ c, set (c <| live_contexts ::= S |>)) else mret tt);
    mret ok.

Definition EnsureMemoryContexts : Net bool :=
  ready ← get MemoryContextsReady;
  if ready : bool then mret true
  else
    ok ← make_context conn_cxt_ (λ c, c <| conn_cxt_ := true |> <| conn_life ::= S |>);
    ok ← (if ok : bool then make_context batch_cxt_ (λ c, c <| batch_cxt_ := true |>) else mret false);
    if ok : bool then
      _ ← put (λ c, c <| conn_al_ := Some (MakePschChcAlloc ConnCxt) |> <| batch_al_ := Some (MakePschChcAlloc BatchCxt) |>);
      mret true
    else
      _ ← release batch_cxt_ (MemoryContextDelete BatchCxt) (λ c, c <| batch_cxt_ := false |>);
      _ ← release conn_cxt_ (MemoryContextDelete ConnCxt) (λ c, c <| conn_cxt_ := false |>);
      _ ← put (λ c, c <| conn_al_ := None |> <| batch_al_ := None |>);
      mret false.

Definition SetReadDeadline : Net unit :=
  now ← os MonotonicNowUs;
  put (λ c, c <| read_deadline := now + kSocketTimeoutSec * 1000000 |>).

Definition EstablishNewConnection : Net bool :=
  ready ← EnsureMemoryContexts;
  if negb ready then mret false
  else
    _ ← CloseConnection;
    ok ← TcpConnect;
    if negb ok then mret false
    else
      ok ← (if psch_clickhouse_use_tls then TlsConnect else mret true);
      if negb ok then _ ← CloseConnection; mret false
      else
        _ ← SetReadDeadline;
        init ← os chc_client_init;
        _ ← put (λ c, c <| client_ := init.2 |> <| live_clients ::= λ n, if init.2 : bool then S n else n |>);
        if negb init.1 then
          _ ← release client_ chc_client_close (λ c, c <| client_ := false |>);
          _ ← CloseConnection;
          mret false
        else mret true.

(** The parsed type of a name, or the error. *)
Definition ResolveType (type_name : string) : Net (option string) :=
  known ← get types_;
  match list_find (λ t, t.1 = type_name) known with
  | Some _ => mret None
  | None =>
    err ← os (chc_type_parse type_name);
    match err with
    | Some e => mret (Some e)
    | None => _ ← put (λ c, c <| types_ ::= λ l, l ++ [(type_name, conn_life c)] |>); mret None
    end
  end.

(** The destructor of the exporter. *)
Definition Destroy : Net unit :=
  _ ← CloseConnection;
  _ ← ClearTypes;
  _ ← release batch_cxt_ (MemoryContextDelete BatchCxt) (λ c, c <| batch_cxt_ := false |>);
  release conn_cxt_ (MemoryContextDelete ConnCxt) (λ c, c <| conn_cxt_ := false |>).

End Connection.
End ChcConnection.
