(* ===== verification/ChcConnectionThms.v ===== *)
(** The connection of the ClickHouse back end: what it holds is exactly what its
    pointers reach, so that reconnecting never leaks or frees twice; connecting is
    bounded in time and leaves the socket blocking. *)

From stdpp Require Import gmap.
From S2P Require Import Prelude ChcConnection.
Import ChcConnection.

Module ChcConnectionThms.

(** ** Code on a connection *)

Definition nwp {A} (m : Net A) (Q : A → Conn → Prop) (c : Conn) : Prop := Q (m c).1 (m c).2.

Lemma nwp_ret {A} (a : A) (Q : A → Conn → Prop) c : Q a c → nwp (mret a) Q c.
Proof. done. Qed.
Lemma nwp_bind {A B} (m : Net A) (f : A → Net B) Q c : nwp m (λ a c', nwp (f a) Q c') c → nwp (m ≫= f) Q c.
Proof. unfold nwp, mbind, Net_bind. by destruct (m c). Qed.
Lemma nwp_mono {A} (m : Net A) (Q Q' : A → Conn → Prop) c : nwp m Q c → (∀ a c', Q a c' → Q' a c') → nwp m Q' c.
Proof. unfold nwp. auto. Qed.
Lemma nwp_get {A} (f : Conn → A) (Q : A → Conn → Prop) c : Q (f c) c → nwp (get f) Q c.
Proof. done. Qed.
Lemma nwp_put f (Q : unit → Conn → Prop) c : Q tt (f c) → nwp (put f) Q c.
Proof. done. Qed.
Lemma nwp_os {A} (f : nat → A) (Q : A → Conn → Prop) c : Q (f (os_calls c)) (c <| os_calls ::= S |>) → nwp (os f) Q c.
Proof. done. Qed.

Ltac nwp_step := cbv beta; lazymatch goal with
  | |- nwp (_ ≫= _) _ _ => apply nwp_bind
  | |- nwp (mret _) _ _ => apply nwp_ret
  | |- nwp (get _) _ _ => apply nwp_get
  | |- nwp (put _) _ _ => apply nwp_put
  | |- nwp (os _) _ _ => apply nwp_os
  end; cbv beta.

(** ** Files *)

Lemma lowest_free_spec s : 0 ≤ lowest_free s ∧ lowest_free s ∉ s.
Proof.
  unfold lowest_free. set (cands := map Z.of_nat (seq 0 (S (size s)))).
  assert (∀ z, z ∈ cands → 0 ≤ z) as Hpos.
  { intros z (n & -> & _)%list_elem_of_fmap. lia. }
  destruct (filter (λ z, z ∉ s) cands) as [|z l] eqn:Hf; simpl.
  - exfalso. assert (list_to_set cands ⊆@{gset Z} s) as Hsub.
    { intros z Hz%elem_of_list_to_set. destruct (decide (z ∈ s)) as [|Hn]; [done|].
      assert (z ∈ filter (λ z, z ∉ s) cands) as Hin by by apply list_elem_of_filter.
      rewrite Hf in Hin. by apply not_elem_of_nil in Hin. }
    apply subseteq_size in Hsub. rewrite size_list_to_set in Hsub.
    + unfold cands in Hsub. rewrite length_map, length_seq in Hsub. lia.
    + unfold cands. apply NoDup_fmap_2; [intros a b; lia|apply NoDup_seq].
  - assert (z ∈ filter (λ z, z ∉ s) cands) as Hin by (rewrite Hf; left).
    apply list_elem_of_filter in Hin as [Hn Hc]. split; [by apply Hpos|done].
Qed.

(** What connecting a socket may change: files, waits and the number of calls. *)
Record net_frame (c c' : Conn) : Prop := {
  nf_rest : c' = c <| open_files := open_files c' |> <| nonblocking := nonblocking c' |>
                   <| waits := waits c' |> <| os_calls := os_calls c' |>;
  nf_calls : (os_calls c ≤ os_calls c')%nat }.

Lemma net_frame_refl c : net_frame c c.
Proof. constructor; [by destruct c|done]. Qed.
Lemma net_frame_trans c1 c2 c3 : net_frame c1 c2 → net_frame c2 c3 → net_frame c1 c3.
Proof. intros [H1 L1] [H2 L2]. constructor; [rewrite H2, H1; by destruct c1|lia]. Qed.

(** The waits are all between one millisecond and the time-out. *)
Definition wait_ok (timeout_sec w : Z) : Prop := 1 ≤ w ≤ timeout_sec * 1000.

Section thms.
Context {NL : NetLib}.

(** *** Memory for the client library *)

(** A function of the library that, with the chunks [S] at hand, frees and resizes only
    these and those it gets, and asks for no size the allocator raises an error for.
    [Q] holds of its result and of what is allocated then. *)
Fixpoint confined {A} (m : LibProg A) (S : gset Z) (Q : A → gset Z → Prop) : Prop :=
  match m with
  | LDone a => Q a S
  | LAlloc bytes k =>
    bytes ≤ MaxAllocHugeSize ∧ confined (k 0) S Q ∧ ∀ p, p ≠ 0 → p ∉ S → confined (k p) ({[p]} ∪ S) Q
  | LRealloc p bytes k =>
    bytes ≤ MaxAllocHugeSize ∧ (p = 0 ∨ p ∈ S) ∧ confined (k 0) S Q ∧
    ∀ q, q ≠ 0 → q ∉ S ∖ {[p]} → confined (k q) ({[q]} ∪ (S ∖ {[p]})) Q
  | LFree p k => (p = 0 ∨ p ∈ S) ∧ confined k (S ∖ {[p]}) Q
  end.

(** A new chunk is not null and nobody else's; a resized one may stay where it was. *)
Record palloc_laws : Prop := {
  palloc_fresh cxt bytes m n p : MemoryContextAllocExtended cxt bytes m n = Some p → p ≠ 0 ∧ m !! p = None;
  repalloc_fresh old bytes m n p : old ≠ 0 → repalloc_extended old bytes m n = Some p → p ≠ 0 ∧ (p = old ∨ m !! p = None) }.

(** The chunks are those of [S], all of the context [cxt]; nothing but them and the
    number of calls changed. *)
Record lib_state (cxt : Cxt) (c : Conn) (S : gset Z) (c' : Conn) : Prop := {
  ls_frame : c' = c <| chunks := chunks c' |> <| os_calls := os_calls c' |>;
  ls_dom : dom (chunks c') = S;
  ls_cxt : ∀ p x, chunks c' !! p = Some x → x.1 = cxt;
  ls_null : 0 ∉ S }.

Section library.
Context (Hlaws : palloc_laws) (cxt : Cxt) (c0 : Conn).

Lemma palloc_ok c S bytes (f : Chunks → nat → option Z) old :
  lib_state cxt c0 S c → bytes ≤ MaxAllocHugeSize →
  (∀ n p, f (chunks c) n = Some p → p ≠ 0 ∧ (p = old ∨ p ∉ S)) →
  nwp (palloc cxt bytes f)
    (λ p c', p = 0 ∧ lib_state cxt c0 S c' ∨ p ≠ 0 ∧ (p = old ∨ p ∉ S) ∧ lib_state cxt c0 ({[p]} ∪ S) c') c.
Proof.
  intros Hc Hb Hf. unfold palloc. destruct (Z.ltb_spec MaxAllocHugeSize bytes); [lia|]. do 4 nwp_step.
  destruct (f (chunks c) (os_calls c)) as [p|] eqn:Hp.
  - destruct (Hf _ _ Hp) as [Hp0 Hp1]. do 2 nwp_step. nwp_step. right. split_and!; [done|done|].
    destruct Hc as [Hfr Hd Hx Hn]. constructor; simpl.
    + rewrite Hfr. by destruct c0.
    + rewrite dom_insert_L. by rewrite Hd.
    + intros p' x [[<- <-]|[_ Hx']]%lookup_insert_Some; [done|by eapply Hx].
    + set_solver.
  - nwp_step. left. split; [done|]. destruct Hc as [Hfr Hd Hx Hn]. constructor; simpl; [|done..].
    rewrite Hfr. by destruct c0.
Qed.

Lemma callback_alloc_ok c S bytes :
  lib_state cxt c0 S c → bytes ≤ MaxAllocHugeSize →
  nwp (PschChcAlloc cxt bytes)
    (λ p c', p = 0 ∧ lib_state cxt c0 S c' ∨ p ≠ 0 ∧ p ∉ S ∧ lib_state cxt c0 ({[p]} ∪ S) c') c.
Proof.
  intros Hc Hb. eapply nwp_mono.
  - apply (palloc_ok c S bytes _ 0 Hc Hb). intros n p Hp. apply (palloc_fresh Hlaws) in Hp as [H0 Hp].
    split; [done|]. right. rewrite <- (ls_dom _ _ _ _ Hc). by apply not_elem_of_dom.
  - intros p c' [?|(H0 & [->|?] & ?)]; [by left|done|by right].
Qed.

Lemma realloc_ok c S p bytes :
  lib_state cxt c0 S c → bytes ≤ MaxAllocHugeSize → p = 0 ∨ p ∈ S →
  nwp (PschChcRealloc cxt p bytes)
    (λ q c', q = 0 ∧ lib_state cxt c0 S c' ∨ q ≠ 0 ∧ q ∉ S ∖ {[p]} ∧ lib_state cxt c0 ({[q]} ∪ (S ∖ {[p]})) c') c.
Proof.
  intros Hc Hb Hp. pose proof (ls_null _ _ _ _ Hc) as H0. unfold PschChcRealloc. destruct (Z.eqb_spec p 0) as [->|Hne].
  - replace (S ∖ {[0]}) with S by set_solver. by apply callback_alloc_ok.
  - destruct Hp as [?|Hp]; [done|]. do 2 nwp_step. rewrite <- (ls_dom _ _ _ _ Hc) in Hp. apply elem_of_dom in Hp as [[cx sz] Hx].
    rewrite Hx. pose proof (ls_cxt _ _ _ _ Hc _ _ Hx) as Hcx. simpl in Hcx. subst cx.
    nwp_step. eapply nwp_mono.
    + apply (palloc_ok c S bytes _ p Hc Hb). intros n q Hq. apply (repalloc_fresh Hlaws) in Hq as [Hq0 Hq]; [|done].
      split; [done|]. rewrite <- (ls_dom _ _ _ _ Hc), not_elem_of_dom. done.
    + intros q c1 [[-> H1]|(Hq0 & Hq & H1)]; [simpl; repeat nwp_step; by left|].
      rewrite (proj2 (Z.eqb_neq _ _) Hq0). simpl. destruct (Z.eqb_spec q p) as [->|Hqp]; repeat nwp_step.
      * right. split_and!; [done|set_solver|].
        assert (p ∈ S) by (rewrite <- (ls_dom _ _ _ _ Hc); by apply elem_of_dom_2 in Hx).
        replace ({[p]} ∪ S ∖ {[p]}) with ({[p]} ∪ S); [done|]. apply set_eq. intros z. destruct (decide (z = p)); set_solver.
      * destruct Hq as [?|Hq]; [done|]. right. split_and!; [done|set_solver|].
        replace ({[q]} ∪ S ∖ {[p]}) with (dom (delete p (chunks c1))) by (rewrite dom_delete_L, (ls_dom _ _ _ _ H1); set_solver).
        destruct H1 as [Hfr Hd Hx' Hn]. constructor; simpl; [rewrite Hfr; by destruct c0|done| |].
        -- intros r x [_ Hr]%lookup_delete_Some. by eapply Hx'.
        -- rewrite dom_delete_L. set_solver.
Qed.

Lemma callback_free_ok c S p :
  lib_state cxt c0 S c → p = 0 ∨ p ∈ S → nwp (PschChcFree p) (λ _ c', lib_state cxt c0 (S ∖ {[p]}) c') c.
Proof.
  intros Hc Hp. pose proof (ls_null _ _ _ _ Hc) as H0. unfold PschChcFree. destruct (Z.eqb_spec p 0) as [->|Hne].
  - nwp_step. by replace (S ∖ {[0]}) with S by set_solver.
  - destruct Hp as [?|Hp]; [done|]. nwp_step. rewrite <- (ls_dom _ _ _ _ Hc) in Hp. apply elem_of_dom in Hp.
    rewrite bool_decide_eq_true_2 by done. destruct Hc as [Hfr Hd Hx Hn]. constructor; simpl.
    + rewrite Hfr. by destruct c0.
    + by rewrite dom_delete_L, Hd.
    + intros r x [_ Hr]%lookup_delete_Some. by eapply Hx.
    + set_solver.
Qed.

(** A confined function of the library leaves everything else alone. *)
Lemma run_lib_ok {A} (m : LibProg A) S Q c :
  confined m S Q → lib_state cxt c0 S c →
  nwp (run_lib (MakePschChcAlloc cxt) m) (λ a c', ∃ S', Q a S' ∧ lib_state cxt c0 S' c') c.
Proof.
  revert S c. induction m as [a|bytes k IH|p bytes k IH|p k IH]; intros S c; cbn [confined run_lib].
  - intros HQ Hc. nwp_step. by exists S.
  - intros (Hb & H0 & Hk) Hc. nwp_step. eapply nwp_mono; [by apply callback_alloc_ok|].
    intros p c' [[-> Hc']|(Hp & Hn & Hc')]; eapply IH; [done|done|by apply Hk|done].
  - intros (Hb & Hp & H0 & Hk) Hc. nwp_step. eapply nwp_mono; [by apply realloc_ok|].
    intros q c' [[-> Hc']|(Hq & Hn & Hc')]; eapply IH; [done|done|by apply Hk|done].
  - intros (Hp & Hk) Hc. nwp_step. eapply nwp_mono; [by apply callback_free_ok|]. intros u c' Hc'. by eapply IH.
Qed.

End library.

(** *** Connecting *)

(** The clock does not go back. *)
Definition clock_ok : Prop := ∀ m n : nat, (m ≤ n)%nat → MonotonicNowUs m ≤ MonotonicNowUs n.

(** The waits so far and new ones, each within the time-out. *)
Definition waited (timeout_sec : Z) (c c' : Conn) : Prop :=
  ∃ l, waits c' = waits c ++ l ∧ (clock_ok → Forall (wait_ok timeout_sec) l).

Lemma waited_refl t c c' : waits c' = waits c → waited t c c'.
Proof. intros H. exists []. by rewrite app_nil_r. Qed.
Lemma waited_trans t c1 c2 c3 : waited t c1 c2 → waited t c2 c3 → waited t c1 c3.
Proof.
  intros (l1 & H1 & F1) (l2 & H2 & F2). exists (l1 ++ l2). rewrite H2, H1, app_assoc. split; [done|].
  intros Hc. apply Forall_app. auto.
Qed.

Lemma poll_timeout_ok timeout_sec r : 0 ≤ timeout_sec ≤ 2000000 → 0 < r ≤ timeout_sec * 1000000 → wait_ok timeout_sec (poll_timeout_ms r).
Proof.
  intros Ht Hr. unfold wait_ok, poll_timeout_ms.
  assert (1 ≤ (r + 999) / 1000 ≤ timeout_sec * 1000) as Hq.
  { split; [apply Z.div_le_lower_bound; lia|].
    apply Z.lt_succ_r, Z.div_lt_upper_bound; lia. }
  rewrite i32_small; lia.
Qed.

Lemma poll_loop_spec start timeout_sec results c :
  0 ≤ timeout_sec ≤ 2000000 → (clock_ok → start ≤ MonotonicNowUs (os_calls c)) →
  nwp (poll_loop (start + timeout_sec * 1000000) results)
    (λ _ c', net_frame c c' ∧ open_files c' = open_files c ∧ nonblocking c' = nonblocking c ∧ waited timeout_sec c c') c.
Proof.
  intros Ht. revert c. induction results as [|r results IH]; intros c Hs; cbn [poll_loop]; do 2 nwp_step;
    (set (now := MonotonicNowUs (os_calls c)) in *; cbv zeta; set (rem := start + timeout_sec * 1000000 - now);
     destruct (Z.leb_spec rem 0); [nwp_step; split_and!; [constructor; simpl; [by destruct c|lia]|done|done|by apply waited_refl]|]);
    do 2 nwp_step; set (c1 := c <| os_calls ::= S |> <| waits ::= λ l, l ++ [poll_timeout_ms rem] |>);
    (assert (net_frame c c1) as Hf by (constructor; simpl; [by destruct c|lia]));
    (assert (waited timeout_sec c c1) as Hw by
       (exists [poll_timeout_ms rem]; split; [done|]; intros Hc; specialize (Hs Hc); apply Forall_singleton;
        apply poll_timeout_ok; lia)).
  - nwp_step. by split_and!.
  - destruct r.
    + eapply nwp_mono; [apply (IH c1)|].
      * intros Hc. etrans; [by apply Hs|]. apply Hc. simpl. lia.
      * intros _ c' (Hf' & Ho & Hn & Hw'). split_and!; [by eapply net_frame_trans|by rewrite Ho|by rewrite Hn|].
        by eapply waited_trans.
    + nwp_step. by split_and!.
    + nwp_step. by split_and!.
    + do 2 nwp_step. nwp_step. split_and!; [|done|done|done]. constructor; simpl; [by destruct c|lia].
Qed.

Lemma set_nonblocking_spec fd on c :
  nwp (set_nonblocking fd on)
    (λ ok c', net_frame c c' ∧ open_files c' = open_files c ∧ waits c' = waits c ∧
       (ok = fcntl_setfl_ok (os_calls c)) ∧
       nonblocking c' = if ok then if on then nonblocking c ∪ {[fd]} else nonblocking c ∖ {[fd]} else nonblocking c) c.
Proof.
  unfold set_nonblocking. do 2 nwp_step. nwp_step. destruct (fcntl_setfl_ok (os_calls c));
    nwp_step; nwp_step; (split_and!; [constructor; simpl; [by destruct c|lia]|done..]).
Qed.

Lemma connect_spec fd timeout_sec c :
  0 ≤ timeout_sec ≤ 2000000 → fd ∉ nonblocking c →
  nwp (ConnectWithTimeout fd timeout_sec)
    (λ ok c', net_frame c c' ∧ open_files c' = open_files c ∧ nonblocking c' ∖ {[fd]} = nonblocking c ∧
       (ok = true ∨ (∀ n, fcntl_setfl_ok n = true) → nonblocking c' = nonblocking c) ∧ waited timeout_sec c c') c.
Proof.
  intros Ht Hfd. assert (nonblocking c ∖ {[fd]} = nonblocking c) as Hdiff by set_solver.
  unfold ConnectWithTimeout. do 2 nwp_step. destruct (fcntl_getfl_ok _); cbn [negb].
  2: { nwp_step. split_and!; [constructor; simpl; [by destruct c|lia]|done|done|done|by apply waited_refl]. }
  set (c0 := c <| os_calls ::= S |>). assert (net_frame c c0) as H0 by (constructor; simpl; [by destruct c|lia]).
  do 2 nwp_step. rewrite bool_decide_eq_false_2 by done. nwp_step.
  eapply nwp_mono; [apply set_nonblocking_spec|]. intros ok c1 (Hf1 & Ho1 & Hw1 & Hok & Hn1).
  assert (net_frame c c1) as H1 by by eapply net_frame_trans.
  destruct ok; cbn [negb].
  2: { nwp_step. split_and!; [done|done|by rewrite Hn1|by rewrite Hn1|apply waited_refl; by rewrite Hw1]. }
  do 2 nwp_step. set (c2 := c1 <| os_calls ::= S |>).
  assert (net_frame c1 c2) as Hf2 by (constructor; simpl; [by destruct c1|lia]).
  nwp_step.
  assert (nwp (match connect (os_calls c1) with
               | Connected => mret true
               | EINPROGRESS => now ← os MonotonicNowUs; results ← os polls;
                                poll_loop (now + timeout_sec * 1000000) results
               | ConnectFailed => mret false
               end)
    (λ _ c', net_frame c2 c' ∧ open_files c' = open_files c2 ∧ nonblocking c' = nonblocking c2 ∧ waited timeout_sec c2 c') c2)
    as Hmid.
  { destruct (connect _); [nwp_step| |nwp_step]; [split_and!; [apply net_frame_refl|done..|by apply waited_refl]| |
      split_and!; [apply net_frame_refl|done..|by apply waited_refl]].
    do 4 nwp_step. eapply nwp_mono; [apply poll_loop_spec; [done|]|].
    - intros Hc. apply Hc. simpl. lia.
    - intros _ c' ([Hr Hl] & Ho & Hn & Hw). split_and!; [|done..]. constructor; [|simpl in Hl |- *; lia].
      rewrite Hr. by destruct c2. }
  eapply nwp_mono; [exact Hmid|]. intros ok3 c3 (Hf3 & Ho3 & Hn3 & Hw3). nwp_step.
  eapply nwp_mono; [apply set_nonblocking_spec|]. intros ok4 c4 (Hf4 & Ho4 & Hw4 & Hok4 & Hn4).
  assert (net_frame c c4) as Hf by (do 3 (eapply net_frame_trans; [eassumption|]); done).
  assert (open_files c4 = open_files c) as Ho by (rewrite Ho4, Ho3; exact Ho1).
  assert (nonblocking c3 = nonblocking c ∪ {[fd]}) as Hn by (rewrite Hn3; exact Hn1).
  assert (waited timeout_sec c c4) as Hw.
  { destruct Hw3 as (l & Hl & Hc). exists l. rewrite Hw4, Hl. split; [|done]. f_equal. exact Hw1. }
  rewrite Hn in Hn4. destruct ok4; cbn [negb]; nwp_step; (split_and!; [done|done|rewrite Hn4; set_solver| |done]).
  - intros _. rewrite Hn4. set_solver.
  - intros [|Hall]; [done|]. by rewrite Hall in Hok4.
Qed.

(** ** What a connection holds *)

Definition b2n (b : bool) : nat := if b then 1 else 0.

(** The process holds what the pointers reach and [base], its other files; the
    socket is blocking; the types are those of the present life of the context. *)
Record owned (base : gset Z) (c : Conn) : Prop := {
  ow_files : open_files c = base ∪ (if 0 <=? fd_ c then {[fd_ c]} else ∅);
  ow_fd : fd_ c = -1 ∨ 0 ≤ fd_ c ∧ fd_ c ∉ base;
  ow_blocking : nonblocking c = ∅;
  ow_ssl_ctx : live_ssl_ctxs c = b2n (ssl_ctx_ c);
  ow_ssl : live_ssls c = b2n (ssl_ c);
  ow_client : live_clients c = b2n (client_ c);
  ow_contexts : live_contexts c = (b2n (conn_cxt_ c) + b2n (batch_cxt_ c))%nat ∧ conn_cxt_ c = batch_cxt_ c;
  ow_als : conn_al_ c = (if conn_cxt_ c then Some (MakePschChcAlloc ConnCxt) else None) ∧
           batch_al_ c = (if batch_cxt_ c then Some (MakePschChcAlloc BatchCxt) else None);
  ow_chunks : ∀ p x, chunks c !! p = Some x → p ≠ 0 ∧ x.1 = BatchCxt ∧ batch_cxt_ c = true;
  ow_types : Forall (λ t, t.2 = conn_life c) (types_ c);
  ow_unready : conn_cxt_ c = false →
    fd_ c = -1 ∧ client_ c = false ∧ ssl_ c = false ∧ ssl_ctx_ c = false ∧ types_ c = [];
  ow_misuse : misuse c = false ∧ raised c = false }.

Definition disconnected (c : Conn) : Prop :=
  fd_ c = -1 ∧ client_ c = false ∧ ssl_ c = false ∧ ssl_ctx_ c = false ∧ types_ c = [].

Lemma owned_nothing base : owned base (no_connection base).
Proof. constructor; simpl; try done; [set_solver|by left]. Qed.

(** Calls to the outside change nothing. *)
Lemma owned_calls base c n : owned base c → owned base (c <| os_calls := n |>).
Proof. intros []. by constructor. Qed.

Lemma types_current base c : owned base c → forallb (λ t, (t.2 =? conn_life c)%nat) (types_ c) = true.
Proof.
  intros H. apply forallb_forall. intros t Ht%list_elem_of_In. apply Nat.eqb_eq. revert t Ht. apply Forall_forall, H.
Qed.

Lemma nwp_free field set (Q : unit → Conn → Prop) c n :
  field c = S n → Q tt (set Nat.pred c) → nwp (free_one field set) Q c.
Proof.
  intros Hf HQ. unfold nwp, free_one, put. rewrite Hf. simpl.
  assert (c <| misuse ::= orb false |> = c) as -> by by destruct c. done.
Qed.

Ltac unready := intros Hx; match goal with
  | H : _ = false → fd_ _ = -1 ∧ _ |- _ => destruct (H Hx) as (? & ? & ? & ? & ?); split_and!; done
  end.

(** Releasing what one pointer reaches. *)
Lemma release_client base c :
  owned base c →
  nwp (release client_ chc_client_close (λ c, c <| client_ := false |>))
    (λ _ c', owned base c' ∧ c' = c <| client_ := false |> <| live_clients := 0%nat |>) c.
Proof.
  intros []. unfold release. do 2 nwp_step. destruct (client_ c) eqn:Hc; simpl in ow_client0.
  - nwp_step. eapply nwp_free; [done|]. nwp_step. split; [|by destruct c; simpl in *; rewrite ow_client0].
    constructor; simpl; try done; [by rewrite ow_client0|by unready].
  - nwp_step. split; [by constructor; rewrite ?Hc|]. by destruct c; simpl in *; subst.
Qed.

Lemma release_ssl base c :
  owned base c →
  nwp (release ssl_ SSL_free (λ c, c <| ssl_ := false |>))
    (λ _ c', owned base c' ∧ c' = c <| ssl_ := false |> <| live_ssls := 0%nat |>) c.
Proof.
  intros []. unfold release. do 2 nwp_step. destruct (ssl_ c) eqn:Hc; simpl in ow_ssl0.
  - nwp_step. eapply nwp_free; [done|]. nwp_step. split; [|by destruct c; simpl in *; rewrite ow_ssl0].
    constructor; simpl; try done; [by rewrite ow_ssl0|by unready].
  - nwp_step. split; [by constructor; rewrite ?Hc|]. by destruct c; simpl in *; subst.
Qed.

Lemma release_ssl_ctx base c :
  owned base c →
  nwp (release ssl_ctx_ SSL_CTX_free (λ c, c <| ssl_ctx_ := false |>))
    (λ _ c', owned base c' ∧ c' = c <| ssl_ctx_ := false |> <| live_ssl_ctxs := 0%nat |>) c.
Proof.
  intros []. unfold release. do 2 nwp_step. destruct (ssl_ctx_ c) eqn:Hc; simpl in ow_ssl_ctx0.
  - nwp_step. eapply nwp_free; [done|]. nwp_step. split; [|by destruct c; simpl in *; rewrite ow_ssl_ctx0].
    constructor; simpl; try done; [by rewrite ow_ssl_ctx0|by unready].
  - nwp_step. split; [by constructor; rewrite ?Hc|]. by destruct c; simpl in *; subst.
Qed.

Lemma release_fd base c :
  owned base c →
  nwp (release (λ c, 0 <=? fd_ c) (close (fd_ c)) (λ c, c <| fd_ := -1 |>))
    (λ _ c', owned base c' ∧ c' = c <| fd_ := -1 |> <| open_files := base |>) c.
Proof.
  intros []. unfold release. do 2 nwp_step. destruct ow_fd0 as [Hc|[Hpos Hnb]].
  - rewrite Hc in ow_files0 |- *. simpl in *. rewrite union_empty_r_L in ow_files0. nwp_step.
    split; [constructor; try done; rewrite Hc; simpl; [by rewrite union_empty_r_L|by left]|].
    by destruct c; simpl in *; subst.
  - rewrite (proj2 (Z.leb_le 0 _) Hpos) in ow_files0 |- *. unfold close. do 2 nwp_step. nwp_step.
    rewrite bool_decide_eq_false_2 by set_solver.
    assert (open_files c ∖ {[fd_ c]} = base) as Ho by (rewrite ow_files0; clear -Hnb; set_solver).
    assert (nonblocking c ∖ {[fd_ c]} = ∅) as Hn by set_solver.
    split; [constructor; simpl; try done; [rewrite Ho; by rewrite union_empty_r_L|by left|by unready]|].
    destruct c; simpl in *. unfold set_field. simpl. rewrite Ho, Hn. congruence.
Qed.

(** Only the batch has chunks. *)
Lemma no_conn_chunks base c : owned base c → filter (λ kv : Z * (Cxt * Z), kv.2.1 ≠ ConnCxt) (chunks c) = chunks c.
Proof.
  intros H. apply map_filter_id. intros p x Hp. simpl. by rewrite (proj1 (proj2 (ow_chunks _ _ H p x Hp))).
Qed.

Lemma no_batch_chunks base c : owned base c → filter (λ kv : Z * (Cxt * Z), kv.2.1 ≠ BatchCxt) (chunks c) = ∅.
Proof.
  intros H. apply map_empty. intros p. apply map_lookup_filter_None. right. intros x Hp Hx. apply Hx.
  apply (ow_chunks _ _ H p x Hp).
Qed.

Lemma unready_chunks base c : owned base c → batch_cxt_ c = false → chunks c = ∅.
Proof.
  intros H Hb. apply map_empty. intros p. destruct (chunks c !! p) as [x|] eqn:Hp; [|done].
  destruct (ow_chunks _ _ H p x Hp) as (_ & _ & ?). congruence.
Qed.

Lemma reset_context base c :
  owned base c →
  nwp ResetConnectionContext
    (λ _ c', owned base c' ∧ ∃ n, c' = c <| types_ := [] |> <| conn_life := n |>) c.
Proof.
  intros Hown. pose proof (types_current _ _ Hown) as Ht. pose proof (no_conn_chunks _ _ Hown) as Hch. destruct Hown.
  unfold ResetConnectionContext, ClearTypes. do 2 nwp_step. do 2 nwp_step. rewrite Ht. cbn [negb].
  assert (c <| misuse ::= orb false |> = c) as -> by by destruct c.
  cbn. destruct (conn_cxt_ c) eqn:Hc.
  - unfold MemoryContextReset, drop_chunks. do 3 nwp_step.
    destruct ow_als0 as [Ha Hb].
    split; [constructor; simpl; rewrite ?Hc; try done; intros p x; rewrite Hch; apply ow_chunks0|].
    exists (S (conn_life c)). destruct c; simpl in *. unfold set_field. simpl. rewrite Hch. congruence.
  - nwp_step. split; [constructor; simpl; rewrite ?Hc; try done; by unready|]. exists (conn_life c). by destruct c.
Qed.

Lemma close_connection base c :
  owned base c →
  nwp CloseConnection (λ _ c', owned base c' ∧ disconnected c' ∧ conn_cxt_ c' = conn_cxt_ c ∧ waits c' = waits c ∧
    chunks c' = chunks c) c.
Proof.
  intros H0. unfold CloseConnection.
  nwp_step. eapply nwp_mono; [by apply release_client|]. intros _ c1 [H1 E1].
  nwp_step. eapply nwp_mono; [by apply release_ssl|]. intros _ c2 [H2 E2].
  nwp_step. eapply nwp_mono; [by apply release_ssl_ctx|]. intros _ c3 [H3 E3].
  do 2 nwp_step. nwp_step. eapply nwp_mono; [by apply release_fd|]. intros _ c4 [H4 E4].
  eapply nwp_mono; [by apply reset_context|]. intros _ c5 (H5 & n & E5).
  split; [done|]. clear H1 H2 H3 H4 H5. subst. done.
Qed.

(** What connecting does not touch. *)
Definition rest (c : Conn) :=
  (conn_cxt_ c, batch_cxt_ c, client_ c, fd_ c, ssl_ctx_ c, ssl_ c, types_ c,
   (live_contexts c, live_ssl_ctxs c, live_ssls c, live_clients c), conn_life c, (conn_al_ c, batch_al_ c, chunks c, raised c)).

Lemma net_frame_rest c c' : net_frame c c' → rest c' = rest c ∧ misuse c' = misuse c.
Proof. intros [-> _]. done. Qed.

Lemma owned_rest base c c' :
  owned base c → rest c' = rest c → open_files c' = open_files c → nonblocking c' = ∅ → misuse c' = false → owned base c'.
Proof.
  intros [] Hr Ho Hn Hm. injection Hr as E1 E2 E3 E4 E5 E6 E7 E8 E9 E10 E11 E12 E13 E14 E15 E16.
  constructor; rewrite ?E1, ?E2, ?E3, ?E4, ?E5, ?E6, ?E7, ?E8, ?E9, ?E10, ?E11, ?E12, ?E13, ?E14, ?E15, ?E16; (congruence || done || by destruct ow_misuse0).
Qed.

Lemma try_addresses_spec n c base :
  open_files c = base → nonblocking c = ∅ → misuse c = false →
  nwp (try_addresses n)
    (λ fd c', rest c' = rest c ∧ misuse c' = false ∧ nonblocking c' = ∅ ∧
       (fd = -1 ∧ open_files c' = base ∨ 0 ≤ fd ∧ fd ∉ base ∧ open_files c' = base ∪ {[fd]}) ∧
       waited kSocketTimeoutSec c c') c.
Proof.
  revert c. induction n as [|n IH]; intros c Ho Hn Hm; cbn [try_addresses].
  { nwp_step. split_and!; [done|done|done|by left|by apply waited_refl]. }
  do 2 nwp_step. set (c0 := c <| os_calls ::= S |>). destruct (socket_ok _); cbn [negb]; [|exact (IH c0 Ho Hn Hm)].
  do 2 nwp_step. change ((lowest_free ∘ open_files) c0) with (lowest_free (open_files c0)).
  set (fd := lowest_free (open_files c0)).
  assert (0 ≤ fd ∧ fd ∉ base) as [Hpos Hnb] by (rewrite <- Ho; apply lowest_free_spec).
  do 2 nwp_step. set (c1 := c0 <| open_files ::= _ |> <| nonblocking ::= _ |>).
  assert (nonblocking c1 = ∅) as Hn1 by (change (nonblocking c ∖ {[fd]} = ∅); rewrite Hn; clear; set_solver).
  nwp_step. eapply nwp_mono; [apply (connect_spec fd kSocketTimeoutSec c1)|].
  { unfold kSocketTimeoutSec. lia. }
  { rewrite Hn1. clear; set_solver. }
  intros ok c2 (Hf2 & Ho2 & Hd2 & Hk2 & Hw2). rewrite Hn1 in Hd2, Hk2.
  apply net_frame_rest in Hf2 as [Hr2 Hm2]. change (rest c2 = rest c) in Hr2. change (misuse c2 = misuse c) in Hm2.
  assert (open_files c2 = base ∪ {[fd]}) as Ho2' by (rewrite Ho2, <- Ho; reflexivity).
  assert (waited kSocketTimeoutSec c c2) as Hw by exact Hw2. clearbody c1 fd c0.
  destruct ok.
  - nwp_step. split_and!; [done|congruence|by apply Hk2; left|by right|done].
  - unfold close. do 2 nwp_step. match goal with |- nwp _ _ ?c' => set (c3 := c') end.
    assert (open_files c3 = base) as Ho3.
    { change (open_files c2 ∖ {[fd]} = base). rewrite Ho2'. clear -Hnb; set_solver. }
    assert (misuse c3 = false) as Hm3.
    { change (bool_decide (fd ∉ open_files c2) || misuse c2 = false).
      rewrite Hm2, Hm, Ho2', bool_decide_eq_false_2; [done|clear; set_solver]. }
    assert (rest c3 = rest c) as Hr3 by exact Hr2.
    assert (waited kSocketTimeoutSec c c3) as Hw3 by exact Hw. assert (nonblocking c3 = ∅) as Hn3 by exact Hd2.
    clearbody c3. eapply nwp_mono; [by apply (IH c3)|]. intros fd' c' (Hr & Hm' & Hn' & Hfd & Hw').
    split_and!; [congruence|done|done|done|by eapply waited_trans].
Qed.

(** After [TcpConnect]: the socket, or nothing. *)
Lemma tcp_connect base c :
  owned base c → disconnected c → conn_cxt_ c = true →
  nwp TcpConnect
    (λ ok c', owned base c' ∧ conn_cxt_ c' = true ∧ client_ c' = false ∧ ssl_ c' = false ∧ ssl_ctx_ c' = false ∧
       types_ c' = [] ∧ (if ok then 0 ≤ fd_ c' else fd_ c' = -1) ∧ waited kSocketTimeoutSec c c' ∧ chunks c' = chunks c) c.
Proof.
  intros Hown (Hfd & Hcl & Hss & Hsc & Hty) Hcx. unfold TcpConnect. do 2 nwp_step.
  set (c0 := c <| os_calls ::= S |>).
  pose proof (ow_files _ _ Hown) as Hfi. rewrite Hfd in Hfi. simpl in Hfi. rewrite union_empty_r_L in Hfi.
  destruct (getaddrinfo _) as [n|]; nwp_step.
  2: { split_and!; try done; [by apply owned_calls|by apply waited_refl]. }
  eapply nwp_mono; [apply (try_addresses_spec n c0 base); [done|apply Hown|apply Hown]|].
  intros fd c' (Hr & Hm & Hn & Hfd' & Hw). change (rest c' = rest c) in Hr.
  change (waited kSocketTimeoutSec c c') in Hw. clearbody c0.
  destruct Hfd' as [[-> Ho]|(Hpos & Hnb & Ho)]; simpl.
  - nwp_step. assert (owned base c') as Hown' by (eapply owned_rest; [done..|congruence|done|done]).
    injection Hr as E1 E2 E3 E4 E5 E6 E7 E8 E9 E10 E11 E12 E13 E14 E15 E16. split_and!; simpl; congruence || done.
  - rewrite (proj2 (Z.ltb_ge _ _) Hpos). do 2 nwp_step. nwp_step. destruct Hown.
    injection Hr as E1 E2 E3 E4 E5 E6 E7 E8 E9 E10 E11 E12 E13 E14 E15 E16. split_and!; simpl; try (congruence || done).
    constructor; simpl; rewrite ?E1, ?E2, ?E7, ?E12, ?E13, ?E14, ?E15, ?E16; try (congruence || done || by destruct ow_misuse0);
      [by rewrite (proj2 (Z.leb_le _ _) Hpos)|by right].
Qed.

(** TLS set up so far. *)
Record tls_state (base : gset Z) (c : Conn) (ctx session : bool) (c' : Conn) : Prop := {
  tl_owned : owned base c';
  tl_same : conn_cxt_ c' = conn_cxt_ c ∧ client_ c' = client_ c ∧ fd_ c' = fd_ c ∧ types_ c' = types_ c ∧ waits c' = waits c ∧ chunks c' = chunks c;
  tl_ctx : ssl_ctx_ c' = ctx;
  tl_ssl : ssl_ c' = session }.

Lemma tls_os base c ctx session c' : tls_state base c ctx session c' → tls_state base c ctx session (c' <| os_calls ::= S |>).
Proof. intros []. by constructor; [apply owned_calls|..]. Qed.

Definition tls_done (base : gset Z) (c : Conn) (ok : bool) (c' : Conn) : Prop :=
  ∃ ctx session, tls_state base c ctx session c' ∧ (ok = true → ctx = true ∧ session = true).

(** A call that may fail, and what follows if it does not. *)
Lemma tls_check base c ctx session (m : Net bool) (k : Net bool) c' :
  m = mret true ∨ (∃ f, m = os f) → tls_state base c ctx session c' →
  (∀ c'', tls_state base c ctx session c'' → nwp k (tls_done base c) c'') →
  nwp (ok ← m; if negb ok then mret false else k) (tls_done base c) c'.
Proof.
  intros Hm Ht Hk. nwp_step. destruct Hm as [->|[f ->]]; nwp_step; [by apply Hk|].
  destruct (f _); cbn [negb]; [by apply Hk, tls_os|]. nwp_step. exists ctx, session. split; [by apply tls_os|done].
Qed.

Lemma tls_connect base c :
  owned base c → conn_cxt_ c = true → ssl_ c = false → ssl_ctx_ c = false → nwp TlsConnect (tls_done base c) c.
Proof.
  intros Hown Hcx Hss Hsc. unfold TlsConnect. do 2 nwp_step. do 2 nwp_step.
  assert (∀ ok, tls_state base c ok false (c <| os_calls ::= S |> <| ssl_ctx_ := ok |>
            <| live_ssl_ctxs ::= λ n, if ok then S n else n |>)) as H1.
  { intros ok. destruct Hown. constructor; simpl; try done. constructor; simpl; try done; [|congruence].
    rewrite ow_ssl_ctx0, Hsc. by destruct ok. }
  destruct (SSL_CTX_new _); cbn [negb]; [|nwp_step; exists false, false; by split].
  apply (tls_check _ _ true false); [destruct psch_clickhouse_skip_tls_verify; eauto|apply (H1 true)|]. intros c1 Hc1.
  do 4 nwp_step.
  assert (∀ ok, tls_state base c true ok (c1 <| os_calls ::= S |> <| ssl_ := ok |>
            <| live_ssls ::= λ n, if ok then S n else n |>)) as H2.
  { intros ok. destruct Hc1 as [[] Hsame Hctx Hssl]. constructor; simpl; try done. constructor; simpl; try done.
    - rewrite ow_ssl0, Hssl. by destruct ok.
    - destruct Hsame. congruence. }
  destruct (SSL_new _); cbn [negb]; [|nwp_step; exists true, false; by split].
  apply (tls_check _ _ true true); [eauto|apply (H2 true)|]. intros c2 Hc2.
  apply (tls_check _ _ true true); [destruct psch_clickhouse_skip_tls_verify; eauto|done|]. intros c3 Hc3.
  apply (tls_check _ _ true true); [eauto|done|]. intros c4 Hc4.
  nwp_step. exists true, true. split; [by apply tls_os|done].
Qed.

(** Making the contexts: both, or none and no connection. *)
Lemma ensure_contexts base c :
  owned base c →
  nwp EnsureMemoryContexts (λ ok c', owned base c' ∧ waits c' = waits c ∧ chunks c' = chunks c ∧
    (if ok then conn_cxt_ c' = true else conn_cxt_ c = false ∧ disconnected c')) c.
Proof.
  intros Hown. unfold EnsureMemoryContexts, MemoryContextsReady. do 2 nwp_step.
  pose proof (proj2 (ow_contexts _ _ Hown)) as Hb. rewrite <- Hb. destruct (conn_cxt_ c) eqn:Hc; simpl; [by nwp_step|].
  pose proof (ow_unready _ _ Hown Hc) as Hd. pose proof (unready_chunks _ _ Hown (eq_sym Hb)) as Hch.
  destruct Hown as [Hfi Hfd Hbl Hcx Hss Hcl [Hco _] Hal Hck Hty Hun Hmi].
  rewrite Hc, <- Hb in Hco. simpl in Hco.
  unfold make_context. do 3 nwp_step. rewrite Hc. do 2 nwp_step. nwp_step.
  destruct (AllocSetContextCreate _); repeat nwp_step; simpl.
  - rewrite <- Hb. repeat nwp_step. destruct (AllocSetContextCreate _); repeat nwp_step; simpl.
    + split_and!; [|done|done|done]. constructor; simpl; try done; [by rewrite Hco| |].
      * intros p x. by rewrite Hch.
      * destruct Hd as (_ & _ & _ & _ & ->). done.
    + unfold release, MemoryContextDelete, drop_chunks. repeat nwp_step. simpl. rewrite <- Hb. repeat nwp_step. simpl.
      repeat nwp_step. eapply nwp_free; [simpl; by rewrite Hco|]. repeat nwp_step. simpl. rewrite Hch, map_filter_empty.
      split_and!; [|done..]. constructor; simpl; rewrite ?Hch, ?map_filter_empty; try done; [by rewrite Hco, <- Hb|by rewrite <- Hb|].
      destruct Hd as (_ & _ & _ & _ & ->). done.
  - unfold release. repeat nwp_step. simpl. rewrite <- Hb. repeat nwp_step. simpl. rewrite Hc. repeat nwp_step.
    split_and!; [|done..]. constructor; simpl; rewrite ?Hc, <- ?Hb, ?Hch; try done.
Qed.

Lemma establish_owned base c :
  owned base c →
  nwp EstablishNewConnection
    (λ ok c', owned base c' ∧ (if ok then conn_cxt_ c' = true ∧ 0 ≤ fd_ c' ∧ ssl_ c' = psch_clickhouse_use_tls ∧
                                 ssl_ctx_ c' = psch_clickhouse_use_tls
                               else disconnected c') ∧ waited kSocketTimeoutSec c c' ∧ chunks c' = chunks c ∧
       (conn_cxt_ c = true → conn_cxt_ c' = true)) c.
Proof.
  intros Hown. unfold EstablishNewConnection. nwp_step. eapply nwp_mono; [by apply ensure_contexts|].
  intros ready c1 (H1 & Hw1 & Hk1 & Hr). destruct ready; cbn [negb].
  2: { nwp_step. split_and!; [done|apply Hr|by apply waited_refl|done|]. destruct Hr as [-> _]. done. }
  nwp_step. eapply nwp_mono; [by apply close_connection|]. intros _ c2 (H2 & Hd2 & Hc2 & Hw2 & Hk2).
  nwp_step. eapply nwp_mono; [apply tcp_connect; [done|done|congruence]|].
  intros ok c3 (H3 & Hc3 & Hcl3 & Hss3 & Hsc3 & Hty3 & Hfd3 & Hw3 & Hk3).
  assert (waited kSocketTimeoutSec c c3) as Hw by (eapply waited_trans; [|exact Hw3]; apply waited_refl; congruence).
  destruct ok; cbn [negb].
  2: { nwp_step. split_and!; [done|by split_and!|done|congruence|done]. }
  nwp_step.
  eapply (nwp_mono _ (λ ok c', ∃ ctx ses, tls_state base c3 ctx ses c' ∧
            (ok = true → ctx = psch_clickhouse_use_tls ∧ ses = psch_clickhouse_use_tls))).
  { destruct psch_clickhouse_use_tls; [by apply tls_connect|]. nwp_step. exists false, false. split; [|done].
    by constructor. }
  intros ok c4 (ctx & ses & [H4 (E1 & E2 & E3 & E4 & E5 & E6) Ectx Essl] & Hok).
  assert (∀ c', waits c' = waits c4 → waited kSocketTimeoutSec c c') as Hwaits.
  { intros c' Hc'. eapply waited_trans; [exact Hw|]. apply waited_refl. congruence. }
  destruct ok; cbn [negb].
  2: { nwp_step. eapply nwp_mono; [by apply close_connection|]. intros _ c5 (H5 & Hd5 & Hc5 & Hw5 & Hk5).
       nwp_step. split_and!; [done|done|by apply Hwaits|congruence|congruence]. }
  destruct (Hok eq_refl) as [Hctx Hses].
  unfold SetReadDeadline. do 4 nwp_step. do 4 nwp_step. set (init := chc_client_init _).
  match goal with |- nwp _ _ ?c' => set (c5 := c') end.
  assert (owned base c5) as H5.
  { unfold c5. destruct H4. constructor; simpl; try done; [|congruence].
    rewrite ow_client0, E2, Hcl3. by destruct init.2. }
  assert (conn_cxt_ c5 = true ∧ 0 ≤ fd_ c5 ∧ ssl_ c5 = psch_clickhouse_use_tls ∧ ssl_ctx_ c5 = psch_clickhouse_use_tls ∧
          waits c5 = waits c4 ∧ chunks c5 = chunks c) as (F1 & F2 & F3 & F4 & F5 & F6).
  { unfold c5. simpl. split_and!; congruence. }
  clearbody c5. destruct init.1; cbn [negb].
  - nwp_step. split; [done|]. split_and!; [done..|by apply Hwaits|done|done].
  - nwp_step. eapply nwp_mono; [by apply release_client|]. intros _ c6 [H6 E0].
    assert (waits c6 = waits c5 ∧ chunks c6 = chunks c5 ∧ conn_cxt_ c6 = true) as (Hw6 & Hk6 & Hc6) by by rewrite E0.
    nwp_step. eapply nwp_mono; [by apply close_connection|]. intros _ c7 (H7 & Hd7 & Hc7 & Hw7 & Hk7).
    nwp_step. split_and!; [done|done|apply Hwaits; congruence|congruence|congruence].
Qed.

(** No address answers: no connection. *)
Lemma establish_unreachable c : (∀ n, connect n = ConnectFailed) → nwp EstablishNewConnection (λ ok _, ok = false) c.
Proof.
  intros Hnet.
  assert (∀ fd t c, nwp (ConnectWithTimeout fd t) (λ ok _, ok = false) c) as Hcon.
  { intros fd t c'. unfold ConnectWithTimeout. do 2 nwp_step. destruct (fcntl_getfl_ok _); cbn [negb]; [|by nwp_step].
    do 3 nwp_step. eapply nwp_mono; [apply set_nonblocking_spec|]. intros [] c1 _; cbn [negb]; [|by nwp_step].
    do 2 nwp_step. rewrite Hnet. do 3 nwp_step. eapply nwp_mono; [apply set_nonblocking_spec|].
    intros [] c2 _; cbn [negb]; by nwp_step. }
  assert (∀ n c, nwp (try_addresses n) (λ fd _, fd = -1) c) as Htry.
  { induction n as [|n IH]; intros c'; cbn [try_addresses]; [by nwp_step|]. do 2 nwp_step.
    destruct (socket_ok _); cbn [negb]; [|apply IH]. do 4 nwp_step. nwp_step.
    eapply nwp_mono; [apply Hcon|]. intros ok c1 ->. unfold close. do 2 nwp_step. apply IH. }
  unfold EstablishNewConnection. nwp_step. unfold nwp at 1. destruct (EnsureMemoryContexts c) as [[] c1]; cbn [negb fst snd];
    [|by nwp_step].
  nwp_step. unfold nwp at 1. set (c2 := (CloseConnection c1).2). nwp_step. unfold TcpConnect. do 2 nwp_step.
  destruct (getaddrinfo _) as [n|]; [|exact eq_refl].
  nwp_step. eapply nwp_mono; [apply Htry|]. intros fd c3 ->. exact eq_refl.
Qed.

Lemma resolve_type_owned base name c :
  owned base c → conn_cxt_ c = true →
  nwp (ResolveType name) (λ _ c', owned base c' ∧ conn_cxt_ c' = true ∧ fd_ c' = fd_ c ∧ client_ c' = client_ c ∧ chunks c' = chunks c) c.
Proof.
  intros Hown Hc. unfold ResolveType. do 2 nwp_step. destruct (list_find _ _); [by nwp_step|].
  do 2 nwp_step. destruct (chc_type_parse _ _); [nwp_step; split; [by apply owned_calls|done]|]. do 2 nwp_step. nwp_step.
  split; [|done]. destruct Hown. constructor; simpl; try done; [|congruence]. apply Forall_app. auto.
Qed.

Lemma owned_lib_state base c : owned base c → lib_state BatchCxt c (dom (chunks c)) c.
Proof.
  intros Hown. constructor; [by destruct c|done| |].
  - intros p x Hp. apply (ow_chunks _ _ Hown p x Hp).
  - intros [x Hx]%elem_of_dom. by destruct (ow_chunks _ _ Hown 0 x Hx).
Qed.

(** Running a function of the library with the allocator of the batch. *)
Lemma run_lib_owned base {A} (m : LibProg A) Q c :
  palloc_laws → owned base c → batch_cxt_ c = true → confined m (dom (chunks c)) Q →
  nwp (run_lib (MakePschChcAlloc BatchCxt) m)
    (λ a c', owned base c' ∧ Q a (dom (chunks c')) ∧ c' = c <| chunks := chunks c' |> <| os_calls := os_calls c' |>) c.
Proof.
  intros Hl Hown Hb Hm. eapply nwp_mono; [by apply (run_lib_ok Hl BatchCxt c m (dom (chunks c)) Q c Hm), (owned_lib_state base)|].
  intros a c' (S' & HQ & [Hf Hd Hc Hn]). rewrite Hd. split_and!; [|done|done].
  rewrite Hf. destruct Hown. constructor; simpl; try done. intros p x Hp. split_and!; [|by eapply Hc|done].
  intros ->. apply Hn. rewrite <- Hd. by apply elem_of_dom_2 in Hp.
Qed.

Lemma reset_batch base c :
  owned base c → nwp ResetBatchContext (λ _ c', owned base c' ∧ chunks c' = ∅ ∧ c' = c <| chunks := ∅ |>) c.
Proof.
  intros Hown. pose proof (no_batch_chunks _ _ Hown) as Hc. pose proof (unready_chunks _ _ Hown) as Hu.
  unfold ResetBatchContext, MemoryContextReset, drop_chunks. do 2 nwp_step. destruct (batch_cxt_ c) eqn:Hb.
  - repeat nwp_step. simpl. rewrite Hc. destruct Hown as [H1 H2 H3 H4 H5 H6 H7 [H8 H9] H10 H11 H12 H13].
    split_and!; [constructor; simpl; try done; [by rewrite Hb|intros p x; by rewrite Hc]|done|].
    destruct c; simpl in *. unfold set_field. simpl. rewrite Hb in H9. rewrite Hc. congruence.
  - nwp_step. specialize (Hu eq_refl). split_and!; [done|done|]. destruct c; simpl in *. unfold set_field. simpl. congruence.
Qed.

(** The destructor leaves the process with its other files. *)
Definition nothing_left (base : gset Z) (c : Conn) : Prop :=
  open_files c = base ∧ live_contexts c = 0%nat ∧ live_ssl_ctxs c = 0%nat ∧ live_ssls c = 0%nat ∧
  live_clients c = 0%nat ∧ chunks c = ∅ ∧ misuse c = false ∧ raised c = false.

Lemma destroy_releases base c : owned base c → nwp Destroy (λ _ c', nothing_left base c') c.
Proof.
  intros H0. unfold Destroy. nwp_step. eapply nwp_mono; [by apply close_connection|].
  intros _ c1 (H1 & (D1 & D2 & D3 & D4 & D5) & _).
  pose proof (unready_chunks _ _ H1) as Hu. pose proof (no_batch_chunks _ _ H1) as Hbc.
  destruct H1 as [Hfi Hfd Hbl Hcx Hss Hcl [Hco Hb] Hal Hck Hty Hun [Hmi Hra]].
  rewrite D1 in Hfi. simpl in Hfi. rewrite union_empty_r_L in Hfi. rewrite D4 in Hcx. rewrite D3 in Hss. rewrite D2 in Hcl.
  unfold ClearTypes. do 2 nwp_step. rewrite D5. cbn [forallb negb].
  unfold release. do 3 nwp_step. simpl. rewrite <- Hb in Hco, Hu |- *. destruct (conn_cxt_ c1) eqn:Hc; simpl in Hco |- *.
  - nwp_step. unfold MemoryContextDelete. repeat nwp_step. eapply nwp_free; [exact Hco|]. repeat nwp_step. cbn. rewrite Hc.
    repeat nwp_step. eapply nwp_free; [simpl; by rewrite Hco|]. repeat nwp_step. unfold nothing_left, drop_chunks; simpl.
    by rewrite Hbc, map_filter_empty, Hco.
  - repeat nwp_step. simpl. rewrite Hc. nwp_step. split_and!; try done. by apply Hu.
Qed.

End thms.

(** ** Properties *)

(** C37: Connecting is bounded and leaves the socket as the client library wants it.
    With a clock that does not go back, every wait is between one millisecond and the
    time-out, however often signals interrupt it; no file is opened or closed; and
    when it succeeds, or whenever [fcntl] does not fail, the socket is in blocking
    mode again. *)
Theorem connect_bounded {NL : NetLib} fd timeout_sec c
  (Ht : 0 ≤ timeout_sec ≤ 2000000) (Hfd : fd ∉ nonblocking c) :
  let '(ok, c') := ConnectWithTimeout fd timeout_sec c in
  open_files c' = open_files c ∧ waited timeout_sec c c' ∧
  (ok = true ∨ (∀ n, fcntl_setfl_ok n = true) → nonblocking c' = nonblocking c).
Proof.
  pose proof (connect_spec fd timeout_sec c Ht Hfd) as H. unfold nwp in H.
  destruct (ConnectWithTimeout fd timeout_sec c) as [ok c']. simpl in H. destruct H as (_ & Ho & _ & Hn & Hw). auto.
Qed.

End ChcConnectionThms.
