(* ===== verification/ClickHouse.v ===== *)
(** The ClickHouse back end ([src/src/export/clickhouse_exporter.cc]) as an
    instance of the exporter interface.

    The connection is the one of [ChcConnection.v]; the rest of the client library
    is a parameter ([ChcLib]), with the outcome of a call a function of the exporter's
    state. A block is built by programs that call back for memory. What the server sends
    is a list of packets that calls to the library add to. *)

From S2P Require Import Prelude Event Shared Ring Exporter ChcConnection.
Import Event Shared Ring Exporter ChcConnection.

Module ClickHouse.

Definition kMaxRecvPackets : nat := 4096.

(** The C++ class of a column; two columns of a name must agree on it. *)
Inductive ColT : Set :=
  | FixedCol_uint8 | FixedCol_int16 | FixedCol_int32 | FixedCol_int64 | FixedCol_uint64
  | StringCol_string | StringCol_string_view.

#[export] Instance ColT_eq_dec : EqDecision ColT.
Proof. solve_decision. Defined.

Record Column := { col_name : string; col_class : ColT; col_type : string; col_data : list Value }.

#[export] Instance Column_eta : Eta Column := λ c,
  Build_Column (col_name c) (col_class c) (col_type c) (col_data c).

(** What receiving from the server yields. *)
Inductive Packet : Set :=
  | CHC_PKT_DATA | CHC_PKT_END_OF_STREAM | CHC_PKT_OTHER
  | CHC_PKT_EXCEPTION (text : string)
  | RecvError (msg : string).

(** What the library keeps behind a [chc_block_builder] pointer: the columns of the block,
    and pointers only its functions know how to read. *)
Record Builder := { block : list Column; internals : list Z }.

(** What was exchanged with the client: a call of [chc_client_send_query] or of
    [chc_client_send_data] and whether it succeeded, a packet received. *)
Inductive Turn : Type :=
  | SendQuery (query : string) (ok : bool)
  | SendData (bb : option Builder) (ok : bool)
  | RecvPacket (pkt : Packet).

(** [turns] is history the code does not have. *)
Record ClickHouseExporter := {
  conn : Conn;
  inbox : list Packet;
  turns : list Turn;
  bb_ : option Builder;
  columns_ : list Column;
  build_err_ : option string;
  consecutive_failures_ : Z;
  exported_count_ : Z }.

#[export] Instance ClickHouseExporter_eta : Eta ClickHouseExporter := λ x,
  Build_ClickHouseExporter (conn x) (inbox x) (turns x) (bb_ x) (columns_ x) (build_err_ x)
    (consecutive_failures_ x) (exported_count_ x).

(** [files] are the descriptors the process has open for other purposes. *)
Definition MakeClickHouseExporter (files : gset Z) : ClickHouseExporter :=
  {| conn := no_connection files; inbox := []; turns := []; bb_ := None; columns_ := []; build_err_ := None;
     consecutive_failures_ := 0; exported_count_ := 0 |}.

Abbreviation CH := ClickHouseExporter.

Class ChcLib := {
  #[global] chc_net :: NetLib;
  heap_ok : CH → bool;                             (** [::operator new] *)
  chc_block_builder_init : CH → LibProg (Builder + string);     (** a builder, or an error message *)
  chc_block_builder_append_fixed : Column → Builder → LibProg (Builder * option string);
  chc_block_builder_append_string : Column → Builder → LibProg (Builder * option string);
  chc_block_builder_destroy : Builder → LibProg unit;
  chc_client_send_query : string → CH → option string * list Packet;
  chc_client_send_data : option Builder → CH → option string * list Packet }.

Section ClickHouse.
Context {CL : ChcLib}.

Definition on_conn {A} (m : Net A) (x : CH) : A * CH := let '(a, c) := m (conn x) in (a, x <| conn := c |>).

(** Packets not read go with the connection. *)
Definition CloseConnection (x : CH) : CH := (on_conn ChcConnection.CloseConnection x).2 <| inbox := [] |>.

Definition establish (x : CH) : bool * CH :=
  let '(ok, x) := on_conn EstablishNewConnection x in (ok, x <| inbox := [] |>).

Definition SetReadDeadline (x : CH) : CH := (on_conn ChcConnection.SetReadDeadline x).2.

(** Returns [false], the state and the message recorded. *)
Definition RecordFailure (message : string) (close_conn : bool) (x : CH) : bool * CH * list string :=
  let x := x <| consecutive_failures_ ::= Z.succ |> in
  (false, if close_conn then CloseConnection x else x, [message]).

(** A function of the library with the allocator of the batch; without one it would call
    a null pointer. *)
Definition on_batch {A} (m : LibProg A) (x : CH) : A * CH :=
  let x := match batch_al_ (conn x) with
           | Some _ => x
           | None => x <| conn ::= λ c, c <| misuse := true |> |>
           end in
  on_conn (run_lib (default (MakePschChcAlloc BatchCxt) (batch_al_ (conn x))) m) x.

(** The class and the ClickHouse type of a column, and its name. *)
Definition column_of (k : ColKind) : string * ColT * string :=
  match k with
  | StatLCString name => (name, StringCol_string, "String")
  | StatLCUInt8 name => (name, FixedCol_uint8, "UInt8")
  | StatLCInt16 name => (name, FixedCol_int16, "Int16")
  | StatLCInt32 name => (name, FixedCol_int32, "Int32")
  | StatHCString name => (name, StringCol_string_view, "String")
  | StatHCInt64 name => (name, FixedCol_int64, "Int64")
  | StatHCUInt64 name => (name, FixedCol_uint64, "UInt64")
  | StatTimestamp name => (name, FixedCol_int64, "DateTime64(6)")
  | DbNameColumn => ("db_name", StringCol_string, "String")
  | DbUserColumn => ("db_user", StringCol_string, "String")
  | DbDurationColumn => ("duration_us", FixedCol_uint64, "UInt64")
  | DbOperationColumn => ("db_operation", StringCol_string, "String")
  | DbQueryTextColumn => ("query_text", StringCol_string_view, "String")
  end%string.

(** [MakeCol]: the column of that name, made if there is none. *)
Definition MakeCol (name : string) (class : ColT) (type : string) (x : CH) : res nat * CH :=
  match list_find (λ c, col_name c = name) (columns_ x) with
  | Some (i, c) =>
    if bool_decide (col_class c = class) then (Ret i, x)
    else (Throw (std_exception ("ClickHouse column `" ++ name ++ "` requested with incompatible type")), x)
  | None =>
    if heap_ok x then
      (Ret (length (columns_ x)),
       x <| columns_ ::= λ l, l ++ [{| col_name := name; col_class := class; col_type := type; col_data := [] |}] |>)
    else (Throw bad_alloc, x)
  end.

(** [Append] of a column; an exception abandons the batch, so what it leaves of
    the value does not matter. *)
Definition append (i : nat) (v : Value) (x : CH) : res unit * CH :=
  if heap_ok x then (Ret tt, x <| columns_ ::= alter (λ c, c <| col_data ::= λ l, l ++ [v] |>) i |>)
  else (Throw bad_alloc, x).

Definition begin_batch (x : CH) : CH :=
  x <| columns_ ::= map (λ c, c <| col_data := [] |>) |> <| exported_count_ := 0 |>.

(** [RecvUntil], with the packets left to read; [n] more may be read. *)
Fixpoint RecvUntil (n : nat) (is_target : Packet → bool) (x : CH) : option string * CH :=
  match n with
  | O => (Some "too many packets awaiting response"%string, x)
  | S n =>
    match inbox x with
    | [] => (Some "recv_packet failed"%string, x)
    | pkt :: rest =>
      let x := x <| inbox := rest |> <| turns ::= λ l, l ++ [RecvPacket pkt] |> in
      match pkt with
      | RecvError msg => (Some msg, x)
      | CHC_PKT_EXCEPTION text => (Some text, x)
      | _ => if is_target pkt then (None, x) else RecvUntil n is_target x
      end
    end
  end.

Definition is_data (p : Packet) : bool := match p with CHC_PKT_DATA => true | _ => false end.
Definition is_end (p : Packet) : bool := match p with CHC_PKT_END_OF_STREAM => true | _ => false end.

Definition insert_query (names : list string) : string :=
  "INSERT INTO events_raw (" ++ String.concat ", " names ++ ") VALUES".

Definition BuildInsertQuery (x : CH) : string := insert_query (map col_name (columns_ x)).

(** After a call that sends; the server's answer waits to be read. *)
Definition sent (turn : bool → Turn) (r : option string * list Packet) (x : CH) : option string * CH :=
  (r.1, x <| inbox ::= λ l, l ++ r.2 |> <| turns ::= λ l, l ++ [turn (bool_decide (r.1 = None))] |>).

(** Returns an error message, or none. *)
Definition SendInsert (bb : option Builder) (x : CH) : option string * CH :=
  let x := SetReadDeadline x in
  let query := BuildInsertQuery x in
  let '(err, x) := sent (SendQuery query) (chc_client_send_query query x) x in
  match err with
  | Some e => (Some e, x)
  | None =>
    let '(err, x) := RecvUntil kMaxRecvPackets is_data x in
    match err with
    | Some e => (Some e, x)
    | None =>
      let '(err, x) := sent (SendData bb) (chc_client_send_data bb x) x in
      match err with
      | Some e => (Some e, x)
      | None =>
        let '(err, x) := sent (SendData None) (chc_client_send_data None x) x in
        match err with
        | Some e => (Some e, x)
        | None => RecvUntil kMaxRecvPackets is_end (SetReadDeadline x)
        end
      end
    end
  end.

(** [Crunch] of a column: [AppendFixed] or [AppendString], which do nothing after an
    error. *)
Definition is_string (c : Column) : bool :=
  match col_class c with StringCol_string | StringCol_string_view => true | _ => false end.

(** A call on the builder that [bb_] points to. *)
Definition on_builder (m : Builder → LibProg (Builder * option string)) (x : CH) : CH :=
  match bb_ x with
  | None => x <| conn ::= λ c, c <| misuse := true |> |>
  | Some b =>
    let '((b, err), x) := on_batch (m b) x in
    x <| bb_ := Some b |> <| build_err_ := err |>
  end.

Definition Crunch (c : Column) (x : CH) : CH :=
  match build_err_ x with
  | Some _ => x
  | None =>
    if is_string c then on_builder (chc_block_builder_append_string c) x
    else
      let '(err, x) := on_conn (ResolveType (col_type c)) x in
      match err with
      | Some e => x <| build_err_ := Some e |>
      | None => on_builder (chc_block_builder_append_fixed c) x
      end
  end.

Definition crunch_all (x : CH) : CH := foldl (λ x c, Crunch c x) (x <| build_err_ := None |>) (columns_ x).

Definition ResetBatchContext (x : CH) : CH := (on_conn ChcConnection.ResetBatchContext x).2.

(** The destructors of [CommitBatch] in their order: the pointer is cleared, the builder
    destroyed, the context reset. *)
Definition end_batch (x : CH) : CH :=
  let b := bb_ x in
  let x := x <| bb_ := None |> in
  ResetBatchContext match b with Some b => (on_batch (chc_block_builder_destroy b) x).2 | None => x end.

(** A [return]: the value is computed before the destructors run. *)
Definition leave (r : bool * CH * list string) : bool * CH * list string := let '(ok, x, msgs) := r in (ok, end_batch x, msgs).

(** [CommitBatch], whose own [catch] turns an exception into a failure, after the
    destructors. *)
Definition commit (x : CH) : bool * CH * list string :=
  if negb (MemoryContextsReady (conn x)) then RecordFailure "allocator not initialized" false x
  else
    let '(made, x) := on_batch (chc_block_builder_init x) x in
    match made with
    | inr msg => leave (RecordFailure msg false x)
    | inl b =>
      let x := x <| bb_ := Some b |> in
      let '(established, x) := if client_ (conn x) then (true, x) else establish x in
      if negb (established && client_ (conn x)) then leave (RecordFailure "connection not established" false x)
      else
        let x := crunch_all x in
        match build_err_ x with
        | Some err => leave (RecordFailure err false x)
        | None =>
          if negb (heap_ok x) then RecordFailure "out of memory" true (end_batch x)
          else
            let '(err, x) := SendInsert (bb_ x) x in
            match err with
            | Some msg => leave (RecordFailure msg true x)
            | None => leave (true, x <| consecutive_failures_ := 0 |>, [])
            end
        end
    end.

#[global] Instance ClickHouse_exporter : StatsExporter CH := {|
  IsConnected x := client_ (conn x);
  NumConsecutiveFailures := consecutive_failures_;
  NumExported := exported_count_;
  ResetFailures x := x <| consecutive_failures_ := 0 |>;
  Exporter.EstablishNewConnection x := let '(ok, x') := establish x in (Ret ok, x', []);
  BeginBatch x := (Ret tt, begin_batch x);
  MakeColumn k x := let '(name, class, type) := column_of k in MakeCol name class type x;
  BeginRow x := (Ret tt, x <| exported_count_ ::= Z.succ |>, []);
  Append := append;
  CommitBatch x := let '(ok, x', msgs) := commit x in (Ret ok, x', msgs);
  SendArrowBatch _ _ x := (Ret false, x, []) |}.

(** *** Commits and the rows *)

(** The columns and the number of rows, which a commit leaves alone, and what was
    exchanged with the client. *)
Definition rows_of (x : CH) : list Column * Z := (columns_ x, exported_count_ x).
Definition in_batch (x : CH) : (list Column * Z) * list Turn := (rows_of x, turns x).

Lemma close_in_batch x : in_batch (CloseConnection x) = in_batch x.
Proof. unfold CloseConnection, on_conn. by destruct (ChcConnection.CloseConnection _). Qed.

Lemma establish_in_batch x : in_batch (establish x).2 = in_batch x.
Proof. unfold establish, on_conn. by destruct (EstablishNewConnection _). Qed.

Lemma deadline_in_batch x : in_batch (SetReadDeadline x) = in_batch x.
Proof. unfold SetReadDeadline, on_conn. by destruct (ChcConnection.SetReadDeadline _). Qed.

Lemma on_conn_in_batch {A} (m : Net A) x : in_batch (on_conn m x).2 = in_batch x.
Proof. unfold on_conn. by destruct (m (conn x)). Qed.

Lemma on_batch_in_batch {A} (m : LibProg A) x : in_batch (on_batch m x).2 = in_batch x.
Proof. unfold on_batch. cbv zeta. rewrite on_conn_in_batch. by destruct (batch_al_ (conn x)). Qed.

Lemma on_builder_in_batch m x : in_batch (on_builder m x) = in_batch x.
Proof.
  unfold on_builder. destruct (bb_ x) as [b|]; [|done]. pose proof (on_batch_in_batch (m b) x) as H.
  by destruct (on_batch (m b) x) as [[b' err] x'].
Qed.

Lemma crunch_in_batch x : in_batch (crunch_all x) = in_batch x.
Proof.
  unfold crunch_all. generalize (columns_ x) at 1. intros cs.
  change (in_batch x) with (in_batch (x <| build_err_ := None |>)). generalize (x <| build_err_ := None |>).
  clear x. induction cs as [|c cs IH]; intros x; simpl; [done|]. rewrite IH.
  unfold Crunch. destruct (build_err_ x); [done|]. destruct (is_string c); [apply on_builder_in_batch|].
  pose proof (on_conn_in_batch (ResolveType (col_type c)) x) as H.
  destruct (on_conn _ x) as [[e|] x']; [done|]. by rewrite on_builder_in_batch.
Qed.

Lemma end_in_batch x : in_batch (end_batch x) = in_batch x.
Proof.
  unfold end_batch, ResetBatchContext. cbv zeta. rewrite on_conn_in_batch. by destruct (bb_ x); [rewrite on_batch_in_batch|].
Qed.

Lemma leave_in_batch r : in_batch (leave r).1.2 = in_batch r.1.2.
Proof. destruct r as [[ok x] msgs]. apply end_in_batch. Qed.

Lemma recv_rows n t x : rows_of (RecvUntil n t x).2 = rows_of x.
Proof.
  revert x. induction n as [|n IH]; intros x; simpl; [done|].
  destruct (inbox x) as [|pkt rest]; [done|]. destruct pkt; try done; destruct (t _); try done; by rewrite IH.
Qed.

Lemma send_rows bb x : rows_of (SendInsert bb x).2 = rows_of x.
Proof.
  unfold SendInsert, sent. cbv zeta. rewrite <- (f_equal fst (deadline_in_batch x) : rows_of _ = rows_of x). generalize (SetReadDeadline x). clear x. intros x.
  set (r1 := chc_client_send_query _ _). destruct r1.1; [done|].
  set (x1 := x <| inbox ::= _ |> <| turns ::= _ |>). pose proof (recv_rows kMaxRecvPackets is_data x1) as H1.
  destruct (RecvUntil _ is_data x1) as [[e|] x2]; [done|]. simpl in H1.
  set (r2 := chc_client_send_data _ x2). destruct r2.1; [done|].
  set (x3 := x2 <| inbox ::= _ |> <| turns ::= _ |>). set (r3 := chc_client_send_data None x3). destruct r3.1; [done|].
  rewrite recv_rows. exact (eq_trans (f_equal fst (deadline_in_batch _)) H1).
Qed.

Lemma failure_in_batch msg close x : in_batch (RecordFailure msg close x).1.2 = in_batch x.
Proof. unfold RecordFailure. destruct close; cbn [fst snd]; [by rewrite close_in_batch|done]. Qed.

Lemma commit_rows x : rows_of (commit x).1.2 = rows_of x.
Proof.
  assert (∀ y z, in_batch y = in_batch z → rows_of y = rows_of z) as Hr by (intros y z H; exact (f_equal fst H)).
  unfold commit. destruct (MemoryContextsReady (conn x)); [|done]. cbn [negb].
  pose proof (on_batch_in_batch (chc_block_builder_init x) x) as H0.
  destruct (on_batch _ x) as [[b|msg] x0]; [|apply Hr; by rewrite leave_in_batch, failure_in_batch].
  set (x' := x0 <| bb_ := Some b |>). change (in_batch x' = in_batch x) in H0.
  assert (in_batch (if client_ (conn x') then (true, x') else establish x').2 = in_batch x') as H.
  { destruct (client_ (conn x')); [done|apply establish_in_batch]. }
  destruct (if client_ (conn x') then (true, x') else establish x') as [ok x1].
  assert (in_batch x1 = in_batch x) as H1 by (rewrite <- H0; exact H).
  destruct (ok && client_ (conn x1)); cbn [negb]; [|apply Hr; by rewrite leave_in_batch, failure_in_batch].
  pose proof (crunch_in_batch x1) as Hc. set (x2 := crunch_all x1) in *.
  destruct (build_err_ x2); [apply Hr; rewrite leave_in_batch, failure_in_batch; congruence|].
  destruct (heap_ok x2); cbn [negb]; [|apply Hr; rewrite failure_in_batch, end_in_batch; congruence].
  pose proof (send_rows (bb_ x2) x2) as H2. rewrite <- (Hr x2 x) by congruence.
  destruct (SendInsert (bb_ x2) x2) as [[e|] x3]; cbn [fst snd] in *; rewrite (Hr _ _ (leave_in_batch _)); cbn [fst snd];
    [rewrite (Hr _ _ (failure_in_batch _ _ _))|]; exact H2.
Qed.

#[global] Instance ClickHouse_laws : StatsExporterLaws CH.
Proof.
  refine {| begun n x := exported_count_ x ≤ n |}; simpl; try done.
  - intros x x' [= <-]. simpl. lia.
  - intros k n x i x'. destruct (column_of k) as [[name class] type]. unfold MakeCol.
    destruct (list_find _ _) as [[j c]|]; [case_bool_decide|destruct (heap_ok x)]; by intros [= <- <-].
  - intros n x x' msgs [= <- _] H. simpl. lia.
  - intros i v n x x'. unfold append. destruct (heap_ok x); by intros [= <-].
  - intros n x ok x' msgs. pose proof (f_equal snd (commit_rows x)) as H. destruct (commit x) as [[ok' x1] m].
    intros [= <- <- <-]. simpl in H. by rewrite H.
Defined.

End ClickHouse.

End ClickHouse.
