(* ===== verification/ArrowThms.v ===== *)
(** The Arrow builder: a finished block is the table of the events appended to it,
    its columns fit the schema, and the estimate bounds its size. *)

From stdpp Require Import pretty.
From S2P Require Import Prelude Event StringUtils Shared Exporter Arrow.
Import Event StringUtils Shared Exporter Arrow.

Module ArrowThms.

(** ** The tables of names *)

Definition column_names : list string := map fst schema_fields.

Lemma column_names_nodup : NoDup column_names.
Proof. apply (bool_decide_eq_true_1 _). vm_compute. reflexivity. Qed.

Lemma row_names b ev : map fst (row b ev) = column_names.
Proof. reflexivity. Qed.

Lemma finish_names : map fst finish_order = column_names.
Proof. reflexivity. Qed.

Lemma reset_names : map fst reset_order = column_names.
Proof. reflexivity. Qed.

(** The Arrow type a builder produces, and how it is finished and reset. *)
Definition built_type (t : BuilderType) : DataType :=
  match t with
  | TimestampBuilder => TimestampType
  | DictBuilder => DictionaryUtf8Type
  | StringBuilder => utf8
  | Int32Builder => int32
  | UInt64Builder => uint64
  | UInt32Builder => uint32
  end.
Definition finished_by (t : BuilderType) : FinishKind :=
  match t with DictBuilder => FinishDictionaryArray | _ => FinishArray end.
Definition reset_by (t : BuilderType) : ResetKind :=
  match t with DictBuilder => ResetFull | _ => Reset end.

(** Every member is declared, finished and reset in the order of the schema, with
    the type of its field. *)
Lemma schema_agrees :
  schema_fields = map (λ m, (m.1, built_type m.2)) members ∧
  finish_order = map (λ m, (m.1, finished_by m.2)) members ∧
  reset_order = map (λ m, (m.1, reset_by m.2)) members.
Proof. done. Qed.

(** ** Columns of builders *)

Definition column (bs : gmap string (list Value)) (name : string) : list Value := default [] (bs !! name).

Lemma column_insert bs n n' l :
  column (<[n := l]> bs) n' = if decide (n = n') then l else column bs n'.
Proof. unfold column. rewrite lookup_insert. by case_decide. Qed.

Section lib.
Context {AR : ArrowLib}.

Lemma append_cells_column cells bs bs' :
  NoDup (map fst cells) → append_cells cells bs = (true, bs') →
  ∀ n, column bs' n = column bs n ++ match (list_to_map cells : gmap string Value) !! n with
                                     | Some v => [v] | None => [] end.
Proof.
  revert bs. induction cells as [|[name v] cells IH]; intros bs Hnd Happ n; simpl in *.
  { injection Happ as <-. rewrite lookup_empty. by rewrite app_nil_r. }
  apply NoDup_cons in Hnd as [Hnin Hnd]. destruct (builder_append _ _ _); [|done].
  rewrite (IH _ Hnd Happ n). fold (column bs name). rewrite column_insert, lookup_insert. case_decide as Hn; [|done].
  subst n. rewrite not_elem_of_list_to_map_1 by done. by rewrite app_nil_r.
Qed.

Lemma finish_columns_column order bs cols bs' :
  NoDup (map fst order) → finish_columns order bs = (Some cols, bs') →
  cols = map (λ o, column bs o.1) order.
Proof.
  revert bs cols bs'. induction order as [|[name k] order IH]; intros bs cols bs' Hnd Hf; simpl in *; [by injection Hf as <-|].
  apply NoDup_cons in Hnd as [Hnin Hnd]. destruct (builder_finish _ _); [|done].
  destruct (finish_columns order _) as [[cols1|] bs1] eqn:Hr; [|done]. injection Hf as <- <-. f_equal.
  rewrite (IH _ _ _ Hnd Hr). apply map_ext_in. intros [n k'] Hin. rewrite column_insert.
  case_decide as Hn; [|done]. simpl in Hn. subst n. destruct Hnin. apply list_elem_of_fmap. exists (name, k').
  split; [done|]. by apply list_elem_of_In.
Qed.

Lemma reset_column (order : list (string * ResetKind)) bs n :
  n ∈ map fst order → column (foldr (λ r bs, <[r.1 := []]> bs) bs order) n = [].
Proof.
  induction order as [|[name k] order IH]; [by intros ?%not_elem_of_nil|]. simpl. intros Hn.
  rewrite column_insert. case_decide; [done|]. apply IH. apply elem_of_cons in Hn as [->|]; [done|done].
Qed.

(** ** What a builder holds *)

(** A builder as [Init] leaves it. *)
Definition fresh : Impl := (Init psch_extra_attributes (Some PG_STAT_CH_VERSION) new_impl).2.

Definition cell (name : string) (ev : PschEvent) : Value :=
  default (VInt 0) ((list_to_map (row fresh ev) : gmap string Value) !! name).

Definition estimate (evs : list PschEvent) : Z :=
  foldl (λ acc ev, u64 (acc + row_bytes fresh ev)) kIpcEnvelopeBytes evs.

Record same_config (b : Impl) : Prop := {
  sc_schema : im_schema b = Some schema_fields;
  sc_attrs : extra_attrs b = extra_attrs fresh;
  sc_version : service_version b = service_version fresh }.

Record holds_rows (evs : list PschEvent) (b : Impl) : Prop := {
  hr_config : same_config b;
  hr_rows : num_rows b = Z.of_nat (length evs);
  hr_bytes : estimated_bytes b = estimate evs;
  hr_columns : ∀ n, n ∈ column_names → column (builders b) n = map (cell n) evs }.

Lemma row_config b ev : same_config b → row b ev = row fresh ev ∧ row_bytes b ev = row_bytes fresh ev.
Proof. intros [_ Ha Hv]. unfold row, row_bytes, ExtraAttr. rewrite Ha, Hv. done. Qed.

Lemma reset_holds b : same_config b → holds_rows [] (ResetImpl b).
Proof.
  intros [H1 H2 H3]. constructor; [by constructor|done|done|]. intros n Hn. by apply reset_column.
Qed.

Lemma init_reset v a b0 : ∃ b, (Init a v b0).2 = ResetImpl b ∧ im_schema b = Some schema_fields ∧
  extra_attrs b = extra_attrs (Init a v b0).2 ∧ service_version b = service_version (Init a v b0).2.
Proof. eexists. by split_and!. Qed.

Lemma init_holds : holds_rows [] fresh.
Proof.
  destruct (init_reset (Some PG_STAT_CH_VERSION) psch_extra_attributes new_impl) as (b & Hb & H1 & H2 & H3).
  fold fresh in Hb, H2, H3. rewrite Hb. by apply reset_holds.
Qed.

Lemma append_holds evs ev b b' : holds_rows evs b → AppendImpl ev b = (true, b') → holds_rows (evs ++ [ev]) b'.
Proof.
  intros [Hc Hn Hb Hcol]. destruct (row_config b ev Hc) as [Hrow Hbytes]. unfold AppendImpl. rewrite Hrow, Hbytes.
  destruct (append_cells _ _) as [[] bs] eqn:Ha; [|done]. intros [= <-].
  assert (NoDup (map fst (row fresh ev))) as Hnd by (rewrite row_names; apply column_names_nodup).
  pose proof (append_cells_column _ _ _ Hnd Ha) as Hcols. pose proof (row_names fresh ev) as Hnames.
  constructor; simpl.
  - by destruct Hc.
  - rewrite Hn, length_app. simpl. lia.
  - rewrite Hb. unfold estimate. by rewrite foldl_app.
  - intros n Hin. rewrite Hcols, Hcol, map_app by done. f_equal.
    change (map (cell n) [ev]) with [cell n ev]. unfold cell.
    generalize dependent (row fresh ev). intros cells Hrow Ha Hnd Hcols Hnames.
    destruct (list_to_map cells !! n) eqn:Hl; [done|].
    apply not_elem_of_list_to_map_2 in Hl. destruct Hl. rewrite <- Hnames in Hin. exact Hin.
Qed.

(** The record batch of some events: one column for each field of the schema,
    one value for each event. *)
Definition block_of (evs : list PschEvent) : RecordBatch :=
  {| rb_schema := schema_fields; rb_rows := Z.of_nat (length evs);
     rb_columns := map (λ f, map (cell f.1) evs) schema_fields |}.

Lemma finish_holds evs b data n b' :
  holds_rows evs b → FinishImpl b = (Ret (Some data, n), b') →
  n = Z.of_nat (length evs) ∧ write_stream (block_of evs) = Some data ∧ same_config b'.
Proof.
  intros [Hc Hn Hb Hcol]. unfold FinishImpl. rewrite (sc_schema _ Hc), Hn.
  destruct (_ =? 0); [done|]. destruct reserve_columns_ok; [|done]. cbn [negb].
  destruct (finish_columns _ _) as [[cols|] bs] eqn:Hf; [|done].
  assert (NoDup (map fst finish_order)) as Hnd by (rewrite finish_names; apply column_names_nodup).
  pose proof (finish_columns_column _ _ _ _ Hnd Hf) as ->.
  assert (map (λ o, column (builders b) o.1) finish_order = map (λ f, map (cell f.1) evs) schema_fields) as ->.
  { rewrite <- (map_map fst (column (builders b))), <- (map_map fst (λ n, map (cell n) evs)).
    rewrite finish_names. fold column_names. apply map_ext_in. intros m Hm. apply Hcol.
    by apply list_elem_of_In. }
  fold (block_of evs). destruct (write_stream _); [|done]. intros [= <- <- <-].
  split; [done|]. split; [done|]. by destruct Hc.
Qed.

#[global] Instance Arrow_laws : ArrowLaws Impl.
Proof.
  refine {| arrow_holds := holds_rows; arrow_block evs data := write_stream (block_of evs) = Some data;
            arrow_estimate := estimate |}; simpl.
  - intros b. destruct make_impl_ok; [|done]. intros [= <-]. apply init_holds.
  - intros evs ev b b' Hh. destruct (AppendImpl ev b) as [ok b1] eqn:Ha. intros [= -> <-]. by eapply append_holds.
  - intros evs b Hh. split; apply Hh.
  - intros evs b data n b' Hh Hf. destruct (finish_holds _ _ _ _ _ Hh Hf) as (? & ? & Hc).
    split_and!; [done..|]. by apply reset_holds.
  - done.
Defined.

End lib.

(** ** Extra attributes *)

Lemma split_first_here c a b : c ∉ a → split_first c (a ++ c :: b) = (a, Some b).
Proof.
  induction a as [|x a IH]; intros Hn; simpl; [by rewrite Z.eqb_refl|].
  apply not_elem_of_cons in Hn as [Hne Hn]. rewrite (proj2 (Z.eqb_neq _ _)) by congruence. by rewrite (IH Hn).
Qed.

Lemma split_first_none c a : c ∉ a → split_first c a = (a, None).
Proof.
  induction a as [|x a IH]; intros Hn; simpl; [done|].
  apply not_elem_of_cons in Hn as [Hne Hn]. rewrite (proj2 (Z.eqb_neq _ _)) by congruence. by rewrite (IH Hn).
Qed.

Abbreviation spaces := (Forall (λ c, isspace c = true)).

(** No white space at either end. *)
Definition unpadded (l : bytes) : Prop :=
  (∀ c, head l = Some c → isspace c = false) ∧ (∀ c, last l = Some c → isspace c = false).

Lemma remove_prefix_spaces p l :
  spaces p → (∀ c, head l = Some c → isspace c = false) → remove_prefix_space (p ++ l) = l.
Proof.
  intros Hp Hl. induction Hp as [|c p Hc Hp IH]; simpl; [|by rewrite Hc].
  destruct l as [|c l]; [done|]. simpl. by rewrite (Hl c).
Qed.

Lemma trim_padded p l q : spaces p → spaces q → unpadded l → TrimAsciiWhitespace (p ++ l ++ q) = l.
Proof.
  intros Hp Hq [Hh Hl]. unfold TrimAsciiWhitespace. destruct l as [|c l].
  - simpl. rewrite <- (app_nil_r (p ++ q)), (remove_prefix_spaces (p ++ q)); [done|by apply Forall_app|done].
  - rewrite remove_prefix_spaces; [|done|intros x [= <-]; by apply Hh].
    rewrite rev_app_distr, remove_prefix_spaces; [by rewrite rev_involutive| |].
    + by apply Forall_rev.
    + intros x Hx. apply Hl. rewrite <- head_reverse. unfold reverse. rewrite <- rev_alt. exact Hx.
Qed.

(** An attribute as it may be written, with white space around key and value. *)
Record AttrItem := { at_key : bytes; at_value : bytes; pad1 : bytes; pad2 : bytes; pad3 : bytes; pad4 : bytes }.

Definition render_item (a : AttrItem) : bytes :=
  (pad1 a ++ at_key a ++ pad2 a) ++ colon :: (pad3 a ++ at_value a ++ pad4 a).

Fixpoint render_attrs (l : list AttrItem) : bytes :=
  match l with
  | [] => []
  | [a] => render_item a
  | a :: rest => render_item a ++ semicolon :: render_attrs rest
  end.

Record item_ok (a : AttrItem) : Prop := {
  io_key : at_key a ≠ [] ∧ unpadded (at_key a) ∧ colon ∉ at_key a;
  io_value : unpadded (at_value a);
  io_pads : spaces (pad1 a) ∧ spaces (pad2 a) ∧ spaces (pad3 a) ∧ spaces (pad4 a);
  io_sep : semicolon ∉ render_item a;
  io_nul : 0 ∉ render_item a }.

Lemma spaces_no_colon p : spaces p → colon ∉ p.
Proof. intros Hp Hin. rewrite Forall_forall in Hp. by specialize (Hp _ Hin). Qed.

Lemma emplace_union k v m : emplace k v m = m ∪ {[k := v]}.
Proof.
  unfold emplace. apply map_eq. intros i. destruct (m !! k) eqn:Hk.
  - rewrite lookup_union. destruct (decide (i = k)) as [->|]; [by rewrite Hk, lookup_singleton_eq|].
    rewrite lookup_singleton_ne by congruence. by destruct (m !! i).
  - rewrite lookup_union. destruct (decide (i = k)) as [->|].
    + by rewrite Hk, lookup_insert_eq, lookup_singleton_eq.
    + rewrite lookup_insert_ne, lookup_singleton_ne by congruence. by destruct (m !! i).
Qed.

Lemma parse_item a m : item_ok a → parse_token (render_item a) m = m ∪ {[at_key a := at_value a]}.
Proof.
  intros [(Hne & Hk & Hc) Hv (H1 & H2 & H3 & H4) _ _]. unfold parse_token, render_item.
  rewrite split_first_here.
  - rewrite !trim_padded by done. destruct (at_key a) eqn:Hka; [done|]. rewrite <- Hka. by rewrite emplace_union.
  - rewrite !not_elem_of_app. by split_and!; auto using spaces_no_colon.
Qed.

Definition attr_map (l : list AttrItem) : Attrs := list_to_map (map (λ a, (at_key a, at_value a)) l).

Lemma parse_rendered l fuel m :
  Forall item_ok l → (length (render_attrs l) ≤ fuel)%nat → parse_loop fuel (render_attrs l) m = m ∪ attr_map l.
Proof.
  intros Hl. revert fuel m. induction Hl as [|a l Ha Hl IH]; intros fuel m Hf.
  { unfold attr_map. simpl. rewrite map_union_empty. by destruct fuel. }
  assert (∃ c rest, render_item a = c :: rest) as (c & rest & Hcr).
  { unfold render_item. destruct (pad1 a ++ at_key a ++ pad2 a); simpl; eauto. }
  assert (∀ r, m ∪ {[at_key a := at_value a]} ∪ r = m ∪ <[at_key a := at_value a]> r) as Hun.
  { intros r. by rewrite <- map_union_assoc, <- insert_union_singleton_l. }
  destruct l as [|a2 l].
  - simpl in Hf |- *. rewrite Hcr in Hf. destruct fuel as [|fuel]; [simpl in Hf; lia|].
    assert (parse_loop (S fuel) (render_item a) m = parse_token (render_item a) m) as ->.
    { cbn [parse_loop]. rewrite split_first_none by apply Ha. by rewrite Hcr. }
    rewrite (parse_item a m Ha). unfold attr_map. simpl. by rewrite insert_empty.
  - change (render_attrs (a :: a2 :: l)) with (render_item a ++ semicolon :: render_attrs (a2 :: l)) in Hf |- *.
    rewrite length_app in Hf. cbn [length] in Hf. destruct fuel as [|fuel]; [lia|].
    assert (parse_loop (S fuel) (render_item a ++ semicolon :: render_attrs (a2 :: l)) m =
            parse_loop fuel (render_attrs (a2 :: l)) (parse_token (render_item a) m)) as ->.
    { cbn [parse_loop]. rewrite split_first_here by apply Ha. by rewrite Hcr. }
    rewrite IH, (parse_item a m Ha) by lia. unfold attr_map at 2. simpl map. rewrite list_to_map_cons. apply Hun.
Qed.

(** ** Widths *)

Lemma pretty_N_go_length k x s :
  (x < 10 ^ N.of_nat k)%N → (String.length (pretty_N_go x s) ≤ k + String.length s)%nat.
Proof.
  revert x s. induction k as [|k IH]; intros x s Hx.
  { assert (x = 0)%N as -> by (simpl in Hx; lia). by rewrite pretty_N_go_0. }
  destruct (decide (x = 0)%N) as [->|Hne]; [rewrite pretty_N_go_0; lia|].
  rewrite pretty_N_go_step by lia. etrans; [apply IH|simpl; lia].
  apply N.Div0.div_lt_upper_bound. rewrite Nat2N.inj_succ, N.pow_succ_r' in Hx. lia.
Qed.

Lemma pretty_N_length k x : (0 < k)%nat → (x < 10 ^ N.of_nat k)%N → (String.length (pretty x) ≤ k)%nat.
Proof.
  intros Hk Hx. unfold pretty, pretty_N. case_decide; [simpl; lia|].
  pose proof (pretty_N_go_length k x "" Hx). simpl in *. lia.
Qed.

Lemma length_bytes_of_string s : length (bytes_of_string s) = String.length s.
Proof. unfold bytes_of_string. rewrite length_map. induction s; simpl; congruence. Qed.

(** A number of at most [k] digits fits with its sign and the NUL. *)
Lemma snprintf_fits size k n :
  (0 < k)%nat → (k + 2 ≤ size)%nat → Z.abs n < 10 ^ Z.of_nat k → snprintf_decimal size n = bytes_of_string (pretty n).
Proof.
  intros Hk Hs Hn. unfold snprintf_decimal. apply take_ge. rewrite length_bytes_of_string.
  assert (∀ p, Z.pos p < 10 ^ Z.of_nat k → (String.length (pretty (N.pos p)) ≤ k)%nat) as Hpos.
  { intros p Hp. apply pretty_N_length; [done|]. apply N2Z.inj_lt. rewrite N2Z.inj_pow, nat_N_Z. exact Hp. }
  destruct n as [|p|p]; cbn [Z.abs] in Hn.
  - change (String.length (pretty 0)) with 1%nat. lia.
  - specialize (Hpos p Hn). change (pretty (Z.pos p)) with (pretty (N.pos p)). lia.
  - specialize (Hpos p Hn). change (String.length (pretty (Z.neg p))) with (S (String.length (pretty (N.pos p)))). lia.
Qed.

(** The values the C types of the fields hold. *)
Record typed_event (ev : PschEvent) : Prop := {
  te_queryid : is_u64 (queryid (identity (ev_fixed ev)));
  te_pid : - 2 ^ 31 ≤ pid (identity (ev_fixed ev)) < 2 ^ 31;
  te_unsigned : Forall is_u64 [duration_us (ev_fixed ev); rows (ev_fixed ev); wal_bytes (wal (ev_fixed ev))];
  te_signed : let f := ev_fixed ev in
    Forall (λ z, z < 2 ^ 63)
      [shared_blks_hit (blocks f); shared_blks_read (blocks f); shared_blks_dirtied (blocks f);
       shared_blks_written (blocks f); local_blks_hit (blocks f); local_blks_read (blocks f);
       local_blks_dirtied (blocks f); local_blks_written (blocks f); temp_blks_read (blocks f);
       temp_blks_written (blocks f); shared_blk_read_time_us (io_timing f);
       shared_blk_write_time_us (io_timing f); local_blk_read_time_us (io_timing f);
       local_blk_write_time_us (io_timing f); temp_blk_read_time_us (io_timing f);
       temp_blk_write_time_us (io_timing f); wal_records (wal f); wal_fpi (wal f); cpu_user_time_us f;
       cpu_sys_time_us f; jit_functions (jit f); jit_generation_time_us (jit f); jit_deform_time_us (jit f);
       jit_inlining_time_us (jit f); jit_optimization_time_us (jit f); jit_emission_time_us (jit f)];
  te_workers : Forall (λ z, z < 2 ^ 15)
      [parallel_workers_planned (ev_fixed ev); parallel_workers_launched (ev_fixed ev)];
  te_elevel : 0 ≤ err_elevel (ev_fixed ev) < 2 ^ 8 }.

(** A value of the type a builder stores. *)
Definition fits (t : BuilderType) (v : Value) : Prop :=
  match t, v with
  | TimestampBuilder, VInt n => - 2 ^ 63 ≤ n < 2 ^ 63
  | (DictBuilder | StringBuilder), VStr _ => True
  | Int32Builder, VInt n => - 2 ^ 31 ≤ n < 2 ^ 31
  | UInt64Builder, VInt n => 0 ≤ n < 2 ^ 64
  | UInt32Builder, VInt n => 0 ≤ n < 2 ^ 32
  | _, _ => False
  end.

Lemma clamp64_fits n : n < 2 ^ 63 → 0 ≤ ClampSignedToUint64 n < 2 ^ 64.
Proof. unfold ClampSignedToUint64. destruct (Z.ltb_spec n 0); lia. Qed.
Lemma clamp32_fits n : n < 2 ^ 15 → 0 ≤ ClampSignedToUint32 n < 2 ^ 32.
Proof. unfold ClampSignedToUint32. destruct (Z.ltb_spec n 0); lia. Qed.
Lemma i64_range n : - 2 ^ 63 ≤ i64 n < 2 ^ 63.
Proof. unfold i64, sint. pose proof (Z.mod_pos_bound (n + 2 ^ (64 - 1)) (2 ^ 64)). lia. Qed.

Lemma clamp_len_max len max : 0 ≤ max → clamp_len len max ≤ max.
Proof. unfold clamp_len. destruct (Z.leb_spec len max); lia. Qed.

Lemma view_max buf len max : 0 ≤ max → blen (string_view buf (clamp_len len max)) ≤ max.
Proof.
  intros Hm. unfold blen, string_view. rewrite length_take. pose proof (clamp_len_max len max Hm). lia.
Qed.

(** What the texts of the settings add to every row. *)
Definition config_bytes {AR : ArrowLib} : Z :=
  blen (service_version fresh) + foldr (λ key acc, blen (ExtraAttr key fresh) + acc) 0 attr_columns.

Lemma blen_nonneg l : 0 ≤ blen l.
Proof. unfold blen. lia. Qed.

Lemma cstr_take_max n l : blen (cstr (take n l)) ≤ Z.of_nat n.
Proof. unfold blen. pose proof (cstr_length (take n l)). rewrite length_take in *. lia. Qed.

Lemma row_bytes_max {AR : ArrowLib} ev :
  0 ≤ config_bytes ∧ 0 ≤ row_bytes fresh ev ≤ 512 + 63 + 63 + 63 + 45 + 2048 + 2048 + 5 + config_bytes.
Proof.
  assert (0 ≤ config_bytes) as Hc.
  { unfold config_bytes. pose proof (blen_nonneg (service_version fresh)).
    assert (∀ keys, 0 ≤ foldr (λ key acc, blen (ExtraAttr key fresh) + acc) 0 keys) as Hk; [|pose proof (Hk attr_columns); lia].
    intros keys. induction keys as [|key keys IH]; simpl; [lia|]. pose proof (blen_nonneg (ExtraAttr key fresh)). lia. }
  split; [done|]. unfold row_bytes. unfold config_bytes in *. unfold kFixedBytesPerRow.
  set (sv := blen (service_version fresh)) in *. set (attrs := foldr _ 0 attr_columns) in *.
  pose proof (blen_nonneg (view_db_name ev)). pose proof (blen_nonneg (view_db_user ev)).
  pose proof (blen_nonneg (view_app ev)). pose proof (blen_nonneg (view_client_addr ev)).
  pose proof (blen_nonneg (view_query_text ev)). pose proof (blen_nonneg (view_err_message ev)).
  pose proof (blen_nonneg (view_err_sqlstate ev)).
  assert (blen (view_db_name ev) ≤ 63) by (by apply view_max).
  assert (blen (view_db_user ev) ≤ 63) by (by apply view_max).
  assert (blen (view_app ev) ≤ 63) by (by apply view_max).
  assert (blen (view_client_addr ev) ≤ 45) by (by apply view_max).
  assert (blen (view_query_text ev) ≤ 2048) by (by apply view_max).
  assert (blen (view_err_message ev) ≤ 2048) by (by apply view_max).
  assert (blen (view_err_sqlstate ev) ≤ 5) by (by apply (cstr_take_max 5)).
  lia.
Qed.

(** ** Properties *)

(** C32: The setting of extra attributes is read back as written: for any list of
    attributes, with white space around keys and values, the parser returns the map
    of their keys to their values (the first of a key given twice). *)
Theorem extra_attributes_roundtrip (l : list AttrItem) (Hl : Forall item_ok l) :
  ParseExtraAttributes (render_attrs l ++ [0]) = attr_map l.
Proof.
  assert (0 ∉ render_attrs l) as Hnul.
  { induction Hl as [|a l Ha Hl IH]; [by apply not_elem_of_nil|].
    destruct l as [|a2 l]; [apply Ha|].
    change (render_attrs (a :: a2 :: l)) with (render_item a ++ semicolon :: render_attrs (a2 :: l)).
    rewrite not_elem_of_app, not_elem_of_cons. split_and!; [apply Ha|done|exact IH]. }
  unfold ParseExtraAttributes. rewrite cstr_app_nul.
  - rewrite parse_rendered by done. apply map_empty_union.
  - apply Forall_forall. intros c Hc ->. done.
Qed.

(** [ region : eu-1 ] and [a:] *)
Definition demo_items : list AttrItem :=
  [ {| at_key := bytes_of_string "region"; at_value := bytes_of_string "eu:1";
       pad1 := [32]; pad2 := [32; 9]; pad3 := [32]; pad4 := [10] |};
    {| at_key := bytes_of_string "a"; at_value := []; pad1 := []; pad2 := []; pad3 := []; pad4 := [] |} ].

Lemma extra_attributes_roundtrip_witness :
  ParseExtraAttributes (render_attrs demo_items ++ [0]) =
    {[bytes_of_string "region" := bytes_of_string "eu:1"; bytes_of_string "a" := []]}.
Proof.
  apply (extra_attributes_roundtrip demo_items).
  repeat (apply Forall_cons; split); [..|apply Forall_nil; exact I];
    (constructor; [split; [discriminate|split; [split; intros c [= <-]; reflexivity|]] |
                   split; intros c Hc; first [discriminate Hc|injection Hc as <-; reflexivity] |
                   split_and!; apply (bool_decide_eq_true_1 _); reflexivity | | ]);
    apply (bool_decide_eq_true_1 _); vm_compute; reflexivity.
Defined.

(** C33: Every value of a row fits the builder it goes to, in the order of the
    builders: strings to string and dictionary builders, each number inside the
    range of its builder's type, negative counters as zero; and the decimal texts
    of the query id and of the process id are never cut by their buffers. *)
Theorem arrow_row_typed (b : Impl) (ev : PschEvent) (Hty : typed_event ev) :
  Forall2 (λ c m, c.1 = m.1 ∧ fits m.2 c.2) (row b ev) members ∧
  queryid_buf ev = bytes_of_string (pretty (queryid (identity (ev_fixed ev)))) ∧
  pid_buf ev = bytes_of_string (pretty (pid (identity (ev_fixed ev)))).
Proof.
  destruct Hty as [Hq Hp Hu Hs Hw He]. split; [|split].
  - unfold row, members. cbv zeta in *. repeat (apply Forall_cons in Hu as [? Hu]).
    repeat (apply Forall_cons in Hs as [? Hs]). repeat (apply Forall_cons in Hw as [? Hw]).
    repeat (apply Forall2_cons; split); [..|by apply Forall2_nil]; (split; [done|]); cbn [fits fst snd];
      first [exact I | by apply clamp64_fits | by apply clamp32_fits | apply i64_range | assumption | lia].
  - apply (snprintf_fits 24 20); [lia|lia|]. unfold is_u64 in Hq. simpl. lia.
  - apply (snprintf_fits 12 10); [lia|lia|]. simpl. lia.
Qed.

Lemma arrow_row_typed_witness :
  Forall2 (λ c m, c.1 = m.1 ∧ fits m.2 c.2) (row new_impl zero_event) members ∧
  queryid_buf zero_event = bytes_of_string "0".
Proof.
  destruct (arrow_row_typed new_impl zero_event) as (H & Hq & _).
  - constructor; cbv zeta; repeat (apply Forall_cons; split); try (apply Forall_nil; exact I); split; reflexivity || discriminate.
  - split; [exact H|]. rewrite Hq. reflexivity.
Defined.

End ArrowThms.
