(* ===== verification/ExporterThms.v ===== *)
(** The exporter and the worker against the queue: batches in queue order, the
    accounting of a batch, back-off, the drain loop, flush requests, statistics. *)

From Stdlib Require Import QArith.
From S2P Require Import Prelude Event Shared Dsa Intern Ring LocalBatch InternInv RingInv RingSpec QueueSpec QueueThms Exporter Bgworker.
Import Event Shared Dsa Ring RingInv RingSpec QueueSpec QueueThms Exporter Bgworker.
#[local] Open Scope Z_scope.

Module ExporterThms.

(** ** Weakest preconditions with exceptions

    [Q] after a return, [T] after a C++ exception; a PostgreSQL error is excluded. *)
Definition cwp {S A} (m : C S A) (Q : A → S → Prop) (T : Exn → S → Prop) (s : S) : Prop :=
  match m s with
  | (Some (Ret a), s') => Q a s'
  | (Some (Throw e), s') => T e s'
  | (None, _) => False
  end.

Section cwp.
Context {S : Type}.

Lemma cwp_ret {A} (x : A) (Q : A → S → Prop) T s : Q x s → cwp (mret x) Q T s.
Proof. done. Qed.
Lemma cwp_throw {A} e (Q : A → S → Prop) (T : Exn → S → Prop) s : T e s → cwp (throw e) Q T s.
Proof. done. Qed.
Lemma cwp_bind {A B} (m : C S A) (k : A → C S B) Q T s :
  cwp m (λ a s', cwp (k a) Q T s') T s → cwp (m ≫= k) Q T s.
Proof. unfold cwp, mbind, C_bind. by destruct (m s) as [[[a|e]|] s']. Qed.
Lemma cwp_mono {A} (m : C S A) (Q Q' : A → S → Prop) (T T' : Exn → S → Prop) s :
  (∀ a s', Q a s' → Q' a s') → (∀ e s', T e s' → T' e s') → cwp m Q T s → cwp m Q' T' s.
Proof. unfold cwp. destruct (m s) as [[[a|e]|] s']; auto. Qed.
Lemma cwp_lift {A} (m : M S A) (Q : A → S → Prop) T s : wp m Q (λ _, False) s → cwp (lift m) Q T s.
Proof. unfold wp, cwp, lift. by destruct (m s) as [[a|] s']. Qed.
(** Two postconditions of one computation. *)
Lemma cwp_and {A} (m : C S A) (Q Q' : A → S → Prop) (T T' : Exn → S → Prop) s :
  cwp m Q T s → cwp m Q' T' s → cwp m (λ a s', Q a s' ∧ Q' a s') (λ e s', T e s' ∧ T' e s') s.
Proof. unfold cwp. destruct (m s) as [[[a|e]|] s']; auto. Qed.
Lemma wp_try {A} (body : C S A) h (Q : A → S → Prop) R s :
  cwp body Q (λ e s', wp (h e) Q R s') s → wp (try_catch body h) Q R s.
Proof. unfold wp, cwp, try_catch. by destruct (body s) as [[[a|e]|] s']. Qed.

(** A loop keeps an invariant indexed by what was visited. *)
Lemma cwp_for_each {A} (body : A → C S unit) (I : list A → S → Prop) T l s :
  (∀ past x s', I past s' → cwp (body x) (λ _ s'', I (past ++ [x]) s'') T s') →
  ∀ past, I past s → cwp (c_for_each body l) (λ _ s', I (past ++ l) s') T s.
Proof.
  intros Hstep. revert s. induction l as [|x l IH]; intros s past HI; simpl.
  - apply cwp_ret. by rewrite app_nil_r.
  - apply cwp_bind. eapply cwp_mono; [| |exact (Hstep past x s HI)]; [|done].
    intros u s' HI'. eapply cwp_mono; [| |exact (IH s' _ HI')]; [|done]. intros v s''. by rewrite <- app_assoc.
Qed.

Lemma cwp_map {A B} (body : A → C S B) (I : S → Prop) T l s :
  (∀ x s', I s' → cwp (body x) (λ _ s'', I s'') T s') →
  I s → cwp (c_map body l) (λ ys s', I s' ∧ length ys = length l) T s.
Proof.
  intros Hstep. revert s. induction l as [|x l IH]; intros s HI; simpl; [by apply cwp_ret|].
  apply cwp_bind. eapply cwp_mono; [| |exact (Hstep x s HI)]; [|done]. intros y s' HI'.
  apply cwp_bind. eapply cwp_mono; [| |exact (IH s' HI')]; [|done]. intros ys s'' [HI'' Hl].
  apply cwp_ret. split; [done|]. simpl. by rewrite Hl.
Qed.

End cwp.

(** ** Dequeuing a batch *)

Definition text_buffers (ev : PschEvent) : Prop :=
  length (err_message ev) = Z.to_nat PSCH_MAX_ERR_MSG_LEN ∧ length (query ev) = Z.to_nat PSCH_MAX_QUERY_LEN.

(** The queue after its first [k] events were taken; counters and lock as before. *)
Record taken (k : nat) (s s' : Sys) : Prop := {
  tk_abs : abs s' = drop k (abs s);
  tk_inv : ∃ st st' m', psch_shared_state s = Some st ∧ ring_inv s' st' m' ∧
             exported st' = exported st ∧ enqueued st' = enqueued st ∧ dropped st' = dropped st ∧
             send_failures st' = send_failures st ∧ bgworker_pid st' = bgworker_pid st;
  tk_lock : lock_held s' = lock_held s }.

Lemma wp_dequeue_loop n ev s st m :
  ring_inv s st m → text_buffers ev →
  wp (DequeueLoop n ev)
    (λ evs s', map view evs = take n (abs s) ∧ Forall event_ok evs ∧ taken (length evs) s s')
    (λ _, False) s.
Proof.
  revert ev s st m. induction n as [|n IH]; intros ev s st m Hinv [He Hq]; simpl.
  - wp_step. split; [done|]. split; [done|]. constructor; [done| |done].
    exists st, st, m. by rewrite (inv_st _ _ _ Hinv).
  - wp_step. eapply wp_dequeue; try done.
    + intros Hnil. simpl. wp_step. rewrite Hnil. split; [done|]. split; [done|].
      constructor; [by rewrite Hnil| |done]. exists st, st, m. by rewrite (inv_st _ _ _ Hinv).
    + intros s1 oom m1 ev1 d rest st1 Habs Hv Hok Habs1 Hinv1 Hf Hl _. simpl. wp_step.
      assert (text_buffers ev1) as Hb1 by (by destruct Hok as (? & ? & _)).
      eapply wp_mono; [| |by eapply IH]; [|done]. intros evs s2 (Hevs & Hall & [Ha (st0 & st2 & m2 & H0 & H2 & Hc) Hlk]).
      wp_step. simpl. rewrite Habs, Hevs, Hv, Habs1. split; [done|]. split; [by constructor|].
      constructor; [by rewrite Ha, Habs1, Habs| |].
      * exists st, st2, m2. rewrite (inv_st _ _ _ Hinv1) in H0. injection H0 as <-.
        by rewrite (inv_st _ _ _ Hinv).
      * rewrite Hlk. apply Hf.
Qed.

(** ** What a batch does to the shared state *)

(** The first [k] events were taken, [x] was added to the count of exported
    events, and the process holds no lock. *)
Record progress (k : nat) (x : Z) (s s' : Sys) : Prop := {
  pr_abs : abs s' = drop k (abs s);
  pr_inv : ∃ st st' m', psch_shared_state s = Some st ∧ ring_inv s' st' m' ∧
             u64 (exported st') = u64 (exported st + x) ∧
             enqueued st' = enqueued st ∧ dropped st' = dropped st;
  pr_lock : lock_held s' = false }.

Lemma progress_start s st m : ring_inv s st m → lock_held s = false → progress 0 0 s s.
Proof.
  intros Hinv Hl. constructor; [done| |done]. exists st, st, m.
  by rewrite (inv_st _ _ _ Hinv), Z.add_0_r.
Qed.

Lemma progress_taken k x n s s1 s2 : progress k x s s1 → taken n s1 s2 → progress (k + n) x s s2.
Proof.
  intros [Ha (st & st1 & m1 & H0 & H1 & Hx & He & Hd) Hl] [Ha2 (st1' & st2 & m2 & H1' & H2 & Hc) Hl2].
  rewrite (inv_st _ _ _ H1) in H1'. injection H1' as <-. destruct Hc as (Hx2 & He2 & Hd2 & _).
  constructor; [by rewrite Ha2, Ha, drop_drop| |by rewrite Hl2].
  exists st, st2, m2. split_and!; [done|done|by rewrite Hx2|by rewrite He2|by rewrite Hd2].
Qed.

(** A change outside the queue that adds [y] to the exported count. *)
Lemma progress_step k x y s s1 st1 s2 st2 :
  progress k x s s1 → psch_shared_state s1 = Some st1 → psch_shared_state s2 = Some st2 →
  same_queue st1 st2 → u64 (exported st2) = u64 (exported st1 + y) →
  enqueued st2 = enqueued st1 → dropped st2 = dropped st1 →
  ring s2 = ring s1 → heap s2 = heap s1 → htab s2 = htab s1 → lock_held s2 = false →
  progress k (x + y) s s2.
Proof.
  intros [Ha (st & st1' & m1 & H0 & H1 & Hx & He & Hd) Hl] Hs1 Hs2 Hq Hy He2 Hd2 Hr Hh Ht Hl2.
  assert (st1' = st1) as -> by (rewrite (inv_st _ _ _ H1) in Hs1; by injection Hs1).
  destruct (ring_inv_ext s1 s2 st1 st2 m1 H1 Hq Hs2 Hr Hh Ht) as (Hinv & Habs & _).
  constructor; [by rewrite Habs|exists st, st2, m1|done].
  split_and!; [done|done| |congruence|congruence].
  rewrite Hy, <- u64_add_u64_l, Hx, u64_add_u64_l. f_equal. lia.
Qed.

Section batch.
Context {E : Env}.

Lemma progress_state k x s s1 : progress k x s s1 → ∃ st, psch_shared_state s1 = Some st.
Proof. intros [_ (st & st1 & m1 & _ & H1 & _) _]. exists st1. apply H1. Qed.

(** [m] runs without error and adds [y] to the exported count. *)
Definition steady (y : Z) {A} (m : M Sys A) : Prop := ∀ k x s s1,
  progress k x s s1 → wp m (λ _ s2, progress k (x + y) s s2) (λ _, False) s1.

Lemma steady_warning msg : steady 0 (ereport_warning msg).
Proof.
  intros k x s s1 Hp. destruct (progress_state _ _ _ _ Hp) as [st Hst]. unfold ereport_warning. wp_step.
  eapply progress_step; try done; [by rewrite Z.add_0_r|apply Hp].
Qed.

Lemma wp_lock (Q : unit → Sys → Prop) R s :
  lock_held s = false → Q tt (s <| lock_held := true |>) → wp LWLockAcquire Q R s.
Proof. unfold wp, LWLockAcquire. by intros ->. Qed.

(** A section under the lock that changes the shared state outside the queue. *)
Lemma steady_failure msg : steady 0 (PschRecordExportFailure msg).
Proof.
  intros k x s s1 Hp. destruct (progress_state _ _ _ _ Hp) as [st Hst]. pose proof (pr_lock _ _ _ _ Hp) as Hl.
  unfold PschRecordExportFailure, shared_is_null. do 2 wp_step. rewrite Hst.
  wp_step. eapply wp_wr; [done|]. wp_step. apply wp_lock; [done|]. wp_step. eapply wp_wr; [done|]. wp_step.
  destruct msg as [msg|]; [eapply wp_wr; [done|]|wp_step]; unfold LWLockRelease; wp_step;
    (eapply progress_step; try done; by rewrite Z.add_0_r).
Qed.

Lemma steady_success : steady 0 PschRecordExportSuccess.
Proof.
  intros k x s s1 Hp. destruct (progress_state _ _ _ _ Hp) as [st Hst]. pose proof (pr_lock _ _ _ _ Hp) as Hl.
  unfold PschRecordExportSuccess, shared_is_null. do 2 wp_step. rewrite Hst.
  wp_step. apply wp_lock; [done|]. wp_step. eapply wp_wr; [done|]. unfold LWLockRelease. wp_step.
  eapply progress_step; try done; by rewrite Z.add_0_r.
Qed.

Lemma steady_clamp len max name : steady 0 (ClampFieldLen len max name).
Proof.
  intros k x s s1 Hp. unfold ClampFieldLen. destruct (len <=? max); [wp_step; by rewrite Z.add_0_r|].
  wp_step. eapply wp_mono; [| |by apply steady_warning]; [|done]. intros u s2 Hp2. by wp_step.
Qed.

Lemma steady_ret {A} (a : A) : steady 0 (mret a).
Proof. intros k x s s1 Hp. wp_step. by rewrite Z.add_0_r. Qed.

Lemma steady_bind {A B} (m : M Sys A) (f : A → M Sys B) : steady 0 m → (∀ a, steady 0 (f a)) → steady 0 (m ≫= f).
Proof.
  intros Hm Hf k x s s1 Hp. wp_step. eapply wp_mono; [| |by apply Hm]; [|done]. intros a s2 Hp2.
  rewrite Z.add_0_r in Hp2. by apply Hf.
Qed.

(** Computing the value of a column logs at most. *)
Lemma steady_columns ev : Forall (λ col, steady 0 (snd col ev)) export_columns.
Proof.
  unfold export_columns. repeat (apply Forall_cons; split); [..|by apply Forall_nil]; cbn [snd];
    repeat first [apply steady_ret|apply steady_clamp|apply steady_bind; [|intros ?]].
Qed.

End batch.

(** ** The values of a row *)

(** The value of a column for an event: computing it depends on no state and takes
    no lock. *)
Definition value_of (f : PschEvent → M Sys Value) (ev : PschEvent) : Value :=
  default (VInt 0) (f ev (demo_sys 0 0)).1.

Definition stateless (f : PschEvent → M Sys Value) (ev : PschEvent) : Prop :=
  ∀ s, (f ev s).1 = Some (value_of f ev) ∧ lock_held (f ev s).2 = lock_held s.

(** The same in a form that composes. *)
Definition yields {A} (m : M Sys A) (a : A) : Prop :=
  ∀ s, (m s).1 = Some a ∧ lock_held (m s).2 = lock_held s.

Lemma yields_ret {A} (a : A) : yields (mret a) a.
Proof. done. Qed.

Lemma yields_clamp len max name : yields (ClampFieldLen len max name) (if len <=? max then len else max).
Proof. intros s. unfold ClampFieldLen. by destruct (len <=? max). Qed.

Lemma yields_bind {A B} (m : M Sys A) (f : A → M Sys B) a b : yields m a → yields (f a) b → yields (m ≫= f) b.
Proof.
  intros Hm Hf s. destruct (Hm s) as [H1 H2]. unfold mbind, M_bind. destruct (m s) as [r s']. simpl in *. subst r.
  destruct (Hf s') as [H3 H4]. split; [done|congruence].
Qed.

Lemma yields_stateless f ev v : yields (f ev) v → stateless f ev.
Proof. intros H s. unfold value_of. rewrite (proj1 (H (demo_sys 0 0))). exact (H s). Qed.

Lemma stateless_columns ev : Forall (λ col, stateless (snd col) ev) export_columns.
Proof.
  unfold export_columns.
  repeat (apply Forall_cons; split); [..|by apply Forall_nil]; cbn [snd]; eapply yields_stateless; cbv beta;
    repeat first [apply yields_ret | eapply yields_bind; [apply yields_clamp|]; cbv beta].
Qed.

(** ** A batch in the worker *)

Section worker.
Context {E : Env} {X : Type} {SE : StatsExporter X} {XL : StatsExporterLaws X}.
Context {B : Type} {AB : ArrowBatchBuilder B} {AL : ArrowLaws B} {EE : ExportEnv}.

(** The worker has taken [k] events and counted [x] as exported; its back end
    is there and satisfies [P]. *)
Record at_work (k : nat) (x : Z) (P : X → Prop) (w0 w : Worker X) : Prop := {
  aw_sys : progress k x (w_sys w0) (w_sys w);
  aw_exp : ∃ e, w_exporter w = Some e ∧ P e }.

Abbreviation any := (λ _ : X, True).

Lemma at_work_weaken k x (P P' : X → Prop) w0 w :
  (∀ e, P e → P' e) → at_work k x P w0 w → at_work k x P' w0 w.
Proof. intros HP [Hs (e & He & Hp)]. constructor; [done|]. exists e. auto. Qed.

Lemma wp_wsys {A} (m : M Sys A) y k x P w0 w :
  steady y m → at_work k x P w0 w → wp (on_wsys m) (λ _ w', at_work k (x + y) P w0 w') (λ _, False) w.
Proof.
  intros Hm [Hs He]. specialize (Hm _ _ _ _ Hs). unfold wp, on_wsys in *.
  destruct (m (w_sys w)) as [[a|] s']; [|done]. by constructor.
Qed.

(** The same for computations that leave the exported count alone. *)
Lemma wp_wsys0 {A} (m : M Sys A) k x P w0 w :
  steady 0 m → at_work k x P w0 w → wp (on_wsys m) (λ _ w', at_work k x P w0 w') (λ _, False) w.
Proof. intros Hm Hw. pose proof (wp_wsys m 0 k x P w0 w Hm Hw) as H. by rewrite Z.add_0_r in H. Qed.

Lemma cwp_call {A} (f : X → res A * X) k x P (P' : A → X → Prop) w0 w :
  at_work k x P w0 w → (∀ e a e', P e → f e = (Ret a, e') → P' a e') →
  cwp (call f) (λ a w', at_work k x (P' a) w0 w') (λ _ w', at_work k x any w0 w') w.
Proof.
  intros [Hs (e & He & Hp)] Hf. unfold cwp, call. rewrite He. destruct (f e) as [[a|ex] e'] eqn:Hr;
    constructor; simpl; eauto.
Qed.

Lemma wp_record_all msgs k x P w0 w :
  at_work k x P w0 w → wp (for_each RecordExporterFailure msgs) (λ _ w', at_work k x P w0 w') (λ _, False) w.
Proof.
  intros Hw. apply (wp_for_each _ (λ _ w', at_work k x P w0 w')); [|done]. intros msg rest w' Hw'.
  apply wp_wsys0; [apply steady_failure|done].
Qed.

Lemma cwp_call_both {A} (f : X → res A * X * list string) k x P (P' : A → X → Prop) (PT : X → Prop) w0 w :
  at_work k x P w0 w →
  (∀ e r e' msgs, P e → f e = (r, e', msgs) → match r with Ret a => P' a e' | Throw _ => PT e' end) →
  cwp (call_reporting f) (λ a w', at_work k x (P' a) w0 w') (λ _ w', at_work k x PT w0 w') w.
Proof.
  intros [Hs (e & He & Hp)] Hf. unfold cwp, call_reporting. rewrite He.
  destruct (f e) as [[r e'] msgs] eqn:Hr. specialize (Hf _ _ _ _ Hp Hr).
  assert (at_work k x (λ e, match r with Ret a => P' a e | Throw _ => PT e end) w0
            (Build_Worker (w_sys w) (Some e'))) as Hw.
  { constructor; [done|]. exists e'. split; [done|]. by destruct r. }
  pose proof (wp_record_all msgs _ _ _ _ _ Hw) as H. unfold wp in H.
  destruct (for_each _ _ _) as [[u|] w']; [|done]. by destruct r.
Qed.

Lemma cwp_call_reporting {A} (f : X → res A * X * list string) k x P (P' : A → X → Prop) w0 w :
  at_work k x P w0 w → (∀ e a e' msgs, P e → f e = (Ret a, e', msgs) → P' a e') →
  cwp (call_reporting f) (λ a w', at_work k x (P' a) w0 w') (λ _ w', at_work k x any w0 w') w.
Proof.
  intros Hw Hf. apply (cwp_call_both f k x P); [done|]. intros e [a|ex] e' msgs Hp Hr; [|done]. by eapply Hf.
Qed.

Lemma wp_report {A} c o f (a : A) ex k x P w0 w :
  at_work k x P w0 w → wp (report_exception c o f a ex) (λ r w', r = a ∧ at_work k x P w0 w') (λ _, False) w.
Proof.
  intros Hw. unfold report_exception. destruct ex; unfold LogExporterWarning, RecordExporterFailure; wp_step;
    (eapply wp_mono; [| |apply wp_wsys0; [apply steady_warning|exact Hw]]; [|done]); intros u w1 Hw1; wp_step;
    (eapply wp_mono; [| |apply wp_wsys0; [apply steady_failure|exact Hw1]]; [|done]); intros v w2 Hw2; by wp_step.
Qed.

(** Computing the value of a column. *)
Lemma cwp_cell col ev k x P w0 w :
  col ∈ export_columns → at_work k x P w0 w →
  cwp (lift (on_wsys (snd col ev))) (λ v w', v = value_of (snd col) ev ∧ at_work k x P w0 w')
    (λ _ _, False) w.
Proof.
  intros Hin Hw. pose proof (steady_columns ev) as Hs. rewrite Forall_forall in Hs. specialize (Hs _ Hin).
  pose proof (stateless_columns ev) as Hv. rewrite Forall_forall in Hv. specialize (Hv _ Hin (w_sys w)).
  pose proof (wp_wsys0 _ _ _ _ _ _ Hs Hw) as H. apply cwp_lift. unfold wp, on_wsys in *.
  destruct (snd col ev (w_sys w)) as [[v|] s']; simpl in *; [|done]. destruct Hv as [[= ->] _]. done.
Qed.

(** A call that may throw, and what each exit leaves. *)
Lemma cwp_call_exits {A} (f : X → res A * X) k x P (P' : A → X → Prop) (PT : X → Prop) w0 w :
  at_work k x P w0 w →
  (∀ e r e', P e → f e = (r, e') → match r with Ret a => P' a e' | Throw _ => PT e' end) →
  cwp (call f) (λ a w', at_work k x (P' a) w0 w') (λ _ w', at_work k x PT w0 w') w.
Proof.
  intros [Hs (e & He & Hp)] Hf. unfold cwp, call. rewrite He. destruct (f e) as [r e'] eqn:Hr.
  specialize (Hf _ _ _ Hp Hr). destruct r; (constructor; [done|by exists e']).
Qed.

(** *** Rows *)

(** [I n] describes the back end after [n] rows, [T] what an exception leaves. *)
Section rows.
Context (Start T : X → Prop) (I : Z → X → Prop).
Hypothesis batch_begins : ∀ e r e', Start e → BeginBatch e = (r, e') → match r with Ret _ => I 0 e' | Throw _ => T e' end.
Hypothesis column_made : ∀ c e r e', I 0 e → MakeColumn c e = (r, e') → match r with Ret _ => I 0 e' | Throw _ => T e' end.
Hypothesis row_begins : ∀ n e r e' msgs, I n e → BeginRow e = (r, e', msgs) → match r with Ret _ => I (n + 1) e' | Throw _ => T e' end.
Hypothesis value_appended : ∀ n i v e r e', I n e → Append i v e = (r, e') → match r with Ret _ => I n e' | Throw _ => T e' end.

Lemma cwp_append_row handles ev n k x w0 w :
  at_work k x (I n) w0 w →
  cwp (append_row (zip handles (map snd export_columns)) ev)
    (λ _ w', at_work k x (I (n + 1)) w0 w') (λ _ w', at_work k x T w0 w') w.
Proof.
  intros Hw. unfold append_row. apply cwp_bind.
  eapply cwp_mono; [| |apply (cwp_call_both _ _ _ _ (λ _, I (n + 1)) T _ _ Hw)]; [|done|].
  2: { intros e r e' msgs Hb Hr. by eapply row_begins. }
  intros [] w1 Hw1.
  assert (Forall (λ col : nat * (PschEvent → M Sys Value), steady 0 (col.2 ev))
            (zip handles (map snd export_columns))) as Hcols.
  { apply Forall_forall. intros [h f] Hin%elem_of_zip_r. apply list_elem_of_fmap in Hin as (col & -> & Hin).
    pose proof (steady_columns ev) as Hc. rewrite Forall_forall in Hc. by apply Hc. }
  revert w1 Hw1. induction Hcols as [|[h f] cols Hf Hcols IH]; intros w1 Hw1; simpl; [by apply cwp_ret|].
  apply cwp_bind, cwp_bind, cwp_lift. eapply wp_mono; [| |apply wp_wsys0; [exact Hf|exact Hw1]]; [|done].
  intros v w2 Hw2.
  eapply cwp_mono; [| |apply (cwp_call_exits _ _ _ _ (λ _, I (n + 1)) T _ _ Hw2)]; [|done|].
  - intros [] w3 Hw3. by apply IH.
  - intros e r e' Hb Hr. by eapply value_appended.
Qed.

Lemma cwp_stats_internal events k x w0 w :
  at_work k x Start w0 w →
  cwp (ExportEventStatsInternal events) (λ _ w', at_work k x (I (Z.of_nat (length events))) w0 w')
    (λ _ w', at_work k x T w0 w') w.
Proof.
  intros Hw. unfold ExportEventStatsInternal. apply cwp_bind.
  eapply cwp_mono; [| |apply (cwp_call_exits _ _ _ _ (λ _, I 0) T _ _ Hw)]; [|done|exact batch_begins].
  intros [] w1 Hw1. apply cwp_bind.
  eapply cwp_mono; [| |apply (cwp_map _ (at_work k x (I 0) w0) (λ _ w', at_work k x T w0 w')); [|exact Hw1]];
    [|done|].
  - intros handles w2 [Hw2 _].
    apply (cwp_for_each _ (λ past w', at_work k x (I (Z.of_nat (length past))) w0 w')) with (past := []);
      [|exact Hw2].
    intros past ev w3 Hw3. simpl. rewrite length_app. simpl.
    replace (Z.of_nat (length past + 1)) with (Z.of_nat (length past) + 1) by lia. by apply cwp_append_row.
  - intros col w3 Hw3. eapply cwp_mono; [| |apply (cwp_call_exits _ _ _ _ (λ _, I 0) T _ _ Hw3)]; [by intros|done|].
    intros e r e' Hb Hr. by eapply column_made.
Qed.

Lemma wp_stats_with events k x w0 w :
  at_work k x Start w0 w →
  wp (ExportEventStats events)
    (λ ok w', at_work k x (if ok : bool then I (Z.of_nat (length events)) else T) w0 w')
    (λ _, False) w.
Proof.
  intros Hw. unfold ExportEventStats. apply wp_try, cwp_bind.
  eapply cwp_mono; [| |by apply cwp_stats_internal].
  - intros u w1 Hw1. by apply cwp_ret.
  - intros ex w1 Hw1. eapply wp_mono; [| |eapply wp_report; exact Hw1]; [|done]. by intros ok w2 [-> Hw2].
Qed.

End rows.

Lemma wp_stats events k x w0 w :
  at_work k x any w0 w →
  wp (ExportEventStats events)
    (λ ok w', at_work k x (if ok : bool then begun (Z.of_nat (length events)) else any) w0 w')
    (λ _, False) w.
Proof.
  apply (wp_stats_with any any begun).
  - intros e [u|] e' _ Hr; [|done]. destruct u. by eapply begun_batch.
  - intros c e [i|] e' Hb Hr; [|done]. by eapply begun_column.
  - intros n e [u|] e' msgs Hb Hr; [|done]. destruct u. by eapply begun_row.
  - intros n i v e [u|] e' Hb Hr; [|done]. destruct u. by eapply begun_append.
Qed.

(** *** The Arrow path *)

(** [P] describes the back end after the blocks of some chunks of events were
    accepted. A block is closed by the first event that takes the builder's
    estimate to the limit. *)
Section arrow.
Context (limit : Z) (P : list (list PschEvent) → X → Prop).

Definition small (chunk : list PschEvent) : Prop :=
  chunk ≠ [] ∧ (arrow_estimate chunk < limit ∨ ∃ evs ev, chunk = evs ++ [ev] ∧ arrow_estimate evs < limit).

Hypothesis limit_ok : arrow_estimate [] < limit.
Hypothesis send_ok : ∀ chunks chunk data e r e' msgs,
  P chunks e → small chunk → arrow_block chunk data →
  SendArrowBatch data (Z.of_nat (length chunk)) e = (r, e', msgs) →
  P (match r with Ret true => chunks ++ [chunk] | _ => chunks end) e'.

Definition total (chunks : list (list PschEvent)) : Z := Z.of_nat (length (concat chunks)).

Lemma total_snoc chunks chunk : total (chunks ++ [chunk]) = total chunks + Z.of_nat (length chunk).
Proof. unfold total. rewrite concat_app, length_app. simpl. rewrite app_nil_r. lia. Qed.

Lemma cwp_flush chunks chunk r k x w0 w :
  at_work k x (P chunks) w0 w → arrow_holds chunk (ar_builder r) → (chunk ≠ [] → small chunk) →
  ar_total r = total chunks → ar_failed r = false →
  cwp (flush_builder r)
    (λ f w', let chunks' := if f.1 : bool then chunks ++ [chunk] else chunks in
       at_work k x (P chunks') w0 w' ∧ ar_total f.2 = total chunks' ∧ ar_failed f.2 = false ∧
       (f.1 = true → arrow_holds [] (ArrowReset (ar_builder f.2))))
    (λ _ w', at_work k x (P chunks) w0 w') w.
Proof.
  intros Hw Hh Hsmall Ht Hf. unfold flush_builder.
  destruct (ArrowFinish (ar_builder r)) as [[[buf num]|ex] b] eqn:Hfin; [|by apply cwp_throw].
  destruct buf as [data|]; [|by apply cwp_ret].
  destruct (arrow_finish _ _ _ _ _ Hh Hfin) as (-> & Hblock & Hreset).
  destruct (Z.leb_spec (Z.of_nat (length chunk)) 0) as [|Hpos]; [by apply cwp_ret|].
  assert (chunk ≠ []) as Hne by by intros ->. apply cwp_bind.
  eapply cwp_mono; [| |apply (cwp_call_both _ _ _ _ (λ ok, P (if ok : bool then chunks ++ [chunk] else chunks))
    (P chunks) _ _ Hw)]; [|done|].
  - intros [] w1 Hw1; apply cwp_ret; simpl; [|done]. rewrite total_snoc. split_and!; (done || lia).
  - intros e res e' msgs Hp Hr. pose proof (send_ok _ chunk _ _ _ _ _ Hp (Hsmall Hne) Hblock Hr).
    by destruct res as [[]|].
Qed.

(** The run after some of the events: [chunks] were sent, [pend] is in the builder. *)
Definition run_ok (events : list PschEvent) (chunks : list (list PschEvent)) (r : ArrowRun) : Prop :=
  ar_total r = total chunks ∧ concat chunks `prefix_of` events ∧
  (ar_failed r = false → ∃ pend, concat chunks ++ pend = events ∧ arrow_holds pend (ar_builder r) ∧
                                 arrow_estimate pend < limit).

Lemma cwp_arrow_loop events past chunks r k x w0 w :
  at_work k x (P chunks) w0 w → run_ok past chunks r → ar_failed r = false →
  cwp (arrow_loop limit events r)
    (λ r' w', ∃ chunks', at_work k x (P chunks') w0 w' ∧ run_ok (past ++ events) chunks' r')
    (λ _ w', ∃ chunks', at_work k x (P chunks') w0 w' ∧ concat chunks' `prefix_of` past ++ events) w.
Proof.
  revert past chunks r w. induction events as [|ev events IH]; intros past chunks r w Hw Hr Hf; simpl.
  { apply cwp_ret. exists chunks. by rewrite app_nil_r. }
  destruct Hr as (Ht & Hpre & Hpend). destruct (Hpend Hf) as (pend & Heq & Hh & He).
  assert (∀ l, concat chunks `prefix_of` past ++ l) as Hpre' by (intros l; by apply prefix_app_r).
  destruct (ArrowAppend ev (ar_builder r)) as [[[]|ex] b] eqn:Ha; [| |apply cwp_throw; eauto].
  - pose proof (arrow_append _ _ _ _ Hh Ha) as Hh'. destruct (arrow_rows _ _ Hh') as [_ Hest].
    replace (past ++ ev :: events) with ((past ++ [ev]) ++ events) by by rewrite <- app_assoc.
    assert (concat chunks ++ (pend ++ [ev]) = past ++ [ev]) as Heq' by by rewrite app_assoc, Heq.
    destruct (Z.leb_spec limit (EstimatedBytes b)) as [Hfull|Hroom].
    + apply cwp_bind.
      eapply cwp_mono; [| |apply (cwp_flush chunks (pend ++ [ev])); try done].
      3: { intros Hne. split; [done|]. right. by exists pend, ev. }
      * intros [ok r2] w1 (Hw1 & Ht1 & Hf1 & Hreset). simpl in *. destruct ok.
        -- apply (IH _ (chunks ++ [pend ++ [ev]])); [done| |done]. split; [done|].
           rewrite concat_app. simpl. rewrite app_nil_r, Heq'. split; [done|]. intros _. exists [].
           rewrite app_nil_r. auto.
        -- apply cwp_ret. exists chunks. split; [done|]. split; [done|].
           split; [rewrite <- app_assoc; apply Hpre'|done].
      * intros ex w1 Hw1. exists chunks. split; [done|]. rewrite <- app_assoc. apply Hpre'.
    + apply (IH _ chunks); [done| |done]. split; [done|]. split; [apply Hpre'|]. intros _. exists (pend ++ [ev]).
      split_and!; [done|done|lia].
  - apply cwp_ret. exists chunks. split; [done|]. split; [done|]. split; [apply Hpre'|done].
Qed.

End arrow.

Lemma steady_add n : steady n (null ← shared_is_null;
  if null : bool then mret tt else wr (λ st, st <| exported ::= λ m, u64 (m + n) |>)).
Proof.
  intros k x s s1 Hp. destruct (progress_state _ _ _ _ Hp) as [st Hst]. unfold shared_is_null.
  do 2 wp_step. rewrite Hst. eapply wp_wr; [done|].
  eapply progress_step; try done; [simpl; apply u64_u64|apply Hp].
Qed.

(** What a batch of [n] events reports: at most [n], and the exported count grew
    by the reported number or not at all. *)
Definition accounted (k : nat) (n : Z) (w0 : Worker X) (r : Z) (w : Worker X) : Prop :=
  r ≤ n ∧ ∃ x, at_work k x any w0 w ∧ (x = 0 ∨ x = r).

Lemma cwp_count_exported {P} k w0 w r :
  at_work k 0 P w0 w →
  cwp (_ ← lift (add_exported r); lift (on_wsys PschRecordExportSuccess))
    (λ _ w', at_work k r P w0 w') (λ _ w', at_work k 0 P w0 w') w.
Proof.
  intros Hw. apply cwp_bind, cwp_lift. unfold add_exported.
  eapply wp_mono; [| |apply (wp_wsys _ r _ _ _ _ _ (steady_add r) Hw)]; [|done]. intros u w1 Hw1.
  apply cwp_lift. eapply wp_mono; [| |apply (wp_wsys0 _ _ _ _ _ _ steady_success Hw1)]; [|done]. by intros.
Qed.

(** What an export by the Arrow path leaves: blocks of a prefix of the events, in
    order, were accepted; the result is their number, unless an exception cut the
    export short; the exported count grows only when all events were. *)
Definition arrow_done (P : list (list PschEvent) → X → Prop) (k : nat) (events : list PschEvent)
    (w0 : Worker X) (r : Z) (w : Worker X) : Prop :=
  ∃ chunks x, at_work k x (P chunks) w0 w ∧ concat chunks `prefix_of` events ∧
    (r = total chunks ∨ r = 0) ∧ (x = 0 ∨ x = r ∧ r = total chunks ∧ concat chunks = events).

Lemma total_prefix chunks events : concat chunks `prefix_of` events → 0 ≤ total chunks ≤ Z.of_nat (length events).
Proof. intros H%prefix_length. unfold total. lia. Qed.

Lemma run_ok_done limit events chunks r :
  run_ok limit events chunks r → ar_failed r = false → NumRows (ar_builder r) ≤ 0 → concat chunks = events.
Proof.
  intros (_ & _ & Hp) Hf Hn. destruct (Hp Hf) as (pend & Heq & Hh & _). destruct (arrow_rows _ _ Hh) as [Hr _].
  destruct pend; [by rewrite app_nil_r in Heq|]. simpl in Hr. lia.
Qed.

(** The last block. *)
Lemma cwp_last limit P events chunks r k x w0 w :
  (∀ chunks chunk data e r e' msgs, P chunks e → small limit chunk → arrow_block chunk data →
     SendArrowBatch data (Z.of_nat (length chunk)) e = (r, e', msgs) →
     P (match r with Ret true => chunks ++ [chunk] | _ => chunks end) e') →
  at_work k x (P chunks) w0 w → run_ok limit events chunks r →
  cwp (if negb (ar_failed r) && (0 <? NumRows (ar_builder r)) then
         f ← flush_builder r; mret (if f.1 : bool then f.2 else arrow_failed f.2)
       else mret r)
    (λ r' w', ∃ chunks', at_work k x (P chunks') w0 w' ∧ ar_total r' = total chunks' ∧
       concat chunks' `prefix_of` events ∧ (ar_failed r' = false → concat chunks' = events))
    (λ _ w', ∃ chunks', at_work k x (P chunks') w0 w' ∧ concat chunks' `prefix_of` events) w.
Proof.
  intros HP Hw Hr. pose proof (run_ok_done _ _ _ _ Hr) as Hdone. destruct Hr as (Ht & Hpre & Hp).
  destruct (ar_failed r) eqn:Hf; simpl.
  { apply cwp_ret. exists chunks. split_and!; (done || congruence). }
  destruct (Z.ltb_spec 0 (NumRows (ar_builder r))) as [Hn|Hn].
  2: { apply cwp_ret. exists chunks. split_and!; [done..|]. intros _. by apply Hdone. }
  destruct (Hp eq_refl) as (pend & Heq & Hh & He). apply cwp_bind.
  eapply cwp_mono; [| |apply (cwp_flush limit P HP chunks pend); [done|done| |done|done]].
  - intros [ok r2] w1 (Hw1 & Ht1 & Hf1 & _). apply cwp_ret. simpl in *. destruct ok.
    + exists (chunks ++ [pend]). rewrite concat_app. simpl. rewrite app_nil_r, Heq. done.
    + exists chunks. by split_and!.
  - intros ex w1 Hw1. by exists chunks.
  - intros Hne. split; [done|by left].
Qed.

Lemma wp_arrow P events k w0 w :
  (∀ chunks chunk data e r e' msgs,
     P chunks e → small (Z.max 65536 (u64 psch_otel_max_block_bytes)) chunk → arrow_block chunk data →
     SendArrowBatch data (Z.of_nat (length chunk)) e = (r, e', msgs) →
     P (match r with Ret true => chunks ++ [chunk] | _ => chunks end) e') →
  at_work k 0 (P []) w0 w →
  wp (ExportEventsAsArrow events) (arrow_done P k events w0) (λ _, False) w.
Proof.
  intros HP Hw. unfold ExportEventsAsArrow. apply wp_try.
  eapply (cwp_mono _ (arrow_done P k events w0) _
    (λ _ w', ∃ chunks, at_work k 0 (P chunks) w0 w' ∧ concat chunks `prefix_of` events)); [done| |].
  { intros ex w1 (chunks & Hw1 & Hpre). eapply wp_mono; [| |eapply wp_report; exact Hw1]; [|done].
    intros r w2 [-> Hw2]. exists chunks, 0. auto. }
  assert (concat [] `prefix_of` events) as Hnil by apply prefix_nil.
  unfold ExportEventsAsArrowInternal. destruct ArrowInit as [[b|]|ex] eqn:Hi; [| |by apply cwp_throw; eauto].
  - set (limit := Z.max 65536 _) in *. cbv zeta.
    assert (arrow_estimate [] < limit) as Hlim by (pose proof arrow_empty; lia).
    set (r0 := {| ar_builder := b; ar_total := 0; ar_failed := false |}).
    assert (run_ok limit [] [] r0) as Hr0.
    { split_and!; [done..|]. intros _. exists []. split_and!; [done|by apply arrow_init|done]. }
    apply cwp_bind.
    eapply cwp_mono; [| |exact (cwp_arrow_loop limit P Hlim HP events [] [] r0 _ _ _ _ Hw Hr0 eq_refl)]; [|done].
    intros r w1 (chunks & Hw1 & Hr). rewrite app_nil_l in Hr. apply cwp_bind.
    eapply cwp_mono; [| |by eapply cwp_last]; [|done].
    intros r2 w2 (chunks2 & Hw2 & Ht & Hpre & Hall). apply cwp_bind.
    eapply (cwp_mono _ (λ _ w', at_work k 0 (P chunks2) w0 w') _ (λ _ w', at_work k 0 (P chunks2) w0 w')).
    + intros u w3 Hw3. apply cwp_bind. destruct (ar_failed r2) eqn:Hf; simpl.
      { apply cwp_ret, cwp_ret. exists chunks2, 0. auto. }
      destruct (0 <? ar_total r2).
      * eapply cwp_mono; [| |exact (cwp_count_exported k w0 w3 (ar_total r2) Hw3)]; [|intros ex w4 Hw4; by exists chunks2].
        intros v w4 Hw4. apply cwp_ret. exists chunks2, (ar_total r2). split_and!; auto.
      * apply cwp_ret, cwp_ret. exists chunks2, 0. auto.
    + intros ex w3 Hw3. by exists chunks2.
    + destruct (ar_failed r2); [|by apply cwp_ret]. apply cwp_lift. apply wp_wsys0; [apply steady_failure|done].
  - apply cwp_bind, cwp_lift. eapply wp_mono; [| |apply (wp_wsys0 _ _ _ _ _ _ (steady_warning _) Hw)]; [|done].
    intros u w1 Hw1. apply cwp_bind, cwp_lift.
    eapply wp_mono; [| |apply (wp_wsys0 _ _ _ _ _ _ (steady_failure _) Hw1)]; [|done].
    intros v w2 Hw2. apply cwp_ret. exists [], 0. auto.
Qed.

Lemma wp_arrow_accounted events k w0 w :
  at_work k 0 any w0 w →
  wp (ExportEventsAsArrow events) (accounted k (Z.of_nat (length events)) w0) (λ _, False) w.
Proof.
  intros Hw. eapply wp_mono; [| |by apply (wp_arrow (λ _, any))]; [|done].
  intros r w' (chunks & x & Hw' & Hpre & Hr & Hx). pose proof (total_prefix _ _ Hpre).
  split; [destruct Hr; lia|]. exists x. split; [done|]. destruct Hx as [|[? _]]; auto.
Qed.

(** *** The whole batch *)

Definition batch_size (w : Worker X) : nat := Nat.min (Z.to_nat psch_batch_max) (length (abs (w_sys w))).

(** A batch took [k] events, none or as many as it may and there are; it reports
    [r] of them exported, and counts them or not. *)
Definition batch_done (w : Worker X) (r : Z) (w' : Worker X) : Prop :=
  ∃ k, (k = 0%nat ∨ k = batch_size w) ∧ accounted k (Z.of_nat k) w r w'.

Lemma batch_nothing k w w' : (k = 0%nat ∨ k = batch_size w) → at_work k 0 any w w' → batch_done w 0 w'.
Proof. intros Hk Hw. exists k. split; [done|]. split; [lia|]. exists 0. auto. Qed.

(** The events a batch took: none, or the first of the queue, as many as it may. *)
Definition took (w : Worker X) (events : list PschEvent) : Prop :=
  (events = [] ∨ length events = batch_size w) ∧ map view events = take (length events) (abs (w_sys w)).

Lemma took_nil w : took w [].
Proof. split; [by left|done]. Qed.

Lemma cwp_dequeue_reserved P T stack w w1 :
  reserve_ok psch_batch_max = true → at_work 0 0 P w w1 → text_buffers stack →
  cwp (DequeueEvents stack psch_batch_max)
    (λ evs w', at_work (length evs) 0 P w w' ∧ length evs = batch_size w ∧
       map view evs = take (length evs) (abs (w_sys w)) ∧ Forall event_ok evs) T w1.
Proof.
  intros Hr [Hp He] Hb. unfold DequeueEvents. rewrite Hr.
  apply cwp_lift. destruct (pr_inv _ _ _ _ Hp) as (st & st1 & m1 & _ & Hinv & _).
  pose proof (wp_dequeue_loop (Z.to_nat psch_batch_max) stack _ _ _ Hinv Hb) as H.
  unfold wp, on_wsys in *. destruct (DequeueLoop _ _ _) as [[evs|] s2]; [|done].
  destruct H as (Hv & Hok & Ht). rewrite (pr_abs _ _ _ _ Hp), drop_0 in Hv. split.
  - constructor; [|done]. exact (progress_taken 0 0 _ _ _ _ Hp Ht).
  - assert (length evs = batch_size w) as Hlen.
    { apply (f_equal length) in Hv. by rewrite length_map, length_take in Hv. }
    split; [done|]. split; [|done]. rewrite Hv, Hlen. unfold batch_size.
    destruct (Nat.min_spec (Z.to_nat psch_batch_max) (length (abs (w_sys w)))) as [[_ ->]|[Hle ->]]; [done|].
    by rewrite firstn_all, take_ge.
Qed.

Lemma cwp_dequeue_events P stack w w1 :
  at_work 0 0 P w w1 → text_buffers stack →
  cwp (DequeueEvents stack psch_batch_max)
    (λ evs w', at_work (length evs) 0 P w w' ∧ took w evs)
    (λ _ w', at_work 0 0 P w w') w1.
Proof.
  intros Hw Hb. destruct (reserve_ok psch_batch_max) eqn:Hr.
  - eapply cwp_mono; [| |exact (cwp_dequeue_reserved P (λ _ _, False) stack w w1 Hr Hw Hb)]; [|by intros].
    intros evs w' (Hw' & Hl & Hv & _). split; [done|]. by split; [right|].
  - unfold DequeueEvents. rewrite Hr. by apply cwp_throw.
Qed.

(** Committing: the count the back end reports is returned, and added to the
    exported count when the commit succeeded. *)
Definition commit_batch : C (Worker X) Z :=
  committed ← call_reporting CommitBatch;
  _ ← (if committed : bool then
         n ← query_exporter NumExported;
         _ ← lift (add_exported n);
         lift (on_wsys PschRecordExportSuccess)
       else mret tt);
  query_exporter NumExported.

Lemma cwp_commit_with (Pre PT : X → Prop) (Post : bool → X → Prop) k w0 w :
  (∀ e r e' msgs, Pre e → CommitBatch e = (r, e', msgs) → match r with Ret ok => Post ok e' | Throw _ => PT e' end) →
  at_work k 0 Pre w0 w →
  cwp commit_batch
    (λ r w', ∃ ok : bool, at_work k (if ok then r else 0) (λ e, Post ok e ∧ r = NumExported e) w0 w')
    (λ _ w', at_work k 0 PT w0 w') w.
Proof.
  intros Hc Hw. unfold commit_batch. apply cwp_bind.
  eapply cwp_mono; [| |apply (cwp_call_both _ _ _ _ Post PT _ _ Hw Hc)]; [|done].
  intros ok w1 [Hs1 (e & He & Hb)]. unfold query_exporter, call, cwp, mbind, C_bind. destruct ok.
  - cbv beta. rewrite He. simpl. unfold lift, add_exported, on_wsys. simpl.
    pose proof (steady_add (NumExported e) _ _ _ _ Hs1) as Ha. unfold wp in Ha.
    destruct ((null ← shared_is_null; _) _) as [[u|] s2]; [|done]. simpl.
    pose proof (steady_success _ _ _ _ Ha) as Hsu. unfold wp in Hsu.
    destruct (PschRecordExportSuccess s2) as [[v|] s3]; [|done]. simpl.
    exists true. rewrite !Z.add_0_r, Z.add_0_l in Hsu. constructor; [done|]. by exists e.
  - simpl. rewrite He. simpl. exists false. constructor; [done|]. by exists e.
Qed.

(** What is done with the events of a batch. *)
Definition export_events (events : list PschEvent) : C (Worker X) Z :=
  if psch_use_otel && psch_otel_arrow_passthrough then lift (ExportEventsAsArrow events)
  else
    ok ← lift (ExportEventStats events);
    if negb ok then mret 0 else commit_batch.

(** An export call, given what exporting the events it took does: [Ready] describes
    a connected back end, [Stopped events] one that was left in the middle. *)
Lemma wp_export_with (Ready : X → Prop) (Stopped : list PschEvent → X → Prop) (Q : Z → Worker X → Prop) stack w :
  (∀ e, Stopped [] e → IsConnected e = true → Ready e) → (∀ e, Ready e → Stopped [] e) →
  (∀ e r e' msgs, Stopped [] e → EstablishNewConnection e = (r, e', msgs) →
     match r with Ret true => Ready e' | _ => Stopped [] e' end) →
  (∀ events w', took w events → at_work (length events) 0 (Stopped events) w w' → Q 0 w') →
  (∀ events w', events ≠ [] → took w events → at_work (length events) 0 Ready w w' →
     cwp (export_events events) Q (λ _ w'', at_work (length events) 0 (Stopped events) w w'') w') →
  at_work 0 0 (Stopped []) w w → text_buffers stack →
  wp (PschExportBatch stack) Q (λ _, False) w.
Proof.
  intros Hcon Hweak Hest Hstop Hrun Hw Hb. unfold PschExportBatch. apply wp_try.
  eapply (cwp_mono _ Q _ (λ _ w', ∃ events, took w events ∧ at_work (length events) 0 (Stopped events) w w')); [done| |].
  { intros ex w1 (events & Ht & Hw1). eapply wp_mono; [| |eapply wp_report; exact Hw1]; [|done].
    intros r w2 [-> Hw2]. by eapply Hstop. }
  assert (∀ w', at_work 0 0 (Stopped []) w w' → ∃ events, took w events ∧ at_work (length events) 0 (Stopped events) w w')
    as Hnone by (intros w' Hw'; exists []; split; [apply took_nil|done]).
  apply cwp_bind.
  eapply cwp_mono; [| |apply (cwp_call_exits _ _ _ _ (λ c e, Stopped [] e ∧ IsConnected e = c) (Stopped []) _ _ Hw)];
    [|auto|by intros e r e' He [= <- <-]].
  intros connected w1 Hw1. apply cwp_bind.
  eapply (cwp_mono _ (λ ok w', at_work 0 0 (if ok : bool then Ready else Stopped []) w w') _
            (λ _ w', at_work 0 0 (Stopped []) w w')); [|auto|].
  2: { destruct connected; [apply cwp_ret; eapply at_work_weaken; [|exact Hw1]; intros e [? ?]; auto|].
       eapply cwp_mono; [| |apply (cwp_call_both _ _ _ _ (λ ok, if ok : bool then Ready else Stopped []) (Stopped []) _ _ Hw1)];
         [done|done|]. intros e r e' msgs [He _] Hr. specialize (Hest _ _ _ _ He Hr). by destruct r as [[]|]. }
  intros established w2 Hw2. destruct established; simpl.
  2: { apply cwp_bind, cwp_lift.
       eapply wp_mono; [| |apply (wp_wsys0 _ _ _ _ _ _ (steady_failure _) Hw2)]; [|done].
       intros u w3 Hw3. apply cwp_ret. by apply (Hstop []); [apply took_nil|]. }
  apply cwp_bind. eapply cwp_mono; [| |by apply cwp_dequeue_events].
  2: { intros ex w3 Hw3. apply Hnone. by eapply at_work_weaken. }
  intros events w3 (Hw3 & Ht). case_bool_decide as Hnil.
  { apply cwp_ret. subst events. apply (Hstop []); [done|]. by eapply at_work_weaken. }
  eapply cwp_mono; [| |by apply (Hrun events)]; [done|]. by exists events.
Qed.

Lemma took_size w events : took w events → length events = 0%nat ∨ length events = batch_size w.
Proof. intros [[->|H] _]; auto. Qed.

Lemma wp_export_batch stack w :
  at_work 0 0 any w w → text_buffers stack →
  wp (PschExportBatch stack) (batch_done w) (λ _, False) w.
Proof.
  intros Hw Hb. apply (wp_export_with any (λ _, any)); try done.
  - by intros e [[]|] e' msgs.
  - intros events w' Ht Hw'. eapply batch_nothing; [by apply took_size|done].
  - intros events w1 _ Ht Hw1.
    assert (∀ r w', accounted (length events) (Z.of_nat (length events)) w r w' → batch_done w r w') as Hdone.
    { intros r w' Hr. exists (length events). split; [by apply took_size|done]. }
    unfold export_events. destruct (psch_use_otel && psch_otel_arrow_passthrough).
    { apply cwp_lift. eapply wp_mono; [| |by apply wp_arrow_accounted]; [|done]. apply Hdone. }
    apply cwp_bind, cwp_lift. eapply wp_mono; [| |by apply wp_stats]; [|done]. intros ok w4 Hw4.
    destruct ok; simpl; [|apply cwp_ret; eapply batch_nothing; [by apply took_size|exact Hw4]].
    eapply cwp_mono; [| |apply (cwp_commit_with (begun (Z.of_nat (length events))) any
      (λ _, begun (Z.of_nat (length events)))); [|exact Hw4]]; [|done|].
    2: { intros e [ok|ex] e' msgs Hbe Hr; [|done]. by eapply begun_commit. }
    intros r w5 (ok & Hw5). apply Hdone. destruct (aw_exp _ _ _ _ _ Hw5) as (e & _ & Hbe & ->).
    split; [by apply begun_bound|]. eexists. split; [by eapply at_work_weaken|]. destruct ok; auto.
Qed.

End worker.

(** ** The worker process *)

Section bgworker.
Context {E : Env} {X : Type} {SE : StatsExporter X} {XL : StatsExporterLaws X}.
Context {B : Type} {AB : ArrowBatchBuilder B} {AL : ArrowLaws B}.

Definition worker_ok (w : Worker X) : Prop := at_work 0 0 (λ _, True) w w.

Lemma at_work_ok k x P w0 w : at_work k x P w0 w → worker_ok w.
Proof.
  intros [[_ (st & st1 & m1 & _ & Hinv & _) Hl] (e & He & _)].
  constructor; [by eapply progress_start|by exists e].
Qed.

(** The worker is sound and the batch size is at least 1, as its declaration says. *)
Record bgw_ok (b : Bgw X) : Prop := {
  bo_worker : worker_ok (g_worker b);
  bo_max : 1 ≤ psch_batch_max (ExportEnv := set_export (settings b));
  bo_next : 1 ≤ psch_batch_max (ExportEnv := set_export (config_file b)) }.

Definition queued_events (b : Bgw X) : nat := length (abs (w_sys (g_worker b))).

(** Signals change neither the worker's data nor, until they are handled, the settings. *)
Lemma deliver_frame sigs (b : Bgw X) :
  let b' := foldl (λ b sig, run_handler (handlers b sig) b) b sigs in
  g_worker b' = g_worker b ∧ settings b' = settings b ∧ config_file b' = config_file b.
Proof.
  revert b. induction sigs as [|sig sigs IH]; intros b; simpl; [done|].
  destruct (IH (run_handler (handlers b sig) b)) as (-> & -> & ->).
  by destruct (handlers b sig) as [[]|].
Qed.

Lemma wp_signals (b : Bgw X) :
  bgw_ok b →
  wp ProcessPendingSignals (λ _ b', bgw_ok b' ∧ g_worker b' = g_worker b)
    (λ b', ProcDiePending b' = true) b.
Proof.
  intros [Hw Hm Hn]. unfold ProcessPendingSignals, deliver. do 2 wp_step.
  set (b1 := foldl _ _ _). destruct (deliver_frame (default [] (head (incoming b))) (b <| incoming := tail (incoming b) |>))
    as (H1 & H2 & H3). fold b1 in H1, H2, H3. simpl in H1, H2, H3.
  assert (∀ b2 : Bgw X, g_worker b2 = g_worker b1 → settings b2 = settings b1 → config_file b2 = config_file b1 →
    wp (dying ← gets ProcDiePending; _ ← (if dying : bool then raise else mret tt); HandleConfigReload)
      (λ _ b', bgw_ok b' ∧ g_worker b' = g_worker b) (λ b', ProcDiePending b' = true) b2) as Hrest.
  { intros b2 G1 G2 G3. do 2 wp_step. destruct (ProcDiePending b2) eqn:Hd; wp_step; [by wp_step|]. wp_step.
    unfold HandleConfigReload. do 2 wp_step. destruct (ConfigReloadPending b2); wp_step;
      (split; [constructor; simpl; congruence|simpl; congruence]). }
  do 3 wp_step. destruct (ProcSignalBarrierPending b1); wp_step; by apply Hrest.
Qed.

Lemma wp_guarded stack (b : Bgw X) :
  bgw_ok b → text_buffers stack →
  wp (export_guarded stack)
    (λ r b', ∃ w', b' = b <| g_worker := w' |> ∧ batch_done (EE := set_export (settings b)) (g_worker b) r w')
    (λ _, False) b.
Proof.
  intros [Hw _ _] Hb. pose proof (wp_export_batch (EE := set_export (settings b)) stack _ Hw Hb) as H.
  unfold wp, export_guarded, on_worker in *. destruct (PschExportBatch _ _) as [[r|] w']; [|done]. by exists w'.
Qed.

Lemma wp_drain fuel stack (b : Bgw X) :
  bgw_ok b → text_buffers stack → (queued_events b < fuel)%nat →
  wp (drain_loop fuel stack)
    (λ broke b', broke = true ∧ bgw_ok b' ∧ (queued_events b' ≤ queued_events b)%nat)
    (λ b', ProcDiePending b' = true) b.
Proof.
  intros Hok Hb. revert b Hok. induction fuel as [|fuel IH]; intros b Hok Hfuel; [lia|]. simpl. wp_step.
  eapply wp_mono; [| |by apply wp_guarded]; [|done].
  intros r b1 (w' & -> & k & Hk & Hr & x & Hx & _). pose proof Hok as [_ Hm Hn].
  assert (queued_events (b <| g_worker := w' |>) = queued_events b - k)%nat as Hq.
  { unfold queued_events. simpl. by rewrite (pr_abs _ _ _ _ (aw_sys _ _ _ _ _ Hx)), length_drop. }
  assert (bgw_ok (b <| g_worker := w' |>)) as Hok1 by (constructor; [by eapply at_work_ok|done|done]).
  do 2 wp_step. simpl. destruct (Z.ltb_spec r (psch_batch_max (ExportEnv := set_export (settings b)))) as [Hlt|Hge].
  { wp_step. split; [done|]. split; [done|]. rewrite Hq. lia. }
  assert (k = batch_size (EE := set_export (settings b)) (g_worker b)) as Hbs by (destruct Hk; [lia|done]).
  unfold batch_size in Hbs. fold (queued_events b) in Hbs.
  wp_step. eapply wp_mono; [| |by apply wp_signals]; [|done]. intros u b2 [Hok2 Hg].
  assert (queued_events b2 = queued_events b - k)%nat as Hq2 by (rewrite <- Hq; unfold queued_events; by rewrite Hg).
  do 2 wp_step. destruct (negb _); [wp_step; split; [done|]; split; [done|lia]|].
  eapply wp_mono; [| |apply IH; [done|lia]]; [|done]. intros fin b3 (-> & H3 & H4). split_and!; (done || lia).
Qed.

End bgworker.

(** ** A concrete worker *)

Definition demo_export : ExportEnv := {|
  psch_batch_max := 2; psch_flush_interval_ms := 500; psch_use_otel := false;
  psch_otel_arrow_passthrough := false; psch_otel_max_block_bytes := 65536; reserve_ok := λ _, true |}.

(** A queue with three events. *)
Definition demo_full : Sys :=
  (PschEnqueueBatch (E := demo1) [demo_ev1; demo_ev1; demo_ev1] 3 demo_sys1).2.

Lemma demo_full_inv : ∃ st m, ring_inv demo_full st m ∧ lock_held demo_full = false.
Proof.
  destruct (wp_run_spec (PschEnqueueBatch (E := demo1) [demo_ev1; demo_ev1; demo_ev1] 3)
    (λ _ s', ∃ st m, ring_inv s' st m) (λ _, False) demo_sys1) as (r & s' & Heq & H).
  - apply (wp_enqueue_batch (E := demo1) _ 3 demo_sys1 demo_st1 ∅ _ _ demo_inv1); [done|done|done| | |].
    + repeat (apply Forall_cons; split; [exact demo_ev1_ok|]). by apply Forall_nil.
    + intros s' st' acc drops [(m & Hm) _ _ _ _ _ _ _ _] _ _. eauto.
    + intros s' st' acc drops Hr _ _. by destruct (demo_no_raise _ _ _ Hr).
  - destruct r as [r|]; [|done]. unfold demo_full. rewrite Heq. destruct H as (st & m & Hm).
    exists st, m. split; [done|]. apply (f_equal (λ p, lock_held p.2)) in Heq. rewrite <- Heq. by vm_compute.
Qed.

Definition demo_worker {X} (x : X) : Worker X := Build_Worker demo_full (Some x).

Lemma demo_worker_ok {X} (x : X) : worker_ok (demo_worker x).
Proof.
  destruct demo_full_inv as (st & m & Hinv & Hl). constructor; [by eapply progress_start|by exists x].
Qed.

Lemma zero_event_text : text_buffers zero_event.
Proof. split; by vm_compute. Qed.

End ExporterThms.
