(* ===== verification/OtelThms.v ===== *)
(** The OpenTelemetry back end driven by the front end: on the row path and on the
    Arrow path the requests the collector accepted carry a prefix of the batch, in
    order, within the limits on a request. *)

From Stdlib Require Import QArith.
From S2P Require Import Prelude Event Shared Ring RingInv RingSpec QueueThms Exporter Arrow Otel ArrowThms ExporterThms.
Import Event Shared Ring RingInv RingSpec QueueThms Exporter Otel ExporterThms.
#[local] Open Scope Z_scope.

Module OtelThms.

(** ** The record of an event, the request of a chunk *)

Definition write (k : ColKind) (v : Value) (rec : LogRecord) : LogRecord :=
  if skipped k v then rec else (append_value k v rec).1.
Definition heavier (k : ColKind) (v : Value) (n : Z) : Z :=
  if skipped k v then n else u64 (n + (append_value k v empty_record).2).

Abbreviation Cell := (ColKind * (PschEvent → M Sys Value))%type.

Definition fill (ev : PschEvent) (cols : list Cell) (rec : LogRecord) : LogRecord :=
  foldl (λ rec col, write (fst col) (value_of (snd col) ev) rec) rec cols.
Definition weigh (ev : PschEvent) (cols : list Cell) (n : Z) : Z :=
  foldl (λ n col, heavier (fst col) (value_of (snd col) ev) n) n cols.

(** The record of an event: its columns written one after the other. *)
Definition record_of (ev : PschEvent) : LogRecord := fill ev export_columns empty_record.

(** The running estimate of the size of a request. *)
Definition chunk_estimate (evs : list PschEvent) : Z :=
  foldl (λ n ev, weigh ev export_columns (u64 (n + kLogRecordOverheadBytes))) kRequestOverheadBytes evs.

Lemma chunk_estimate_snoc evs ev :
  chunk_estimate (evs ++ [ev]) = weigh ev export_columns (u64 (chunk_estimate evs + kLogRecordOverheadBytes)).
Proof. unfold chunk_estimate. by rewrite foldl_app. Qed.

Lemma append_value_weight k v rec : (append_value k v rec).2 = (append_value k v empty_record).2.
Proof. by destruct k, v. Qed.

(** A request holds at most [R] records, and was below [B] bytes by the estimate
    before its last one. *)
Definition chunk_ok (R B : Z) (chunk : list PschEvent) : Prop :=
  ∃ evs ev, chunk = evs ++ [ev] ∧ Z.of_nat (length chunk) ≤ R ∧ chunk_estimate evs < B.

Lemma chunk_ok_nonempty R B chunk : chunk_ok R B chunk → chunk ≠ [].
Proof. intros (evs & ev & -> & _). by destruct evs. Qed.

Lemma chunks_nil R B chunks : Forall (chunk_ok R B) chunks → concat chunks `prefix_of` [] → chunks = [].
Proof.
  intros Hc Hp. destruct chunks as [|c chunks]; [done|]. apply Forall_cons in Hc as [Hc _].
  apply prefix_nil_inv, app_nil in Hp as [-> _]. by destruct (chunk_ok_nonempty _ _ _ Hc).
Qed.

Section otel.
Context {E : Env} {OL : OtlpLib}.
#[local] Abbreviation W := (Worker OT).

(** ** The promise to the front end *)

Lemma flush_count n x ok x' msgs :
  FlushChunk x = (Ret ok, x', msgs) →
  - 2 ^ 31 ≤ exported_count_ x ∧ 0 ≤ chunk_count_ x ∧ exported_count_ x + chunk_count_ x ≤ n →
  - 2 ^ 31 ≤ exported_count_ x' ∧ 0 ≤ chunk_count_ x' ∧ exported_count_ x' + chunk_count_ x' ≤ n.
Proof.
  unfold FlushChunk. intros H (Hr & Hc & Hn). destruct (_ || _); [by injection H as <- <- <-|].
  destruct (MakeClientContext x); [done|]. destruct (DelegateExport _ x); [..|done]; injection H as <- <- <-; simpl; [|lia].
  pose proof (i32_range (exported_count_ x + chunk_count_ x)).
  pose proof (i32_le (exported_count_ x + chunk_count_ x)). lia.
Qed.

Lemma reset_count x x' :
  ResetChunk x = (Ret tt, x') → chunk_count_ x' = 0 ∧ exported_count_ x' = exported_count_ x.
Proof. unfold ResetChunk. by destruct (new_chunk x); intros [= <-]. Qed.

Lemma add_record_count n x x' :
  add_record x = (Ret tt, x') →
  - 2 ^ 31 ≤ exported_count_ x ∧ 0 ≤ chunk_count_ x ∧ exported_count_ x + chunk_count_ x ≤ n →
  - 2 ^ 31 ≤ exported_count_ x' ∧ 0 ≤ chunk_count_ x' ∧ exported_count_ x' + chunk_count_ x' ≤ n + 1.
Proof. unfold add_record. destruct (scope_logs_ x), (arena_ok x); intros [= <-] ?; simpl; lia. Qed.

(** Exported rows and rows of the open request together are at most the rows begun. *)
#[global] Instance OTel_laws : StatsExporterLaws OT.
Proof.
  refine {| begun n x := - 2 ^ 31 ≤ exported_count_ x ∧ 0 ≤ chunk_count_ x ∧
                         exported_count_ x + chunk_count_ x ≤ n |}; simpl.
  - lia.
  - intros x x' [-> ->]%reset_count. simpl. lia.
  - intros k n x i x'. unfold make_column. destruct (make_column_ok x); by intros [= <- <-].
  - intros n x x' msgs. unfold begin_row. destruct (batch_failed_ x); [intros [= <- <-]; lia|].
    destruct (ChunkFull x).
    + destruct (FlushChunk x) as [[[[]|e] x1] m1] eqn:Hf; [| |done]; intros H Hn; apply (flush_count n) in Hf; try done.
      * destruct (ResetChunk x1) as [[[]|e] x2] eqn:Hr; [|done]. apply reset_count in Hr as [Hc He].
        destruct (add_record x2) as [r x3] eqn:Ha. injection H as -> <- <-. apply (add_record_count n) in Ha; [done|].
        rewrite Hc, He. lia.
      * injection H as <- <-. simpl. lia.
    + destruct (add_record x) as [r x3] eqn:Ha. intros [= -> <- <-] Hn. by apply (add_record_count n) in Ha.
  - intros i v n x x'. unfold append.
    destruct (columns x !! i) as [k|]; [|by intros [= <-]]. destruct (current_record_ x); [by intros [= <-]..|].
    destruct (last _); [|by intros [= <-]]. destruct (skipped k v); [by intros [= <-]|].
    destruct (arena_ok x); [|done]. destruct (append_value k v l). by intros [= <-].
  - intros n x ok x' msgs. unfold commit. destruct (batch_failed_ x); [by intros [= <- <- <-]|].
    destruct (negb _); [by intros [= <- <- <-]|]. destruct (FlushChunk x) as [[r x1] m1] eqn:Hf.
    destruct r as [[]|e]; intros [= <- <- <-] Hn; simpl; [by apply (flush_count n) in Hf..|].
    unfold FlushChunk in Hf. destruct (_ || _); [done|]. destruct (MakeClientContext x); [by injection Hf as _ <- _|].
    destruct (DelegateExport _ x); try done. by injection Hf as _ <- _.
Defined.

Definition request_for (chunk : list PschEvent) : Request :=
  (new_request false) <| log_records := map record_of chunk |>.

Lemma set_records f recs req :
  req <| log_records := recs |> <| log_records ::= f |> = req <| log_records := f recs |>.
Proof. done. Qed.

(** What can keep a batch from being delivered: the allocators, the RPC library or
    the collector. *)
Inductive trouble : Prop :=
  | no_arena x : new_chunk x ≠ ArenaOk → trouble
  | arena_full x : arena_ok x = false → trouble
  | no_column x : make_column_ok x = false → trouble
  | no_context x e : MakeClientContext x = Some e → trouble
  | not_accepted r x : DelegateExport r x ≠ StatusOk → trouble.
#[local] Hint Constructors trouble : core.

(** Between batches: a connected exporter has its limits set. *)
Definition idle (x : OT) : Prop :=
  fault x = false ∧ (stub_ x = true → 1 ≤ max_chunk_records_ x ∧ kRequestOverheadBytes < max_chunk_bytes_ x).

(** ** The state of a batch *)

Section batch.
Context (D0 : list Request) (R B : Z).

(** The requests of [chunks] were accepted; no pointer was followed in vain. *)
Record sent (ks : list ColKind) (chunks : list (list PschEvent)) (x : OT) : Prop := {
  se_stub : stub_ x = true;
  se_limits : max_chunk_records_ x = R ∧ max_chunk_bytes_ x = B;
  se_count : exported_count_ x = i32 (total chunks);
  se_delivered : delivered x = D0 ++ map request_for chunks;
  se_chunks : Forall (chunk_ok R B) chunks;
  se_columns : columns x = ks;
  se_fault : fault x = false }.

(** A request with these records is being built. *)
Record building (recs : list LogRecord) (bytes : Z) (x : OT) : Prop := {
  bu_pointers : request_ x = valid ∧ scope_logs_ x = valid;
  bu_request : request x = (new_request false) <| log_records := recs |>;
  bu_count : chunk_count_ x = Z.of_nat (length recs);
  bu_bytes : chunk_bytes_ x = bytes;
  bu_going : batch_failed_ x = false }.

Definition given_up (chunks : list (list PschEvent)) (evs : list PschEvent) (x : OT) : Prop :=
  batch_failed_ x = true ∧ current_record_ x = nullptr ∧ concat chunks `prefix_of` evs ∧ trouble.

(** After the rows of [evs]. *)
Definition between (ks : list ColKind) (evs : list PschEvent) (x : OT) : Prop :=
  ∃ chunks, sent ks chunks x ∧
    (given_up chunks evs x ∨
     ∃ pend, concat chunks ++ pend = evs ∧ (pend = [] ∨ chunk_ok R B pend) ∧
             building (map record_of pend) (chunk_estimate pend) x).

(** In the row of [ev], with the columns [done] written. *)
Definition in_row (ks : list ColKind) (evs : list PschEvent) (ev : PschEvent) (done : list Cell) (x : OT) : Prop :=
  ∃ chunks, sent ks chunks x ∧
    (given_up chunks evs x ∨
     ∃ pend, concat chunks ++ pend = evs ∧ chunk_ok R B (pend ++ [ev]) ∧ current_record_ x = valid ∧
             building (map record_of pend ++ [fill ev done empty_record])
               (weigh ev done (u64 (chunk_estimate pend + kLogRecordOverheadBytes))) x).

(** Where an exception or a refusal leaves the batch. *)
Definition stopped (evs : list PschEvent) (x : OT) : Prop :=
  ∃ ks chunks, sent ks chunks x ∧ concat chunks `prefix_of` evs ∧ trouble.

Context (R_ok : 1 ≤ R) (B_ok : kRequestOverheadBytes < B).

Lemma reset_chunk ks chunks x :
  sent ks chunks x → batch_failed_ x = false →
  match ResetChunk x with
  | (Ret _, x') => sent ks chunks x' ∧ building [] kRequestOverheadBytes x'
  | (Throw _, x') => sent ks chunks x' ∧ trouble
  end.
Proof.
  intros [] Hb. unfold ResetChunk. destruct (new_chunk x) eqn:Hn;
    (split; [by constructor|]); [by constructor|..]; by eapply (no_arena x); rewrite Hn.
Qed.

Lemma flush_chunk ks chunks pend x :
  sent ks chunks x → pend = [] ∨ chunk_ok R B pend → building (map record_of pend) (chunk_estimate pend) x →
  match FlushChunk x with
  | (Ret true, x', _) =>
    ∃ chunks', concat chunks' = concat chunks ++ pend ∧ sent ks chunks' x' ∧ batch_failed_ x' = false
  | (Ret false, x', _) => sent ks chunks x' ∧ current_record_ x' = nullptr ∧ trouble
  | (Throw _, x', _) => sent ks chunks x' ∧ trouble
  end.
Proof.
  intros Hs Hp [[Hr Hsc] Hreq Hc Hby Hb]. unfold FlushChunk. rewrite (se_stub _ _ _ Hs). cbn [negb orb].
  rewrite Hc, length_map. destruct (Z.eqb_spec (Z.of_nat (length pend)) 0) as [H0|H0].
  { assert (pend = []) as -> by by destruct pend. exists chunks. by rewrite app_nil_r. }
  assert (chunk_ok R B pend) as Hok by (destruct Hp as [->|]; done).
  destruct Hs as [Hst Hli Hco Hde Hch Hcol Hf].
  destruct (MakeClientContext x) as [e|] eqn:Hm; [by split; [constructor|eauto]|].
  rewrite Hr. destruct (DelegateExport (request x) x) eqn:Hd.
  - exists (chunks ++ [pend]). rewrite concat_app. simpl. rewrite app_nil_r. split; [done|]. split; [|done].
    constructor; simpl; try done.
    + rewrite Hco, total_snoc. apply i32_add_l.
    + rewrite Hde, Hreq, map_app, app_assoc. done.
    + apply Forall_app. auto.
  - split; [by constructor|]. split; [done|]. apply (not_accepted (request x) x). by rewrite Hd.
  - split; [by constructor|]. apply (not_accepted (request x) x). by rewrite Hd.
Qed.

Lemma add_record_ok ks chunks recs bytes x :
  sent ks chunks x → building recs bytes x →
  match add_record x with
  | (Ret _, x') => sent ks chunks x' ∧ current_record_ x' = valid ∧
                   building (recs ++ [empty_record]) (u64 (bytes + kLogRecordOverheadBytes)) x'
  | (Throw _, x') => sent ks chunks x' ∧ trouble
  end.
Proof.
  intros [] [[Hr Hs] Hreq Hc Hb Hf]. unfold add_record. rewrite Hs.
  destruct (arena_ok x) eqn:Ha; (split; [by constructor|]); [|eauto]. split; [done|].
  constructor; simpl; [done|by rewrite Hreq|rewrite Hc, length_app; simpl; lia|by rewrite Hb|done].
Qed.

Lemma begin_row_ok ks evs ev x :
  between ks evs x →
  match begin_row x with
  | (Ret _, x', _) => in_row ks evs ev [] x'
  | (Throw _, x', _) => stopped evs x'
  end.
Proof.
  intros (chunks & Hs & Hst). unfold begin_row. destruct Hst as [Hg|(pend & Heq & Hp & Hb)].
  { rewrite (proj1 Hg). exists chunks. auto. }
  rewrite (bu_going _ _ _ Hb).
  assert (∀ chunks' pend' x', sent ks chunks' x' → concat chunks' ++ pend' = evs → chunk_ok R B (pend' ++ [ev]) →
    building (map record_of pend') (chunk_estimate pend') x' →
    match add_record x' with (Ret _, x'') => in_row ks evs ev [] x'' | (Throw _, x'') => stopped evs x'' end) as Hadd.
  { intros chunks' pend' x' Hs' Heq' Hc' Hb'. pose proof (add_record_ok _ _ _ _ _ Hs' Hb') as Ha.
    destruct (add_record x') as [[u|e] x'']; destruct Ha as [Hs'' Ha].
    - exists chunks'. split; [done|]. right. exists pend'. destruct Ha. by split_and!.
    - exists ks, chunks'. split_and!; [done| |done]. rewrite <- Heq'. by apply prefix_app_r. }
  destruct (ChunkFull x) eqn:Hfull.
  - pose proof (flush_chunk _ _ _ _ Hs Hp Hb) as Hfl.
    destruct (FlushChunk x) as [[[[]|e] x1] msgs].
    + destruct Hfl as (chunks' & Hcc & Hs1 & Hf1). pose proof (reset_chunk _ _ _ Hs1 Hf1) as Hre.
      destruct (ResetChunk x1) as [[u|e] x2]; destruct Hre as [Hs2 Hre].
      * specialize (Hadd chunks' [] x2 Hs2). destruct (add_record x2) as [[u'|e] x3]; apply Hadd; try done;
          try (by rewrite app_nil_r, Hcc); exists [], ev; by split_and!.
      * exists ks, chunks'. split_and!; [done| |done]. by rewrite Hcc, Heq.
    + destruct Hfl as (Hs1 & Hc1 & Ht). exists chunks. split; [by destruct Hs1|]. left. split_and!; [done|done| |done].
      rewrite <- Heq. by apply prefix_app_r.
    + destruct Hfl as [Hs1 Ht]. exists ks, chunks. split_and!; [done| |done]. rewrite <- Heq. by apply prefix_app_r.
  - specialize (Hadd chunks pend x Hs Heq). destruct (add_record x) as [[u|e] x1]; apply Hadd; try done;
      exists pend, ev; unfold ChunkFull in Hfull; rewrite (bu_bytes _ _ _ Hb), (bu_count _ _ _ Hb), length_map in Hfull;
      destruct (se_limits _ _ _ Hs) as [HR HB]; rewrite length_app; simpl; split_and!; (done || lia).
Qed.

Lemma append_ok ks evs ev past col x :
  columns x !! length past = Some (fst col) → in_row ks evs ev past x →
  match append (length past) (value_of (snd col) ev) x with
  | (Ret _, x') => in_row ks evs ev (past ++ [col]) x'
  | (Throw _, x') => stopped evs x'
  end.
Proof.
  intros Hcol (chunks & Hs & [Hg|(pend & Heq & Hc & Hcur & Hb)]); unfold append; rewrite Hcol.
  { destruct Hg as (Hg & Hcur & Hrest). rewrite Hcur. exists chunks. split; [done|]. by left. }
  rewrite Hcur. destruct Hb as [Hptr Hreq Hcount Hbytes Hgo]. rewrite Hreq. simpl. rewrite last_snoc.
  set (v := value_of (snd col) ev). set (bytes := weigh ev past _) in *.
  assert (∀ x', sent ks chunks x' → current_record_ x' = valid →
    building (map record_of pend ++ [write (fst col) v (fill ev past empty_record)]) (heavier (fst col) v bytes) x' →
    in_row ks evs ev (past ++ [col]) x') as Hdone.
  { intros x' Hs' Hcur' Hb'. exists chunks. split; [done|]. right. exists pend. unfold fill, weigh.
    rewrite !foldl_app. by split_and!. }
  unfold write, heavier in Hdone. destruct (skipped (fst col) v).
  { by apply Hdone. }
  destruct (arena_ok x) eqn:Ha.
  2: { exists ks, chunks. split_and!; [done| |eauto]. rewrite <- Heq. by apply prefix_app_r. }
  rewrite <- (append_value_weight (fst col) v (fill ev past empty_record)) in Hdone.
  destruct (append_value _ _ (fill ev past empty_record)) as [rec' size].
  apply Hdone; [by destruct Hs|done|]. constructor; simpl; [done| | |by rewrite Hbytes|done].
  - rewrite Hreq, set_records. by rewrite removelast_last.
  - by rewrite Hcount, !length_app.
Qed.

Lemma row_done ks evs ev x : in_row ks evs ev export_columns x → between ks (evs ++ [ev]) x.
Proof.
  intros (chunks & Hs & Hst). exists chunks. split; [done|]. destruct Hst as [(Hf & Hc & Hp & Ht)|Hst].
  - left. split_and!; [done|done|by apply prefix_app_r|done].
  - right. destruct Hst as (pend & Heq & Hc & _ & Hb). exists (pend ++ [ev]). rewrite app_assoc, Heq.
    rewrite chunk_estimate_snoc, map_app. auto.
Qed.

Lemma commit_ok ks evs x :
  between ks evs x →
  match commit x with
  | (true, x', _) => ∃ chunks, sent ks chunks x' ∧ concat chunks = evs
  | (false, x', _) => ∃ chunks, sent ks chunks x' ∧ concat chunks `prefix_of` evs ∧ trouble
  end.
Proof.
  intros (chunks & Hs & Hst). unfold commit. destruct Hst as [(-> & _ & Hp & Ht)|(pend & Heq & Hp & Hb)].
  { exists chunks. auto. }
  rewrite (bu_going _ _ _ Hb), (se_stub _ _ _ Hs). cbn [negb].
  assert (concat chunks `prefix_of` evs) as Hpre by (rewrite <- Heq; by apply prefix_app_r).
  pose proof (flush_chunk _ _ _ _ Hs Hp Hb) as Hf. destruct (FlushChunk x) as [[[[]|e] x'] msgs].
  - destruct Hf as (chunks' & Hcc & [] & _). exists chunks'. split; [by constructor|]. by rewrite Hcc.
  - destruct Hf as ([] & _ & Ht). exists chunks. by split_and!; [constructor|..].
  - destruct Hf as ([] & Ht). exists chunks. by split_and!; [constructor|..].
Qed.

(** ** The row path *)

Lemma cwp_columns k n w0 ks cols w :
  at_work k n (λ x, between ks [] x) w0 w →
  cwp (c_map (λ col : Cell, call (MakeColumn (fst col))) cols)
    (λ hs w', hs = seq (length ks) (length cols) ∧ at_work k n (between (ks ++ map fst cols) []) w0 w')
    (λ _ w', at_work k n (stopped []) w0 w') w.
Proof.
  revert ks w. induction cols as [|[kd f] cols IH]; intros ks w Hw; cbn [c_map].
  { apply cwp_ret. by rewrite app_nil_r. }
  apply cwp_bind. eapply cwp_mono; [| |apply (cwp_call_exits _ _ _ _
    (λ i x, i = length ks ∧ between (ks ++ [kd]) [] x) (stopped []) _ _ Hw)]; [|done|].
  - intros i w1 Hw1. destruct (aw_exp _ _ _ _ _ Hw1) as (x1 & Hx1 & -> & _). apply cwp_bind.
    eapply cwp_mono; [| |apply (IH (ks ++ [kd]) w1); by eapply at_work_weaken; [|exact Hw1]; intros ? [_ ?]]; [|done].
    intros hs w2 [-> Hw2]. apply cwp_ret. rewrite length_app, Nat.add_comm, <- app_assoc in *. done.
  - intros x r x' (chunks & [] & Hst). simpl. unfold make_column. destruct (make_column_ok x) eqn:Hm; intros [= <- <-].
    + split; [congruence|]. exists chunks. split; [constructor; simpl; try done; congruence|].
      destruct Hst as [Hg|(pend & Heq & Hp & [])]; [by left|right; exists pend; by split_and!; [..|constructor]].
    + exists (columns x), chunks. split_and!; [by constructor| |eauto].
      destruct Hst as [(_ & _ & Hp & _)|(pend & Heq & _)]; [done|]. rewrite <- Heq. by apply prefix_app_r.
Qed.

Abbreviation all_columns := (map fst export_columns).

Lemma otel_cells k n w0 evs ev past cells w :
  past ++ cells = export_columns → at_work k n (in_row all_columns evs ev past) w0 w →
  cwp (c_for_each (λ col : nat * (PschEvent → M Sys Value),
         v ← lift (on_wsys (col.2 ev)); call (Append col.1 v)) (zip (seq (length past) (length cells)) (map snd cells)))
    (λ _ w', at_work k n (in_row all_columns evs ev export_columns) w0 w')
    (λ _ w', at_work k n (stopped evs) w0 w') w.
Proof.
  revert past w. induction cells as [|col cells IH]; intros past w Heq Hw; simpl.
  { apply cwp_ret. rewrite app_nil_r in Heq. by subst past. }
  assert (col ∈ export_columns) as Hin by (rewrite <- Heq; set_solver).
  assert (all_columns !! length past = Some (fst col)) as Hcol.
  { by rewrite <- Heq, map_app, lookup_app_r, length_map, Nat.sub_diag by (by rewrite length_map). }
  apply cwp_bind, cwp_bind. eapply cwp_mono; [| |by apply cwp_cell]; [|done]. intros v w1 [-> Hw1].
  eapply cwp_mono; [| |apply (cwp_call_exits _ _ _ _ (λ _, in_row all_columns evs ev (past ++ [col]))
    (stopped evs) _ _ Hw1)]; [|done|].
  - intros u w2 Hw2. replace (S (length past)) with (length (past ++ [col])) by (rewrite length_app; simpl; lia).
    apply IH; [by rewrite <- app_assoc|done].
  - intros x r x' Hx. simpl. intros Ha. pose proof (append_ok all_columns evs ev past col x) as H. rewrite Ha in H.
    destruct r; (apply H; [|done]); destruct Hx as (chunks & Hs & _); by rewrite (se_columns _ _ _ Hs).
Qed.

Lemma cwp_row k n w0 evs ev w :
  at_work k n (between all_columns evs) w0 w →
  cwp (append_row (zip (seq 0 (length export_columns)) (map snd export_columns)) ev)
    (λ _ w', at_work k n (between all_columns (evs ++ [ev])) w0 w') (λ _ w', at_work k n (stopped evs) w0 w') w.
Proof.
  intros Hw. unfold append_row. apply cwp_bind.
  eapply cwp_mono; [| |apply (cwp_call_both _ _ _ _ (λ _, in_row all_columns evs ev []) (stopped evs) _ _ Hw)]; [|done|].
  - intros u w1 Hw1. eapply cwp_mono; [| |by apply (otel_cells k n w0 evs ev [] export_columns w1)]; [|done].
    intros u' w2 Hw2. eapply at_work_weaken; [|exact Hw2]. apply row_done.
  - intros x r x' msgs Hx Hr. pose proof (begin_row_ok all_columns evs ev x Hx) as H. simpl in Hr. rewrite Hr in H.
    by destruct r.
Qed.

Lemma stopped_app evs rest x : stopped evs x → stopped (evs ++ rest) x.
Proof. intros (ks & chunks & Hs & Hp & Ht). exists ks, chunks. split_and!; [done|by apply prefix_app_r|done]. Qed.

Lemma otel_rows k n w0 evs rest w :
  at_work k n (between all_columns evs) w0 w →
  cwp (c_for_each (append_row (zip (seq 0 (length export_columns)) (map snd export_columns))) rest)
    (λ _ w', at_work k n (between all_columns (evs ++ rest)) w0 w')
    (λ _ w', at_work k n (stopped (evs ++ rest)) w0 w') w.
Proof.
  revert evs w. induction rest as [|ev rest IH]; intros evs w Hw; cbn [c_for_each].
  { apply cwp_ret. by rewrite app_nil_r. }
  apply cwp_bind. eapply cwp_mono; [| |by apply cwp_row].
  - intros u w1 Hw1. replace (evs ++ ev :: rest) with ((evs ++ [ev]) ++ rest) by by rewrite <- app_assoc. by apply IH.
  - intros ex w1 Hw1. eapply at_work_weaken; [|exact Hw1]. intros x. apply stopped_app.
Qed.

(** A connected exporter before a batch. *)
Definition fresh (x : OT) : Prop :=
  stub_ x = true ∧ max_chunk_records_ x = R ∧ max_chunk_bytes_ x = B ∧ delivered x = D0 ∧ fault x = false.

Lemma begin_batch_ok x :
  fresh x → match begin_batch x with
            | (Ret _, x') => between [] [] x'
            | (Throw _, x') => stopped [] x'
            end.
Proof.
  intros (Hs & HR & HB & Hd & Hf). unfold begin_batch. set (x1 := x <| exported_count_ := 0 |> <| batch_failed_ := false |>
    <| columns := [] |>).
  assert (sent [] [] x1) as H1 by (constructor; simpl; try done; by rewrite Hd, app_nil_r).
  pose proof (reset_chunk [] [] x1 H1 eq_refl) as Hr. destruct (ResetChunk x1) as [[u|e] x2]; destruct Hr as [H2 Hr].
  - exists []. split; [done|]. right. exists []. auto.
  - by exists [], [].
Qed.

Lemma wp_stats_otel k n w0 events w :
  at_work k n fresh w0 w →
  wp (ExportEventStats events)
    (λ ok w', at_work k n (if ok : bool then between all_columns events else stopped events) w0 w')
    (λ _, False) w.
Proof.
  intros Hw. unfold ExportEventStats. apply wp_try, cwp_bind.
  eapply (cwp_mono _ (λ _ w', at_work k n (between all_columns events) w0 w') _
            (λ _ w', at_work k n (stopped events) w0 w')).
  - intros u w1 Hw1. by apply cwp_ret.
  - intros ex w1 Hw1. eapply wp_mono; [| |eapply wp_report; exact Hw1]; [|done]. by intros ok w2 [-> Hw2].
  - unfold ExportEventStatsInternal. apply cwp_bind.
    assert (∀ w', at_work k n (stopped []) w0 w' → at_work k n (stopped events) w0 w') as Hstop.
    { intros w' Hw'. eapply at_work_weaken; [|exact Hw']. intros x. apply (stopped_app []). }
    eapply cwp_mono; [| |apply (cwp_call_exits _ _ _ _ (λ _, between [] []) (stopped []) _ _ Hw)]; [|auto|].
    + intros u w1 Hw1. apply cwp_bind. eapply cwp_mono; [| |by apply (cwp_columns k n w0 [] export_columns)]; [|auto].
      intros hs w2 [-> Hw2]. by apply (otel_rows k n w0 [] events).
    + intros x r x' Hx Hr. pose proof (begin_batch_ok x Hx) as H. simpl in Hr. rewrite Hr in H. by destruct r.
Qed.

End batch.

(** ** A whole export call *)

(** The requests of some chunks of events were accepted since [D0]. *)
Definition accepted (D0 : list Request) (chunks : list (list PschEvent)) (x : OT) : Prop :=
  idle x ∧ delivered x = D0 ++ map request_for chunks ∧
  Forall (chunk_ok (max_chunk_records_ x) (max_chunk_bytes_ x)) chunks.

Lemma sent_accepted D0 R B ks chunks x :
  1 ≤ R → kRequestOverheadBytes < B → sent D0 R B ks chunks x → accepted D0 chunks x.
Proof. intros HR HB [? [<- <-] ? ? ? ? ?]. by split_and!. Qed.

(** What an export call of the row path leaves: the requests accepted carry a prefix
    of the events taken, and all of them unless something failed. *)
Definition delivered_rows {EE : ExportEnv} (D0 : list Request) (w : W) (r : Z) (w' : W) : Prop :=
  ∃ events chunks n, took w events ∧ at_work (length events) n (accepted D0 chunks) w w' ∧
    concat chunks `prefix_of` events ∧ (r = 0 ∨ r = total chunks) ∧
    (n = r ∧ r = Z.of_nat (length events) ∧ concat chunks = events ∨ n = 0 ∧ (events = [] ∨ trouble)).

Definition halted (D0 : list Request) (events : list PschEvent) (x : OT) : Prop :=
  ∃ chunks, accepted D0 chunks x ∧ concat chunks `prefix_of` events ∧ (events = [] ∨ trouble).

Lemma establish_ok D0 x ok x' :
  halted D0 [] x → establish x = (ok, x') → halted D0 [] x' ∧ stub_ x' = ok.
Proof.
  intros (chunks & ([Hf _] & Hd & Hc) & Hp & _) He. pose proof (chunks_nil _ _ _ Hc Hp) as ->.
  unfold establish in He.
  destruct configure_throws; [|destruct (MakeOptimizedChannel _)]; injection He as <- <-; (split; [|done]);
    exists []; (split; [|by auto]); (split; [|done]); (split; [done|]); [done| |done].
  intros _. simpl. unfold kMinBytesPerRecord, kRequestOverheadBytes. lia.
Qed.

Lemma cwp_otel_events {EE : ExportEnv} {Bd : Type} {AB : ArrowBatchBuilder Bd} D0 w events w1 :
  psch_use_otel && psch_otel_arrow_passthrough = false → psch_batch_max < 2 ^ 31 →
  took w events → at_work (length events) 0 (λ x, halted D0 [] x ∧ stub_ x = true) w w1 →
  cwp (export_events events) (delivered_rows D0 w)
    (λ _ w', at_work (length events) 0 (halted D0 events) w w') w1.
Proof.
  intros Hpath Hmax Ht Hw. destruct (aw_exp _ _ _ _ _ Hw) as (x & Hx & (chunks & (Hi & Hd & Hc) & Hp & _) & Hst).
  pose proof (chunks_nil _ _ _ Hc Hp) as ->. rewrite app_nil_r in Hd. destruct Hi as [Hf Hlim].
  destruct (Hlim Hst) as [HR HB]. set (R := max_chunk_records_ x) in *. set (B := max_chunk_bytes_ x) in *.
  assert (at_work (length events) 0 (fresh D0 R B) w w1) as Hw1.
  { constructor; [apply Hw|]. by exists x. }
  assert (∀ x, stopped D0 R B events x → halted D0 events x) as Hstop.
  { intros y (ks & chunks & Hs & Hpre & Htr). exists chunks. split_and!; [by eapply sent_accepted|done|auto]. }
  unfold export_events. rewrite Hpath. apply cwp_bind, cwp_lift.
  eapply wp_mono; [| |exact (wp_stats_otel D0 R B HR HB _ _ _ events _ Hw1)]; [|done].
  intros ok w2 Hw2. destruct ok; cbn [negb].
  2: { apply cwp_ret. destruct (aw_exp _ _ _ _ _ Hw2) as (y & Hy & ks & chunks & Hs & Hpre & Htr).
       exists events, chunks, 0. split_and!; [done| |done|by left|right; auto].
       constructor; [apply Hw2|]. exists y. split; [done|]. by eapply sent_accepted. }
  set (Post := λ (ok : bool) y, ∃ ks chunks, sent D0 R B ks chunks y ∧
    if ok then concat chunks = events else concat chunks `prefix_of` events ∧ trouble).
  eapply cwp_mono; [| |apply (cwp_commit_with (between D0 R B (map fst export_columns) events) (λ _, False) Post); [|exact Hw2]].
  - intros r w3 (ok & Hw3). destruct (aw_exp _ _ _ _ _ Hw3) as (y & Hy & (ks & chunks & Hs & Hok) & ->).
    assert (concat chunks `prefix_of` events) as Hpre by (destruct ok; [by rewrite Hok|apply Hok]).
    assert (NumExported y = total chunks) as Hn.
    { simpl. rewrite (se_count _ _ _ _ _ _ Hs). apply i32_small. pose proof (total_prefix _ _ Hpre).
      assert (Z.of_nat (length events) < 2 ^ 31); [|lia]. apply took_size in Ht. unfold batch_size in Ht. lia. }
    exists events, chunks, (if ok then NumExported y else 0). split_and!; [done| |done|by right|].
    + constructor; [apply Hw3|]. exists y. split; [done|]. by eapply sent_accepted.
    + destruct ok; [left|right]; [|by destruct Hok; auto]. rewrite Hn. unfold total. by rewrite Hok.
  - intros ex w3 Hw3. by destruct (aw_exp _ _ _ _ _ Hw3) as (y & _ & []).
  - intros y r y' msgs Hy. simpl. pose proof (commit_ok D0 R B _ events y Hy) as Hcm.
    destruct (commit y) as [[ok y1] msgs1]. intros [= <- <- <-]. exists (map fst export_columns).
    destruct ok; destruct Hcm as (chunks & Hs & Hrest); by exists chunks.
Qed.

Lemma wp_export_otel {EE : ExportEnv} {Bd : Type} {AB : ArrowBatchBuilder Bd}
    (Stopped : list PschEvent → OT → Prop) (Q : Z → W → Prop) stack w x :
  worker_ok w → w_exporter w = Some x → idle x → text_buffers stack →
  (∀ y, Stopped [] y ↔ halted (delivered x) [] y) →
  (∀ events w', took w events → at_work (length events) 0 (Stopped events) w w' → Q 0 w') →
  (∀ events w1, took w events →
     at_work (length events) 0 (λ y, halted (delivered x) [] y ∧ stub_ y = true) w w1 →
     cwp (export_events events) Q (λ _ w', at_work (length events) 0 (Stopped events) w w') w1) →
  wp (PschExportBatch stack) Q (λ _, False) w.
Proof.
  intros Hw Hx Hi Hb Hnil Hstop Hrun.
  apply (wp_export_with (λ y, halted (delivered x) [] y ∧ stub_ y = true) Stopped); try done.
  - intros y Hy. by rewrite <- Hnil.
  - intros y [Hy _]. by apply Hnil.
  - intros y r y' msgs Hy%Hnil. simpl. destruct (establish y) as [ok y1] eqn:He. intros [= <- <- <-].
    destruct (establish_ok _ _ _ _ Hy He) as [Hy1 Hs]. destruct ok; [done|by apply Hnil].
  - intros events w1 _. apply Hrun.
  - constructor; [apply Hw|]. exists x. split; [done|]. apply Hnil. exists []. split; [|by auto].
    split; [done|]. by rewrite app_nil_r.
Qed.

(** ** The Arrow path *)

Section arrow.
Context {AR : Arrow.ArrowLib} {EE : ExportEnv}.

(** The request that carries the block of a chunk. *)
Definition block_request (chunk : list PschEvent) (req : Request) : Prop :=
  ∃ data now_ns, Arrow.write_stream (ArrowThms.block_of chunk) = Some data ∧
    req = arrow_request data (Z.of_nat (length chunk)) now_ns.

(** A block is closed by the first event that takes the estimate to the limit. *)
Definition block_limit : Z := Z.max 65536 (u64 psch_otel_max_block_bytes).

Definition shipped (D0 : list Request) (chunks : list (list PschEvent)) (x : OT) : Prop :=
  idle x ∧ Forall (small block_limit) chunks ∧
  ∃ reqs, delivered x = D0 ++ reqs ∧ Forall2 block_request chunks reqs.

Lemma send_arrow_ok D0 chunks chunk data x ok x' msgs :
  shipped D0 chunks x → small block_limit chunk → Arrow.write_stream (ArrowThms.block_of chunk) = Some data →
  send_arrow data (Z.of_nat (length chunk)) x = (ok, x', msgs) →
  shipped D0 (if ok : bool then chunks ++ [chunk] else chunks) x'.
Proof.
  intros (Hi & Hc & reqs & Hd & Hr) Hs Hdata. unfold send_arrow.
  destruct (_ || _); [intros [= <- <- <-]; split_and!; eauto|].
  destruct (arrow_request_throws x); [intros [= <- <- <-]; split_and!; eauto|].
  destruct (MakeClientContext x); [intros [= <- <- <-]; split_and!; eauto|].
  destruct (DelegateExport _ x); intros [= <- <- <-]; (split; [done|]); [|by eauto..].
  split; [apply Forall_app; auto|]. eexists. split; [simpl; by rewrite Hd, <- app_assoc|].
  apply Forall2_app; [done|]. apply Forall2_cons. split; [|done]. by exists data, (system_clock_ns x).
Qed.

(** What an export call of the Arrow path leaves. *)
Definition delivered_blocks (D0 : list Request) (w : W) (r : Z) (w' : W) : Prop :=
  ∃ events chunks n, took w events ∧ at_work (length events) n (shipped D0 chunks) w w' ∧
    concat chunks `prefix_of` events ∧ (r = 0 ∨ r = total chunks) ∧
    (n = 0 ∨ n = r ∧ r = Z.of_nat (length events) ∧ concat chunks = events).

Lemma halted_shipped D0 x : halted D0 [] x → shipped D0 [] x.
Proof.
  intros (chunks & (Hi & Hd & Hc) & Hp & _). pose proof (chunks_nil _ _ _ Hc Hp) as ->.
  split_and!; [done|done|]. by exists [].
Qed.

Lemma cwp_arrow_events D0 w events w1 :
  psch_use_otel && psch_otel_arrow_passthrough = true → took w events →
  at_work (length events) 0 (λ x, halted D0 [] x ∧ stub_ x = true) w w1 →
  cwp (export_events events) (delivered_blocks D0 w) (λ _ _, False) w1.
Proof.
  intros Hpath Ht Hw. unfold export_events. rewrite Hpath. apply cwp_lift.
  eapply wp_mono; [| |apply (wp_arrow (shipped D0) events (length events) w w1)]; [|done|..].
  - intros r w' (chunks & n & Hw' & Hpre & Hr & Hn). exists events, chunks, n. split_and!; [done..|by destruct Hr; auto|].
    destruct Hn as [->|(-> & -> & Heq)]; [by left|right]. unfold total. by rewrite Heq.
  - intros chunks chunk data x r x' msgs Hx Hs Hb. simpl.
    destruct (send_arrow data _ x) as [[ok y] m] eqn:Hsend. intros [= <- <- <-].
    pose proof (send_arrow_ok _ _ _ _ _ _ _ _ Hx Hs Hb Hsend) as H. by destruct ok.
  - eapply at_work_weaken; [|exact Hw]. intros x [Hx _]. by apply halted_shipped.
Qed.

End arrow.

End otel.

(** ** Properties *)

(** C13: What one export call does with the OpenTelemetry back end on the row path,
    from any state between batches, connected or not. It never leaves by an error
    or an exception and never follows a pointer into an arena that is gone. The
    events it takes are the first of the queue; the collector accepted, in order,
    one request for each of some consecutive chunks of them, starting with the
    first; record [i] of a request is event [i] of its chunk, written column by
    column; no request has more records than the limit, and each was below the byte
    limit by the running estimate before its last record. Either all events were
    accepted, and the result and the growth of the exported counter are their
    number, or none is counted, and then no event was taken or an allocation, the
    RPC library or the collector failed. *)
Theorem otel_batch_delivered {E : Env} {OL : OtlpLib} {EE : ExportEnv} {Bd : Type} {AB : ArrowBatchBuilder Bd}
  stack (w : Worker OT) x (Hw : worker_ok w) (Hx : w_exporter w = Some x) (Hi : idle x) (Hb : text_buffers stack)
  (Hpath : psch_use_otel && psch_otel_arrow_passthrough = false) (Hmax : psch_batch_max < 2 ^ 31) :
  wp (PschExportBatch stack) (delivered_rows (delivered x) w) (λ _, False) w.
Proof.
  apply (wp_export_otel (halted (delivered x)) _ stack w x); try done.
  - intros events w' Ht Hw'. destruct (aw_exp _ _ _ _ _ Hw') as (y & Hy & chunks & Hacc & Hpre & Htr).
    exists events, chunks, 0. split_and!; [done| |done|by left|by right]. constructor; [apply Hw'|by exists y].
  - intros events w1 Ht Hw1. by apply cwp_otel_events.
Qed.


(** *** A collector that refuses the second request *)

Definition demo_otlp (batch_size : Z) (accepts : OT → bool) : OtlpLib := {|
  psch_hostname := None; getenv_HOSTNAME := None; gethostname := Some [104; 0];
  psch_otel_endpoint := None; psch_otel_log_delay_ms := 1000; psch_otel_log_max_bytes := 3145728;
  psch_otel_log_batch_size := batch_size; PG_STAT_CH_VERSION := [49];
  default_opts := {| endpoint := [97]; timeout_ms := 10000; use_ssl_credentials := false; cacert := [] |};
  configure_throws := None; CreateCustomChannel := λ _ _ _ _, true; make_column_ok := λ _, true;
  new_chunk := λ _, ArenaOk; arena_ok := λ _, true; MakeClientContext := λ _, None;
  DelegateExport := λ _ x, if accepts x then StatusOk else StatusError "unavailable";
  arrow_request_throws := λ _, None; system_clock_ns := λ _, 0 |}.

Definition demo_arrow_lib : Arrow.ArrowLib := {|
  Arrow.make_impl_ok := true; Arrow.builder_append := λ _ _ _, true; Arrow.builder_finish := λ _ _, true;
  Arrow.reserve_columns_ok := true; Arrow.sink_create_ok := true; Arrow.codec_create_ok := true;
  Arrow.writer_create_ok := true; Arrow.write_record_batch_ok := λ _, true; Arrow.writer_close_ok := true;
  Arrow.sink_finish := λ b, Some [Arrow.rb_rows b]; Arrow.psch_extra_attributes := None;
  Arrow.PG_STAT_CH_VERSION := [49] |}.

Definition demo_otel_export (passthrough : bool) : ExportEnv := {|
  psch_batch_max := 2; psch_flush_interval_ms := 500; psch_use_otel := true;
  psch_otel_arrow_passthrough := passthrough; psch_otel_max_block_bytes := 65536; reserve_ok := λ _, true |}.

Definition demo_otel (lib : OtlpLib) : OT := MakeOpenTelemetryExporter (OL := lib).

Lemma otel_batch_delivered_witness :
  let lib := demo_otlp 1 (λ x, bool_decide (delivered x = [])) in
  ∃ r w', PschExportBatch (E := demo1) (SE := OTel_exporter (OL := lib)) (AB := Arrow.Arrow_builder (AR := demo_arrow_lib))
            (EE := demo_otel_export false) zero_event (demo_worker (demo_otel lib)) = (Some r, w') ∧
    delivered_rows (OL := lib) (EE := demo_otel_export false) [] (demo_worker (demo_otel lib)) r w'.
Proof.
  cbv zeta. set (lib := demo_otlp 1 _).
  destruct (wp_run_spec _ _ _ _ (otel_batch_delivered (E := demo1) (OL := lib) (EE := demo_otel_export false)
    (AB := Arrow.Arrow_builder (AR := demo_arrow_lib)) zero_event (demo_worker (demo_otel lib)) (demo_otel lib)
    (demo_worker_ok (demo_otel lib)) eq_refl (conj eq_refl (λ H, match Bool.diff_false_true H with end))
    zero_event_text eq_refl eq_refl)) as (r & w' & Heq & H).
  destruct r as [r|]; [|destruct H]. exists r, w'. split; [exact Heq|exact H].
Defined.


(** Part of a batch can reach the collector without being counted. With the
    limit of one record for each request, a collector that refuses the second request
    has the first event, and the call says so by its result, yet the exported counter
    stays at 0, although two events are off the queue. *)
Theorem partial_batch_uncounted :
  let lib := demo_otlp 1 (λ x, bool_decide (delivered x = [])) in
  let '(r, w') := PschExportBatch (E := demo1) (SE := OTel_exporter (OL := lib))
                    (AB := Arrow.Arrow_builder (AR := demo_arrow_lib)) (EE := demo_otel_export false) zero_event
                    (demo_worker (demo_otel lib)) in
  r = Some 1 ∧ (length ∘ delivered <$> w_exporter w') = Some 1%nat ∧
  length (abs demo_full) = 3%nat ∧ length (abs (w_sys w')) = 1%nat ∧
  (exported <$> psch_shared_state (w_sys w')) = Some 0.
Proof. vm_compute. repeat split. Qed.

End OtelThms.
