(* ===== verification/ClickHouseThms.v ===== *)
(** The ClickHouse back end driven by the front end: a batch is a table with one
    row for each event, and what happens to a batch the server does not take. *)

From S2P Require Import Prelude Event Shared Ring RingInv RingSpec QueueThms Exporter ChcConnection ClickHouse Bgworker ExporterThms ChcConnectionThms.
Import Event Shared Ring RingInv RingSpec QueueThms Exporter ChcConnection ClickHouse Bgworker ExporterThms
  ChcConnectionThms.

Module ClickHouseThms.

(** ** The table of a batch *)

Definition column_for (k : ColKind) (data : list Value) : Column :=
  let '(name, class, type) := column_of k in
  {| col_name := name; col_class := class; col_type := type; col_data := data |}.

(** One column for each exported field, one value for each event. *)
Definition table (events : list PschEvent) : list Column :=
  map (λ col, column_for (fst col) (map (value_of (snd col)) events)) export_columns.

Definition column_key (k : ColKind) : string := (column_of k).1.1.

Lemma names_distinct : NoDup (map (column_key ∘ fst) export_columns).
Proof. apply (bool_decide_eq_true_1 _). vm_compute. reflexivity. Qed.

(** *** The columns *)

Definition empty_columns (ks : list ColKind) : list Column := map (λ k, column_for k []) ks.

Definition cleared_columns (cs : list Column) : list Column := map (λ c, c <| col_data := [] |>) cs.

(** The columns are those of the schema, the first of them if an earlier batch was
    abandoned before all were made; whatever they hold. *)
Definition schema_ok (x : CH) : Prop :=
  cleared_columns (columns_ x) `prefix_of` empty_columns (map fst export_columns).

Lemma name_column_for k data : col_name (column_for k data) = column_key k.
Proof. unfold column_for, column_key. by destruct (column_of k) as [[? ?] ?]. Qed.

Lemma clear_column_for k data : (column_for k data) <| col_data := [] |> = column_for k [].
Proof. unfold column_for. by destruct (column_of k) as [[? ?] ?]. Qed.

Lemma clear_empty ks : cleared_columns (empty_columns ks) = empty_columns ks.
Proof.
  unfold cleared_columns, empty_columns. rewrite map_map. apply map_ext. intros k. apply clear_column_for.
Qed.

Lemma clear_append i v cs :
  cleared_columns (alter (λ c : Column, c <| col_data ::= λ l, l ++ [v] |>) i cs) = cleared_columns cs.
Proof.
  revert i. induction cs as [|c cs IH]; intros [|i]; [done..|].
  unfold cleared_columns in *. simpl. f_equal. apply IH.
Qed.

Lemma clear_table events : cleared_columns (table events) = empty_columns (map fst export_columns).
Proof.
  unfold cleared_columns, table, empty_columns. rewrite !map_map. apply map_ext. intros col. apply clear_column_for.
Qed.

(** The first columns are there, empty, and perhaps some of the rest. *)
Definition laid_out (past rest : list ColKind) (x : CH) : Prop :=
  ∃ tail, columns_ x = empty_columns past ++ tail ∧ tail `prefix_of` empty_columns rest.

Lemma laid_out_schema past rest x :
  past ++ rest = map fst export_columns → laid_out past rest x → schema_ok x.
Proof.
  intros Heq (tl & Hc & rest' & Hp). unfold schema_ok. rewrite Hc, <- Heq. exists rest'.
  assert (empty_columns (past ++ rest) = (empty_columns past ++ tl) ++ rest') as He.
  { unfold empty_columns in *. by rewrite map_app, Hp, app_assoc. }
  pose proof (clear_empty (past ++ rest)) as Hcl. rewrite He in Hcl. rewrite He. unfold cleared_columns in Hcl.
  rewrite map_app in Hcl. apply (f_equal (take (length (empty_columns past ++ tl)))) in Hcl.
  rewrite take_app_length in Hcl. rewrite take_app_length' in Hcl by (symmetry; apply length_map).
  unfold cleared_columns. by rewrite Hcl.
Qed.

Lemma list_find_app_here (name : string) (l1 : list Column) c l2 :
  Forall (λ c, col_name c ≠ name) l1 → col_name c = name →
  list_find (λ c, col_name c = name) (l1 ++ c :: l2) = Some (length l1, c).
Proof.
  intros H1 Hc. induction H1 as [|c1 l1 Hne H1 IH]; simpl.
  - by rewrite decide_True.
  - rewrite decide_False by done. by rewrite IH.
Qed.

Lemma list_find_absent (name : string) (l : list Column) :
  Forall (λ c, col_name c ≠ name) l → list_find (λ c, col_name c = name) l = None.
Proof.
  induction 1 as [|c l Hne H IH]; simpl; [done|]. rewrite decide_False by done. by rewrite IH.
Qed.

Lemma other_names past k rest :
  NoDup (map column_key (past ++ k :: rest)) → Forall (λ c, col_name c ≠ column_key k) (empty_columns past).
Proof.
  intros Hnd. unfold empty_columns. apply Forall_forall. intros c (k' & -> & Hk')%list_elem_of_fmap.
  rewrite name_column_for. intros Heq. rewrite map_app in Hnd. apply NoDup_app in Hnd as (_ & Hd & _).
  eapply Hd; [by apply list_elem_of_fmap_2|]. simpl. rewrite Heq. left.
Qed.

Section table.
Context {E : Env} {CL : ChcLib}.
#[local] Abbreviation W := (Worker CH).

(** The worker holds no lock and its exporter has a property. *)
Definition holds (P : CH → Prop) (w : W) : Prop :=
  lock_held (w_sys w) = false ∧ ∃ x, w_exporter w = Some x ∧ P x.

(** What an exception leaves: it was the allocator's, and the schema is intact. *)
Definition out_of_heap (x : CH) : Prop := schema_ok x ∧ ∃ y, heap_ok y = false.
Definition aborted (e : Exn) (w : W) : Prop := holds out_of_heap w.

Lemma cwp_call_ch {A} (f : CH → res A * CH) (P : CH → Prop) (Q : A → CH → Prop) w :
  holds P w →
  (∀ x, P x → match f x with (Ret a, x') => Q a x' | (Throw _, x') => out_of_heap x' end) →
  cwp (call f) (λ a w', holds (Q a) w') aborted w.
Proof.
  intros (Hl & x & Hx & HP) Hf. specialize (Hf x HP). unfold cwp, call. rewrite Hx.
  destruct (f x) as [[a|ex] x']; (split; [exact Hl|by exists x']).
Qed.

(** A call that reports nothing. *)
Lemma cwp_call_quiet {A} (f : CH → res A * CH * list string) (P : CH → Prop) (Q : A → CH → Prop) w :
  holds P w →
  (∀ x, P x → match f x with (Ret a, x', msgs) => msgs = [] ∧ Q a x' | (Throw _, _, _) => False end) →
  cwp (call_reporting f) (λ a w', holds (Q a) w') aborted w.
Proof.
  intros (Hl & x & Hx & HP) Hf. specialize (Hf x HP). unfold cwp, call_reporting. rewrite Hx.
  destruct (f x) as [[[a|ex] x'] msgs]; [|done]. destruct Hf as [-> HQ]. split; [exact Hl|by exists x'].
Qed.

Lemma cwp_value f ev (P : CH → Prop) w :
  stateless f ev → holds P w →
  cwp (lift (on_wsys (f ev))) (λ v w', v = value_of f ev ∧ holds P w') aborted w.
Proof.
  intros Hf (Hl & x & Hx & HP). specialize (Hf (w_sys w)). unfold cwp, lift, on_wsys.
  destruct (f ev (w_sys w)) as [r s']. simpl in Hf. destruct Hf as [-> Hl']. split; [done|].
  split; [simpl; congruence|by exists x].
Qed.

(** *** The columns are made once and found again *)

Lemma make_column past k rest x :
  NoDup (map column_key (past ++ k :: rest)) → laid_out past (k :: rest) x →
  match MakeColumn k x with
  | (Ret i, x') => i = length past ∧ laid_out (past ++ [k]) rest x'
  | (Throw _, x') => x' = x ∧ heap_ok x = false
  end.
Proof.
  intros Hne%other_names (tl & Hc & Htl). simpl.
  assert (length (empty_columns past) = length past) as Hl by apply length_map.
  destruct (column_of k) as [[name class] type] eqn:Hk.
  assert (column_key k = name) as Hkey by (unfold column_key; by rewrite Hk). rewrite Hkey in Hne.
  assert (column_for k [] = {| col_name := name; col_class := class; col_type := type; col_data := [] |}) as Hcol
    by (unfold column_for; by rewrite Hk).
  unfold MakeCol. rewrite Hc. destruct tl as [|c tl].
  - rewrite app_nil_r, list_find_absent by done. destruct (heap_ok x) eqn:Hh; [|done]. split; [done|].
    exists []. split; [|apply prefix_nil]. simpl. rewrite Hc. unfold empty_columns.
    by rewrite map_app, !app_nil_r, <- Hcol.
  - simpl in Htl. pose proof (prefix_cons_inv_1 _ _ _ _ Htl) as ->. apply prefix_cons_inv_2 in Htl.
    rewrite Hcol, (list_find_app_here name) by done. rewrite bool_decide_eq_true_2 by done.
    split; [done|]. exists tl. split; [|done]. rewrite Hc. unfold empty_columns.
    by rewrite map_app, <- app_assoc.
Qed.

Lemma cwp_make_columns past ks w :
  NoDup (map column_key (past ++ map fst ks)) → past ++ map fst ks = map fst export_columns →
  holds (laid_out past (map fst ks)) w →
  cwp (c_map (λ col : ColKind * (PschEvent → M Sys Value), call (MakeColumn (fst col))) ks)
    (λ hs w', hs = seq (length past) (length ks) ∧ holds (laid_out (past ++ map fst ks) []) w') aborted w.
Proof.
  revert past w. induction ks as [|[k f] ks IH]; intros past w Hnd Hall Hw; cbn [c_map].
  - apply cwp_ret. simpl. by rewrite app_nil_r.
  - apply cwp_bind. cbn [map fst] in Hnd, Hall |- *.
    eapply cwp_mono; [| |apply (cwp_call_ch _ _ (λ i x', i = length past ∧ laid_out (past ++ [k]) (map fst ks) x') _ Hw)];
      [|done|].
    2: { intros x Hx. pose proof (make_column past k _ x Hnd Hx) as Hm.
         destruct (MakeColumn k x) as [[i|e] x']; [exact Hm|]. destruct Hm as [-> Hh].
         split; [|by exists x]. by eapply laid_out_schema. }
    intros i w1 (Hl1 & x1 & Hx1 & -> & Hlay). apply cwp_bind.
    eapply cwp_mono; [| |apply (IH (past ++ [k]) w1)];
      [|done|by rewrite <- app_assoc|by rewrite <- app_assoc|split; [done|by exists x1]].
    intros hs w2 [-> Hw2]. apply cwp_ret. rewrite length_app, Nat.add_comm, <- app_assoc in *. done.
Qed.

(** *** Rows *)

Definition add_cell (ev : PschEvent) (c : Column) (f : PschEvent → M Sys Value) : Column :=
  c <| col_data ::= λ l, l ++ [value_of f ev] |>.

Lemma append_cell ev f past c rest x :
  columns_ x = past ++ c :: rest ∧ schema_ok x →
  match Append (length past) (value_of f ev) x with
  | (Ret _, x') => columns_ x' = (past ++ [add_cell ev c f]) ++ rest ∧ schema_ok x'
  | (Throw _, x') => out_of_heap x'
  end.
Proof.
  intros [Hc Hs]. simpl. unfold append. destruct (heap_ok x) eqn:Hh; [|split; [done|by exists x]].
  split.
  - simpl. rewrite Hc, alter_app_r_alt by lia. rewrite Nat.sub_diag, <- app_assoc. done.
  - unfold schema_ok. cbn. rewrite clear_append. exact Hs.
Qed.

Lemma cwp_cells ev cells past rest w :
  Forall (λ f, stateless f ev) cells → length cells = length rest →
  holds (λ x, columns_ x = past ++ rest ∧ schema_ok x) w →
  cwp (c_for_each (λ col : nat * (PschEvent → M Sys Value),
         v ← lift (on_wsys (col.2 ev)); call (Append col.1 v)) (zip (seq (length past) (length rest)) cells))
    (λ _ w', holds (λ x, columns_ x = past ++ zip_with (add_cell ev) rest cells) w') aborted w.
Proof.
  intros Hs. revert past rest w. induction Hs as [|f cells Hf Hs IH]; intros past rest w Hlen Hw;
    destruct rest as [|c rest]; try done; simpl.
  - apply cwp_ret. destruct Hw as (Hl & x & Hx & Hc & _). split; [done|]. by exists x.
  - apply cwp_bind, cwp_bind. eapply cwp_mono; [| |by apply cwp_value]; [|done]. intros v w1 [-> Hw1].
    eapply cwp_mono; [| |apply (cwp_call_ch _ _
      (λ _ x, columns_ x = (past ++ [add_cell ev c f]) ++ rest ∧ schema_ok x) _ Hw1)]; [|done|].
    2: { intros x Hx. pose proof (append_cell ev f past c rest x Hx) as Ha.
         simpl in Ha |- *. by destruct (append (length past) (value_of f ev) x) as [[[]|e] x']. }
    intros u w2 Hw2. replace (S (length past)) with (length (past ++ [add_cell ev c f]))
      by (rewrite length_app; simpl; lia).
    eapply cwp_mono; [| |apply (IH (past ++ [add_cell ev c f]) rest w2); [simpl in Hlen; lia|done]]; [|done].
    intros u2 w3 (Hl & x & Hx & Hc). split; [done|]. exists x. split; [exact Hx|].
    rewrite <- app_assoc in Hc. exact Hc.
Qed.

Lemma zip_with_map {A B C' D} (f : B → C' → D) (g : A → B) (h : A → C') l :
  zip_with f (map g l) (map h l) = map (λ a, f (g a) (h a)) l.
Proof. induction l as [|a l IH]; simpl; [done|]. by rewrite IH. Qed.

Lemma table_snoc events ev :
  zip_with (add_cell ev) (table events) (map snd export_columns) = table (events ++ [ev]).
Proof.
  unfold table. rewrite zip_with_map. apply list_fmap_ext. intros i [k f] _. simpl.
  unfold add_cell, column_for. destruct (column_of k) as [[? ?] ?]. simpl. by rewrite map_app.
Qed.

Lemma length_table events : length (table events) = length export_columns.
Proof. apply length_map. Qed.

Lemma table_nil : table [] = empty_columns (map fst export_columns).
Proof. unfold table, empty_columns. by rewrite map_map. Qed.

Lemma table_schema events x : columns_ x = table events → schema_ok x.
Proof. intros Hc. unfold schema_ok. by rewrite Hc, clear_table. Qed.

Lemma cwp_rows ev events w :
  holds (λ x, columns_ x = table events) w →
  cwp (append_row (zip (seq 0 (length export_columns)) (map snd export_columns)) ev)
    (λ _ w', holds (λ x, columns_ x = table (events ++ [ev])) w') aborted w.
Proof.
  intros Hw. unfold append_row. apply cwp_bind.
  eapply cwp_mono; [| |apply (cwp_call_quiet _ _ (λ _ x, columns_ x = [] ++ table events ∧ schema_ok x) _ Hw)]; [|done|].
  2: { intros x Hx. split; [done|]. split; [exact Hx|]. by apply (table_schema events). }
  intros u w1 Hw1.
  assert (Forall (λ f, stateless f ev) (map snd export_columns)) as Hs.
  { rewrite Forall_map. apply stateless_columns. }
  rewrite <- (length_table events).
  eapply cwp_mono; [| |apply (cwp_cells ev _ [] (table events) w1 Hs);
    [by rewrite length_table, length_map|exact Hw1]]; [|done].
  intros u2 w2 (Hl & x & Hx & Hc). split; [done|]. exists x. split; [exact Hx|].
  rewrite <- table_snoc. exact Hc.
Qed.

(** Reporting returns what it was given to return and leaves the exporter alone. *)
Lemma report_result {A} c o f (a : A) ex P (w : W) :
  holds P w → wp (report_exception c o f a ex) (λ r w', r = a ∧ holds P w') (λ _, False) w.
Proof.
  intros (Hl & x & Hx & HP).
  unfold report_exception, RecordExporterFailure, PschRecordExportFailure.
  destruct w as [s x0]; simpl in *; destruct ex; destruct (psch_shared_state s) as [st|] eqn:Hst;
    repeat (unfold wp, mbind, M_bind, LogExporterWarning, on_wsys, ereport_warning, modify, shared_is_null, gets,
      wr, deref, LWLockAcquire, LWLockRelease, mret, M_ret; simpl; rewrite ?Hst, ?Hl);
    (split; [done|]; split; [done|by exists x]).
Qed.

Lemma cleared x : schema_ok x → laid_out [] (map fst export_columns) (begin_batch x).
Proof. intros Hx. exists (columns_ (begin_batch x)). split; [done|]. exact Hx. Qed.

Lemma cwp_table events w :
  holds schema_ok w →
  cwp (ExportEventStatsInternal events) (λ _ w', holds (λ x, columns_ x = table events) w') aborted w.
Proof.
  intros Hw. unfold ExportEventStatsInternal. apply cwp_bind.
  eapply cwp_mono; [| |apply (cwp_call_ch _ _ (λ _, laid_out [] (map fst export_columns)) _ Hw)]; [|done|].
  2: { intros x Hx. by apply cleared. }
  intros u w1 Hw1. apply cwp_bind.
  eapply cwp_mono; [| |apply (cwp_make_columns [] export_columns w1); [|done|exact Hw1]]; [|done|].
  - intros hs w2 [-> (Hl & x & Hx & tl & Hc & Htl)]. apply prefix_nil_inv in Htl as ->.
    assert (columns_ x = table []) as Hnil by (rewrite table_nil, Hc; apply app_nil_r).
    apply (cwp_for_each _ (λ past w', holds (λ x, columns_ x = table past) w')) with (past := []);
      [|split; [done|by exists x]].
    intros past ev w3 Hw3. by apply cwp_rows.
  - rewrite app_nil_l, map_map. apply names_distinct.
Qed.

End table.

(** ** What the exporter holds *)

(** What the exporter relies on: the allocator returns fresh chunks; the functions on a
    builder free and resize only chunks that are there; a new builder has no column, and
    a call that appends one adds it at the end or reports an error. [builder_in b S] says
    that the chunks of builder [b] are among [S]. *)
Class ChcLibLaws {CL : ChcLib} := {
  allocator_laws : palloc_laws;
  builder_in : Builder → gset Z → Prop;
  adds c b (r : Builder * option string) (S : gset Z) := builder_in r.1 S ∧ (r.2 = None → block r.1 = block b ++ [c]);
  init_laws x : confined (chc_block_builder_init x) ∅ (λ r S, ∀ b, r = inl b → builder_in b S ∧ block b = []);
  append_fixed_laws c b S : builder_in b S → confined (chc_block_builder_append_fixed c b) S (adds c b);
  append_string_laws c b S : builder_in b S → confined (chc_block_builder_append_string c b) S (adds c b);
  destroy_laws b S : builder_in b S → confined (chc_block_builder_destroy b) S (λ _ _, True) }.
#[global] Arguments ChcLibLaws : clear implicits.

(** ** What is said to the server *)

(** The packets passed over while one is awaited. *)
Definition passed (is_target : Packet → bool) (p : Packet) : Prop :=
  match p with RecvError _ | CHC_PKT_EXCEPTION _ => False | _ => is_target p = false end.

(** The calls made, without their outcome. *)
Definition calls_made (ts : list Turn) : list (string + option Builder) :=
  omap (λ t, match t with SendQuery q _ => Some (inl q) | SendData b _ => Some (inr b) | RecvPacket _ => None end) ts.

Definition insert_calls (cols : list Column) (b : Builder) : list (string + option Builder) :=
  [inl (insert_query (map col_name cols)); inr (Some b); inr None].

(** The exchange of an insert that was acknowledged: the query, its answer, one block with
    these columns, the end of the data and the end of the answer, each in its turn. *)
Definition acknowledged (cols : list Column) (b : Builder) (ts : list Turn) : Prop :=
  ∃ ps qs, Forall (passed is_data) ps ∧ Forall (passed is_end) qs ∧
    ts = SendQuery (insert_query (map col_name cols)) true :: map RecvPacket (ps ++ [CHC_PKT_DATA]) ++
         SendData (Some b) true :: SendData None true :: map RecvPacket (qs ++ [CHC_PKT_END_OF_STREAM]).

(** What a commit says: at most one query and one block, which has these columns, and
    all of it with the answers when the commit succeeds. *)
Definition conversation (cols : list Column) (ok : bool) (ts : list Turn) : Prop :=
  if ok then ∃ b, block b = cols ∧ acknowledged cols b ts
  else calls_made ts = [] ∨ ∃ b, block b = cols ∧ calls_made ts `prefix_of` insert_calls cols b.

Lemma conversation_nil cols : conversation cols false [].
Proof. by left. Qed.

Lemma calls_received ps : calls_made (map RecvPacket ps) = [].
Proof. unfold calls_made. induction ps as [|p ps IH]; simpl; [done|exact IH]. Qed.

Lemma calls_app ts ts' : calls_made (ts ++ ts') = calls_made ts ++ calls_made ts'.
Proof. apply omap_app. Qed.

Lemma recv_turns {CL : ChcLib} n is_target x :
  ∃ ps, turns (RecvUntil n is_target x).2 = turns x ++ map RecvPacket ps ∧
    ((RecvUntil n is_target x).1 = None → ∃ qs p, ps = qs ++ [p] ∧ Forall (passed is_target) qs ∧ is_target p = true).
Proof.
  revert x. induction n as [|n IH]; intros x; simpl; [by exists []; rewrite app_nil_r|].
  destruct (inbox x) as [|p rest]; [by exists []; rewrite app_nil_r|].
  set (x1 := x <| inbox := rest |> <| turns ::= _ |>).
  assert (is_target p = false → passed is_target p → ∃ ps, turns (RecvUntil n is_target x1).2 = turns x ++ map RecvPacket ps ∧
    ((RecvUntil n is_target x1).1 = None → ∃ qs p, ps = qs ++ [p] ∧ Forall (passed is_target) qs ∧ is_target p = true)) as Hgo.
  { intros Hp Hpass. destruct (IH x1) as (ps & Ht & Hn). exists (p :: ps). split; [by rewrite Ht; simpl; rewrite <- app_assoc|].
    intros (qs & q & -> & Hqs & Hq)%Hn. exists (p :: qs), q. by split_and!; [|constructor|]. }
  destruct p; try (eexists [_]; split; [reflexivity|done]);
    (destruct (is_target _) eqn:Hp; [|by apply Hgo]); eexists [_]; (split; [reflexivity|]); intros _; by eexists [], _.
Qed.

Lemma data_target p : is_data p = true → p = CHC_PKT_DATA.
Proof. by destruct p. Qed.
Lemma end_target p : is_end p = true → p = CHC_PKT_END_OF_STREAM.
Proof. by destruct p. Qed.

(** The exchange of an insert, as far as it comes. *)
Lemma send_turns {CL : ChcLib} b x :
  ∃ ts, turns (SendInsert (Some b) x).2 = turns x ++ ts ∧
    match (SendInsert (Some b) x).1 with
    | None => acknowledged (columns_ x) b ts
    | Some _ => calls_made ts `prefix_of` insert_calls (columns_ x) b
    end.
Proof.
  unfold SendInsert, sent. cbv zeta.
  assert (turns (SetReadDeadline x) = turns x ∧ columns_ (SetReadDeadline x) = columns_ x) as [<- <-] by done.
  generalize (SetReadDeadline x). clear x. intros x. unfold BuildInsertQuery. set (q := insert_query _).
  set (r1 := chc_client_send_query _ _). destruct r1.1; cbn [fst snd].
  { exists [SendQuery q false]. split; [done|]. by exists [inr (Some b); inr None]. }
  set (x1 := x <| inbox ::= _ |> <| turns ::= _ |>). destruct (recv_turns kMaxRecvPackets is_data x1) as (ps & Ht & Hps).
  pose proof (f_equal fst (recv_rows kMaxRecvPackets is_data x1)) as Hc.
  destruct (RecvUntil _ is_data x1) as [[e|] x2]; cbn [fst snd] in Ht, Hps, Hc; cbn [fst snd].
  { exists (SendQuery q true :: map RecvPacket ps). rewrite Ht. simpl. rewrite <- app_assoc. split; [done|].
    change (calls_made (_ :: ?l)) with (inl q :: calls_made l). rewrite calls_received. by exists [inr (Some b); inr None]. }
  destruct (Hps eq_refl) as (ps' & p & -> & Hps' & ->%data_target).
  set (r2 := chc_client_send_data _ x2). destruct r2.1; cbn [fst snd].
  { exists (SendQuery q true :: map RecvPacket (ps' ++ [CHC_PKT_DATA]) ++ [SendData (Some b) false]).
    simpl. rewrite Ht. simpl. rewrite <- !app_assoc. split; [done|].
    change (calls_made (_ :: ?l)) with (inl q :: calls_made l). rewrite calls_app, calls_received. by exists [inr None]. }
  set (x3 := x2 <| inbox ::= _ |> <| turns ::= _ |>). set (r3 := chc_client_send_data None x3). destruct r3.1; cbn [fst snd].
  { exists (SendQuery q true :: map RecvPacket (ps' ++ [CHC_PKT_DATA]) ++ [SendData (Some b) true; SendData None false]).
    simpl. rewrite Ht. simpl. rewrite <- !app_assoc. split; [done|].
    change (calls_made (_ :: ?l)) with (inl q :: calls_made l). rewrite calls_app, calls_received. by exists []. }
  set (x4 := SetReadDeadline _). destruct (recv_turns kMaxRecvPackets is_end x4) as (qs & Ht4 & Hqs).
  exists (SendQuery q true :: map RecvPacket (ps' ++ [CHC_PKT_DATA]) ++ SendData (Some b) true :: SendData None true :: map RecvPacket qs).
  split. { rewrite Ht4. simpl. rewrite Ht. simpl. by rewrite <- !app_assoc. }
  destruct (RecvUntil _ is_end x4).1 eqn:He.
  2: { destruct (Hqs eq_refl) as (qs' & p & -> & Hqs' & ->%end_target). by exists ps', qs'. }
  - change (calls_made (_ :: ?l)) with (inl q :: calls_made l). rewrite calls_app, calls_received.
    change (calls_made (_ :: _ :: ?l)) with (inr (Some b) :: inr None :: calls_made l). by rewrite calls_received.
Qed.

Section resources.
Context {CL : ChcLib} {LL : ChcLibLaws CL} (files : gset Z).

Definition sound (x : CH) : Prop := owned files (conn x).

Lemma on_conn_sound {A} (m : Net A) (Q : A → Conn → Prop) x :
  nwp m (λ a c, owned files c ∧ Q a c) (conn x) → sound (on_conn m x).2 ∧ Q (on_conn m x).1 (conn (on_conn m x).2).
Proof. unfold nwp, on_conn, sound. by destruct (m (conn x)). Qed.

Lemma close_sound x : sound x → sound (CloseConnection x) ∧ chunks (conn (CloseConnection x)) = chunks (conn x).
Proof.
  intros Hx. unfold CloseConnection. apply (on_conn_sound _ (λ _ c, chunks c = chunks (conn x)) x).
  eapply nwp_mono; [by apply close_connection|]. intros u c' (H & _ & _ & _ & Hk). by split.
Qed.

Lemma establish_sound x :
  sound x → sound (establish x).2 ∧ (conn_cxt_ (conn x) = true → conn_cxt_ (conn (establish x).2) = true) ∧
            chunks (conn (establish x).2) = chunks (conn x).
Proof.
  intros Hx. unfold establish.
  destruct (on_conn_sound EstablishNewConnection (λ _ c, (conn_cxt_ (conn x) = true → conn_cxt_ c = true) ∧ chunks c = chunks (conn x)) x)
    as (H1 & H2 & H3).
  - eapply nwp_mono; [by apply establish_owned|]. intros ok c' (H & _ & _ & Hk & Hc). by split_and!.
  - by destruct (on_conn EstablishNewConnection x) as [ok x'].
Qed.

Lemma deadline_sound x : sound x → sound (SetReadDeadline x).
Proof. intros []. by constructor. Qed.

(** Between two calls: the batch has no memory and no builder. *)
Definition settled (x : CH) : Prop := sound x ∧ chunks (conn x) = ∅ ∧ bb_ x = None.

(** While a batch is committed: the memory is the builder's, and unless there was an error
    it has these columns. *)
Definition building (cols : list Column) (x : CH) : Prop :=
  sound x ∧ conn_cxt_ (conn x) = true ∧
  ∃ b, bb_ x = Some b ∧ builder_in b (dom (chunks (conn x))) ∧ (build_err_ x = None → block b = cols).

Lemma on_batch_sound {A} (m : LibProg A) Q x :
  sound x → conn_cxt_ (conn x) = true → confined m (dom (chunks (conn x))) Q →
  sound (on_batch m x).2 ∧ conn_cxt_ (conn (on_batch m x).2) = true ∧ bb_ (on_batch m x).2 = bb_ x ∧
  client_ (conn (on_batch m x).2) = client_ (conn x) ∧ Q (on_batch m x).1 (dom (chunks (conn (on_batch m x).2))).
Proof.
  intros Hx Hc Hm. unfold on_batch. pose proof (proj2 (ow_contexts _ _ Hx)) as Hb. rewrite Hc in Hb.
  pose proof (proj2 (ow_als _ _ Hx)) as Hal. rewrite <- Hb in Hal. rewrite Hal. cbv zeta beta iota. rewrite Hal. cbn [default].
  pose proof (run_lib_owned files m Q (conn x) allocator_laws Hx (eq_sym Hb) Hm) as H. unfold nwp in H.
  unfold on_conn. destruct (run_lib _ m (conn x)) as [a c]. simpl in *. destruct H as (H1 & H2 & H3).
  split_and!; [done|by rewrite H3|done|by rewrite H3|done].
Qed.

Lemma on_builder_building m cols c x :
  (∀ b S, builder_in b S → confined (m b) S (adds c b)) → building cols x → build_err_ x = None →
  building (cols ++ [c]) (on_builder m x).
Proof.
  intros Hm (Hx & Hc & b & Hb & Hin & Hbl) He. unfold on_builder. rewrite Hb.
  destruct (on_batch_sound (m b) _ x Hx Hc (Hm _ _ Hin)) as (H1 & H2 & _ & _ & H3 & H4).
  destruct (on_batch (m b) x) as [[b' err] x']. simpl in *. split_and!; [done|done|exists b'].
  split_and!; [done|done|]. simpl. intros Hn. by rewrite H4, Hbl.
Qed.

Lemma resolve_building cols name x : building cols x → building cols (on_conn (ResolveType name) x).2.
Proof.
  intros (Hx & Hc & b & Hb & Hin & Hbl).
  destruct (on_conn_sound (ResolveType name) (λ _ c', conn_cxt_ c' = true ∧ chunks c' = chunks (conn x)) x)
    as (H1 & H2 & H3).
  - eapply nwp_mono; [by apply resolve_type_owned|]. intros err c' (? & ? & _ & _ & ?). by split_and!.
  - split_and!; [done|done|]. exists b. rewrite H3. unfold on_conn. by destruct (ResolveType _ _).
Qed.

Lemma crunch_building cols c x : building cols x → building (cols ++ [c]) (Crunch c x).
Proof.
  intros Hb. unfold Crunch. destruct (build_err_ x) as [e|] eqn:He.
  { destruct Hb as (Hx & Hc & b & Hb & Hin & Hbl). split_and!; [done|done|]. exists b. split_and!; [done|done|by rewrite He]. }
  destruct (is_string c); [by apply on_builder_building; [apply append_string_laws|..]|].
  pose proof (resolve_building cols (col_type c) x Hb) as Hr.
  assert (build_err_ (on_conn (ResolveType (col_type c)) x).2 = None) as He'.
  { unfold on_conn. by destruct (ResolveType _ _). }
  destruct (on_conn _ x) as [[e|] x']; simpl in *.
  - destruct Hr as (Hx & Hc & b & Hbb & Hin & _). split_and!; [done|done|]. by exists b.
  - by apply on_builder_building; [apply append_fixed_laws|..].
Qed.

Lemma crunch_each_building cs past x : building past x → building (past ++ cs) (foldl (λ x c, Crunch c x) x cs).
Proof.
  revert past x. induction cs as [|c cs IH]; intros past x Hx; simpl; [by rewrite app_nil_r|].
  replace (past ++ c :: cs) with ((past ++ [c]) ++ cs) by by rewrite <- app_assoc. by apply IH, crunch_building.
Qed.

Lemma crunch_all_building x : building [] (x <| build_err_ := None |>) → building (columns_ x) (crunch_all x).
Proof. apply crunch_each_building. Qed.

(** What receiving and sending leave alone. *)
Definition same_memory (x x' : CH) : Prop :=
  conn x' = (conn x) <| read_deadline := read_deadline (conn x') |> <| os_calls := os_calls (conn x') |> ∧ bb_ x' = bb_ x ∧
  build_err_ x' = build_err_ x.

Lemma same_memory_building cols x x' : same_memory x x' → building cols x → building cols x'.
Proof.
  intros (Hc & Hb & He) (Hx & Hr & b & Hbb & Hin & Hbl). unfold building, sound. rewrite Hc, Hb, He. split_and!; [|done|by exists b].
  destruct Hx. by constructor.
Qed.

Lemma same_memory_eq x x' : conn x' = conn x → bb_ x' = bb_ x → build_err_ x' = build_err_ x → same_memory x x'.
Proof. intros H1 H2 H3. split_and!; [rewrite H1; by destruct (conn x)|done..]. Qed.
Lemma same_memory_trans x y z : same_memory x y → same_memory y z → same_memory x z.
Proof. intros (H1 & B1 & E1) (H2 & B2 & E2). split_and!; [rewrite H2, H1; by destruct (conn x)|congruence..]. Qed.
Lemma same_deadline x : same_memory x (SetReadDeadline x).
Proof. split_and!; [unfold SetReadDeadline; simpl; by destruct (conn x)|done..]. Qed.

Lemma same_recv n t x : same_memory x (RecvUntil n t x).2.
Proof.
  revert x. induction n as [|n IH]; intros x; simpl; [by apply same_memory_eq|].
  destruct (inbox x) as [|pkt rest]; [by apply same_memory_eq|].
  assert (same_memory x (x <| inbox := rest |> <| turns ::= λ l, l ++ [RecvPacket pkt] |>)) as H by by apply same_memory_eq.
  destruct pkt; try done; destruct (t _); try done; by eapply same_memory_trans.
Qed.

Lemma same_send bb x : same_memory x (SendInsert bb x).2.
Proof.
  unfold SendInsert, sent. cbv zeta. eapply same_memory_trans; [apply same_deadline|]. generalize (SetReadDeadline x). clear x. intros x.
  set (r1 := chc_client_send_query _ _). destruct r1.1; [by apply same_memory_eq|].
  set (x1 := x <| inbox ::= _ |> <| turns ::= _ |>). pose proof (same_memory_trans x x1 _ (same_memory_eq x x1 eq_refl eq_refl eq_refl)
    (same_recv kMaxRecvPackets is_data x1)) as H1.
  destruct (RecvUntil _ is_data x1) as [[e|] x2]; [done|]. eapply same_memory_trans; [exact H1|].
  set (r2 := chc_client_send_data _ x2). destruct r2.1; [by apply same_memory_eq|].
  set (x3 := x2 <| inbox ::= _ |> <| turns ::= _ |>). set (r3 := chc_client_send_data None x3). destruct r3.1; [by apply same_memory_eq|].
  eapply same_memory_trans, same_recv. eapply same_memory_trans, same_deadline. by apply same_memory_eq.
Qed.

(** However the commit goes, the destructors leave no memory. *)
Lemma end_settled cols x : building cols x → settled (end_batch x).
Proof.
  intros (Hx & Hc & b & Hb & Hin & _). unfold end_batch. rewrite Hb. cbv zeta. set (y := x <| bb_ := None |>).
  destruct (on_batch_sound (chc_block_builder_destroy b) (λ _ _, True) y Hx Hc (destroy_laws _ _ Hin))
    as (H1 & _ & H2 & _).
  set (x1 := (on_batch _ _).2) in *. unfold ResetBatchContext.
  destruct (on_conn_sound ChcConnection.ResetBatchContext (λ _ c, chunks c = ∅) x1) as [H3 H4].
  - eapply nwp_mono; [by apply reset_batch|]. intros u c' (? & ? & _). by split.
  - split_and!; [exact H3|exact H4|]. fold x1. unfold on_conn. destruct (ChcConnection.ResetBatchContext _). exact H2.
Qed.

Lemma leave_settled msg close cols x : building cols x → settled (leave (RecordFailure msg close x)).1.2.
Proof.
  intros (Hx & Hc & b & Hb & Hin & Hbl). unfold leave, RecordFailure. cbn [fst snd]. destruct close.
  - unfold CloseConnection. set (y := x <| consecutive_failures_ ::= Z.succ |>).
    destruct (on_conn_sound ChcConnection.CloseConnection (λ _ c, conn_cxt_ c = true ∧ chunks c = chunks (conn x)) y) as (H1 & H2 & H3).
    + eapply nwp_mono; [by apply (close_connection files (conn y))|]. intros u c' (? & _ & Hcc & _ & ?).
      split_and!; [done|by rewrite Hcc|done].
    + apply (end_settled cols). split_and!; [done|done|]. exists b. cbn. unfold on_conn in *.
      destruct (ChcConnection.CloseConnection (conn y)). cbn in *. by rewrite H3.
  - apply (end_settled cols). by split_and!; [..|exists b].
Qed.

Lemma settled_close msg x : settled x → settled (RecordFailure msg true x).1.2.
Proof.
  intros (Hx & Hk & Hb). set (y := x <| consecutive_failures_ ::= Z.succ |>). destruct (close_sound y Hx) as [H1 H2].
  split_and!; [exact H1|exact (eq_trans H2 Hk)|]. simpl. unfold on_conn. by destruct (ChcConnection.CloseConnection _).
Qed.

Lemma leave_turns msg close x : turns (leave (RecordFailure msg close x)).1.2 = turns x.
Proof. exact (f_equal snd (eq_trans (leave_in_batch _) (failure_in_batch msg close x))). Qed.

(** What a commit leaves: no memory, and the exchange with the server. *)
Definition committed (x : CH) (r : bool * CH * list string) : Prop :=
  settled r.1.2 ∧ ∃ ts, turns r.1.2 = turns x ++ ts ∧ conversation (columns_ x) r.1.1 ts.

Lemma not_committed x msg close cols y :
  building cols y → in_batch y = in_batch x → committed x (leave (RecordFailure msg close y)).
Proof.
  intros Hy Hi. split; [by eapply leave_settled|]. exists []. rewrite app_nil_r, leave_turns.
  split; [exact (f_equal snd Hi)|apply conversation_nil].
Qed.

(** The insert, and what follows it. *)
Lemma insert_committed x y b :
  building (columns_ x) y → bb_ y = Some b → block b = columns_ x → in_batch y = in_batch x →
  committed x (let '(err, z) := SendInsert (bb_ y) y in
               match err with
               | Some msg => leave (RecordFailure msg true z)
               | None => leave (true, z <| consecutive_failures_ := 0 |>, [])
               end).
Proof.
  intros Hy Hb Hbl Hi. pose proof (f_equal snd Hi) as Ht. pose proof (f_equal (λ p, p.1.1) Hi) as Hc. simpl in Ht, Hc.
  pose proof (same_memory_building _ _ _ (same_send (bb_ y) y) Hy) as Hz. rewrite Hb in *.
  destruct (send_turns b y) as (ts & Hts & Hr). rewrite Hc in Hr.
  destruct (SendInsert (Some b) y) as [[e|] z]; cbn [fst snd] in *.
  - split; [by eapply leave_settled|]. exists ts. rewrite leave_turns, Hts, Ht. split; [done|]. right. by exists b.
  - split; [by eapply (end_settled (columns_ x))|]. exists ts. split; [|by exists b].
    rewrite <- Ht, <- Hts. exact (f_equal snd (end_in_batch (z <| consecutive_failures_ := 0 |>))).
Qed.

Lemma commit_is_committed x : settled x → committed x (commit x).
Proof.
  intros (Hx & Hk & Hb). unfold commit.
  assert (∀ msgs x', settled x' → turns x' = turns x → committed x (false, x', msgs)) as Hnone.
  { intros msgs x' H1 H2. split; [done|]. exists []. rewrite app_nil_r. split; [done|apply conversation_nil]. }
  destruct (MemoryContextsReady (conn x)) eqn:Hr; cbn [negb]; [|by apply Hnone].
  assert (conn_cxt_ (conn x) = true) as Hc0 by (unfold MemoryContextsReady in Hr; by apply andb_true_iff in Hr as []).
  pose proof (init_laws x) as Hi. rewrite <- (dom_empty_L (M := gmap Z) (A := Cxt * Z)), <- Hk in Hi.
  destruct (on_batch_sound _ _ x Hx Hc0 Hi) as (H0 & Hc1 & Hb1 & Hcl & Hin).
  pose proof (on_batch_in_batch (chc_block_builder_init x) x) as Hm0.
  destruct (on_batch _ x) as [[b|msg] x0]; cbn [fst snd] in *.
  2: { set (z := x0 <| consecutive_failures_ ::= Z.succ |>). change (in_batch z = in_batch x) in Hm0.
       apply Hnone; [|exact (f_equal snd (eq_trans (end_in_batch z) Hm0))].
       unfold end_batch. simpl. rewrite Hb1, Hb. unfold ResetBatchContext.
       destruct (on_conn_sound ChcConnection.ResetBatchContext (λ _ c, chunks c = ∅)
         (z <| bb_ := None |>)) as [H3 H4].
       - eapply nwp_mono; [by apply (reset_batch files)|]. intros u c' (? & ? & _). by split.
       - unfold settled. split_and!; [done|done|]. unfold on_conn. by destruct (ChcConnection.ResetBatchContext _). }
  set (y := x0 <| bb_ := Some b |>). destruct (Hin b eq_refl) as [Hin' Hbl]. change (in_batch y = in_batch x) in Hm0.
  assert (let r := if client_ (conn y) then (true, y) else establish y in
          sound r.2 ∧ bb_ r.2 = Some b ∧ chunks (conn r.2) = chunks (conn y) ∧ conn_cxt_ (conn r.2) = true ∧
          in_batch r.2 = in_batch x) as (H1 & Hb2 & Hk2 & Hc2 & Hm1).
  { destruct (client_ (conn y)); [by split_and!|]. destruct (establish_sound y H0) as (E1 & E2 & E3).
    split_and!; [done| |done|by apply E2|by rewrite establish_in_batch]. unfold establish, on_conn. by destruct (EstablishNewConnection _). }
  destruct (if client_ (conn y) then (true, y) else establish y) as [ok x1]. cbn [fst snd] in *.
  assert (∀ e, building [] (x1 <| build_err_ := e |>)) as Hb1'.
  { intros e. split_and!; [done|done|]. exists b. split_and!; [done|simpl; by rewrite Hk2|done]. }
  destruct (ok && client_ (conn x1)); cbn [negb].
  2: { apply (not_committed x _ _ []); [|done]. specialize (Hb1' (build_err_ x1)). by destruct x1. }
  pose proof (crunch_in_batch x1) as Hm2. pose proof (crunch_all_building x1 (Hb1' None)) as H2.
  rewrite Hm1 in Hm2. rewrite (f_equal (λ p, p.1.1) Hm1 : columns_ x1 = columns_ x) in H2.
  set (x2 := crunch_all x1) in *. destruct (build_err_ x2) eqn:He; [by eapply not_committed|].
  destruct (heap_ok x2); cbn [negb].
  2: { pose proof (end_in_batch x2) as Hm3. rewrite Hm2 in Hm3.
       apply Hnone; [by eapply (settled_close "out of memory"), end_settled|].
       exact (f_equal snd (eq_trans (failure_in_batch "out of memory" true _) Hm3)). }
  destruct H2 as (S1 & S2 & b2 & S3 & S4 & S5).
  apply (insert_committed x x2 b2); [|done|by apply S5|done]. split_and!; [done|done|by exists b2].
Qed.

(** A call through the exporter interface. *)
Inductive Call : Type :=
  | DoEstablish | DoBeginBatch | DoMakeColumn (k : ColKind) | DoBeginRow | DoAppend (i : nat) (v : Value)
  | DoCommitBatch | DoResetFailures | DoSendArrowBatch (data : bytes) (num_rows : Z).

Definition do_call (c : Call) (x : CH) : CH :=
  match c with
  | DoEstablish => (Exporter.EstablishNewConnection x).1.2
  | DoBeginBatch => (BeginBatch x).2
  | DoMakeColumn k => (MakeColumn k x).2
  | DoBeginRow => (BeginRow x).1.2
  | DoAppend i v => (Append i v x).2
  | DoCommitBatch => (CommitBatch x).1.2
  | DoResetFailures => ResetFailures x
  | DoSendArrowBatch data n => (SendArrowBatch data n x).1.2
  end.

Lemma call_settled c x : settled x → settled (do_call c x).
Proof.
  intros Hx. destruct c; simpl; try done.
  - destruct Hx as (Hx & Hk & Hb). destruct (establish_sound x Hx) as (H1 & _ & H2).
    assert (bb_ (establish x).2 = None) as H3 by (unfold establish, on_conn; by destruct (EstablishNewConnection _)).
    destruct (establish x) as [ok x']. simpl in *. split_and!; [done|congruence|done].
  - destruct (column_of k) as [[name class] type]. unfold MakeCol.
    destruct (list_find _ _) as [[j c]|]; [by case_bool_decide|by destruct (heap_ok x)].
  - unfold append. by destruct (heap_ok x).
  - pose proof (proj1 (commit_is_committed x Hx)) as H. by destruct (commit x) as [[ok x'] msgs].
Qed.

Lemma calls_settled cs x : settled x → settled (foldl (λ x c, do_call c x) x cs).
Proof. revert x. induction cs as [|c cs IH]; intros x Hx; simpl; [done|]. by apply IH, call_settled. Qed.

End resources.

(** ** Properties *)

(** A batch reaches ClickHouse as a table. The call never leaves by an error or
    an exception. When it succeeds there is exactly one column for each exported
    field, in order, and the value of every column at row [i] is that of the [i]-th
    event, whatever an earlier batch, complete or abandoned, left in the columns: no
    row mixes fields of two events and no earlier row is sent again. It fails only
    when the C++ heap is exhausted, and then the columns are still those of the
    schema, so that the next batch is a table again. *)
Theorem clickhouse_batch_is_table {E : Env} {CL : ChcLib} events (w : Worker CH) x
  (Hx : w_exporter w = Some x) (Hlk : lock_held (w_sys w) = false) (Hs : schema_ok x) :
  wp (ExportEventStats events)
    (λ ok w', ∃ x', w_exporter w' = Some x' ∧ schema_ok x' ∧
       if ok : bool then columns_ x' = table events else ∃ y, heap_ok y = false)
    (λ _, False) w.
Proof.
  unfold ExportEventStats. apply wp_try, cwp_bind.
  eapply cwp_mono; [| |apply cwp_table; split; [exact Hlk|by exists x]].
  - intros u w1 (_ & x1 & Hx1 & Hc). apply cwp_ret. exists x1. split; [done|]. split; [|done].
    by apply (table_schema events).
  - intros ex w1 Hw1. eapply wp_mono; [| |exact (report_result _ _ _ false ex _ _ Hw1)]; [|done].
    intros ok w2 [-> (_ & x2 & Hx2 & Hs2 & Hh)]. by exists x2.
Qed.

(** C15: The ClickHouse exporter never leaks and never frees twice. Whatever calls are
    made through the interface, in whatever order, and however the sockets, TLS, the
    client library, the server and the allocators behave, the process holds at every
    point between calls exactly what the exporter's pointers reach (one socket, one
    TLS context and session, one client, two memory contexts and the types parsed in
    the present life of the connection's), there is no block builder and the batch's
    context is empty; after the destructor it holds none of them, its other files are
    open as before, nothing was freed or closed that was not there, and no PostgreSQL
    error left a callback of the client library. *)
Theorem clickhouse_never_leaks {CL : ChcLib} {LL : ChcLibLaws CL} files calls :
  let x := foldl (λ x c, do_call c x) (MakeClickHouseExporter files) calls in
  owned files (conn x) ∧ chunks (conn x) = ∅ ∧ bb_ x = None ∧ nothing_left files (Destroy (conn x)).2.
Proof.
  cbv zeta. destruct (calls_settled files calls (MakeClickHouseExporter files)) as (H & Hk & Hb).
  { split_and!; [apply owned_nothing|done|done]. }
  split_and!; [exact H|exact Hk|exact Hb|exact (destroy_releases files _ H)].
Qed.

End ClickHouseThms.
