(* ===== verification/WorkerThms.v ===== *)
(** The properties of the exporter and of the background worker, with the
    ClickHouse back end as the concrete exporter. *)

From Stdlib Require Import QArith.
From S2P Require Import Prelude Event StringUtils Shared Dsa Intern Ring LocalBatch InternInv RingInv RingSpec QueueSpec QueueThms Exporter ChcConnection ClickHouse Bgworker ExporterThms ChcConnectionThms ClickHouseThms.
Import Event StringUtils Shared Dsa Ring RingInv RingSpec QueueSpec QueueThms Exporter ChcConnection ClickHouse Bgworker ExporterThms
  ChcConnectionThms ClickHouseThms.
#[local] Open Scope Z_scope.

Module WorkerThms.

(** ** A concrete worker *)

(** An address behind all chunks. *)
Definition fresh_chunk (m : Chunks) : Z := 1 + foldr Z.max 0 (elements (dom m)).

Lemma fresh_chunk_spec m : fresh_chunk m ≠ 0 ∧ m !! fresh_chunk m = None.
Proof.
  unfold fresh_chunk. assert (∀ (l : list Z) z, z ∈ l → z ≤ foldr Z.max 0 l) as Hle.
  { induction 1; simpl; lia. }
  assert (0 ≤ foldr Z.max 0 (elements (dom m))) by (induction (elements (dom m)); simpl; lia).
  split; [lia|]. apply not_elem_of_dom. rewrite <- elem_of_elements. intros Hz%Hle. lia.
Qed.

(** A server that answers every insert, or refuses it. *)
Definition demo_net (reachable : bool) : NetLib := {|
  psch_clickhouse_use_tls := true; psch_clickhouse_skip_tls_verify := false; clock_gettime n := (0, 1000 * Z.of_nat n);
  getaddrinfo := λ _, Some 2%nat; socket_ok := λ _, true; fcntl_getfl_ok := λ _, true; fcntl_setfl_ok := λ _, true;
  connect := λ _, if reachable then EINPROGRESS else ConnectFailed; polls := λ _, [EINTR; PollReady];
  getsockopt_SO_ERROR := λ _, Some 0; SSL_CTX_new := λ _, true; SSL_CTX_set_default_verify_paths := λ _, true;
  SSL_new := λ _, true; SSL_set_tlsext_host_name := λ _, true; SSL_set1_host := λ _, true; SSL_set_fd := λ _, true;
  SSL_connect := λ _, true; AllocSetContextCreate := λ _, true; chc_client_init := λ _, (true, true);
  chc_type_parse := λ _ _, None; MemoryContextAllocExtended := λ _ _ m _, Some (fresh_chunk m);
  repalloc_extended := λ p _ m _, Some (if size m =? 3 then p else fresh_chunk m)%nat |}.

(** A builder keeps a list of chunks; a column takes one more. *)
Definition demo_column (bytes : Z) (c : Column) (b : Builder) : LibProg (Builder * option string) :=
  LAlloc bytes (λ p, LDone (if p =? 0 then (b, Some "out of memory"%string)
                            else ({| block := block b ++ [c]; internals := internals b ++ [p] |}, None))).

Definition demo_lib (reachable accepts : bool) : ChcLib := {|
  chc_net := demo_net reachable;
  heap_ok := λ _, true;
  chc_block_builder_init := λ _, LAlloc 64 (λ p, LDone (if p =? 0 then inr "out of memory"%string else inl {| block := []; internals := [p] |}));
  chc_block_builder_append_fixed c b := demo_column 32 c b;
  chc_block_builder_append_string c b :=
    match internals b with
    | p :: rest => LRealloc p 128 (λ q, if q =? 0 then LDone (b, Some "out of memory"%string)
                                         else demo_column 32 c {| block := block b; internals := q :: rest |})
    | [] => demo_column 32 c b
    end;
  chc_block_builder_destroy b := foldr LFree (LDone tt) (internals b);
  chc_client_send_query := λ _ _, (None, [CHC_PKT_OTHER; CHC_PKT_DATA]);
  chc_client_send_data := λ b _,
    match b with
    | Some _ => (None, [])
    | None => (None, if accepts then [CHC_PKT_END_OF_STREAM] else [CHC_PKT_EXCEPTION "Code: 252. Too many parts"])
    end |}.

Definition demo_chunks_in (l : list Z) (S : gset Z) : Prop := NoDup l ∧ ∀ p, p ∈ l → p ≠ 0 ∧ p ∈ S.

Lemma demo_column_ok bytes c b S :
  bytes ≤ MaxAllocHugeSize → demo_chunks_in (internals b) S →
  confined (demo_column bytes c b) S (λ r S', demo_chunks_in (internals r.1) S' ∧ (r.2 = None → block r.1 = block b ++ [c])).
Proof.
  intros Hb [Hn Hin]. split_and!; [done|by split_and!|]. intros p Hp HpS. simpl.
  rewrite (proj2 (Z.eqb_neq _ _) Hp). split; [|done]. split.
  - apply NoDup_app. split_and!; [done| |apply NoDup_singleton]. intros q Hq ->%list_elem_of_singleton. by apply HpS, Hin.
  - intros q [Hq| ->%list_elem_of_singleton]%elem_of_app; [|set_solver]. destruct (Hin _ Hq). set_solver.
Qed.

#[global] Instance demo_lib_laws reachable accepts : ChcLibLaws (demo_lib reachable accepts).
Proof.
  refine {| builder_in b := demo_chunks_in (internals b) |}; simpl.
  - constructor; simpl.
    + intros _ _ m _ p [= <-]. apply fresh_chunk_spec.
    + intros old _ m _ p Hold [= <-]. destruct (_ =? _)%nat; [by auto|]. destruct (fresh_chunk_spec m). auto.
  - intros _. split_and!; [done|done|]. intros p Hp _. rewrite (proj2 (Z.eqb_neq _ _) Hp). simpl. intros b [= <-].
    split; [|done]. split; [apply NoDup_singleton|]. intros q ->%list_elem_of_singleton. set_solver.
  - intros c b S Hb. by apply demo_column_ok.
  - intros c b S. pose proof (demo_column_ok 32 c) as Hcol. destruct b as [cols [|p b]]; intros [Hn Hin]; [by apply Hcol|].
    simpl in *. apply NoDup_cons in Hn as [Hp Hn].
    split; [done|]. split; [right; apply Hin; left|]. split; [by split; [split; [by apply NoDup_cons|]|]|].
    intros q Hq0 HqS. rewrite (proj2 (Z.eqb_neq _ _) Hq0). apply (Hcol {| block := cols; internals := q :: b |}); [done|]. split.
    + apply NoDup_cons. split; [|done]. intros Hq. apply HqS, elem_of_difference. split; [apply Hin; by right|].
      intros ->%elem_of_singleton. done.
    + intros r [->|Hr]%elem_of_cons; [set_solver|]. destruct (Hin r) as [? ?]; [by right|]. split; [done|].
      apply elem_of_union_r, elem_of_difference. split; [done|]. intros ->%elem_of_singleton. done.
  - intros [cols b]. simpl. induction b as [|p b IH]; intros S [Hn Hin]; simpl; [done|]. apply NoDup_cons in Hn as [Hp Hn].
    split; [right; apply Hin; left|]. apply IH. split; [done|]. intros q Hq. destruct (Hin q) as [? ?]; [by right|].
    split; [done|]. apply elem_of_difference. split; [done|]. intros ->%elem_of_singleton. done.
Defined.

(** An exporter in a process with three files open. *)
Definition demo_ch : CH := MakeClickHouseExporter {[0; 1; 2]}.

(** An Arrow builder that counts rows. *)
#[global] Instance demo_arrow : ArrowBatchBuilder nat := {|
  ArrowInit := Ret (Some 0%nat);
  ArrowAppend _ b := (Ret true, S b);
  ArrowFinish b := (Ret (Some [], Z.of_nat b), b);
  ArrowReset _ := 0%nat;
  EstimatedBytes b := 1024 * Z.of_nat b;
  NumRows b := Z.of_nat b |}.

#[global] Instance demo_arrow_laws : ArrowLaws nat.
Proof.
  refine {| arrow_holds evs b := b = length evs; arrow_block _ _ := True;
            arrow_estimate evs := 1024 * Z.of_nat (length evs) |}; simpl; try done.
  - by intros b [= <-].
  - intros evs ev b b' -> [= <-]. rewrite length_app. simpl. lia.
  - by intros evs b ->.
  - by intros evs b data n b' -> [= _ <- _].
Defined.

Definition demo_settings : Settings := {| set_enabled := true; set_export := demo_export |}.

Definition demo_bgw (x : CH) (sigs : list (list Signal)) : Bgw CH := {|
  g_worker := demo_worker x; settings := demo_settings; config_file := demo_settings;
  handlers := λ _, None; ConfigReloadPending := false; ProcSignalBarrierPending := false;
  ProcDiePending := false; latch := false; incoming := sigs; on_exit := false;
  activity := NotReported; WaitEventExtensionNew := λ name, 117440512 + Z.of_nat (String.length name); psch_wait_event_main := 0;
  wait_event_info := 0; pid_self := 77 |}.

Lemma demo_bgw_ok x sigs : bgw_ok (demo_bgw x sigs).
Proof. constructor; [apply demo_worker_ok|done|done]. Qed.

(** ** Properties *)

Lemma clickhouse_batch_is_table_witness :
  ∃ w' x', ExportEventStats (E := demo1) (SE := ClickHouse_exporter (CL := demo_lib true true)) [demo_ev1; demo_ev1]
             (demo_worker demo_ch) = (Some true, w') ∧
    w_exporter w' = Some x' ∧ columns_ x' = table [demo_ev1; demo_ev1].
Proof.
  destruct (wp_run_spec _ _ _ _ (clickhouse_batch_is_table (E := demo1) (CL := demo_lib true true)
    [demo_ev1; demo_ev1] (demo_worker demo_ch) demo_ch eq_refl eq_refl
    (prefix_nil _))) as (r & w' & Heq & H).
  destruct r as [[|]|]; [|destruct H as (x' & _ & _ & y & Hy); discriminate Hy|destruct H].
  destruct H as (x' & Hx' & _ & Hc). exists w', x'. split; [exact Heq|]. split; [exact Hx'|exact Hc].
Defined.

(** C10: The accounting of one export call, for any back end that reports no more
    rows than were begun in the batch, on the row path and on the Arrow path. The
    call never leaves by an error or an exception; it takes no event or as many as
    the batch may hold and the queue has; the number it returns is at most that;
    and the exported counter grows by exactly that number or not at all. *)
Theorem export_batch_accounts {E : Env} {X : Type} {SE : StatsExporter X} {XL : StatsExporterLaws X}
  {B : Type} {AB : ArrowBatchBuilder B} {AL : ArrowLaws B} {EE : ExportEnv} stack (w : Worker X)
  (Hw : worker_ok w) (Hb : text_buffers stack) :
  wp (PschExportBatch stack) (batch_done w) (λ _, False) w.
Proof. by apply wp_export_batch. Qed.

Lemma export_batch_accounts_witness :
  ∃ r w', PschExportBatch (E := demo1) (SE := ClickHouse_exporter (CL := demo_lib true true))
            (EE := demo_export) zero_event (demo_worker demo_ch) = (Some r, w') ∧
    batch_done (EE := demo_export) (demo_worker demo_ch) r w'.
Proof.
  destruct (wp_run_spec _ _ _ _ (export_batch_accounts (E := demo1)
    (SE := ClickHouse_exporter (CL := demo_lib true true)) (XL := ClickHouse_laws (CL := demo_lib true true))
    (EE := demo_export) zero_event (demo_worker demo_ch)
    (demo_worker_ok demo_ch) zero_event_text)) as (r & w' & Heq & H).
  destruct r as [r|]; [|destruct H]. exists r, w'. split; [exact Heq|exact H].
Defined.



(** The intended back-off: doubling from one second, up to a minute. *)
Definition backoff (failures : Z) : Z :=
  if failures <=? 0 then 0 else Z.min kMaxDelayMs (kBaseDelayMs * 2 ^ (failures - 1)).

Lemma backoff_big f : 7 ≤ f → backoff f = kMaxDelayMs.
Proof.
  intros Hf. unfold backoff, kMaxDelayMs, kBaseDelayMs. rewrite (proj2 (Z.leb_gt _ _)) by lia.
  assert (2 ^ 6 ≤ 2 ^ (f - 1)) by (apply Z.pow_le_mono_r; lia). lia.
Qed.

Lemma retry_delay_backoff f : retry_delay f = backoff f.
Proof.
  destruct (Z.leb_spec f 0) as [Hf|Hf].
  { unfold retry_delay, backoff. by rewrite (proj2 (Z.leb_le _ _) Hf). }
  destruct (Z.leb_spec 7 f) as [H7|H7].
  - rewrite backoff_big by done. unfold retry_delay, kMaxConsecutiveFailures.
    rewrite (proj2 (Z.leb_gt f 0)) by lia. destruct (Z.ltb_spec 10 f); [reflexivity|].
    assert (f = 7 ∨ f = 8 ∨ f = 9 ∨ f = 10) as [->|[->|[->| ->]]] by lia; reflexivity.
  - assert (f = 1 ∨ f = 2 ∨ f = 3 ∨ f = 4 ∨ f = 5 ∨ f = 6) as [->|[->|[->|[->|[->| ->]]]]] by lia; reflexivity.
Qed.

(** The retry delay is the intended exponential back-off for every number of
    failures: nothing without failures, one second doubled with each further
    failure, never more than a minute; the cap on the shift keeps the [int]
    computation from overflowing, and more failures never give a shorter delay. *)
Theorem retry_delay_is_backoff f :
  retry_delay f = backoff f ∧ 0 ≤ retry_delay f ≤ kMaxDelayMs ∧ retry_delay f ≤ retry_delay (f + 1).
Proof.
  rewrite !retry_delay_backoff. split; [done|]. unfold backoff, kMaxDelayMs, kBaseDelayMs.
  destruct (Z.leb_spec f 0), (Z.leb_spec (f + 1) 0); try lia;
    pose proof (Z.pow_pos_nonneg 2 (f + 1 - 1)); try lia.
  pose proof (Z.pow_pos_nonneg 2 (f - 1)).
  assert (2 ^ (f - 1) ≤ 2 ^ (f + 1 - 1)) by (apply Z.pow_le_mono_r; lia). lia.
Qed.

(** ** A server that cannot be reached, and one that refuses *)

(** A turn of the worker that only tries to export, [n] times. *)
Fixpoint attempts {E : Env} {CL : ChcLib} {EE : ExportEnv} (n : nat) (stack : PschEvent) : M (Worker CH) unit :=
  match n with
  | O => mret tt
  | S n => _ ← PschExportBatch (SE := ClickHouse_exporter (CL := CL)) stack; attempts n stack
  end.

(** Not connected, and no failure counted. *)
Definition idle (w : Worker CH) : Prop :=
  worker_ok w ∧ ∃ x, w_exporter w = Some x ∧ client_ (conn x) = false ∧ consecutive_failures_ x = 0 ∧
                     ∃ files, owned files (conn x).

Lemma wp_unreachable {E : Env} {CL : ChcLib} {EE : ExportEnv} stack w :
  (∀ n, connect n = ConnectFailed) → idle w →
  wp (PschExportBatch (SE := ClickHouse_exporter (CL := CL)) stack) (λ r w', r = 0 ∧ idle w') (λ _, False) w.
Proof.
  intros Hnet (Hw & x & Hx & Hc & Hf & files & Hown). unfold PschExportBatch. apply wp_try, cwp_bind.
  unfold cwp at 1, query_exporter, call. rewrite Hx. simpl. rewrite Hc.
  apply cwp_bind. unfold cwp at 1, call_reporting. simpl. unfold establish, on_conn.
  pose proof (establish_owned files (conn x) Hown) as Hok. pose proof (establish_unreachable (conn x) Hnet) as Hno.
  unfold nwp in Hok, Hno. destruct (EstablishNewConnection (conn x)) as [ok c]. simpl in Hok, Hno. subst ok.
  destruct Hok as (Hown' & (_ & Hc' & _) & _).
  simpl. set (x' := x <| conn := c |> <| inbox := [] |>). set (w1 := Build_Worker (w_sys w) (Some x')).
  assert (at_work 0 0 (λ e, e = x') w w1) as Hw1 by (constructor; [apply Hw|by exists x']).
  apply cwp_bind, cwp_lift. eapply wp_mono; [| |apply (wp_wsys0 _ _ _ _ _ _ (steady_failure _) Hw1)]; [|done].
  intros u w2 Hw2. apply cwp_ret. split; [done|]. split; [exact (at_work_ok _ _ _ _ _ Hw2)|].
  destruct (aw_exp _ _ _ _ _ Hw2) as (e & He & ->). exists x'. split_and!; [done|done|done|by exists files].
Qed.

Lemma wp_attempts {E : Env} {CL : ChcLib} {EE : ExportEnv} n stack w :
  (∀ n, connect n = ConnectFailed) → idle w → wp (attempts n stack) (λ _ w', idle w') (λ _, False) w.
Proof.
  intros Hnet. revert w. induction n as [|n IH]; intros w Hw; simpl; [by wp_step|]. wp_step.
  eapply wp_mono; [| |exact (wp_unreachable stack w Hnet Hw)]; [|done]. intros r w' [_ Hw']. by apply IH.
Qed.

(** One row is sent, twice. *)
Definition demo_calls : list Call :=
  [DoEstablish; DoBeginBatch; DoMakeColumn DbNameColumn; DoMakeColumn DbDurationColumn; DoBeginRow; DoAppend 0 (VStr []);
   DoAppend 1 (VInt 7); DoCommitBatch; DoCommitBatch].

Lemma clickhouse_never_leaks_witness :
  let x := foldl (λ x c, do_call (CL := demo_lib true true) c x) (MakeClickHouseExporter {[0; 1; 2]}) demo_calls in
  (client_ (conn x) = true ∧ length (columns_ x) = 2%nat ∧ consecutive_failures_ x = 0 ∧
   size (dom (chunks (conn (crunch_all (CL := demo_lib true true)
     (x <| bb_ := Some {| block := []; internals := [5] |} |> <| conn ::= λ c, c <| chunks := {[5 := (BatchCxt, 64)]} |> |>))))) = 3%nat) ∧
  chunks (conn x) = ∅ ∧ nothing_left {[0; 1; 2]} (Destroy (conn x)).2.
Proof.
  cbv zeta. split; [by vm_compute|].
  destruct (clickhouse_never_leaks (CL := demo_lib true true) {[0; 1; 2]} demo_calls) as (_ & H1 & _ & H2). by split.
Defined.

Lemma connect_bounded_witness :
  ∃ c', ConnectWithTimeout (NL := demo_net true) 3 30 (no_connection ∅) = (true, c') ∧ nonblocking c' = ∅.
Proof.
  pose proof (connect_bounded (NL := demo_net true) 3 30 (no_connection ∅) ltac:(lia) ltac:(apply not_elem_of_empty)) as H.
  destruct (ConnectWithTimeout (NL := demo_net true) 3 30 (no_connection ∅)) as [ok c'] eqn:Heq.
  assert (ok = true) as -> by (change ok with (ok, c').1; rewrite <- Heq; vm_compute; reflexivity).
  exists c'. split; [reflexivity|]. apply H. left. reflexivity.
Defined.

(** C39: When the ClickHouse server cannot be reached, no number of failed export
    calls makes the worker back off: each call records a failure, but none of them
    counts as a consecutive failure of the exporter, so the next sleep is still the
    plain flush interval. *)
Theorem unreachable_server_no_backoff {E : Env} {CL : ChcLib} n stack (b : Bgw CH)
  (Hnet : ∀ n, connect n = ConnectFailed) (Hidle : idle (g_worker b)) :
  wp (_ ← on_worker (attempts (EE := set_export (settings b)) n stack); CalculateSleepMs)
    (λ ms _, ms = psch_flush_interval_ms (ExportEnv := set_export (settings b))) (λ _, False) b.
Proof.
  wp_step. pose proof (wp_attempts (EE := set_export (settings b)) n stack _ Hnet Hidle) as H.
  unfold wp, on_worker in *. destruct (attempts n stack (g_worker b)) as [[u|] w']; [|done].
  destruct H as (_ & x & Hx & _ & Hf & _). unfold CalculateSleepMs, mbind, M_bind, gets, on_worker,
    PschGetConsecutiveFailures. simpl. unfold gets. rewrite Hx. simpl. by rewrite Hf.
Qed.

Lemma unreachable_server_no_backoff_witness :
  ∃ ms b', (_ ← on_worker (attempts (E := demo1) (CL := demo_lib false true) (EE := demo_export) 20 zero_event);
            CalculateSleepMs (SE := ClickHouse_exporter (CL := demo_lib false true)))
             (demo_bgw demo_ch []) = (Some ms, b') ∧ ms = 500.
Proof.
  destruct (wp_run_spec _ _ _ _ (unreachable_server_no_backoff (E := demo1) (CL := demo_lib false true) 20
    zero_event (demo_bgw demo_ch []) (λ _, eq_refl)
    (conj (demo_worker_ok demo_ch)
      (ex_intro _ demo_ch (conj eq_refl (conj eq_refl (conj eq_refl (ex_intro _ _ (owned_nothing _))))))))) as (r & b' & Heq & H).
  destruct r as [ms|]; [|destruct H]. exists ms, b'. split; [exact Heq|exact H].
Defined.

(** A batch the server refuses is lost: both events are off the queue and the
    exported counter is still 0, and since the call returns 2 all the same the drain
    loop takes the next batch. *)
Theorem refused_batch_is_lost :
  let '(r, w') := PschExportBatch (E := demo1) (SE := ClickHouse_exporter (CL := demo_lib true false))
                    (EE := demo_export) zero_event (demo_worker demo_ch) in
  r = Some 2 ∧ length (abs demo_full) = 3%nat ∧ length (abs (w_sys w')) = 1%nat ∧
  (exported <$> psch_shared_state (w_sys w')) = Some 0 ∧
  (consecutive_failures_ <$> w_exporter w') = Some 1.
Proof. vm_compute. repeat split. Qed.

(** ** Flush requests *)


Definition demo_pid_sys (p : Z) : Sys :=
  demo_sys1 <| psch_shared_state ::= fmap (λ st, st <| bgworker_pid := p |>) |>.


(** ** Statistics *)

(** The row for a shared state with [size] events queued. *)
Definition stats_row (st : PschSharedState) (size : Z) : list (option Datum) :=
  let error := cstr (strlcpy (repeat 0 256) 256 (last_error_text st)).1 in
  [ Some (Int64Datum (i64 (enqueued st))); Some (Int64Datum (i64 (dropped st)));
    Some (Int64Datum (i64 (exported st))); Some (Int64Datum (i64 (send_failures st)));
    (if last_success_ts st =? 0 then None else Some (TimestampDatum (last_success_ts st)));
    (if bool_decide (error = []) then None else Some (TextDatum error));
    (if last_error_ts st =? 0 then None else Some (TimestampDatum (last_error_ts st)));
    Some (Int32Datum size); Some (Int32Datum (capacity st));
    Some (Float8Datum (usage_pct size (capacity st))); Some (Int64Datum (i64 (dsa_oom_count st))) ].

Lemma cstr_nil_head mem : mem ≠ [] → cstr mem = [] ↔ mem !!! 0%nat = 0.
Proof.
  destruct mem as [|c mem]; simpl; [done|]. intros _. destruct (Z.eqb_spec c 0) as [->|Hc]; [done|].
  split; [done|]. intros H. by destruct Hc.
Qed.

Lemma queue_size_abs s st m : ring_inv s st m → qsize st = Z.of_nat (length (abs s)).
Proof.
  intros Hinv. unfold abs. rewrite (inv_st _ _ _ Hinv), length_fmap, length_live.
  pose proof (qsize_nonneg st). lia.
Qed.

Lemma wp_stats_row s st m (Q : list (option Datum) → Sys → Prop) R :
  ring_inv s st m → lock_held s = false → capacity st < 2 ^ 31 →
  Q (stats_row st (Z.of_nat (length (abs s)))) (s <| lock_held := true |> <| lock_held := false |>) →
  wp pg_stat_ch_stats Q R s.
Proof.
  intros Hinv Hl Hcap HQ. pose proof (inv_st _ _ _ Hinv) as Hst. pose proof (queue_size_abs _ _ _ Hinv) as Hq.
  pose proof (inv_size _ _ _ Hinv) as Hs. pose proof (qsize_nonneg st) as Hq0.
  unfold pg_stat_ch_stats, PschGetStats, shared_is_null. wp_step. do 2 wp_step. rewrite Hst.
  repeat (wp_step; eapply wp_rd; [done|]). wp_step. apply wp_lock; [done|].
  repeat (wp_step; eapply wp_rd; [done|]). unfold LWLockRelease. wp_run.
  cbn [s_enqueued s_dropped s_exported s_send_failures s_last_success_ts s_last_error s_last_error_ts
       s_queue_size s_queue_capacity s_dsa_oom_count].
  fold (qsize st). rewrite Hq in *. revert HQ. unfold stats_row.
  assert (u32 (Z.of_nat (length (abs s))) = Z.of_nat (length (abs s))) as -> by (apply Z.mod_small; lia).
  assert (∀ z, 0 ≤ z < 2 ^ 31 → i32 z = z) as Hi32 by (intros z Hz; unfold i32, sint; rewrite Z.mod_small; lia).
  rewrite !Hi32 by lia. set (buf := (strlcpy _ _ _).1).
  assert (buf ≠ []) as Hbuf.
  { destruct (strlcpy_spec (repeat 0 256) 256 (last_error_text st)) as (Hc & _ & _ & _ & Hlen); [done|].
    unfold buf. rewrite Hc. intros Hnil. cbn [fst] in Hnil. rewrite Hnil in Hlen. done. }
  rewrite (bool_decide_ext (cstr buf = []) (buf !!! 0%nat = 0)) by by apply cstr_nil_head.
  destruct (Z.eqb_spec (buf !!! 0%nat) 0) as [H0|H0]; [by rewrite bool_decide_eq_true_2|by rewrite bool_decide_eq_false_2].
Qed.

Lemma usage_pct_range size cap : 0 ≤ size ≤ cap → (0 <= usage_pct size cap)%Q ∧ (usage_pct size cap <= 100)%Q.
Proof.
  intros Hs. unfold usage_pct. destruct (Z.ltb_spec 0 cap); [|by vm_compute].
  unfold Qle. simpl. rewrite Z2Pos.id by lia. lia.
Qed.

(** The statistics function reports the queue as it is: with no other process
    running, the row carries the counters, the exact number of events waiting, the
    capacity and a percentage between 0 and 100; a time or an error text is null
    exactly when there is none; reading changes nothing. *)
Lemma stats_report_queue s st m
  (Hinv : ring_inv s st m) (Hl : lock_held s = false) (Hcap : capacity st < 2 ^ 31) :
  wp pg_stat_ch_stats
    (λ row s', row = stats_row st (Z.of_nat (length (abs s))) ∧ abs s' = abs s ∧ ring_inv s' st m ∧
       lock_held s' = false ∧
       (0 <= usage_pct (Z.of_nat (length (abs s))) (capacity st))%Q ∧
       (usage_pct (Z.of_nat (length (abs s))) (capacity st) <= 100)%Q)
    (λ _, False) s.
Proof.
  eapply wp_stats_row; [done..|]. split; [done|]. split; [done|]. split; [by destruct Hinv|]. split; [done|].
  apply usage_pct_range. rewrite <- (queue_size_abs _ _ _ Hinv).
  pose proof (qsize_nonneg st). pose proof (inv_size _ _ _ Hinv). lia.
Qed.

(** A reset clears every counter, both times and the last error, and leaves the
    queue alone: the statistics read next show zeros and nulls beside the unchanged
    queue size and capacity. *)
Theorem reset_clears_statistics s st m
  (Hinv : ring_inv s st m) (Hl : lock_held s = false) (Hcap : capacity st < 2 ^ 31) :
  wp (_ ← pg_stat_ch_reset; pg_stat_ch_stats)
    (λ row s', row = [Some (Int64Datum 0); Some (Int64Datum 0); Some (Int64Datum 0); Some (Int64Datum 0);
                      None; None; None; Some (Int32Datum (Z.of_nat (length (abs s))));
                      Some (Int32Datum (capacity st));
                      Some (Float8Datum (usage_pct (Z.of_nat (length (abs s))) (capacity st)));
                      Some (Int64Datum 0)] ∧
       abs s' = abs s ∧ ∃ st', ring_inv s' st' m)
    (λ _, False) s.
Proof.
  pose proof (inv_st _ _ _ Hinv) as Hst. unfold pg_stat_ch_reset, PschResetStats, shared_is_null.
  wp_step. do 2 wp_step. rewrite Hst. wp_step. apply wp_lock; [done|]. wp_step. eapply wp_wr; [done|].
  unfold LWLockRelease. wp_step.
  match goal with |- wp _ _ _ ?s1 => set (s1' := s1) end.
  match goal with s1' := context [Some (?f : PschSharedState)] |- _ => set (st1 := f) in s1' end.
  destruct (ring_inv_ext s s1' st st1 m Hinv) as (Hinv1 & Habs & _); [by split_and!|done..|].
  eapply (wp_stats_row s1' st1 m); [exact Hinv1|done|exact Hcap|]. rewrite Habs.
  split; [reflexivity|]. split; [exact Habs|]. exists st1. by destruct Hinv1.
Qed.

Lemma reset_clears_statistics_witness :
  ∃ row s', (_ ← pg_stat_ch_reset; pg_stat_ch_stats) demo_sys1 = (Some row, s') ∧
    row !! 4%nat = Some None.
Proof.
  destruct (wp_run_spec _ _ _ _ (reset_clears_statistics demo_sys1 demo_st1 ∅ demo_inv1 eq_refl ltac:(simpl; lia)))
    as (r & s' & Heq & H).
  destruct r as [row|]; [|destruct H]. exists row, s'. split; [exact Heq|].
  rewrite (proj1 H). reflexivity.
Defined.

End WorkerThms.
