(* ===== verification/DeliveryThms.v ===== *)
(** From the queue to the ClickHouse server: what one export call says to the server, and
    what becomes of every event over a whole run of producers and worker. *)

From S2P Require Import Prelude Event Shared Dsa Intern Ring LocalBatch InternInv RingInv RingSpec QueueSpec QueueThms Exporter.
From S2P Require Import ChcConnection ClickHouse Bgworker ExporterThms ChcConnectionThms ClickHouseThms WorkerThms.
Import Event Shared Dsa Ring LocalBatch RingInv RingSpec QueueSpec QueueThms Exporter ChcConnection ClickHouse.
Import ExporterThms ChcConnectionThms ClickHouseThms WorkerThms.

Module DeliveryThms.

(** What became of a batch: a row of the server for each event; given to the server but not
    acknowledged, or not given to it; or not brought into a table, for want of memory. *)
Inductive Fate : Set := Inserted | Refused | Abandoned.

(** The events of a batch, what was said to the server about them, the result of the export
    call and by how much the exported counter grew. *)
Record Batch := { b_events : list PschEvent; b_fate : Fate; b_turns : list Turn; b_result : Z; b_counted : Z }.

Definition batch_ok {CL : ChcLib} (b : Batch) : Prop :=
  let n := Z.of_nat (length (b_events b)) in
  match b_fate b with
  | Inserted => b_events b ≠ [] ∧ b_result b = n ∧ b_counted b = n ∧ conversation (table (b_events b)) true (b_turns b)
  | Refused => b_events b ≠ [] ∧ b_result b = n ∧ b_counted b = 0 ∧ conversation (table (b_events b)) false (b_turns b)
  | Abandoned => b_result b = 0 ∧ b_counted b = 0 ∧ b_turns b = [] ∧ (b_events b = [] ∨ ∃ x, heap_ok x = false)
  end.

Section delivery.
Context {E : Env} {CL : ChcLib} {LL : ChcLibLaws CL} {EE : ExportEnv} (files : gset Z).
Context {Bd : Type} {AB : ArrowBatchBuilder Bd}.
#[local] Abbreviation W := (Worker CH).

(** Between two calls, after the exchange [ts]. *)
Definition quiet (ts : list Turn) (x : CH) : Prop := settled files x ∧ schema_ok x ∧ turns x = ts.

Definition ready_to_commit (ts : list Turn) (events : list PschEvent) (x : CH) : Prop :=
  quiet ts x ∧ columns_ x = table events ∧ exported_count_ x = Z.of_nat (length events).

(** What making the table leaves alone: it says nothing to the server. *)
Definition outside (x : CH) : Conn * list Packet * list Turn * option Builder := (conn x, inbox x, turns x, bb_ x).

Lemma wp_stats_clickhouse x0 events k w0 w :
  at_work k 0 (λ x, outside x = outside x0 ∧ schema_ok x) w0 w →
  wp (ExportEventStats events)
    (λ ok w', at_work k 0 (λ x, outside x = outside x0 ∧ schema_ok x ∧
       if ok : bool then columns_ x = table events ∧ exported_count_ x = Z.of_nat (length events) else ∃ y, heap_ok y = false) w0 w')
    (λ _, False) w.
Proof.
  intros Hw. destruct (aw_exp _ _ _ _ _ Hw) as (x & Hx & Hout & Hsch).
  pose proof (clickhouse_batch_is_table events w x Hx (pr_lock _ _ _ _ (aw_sys _ _ _ _ _ Hw)) Hsch) as H1.
  assert (wp (ExportEventStats events) (λ ok w', at_work k 0 (if ok : bool
    then λ x, outside x = outside x0 ∧ exported_count_ x = Z.of_nat (length events)
    else λ x, outside x = outside x0) w0 w') (λ _, False) w) as H2.
  { apply (wp_stats_with (λ x, outside x = outside x0) _ (λ n x, outside x = outside x0 ∧ exported_count_ x = n)).
    - intros e r e' He [= <- <-]. done.
    - intros c e r e' He. simpl. destruct (column_of c) as [[name class] type]. unfold MakeCol.
      destruct (list_find _ _) as [[j col]|]; [case_bool_decide|destruct (heap_ok e)]; intros [= <- <-]; (exact He || apply He).
    - intros n e r e' msgs [He <-] [= <- <- <-]. done.
    - intros n i v e r e' [He Hn]. simpl. unfold append. destruct (heap_ok e); by intros [= <- <-].
    - eapply at_work_weaken; [|exact Hw]. by intros e [? _]. }
  unfold wp in *. destruct (ExportEventStats events w) as [[ok|] w']; [|done].
  destruct H1 as (x' & Hx' & Hsch' & Hcol). destruct H2 as [Hp (x'' & Hx'' & Hprop)]. rewrite Hx' in Hx''. injection Hx'' as <-.
  constructor; [done|]. exists x'. split; [done|]. destruct ok; [destruct Hprop|]; by split_and!.
Qed.

Lemma outside_quiet ts x y : outside y = outside x → schema_ok y → quiet ts x → quiet ts y.
Proof.
  unfold outside. intros [= Hc _ Ht Hb] Hs ((H1 & H2 & H3) & _ & H4). split; [|split; [done|congruence]].
  unfold settled, sound. rewrite Hc, Hb. by split_and!.
Qed.

(** What an export call leaves, having taken the events of a batch. *)
Definition exported_batch (ts : list Turn) (w : W) (r : Z) (w' : W) : Prop :=
  ∃ b, batch_ok b ∧ b_result b = r ∧ took w (b_events b) ∧
    at_work (length (b_events b)) (b_counted b) (quiet (ts ++ b_turns b)) w w'.

Definition stopped (ts : list Turn) (events : list PschEvent) (x : CH) : Prop :=
  quiet ts x ∧ (events = [] ∨ ∃ y : CH, heap_ok y = false).

Lemma exported_nothing ts w events w' :
  took w events → at_work (length events) 0 (stopped ts events) w w' → exported_batch ts w 0 w'.
Proof.
  intros Ht Hw. destruct (aw_exp _ _ _ _ _ Hw) as (x & Hx & Hq & Hm). exists {| b_events := events; b_fate := Abandoned; b_turns := []; b_result := 0; b_counted := 0 |}.
  split; [by split_and!|]. split; [done|]. split; [done|]. constructor; [apply Hw|]. exists x. simpl. by rewrite app_nil_r.
Qed.

Lemma commit_quiet ts events x :
  ready_to_commit ts events x →
  let r := commit x in
  settled files r.1.2 ∧ schema_ok r.1.2 ∧ exported_count_ r.1.2 = Z.of_nat (length events) ∧
  ∃ ts', turns r.1.2 = ts ++ ts' ∧ conversation (table events) r.1.1 ts'.
Proof.
  intros ((Hs & Hsch & Ht) & Hc & Hn) r. destruct (commit_is_committed files x Hs) as (Hs' & ts' & Ht' & Hconv).
  pose proof (commit_rows x) as Hr. injection Hr as Hr1 Hr2. rewrite Hc in *. fold r in Hs', Ht', Hconv, Hr1, Hr2.
  split_and!; [done|by eapply table_schema|congruence|]. exists ts'. by rewrite Ht', Ht.
Qed.

Lemma cwp_export_clickhouse ts w events w1 :
  psch_use_otel && psch_otel_arrow_passthrough = false → events ≠ [] → took w events →
  at_work (length events) 0 (quiet ts) w w1 →
  cwp (export_events events) (exported_batch ts w) (λ _ w', at_work (length events) 0 (stopped ts events) w w') w1.
Proof.
  intros Hpath Hne Ht Hw. unfold export_events. rewrite Hpath. apply cwp_bind, cwp_lift.
  destruct (aw_exp _ _ _ _ _ Hw) as (x & Hx & Hq).
  eapply wp_mono; [| |apply (wp_stats_clickhouse x events (length events) w w1)]; [|done|].
  2: { constructor; [apply Hw|]. exists x. split; [done|]. split; [done|apply Hq]. }
  intros ok w2 Hw2. destruct ok; cbn [negb].
  2: { apply cwp_ret. eapply exported_nothing; [done|]. eapply at_work_weaken; [|exact Hw2].
       intros y (Ho & Hs & Hh). split; [by eapply outside_quiet|by right]. }
  assert (at_work (length events) 0 (ready_to_commit ts events) w w2) as Hw3.
  { eapply at_work_weaken; [|exact Hw2]. intros y (Ho & Hs & Hc & Hn). split; [by eapply outside_quiet|done]. }
  set (Post := λ (ok : bool) x, settled files x ∧ schema_ok x ∧ exported_count_ x = Z.of_nat (length events) ∧
    ∃ ts', turns x = ts ++ ts' ∧ conversation (table events) ok ts').
  eapply cwp_mono; [| |apply (cwp_commit_with (ready_to_commit ts events) (λ _, False) Post); [|exact Hw3]].
  - intros r w4 (ok & Hw4). destruct (aw_exp _ _ _ _ _ Hw4) as (y & Hy & (Hs & Hsch & Hn & ts' & Hts & Hconv) & ->).
    change (NumExported y) with (exported_count_ y) in *.
    exists {| b_events := events; b_fate := if ok then Inserted else Refused; b_turns := ts';
              b_result := exported_count_ y; b_counted := if ok then exported_count_ y else 0 |}.
    split; [by destruct ok|]. split; [done|]. split; [done|]. constructor; [apply Hw4|]. exists y. by split_and!.
  - intros ex w4 Hw4. by destruct (aw_exp _ _ _ _ _ Hw4) as (y & _ & []).
  - intros y r y' msgs Hy. simpl. pose proof (commit_quiet ts events y Hy) as Hcq. destruct (commit y) as [[ok y1] msgs1].
    intros [= <- <- <-]. exact Hcq.
Qed.

Lemma establish_quiet ts x : quiet ts x → quiet ts (establish x).2.
Proof.
  intros ((Hs & Hk & Hb) & Hsch & Ht). destruct (establish_sound files x Hs) as (H1 & _ & H2).
  assert (bb_ (establish x).2 = None) as H3 by (unfold establish, on_conn; by destruct (EstablishNewConnection _)).
  pose proof (establish_in_batch x) as Hi. injection Hi as Hc _ Htt.
  split; [split_and!; [exact H1|congruence|exact H3]|]. split; [unfold schema_ok; by rewrite Hc|congruence].
Qed.

Lemma wp_export_clickhouse ts stack w x :
  psch_use_otel && psch_otel_arrow_passthrough = false → worker_ok w → w_exporter w = Some x → quiet ts x →
  text_buffers stack → wp (PschExportBatch stack) (exported_batch ts w) (λ _, False) w.
Proof.
  intros Hpath Hw Hx Hq Hb. apply (wp_export_with (quiet ts) (stopped ts)); try done.
  - by intros e [He _] _.
  - intros e He. split; [done|by left].
  - intros e r e' msgs [He _]. simpl. pose proof (establish_quiet ts e He) as H. destruct (establish e) as [ok y].
    intros [= <- <- <-]. destruct ok; [done|split; [done|by left]].
  - intros events w' Ht Hw'. by eapply exported_nothing.
  - intros events w1 Hne Ht Hw1. by apply cwp_export_clickhouse.
  - constructor; [apply Hw|]. exists x. split; [done|]. split; [done|by left].
Qed.

(** ** Whole runs *)

(** A backend hands over an event, or the worker exports a batch. *)
Inductive PipeOp : Type := Statement (ev : PschEvent) | Round.

(** A run of both, in the order the lock and the positions serialise them: the events for
    which the backend was told [true], and what the worker is left with. *)
Fixpoint run_pipe (ops : list PipeOp) (w : W) : list PschEvent * W :=
  match ops with
  | [] => ([], w)
  | Statement ev :: rest =>
    match on_wsys (PschEnqueueEvent ev) w with
    | (Some true, w1) => let '(acc, w') := run_pipe rest w1 in (ev :: acc, w')
    | (_, w1) => run_pipe rest w1
    end
  | Round :: rest => run_pipe rest (PschExportBatch zero_event w).2
  end.

Definition statement_ok (o : PipeOp) : Prop := match o with Statement ev => event_ok ev | Round => True end.

(** The accounts of a run: every event that waited or was accepted is in one batch, in
    order, or still waits; the exchange with the server is that of the batches. *)
Definition accounts (ts : list Turn) (w : W) (acc : list PschEvent) (w' : W) : Prop :=
  ∃ ds bs, Forall2 stored acc ds ∧ Forall batch_ok bs ∧
    abs (w_sys w) ++ ds = map view (concat (map b_events bs)) ++ abs (w_sys w') ∧
    worker_ok w' ∧ ∃ x', w_exporter w' = Some x' ∧ quiet (ts ++ concat (map b_turns bs)) x'.

Lemma accounts_statement ts w w1 acc1 ds1 acc w' :
  Forall2 stored acc1 ds1 → abs (w_sys w1) = abs (w_sys w) ++ ds1 → accounts ts w1 acc w' → accounts ts w (acc1 ++ acc) w'.
Proof.
  intros Hs Ha (ds & bs & Hds & Hbs & Heq & Hrest). exists (ds1 ++ ds), bs. rewrite Ha, <- app_assoc in Heq.
  split; [by apply Forall2_app|]. split; [done|]. split; [exact Heq|exact Hrest].
Qed.

Lemma accounts_round ts w w1 b acc w' :
  batch_ok b → took w (b_events b) → at_work (length (b_events b)) (b_counted b) (quiet (ts ++ b_turns b)) w w1 →
  accounts (ts ++ b_turns b) w1 acc w' → accounts ts w acc w'.
Proof.
  intros Hb [_ Ht] Hw (ds & bs & Hds & Hbs & Heq & Hok & x' & Hx' & Hq). exists ds, (b :: bs).
  split; [done|]. split; [by constructor|]. simpl. rewrite map_app, <- app_assoc, <- Heq, Ht.
  rewrite (pr_abs _ _ _ _ (aw_sys _ _ _ _ _ Hw)), app_assoc, take_drop. split; [done|]. split; [done|].
  exists x'. split; [done|]. by rewrite app_assoc.
Qed.

End delivery.

(** ** Properties *)

(** C11: What one export call does with the ClickHouse back end, from any state between
    batches, connected or not, and however sockets, TLS, client, server and allocators
    behave. It never leaves by an error or an exception. The events it takes are the
    first of the queue, and one of three things becomes of them as a whole. Inserted:
    the server was sent one query and one block, which is the table of these events, one
    column for each exported field and one row for each event, and answered both; the
    result and the growth of the exported counter are their number. Refused: at most
    that query and that block were sent, once, without the final answer, and nothing is
    counted. Abandoned: nothing was said to the server, for want of memory. Afterwards the exporter holds no
    memory of the batch and the next one can be a table again. *)
Theorem clickhouse_batch_delivered {E : Env} {CL : ChcLib} {LL : ChcLibLaws CL} {EE : ExportEnv} {Bd : Type}
  {AB : ArrowBatchBuilder Bd} files stack (w : Worker CH) x
  (Hw : worker_ok w) (Hx : w_exporter w = Some x) (Hq : settled files x ∧ schema_ok x) (Hb : text_buffers stack)
  (Hpath : psch_use_otel && psch_otel_arrow_passthrough = false) :
  wp (PschExportBatch stack) (exported_batch files (turns x) w) (λ _, False) w.
Proof. apply (wp_export_clickhouse files (turns x) stack w x); try done. by destruct Hq. Qed.

(** C1: From the hook's event to the server's row, over runs of any length of backends that
    hand over events and a worker that exports batches to ClickHouse, and however the
    server behaves. Every event that waited at first or was accepted since is, in this
    order, in exactly one batch or still in the queue, its fields and texts as they were
    stored; the exchange with the server is, batch after batch, that of the batch; so
    every event is sent at most once, and its row is the server's exactly if its batch
    was acknowledged. No event is in two batches and none disappears between them. *)
Theorem every_event_accounted {E : Env} {L : EnvLaws E} {CL : ChcLib} {LL : ChcLibLaws CL} {EE : ExportEnv} {Bd : Type}
  {AB : ArrowBatchBuilder Bd} files ops (w : Worker CH) x
  (Hw : worker_ok w) (Hx : w_exporter w = Some x) (Hq : settled files x ∧ schema_ok x) (Hops : Forall statement_ok ops)
  (Hen : psch_enabled = true) (Hav : lock_available = true) (Hpath : psch_use_otel && psch_otel_arrow_passthrough = false) :
  let '(acc, w') := run_pipe ops w in accounts files (turns x) w acc w'.
Proof.
  destruct Hq as [Hs Hsch]. assert (quiet files (turns x) x) as Hq by done. clear Hs Hsch.
  generalize dependent (turns x). intros ts Hq. revert ts w x Hw Hx Hq.
  induction Hops as [|o ops Ho Hops IH]; intros ts w x Hw Hx Hq; cbn [run_pipe].
  { exists [], []. rewrite app_nil_r. split_and!; [done|done|done|done|]. exists x. by rewrite app_nil_r. }
  destruct o as [ev|].
  - destruct (pr_inv _ _ _ _ (aw_sys _ _ _ _ _ Hw)) as (st & st' & m & _ & Hinv & _).
    pose proof (pr_lock _ _ _ _ (aw_sys _ _ _ _ _ Hw)) as Hlk.
    assert (∀ s1 st1 acc1 d, queued E true (w_sys w) s1 st' st1 acc1 d →
      let '(acc, w') := run_pipe ops (Build_Worker s1 (w_exporter w)) in accounts files ts w (acc1 ++ acc) w') as Hgo.
    { intros s1 st1 acc1 d [[m1 Hi] [ds1 [Hst1 Ha]] _ _ _ _ _ [Hf _ _ _ _] _].
      specialize (IH ts (Build_Worker s1 (w_exporter w)) x). destruct (run_pipe ops _) as [acc w'].
      eapply (accounts_statement _ _ _ (Build_Worker s1 (w_exporter w))); [exact Hst1|exact Ha|apply IH; [|done|done]].
      constructor; [|by exists x]. eapply progress_start; [exact Hi|]. simpl. by rewrite Hf. }
    assert (wp (PschEnqueueEvent ev)
      (λ ok s', ∃ st1, queued E true (w_sys w) s' st' st1 (if ok : bool then [ev] else []) (if ok then 0 else 1)%nat)
      (λ s', ∃ st1, queued E true (w_sys w) s' st' st1 [] 0) (w_sys w)) as Hwp by (eapply wp_enqueue_direct; eauto).
    unfold wp, on_wsys in *. destruct (PschEnqueueEvent ev (w_sys w)) as [[[]|] s1]; destruct Hwp as [st1 Hqd];
      specialize (Hgo _ _ _ _ Hqd); by destruct (run_pipe ops _) as [acc w'].
  - pose proof (wp_export_clickhouse files ts zero_event w x Hpath Hw Hx Hq zero_event_text) as Hwp. unfold wp in Hwp.
    destruct (PschExportBatch zero_event w) as [[r|] w1]; [|done]. destruct Hwp as (b & Hb & _ & Ht & Hw1).
    destruct (aw_exp _ _ _ _ _ Hw1) as (x1 & Hx1 & Hq1). specialize (IH (ts ++ b_turns b) w1 x1 (at_work_ok _ _ _ _ _ Hw1) Hx1 Hq1).
    simpl. destruct (run_pipe ops w1) as [acc w']. by eapply accounts_round.
Qed.

(** ** A concrete run *)

(** Three events wait; batches have at most two. *)
Definition demo_pipe : list PipeOp := [Round; Statement demo_ev1; Round].

Lemma demo_ch_quiet : settled {[0; 1; 2]} demo_ch ∧ schema_ok demo_ch.
Proof. split; [|apply prefix_nil]. split; [apply owned_nothing|done]. Qed.

Lemma demo_pipe_ok : Forall statement_ok demo_pipe.
Proof. repeat first [apply Forall_cons_2 | apply Forall_nil_2]; try exact demo_ev1_ok; exact I. Qed.

Lemma clickhouse_batch_delivered_witness :
  ∃ w', PschExportBatch (E := demo1) (SE := ClickHouse_exporter (CL := demo_lib true true)) (EE := demo_export) zero_event
          (demo_worker demo_ch) = (Some 2, w') ∧
    exported_batch (CL := demo_lib true true) (EE := demo_export) {[0; 1; 2]} [] (demo_worker demo_ch) 2 w'.
Proof.
  destruct (wp_run_spec _ _ _ _ (clickhouse_batch_delivered (E := demo1) (CL := demo_lib true true) (EE := demo_export)
    {[0; 1; 2]} zero_event (demo_worker demo_ch) demo_ch (demo_worker_ok demo_ch) eq_refl demo_ch_quiet zero_event_text
    eq_refl)) as (r & w' & Heq & H).
  assert (r = Some 2) as -> by (change r with (r, w').1; rewrite <- Heq; vm_compute; reflexivity).
  exists w'. split; [exact Heq|exact H].
Defined.

Lemma every_event_accounted_witness :
  (let w' := (run_pipe (E := demo1) (CL := demo_lib true true) (EE := demo_export) (AB := demo_arrow) demo_pipe (demo_worker demo_ch)).2 in
   length (abs (w_sys w')) = 0%nat ∧ length (calls_made (default [] (turns <$> w_exporter w'))) = 6%nat) ∧
  let '(acc, w') := run_pipe (E := demo1) (CL := demo_lib true true) (EE := demo_export) (AB := demo_arrow) demo_pipe (demo_worker demo_ch) in
  accounts (CL := demo_lib true true) {[0; 1; 2]} (turns demo_ch) (demo_worker demo_ch) acc w'.
Proof.
  split; [split; vm_compute; reflexivity|].
  exact (every_event_accounted (E := demo1) (CL := demo_lib true true) (EE := demo_export) (AB := demo_arrow) {[0; 1; 2]} demo_pipe
    (demo_worker demo_ch) demo_ch (demo_worker_ok demo_ch) eq_refl demo_ch_quiet demo_pipe_ok eq_refl eq_refl eq_refl).
Defined.

End DeliveryThms.
