(* ===== verification/DrainThms.v ===== *)
(** When nothing fails: a ClickHouse server that answers, memory that does not run out.
    A connected exporter then inserts every batch, and one turn of the worker empties the
    queue into the server. *)

From S2P Require Import Prelude Event Shared Dsa Intern Ring InternInv RingInv RingSpec QueueSpec QueueThms Exporter.
From S2P Require Import ChcConnection ClickHouse Bgworker ExporterThms ChcConnectionThms ClickHouseThms WorkerThms DeliveryThms.
Import Event Shared Dsa Ring RingInv RingSpec QueueSpec QueueThms Exporter ChcConnection ClickHouse Bgworker.
Import ExporterThms ChcConnectionThms ClickHouseThms WorkerThms DeliveryThms.

Module DrainThms.

(** The result of a function of the library when no allocation fails. *)
Fixpoint prospers {A} (m : LibProg A) (Q : A → Prop) : Prop :=
  match m with
  | LDone a => Q a
  | LAlloc _ k | LRealloc _ _ k => ∀ p, p ≠ 0 → prospers (k p) Q
  | LFree _ k => prospers k Q
  end.

Section library.
Context {NL : NetLib} (Hlaws : palloc_laws).

(** Memory does not run out. *)
Record memory_lasts : Prop := {
  alloc_lasts cxt bytes m n : MemoryContextAllocExtended cxt bytes m n ≠ None;
  realloc_lasts old bytes m n : repalloc_extended old bytes m n ≠ None }.

Context (Hmem : memory_lasts).

Lemma palloc_lasts cxt bytes f c :
  bytes ≤ MaxAllocHugeSize → (∀ n, f (chunks c) n ≠ None) → (∀ n p, f (chunks c) n = Some p → p ≠ 0) →
  (palloc cxt bytes f c).1 ≠ 0.
Proof.
  intros Hb Hs H0. unfold palloc. destruct (Z.ltb_spec MaxAllocHugeSize bytes); [lia|]. simpl.
  specialize (Hs (os_calls c)). unfold mbind, Net_bind, get, os. simpl.
  destruct (f (chunks c) (os_calls c)) as [p|] eqn:Hp; [|done]. simpl. by eapply H0.
Qed.

Lemma run_lib_prospers {A} cxt c0 (m : LibProg A) S Q Q' c :
  confined m S Q → lib_state cxt c0 S c → prospers m Q' → Q' (run_lib (MakePschChcAlloc cxt) m c).1.
Proof.
  revert S c. induction m as [a|bytes k IH|p bytes k IH|p k IH]; intros S c; cbn [confined run_lib prospers].
  - done.
  - intros (Hb & H0 & Hk) Hc Hp. pose proof (callback_alloc_ok Hlaws cxt c0 c S bytes Hc Hb) as H.
    assert ((PschChcAlloc cxt bytes c).1 ≠ 0) as Hne.
    { apply palloc_lasts; [done|intros; apply Hmem|]. intros n q Hq. by apply (palloc_fresh Hlaws) in Hq as [? _]. }
    unfold nwp in H. unfold mbind, Net_bind. cbn [ud MakePschChcAlloc]. destruct (PschChcAlloc cxt bytes c) as [q c'].
    destruct H as [[? _]|(Hq & Hn & Hc')]; [done|]. eapply IH; [by apply Hk|done|by apply Hp].
  - intros (Hb & Hps & H0 & Hk) Hc Hp. pose proof (realloc_ok Hlaws cxt c0 c S p bytes Hc Hb Hps) as H.
    assert ((PschChcRealloc cxt p bytes c).1 ≠ 0) as Hne.
    { unfold PschChcRealloc. destruct (Z.eqb_spec p 0) as [->|Hne].
      - apply palloc_lasts; [done|intros; apply Hmem|]. intros n q Hq. by apply (palloc_fresh Hlaws) in Hq as [? _].
      - destruct Hps as [?|Hps]; [done|]. rewrite <- (ls_dom _ _ _ _ Hc) in Hps. apply elem_of_dom in Hps as [[cx sz] Hx].
        unfold mbind, Net_bind, get. rewrite Hx.
        assert ((palloc cx bytes (repalloc_extended p bytes) c).1 ≠ 0) as Hpl.
        { apply palloc_lasts; [done|intros; apply Hmem|]. intros n q Hq. by apply (repalloc_fresh Hlaws) in Hq as [? _]. }
        destruct (palloc _ _ _ c) as [q c1]. simpl in Hpl. by destruct ((q =? 0) || (q =? p)). }
    unfold nwp in H. unfold mbind, Net_bind. cbn [ud MakePschChcAlloc]. destruct (PschChcRealloc cxt p bytes c) as [q c'].
    destruct H as [[? _]|(Hq & Hn & Hc')]; [done|]. eapply IH; [by apply Hk|done|by apply Hp].
  - intros (Hps & Hk) Hc Hp. pose proof (callback_free_ok Hlaws cxt c0 c S p Hc Hps) as H. unfold nwp in H.
    unfold mbind, Net_bind. destruct (PschChcFree p c) as [u c']. by eapply IH.
Qed.

End library.

(** ** A server that answers *)

Section healthy.
Context {CL : ChcLib} {LL : ChcLibLaws CL} (files : gset Z).

(** The answer to a query or to the end of the data is what is awaited, after packets that
    do not matter. *)
Definition answers (is_target : Packet → bool) (r : option string * list Packet) : Prop :=
  r.1 = None ∧ ∃ ps p, r.2 = ps ++ [p] ∧ Forall (passed is_target) ps ∧ (length ps < kMaxRecvPackets)%nat ∧ is_target p = true.

Record healthy : Prop := {
  he_heap x : heap_ok x = true;
  he_memory : memory_lasts;
  he_types name n : chc_type_parse name n = None;
  he_init x : prospers (chc_block_builder_init x) (λ r, ∃ b, r = inl b);
  he_fixed c b : prospers (chc_block_builder_append_fixed c b) (λ r, r.2 = None);
  he_string c b : prospers (chc_block_builder_append_string c b) (λ r, r.2 = None);
  he_query q x : answers is_data (chc_client_send_query q x);
  he_data b x : chc_client_send_data (Some b) x = (None, []);
  he_end x : answers is_end (chc_client_send_data None x) }.

Context (Hh : healthy).

Lemma recv_answered n is_target x ps p :
  inbox x = ps ++ [p] → Forall (passed is_target) ps → (length ps < n)%nat → is_target p = true →
  match p with RecvError _ | CHC_PKT_EXCEPTION _ => False | _ => True end →
  (RecvUntil n is_target x).1 = None ∧ inbox (RecvUntil n is_target x).2 = [].
Proof.
  intros Hi Hps Hn Ht Hp. revert n x Hi Hn. induction Hps as [|q ps Hq Hps IH]; intros [|n] x Hi Hn; simpl in Hn; try lia; simpl; rewrite Hi.
  - simpl. destruct p; try done; by rewrite Ht.
  - simpl. set (x1 := x <| inbox := ps ++ [p] |> <| turns ::= _ |>).
    assert ((RecvUntil n is_target x1).1 = None ∧ inbox (RecvUntil n is_target x1).2 = []) as H by (apply IH; [done|lia]).
    unfold passed in Hq. destruct q; try done; by rewrite Hq.
Qed.

Lemma insert_succeeds b x :
  inbox x = [] → (SendInsert (Some b) x).1 = None ∧ inbox (SendInsert (Some b) x).2 = [].
Proof.
  unfold SendInsert, sent. cbv zeta. change (inbox x) with (inbox (SetReadDeadline x)) at 1.
  generalize (SetReadDeadline x). clear x. intros x Hi.
  destruct (he_query Hh (BuildInsertQuery x) x) as (Hq & ps & p & Hps & Hpass & Hlen & Ht).
  destruct (chc_client_send_query _ x) as [e l]. simpl in Hq, Hps. subst e l. cbn [fst snd].
  set (x1 := x <| inbox ::= _ |> <| turns ::= _ |>).
  destruct (recv_answered kMaxRecvPackets is_data x1 ps p) as [H1 H2]; [simpl; by rewrite Hi|done|done|done|by destruct p|].
  destruct (RecvUntil _ is_data x1) as [e x2]. cbn [fst snd] in *. subst e. rewrite (he_data Hh). cbn [fst snd].
  set (x3 := x2 <| inbox ::= _ |> <| turns ::= _ |>).
  destruct (he_end Hh x3) as (Hq2 & qs & q & Hqs & Hpass2 & Hlen2 & Ht2).
  destruct (chc_client_send_data None x3) as [e l]. simpl in Hq2, Hqs. subst e l. cbn [fst snd].
  set (x4 := SetReadDeadline _).
  apply (recv_answered kMaxRecvPackets is_end x4 qs q); [|done|done|done|by destruct q].
  unfold x4, x3. simpl. by rewrite H2.
Qed.

(** A connected exporter between two calls; the server has nothing left to say. *)
Definition talking (x : CH) : Prop := settled files x ∧ client_ (conn x) = true ∧ inbox x = [].

Lemma on_batch_prospers {A} (m : LibProg A) Q Q' x :
  sound files x → conn_cxt_ (conn x) = true → confined m (dom (chunks (conn x))) Q → prospers m Q' →
  Q' (on_batch m x).1.
Proof.
  intros Hx Hc Hm Hp. unfold on_batch. pose proof (proj2 (ow_contexts _ _ Hx)) as Hb. rewrite Hc in Hb.
  pose proof (proj2 (ow_als _ _ Hx)) as Hal. rewrite <- Hb in Hal. rewrite Hal. cbv zeta beta iota. rewrite Hal. cbn [default].
  pose proof (run_lib_prospers allocator_laws (he_memory Hh) BatchCxt (conn x) m _ Q Q' (conn x) Hm
    (owned_lib_state _ _ Hx) Hp) as H. unfold on_conn. by destruct (run_lib _ m (conn x)).
Qed.

Lemma on_batch_inbox {A} (m : LibProg A) x : inbox (on_batch m x).2 = inbox x.
Proof. unfold on_batch, on_conn. cbv zeta. destruct (batch_al_ (conn x)); by destruct (run_lib _ _ _). Qed.

(** While the block is built, no error and no answer. *)
Definition going (cols : list Column) (x : CH) : Prop :=
  building files cols x ∧ build_err_ x = None ∧ client_ (conn x) = true ∧ inbox x = [].

Lemma on_builder_going m cols c x :
  (∀ b S, builder_in b S → confined (m b) S (adds c b)) → (∀ b, prospers (m b) (λ r, r.2 = None)) →
  going cols x → going (cols ++ [c]) (on_builder m x).
Proof.
  intros Hm Hp (Hb & He & Hc & Hi). split; [by apply on_builder_building|].
  destruct Hb as (Hx & Hcc & b & Hb & Hin & Hbl). unfold on_builder. rewrite Hb.
  destruct (on_batch_sound files (m b) _ x Hx Hcc (Hm _ _ Hin)) as (_ & _ & _ & Hcl & _).
  pose proof (on_batch_prospers (m b) _ _ x Hx Hcc (Hm _ _ Hin) (Hp b)) as Hr.
  pose proof (on_batch_inbox (m b) x) as Hib.
  destruct (on_batch (m b) x) as [[b' err] x']. simpl in *. split_and!; congruence.
Qed.

Lemma crunch_going cols c x : going cols x → going (cols ++ [c]) (Crunch c x).
Proof.
  intros Hg. pose proof Hg as (Hb & He & Hc & Hi). unfold Crunch. rewrite He. destruct (is_string c).
  { apply on_builder_going; [apply append_string_laws|apply (he_string Hh)|done]. }
  pose proof (resolve_building files cols (col_type c) x Hb) as Hr.
  assert (nwp (ResolveType (col_type c)) (λ e c', e = None ∧ client_ c' = client_ (conn x)) (conn x)) as Hres.
  { unfold ResolveType. do 2 nwp_step. destruct (list_find _ _); [by nwp_step|]. do 2 nwp_step. rewrite (he_types Hh). by do 3 nwp_step. }
  unfold nwp in Hres. unfold on_conn in *. destruct (ResolveType (col_type c) (conn x)) as [e c'].
  destruct Hres as [He' Hcl]. simpl in *. subst e. apply on_builder_going; [apply append_fixed_laws|apply (he_fixed Hh)|].
  split; [exact Hr|]. split; [done|]. split; [simpl; congruence|done].
Qed.

Lemma crunch_each_going cs past x : going past x → going (past ++ cs) (foldl (λ x c, Crunch c x) x cs).
Proof.
  revert past x. induction cs as [|c cs IH]; intros past x Hx; simpl; [by rewrite app_nil_r|].
  replace (past ++ c :: cs) with ((past ++ [c]) ++ cs) by by rewrite <- app_assoc. by apply IH, crunch_going.
Qed.

Lemma end_keeps cols x :
  building files cols x → client_ (conn (end_batch x)) = client_ (conn x) ∧ inbox (end_batch x) = inbox x.
Proof.
  intros (Hx & Hc & b & Hb & Hin & _). unfold end_batch. rewrite Hb. cbv zeta. set (y := x <| bb_ := None |>).
  destruct (on_batch_sound files (chc_block_builder_destroy b) (λ _ _, True) y Hx Hc (destroy_laws _ _ Hin))
    as (_ & _ & _ & Hcl & _).
  pose proof (on_batch_inbox (chc_block_builder_destroy b) y) as Hi. set (z := (on_batch _ y).2) in *.
  unfold ResetBatchContext, on_conn, ChcConnection.ResetBatchContext, mbind, Net_bind, get. simpl.
  destruct (batch_cxt_ (conn z)); simpl; by split.
Qed.

(** A connected exporter commits its batch and stays connected. *)
Lemma commit_succeeds x :
  talking x → (commit x).1.1 = true ∧ (commit x).2 = [] ∧ talking (commit x).1.2.
Proof.
  intros (Hs & Hcl & Hi). pose proof (proj1 (commit_is_committed files x Hs)) as Hset. revert Hset.
  pose proof Hs as (Hx & Hk & Hb). unfold commit.
  assert (conn_cxt_ (conn x) = true) as Hc0.
  { destruct (conn_cxt_ (conn x)) eqn:Hc; [done|]. destruct (ow_unready _ _ Hx Hc) as (_ & Hn & _). by rewrite Hcl in Hn. }
  assert (MemoryContextsReady (conn x) = true) as ->.
  { unfold MemoryContextsReady. pose proof (proj2 (ow_contexts _ _ Hx)) as H. by rewrite <- H, Hc0. }
  cbn [negb]. pose proof (init_laws x) as Hin. rewrite <- (dom_empty_L (M := gmap Z) (A := Cxt * Z)), <- Hk in Hin.
  destruct (on_batch_sound files _ _ x Hx Hc0 Hin) as (H0 & Hc1 & Hb1 & Hcl1 & Hb0).
  pose proof (on_batch_prospers _ _ _ x Hx Hc0 Hin (he_init Hh x)) as [b Hr].
  pose proof (on_batch_inbox (chc_block_builder_init x) x) as Hib.
  destruct (on_batch (chc_block_builder_init x) x) as [made x0]. simpl in *. subst made. destruct (Hb0 b eq_refl) as [Hbin Hbl].
  set (y := x0 <| bb_ := Some b |>). assert (client_ (conn x0) = true) as Hcy by congruence.
  assert (client_ (conn y) = true) as Hcy' by exact Hcy. repeat (rewrite Hcy || rewrite Hcy'; cbn [negb andb]).
  assert (going (columns_ y) (crunch_all y)) as (Hbu & He & Hcl2 & Hi2).
  { apply (crunch_each_going _ [] (y <| build_err_ := None |>)). split; [|split; [done|split; [exact Hcy|simpl; congruence]]].
    split; [done|]. split; [done|]. by exists b. }
  rewrite He, (he_heap Hh). cbn [negb]. pose proof Hbu as (_ & _ & b2 & Hb2 & _ & _). rewrite Hb2.
  destruct (insert_succeeds b2 (crunch_all y) Hi2) as [Hn Hi3].
  pose proof (same_send (Some b2) (crunch_all y)) as Hsame. pose proof (same_memory_building files _ _ _ Hsame Hbu) as Hbu3.
  destruct Hsame as (Hconn & _). destruct (SendInsert (Some b2) (crunch_all y)) as [e z]. cbn [fst snd] in *. subst e.
  unfold leave. cbn [fst snd]. intros Hset. split; [done|]. split; [done|]. split; [exact Hset|].
  destruct (end_keeps (columns_ y) (z <| consecutive_failures_ := 0 |>)) as [-> ->]; [exact Hbu3|]. simpl. split; [|done].
  rewrite Hconn. simpl. done.
Qed.

(** ** A round of the worker *)

Section round.
Context {E : Env} {EE : ExportEnv} {Bd : Type} {AB : ArrowBatchBuilder Bd}.
Context (Hpath : psch_use_otel && psch_otel_arrow_passthrough = false) (Hres : reserve_ok psch_batch_max = true).
#[local] Abbreviation W := (Worker CH).

(** The exporter is connected, after the exchange [ts]. *)
Definition linked (ts : list Turn) (x : CH) : Prop := talking x ∧ schema_ok x ∧ turns x = ts.

Lemma linked_outside ts x y : outside y = outside x → schema_ok y → linked ts x → linked ts y.
Proof.
  intros Ho Hs ((Hset & Hc & Hi) & Hsch & Ht).
  destruct (outside_quiet files ts x y Ho Hs) as (H1 & _ & H2); [by split_and!|].
  unfold outside in Ho. injection Ho as Hconn Hin _ _. split; [|done]. split; [done|]. by rewrite Hconn, Hin.
Qed.

(** What a round does when all goes well: the batch, as large as it may be, is inserted. *)
Definition round_done (ts : list Turn) (w : W) (r : Z) (w' : W) : Prop :=
  r = Z.of_nat (batch_size w) ∧
  ∃ b, batch_ok b ∧ (b_events b = [] ∨ b_fate b = Inserted) ∧ length (b_events b) = batch_size w ∧
    map view (b_events b) = take (batch_size w) (abs (w_sys w)) ∧
    at_work (batch_size w) r (linked (ts ++ b_turns b)) w w'.

Lemma cwp_round_events ts w events w1 :
  events ≠ [] → length events = batch_size w → map view events = take (length events) (abs (w_sys w)) →
  at_work (length events) 0 (linked ts) w w1 → cwp (export_events events) (round_done ts w) (λ _ _, False) w1.
Proof.
  intros Hne Hlen Hv Hw. unfold export_events. rewrite Hpath. apply cwp_bind, cwp_lift.
  destruct (aw_exp _ _ _ _ _ Hw) as (x & Hx & Hl).
  eapply wp_mono; [| |apply (wp_stats_clickhouse x events (length events) w w1)]; [|done|].
  2: { constructor; [apply Hw|]. exists x. split; [done|]. split; [done|apply Hl]. }
  intros ok w2 Hw2. destruct ok; cbn [negb].
  2: { destruct (aw_exp _ _ _ _ _ Hw2) as (y & _ & _ & _ & z & Hz). by rewrite (he_heap Hh) in Hz. }
  set (Post := λ (ok : bool) y, ok = true ∧ exported_count_ y = Z.of_nat (length events) ∧
    ∃ ts', linked (ts ++ ts') y ∧ conversation (table events) true ts').
  eapply cwp_mono; [| |apply (cwp_commit_with (λ y, linked ts y ∧ ready_to_commit files ts events y) (λ _, False) Post (length events) w w2)].
  - intros r w3 (ok & Hw3). destruct (aw_exp _ _ _ _ _ Hw3) as (y & Hy & (-> & Hn & ts' & Hlk & Hconv) & ->).
    change (NumExported y) with (exported_count_ y) in *. rewrite Hn in *. clear Hw Hw2. rewrite Hlen in *. split; [done|].
    exists {| b_events := events; b_fate := Inserted; b_turns := ts'; b_result := Z.of_nat (batch_size w);
              b_counted := Z.of_nat (batch_size w) |}.
    split; [split_and!; simpl; (done || by rewrite Hlen)|]. split; [by right|]. split; [done|]. split; [done|].
    constructor; [apply Hw3|]. by exists y.
  - intros ex w3 Hw3. by destruct (aw_exp _ _ _ _ _ Hw3) as (y & _ & []).
  - intros y r y' msgs [(Ht & _ & _) Hy]. simpl. pose proof (commit_quiet files ts events y Hy) as (Hs1 & Hs2 & Hn & ts' & Hts & Hconv).
    destruct (commit_succeeds y Ht) as (Hok & _ & Ht'). destruct (commit y) as [[ok y1] msgs1]. simpl in *. subst ok.
    intros [= <- <- <-]. split; [done|]. split; [done|]. by exists ts'.
  - eapply at_work_weaken; [|exact Hw2]. intros y (Ho & Hs & Hc & Hn). assert (linked ts y) as Hly by by eapply linked_outside.
    split; [done|]. destruct Hly as ((? & _) & ? & ?). by split_and!.
Qed.

Lemma wp_round ts stack w x :
  worker_ok w → w_exporter w = Some x → linked ts x → text_buffers stack →
  wp (PschExportBatch stack) (round_done ts w) (λ _, False) w.
Proof.
  intros Hw Hx Hl Hb. unfold PschExportBatch. apply wp_try.
  eapply (cwp_mono _ (round_done ts w) _ (λ _ _, False)); [done|by intros|].
  assert (at_work 0 0 (linked ts) w w) as Hw0 by (constructor; [apply Hw|by exists x]).
  apply cwp_bind.
  eapply cwp_mono; [| |apply (cwp_call_exits _ _ _ _ (λ c e, c = true ∧ linked ts e) (λ _, False) _ _ Hw0)].
  - intros c w1 Hw1. destruct (aw_exp _ _ _ _ _ Hw1) as (_ & _ & -> & _). apply cwp_bind, cwp_ret. cbn [negb].
    apply cwp_bind. eapply cwp_mono; [| |apply (cwp_dequeue_reserved (linked ts) (λ _ _, False) stack w w1 Hres); [|done]]; [|done|].
    2: { eapply at_work_weaken; [|exact Hw1]. by intros e [_ ?]. }
    intros events w2 (Hw2 & Hlen & Hv & _). case_bool_decide as Hnil.
    + apply cwp_ret. subst events. simpl in Hlen. split; [by rewrite <- Hlen|].
      exists {| b_events := []; b_fate := Abandoned; b_turns := []; b_result := 0; b_counted := 0 |}. rewrite <- Hlen.
      split; [by split_and!; try left|]. split; [by left|]. split; [done|]. split; [done|]. simpl. by rewrite app_nil_r.
    + by apply cwp_round_events.
  - intros e w1 Hw1. by destruct (aw_exp _ _ _ _ _ Hw1) as (? & _ & []).
  - intros e r e' He [= <- <-]. split; [apply He|done].
Qed.

End round.

(** ** All rounds *)

Section drain.
Context {E : Env} {Bd : Type} {AB : ArrowBatchBuilder Bd}.

(** Every event that waited was inserted, batch after batch and in order; the exchange
    grew by that of the batches and the exported counter by the number of events. *)
Definition drained (ts : list Turn) (w w' : Worker CH) : Prop :=
  let n := length (abs (w_sys w)) in
  ∃ bs, Forall (λ b, batch_ok b ∧ (b_events b = [] ∨ b_fate b = Inserted)) bs ∧
    map view (concat (map b_events bs)) = abs (w_sys w) ∧
    at_work n (Z.of_nat n) (linked (ts ++ concat (map b_turns bs))) w w'.

Lemma at_work_trans k x P k' x' P' (w w1 w2 : Worker CH) :
  at_work k x P w w1 → at_work k' x' P' w1 w2 → at_work (k + k') (x + x') P' w w2.
Proof.
  intros [[Ha (st & st1 & m1 & H0 & H1 & Hx & He & Hd) Hl] _] [[Ha2 (st1' & st2 & m2 & H1' & H2 & Hx2 & He2 & Hd2) Hl2] Hp].
  rewrite (inv_st _ _ _ H1) in H1'. injection H1' as <-. constructor; [|done].
  constructor; [by rewrite Ha2, Ha, drop_drop| |done]. exists st, st2, m2.
  split; [done|]. split; [done|]. split; [|split; congruence].
  rewrite Hx2, <- u64_add_u64_l, Hx, u64_add_u64_l. f_equal. lia.
Qed.

Lemma drained_round {EE : ExportEnv} ts w b w1 w2 :
  batch_ok b → (b_events b = [] ∨ b_fate b = Inserted) → length (b_events b) = batch_size w →
  map view (b_events b) = take (batch_size w) (abs (w_sys w)) →
  at_work (batch_size w) (Z.of_nat (batch_size w)) (linked (ts ++ b_turns b)) w w1 →
  drained (ts ++ b_turns b) w1 w2 → drained ts w w2.
Proof.
  intros Hb Hf Hl Hv Hw (bs & Hbs & Hev & Hw2). exists (b :: bs). split; [by constructor|].
  pose proof (pr_abs _ _ _ _ (aw_sys _ _ _ _ _ Hw)) as Ha. simpl.
  split; [by rewrite map_app, Hv, Hev, Ha, take_drop|].
  rewrite Ha, length_drop in Hw2. rewrite app_assoc. pose proof (at_work_trans _ _ _ _ _ _ _ _ _ Hw Hw2) as H.
  assert (batch_size w ≤ length (abs (w_sys w)))%nat as Hle by (unfold batch_size; lia).
  by replace (batch_size w + _)%nat with (length (abs (w_sys w))) in H by lia;
     replace (Z.of_nat (batch_size w) + _) with (Z.of_nat (length (abs (w_sys w)))) in H by lia.
Qed.

(** Export stays switched on and the process is not asked to die; flush requests, barriers
    and reloads of an unchanged configuration may arrive. *)
Record calm (b : Bgw CH) : Prop := {
  ca_enabled : set_enabled (settings b) = true;
  ca_config : config_file b = settings b;
  ca_dying : ProcDiePending b = false;
  ca_signals : Forall (Forall (λ sig, handlers b sig ≠ Some die)) (incoming b) }.

Lemma deliver_calm sigs (b : Bgw CH) :
  Forall (λ sig, handlers b sig ≠ Some die) sigs → calm b → calm (foldl (λ b sig, run_handler (handlers b sig) b) b sigs).
Proof.
  revert b. induction sigs as [|sig sigs IH]; intros b Hs Hb; simpl; [done|]. apply Forall_cons in Hs as [Hsig Hs].
  apply IH; destruct (handlers b sig) as [[]|]; try done; by destruct Hb.
Qed.

Lemma wp_signals_calm (b : Bgw CH) :
  calm b → wp ProcessPendingSignals (λ _ b', calm b' ∧ g_worker b' = g_worker b ∧ settings b' = settings b) (λ _, False) b.
Proof.
  intros Hb. pose proof Hb as [Hen Hcf Hd Hs]. unfold ProcessPendingSignals, deliver. do 2 wp_step.
  set (b0 := b <| incoming := _ |>). set (sigs := default [] _).
  assert (Forall (λ sig, handlers b0 sig ≠ Some die) sigs ∧ calm b0) as [Hs0 Hb0].
  { subst b0 sigs. destruct (incoming b) as [|g gs]; [by split|]. apply Forall_cons in Hs as [? ?]. by split. }
  destruct (deliver_frame sigs b0) as (H1 & H2 & H3). pose proof (deliver_calm sigs b0 Hs0 Hb0) as Hb1.
  set (b1 := foldl _ _ _) in *. clearbody b1.
  assert (∀ b2 : Bgw CH, calm b2 → g_worker b2 = g_worker b1 → settings b2 = settings b1 →
    wp (dying ← gets ProcDiePending; _ ← (if dying : bool then raise else mret tt); HandleConfigReload)
      (λ _ b', calm b' ∧ g_worker b' = g_worker b ∧ settings b' = settings b) (λ _, False) b2) as Hrest.
  { intros b2 Hc G1 G2. do 2 wp_step. rewrite (ca_dying _ Hc). do 2 wp_step. unfold HandleConfigReload. do 2 wp_step.
    destruct (ConfigReloadPending b2); wp_step; [|split_and!; simpl in *; (done || congruence)].
    pose proof Hc as [E1 E2 E3 E4]. split; [|simpl in *; split; congruence]. constructor; simpl; (done || congruence). }
  do 3 wp_step. destruct (ProcSignalBarrierPending b1); wp_step; apply Hrest; (done || by destruct Hb1).
Qed.

Lemma wp_drain_all fuel stack ts (b : Bgw CH) x :
  let EE := set_export (settings b) in
  bgw_ok b → calm b → psch_use_otel && psch_otel_arrow_passthrough = false → reserve_ok psch_batch_max = true →
  w_exporter (g_worker b) = Some x → linked ts x → text_buffers stack → (queued_events b < fuel)%nat →
  wp (drain_loop fuel stack)
    (λ broke b', broke = true ∧ calm b' ∧ settings b' = settings b ∧ drained ts (g_worker b) (g_worker b')) (λ _, False) b.
Proof.
  revert ts b x. induction fuel as [|fuel IH]; intros ts b x EE Hok Hcalm Hpath Hres Hx Hl Hb Hfuel; [lia|]. simpl. wp_step.
  pose proof (wp_round (EE := EE) Hpath Hres ts stack (g_worker b) x (bo_worker _ Hok) Hx Hl Hb) as Hr.
  unfold wp at 1, export_guarded, on_worker. unfold wp in Hr. fold EE.
  destruct (PschExportBatch (EE := EE) stack (g_worker b)) as [[r|] w1]; [|done].
  destruct Hr as (Hr & bt & Hbt & Hf & Hlen & Hv & Hw1). set (b1 := b <| g_worker := w1 |>).
  assert (queued_events b1 = queued_events b - batch_size (EE := EE) (g_worker b))%nat as Hq.
  { unfold queued_events. simpl. by rewrite (pr_abs _ _ _ _ (aw_sys _ _ _ _ _ Hw1)), length_drop. }
  destruct (aw_exp _ _ _ _ _ Hw1) as (x1 & Hx1 & Hl1). pose proof (bo_max _ Hok) as Hmax. fold EE in Hmax.
  rewrite Hr in Hw1. do 2 wp_step. change (settings b1) with (settings b). fold EE.
  assert (calm b1) as Hc1 by by destruct Hcalm.
  pose proof (at_work_ok _ _ _ _ _ Hw1) as Hwok. assert (drained (ts ++ b_turns bt) w1 w1 ∨ psch_batch_max ≤ r) as Hcase.
  { destruct (Z.le_gt_cases psch_batch_max r) as [?|Hlt]; [by right|left].
    assert (batch_size (EE := EE) (g_worker b) = queued_events b) as Hall by (unfold batch_size, queued_events in *; lia).
    rewrite Hall, Nat.sub_diag in Hq. unfold queued_events in Hq. simpl in Hq. apply nil_length_inv in Hq.
    exists []. split; [done|]. split; [by rewrite Hq|]. simpl. rewrite Hq, app_nil_r. simpl.
    constructor; [apply Hwok|by exists x1]. }
  destruct (Z.ltb_spec r psch_batch_max) as [Hlt|Hge].
  { destruct Hcase as [Hd|?]; [|lia]. wp_step. split_and!; [done|done|done|]. by eapply drained_round. }
  wp_step. eapply wp_mono; [| |by apply wp_signals_calm]; [|done]. intros u b2 (Hc2 & Hg2 & Hs2).
  do 2 wp_step. rewrite (ca_enabled _ Hc2). simpl.
  eapply wp_mono; [| |apply (IH (ts ++ b_turns bt) b2 x1)]; rewrite ?Hs2, ?Hg2; try done.
  - intros broke b3 (-> & H3 & H4 & H5). split_and!; [done|done|done|]. by eapply drained_round.
  - constructor; rewrite ?Hg2, ?(ca_config _ Hc2), ?Hs2; [exact Hwok|apply Hok|apply Hok].
  - unfold queued_events in *. rewrite Hg2, Hq. unfold batch_size in *. lia.
Qed.

End drain.

End healthy.

(** ** Properties *)

(** C12: When nothing fails, the queue ends on the server. Take a connected exporter
    between two batches, a ClickHouse server that answers every insert within the bounded
    number of packets, and memory that does not run out; flush requests, barriers and
    reloads of the same settings may interrupt. Then one call of
    [ExportBatchWithRecovery], with one turn of its loop more than there are events, leaves
    its loop by a [break], not by an error or a signal; the queue is empty; all that waited,
    in the order it waited, was sent in batches each of which the server acknowledged; and
    the exported counter grew by exactly the number of events. *)
Theorem queue_reaches_server {E : Env} {CL : ChcLib} {LL : ChcLibLaws CL} {Bd : Type} {AB : ArrowBatchBuilder Bd}
  files stack (b : Bgw CH) x (Hh : healthy) (Hok : bgw_ok b) (Hcalm : calm b)
  (Hpath : psch_use_otel (ExportEnv := set_export (settings b)) &&
           psch_otel_arrow_passthrough (ExportEnv := set_export (settings b)) = false)
  (Hres : let EE := set_export (settings b) in reserve_ok psch_batch_max = true)
  (Hx : w_exporter (g_worker b) = Some x) (Hl : talking files x ∧ schema_ok x) (Hb : text_buffers stack) :
  wp (ExportBatchWithRecovery (S (queued_events b)) stack)
    (λ broke b', broke = true ∧ queued_events b' = 0%nat ∧ activity b' = STATE_IDLE ∧
       drained files (turns x) (g_worker b) (g_worker b'))
    (λ _, False) b.
Proof.
  unfold ExportBatchWithRecovery, pgstat_report_activity. do 2 wp_step. wp_step.
  eapply wp_mono; [| |apply (wp_drain_all files Hh (S (queued_events b)) stack (turns x) (b <| activity := _ |>) x)]; try done.
  - intros broke b2 (-> & _ & _ & Hd). do 2 wp_step. wp_step. split; [done|].
    pose proof Hd as (bs & _ & _ & Hw). pose proof (pr_abs _ _ _ _ (aw_sys _ _ _ _ _ Hw)) as Ha.
    split; [|by split]. unfold queued_events. simpl in *. by rewrite Ha, drop_all.
  - by destruct Hok.
  - by destruct Hcalm.
  - by destruct Hl.
  - unfold queued_events. simpl. lia.
Qed.

(** ** A concrete turn *)

Lemma demo_column_prospers bytes c b : prospers (demo_column bytes c b) (λ r, r.2 = None).
Proof. intros p Hp. simpl. by rewrite (proj2 (Z.eqb_neq _ _) Hp). Qed.

Lemma demo_healthy : healthy (CL := demo_lib true true).
Proof.
  constructor; simpl.
  - done.
  - by constructor.
  - done.
  - intros x p Hp. simpl. rewrite (proj2 (Z.eqb_neq _ _) Hp). by eexists.
  - intros c b. exact (demo_column_prospers 32 c b).
  - intros c b. destruct (internals b) as [|p rest]; [exact (demo_column_prospers 32 c b)|].
    intros q Hq. rewrite (proj2 (Z.eqb_neq _ _) Hq).
    exact (demo_column_prospers 32 c {| block := block b; internals := q :: rest |}).
  - intros q x. split; [done|]. exists [CHC_PKT_OTHER], CHC_PKT_DATA.
    split_and!; [done|by repeat constructor|unfold kMaxRecvPackets; simpl; lia|done].
  - done.
  - intros x. split; [done|]. exists [], CHC_PKT_END_OF_STREAM.
    split_and!; [done|done|unfold kMaxRecvPackets; simpl; lia|done].
Qed.

(** The exporter after the handshake. *)
Definition demo_linked : CH := (establish (CL := demo_lib true true) demo_ch).2.

Lemma demo_linked_ok : talking {[0; 1; 2]} demo_linked ∧ schema_ok demo_linked.
Proof.
  destruct (establish_quiet (CL := demo_lib true true) {[0; 1; 2]} [] demo_ch) as (Hs & Hc & _).
  { destruct demo_ch_quiet. by split_and!. }
  split; [|exact Hc]. split; [exact Hs|]. split; by vm_compute.
Qed.

Lemma demo_calm x : calm (demo_bgw x [[SIGUSR2]; [SIGHUP]]).
Proof. constructor; try done. by repeat constructor. Qed.

Lemma queue_reaches_server_witness :
  let b := demo_bgw demo_linked [[SIGUSR2]; [SIGHUP]] in
  queued_events b = 3%nat ∧
  ∃ b', ExportBatchWithRecovery (E := demo1) (SE := ClickHouse_exporter (CL := demo_lib true true)) (AB := demo_arrow)
          (S (queued_events b)) zero_event b = (Some true, b') ∧
    queued_events b' = 0%nat ∧
    drained (CL := demo_lib true true) {[0; 1; 2]} (turns demo_linked) (g_worker b) (g_worker b').
Proof.
  intros b. split; [vm_compute; reflexivity|].
  destruct (wp_run_spec _ _ _ _ (queue_reaches_server (E := demo1) (CL := demo_lib true true) (AB := demo_arrow)
    {[0; 1; 2]} zero_event b demo_linked demo_healthy (demo_bgw_ok _ _) (demo_calm _) eq_refl eq_refl eq_refl
    demo_linked_ok zero_event_text)) as (r & b' & Heq & H).
  destruct r as [broke|]; [|destruct H]. destruct H as (-> & H0 & _ & Hd). exists b'. split; [exact Heq|]. split; [exact H0|exact Hd].
Defined.

End DrainThms.
